(* ===== verification/_CoqProject ===== *)
-Q . S2P
Prelude.v
CommonDefines.v
HttpDefs.v
HttpMonad.v
HttpExec.v
HttpInv.v
HttpSafe.v
HttpUrl.v
HttpProps.v
HttpHeaders.v
HttpBody.v
ByteBuffer.v
IoBuffer.v
IoBufferProps.v
IoBufferFd.v
IoBuffers.v
IoStream.v
Bolt.v
BoltResponse.v
Queues.v
LifeCycleLock.v
HashMap.v
Session.v
HttpResponse.v
Socket.v
Heap.v
TimeThread.v
TimeThreadProps.v
Decimals.v
Diagnostics.v
Uri.v
HttpRequest.v
Utils.v
EndPoint.v
SocketPosix.v
SocketManager.v
Channel.v
SendSession.v
PipelineSession.v
Pipeline.v
IntrusiveList.v
LruCache.v
ThreadPool.v
Connect.v
Lifecycle.v
EventLoops.v
Shutdown.v
Heartbeat.v
ConcurrentMap.v
BoltCall.v
