(* ===== verification/Prelude.v ===== *)
(** * sofa-bolt-cpp: a verification development

    sofa-bolt-cpp is an RPC client in C++ with an HTTP/1.x parser in C. A call
    runs through the program like this.  A [Channel] (src/channel) picks a
    socket; a [Session] (src/session) assembles the request of its protocol
    (src/protocol) into an [IOBuffer] (src/common/io_buffer.cpp), arms a timer
    (src/schedule/time_thread.cpp) and writes the buffer to the [Socket]
    (src/tcp).  The thread of the socket reads bytes into another [IOBuffer],
    asks the protocol whether they hold a complete response ([checkHeader]),
    has it parsed ([deserialize]), and notifies the waiting session, unless the
    timer did so first.  The containers of include/common (lock-free queues,
    hash map, life-cycle lock) carry sessions and sockets between the threads;
    an intrusive list, an LRU cache and a thread pool are offered beside them.

    ** The files and the code they model

    - Prelude: bytes and character literals, machine integers ([u8] ... [u64],
      [s32]) with their wrap-around, big-endian numbers, lengths in [Z], sums
      over lists, and the tactics and hints all files share.
    - src/protocol/http/http_parser.[hc]:
      -- HttpDefs: enumerations, tables, the parser structure, character
         classes and [parse_url_char];
      -- HttpMonad: the macros and the control flow of [http_parser_execute] as
         a monad over its local variables, whose computations fall through,
         [break], [goto reexecute], [goto error], [return], or fail (an
         assertion, an access outside an array); its weakest preconditions; the
         class [WellBehaved], what the parser asks of an application's
         callbacks;
      -- HttpExec: every case of the [switch], the inner loops, the main loop,
         [http_parser_execute] and the small interface functions;
      -- HttpInv, HttpSafe: the invariant of the parser and the proof that
         every case keeps it;
      -- HttpUrl: [http_parser_parse_url] and the host sub-parser;
      -- HttpProps, HttpHeaders, HttpBody: what the parser computes.
    - src/common/io_buffer.[h,cpp]:
      -- ByteBuffer: the classes [ByteBuffer] and [StreamBuffer] with their
         laws, what the protocols rely on (the second for the stream a protobuf
         message is written through); lists of bytes are the reference instance;
      -- IoBuffer: blocks, slices, the thread-local chain and every operation
         of [IOBuffer] over a store of shared blocks, the invariant, the
         refinement to lists of bytes, and the instance of the class;
      -- IoBufferProps: the contents theorems; IoBufferFd: [readv], [writev];
         IoBuffers: programs over several buffers that share blocks; IoStream:
         the two zero-copy streams of protobuf, and the instance of
         [StreamBuffer].
    - src/protocol/bolt: Bolt (requests, heartbeat, [assembleBoltRequest]) and
      BoltResponse ([checkHeader], [deserialize], [msg]), both over the
      [ByteBuffer] classes.
    - src/protocol/http/http_response.cpp: HttpResponse, a client of the parser
      (it discharges [WellBehaved]) and of [IOBuffer].
    - include/common/lockfree_queue.h: Queues.  life_cycle_lock.h:
      LifeCycleLock.  concurrent_hash_map.h: HashMap, an operation a step, and
      ConcurrentMap, access by access under the locks of the buckets.
      intrusive_list.h: IntrusiveList, access by access.  lru_cache.h with the hooks of
      concurrent_hash_map.h: LruCache, over the class [NodeList] that the
      intrusive list implements.  thread_pool.h: ThreadPool, its workers,
      submitters, leaving threads and destructor interleaved.
    - include/common/common_defines.h: CommonDefines.  src/common/log.[h,cpp]
      and the tables of texts: Diagnostics.
    - src/tcp/socket.h, src/session/session.cpp, src/tcp/socket.cpp
      ([SocketReadSession::notify], [Session::sendInternal],
      [tryReclaimSessionMap]): Session, the life of one session under the
      threads that use it.
    - include/session/session.h, src/session/session.cpp: SendSession
      ([Session], [sendInternal] with its retries, [sync], [async]),
      PipelineSession ([PipelineSession::sync] with its callbacks) and Pipeline
      (the class around it).
    - src/tcp/socket.h, src/tcp/socket.cpp: Socket, writing a request and the
      read event ([onRead], [cutIntoMessage]), over [IOBuffer] and a [Protocol]
      (src/protocol/protocol_define.cpp); a response of an asynchronous
      session is parsed by the reading thread ([postProcess]) before its
      callback is called. The class [ProtocolSafe] is what [onRead] asks of a
      protocol, and Bolt and HTTP are its instances.
    - BoltCall puts a synchronous Bolt call together: the assembling, writing
      and waiting of [sendInternal] over Bolt, IoBuffer and Socket, the read
      event, and the parsing of the response.
    - src/schedule/time_thread.cpp, include/common/time_thread.h: TimeThread
      (the clients and the timer thread, interleaved, and their invariants) and
      TimeThreadProps; Heap states what [std::push_heap] and [std::pop_heap]
      promise as a class, with an instance.
    - src/schedule/schedule.cpp, epoll_loop.cpp, loop_thread.cpp,
      src/tcp/socket_manager.cpp: SocketManager (the loops, the watched sockets
      and their reclaiming, interleaved), Heartbeat (the heartbeats, over
      SendSession), Shutdown ([SocketManager::destroy]).
    - src/schedule/epoll_loop.cpp, kqueue_loop.cpp, loop.h: EventLoops, the two
      loops, each with its own [loop_once], over their system calls (the
      classes [Epoll] and [Kqueue], with the documented laws: which descriptors
      are accepted, one merged event per descriptor of epoll, one per filter of
      kqueue) and the class [LoopBackend] both implement.
    - src/tcp/socket_posix.cpp: SocketPosix, the wrappers over the class
      [Posix] of the system's calls with their documented laws.
    - src/tcp/socket_base.h, src/tcp/socket.cpp ([Socket::connect]): Connect,
      the guards of descriptors and a connection attempt interleaved with the
      loop thread and what its read event does to the status.
    - src/common/common_defines.cpp: Lifecycle, [globalInit] and
      [globalDestroy] with the threads they start and join and the descriptors
      they open and close.
    - src/channel/channel.cpp: Channel. [Connection] is [getSocketInternal] with
      [tryConnect], over the lock of LifeCycleLock; [Pool] is
      [getSubSocketInternal]; [Owned] is [init], the short connections and the
      destructor, for the three connection types.
    - src/common/uri.cpp: Uri.  src/protocol/http/http_protocol.cpp,
      http_request.cpp, http_header.cpp: HttpRequest, over the [ByteBuffer]
      classes.  src/tcp/endpoint.cpp: EndPoint.  include/common/utils.h: Utils.
      Decimals: printing and reading decimal numbers, shared by these.

    ** How the code becomes definitions

    Pure code is functions; members of classes are records passed explicitly;
    a C++ reference to shared memory is a key of a store, so aliasing is that of
    the code.  Errors are the enumerations of the source, undefined behaviour is
    [None] or a failure of the monad, and theorems that claim safety exclude it.
    Concurrent code is one step per atomic access, interleaved by a step
    relation, on a sequentially consistent memory, with one exception: the
    relaxed load of [ThreadPool::submit], which nothing orders after the push
    before it, may take effect early ([early_step]). Histories of what was sent
    and received are ghost fields of the relations.  What is not under src/ is
    a parameter: what protobuf serialises and parses, what [readv], [writev],
    [malloc], [epoll_ctl], [kevent] and [fcntl] answer, hash functions, and the
    application's callbacks.

    ** What the theorems show

    - HTTP parser: [execute_safe] and [session_safe] (no assertion fails, no
      array is read out of bounds, every call returns and keeps the invariant,
      for any input and any sequence of calls); [parse_url_safe];
      [method_sound], [method_complete], [token_table],
      [header_name_recognised], [chunk_size_value], [identity_body_delivered]
      (methods, header names, chunk sizes and bodies are those of the
      grammar).
    - IOBuffer: every operation acts on [contents] as the list operation and
      leaves every other buffer of the store alone ([append_contents],
      [cut_buffer_contents], [pop_back_contents], [append_from_fd_contents],
      [cut_into_fd_contents], [input_stream_position],
      [output_stream_writes]); whole programs over many buffers keep them well
      formed ([buffers_well_formed]) and are programs over lists of bytes
      ([buffers_refine]).
    - Bolt: [assemble_request_frame] and [assemble_heartbeat_frame] give the
      bytes of a request; [check_header_frames] says when a response is
      complete; [deserialize_frame] is the round trip of a response,
      [deserialize_total] and [deserialize_error_status] its other branches,
      [deserialize_reference] says that no buffer makes a difference.
    - HTTP responses: [http_check_header_safe].
    - Sockets: [on_read_delivers] (each response reaches the session with its
      id, however the input is cut; it is kept for a synchronous session and
      parsed for an asynchronous one), [on_read_safe] (any input, any protocol),
      [write_sends_all].
    - A whole call: [bolt_exchange], from the request that is sent to the
      response the caller gets.
    - Timer: [timer_runs_once], [timer_no_lost_wakeup], [timer_progress],
      [timer_cancel], [destroy_runs_rest].
    - Socket manager and event loops: [reclaim_safe], [heartbeat_outcome],
      [destroy_lets_go]; connecting: [connect_outcome]; start and stop:
      [schedule_init_outcome], [global_lifecycle]; the epoll and the kqueue loop:
      [loops_agree]; descriptors: [prepare_socket_ok], [nonblocking_roundtrip].
    - Channels: [channel_ownership], [channel_unblocked] (one socket, many
      threads), [pool_counts] (the pool), [init_owns].
    - Containers: [spmc_fifo], [spsc_fifo], [mpsc_bounds];
      [lock_mutual_exclusion]; [hash_map_refines], [bucket_num_least];
      [map_linearizable] (the interleaved hash map is a finite map) and
      [map_progress] (its locks are always given back);
      [intrusive_list_refines] (a list of distinct nodes, run alone) and
      [taken_once] (no node is taken twice, interleaved); [lru_cache_refines]
      (entries in the order of their last use, memory within the capacity) and
      [lru_destroy_outcome] (its destructor, with and without a virtual
      destructor of the nodes).
    - Thread pool: [tasks_conserved] (no task lost on the way or run twice),
      [wakeups_need_order] (no wake-up is lost if the load follows the push; as
      written one can be), [single_producer] (which justifies the queue of
      [spmc_fifo]), [workers_finish] (the joins of the destructor end).
    - Sessions: [session_notified_once]; [sync_outcome], [async_outcome],
      [pipeline_collects].
    - Log: [log_delivers], [texts_total].
    - Text: [uri_roundtrip], [http_request_roundtrip] (what is written is read
      by a reader of the HTTP/1.1 grammar, which frames the body by its
      Content-Length and leaves what follows), [endpoint_roundtrip],
      [split_variants_agree], [trim_strips], [murmur_ascii].
    The conditions of a theorem are in its doc comment; where one excludes a
    defect, the comment names the theorem below that shows it.
    - Other theorems state where the code departs from its purpose, each
      proved: [chunk_size_high_byte], [header_value_split_dependent],
      [append_consumed_reappears], [cstring_content_misplaced],
      [check_header_limit_wraps], [backup_all_undefined],
      [mpsc_pops_unwritten], [intrusive_exchange_drops],
      [async_sender_use_after_delete], [pipelined_responses_merged],
      [write_eagain_loses], [timer_cancel_lost], [reclaim_wrong_thread],
      [reclaim_stale_notification], [short_sockets_leak],
      [empty_pool_undefined], [destructor_never_ends],
      [async_failure_throws], [async_retry_forgets], [write_failure_race],
      [long_timeout_undefined], [pipeline_lost_update], [uri_space_tests], [uri_stale_query],
      [uri_undefined], [http_retry_sends_no_body], [http_get_body_unframed],
      [http_query_dropped], [http_no_port_refused], [retries_early_errors],
      [move_assign_breaks], [empty_message_undefined], [blocking_connect_waits],
      [both_events], [endpoint_port_wraps],
      [split_empty_delimiter_loops], [trim_view_blank], [murmur_high_byte],
      [readded_node_breaks_list], [erase_reads_deleted],
      [larger_victim_empties], [exchange_uses_deleted],
      [exchange_exceeds_capacity], [full_pool_runs_inline],
      [queued_task_dropped], [left_thread_sleeps], [leaving_unpairs_another],
      [active_exceeds_capacity], [late_connection_leaks], [assignment_leaks],
      [started_again], [moved_not_stopped], [no_threads_to_reclaim],
      [size_update_lost], [added_again], [removed_otherwise],
      [pipeline_stale_text].

    ** Bounds and fuel

    - The main loop of [http_parser_execute] gets [S (length data)] rounds and
      [goto reexecute] four: HttpSafe proves that each round consumes a byte
      and that a byte is treated at most four times, so neither runs out.
      Inputs are shorter than 2^64 bytes, the range of [size_t]; URLs shorter
      than 2^16, the range of the fields' offsets.
    - [chain_fuel] is one more than the number of blocks: the chain has no
      cycle.  At most [MAX_APPEND_IOVEC] = 64 blocks are gathered for a read,
      as in the code.  [header_map_loop] gets one round more than the bytes of
      the buffer, of which each round takes at least four; [stream_write] and [skip_loop]
      get a round per byte and per slice.
    - [cut_messages] gets one round more than the bytes of the read buffer: a
      message takes at least one of them; [notify_loop] six, the steps of a
      notification. [split_run] gets one round more than the length of the
      string; [digits] one more than the binary logarithm of the number.
    - The queue theorems hold while fewer than 2^64 values have been pushed,
      where the indices would wrap, the timer theorems while fewer than 2^64
      tasks have been scheduled; the theorems on the lock, on the hash map and
      on channels for
      fewer than 2^28 - 1 threads, where the word would overflow, the one on
      pools for fewer than 2^64 - 1, the range of the counts.
    - [callback] gives a pipeline's callback four steps, its accesses; the
      session theorems hold for timeouts below 2^31 / 1000 ms, above which
      [_timeout * 1000] overflows, and for fewer than 2^64 requests.
    - [list_call] gives an operation of the intrusive list, run alone, its at
      most nine accesses; [clear_loop] a round per node and two; [release] and
      [destroy_lru] a round more than there are live nodes, of which each
      round deletes one. The cache theorems hold for capacities below 2^63
      bytes, where no sum of two sizes wraps around.
    - The thread-pool theorems on pairing and sleeping hold while no submitting
      thread ends; [left_thread_sleeps], [leaving_unpairs_another] and
      [active_exceeds_capacity] show what happens when one does.
    - [reclaim_safe] assumes that the pipe of the socket manager belongs to the
      first loop thread and that no wait times out; [reclaim_wrong_thread] and
      [reclaim_stale_notification] show that neither can be left out.

    ** What is not modelled, and the order in which it is to be added

    Still open: [LoopThread] objects that a growing vector moves, a whole call over HTTP, and the interleaving of the cache's
    operations.  Left aside for good: the futures of the thread pool, the
    vendored fmt library (logging takes the formatted text as an argument),
    weak memory orders but for the load named above, what an application's
    callback does itself, the interleaved life of a session whose write failed
    (its steps alone are [write_failure_race] and [destructor_never_ends]),
    most destructors, [IOBuffer::dump] and accessors of the unit tests, and the
    parser's non-strict build. *)

From Stdlib Require Export ZArith Lia.
From stdpp Require Export base list strings option.
#[global] Open Scope Z_scope.

(** ** Character literals: a one-character string in scope [%c] is its code *)

Definition char_parse (l : list Byte.byte) : option Z :=
  match l with
  | [b] => Some (Z.of_N (Byte.to_N b))
  | _ => None
  end.

Definition char_print (z : Z) : option (list Byte.byte) := None.

Declare Scope char_code_scope.
Delimit Scope char_code_scope with c.
String Notation Z char_parse char_print : char_code_scope.

(** Bytes are integers in [0, 256); a C string literal is the list of its
    character codes, without the terminating NUL. *)
Definition bytes_of_string (s : string) : list Z :=
  map (fun a => Z.of_N (Ascii.N_of_ascii a)) (String.list_ascii_of_string s).

Definition is_byte (b : Z) : Prop := 0 <= b < 256.

(** [c_str_at s i] is the array element [s[i]] of a NUL-terminated C string:
    the NUL is at index [strlen s]; beyond it the access is out of bounds. *)
Definition c_str_at (s : list Z) (i : Z) : option Z :=
  if (0 <=? i) && (i <? Z.of_nat (length s)) then s !! Z.to_nat i
  else if i =? Z.of_nat (length s) then Some 0
  else None.

(** ** Machine integers *)

Definition u8 (z : Z) : Z := z mod 2 ^ 8.
Definition u16 (z : Z) : Z := z mod 2 ^ 16.
Definition u32 (z : Z) : Z := z mod 2 ^ 32.
Definition u64 (z : Z) : Z := z mod 2 ^ 64.
Definition u7 (z : Z) : Z := z mod 2 ^ 7.

Definition i32 (z : Z) : Z := (z + 2 ^ 31) mod 2 ^ 32 - 2 ^ 31.

Lemma u8_small z : 0 <= z < 256 -> u8 z = z.
Proof. intros H. apply Z.mod_small. exact H. Qed.

Lemma u16_small z : 0 <= z < 65536 -> u16 z = z.
Proof. intros H. apply Z.mod_small. exact H. Qed.

Lemma u32_small z : 0 <= z < 2 ^ 32 -> u32 z = z.
Proof. intros H. apply Z.mod_small. exact H. Qed.

Lemma u64_small z : 0 <= z < 2 ^ 64 -> u64 z = z.
Proof. intros H. apply Z.mod_small. exact H. Qed.

Lemma u7_small z : 0 <= z < 128 -> u7 z = z.
Proof. intros H. apply Z.mod_small. exact H. Qed.

Lemma u8_range z : 0 <= u8 z < 256.
Proof. apply Z.mod_pos_bound. reflexivity. Qed.

(** The conversion to a signed 32-bit integer *)
Definition s32 (x : Z) : Z := (x + 2 ^ 31) mod 2 ^ 32 - 2 ^ 31.

Lemma s32_small x : - 2 ^ 31 <= x < 2 ^ 31 -> s32 x = x.
Proof. intros H. unfold s32. rewrite Z.mod_small; lia. Qed.

Lemma u16_range z : 0 <= u16 z < 65536.
Proof. apply Z.mod_pos_bound. reflexivity. Qed.

Lemma u32_range z : 0 <= u32 z < 2 ^ 32.
Proof. apply Z.mod_pos_bound. reflexivity. Qed.

Lemma u64_range z : 0 <= u64 z < 2 ^ 64.
Proof. apply Z.mod_pos_bound. reflexivity. Qed.

Lemma u7_range z : 0 <= u7 z < 128.
Proof. apply Z.mod_pos_bound. reflexivity. Qed.

(** ** Flag words *)

(** [flags & f] as a C condition *)
Definition has_bit (flags f : Z) : bool := negb (Z.land flags f =? 0).

Lemma land_pow2_testbit x k :
  0 <= k -> Z.land x (2 ^ k) = if Z.testbit x k then 2 ^ k else 0.
Proof.
  intros Hk. apply Z.bits_inj'. intros n Hn.
  rewrite Z.land_spec, Z.pow2_bits_eqb by lia.
  destruct (Z.eqb_spec k n) as [->|Hne].
  - destruct (Z.testbit x n) eqn:E; simpl.
    + now rewrite Z.pow2_bits_true.
    + now rewrite Z.testbit_0_l.
  - rewrite andb_false_r. destruct (Z.testbit x k).
    + rewrite Z.pow2_bits_false by lia. reflexivity.
    + now rewrite Z.testbit_0_l.
Qed.

Lemma has_bit_testbit x k : 0 <= k -> has_bit x (2 ^ k) = Z.testbit x k.
Proof.
  intros Hk. unfold has_bit. rewrite land_pow2_testbit by lia.
  destruct (Z.testbit x k); [|reflexivity].
  rewrite (proj2 (Z.eqb_neq _ _)); [reflexivity|].
  pose proof (Z.pow_pos_nonneg 2 k). lia.
Qed.

Lemma lor_u8_range a b : 0 <= a < 256 -> 0 <= b < 256 -> 0 <= Z.lor a b < 256.
Proof.
  intros Ha Hb. split; [apply Z.lor_nonneg; lia|].
  destruct (Z.eq_dec (Z.lor a b) 0) as [->|Hne]; [lia|].
  assert (0 <= Z.lor a b) by (apply Z.lor_nonneg; lia).
  apply Z.log2_lt_cancel. rewrite Z.log2_lor by lia.
  change (Z.log2 256) with 8.
  assert (forall x, 0 <= x < 256 -> Z.log2 x < 8) as Hlog.
  { intros x Hx. destruct (Z.eq_dec x 0) as [->|]; [reflexivity|].
    apply Z.log2_lt_pow2; lia. }
  pose proof (Hlog a Ha). pose proof (Hlog b Hb). lia.
Qed.

(** ** Lists addressed with C offsets *)

(** [data[p]], undefined outside [0, len) *)
Definition byte_at (data : list Z) (p : Z) : option Z :=
  if p <? 0 then None else data !! Z.to_nat p.

(** The bytes of [data] at offsets [from .. from + n - 1]. *)
Definition sub_bytes (data : list Z) (from n : Z) : list Z :=
  take (Z.to_nat n) (drop (Z.to_nat from) data).

Definition zlen {A} (l : list A) : Z := Z.of_nat (length l).

Lemma zlen_nonneg {A} (l : list A) : 0 <= zlen l.
Proof. unfold zlen. lia. Qed.

Lemma zlen_app {A} (l l' : list A) : zlen (l ++ l') = zlen l + zlen l'.
Proof. unfold zlen. rewrite length_app. lia. Qed.

(** Sums over a list *)
Definition zsum {A} (f : A -> Z) (l : list A) : Z := foldr (fun x n => f x + n) 0 l.

Lemma zsum_insert {A} (f : A -> Z) l i x y :
  l !! i = Some x -> zsum f (<[i := y]> l) = zsum f l - f x + f y.
Proof.
  revert i. induction l as [|z l IH]; intros [|i] Hi; [done..|cbn in *; simplify_eq; lia|].
  change (<[S i:=y]> (z :: l)) with (z :: <[i:=y]> l).
  change (zsum f (z :: <[i:=y]> l)) with (f z + zsum f (<[i:=y]> l)). rewrite (IH i Hi). cbn.
  unfold zsum. lia.
Qed.

Lemma zsum_nonneg {A} (f : A -> Z) l : (forall x, 0 <= f x) -> 0 <= zsum f l.
Proof. intros Hf. induction l as [|x l IH]; cbn; [lia|]. pose proof (Hf x). unfold zsum in *. lia. Qed.

Lemma zsum_ge {A} (f : A -> Z) l i x : (forall x, 0 <= f x) -> l !! i = Some x -> f x <= zsum f l.
Proof.
  intros Hf. revert i. induction l as [|z l IH]; intros [|i] Hi; cbn in *; simplify_eq.
  - pose proof (zsum_nonneg f l Hf). unfold zsum in *. lia.
  - specialize (IH i Hi). pose proof (Hf z). unfold zsum in *. lia.
Qed.

Lemma zsum_two {A} (f : A -> Z) l i j x y :
  (forall x, 0 <= f x) -> i <> j -> l !! i = Some x -> l !! j = Some y -> f x + f y <= zsum f l.
Proof.
  intros Hf Hij. revert i j Hij. induction l as [|z l IH]; intros [|i] [|j] Hij Hi Hj; cbn in *; simplify_eq.
  - pose proof (zsum_ge f l j y Hf Hj). unfold zsum in *. lia.
  - pose proof (zsum_ge f l i x Hf Hi). unfold zsum in *. lia.
  - specialize (IH i j ltac:(congruence) Hi Hj). pose proof (Hf z). unfold zsum in *. lia.
Qed.

Lemma zsum_le_length {A} (f : A -> Z) l : (forall x, f x <= 1) -> zsum f l <= zlen l.
Proof.
  intros Hf. unfold zlen. induction l as [|x l IH]; cbn; [lia|]. pose proof (Hf x). unfold zsum in *. lia.
Qed.

Lemma zsum_replicate_mul {A} (f : A -> Z) n x : zsum f (replicate n x) = Z.of_nat n * f x.
Proof. induction n as [|n IH]; cbn; [done|]. unfold zsum in IH. rewrite IH. lia. Qed.

Lemma zsum_replicate {A} (f : A -> Z) n x : f x = 0 -> zsum f (replicate n x) = 0.
Proof. intros Hx. rewrite zsum_replicate_mul, Hx. lia. Qed.

Lemma zsum_app {A} (f : A -> Z) l1 l2 : zsum f (l1 ++ l2) = zsum f l1 + zsum f l2.
Proof. induction l1 as [|x l1 IH]; cbn; [done|]. unfold zsum in *. lia. Qed.

Lemma byte_at_Some data p b :
  byte_at data p = Some b -> 0 <= p < zlen data.
Proof.
  unfold byte_at, zlen. destruct (Z.ltb_spec p 0); [done|].
  intros Hl%lookup_lt_Some. lia.
Qed.

Lemma byte_at_in data p :
  0 <= p < zlen data -> exists b, byte_at data p = Some b.
Proof.
  unfold byte_at, zlen. intros H. destruct (Z.ltb_spec p 0); [lia|].
  destruct (lookup_lt_is_Some_2 data (Z.to_nat p)) as [b Hb]; [lia|]. eauto.
Qed.

Lemma byte_at_byte data p b :
  Forall is_byte data -> byte_at data p = Some b -> is_byte b.
Proof.
  unfold byte_at. intros HF. destruct (p <? 0); [done|].
  intros Hl. by eapply Forall_lookup_1.
Qed.

Lemma length_sub_bytes data from n :
  0 <= from -> 0 <= n -> from + n <= zlen data ->
  zlen (sub_bytes data from n) = n.
Proof.
  unfold sub_bytes, zlen. intros ???. rewrite length_take, length_drop. lia.
Qed.

(** ** Automation *)

Create HintDb bolt.
#[export] Hint Resolve u8_range u16_range u32_range u64_range u7_range zlen_nonneg : bolt.

(** Case analysis on the condition of an [if] in the goal. *)
Ltac case_if :=
  match goal with
  | |- context [if ?b then _ else _] =>
      match type of b with bool => destruct b eqn:? end
  end.

(** Turn boolean comparisons of the context into propositions. *)
Ltac breflect :=
  repeat match goal with
  | H : (_ && _)%bool = true |- _ => apply andb_true_iff in H; destruct H
  | H : (_ && _)%bool = false |- _ => apply andb_false_iff in H
  | H : (_ || _)%bool = true |- _ => apply orb_true_iff in H
  | H : (_ || _)%bool = false |- _ => apply orb_false_iff in H; destruct H
  | H : negb _ = true |- _ => apply negb_true_iff in H
  | H : negb _ = false |- _ => apply negb_false_iff in H
  | H : (_ =? _) = true |- _ => apply Z.eqb_eq in H
  | H : (_ =? _) = false |- _ => apply Z.eqb_neq in H
  | H : (_ <? _) = true |- _ => apply Z.ltb_lt in H
  | H : (_ <? _) = false |- _ => apply Z.ltb_ge in H
  | H : (_ <=? _) = true |- _ => apply Z.leb_le in H
  | H : (_ <=? _) = false |- _ => apply Z.leb_gt in H
  end.
