(* ===== verification/CommonDefines.v ===== *)
(** * Status and error codes (include/common/common_defines.h)

    The enumerations every component reports with, and the constants of the
    socket layer. *)

From S2P Require Import Prelude.

(** [RPC_STATUS_MAP] *)
Inductive ERpcStatus : Set :=
| RPC_STATUS_OK
| RPC_STATUS_INIT
| RPC_STATUS_CHANNEL_INIT_FAIL
| RPC_STATUS_SOCKET_CONNECT_FAIL
| RPC_STATUS_SOCKET_CONNECT_TIMEOUT
| RPC_STATUS_SOCKET_WRITE_ERROR
| RPC_STATUS_SOCKET_READ_ERROR
| RPC_STATUS_SOCKET_CLOSED_BY_SERVER
| RPC_STATUS_SOCKET_HEARTBEAT_FAIL
| RPC_STATUS_SOCKET_TO_RECLAIM.

#[global] Instance ERpcStatus_eq_dec : EqDecision ERpcStatus.
Proof. solve_decision. Defined.

Inductive ESessionError : Set :=
| SESSION_OK
| PROTOCOL_NOT_FOUND
| ASSEMBLE_REQUEST_FAIL
| SOCKET_LOST
| SOCKET_BUSY
| WRITE_FAIL
| READ_FAIL
| READ_TIMEOUT
| PARSE_RESPONSE_FAIL
| TIMER_BUSY.

#[global] Instance ESessionError_eq_dec : EqDecision ESessionError.
Proof. solve_decision. Defined.

(** What a protocol's parsing functions answer (include/protocol/response_base.h) *)
Inductive EResParseResult : Set := PARSE_OK | PARSE_ERROR | PARSE_NOT_ENOUGH_DATA.

#[global] Instance EResParseResult_eq_dec : EqDecision EResParseResult.
Proof. solve_decision. Defined.

(** [s_session_error_info] of src/session/session.cpp *)
Definition s_session_error_info (e : ESessionError) : string :=
  match e with
  | SESSION_OK => "success"
  | PROTOCOL_NOT_FOUND => "protocol not found"
  | ASSEMBLE_REQUEST_FAIL => "package request fail"
  | SOCKET_LOST => "socket object lost"
  | SOCKET_BUSY => "socket is busy reading data"
  | WRITE_FAIL => "write into remote fail"
  | READ_FAIL => "read data from remote fail"
  | READ_TIMEOUT => "read data timeout"
  | PARSE_RESPONSE_FAIL => "parse response fail"
  | TIMER_BUSY => "timer thread busy"
  end.

Definition SOCKET_CONNECT_TIMEOUT_MS : Z := 200.
Definition SOCKET_TIMEOUT_MS : Z := 500.
Definition SOCKET_MAX_RETRY : Z := 3.
Definition SOCKET_MAX_IDLE_US : Z := 15 * 1000 * 1000.
Definition MAX_PARALLEL_SESSION_SIZE_ON_SOCKET : Z := 1024.
