(* ===== verification/HttpMonad.v ===== *)
(** * The control monad of [http_parser_execute] and its program logic

    [http_parser_execute] (src/protocol/http/http_parser.c) is one loop around
    one [switch] whose cases leave it by [break], [goto reexecute],
    [goto error] and [return], and whose macros test assertions and call back
    into the application.  A statement of that function is modelled as a
    computation over its local variables that ends in one of these ways, or in
    a failure: a false [assert], an access outside an array, or fuel that ran
    out.  The file defines the monad, the macros of http_parser.c as
    computations, and a weakest-precondition calculus for them. *)

From S2P Require Import Prelude HttpDefs.

(** ** Local variables of [http_parser_execute] *)

(** The five [FOR##_mark] variables. *)
Inductive mark : Set := M_header_field | M_header_value | M_url | M_body | M_status.

#[global] Instance mark_eq_dec : EqDecision mark.
Proof. solve_decision. Defined.

(** Pointers into the input are offsets from [data]; a null mark is [None].
    [c], [unhex_val] and the block-local variables of the cases are assigned
    before every use and are [let]-bound. *)
Record locals (D : Type) : Type := mk_locals {
  l_parser : http_parser D;
  l_ch : Z;
  l_p : Z;
  l_state : state;
  l_header_field_mark : option Z;
  l_header_value_mark : option Z;
  l_url_mark : option Z;
  l_body_mark : option Z;
  l_status_mark : option Z
}.
#[global] Arguments mk_locals {D}.
#[global] Arguments l_parser {D}.
#[global] Arguments l_ch {D}.
#[global] Arguments l_p {D}.
#[global] Arguments l_state {D}.
#[global] Arguments l_header_field_mark {D}.
#[global] Arguments l_header_value_mark {D}.
#[global] Arguments l_url_mark {D}.
#[global] Arguments l_body_mark {D}.
#[global] Arguments l_status_mark {D}.

Section LocalsAccess.
Context {D : Type}.
Implicit Type l : locals D.

Definition l_set_parser (v : http_parser D) l : locals D :=
  mk_locals v (l_ch l) (l_p l) (l_state l) (l_header_field_mark l)
    (l_header_value_mark l) (l_url_mark l) (l_body_mark l) (l_status_mark l).

Definition l_set_ch (v : Z) l : locals D :=
  mk_locals (l_parser l) v (l_p l) (l_state l) (l_header_field_mark l)
    (l_header_value_mark l) (l_url_mark l) (l_body_mark l) (l_status_mark l).

Definition l_set_p (v : Z) l : locals D :=
  mk_locals (l_parser l) (l_ch l) v (l_state l) (l_header_field_mark l)
    (l_header_value_mark l) (l_url_mark l) (l_body_mark l) (l_status_mark l).

Definition l_set_state (v : state) l : locals D :=
  mk_locals (l_parser l) (l_ch l) (l_p l) v (l_header_field_mark l)
    (l_header_value_mark l) (l_url_mark l) (l_body_mark l) (l_status_mark l).

Definition l_mark (m : mark) l : option Z :=
  match m with
  | M_header_field => l_header_field_mark l
  | M_header_value => l_header_value_mark l
  | M_url => l_url_mark l
  | M_body => l_body_mark l
  | M_status => l_status_mark l
  end.

Definition l_set_mark (m : mark) (v : option Z) l : locals D :=
  match m with
  | M_header_field => mk_locals (l_parser l) (l_ch l) (l_p l) (l_state l)
      v (l_header_value_mark l) (l_url_mark l)
      (l_body_mark l) (l_status_mark l)
  | M_header_value => mk_locals (l_parser l) (l_ch l) (l_p l) (l_state l)
      (l_header_field_mark l) v (l_url_mark l)
      (l_body_mark l) (l_status_mark l)
  | M_url => mk_locals (l_parser l) (l_ch l) (l_p l) (l_state l)
      (l_header_field_mark l) (l_header_value_mark l) v
      (l_body_mark l) (l_status_mark l)
  | M_body => mk_locals (l_parser l) (l_ch l) (l_p l) (l_state l)
      (l_header_field_mark l) (l_header_value_mark l) (l_url_mark l)
      v (l_status_mark l)
  | M_status => mk_locals (l_parser l) (l_ch l) (l_p l) (l_state l)
      (l_header_field_mark l) (l_header_value_mark l) (l_url_mark l)
      (l_body_mark l) v
  end.

End LocalsAccess.

#[global] Arguments l_set_parser {D} v !l /.
#[global] Arguments l_set_ch {D} v !l /.
#[global] Arguments l_set_p {D} v !l /.
#[global] Arguments l_set_state {D} v !l /.
#[global] Arguments l_set_mark {D} !m v !l /.

(** ** Outcomes *)

Inductive failure : Set := AssertFailed | OutOfBounds | OutOfFuel | FellThrough.

Inductive outcome (D A : Type) : Type :=
| Next (a : A) (l : locals D)             (* the next statement *)
| Break (l : locals D)                    (* leave the [switch] *)
| Reexecute (l : locals D)                (* [goto reexecute] *)
| Error (l : locals D)                    (* [goto error] *)
| Return (h : http_parser D) (n : Z)      (* [return n] *)
| Fail (f : failure).
#[global] Arguments Next {D A}.
#[global] Arguments Break {D A}.
#[global] Arguments Reexecute {D A}.
#[global] Arguments Error {D A}.
#[global] Arguments Return {D A}.
#[global] Arguments Fail {D A}.

Definition M (D A : Type) : Type := locals D -> outcome D A.

#[global] Instance M_ret {D} : MRet (M D) := fun A a l => Next a l.

#[global] Instance M_bind {D} : MBind (M D) := fun A B k m l =>
  match m l with
  | Next a l' => k a l'
  | Break l' => Break l'
  | Reexecute l' => Reexecute l'
  | Error l' => Error l'
  | Return h n => Return h n
  | Fail f => Fail f
  end.

(** ** Statements and macros *)

Section Statements.
Context {D : Type} (settings : http_parser_settings D) (data : list Z).

(** Reading the parser and the locals *)
Definition gets {A} (f : http_parser D -> A) : M D A := fun l => Next (f (l_parser l)) l.
Definition get_ch : M D Z := fun l => Next (l_ch l) l.
Definition get_p : M D Z := fun l => Next (l_p l) l.
Definition CURRENT_STATE : M D state := fun l => Next (l_state l) l.
Definition get_mark (m : mark) : M D (option Z) := fun l => Next (l_mark m l) l.

(** Writing them *)
Definition upd (f : http_parser D -> http_parser D) : M D unit :=
  fun l => Next tt (l_set_parser (f (l_parser l)) l).
Definition put_ch (v : Z) : M D unit := fun l => Next tt (l_set_ch v l).
Definition put_p (v : Z) : M D unit := fun l => Next tt (l_set_p v l).
Definition UPDATE_STATE (v : state) : M D unit := fun l => Next tt (l_set_state v l).
Definition put_mark (m : mark) (v : option Z) : M D unit := fun l => Next tt (l_set_mark m v l).

Definition SET_ERRNO (e : http_errno) : M D unit := upd (set_http_errno e).

(** [parser->flags |= f] *)
Definition or_flags (f : Z) : M D unit :=
  upd (fun h => set_flags (u8 (Z.lor (hp_flags h) f)) h).

(** Control *)
Definition break : M D unit := fun l => Break l.
Definition REEXECUTE : M D unit := fun l => Reexecute l.
Definition goto_error {A} : M D A := fun l => Error l.
Definition fail_with {A} (f : failure) : M D A := fun _ => Fail f.

(** [SET_ERRNO(e); goto error;] *)
Definition error (e : http_errno) : M D unit := SET_ERRNO e ;; goto_error.

(** A plain [return n], which does not store the state *)
Definition return_ {A} (n : Z) : M D A := fun l => Return (l_parser l) n.

(** [RETURN(V)] *)
Definition RETURN {A} (n : Z) : M D A :=
  fun l => Return (set_state (l_state l) (l_parser l)) n.

(** [assert(b)]: the build leaves NDEBUG undefined *)
Definition c_assert (b : bool) : M D unit :=
  if b then mret tt else fail_with AssertFailed.

(** [*p] *)
Definition deref (p : Z) : M D Z :=
  match byte_at data p with
  | Some b => mret b
  | None => fail_with OutOfBounds
  end.

(** [STRICT_CHECK(cond)], in strict mode *)
Definition STRICT_CHECK (cond : bool) : M D unit :=
  if cond then error HPE_STRICT else mret tt.

(** [COUNT_HEADER_SIZE(V)]; [nread] is a [uint32_t] *)
Definition COUNT_HEADER_SIZE (V : Z) : M D unit :=
  upd (fun h => set_nread (u32 (hp_nread h + V)) h) ;;
  nread ← gets hp_nread;
  if HTTP_MAX_HEADER_SIZE <? nread then error HPE_HEADER_OVERFLOW else mret tt.

(** [MARK(FOR)] *)
Definition MARK (m : mark) : M D unit :=
  v ← get_mark m;
  match v with
  | Some _ => mret tt
  | None => p ← get_p; put_mark m (Some p)
  end.

(** The part of the callback macros after the callback returned [r]:
    [if (0 != r) SET_ERRNO(e); UPDATE_STATE(parser->state);
     if (HTTP_PARSER_ERRNO(parser) != HPE_OK) return (ER);] *)
Definition after_callback (r : Z) (e : http_errno) (ER : Z) : M D unit :=
  (if negb (r =? 0) then SET_ERRNO e else mret tt) ;;
  st ← gets hp_state;
  UPDATE_STATE st ;;
  errno ← gets hp_http_errno;
  if decide (errno = HPE_OK) then mret tt else return_ ER.

(** [parser->state = CURRENT_STATE();] and the call of a callback [f] *)
Definition call (f : http_parser D -> http_parser D * Z) : M D Z :=
  st ← CURRENT_STATE;
  upd (set_state st) ;;
  res ← gets f;
  upd (fun _ => fst res) ;;
  mret (snd res).

Definition assert_errno_ok : M D unit :=
  errno ← gets hp_http_errno;
  c_assert (bool_decide (errno = HPE_OK)).

(** [CALLBACK_NOTIFY_(FOR, ER)] *)
Definition CALLBACK_NOTIFY_ (cb : option (http_cb D)) (e : http_errno) (ER : Z) : M D unit :=
  assert_errno_ok ;;
  match cb with
  | None => mret tt
  | Some f => r ← call f; after_callback r e ER
  end.

(** [CALLBACK_NOTIFY(FOR)] consumes the current byte,
    [CALLBACK_NOTIFY_NOADVANCE(FOR)] does not. *)
Definition CALLBACK_NOTIFY (cb : option (http_cb D)) (e : http_errno) : M D unit :=
  p ← get_p; CALLBACK_NOTIFY_ cb e (p + 1).

Definition CALLBACK_NOTIFY_NOADVANCE (cb : option (http_cb D)) (e : http_errno) : M D unit :=
  p ← get_p; CALLBACK_NOTIFY_ cb e p.

(** [settings->on_##FOR] and [HPE_CB_##FOR] of a data callback *)
Definition data_cb (m : mark) : option (http_data_cb D) :=
  match m with
  | M_header_field => on_header_field settings
  | M_header_value => on_header_value settings
  | M_url => on_url settings
  | M_body => on_body settings
  | M_status => on_status settings
  end.

Definition data_errno (m : mark) : http_errno :=
  match m with
  | M_header_field => HPE_CB_header_field
  | M_header_value => HPE_CB_header_value
  | M_url => HPE_CB_url
  | M_body => HPE_CB_body
  | M_status => HPE_CB_status
  end.

(** The region a data callback receives must lie inside the input. *)
Definition check_region (from n : Z) : M D unit :=
  if (0 <=? from) && (0 <=? n) && (from + n <=? zlen data) then mret tt
  else fail_with OutOfBounds.

(** [CALLBACK_DATA_(FOR, LEN, ER)]; [LEN] is [extra] more than
    [p - FOR##_mark] *)
Definition CALLBACK_DATA_ (m : mark) (extra : Z) (ER : Z) : M D unit :=
  assert_errno_ok ;;
  v ← get_mark m;
  match v with
  | None => mret tt
  | Some at_ =>
      p ← get_p;
      let LEN := p - at_ + extra in
      match data_cb m with
      | None => mret tt
      | Some f =>
          check_region at_ LEN ;;
          r ← call (fun h => f h (sub_bytes data at_ LEN));
          after_callback r (data_errno m) ER
      end ;;
      put_mark m None
  end.

Definition CALLBACK_DATA (m : mark) : M D unit :=
  p ← get_p; CALLBACK_DATA_ m 0 (p + 1).

Definition CALLBACK_DATA_NOADVANCE (m : mark) : M D unit :=
  p ← get_p; CALLBACK_DATA_ m 0 p.

(** [matcher[i]] of a NUL-terminated string *)
Definition str_at (s : list Z) (i : Z) : M D Z :=
  match c_str_at s i with
  | Some b => mret b
  | None => fail_with OutOfBounds
  end.

End Statements.

(** ** Weakest preconditions *)

(** What must hold when a statement leaves the normal flow. *)
Record exits (D : Type) : Type := mk_exits {
  on_break : locals D -> Prop;
  on_reexecute : locals D -> Prop;
  on_error : locals D -> Prop;
  on_return : http_parser D -> Z -> Prop
}.
#[global] Arguments mk_exits {D}.
#[global] Arguments on_break {D}.
#[global] Arguments on_reexecute {D}.
#[global] Arguments on_error {D}.
#[global] Arguments on_return {D}.

Definition wp {D A} (m : M D A) (Q : A -> locals D -> Prop) (K : exits D) (l : locals D) : Prop :=
  match m l with
  | Next a l' => Q a l'
  | Break l' => on_break K l'
  | Reexecute l' => on_reexecute K l'
  | Error l' => on_error K l'
  | Return h n => on_return K h n
  | Fail _ => False
  end.

Section Wp.
Context {D : Type}.
Implicit Types (l : locals D) (K : exits D) (h : http_parser D).

Lemma wp_bind {A B} (m : M D A) (k : A -> M D B) Q K l :
  wp m (fun a l' => wp (k a) Q K l') K l -> wp (m ≫= k) Q K l.
Proof. unfold wp, mbind, M_bind. by destruct (m l). Qed.

Lemma wp_mono {A} (m : M D A) (Q Q' : A -> locals D -> Prop) K l :
  (forall a l', Q a l' -> Q' a l') -> wp m Q K l -> wp m Q' K l.
Proof. unfold wp. intros HQ. destruct (m l); auto. Qed.

Lemma wp_exits {A} (m : M D A) (Q : A -> locals D -> Prop) K K' l :
  (forall l', on_break K l' -> on_break K' l') ->
  (forall l', on_reexecute K l' -> on_reexecute K' l') ->
  (forall l', on_error K l' -> on_error K' l') ->
  (forall h n, on_return K h n -> on_return K' h n) ->
  wp m Q K l -> wp m Q K' l.
Proof. unfold wp. intros ????. destruct (m l); auto. Qed.

(** *** Well-behaved callbacks

    http_parser.h marks every field of the parser but [data] as private or
    read-only; the documented interface lets a callback change its own data and
    call [http_parser_pause]. *)

Definition cb_frame h h' : Prop :=
  exists d e, h' = set_http_errno e (set_data d h)
              /\ (e = hp_http_errno h \/ e = HPE_PAUSED).

Definition notify_ok (cb : option (http_cb D)) : Prop :=
  forall f h, cb = Some f -> cb_frame h (fst (f h)).

Definition data_ok (cb : option (http_data_cb D)) : Prop :=
  forall f h bs, cb = Some f -> cb_frame h (fst (f h bs)).

Class WellBehaved (s : http_parser_settings D) : Prop := {
  wb_message_begin : notify_ok (on_message_begin s);
  wb_headers_complete : notify_ok (on_headers_complete s);
  wb_message_complete : notify_ok (on_message_complete s);
  wb_chunk_header : notify_ok (on_chunk_header s);
  wb_chunk_complete : notify_ok (on_chunk_complete s);
  wb_data : forall m, data_ok (data_cb s m)
}.

(** The callback returned: either parsing goes on with the callback's data, or
    the function returns with an error. *)
Lemma wp_after_call (f : http_parser D -> http_parser D * Z) e ER Q K l :
  (forall h, cb_frame h (fst (f h))) ->
  e <> HPE_OK ->
  hp_http_errno (l_parser l) = HPE_OK ->
  (forall d s, s = l_state l \/ s = hp_state (l_parser l) ->
     Q tt (l_set_parser (set_state s (set_data d (l_parser l))) l)) ->
  (forall d e', e' <> HPE_OK -> e' = e \/ e' = HPE_PAUSED ->
     on_return K (set_http_errno e' (set_state (l_state l) (set_data d (l_parser l)))) ER) ->
  wp (r ← call f; after_callback r e ER) Q K l.
Proof.
  intros Hf He Hok Hnext Hret. destruct l as [h ch p st m1 m2 m3 m4 m5]. destruct h. cbn in Hok.
  unfold call. cbn. unfold wp, mbind, M_bind, mret, M_ret; cbn.
  match goal with |- context [f ?x] => destruct (Hf x) as (d & e' & Heq & Hcase);
    destruct (f x) as [h' r]; cbn in Heq, Hcase |- *; subst h' end.
  unfold after_callback, mbind, M_bind, mret, M_ret; cbn.
  destruct (r =? 0); cbn; case_decide; cbn in *; try congruence.
  - destruct Hcase as [->| ->]; subst; [apply (Hnext d st); by left|discriminate].
  - apply (Hret d e'); [done|]. right. destruct Hcase; congruence.
  - apply (Hret d e); auto.
Qed.

Lemma set_state_data_id h : set_state (hp_state h) (set_data (hp_data h) h) = h.
Proof. by destruct h. Qed.

Lemma l_set_parser_id l : l_set_parser (l_parser l) l = l.
Proof. by destruct l. Qed.

Lemma l_set_mark_id m l : l_mark m l = None -> l_set_mark m None l = l.
Proof. destruct l, m; cbn; by intros ->. Qed.

Lemma wp_notify cb e ER Q K l :
  notify_ok cb ->
  e <> HPE_OK ->
  hp_http_errno (l_parser l) = HPE_OK ->
  (forall d s, s = l_state l \/ s = hp_state (l_parser l) ->
     Q tt (l_set_parser (set_state s (set_data d (l_parser l))) l)) ->
  (forall d e', e' <> HPE_OK -> e' = e \/ e' = HPE_PAUSED ->
     on_return K (set_http_errno e' (set_state (l_state l) (set_data d (l_parser l)))) ER) ->
  wp (CALLBACK_NOTIFY_ cb e ER) Q K l.
Proof.
  intros Hcb He Hok Hnext Hret. unfold CALLBACK_NOTIFY_, assert_errno_ok.
  apply wp_bind, wp_bind. unfold gets at 1. unfold wp at 1. rewrite Hok.
  rewrite bool_decide_eq_true_2 by done. unfold wp at 1. cbn [c_assert mret M_ret].
  destruct cb as [f|]; [by apply wp_after_call; eauto|].
  unfold wp, mret, M_ret. specialize (Hnext (hp_data (l_parser l)) (hp_state (l_parser l)) (or_intror eq_refl)).
  by rewrite set_state_data_id, l_set_parser_id in Hnext.
Qed.

Lemma wp_data_cb settings data m extra ER Q K l :
  data_ok (data_cb settings m) ->
  hp_http_errno (l_parser l) = HPE_OK ->
  (forall a, l_mark m l = Some a -> 0 <= a /\ 0 <= l_p l - a + extra /\ l_p l + extra <= zlen data) ->
  (forall d s, s = l_state l \/ s = hp_state (l_parser l) ->
     Q tt (l_set_mark m None (l_set_parser (set_state s (set_data d (l_parser l))) l))) ->
  (forall d e', e' <> HPE_OK -> e' = data_errno m \/ e' = HPE_PAUSED ->
     on_return K (set_http_errno e' (set_state (l_state l) (set_data d (l_parser l)))) ER) ->
  wp (CALLBACK_DATA_ settings data m extra ER) Q K l.
Proof.
  intros Hcb Hok Hreg Hnext Hret. unfold CALLBACK_DATA_, assert_errno_ok.
  apply wp_bind, wp_bind. unfold gets at 1. unfold wp at 1. rewrite Hok.
  rewrite bool_decide_eq_true_2 by done. unfold wp at 1. cbn [c_assert mret M_ret].
  apply wp_bind. unfold get_mark, wp at 1. destruct (l_mark m l) as [a|] eqn:Em.
  2:{ unfold wp, mret, M_ret. specialize (Hnext (hp_data (l_parser l)) (hp_state (l_parser l)) (or_intror eq_refl)).
      by rewrite set_state_data_id, l_set_parser_id, l_set_mark_id in Hnext. }
  destruct (Hreg a eq_refl) as (Ha & Hn & Hend).
  apply wp_bind. unfold get_p, wp at 1. cbv zeta.
  apply wp_bind. destruct (data_cb settings m) as [f|].
  - apply wp_bind. unfold check_region. rewrite !(proj2 (Z.leb_le _ _)) by lia.
    unfold wp at 1; cbn [andb mret M_ret].
    apply wp_after_call; [eauto|by destruct m|done|auto|auto].
  - specialize (Hnext (hp_data (l_parser l)) (hp_state (l_parser l)) (or_intror eq_refl)).
    by rewrite set_state_data_id, l_set_parser_id in Hnext.
Qed.

End Wp.
