(* ===== verification/HttpExec.v ===== *)
(** * [http_parser_execute] (src/protocol/http/http_parser.c)

    One definition per group of cases of the [switch] in the order of the
    source, the two inner loops over header names and header values, the
    [reexecute] loop, the main loop and the function itself, with the small
    functions of the library's interface ([http_message_needs_eof],
    [http_should_keep_alive], [http_parser_init], [http_parser_pause], ...). *)

From S2P Require Import Prelude HttpDefs HttpMonad.

(** ** Interface functions *)

Section Interface.
Context {D : Type}.
Implicit Type parser : http_parser D.

Definition http_message_needs_eof parser : bool :=
  if decide (hp_type parser = HTTP_REQUEST) then false
  else if (hp_status_code parser / 100 =? 1) || (hp_status_code parser =? 204)
          || (hp_status_code parser =? 304) || has_bit (hp_flags parser) F_SKIPBODY
  then false
  else if has_bit (hp_flags parser) F_CHUNKED
          || negb (hp_content_length parser =? ULLONG_MAX)
  then false
  else true.

Definition http_should_keep_alive parser : bool :=
  if (0 <? hp_http_major parser) && (0 <? hp_http_minor parser) then
    (* HTTP/1.1 *)
    if has_bit (hp_flags parser) F_CONNECTION_CLOSE then false
    else negb (http_message_needs_eof parser)
  else
    (* HTTP/1.0 or earlier *)
    if negb (has_bit (hp_flags parser) F_CONNECTION_KEEP_ALIVE) then false
    else negb (http_message_needs_eof parser).

(** [start_state] and [NEW_MESSAGE()], in strict mode *)
Definition start_state parser : state :=
  if decide (hp_type parser = HTTP_REQUEST) then s_start_req else s_start_res.

Definition NEW_MESSAGE parser : state :=
  if http_should_keep_alive parser then start_state parser else s_dead.

(** [http_parser_init]: [memset] to zero, the application's [data] kept *)
Definition http_parser_init parser (t : http_parser_type) : http_parser D :=
  mk_http_parser t 0
    match t with
    | HTTP_REQUEST => s_start_req
    | HTTP_RESPONSE => s_start_res
    | HTTP_BOTH => s_start_req_or_res
    end
    h_general 0 false 0 0 0 0 0 HTTP_DELETE HPE_OK false (hp_data parser).

(** [http_parser_settings_init] *)
Definition http_parser_settings_init : http_parser_settings D :=
  mk_http_parser_settings None None None None None None None None None None.

(** [http_parser_pause]; [None] is the failed assertion *)
Definition http_parser_pause parser (paused : bool) : option (http_parser D) :=
  if bool_decide (hp_http_errno parser = HPE_OK)
     || bool_decide (hp_http_errno parser = HPE_PAUSED) then
    Some (set_http_errno (if paused then HPE_PAUSED else HPE_OK) parser)
  else None.

Definition http_body_is_final parser : bool := bool_decide (hp_state parser = s_message_done).

End Interface.

(** [http_method_str]; [ELEM_AT] with the table of the 34 methods *)
Definition method_strings : list string := Eval vm_compute in map method_name
  [HTTP_DELETE; HTTP_GET; HTTP_HEAD; HTTP_POST; HTTP_PUT; HTTP_CONNECT; HTTP_OPTIONS;
   HTTP_TRACE; HTTP_COPY; HTTP_LOCK; HTTP_MKCOL; HTTP_MOVE; HTTP_PROPFIND; HTTP_PROPPATCH;
   HTTP_SEARCH; HTTP_UNLOCK; HTTP_BIND; HTTP_REBIND; HTTP_UNBIND; HTTP_ACL; HTTP_REPORT;
   HTTP_MKACTIVITY; HTTP_CHECKOUT; HTTP_MERGE; HTTP_MSEARCH; HTTP_NOTIFY; HTTP_SUBSCRIBE;
   HTTP_UNSUBSCRIBE; HTTP_PATCH; HTTP_PURGE; HTTP_MKCALENDAR; HTTP_LINK; HTTP_UNLINK;
   HTTP_SOURCE].

Definition http_method_str (m : Z) : string :=
  if (0 <=? m) && (m <? zlen method_strings)
  then default "<unknown>" (method_strings !! Z.to_nat m)
  else "<unknown>".

(** [http_errno_name], [http_errno_description]: [None] is the failed bounds
    assertion *)
Definition http_errno_name (err : Z) : option string :=
  if err <? 0 then None else fst <$> http_strerror_tab !! Z.to_nat err.

Definition http_errno_description (err : Z) : option string :=
  if err <? 0 then None else snd <$> http_strerror_tab !! Z.to_nat err.

Definition http_parser_version : Z := Z.lor (2 * 65536) (Z.lor (8 * 256) (1 * 1)).

(** ** The method automaton *)

(** The first letter selects a candidate (case [s_start_req]). *)
Definition method_of_first (ch : Z) : option http_method :=
  if ch =? "A"%c then Some HTTP_ACL
  else if ch =? "B"%c then Some HTTP_BIND
  else if ch =? "C"%c then Some HTTP_CONNECT
  else if ch =? "D"%c then Some HTTP_DELETE
  else if ch =? "G"%c then Some HTTP_GET
  else if ch =? "H"%c then Some HTTP_HEAD
  else if ch =? "L"%c then Some HTTP_LOCK
  else if ch =? "M"%c then Some HTTP_MKCOL
  else if ch =? "N"%c then Some HTTP_NOTIFY
  else if ch =? "O"%c then Some HTTP_OPTIONS
  else if ch =? "P"%c then Some HTTP_POST
  else if ch =? "R"%c then Some HTTP_REPORT
  else if ch =? "S"%c then Some HTTP_SUBSCRIBE
  else if ch =? "T"%c then Some HTTP_TRACE
  else if ch =? "U"%c then Some HTTP_UNLOCK
  else None.

(** A letter that is not the candidate's selects another one (the inner
    [switch] of case [s_req_method]). *)
Definition method_switch (m : http_method) (index ch : Z) : option http_method :=
  match m with
  | HTTP_POST =>
      if (index =? 1) && (ch =? "U"%c) then Some HTTP_PUT
      else if (index =? 1) && (ch =? "A"%c) then Some HTTP_PATCH
      else if (index =? 1) && (ch =? "R"%c) then Some HTTP_PROPFIND
      else None
  | HTTP_PUT => if (index =? 2) && (ch =? "R"%c) then Some HTTP_PURGE else None
  | HTTP_CONNECT =>
      if (index =? 1) && (ch =? "H"%c) then Some HTTP_CHECKOUT
      else if (index =? 2) && (ch =? "P"%c) then Some HTTP_COPY
      else None
  | HTTP_MKCOL =>
      if (index =? 1) && (ch =? "O"%c) then Some HTTP_MOVE
      else if (index =? 1) && (ch =? "E"%c) then Some HTTP_MERGE
      else if (index =? 1) && (ch =? "-"%c) then Some HTTP_MSEARCH
      else if (index =? 2) && (ch =? "A"%c) then Some HTTP_MKACTIVITY
      else if (index =? 3) && (ch =? "A"%c) then Some HTTP_MKCALENDAR
      else None
  | HTTP_SUBSCRIBE =>
      if (index =? 1) && (ch =? "E"%c) then Some HTTP_SEARCH
      else if (index =? 1) && (ch =? "O"%c) then Some HTTP_SOURCE
      else None
  | HTTP_REPORT => if (index =? 2) && (ch =? "B"%c) then Some HTTP_REBIND else None
  | HTTP_PROPFIND => if (index =? 4) && (ch =? "P"%c) then Some HTTP_PROPPATCH else None
  | HTTP_LOCK => if (index =? 1) && (ch =? "I"%c) then Some HTTP_LINK else None
  | HTTP_UNLOCK =>
      if (index =? 2) && (ch =? "S"%c) then Some HTTP_UNSUBSCRIBE
      else if (index =? 2) && (ch =? "B"%c) then Some HTTP_UNBIND
      else if (index =? 3) && (ch =? "I"%c) then Some HTTP_UNLINK
      else None
  | _ => None
  end.

(** ** The cases of the [switch] *)

Section Cases.
Context {D : Type} (settings : http_parser_settings D) (data : list Z) (lenient : bool).
Let len : Z := zlen data.

Definition case_dead : M D unit :=
  ch ← get_ch;
  if (ch =? CR) || (ch =? LF) then break
  else error HPE_CLOSED_CONNECTION.

Definition case_start_req_or_res : M D unit :=
  ch ← get_ch;
  if (ch =? CR) || (ch =? LF) then break
  else
    upd (set_flags 0) ;;
    upd (set_content_length ULLONG_MAX) ;;
    (if ch =? "H"%c then
       UPDATE_STATE s_res_or_resp_H ;;
       CALLBACK_NOTIFY (on_message_begin settings) HPE_CB_message_begin
     else
       upd (set_type HTTP_REQUEST) ;;
       UPDATE_STATE s_start_req ;;
       REEXECUTE) ;;
    break.

Definition case_res_or_resp_H : M D unit :=
  ch ← get_ch;
  (if ch =? "T"%c then
     upd (set_type HTTP_RESPONSE) ;;
     UPDATE_STATE s_res_HT
   else
     (if negb (ch =? "E"%c) then error HPE_INVALID_CONSTANT else mret tt) ;;
     upd (set_type HTTP_REQUEST) ;;
     upd (set_method HTTP_HEAD) ;;
     upd (set_index 2) ;;
     UPDATE_STATE s_req_method) ;;
  break.

Definition case_start_res : M D unit :=
  upd (set_flags 0) ;;
  upd (set_content_length ULLONG_MAX) ;;
  ch ← get_ch;
  (if ch =? "H"%c then UPDATE_STATE s_res_H
   else if (ch =? CR) || (ch =? LF) then mret tt
   else error HPE_INVALID_CONSTANT) ;;
  CALLBACK_NOTIFY (on_message_begin settings) HPE_CB_message_begin ;;
  break.

(** [s_res_H], [s_res_HT], [s_res_HTT], [s_res_HTTP] and their request
    counterparts: one expected character, then the next state *)
Definition expect_strict (expected : Z) (next : state) : M D unit :=
  ch ← get_ch;
  STRICT_CHECK (negb (ch =? expected)) ;;
  UPDATE_STATE next ;;
  break.

Definition case_res_H : M D unit := expect_strict "T"%c s_res_HT.
Definition case_res_HT : M D unit := expect_strict "T"%c s_res_HTT.
Definition case_res_HTT : M D unit := expect_strict "P"%c s_res_HTTP.
Definition case_res_HTTP : M D unit := expect_strict "/"%c s_res_http_major.

Definition case_http_major (next : state) : M D unit :=
  ch ← get_ch;
  (if negb (IS_NUM ch) then error HPE_INVALID_VERSION else mret tt) ;;
  upd (set_http_major (u16 (ch - "0"%c))) ;;
  UPDATE_STATE next ;;
  break.

Definition case_http_dot (next : state) : M D unit :=
  ch ← get_ch;
  (if negb (ch =? "."%c) then error HPE_INVALID_VERSION else mret tt) ;;
  UPDATE_STATE next ;;
  break.

Definition case_http_minor (next : state) : M D unit :=
  ch ← get_ch;
  (if negb (IS_NUM ch) then error HPE_INVALID_VERSION else mret tt) ;;
  upd (set_http_minor (u16 (ch - "0"%c))) ;;
  UPDATE_STATE next ;;
  break.

Definition case_res_http_end : M D unit :=
  ch ← get_ch;
  (if negb (ch =? " "%c) then error HPE_INVALID_VERSION else mret tt) ;;
  UPDATE_STATE s_res_first_status_code ;;
  break.

Definition case_res_first_status_code : M D unit :=
  ch ← get_ch;
  (if negb (IS_NUM ch) then
     if ch =? " "%c then break else error HPE_INVALID_STATUS
   else mret tt) ;;
  upd (set_status_code (u16 (ch - "0"%c))) ;;
  UPDATE_STATE s_res_status_code ;;
  break.

Definition case_res_status_code : M D unit :=
  ch ← get_ch;
  (if negb (IS_NUM ch) then
     (if ch =? " "%c then UPDATE_STATE s_res_status_start
      else if (ch =? CR) || (ch =? LF) then
        UPDATE_STATE s_res_status_start ;;
        REEXECUTE
      else error HPE_INVALID_STATUS) ;;
     break
   else mret tt) ;;
  upd (fun h => set_status_code (u16 (hp_status_code h * 10)) h) ;;
  upd (fun h => set_status_code (u16 (hp_status_code h + (ch - "0"%c))) h) ;;
  status_code ← gets hp_status_code;
  (if 999 <? status_code then error HPE_INVALID_STATUS else mret tt) ;;
  break.

Definition case_res_status_start : M D unit :=
  MARK M_status ;;
  UPDATE_STATE s_res_status ;;
  upd (set_index 0) ;;
  ch ← get_ch;
  (if (ch =? CR) || (ch =? LF) then REEXECUTE else mret tt) ;;
  break.

Definition case_res_status : M D unit :=
  ch ← get_ch;
  (if ch =? CR then
     UPDATE_STATE s_res_line_almost_done ;;
     CALLBACK_DATA settings data M_status ;;
     break
   else mret tt) ;;
  (if ch =? LF then
     UPDATE_STATE s_header_field_start ;;
     CALLBACK_DATA settings data M_status ;;
     break
   else mret tt) ;;
  break.

Definition case_res_line_almost_done : M D unit := expect_strict LF s_header_field_start.

Definition case_start_req : M D unit :=
  ch ← get_ch;
  if (ch =? CR) || (ch =? LF) then break
  else
    upd (set_flags 0) ;;
    upd (set_content_length ULLONG_MAX) ;;
    (if negb (IS_ALPHA ch) then error HPE_INVALID_METHOD else mret tt) ;;
    upd (set_method HTTP_DELETE) ;;
    upd (set_index 1) ;;
    match method_of_first ch with
    | Some m => upd (set_method m)
    | None => error HPE_INVALID_METHOD
    end ;;
    UPDATE_STATE s_req_method ;;
    CALLBACK_NOTIFY (on_message_begin settings) HPE_CB_message_begin ;;
    break.

Definition case_req_method : M D unit :=
  ch ← get_ch;
  (if ch =? 0 then error HPE_INVALID_METHOD else mret tt) ;;
  method ← gets hp_method;
  index ← gets hp_index;
  c ← str_at (method_string method) index;
  (if (ch =? " "%c) && (c =? 0) then UPDATE_STATE s_req_spaces_before_url
   else if ch =? c then mret tt
   else if (("A"%c <=? ch) && (ch <=? "Z"%c)) || (ch =? "-"%c) then
     match method_switch method index ch with
     | Some m => upd (set_method m)
     | None => error HPE_INVALID_METHOD
     end
   else error HPE_INVALID_METHOD) ;;
  upd (fun h => set_index (u7 (hp_index h + 1)) h) ;;
  break.

(** [UPDATE_STATE(parse_url_char(CURRENT_STATE(), ch));
     if (CURRENT_STATE() == s_dead) { SET_ERRNO(HPE_INVALID_URL); goto error; }] *)
Definition url_char : M D unit :=
  ch ← get_ch;
  st ← CURRENT_STATE;
  UPDATE_STATE (parse_url_char st ch) ;;
  st' ← CURRENT_STATE;
  if decide (st' = s_dead) then error HPE_INVALID_URL else mret tt.

Definition case_req_spaces_before_url : M D unit :=
  ch ← get_ch;
  if ch =? " "%c then break
  else
    MARK M_url ;;
    method ← gets hp_method;
    (if decide (method = HTTP_CONNECT) then UPDATE_STATE s_req_server_start else mret tt) ;;
    url_char ;;
    break.

(** [s_req_schema], [s_req_schema_slash], [s_req_schema_slash_slash],
    [s_req_server_start] *)
Definition case_req_schema : M D unit :=
  ch ← get_ch;
  (if (ch =? " "%c) || (ch =? CR) || (ch =? LF) then error HPE_INVALID_URL
   else url_char) ;;
  break.

(** [s_req_server], [s_req_server_with_at], [s_req_path],
    [s_req_query_string_start], [s_req_query_string], [s_req_fragment_start],
    [s_req_fragment] *)
Definition case_req_url : M D unit :=
  ch ← get_ch;
  (if ch =? " "%c then
     UPDATE_STATE s_req_http_start ;;
     CALLBACK_DATA settings data M_url
   else if (ch =? CR) || (ch =? LF) then
     upd (set_http_major 0) ;;
     upd (set_http_minor 9) ;;
     UPDATE_STATE (if ch =? CR then s_req_line_almost_done else s_header_field_start) ;;
     CALLBACK_DATA settings data M_url
   else url_char) ;;
  break.

Definition case_req_http_start : M D unit :=
  ch ← get_ch;
  (if ch =? "H"%c then UPDATE_STATE s_req_http_H
   else if ch =? " "%c then mret tt
   else error HPE_INVALID_CONSTANT) ;;
  break.

Definition case_req_http_H : M D unit := expect_strict "T"%c s_req_http_HT.
Definition case_req_http_HT : M D unit := expect_strict "T"%c s_req_http_HTT.
Definition case_req_http_HTT : M D unit := expect_strict "P"%c s_req_http_HTTP.
Definition case_req_http_HTTP : M D unit := expect_strict "/"%c s_req_http_major.

Definition case_req_http_end : M D unit :=
  ch ← get_ch;
  (if ch =? CR then UPDATE_STATE s_req_line_almost_done ;; break else mret tt) ;;
  (if ch =? LF then UPDATE_STATE s_header_field_start ;; break else mret tt) ;;
  error HPE_INVALID_VERSION.

Definition case_req_line_almost_done : M D unit :=
  ch ← get_ch;
  (if negb (ch =? LF) then error HPE_LF_EXPECTED else mret tt) ;;
  UPDATE_STATE s_header_field_start ;;
  break.

(** *** Header fields *)

Definition case_header_field_start : M D unit :=
  ch ← get_ch;
  (if ch =? CR then UPDATE_STATE s_headers_almost_done ;; break else mret tt) ;;
  (if ch =? LF then UPDATE_STATE s_headers_almost_done ;; REEXECUTE else mret tt) ;;
  let c := TOKEN ch in
  (if c =? 0 then error HPE_INVALID_HEADER_TOKEN else mret tt) ;;
  MARK M_header_field ;;
  upd (set_index 0) ;;
  UPDATE_STATE s_header_field ;;
  upd (set_header_state
         (if c =? "c"%c then h_C
          else if c =? "p"%c then h_matching_proxy_connection
          else if c =? "t"%c then h_matching_transfer_encoding
          else if c =? "u"%c then h_matching_upgrade
          else h_general)) ;;
  break.

(** [parser->index++] *)
Definition incr_index : M D unit := upd (fun h => set_index (u7 (hp_index h + 1)) h).

(** [parser->index++; if (parser->index > sizeof(KEYWORD)-1 ||
     c != KEYWORD[parser->index]) <no_match> else if (parser->index ==
     sizeof(KEYWORD)-2) <full_match>]: the new header state, [h] when neither
    branch is taken *)
Definition match_keyword (keyword : list Z) (c : Z) (h no_match full_match : header_states)
    : M D header_states :=
  incr_index ;;
  index ← gets hp_index;
  mismatch ← (if sizeof keyword - 1 <? index then mret true
              else k ← str_at keyword index; mret (negb (c =? k)));
  if (mismatch : bool) then mret no_match
  else if index =? sizeof keyword - 2 then mret full_match
  else mret h.

(** The [switch (parser->header_state)] of case [s_header_field] *)
Definition header_field_char (ch c : Z) : M D unit :=
  hs ← gets hp_header_state;
  match hs with
  | h_general => mret tt
  | h_C => incr_index ;; upd (set_header_state (if c =? "o"%c then h_CO else h_general))
  | h_CO => incr_index ;; upd (set_header_state (if c =? "n"%c then h_CON else h_general))
  | h_CON =>
      incr_index ;;
      upd (set_header_state
             (if c =? "n"%c then h_matching_connection
              else if c =? "t"%c then h_matching_content_length
              else h_general))
  | h_matching_connection =>
      hs' ← match_keyword CONNECTION c hs h_general h_connection;
      upd (set_header_state hs')
  | h_matching_proxy_connection =>
      hs' ← match_keyword PROXY_CONNECTION c hs h_general h_connection;
      upd (set_header_state hs')
  | h_matching_content_length =>
      hs' ← match_keyword CONTENT_LENGTH c hs h_general h_content_length;
      upd (set_header_state hs')
  | h_matching_transfer_encoding =>
      hs' ← match_keyword TRANSFER_ENCODING c hs h_general h_transfer_encoding;
      upd (set_header_state hs')
  | h_matching_upgrade =>
      hs' ← match_keyword UPGRADE c hs h_general h_upgrade;
      upd (set_header_state hs')
  | h_connection | h_content_length | h_transfer_encoding | h_upgrade =>
      if negb (ch =? " "%c) then upd (set_header_state h_general) else mret tt
  | _ => c_assert false
  end.

(** The [for] loop of case [s_header_field] *)
Fixpoint header_field_loop (fuel : nat) : M D unit :=
  match fuel with
  | O => fail_with OutOfFuel
  | S fuel =>
      p ← get_p;
      if p =? len then mret tt
      else
        ch ← deref data p;
        put_ch ch ;;
        let c := TOKEN ch in
        if c =? 0 then mret tt
        else
          header_field_char ch c ;;
          put_p (p + 1) ;;
          header_field_loop fuel
  end.

Definition case_header_field : M D unit :=
  start ← get_p;
  header_field_loop (S (length data)) ;;
  p ← get_p;
  COUNT_HEADER_SIZE (p - start) ;;
  (if p =? len then put_p (p - 1) ;; break else mret tt) ;;
  ch ← get_ch;
  (if ch =? ":"%c then
     UPDATE_STATE s_header_value_discard_ws ;;
     CALLBACK_DATA settings data M_header_field ;;
     break
   else mret tt) ;;
  error HPE_INVALID_HEADER_TOKEN.

(** *** Header values *)

Definition case_header_value_start : M D unit :=
  MARK M_header_value ;;
  UPDATE_STATE s_header_value ;;
  upd (set_index 0) ;;
  ch ← get_ch;
  let c := LOWER ch in
  hs ← gets hp_header_state;
  match hs with
  | h_upgrade => or_flags F_UPGRADE ;; upd (set_header_state h_general)
  | h_transfer_encoding =>
      upd (set_header_state
             (if "c"%c =? c then h_matching_transfer_encoding_chunked else h_general))
  | h_content_length =>
      (if negb (IS_NUM ch) then error HPE_INVALID_CONTENT_LENGTH else mret tt) ;;
      flags ← gets hp_flags;
      (if has_bit flags F_CONTENTLENGTH then error HPE_UNEXPECTED_CONTENT_LENGTH
       else mret tt) ;;
      or_flags F_CONTENTLENGTH ;;
      upd (set_content_length (ch - "0"%c)) ;;
      upd (set_header_state h_content_length_num)
  | h_connection =>
      upd (set_header_state
             (if c =? "k"%c then h_matching_connection_keep_alive
              else if c =? "c"%c then h_matching_connection_close
              else if c =? "u"%c then h_matching_connection_upgrade
              else h_matching_connection_token))
  | h_matching_connection_token_start => mret tt
  | _ => upd (set_header_state h_general)
  end ;;
  break.

Definition case_header_value_discard_ws : M D unit :=
  ch ← get_ch;
  (if (ch =? " "%c) || (ch =? 9) then break else mret tt) ;;
  (if ch =? CR then UPDATE_STATE s_header_value_discard_ws_almost_done ;; break
   else mret tt) ;;
  (if ch =? LF then UPDATE_STATE s_header_value_discard_lws ;; break else mret tt) ;;
  (* FALLTHROUGH *)
  case_header_value_start.

(** [memchr(p, c, limit)] as an offset *)
Definition memchr (p c limit : Z) : option Z :=
  '(i, _) ← list_find (eq c) (sub_bytes data p limit);
  Some (p + Z.of_nat i).

(** [case h_general] of the value loop: [p] moves before the next CR or LF of
    the input, or before its end *)
Definition skip_general : M D unit :=
  p ← get_p;
  let limit := Z.min (len - p) HTTP_MAX_HEADER_SIZE in
  let p_cr := memchr p CR limit in
  let p_lf := memchr p LF limit in
  let p' :=
    match p_cr, p_lf with
    | Some cr, Some lf => if lf <=? cr then lf else cr
    | Some cr, None => cr
    | None, Some lf => lf
    | None, None => len
    end in
  put_p (p' - 1).

(** [case h_content_length_num] of the value loop *)
Definition content_length_num (ch : Z) : M D header_states :=
  if ch =? " "%c then mret h_content_length_ws
  else
    (if negb (IS_NUM ch) then
       SET_ERRNO HPE_INVALID_CONTENT_LENGTH ;;
       upd (set_header_state h_content_length_num) ;;
       goto_error
     else mret tt) ;;
    content_length ← gets hp_content_length;
    let t := u64 (u64 (content_length * 10) + (ch - "0"%c)) in
    (if (ULLONG_MAX - 10) / 10 <? content_length then
       SET_ERRNO HPE_INVALID_CONTENT_LENGTH ;;
       upd (set_header_state h_content_length_num) ;;
       goto_error
     else mret tt) ;;
    upd (set_content_length t) ;;
    mret h_content_length_num.

(** The [switch (h_state)] of case [s_header_value]; the new [h_state] *)
Definition header_value_char (ch c : Z) (h_state : header_states) : M D header_states :=
  match h_state with
  | h_general => skip_general ;; mret h_general
  | h_connection | h_transfer_encoding => c_assert false ;; mret h_state
  | h_content_length =>
      if ch =? " "%c then mret h_content_length else content_length_num ch
  | h_content_length_num => content_length_num ch
  | h_content_length_ws =>
      if ch =? " "%c then mret h_content_length_ws
      else
        SET_ERRNO HPE_INVALID_CONTENT_LENGTH ;;
        upd (set_header_state h_content_length_ws) ;;
        goto_error
  | h_matching_transfer_encoding_chunked =>
      match_keyword CHUNKED c h_state h_general h_transfer_encoding_chunked
  | h_matching_connection_token_start =>
      mret (if c =? "k"%c then h_matching_connection_keep_alive
            else if c =? "c"%c then h_matching_connection_close
            else if c =? "u"%c then h_matching_connection_upgrade
            else if negb (STRICT_TOKEN c =? 0) then h_matching_connection_token
            else if (c =? " "%c) || (c =? 9) then h_state
            else h_general)
  | h_matching_connection_keep_alive =>
      match_keyword KEEP_ALIVE c h_state h_matching_connection_token h_connection_keep_alive
  | h_matching_connection_close =>
      match_keyword CLOSE c h_state h_matching_connection_token h_connection_close
  | h_matching_connection_upgrade =>
      match_keyword UPGRADE c h_state h_matching_connection_token h_connection_upgrade
  | h_matching_connection_token =>
      if ch =? ","%c then upd (set_index 0) ;; mret h_matching_connection_token_start
      else mret h_state
  | h_transfer_encoding_chunked =>
      mret (if negb (ch =? " "%c) then h_general else h_state)
  | h_connection_keep_alive | h_connection_close | h_connection_upgrade =>
      if ch =? ","%c then
        or_flags (if decide (h_state = h_connection_keep_alive) then F_CONNECTION_KEEP_ALIVE
                  else if decide (h_state = h_connection_close) then F_CONNECTION_CLOSE
                  else F_CONNECTION_UPGRADE) ;;
        upd (set_index 0) ;;
        mret h_matching_connection_token_start
      else mret (if negb (ch =? " "%c) then h_matching_connection_token else h_state)
  | _ => UPDATE_STATE s_header_value ;; mret h_general
  end.

(** The [for] loop of case [s_header_value]; the final [h_state] *)
Fixpoint header_value_loop (fuel : nat) (start : Z) (h_state : header_states)
    : M D header_states :=
  match fuel with
  | O => fail_with OutOfFuel
  | S fuel =>
      p ← get_p;
      if p =? len then mret h_state
      else
        ch ← deref data p;
        put_ch ch ;;
        if ch =? CR then
          UPDATE_STATE s_header_almost_done ;;
          upd (set_header_state h_state) ;;
          CALLBACK_DATA settings data M_header_value ;;
          mret h_state
        else
          (if ch =? LF then
             UPDATE_STATE s_header_almost_done ;;
             COUNT_HEADER_SIZE (p - start) ;;
             upd (set_header_state h_state) ;;
             CALLBACK_DATA_NOADVANCE settings data M_header_value ;;
             REEXECUTE
           else mret tt) ;;
          (if negb lenient && negb (IS_HEADER_CHAR ch) then error HPE_INVALID_HEADER_TOKEN
           else mret tt) ;;
          let c := LOWER ch in
          h_state' ← header_value_char ch c h_state;
          p' ← get_p;
          put_p (p' + 1) ;;
          header_value_loop fuel start h_state'
  end.

Definition case_header_value : M D unit :=
  start ← get_p;
  hs ← gets hp_header_state;
  h_state ← header_value_loop (S (length data)) start hs;
  upd (set_header_state h_state) ;;
  p ← get_p;
  COUNT_HEADER_SIZE (p - start) ;;
  (if p =? len then put_p (p - 1) else mret tt) ;;
  break.

Definition case_header_almost_done : M D unit :=
  ch ← get_ch;
  (if negb (ch =? LF) then error HPE_LF_EXPECTED else mret tt) ;;
  UPDATE_STATE s_header_value_lws ;;
  break.

(** [switch (parser->header_state)] at the end of a header: the flag of a
    completed [Connection] or [Transfer-Encoding] value *)
Definition finish_header : M D unit :=
  hs ← gets hp_header_state;
  match hs with
  | h_connection_keep_alive => or_flags F_CONNECTION_KEEP_ALIVE
  | h_connection_close => or_flags F_CONNECTION_CLOSE
  | h_transfer_encoding_chunked => or_flags F_CHUNKED
  | h_connection_upgrade => or_flags F_CONNECTION_UPGRADE
  | _ => mret tt
  end.

Definition case_header_value_lws : M D unit :=
  ch ← get_ch;
  (if (ch =? " "%c) || (ch =? 9) then
     UPDATE_STATE s_header_value_start ;;
     REEXECUTE
   else mret tt) ;;
  finish_header ;;
  UPDATE_STATE s_header_field_start ;;
  REEXECUTE.

Definition case_header_value_discard_ws_almost_done : M D unit :=
  expect_strict LF s_header_value_discard_lws.

Definition case_header_value_discard_lws : M D unit :=
  ch ← get_ch;
  if (ch =? " "%c) || (ch =? 9) then
    UPDATE_STATE s_header_value_discard_ws ;;
    break
  else
    finish_header ;;
    MARK M_header_value ;;
    UPDATE_STATE s_header_field_start ;;
    CALLBACK_DATA_NOADVANCE settings data M_header_value ;;
    REEXECUTE.

(** *** End of the headers *)

(** [settings->on_headers_complete(parser)] and the [switch] on its result *)
Definition call_headers_complete : M D unit :=
  match on_headers_complete settings with
  | None => mret tt
  | Some f =>
      res ← gets f;
      upd (fun _ => fst res) ;;
      let r := snd res in
      if r =? 0 then mret tt
      else if r =? 2 then upd (set_upgrade true) ;; or_flags F_SKIPBODY
      else if r =? 1 then or_flags F_SKIPBODY
      else
        SET_ERRNO HPE_CB_headers_complete ;;
        p ← get_p;
        RETURN p
  end.

Definition case_headers_almost_done : M D unit :=
  ch ← get_ch;
  STRICT_CHECK (negb (ch =? LF)) ;;
  flags ← gets hp_flags;
  (if has_bit flags F_TRAILING then
     UPDATE_STATE s_message_done ;;
     CALLBACK_NOTIFY_NOADVANCE (on_chunk_complete settings) HPE_CB_chunk_complete ;;
     REEXECUTE
   else mret tt) ;;
  (if has_bit flags F_CHUNKED && has_bit flags F_CONTENTLENGTH then
     error HPE_UNEXPECTED_CONTENT_LENGTH
   else mret tt) ;;
  UPDATE_STATE s_headers_done ;;
  (if has_bit flags F_UPGRADE && has_bit flags F_CONNECTION_UPGRADE then
     upd (fun h => set_upgrade (bool_decide (hp_type h = HTTP_REQUEST)
                                || (hp_status_code h =? 101)) h)
   else
     upd (fun h => set_upgrade (bool_decide (hp_method h = HTTP_CONNECT)) h)) ;;
  call_headers_complete ;;
  errno ← gets hp_http_errno;
  (if decide (errno = HPE_OK) then mret tt else p ← get_p; RETURN p) ;;
  REEXECUTE.

(** [UPDATE_STATE(NEW_MESSAGE()); CALLBACK_NOTIFY(message_complete);] *)
Definition complete_message : M D unit :=
  st ← gets NEW_MESSAGE;
  UPDATE_STATE st ;;
  CALLBACK_NOTIFY (on_message_complete settings) HPE_CB_message_complete.

Definition case_headers_done : M D unit :=
  ch ← get_ch;
  STRICT_CHECK (negb (ch =? LF)) ;;
  upd (set_nread 0) ;;
  h ← gets (fun h => h);
  let skipbody := has_bit (hp_flags h) F_SKIPBODY in
  let hasBody := has_bit (hp_flags h) F_CHUNKED
                 || ((0 <? hp_content_length h)
                     && negb (hp_content_length h =? ULLONG_MAX)) in
  (if hp_upgrade h && (bool_decide (hp_method h = HTTP_CONNECT) || skipbody || negb hasBody)
   then
     complete_message ;;
     p ← get_p;
     RETURN (p + 1)
   else mret tt) ;;
  (if skipbody then complete_message
   else if has_bit (hp_flags h) F_CHUNKED then UPDATE_STATE s_chunk_size_start
   else if hp_content_length h =? 0 then complete_message
   else if negb (hp_content_length h =? ULLONG_MAX) then UPDATE_STATE s_body_identity
   else if negb (http_message_needs_eof h) then complete_message
   else UPDATE_STATE s_body_identity_eof) ;;
  break.

(** *** Bodies *)

(** [uint64_t to_read = MIN(parser->content_length, (uint64_t)((data + len) - p))] *)
Definition get_to_read : M D Z :=
  content_length ← gets hp_content_length;
  p ← get_p;
  mret (Z.min content_length (u64 (len - p))).

(** [MARK(body); parser->content_length -= to_read; p += to_read - 1;] *)
Definition consume_body (to_read : Z) : M D unit :=
  MARK M_body ;;
  upd (fun h => set_content_length (u64 (hp_content_length h - to_read)) h) ;;
  p ← get_p;
  put_p (p + (to_read - 1)).

Definition assert_body_length : M D unit :=
  content_length ← gets hp_content_length;
  c_assert (negb (content_length =? 0) && negb (content_length =? ULLONG_MAX)).

Definition assert_chunked : M D unit :=
  flags ← gets hp_flags;
  c_assert (has_bit flags F_CHUNKED).

Definition case_body_identity : M D unit :=
  to_read ← get_to_read;
  assert_body_length ;;
  consume_body to_read ;;
  content_length ← gets hp_content_length;
  (if content_length =? 0 then
     UPDATE_STATE s_message_done ;;
     p ← get_p;
     CALLBACK_DATA_ settings data M_body 1 p ;;
     REEXECUTE
   else mret tt) ;;
  break.

Definition case_body_identity_eof : M D unit :=
  MARK M_body ;;
  put_p (len - 1) ;;
  break.

Definition case_message_done : M D unit :=
  complete_message ;;
  upgrade ← gets hp_upgrade;
  (if (upgrade : bool) then p ← get_p; RETURN (p + 1) else mret tt) ;;
  break.

Definition case_chunk_size_start : M D unit :=
  nread ← gets hp_nread;
  c_assert (nread =? 1) ;;
  assert_chunked ;;
  ch ← get_ch;
  let unhex_val := unhex ch in
  (if unhex_val =? -1 then error HPE_INVALID_CHUNK_SIZE else mret tt) ;;
  upd (set_content_length (u64 unhex_val)) ;;
  UPDATE_STATE s_chunk_size ;;
  break.

Definition case_chunk_size : M D unit :=
  assert_chunked ;;
  ch ← get_ch;
  (if ch =? CR then UPDATE_STATE s_chunk_size_almost_done ;; break else mret tt) ;;
  let unhex_val := unhex ch in
  (if unhex_val =? -1 then
     (if (ch =? ";"%c) || (ch =? " "%c) then UPDATE_STATE s_chunk_parameters ;; break
      else mret tt) ;;
     error HPE_INVALID_CHUNK_SIZE
   else mret tt) ;;
  content_length ← gets hp_content_length;
  let t := u64 (u64 (content_length * 16) + unhex_val) in
  (if (ULLONG_MAX - 16) / 16 <? content_length then error HPE_INVALID_CONTENT_LENGTH
   else mret tt) ;;
  upd (set_content_length t) ;;
  break.

Definition case_chunk_parameters : M D unit :=
  assert_chunked ;;
  ch ← get_ch;
  (if ch =? CR then UPDATE_STATE s_chunk_size_almost_done ;; break else mret tt) ;;
  break.

Definition case_chunk_size_almost_done : M D unit :=
  assert_chunked ;;
  ch ← get_ch;
  STRICT_CHECK (negb (ch =? LF)) ;;
  upd (set_nread 0) ;;
  content_length ← gets hp_content_length;
  (if content_length =? 0 then
     or_flags F_TRAILING ;;
     UPDATE_STATE s_header_field_start
   else UPDATE_STATE s_chunk_data) ;;
  CALLBACK_NOTIFY (on_chunk_header settings) HPE_CB_chunk_header ;;
  break.

Definition case_chunk_data : M D unit :=
  to_read ← get_to_read;
  assert_chunked ;;
  assert_body_length ;;
  consume_body to_read ;;
  content_length ← gets hp_content_length;
  (if content_length =? 0 then UPDATE_STATE s_chunk_data_almost_done else mret tt) ;;
  break.

Definition case_chunk_data_almost_done : M D unit :=
  assert_chunked ;;
  content_length ← gets hp_content_length;
  c_assert (content_length =? 0) ;;
  ch ← get_ch;
  STRICT_CHECK (negb (ch =? CR)) ;;
  UPDATE_STATE s_chunk_data_done ;;
  CALLBACK_DATA settings data M_body ;;
  break.

Definition case_chunk_data_done : M D unit :=
  assert_chunked ;;
  ch ← get_ch;
  STRICT_CHECK (negb (ch =? LF)) ;;
  upd (set_nread 0) ;;
  UPDATE_STATE s_chunk_size_start ;;
  CALLBACK_NOTIFY (on_chunk_complete settings) HPE_CB_chunk_complete ;;
  break.

(** ** [switch (CURRENT_STATE())] *)

Definition switch (st : state) : M D unit :=
  match st with
  | s_dead => case_dead
  | s_start_req_or_res => case_start_req_or_res
  | s_res_or_resp_H => case_res_or_resp_H
  | s_start_res => case_start_res
  | s_res_H => case_res_H
  | s_res_HT => case_res_HT
  | s_res_HTT => case_res_HTT
  | s_res_HTTP => case_res_HTTP
  | s_res_http_major => case_http_major s_res_http_dot
  | s_res_http_dot => case_http_dot s_res_http_minor
  | s_res_http_minor => case_http_minor s_res_http_end
  | s_res_http_end => case_res_http_end
  | s_res_first_status_code => case_res_first_status_code
  | s_res_status_code => case_res_status_code
  | s_res_status_start => case_res_status_start
  | s_res_status => case_res_status
  | s_res_line_almost_done => case_res_line_almost_done
  | s_start_req => case_start_req
  | s_req_method => case_req_method
  | s_req_spaces_before_url => case_req_spaces_before_url
  | s_req_schema | s_req_schema_slash | s_req_schema_slash_slash
  | s_req_server_start => case_req_schema
  | s_req_server | s_req_server_with_at | s_req_path | s_req_query_string_start
  | s_req_query_string | s_req_fragment_start | s_req_fragment => case_req_url
  | s_req_http_start => case_req_http_start
  | s_req_http_H => case_req_http_H
  | s_req_http_HT => case_req_http_HT
  | s_req_http_HTT => case_req_http_HTT
  | s_req_http_HTTP => case_req_http_HTTP
  | s_req_http_major => case_http_major s_req_http_dot
  | s_req_http_dot => case_http_dot s_req_http_minor
  | s_req_http_minor => case_http_minor s_req_http_end
  | s_req_http_end => case_req_http_end
  | s_req_line_almost_done => case_req_line_almost_done
  | s_header_field_start => case_header_field_start
  | s_header_field => case_header_field
  | s_header_value_discard_ws => case_header_value_discard_ws
  | s_header_value_start => case_header_value_start
  | s_header_value => case_header_value
  | s_header_almost_done => case_header_almost_done
  | s_header_value_lws => case_header_value_lws
  | s_header_value_discard_ws_almost_done => case_header_value_discard_ws_almost_done
  | s_header_value_discard_lws => case_header_value_discard_lws
  | s_headers_almost_done => case_headers_almost_done
  | s_headers_done => case_headers_done
  | s_body_identity => case_body_identity
  | s_body_identity_eof => case_body_identity_eof
  | s_message_done => case_message_done
  | s_chunk_size_start => case_chunk_size_start
  | s_chunk_size => case_chunk_size
  | s_chunk_parameters => case_chunk_parameters
  | s_chunk_size_almost_done => case_chunk_size_almost_done
  | s_chunk_data => case_chunk_data
  | s_chunk_data_almost_done => case_chunk_data_almost_done
  | s_chunk_data_done => case_chunk_data_done
  end.

(** [reexecute: switch ...]: [goto reexecute] runs the [switch] again *)
Fixpoint reexecute (fuel : nat) : M D unit := fun l =>
  match fuel with
  | O => Fail OutOfFuel
  | S fuel =>
      match switch (l_state l) l with
      | Reexecute l' => reexecute fuel l'
      | o => o
      end
  end.

(** At most four executions of the [switch] treat one byte
    (theorem [execute_safe]). *)
Definition reexecute_fuel : nat := 4.

(** The body of the main [for] loop *)
Definition loop_body : M D unit :=
  p ← get_p;
  ch ← deref data p;
  put_ch ch ;;
  st ← CURRENT_STATE;
  (if PARSING_HEADER st then COUNT_HEADER_SIZE 1 else mret tt) ;;
  reexecute reexecute_fuel.

(** After the loop: the leftover marks *)
Definition finish : M D unit :=
  hf ← get_mark M_header_field;
  hv ← get_mark M_header_value;
  u ← get_mark M_url;
  b ← get_mark M_body;
  s ← get_mark M_status;
  let one (o : option Z) := match o with Some _ => 1 | None => 0 end in
  c_assert (one hf + one hv + one u + one b + one s <=? 1) ;;
  CALLBACK_DATA_NOADVANCE settings data M_header_field ;;
  CALLBACK_DATA_NOADVANCE settings data M_header_value ;;
  CALLBACK_DATA_NOADVANCE settings data M_url ;;
  CALLBACK_DATA_NOADVANCE settings data M_body ;;
  CALLBACK_DATA_NOADVANCE settings data M_status ;;
  RETURN len.

(** [error: if (errno == HPE_OK) SET_ERRNO(HPE_UNKNOWN); RETURN(p - data);] *)
Definition error_label : M D unit :=
  errno ← gets hp_http_errno;
  (if decide (errno = HPE_OK) then SET_ERRNO HPE_UNKNOWN else mret tt) ;;
  p ← get_p;
  RETURN p.

(** [for (p = data; p != data + len; p++)] *)
Fixpoint main_loop (fuel : nat) : M D unit := fun l =>
  match fuel with
  | O => Fail OutOfFuel
  | S fuel =>
      if l_p l =? len then finish l
      else
        match loop_body l with
        | Break l' => main_loop fuel (l_set_p (l_p l' + 1) l')
        | Error l' => error_label l'
        | Return h n => Return h n
        | Fail f => Fail f
        | Next _ _ | Reexecute _ => Fail FellThrough
        end
  end.

(** The marks that hold a token begun in an earlier call *)
Definition init_locals (parser : http_parser D) : locals D :=
  let st := hp_state parser in
  mk_locals parser 0 0 st
    (if decide (st = s_header_field) then Some 0 else None)
    (if decide (st = s_header_value) then Some 0 else None)
    (if is_url_state st then Some 0 else None)
    None
    (if decide (st = s_res_status) then Some 0 else None).

(** The call with [len == 0], which signals the end of the input *)
Definition execute_eof : M D unit :=
  st ← CURRENT_STATE;
  match st with
  | s_body_identity_eof =>
      CALLBACK_NOTIFY_NOADVANCE (on_message_complete settings) HPE_CB_message_complete ;;
      return_ 0
  | s_dead | s_start_req_or_res | s_start_res | s_start_req => return_ 0
  | _ => SET_ERRNO HPE_INVALID_EOF_STATE ;; return_ 1
  end.

End Cases.

(** ** [http_parser_execute]: the parser it leaves and the number it returns *)

Inductive exec_result (D : Type) : Type :=
| Done (parser : http_parser D) (nparsed : Z)
| Failed (f : failure).
#[global] Arguments Done {D}.
#[global] Arguments Failed {D}.

Definition run {D A} (m : M D A) (l : locals D) : exec_result D :=
  match m l with
  | Return h n => Done h n
  | Fail f => Failed f
  | Next _ _ | Break _ | Reexecute _ | Error _ => Failed FellThrough
  end.

Definition http_parser_execute {D} (parser : http_parser D)
    (settings : http_parser_settings D) (data : list Z) : exec_result D :=
  let lenient := hp_lenient_http_headers parser in
  if decide (hp_http_errno parser = HPE_OK) then
    if zlen data =? 0 then
      run (execute_eof settings) (init_locals parser)
    else
      run (main_loop settings data lenient (S (length data))) (init_locals parser)
  else Done parser 0.
