(* ===== verification/HttpInv.v ===== *)
(** * Safety of [http_parser_execute]

    The invariant of the parser between bytes and at every execution of the
    [switch], and the proof that every case keeps it: no assertion of
    http_parser.c fails, no array is read outside its bounds, at most four
    executions of the [switch] treat a byte, and the function returns. *)

From S2P Require Import Prelude HttpDefs HttpMonad HttpExec.

Section Invariant.
Context {D : Type}.
Implicit Types (h : http_parser D) (l : locals D).

(** The header states of case [s_header_field] *)
Definition field_hs (hs : header_states) : bool :=
  match hs with
  | h_general | h_C | h_CO | h_CON | h_matching_connection | h_matching_proxy_connection
  | h_matching_content_length | h_matching_transfer_encoding | h_matching_upgrade
  | h_connection | h_content_length | h_transfer_encoding | h_upgrade => true
  | _ => false
  end.

(** The header states of case [s_header_value] *)
Definition value_hs (hs : header_states) : bool :=
  match hs with
  | h_general | h_content_length_num | h_content_length_ws
  | h_matching_transfer_encoding_chunked | h_matching_connection_token_start
  | h_matching_connection_keep_alive | h_matching_connection_close
  | h_matching_connection_upgrade | h_matching_connection_token
  | h_transfer_encoding_chunked | h_connection_keep_alive | h_connection_close
  | h_connection_upgrade => true
  | _ => false
  end.

Definition chunked h : Prop := has_bit (hp_flags h) F_CHUNKED = true.

(** What each state relies on; [nr] is the value of [nread] in
    [s_chunk_size_start]: 0 between bytes, 1 in the [switch]. *)
Definition state_ok (st : state) (nr : Z) h : Prop :=
  match st with
  | s_req_method => hp_index h <= zlen (method_string (hp_method h))
  | s_header_field => field_hs (hp_header_state h) = true
  | s_header_value => value_hs (hp_header_state h) = true
  | s_chunk_size_start => chunked h /\ hp_nread h = nr
  | s_chunk_size | s_chunk_parameters | s_chunk_size_almost_done =>
      chunked h /\ hp_content_length h < ULLONG_MAX
  | s_chunk_data => chunked h /\ 0 < hp_content_length h < ULLONG_MAX
  | s_chunk_data_almost_done => chunked h /\ hp_content_length h = 0
  | s_chunk_data_done => chunked h
  | s_body_identity => 0 < hp_content_length h < ULLONG_MAX
  | _ => True
  end.

(** The widths of the bit fields and the limits the parser enforces *)
Definition ranges_ok h : Prop :=
  0 <= hp_flags h < 256 /\ 0 <= hp_index h < 128
  /\ 0 <= hp_nread h <= HTTP_MAX_HEADER_SIZE
  /\ 0 <= hp_content_length h <= ULLONG_MAX
  /\ 0 <= hp_status_code h <= 999
  /\ 0 <= hp_http_major h <= 9 /\ 0 <= hp_http_minor h <= 9.

Definition parser_ok (st : state) (nr : Z) h : Prop := ranges_ok h /\ state_ok st nr h.

(** The invariant of a parser between two calls: it binds a parser that can
    go on, that is, one without an error or paused. *)
Definition wf h : Prop :=
  hp_http_errno h = HPE_OK \/ hp_http_errno h = HPE_PAUSED ->
  parser_ok (hp_state h) 0 h.

(** Which mark may be set in which state, and that it points to a byte of the
    input at or before [p] *)
Definition mark_state (m : mark) (st : state) : bool :=
  match m with
  | M_header_field => match st with s_header_field => true | _ => false end
  | M_header_value => match st with s_header_value => true | _ => false end
  | M_url => is_url_state st
  | M_body => match st with
              | s_body_identity | s_chunk_data | s_chunk_data_almost_done
              | s_body_identity_eof => true
              | _ => false
              end
  | M_status => match st with s_res_status => true | _ => false end
  end.

Definition mark_ok (m : mark) (st : state) (p : Z) (v : option Z) : Prop :=
  match v with
  | None => True
  | Some a => mark_state m st = true /\ 0 <= a <= p
  end.

Definition marks_ok l : Prop :=
  mark_ok M_header_field (l_state l) (l_p l) (l_header_field_mark l)
  /\ mark_ok M_header_value (l_state l) (l_p l) (l_header_value_mark l)
  /\ mark_ok M_url (l_state l) (l_p l) (l_url_mark l)
  /\ mark_ok M_body (l_state l) (l_p l) (l_body_mark l)
  /\ mark_ok M_status (l_state l) (l_p l) (l_status_mark l).

Definition inv (nr : Z) l : Prop :=
  hp_http_errno (l_parser l) = HPE_OK
  /\ parser_ok (l_state l) nr (l_parser l) /\ marks_ok l.

(** [goto reexecute] goes to a state of smaller rank. *)
Definition rank (st : state) : nat :=
  match st with
  | s_header_value_lws | s_header_value_discard_lws => 3
  | s_header_field_start | s_res_status_code => 2
  | s_headers_almost_done | s_res_status_start | s_start_req_or_res | s_body_identity
  | s_header_value => 1
  | _ => 0
  end.

(** How the [switch], entered in state [st] at offset [p0] of an input of
    length [len], may end *)
Definition case_exits (len p0 : Z) (st : state) : exits D := mk_exits
  (fun l => inv 0 l /\ p0 <= l_p l < len)
  (fun l => inv 1 l /\ p0 <= l_p l < len /\ (rank (l_state l) < rank st)%nat)
  (fun l => 0 <= l_p l <= len
            /\ hp_http_errno (l_parser l) <> HPE_OK
            /\ hp_http_errno (l_parser l) <> HPE_PAUSED)
  (fun h n => 0 <= n <= len /\ wf h
              /\ (hp_http_errno h <> HPE_OK \/ hp_upgrade h = true)).

End Invariant.

(** ** Proof automation for the cases *)

Section Prims.
Context {D : Type}.
Implicit Types (l : locals D) (K : exits D).

Lemma wp_ret {A} (a : A) (Q : A -> locals D -> Prop) K l : Q a l -> wp (mret a) Q K l.
Proof. exact id. Qed.
Lemma wp_gets {A} (f : http_parser D -> A) (Q : A -> locals D -> Prop) K l :
  Q (f (l_parser l)) l -> wp (gets f) Q K l.
Proof. exact id. Qed.
Lemma wp_get_ch (Q : Z -> locals D -> Prop) K l : Q (l_ch l) l -> wp get_ch Q K l.
Proof. exact id. Qed.
Lemma wp_get_p (Q : Z -> locals D -> Prop) K l : Q (l_p l) l -> wp get_p Q K l.
Proof. exact id. Qed.
Lemma wp_CURRENT_STATE (Q : state -> locals D -> Prop) K l :
  Q (l_state l) l -> wp CURRENT_STATE Q K l.
Proof. exact id. Qed.
Lemma wp_get_mark m (Q : option Z -> locals D -> Prop) K l :
  Q (l_mark m l) l -> wp (get_mark m) Q K l.
Proof. exact id. Qed.
Lemma wp_upd f (Q : unit -> locals D -> Prop) K l :
  Q tt (l_set_parser (f (l_parser l)) l) -> wp (upd f) Q K l.
Proof. exact id. Qed.
Lemma wp_put_ch v (Q : unit -> locals D -> Prop) K l :
  Q tt (l_set_ch v l) -> wp (put_ch v) Q K l.
Proof. exact id. Qed.
Lemma wp_put_p v (Q : unit -> locals D -> Prop) K l :
  Q tt (l_set_p v l) -> wp (put_p v) Q K l.
Proof. exact id. Qed.
Lemma wp_UPDATE_STATE v (Q : unit -> locals D -> Prop) K l :
  Q tt (l_set_state v l) -> wp (UPDATE_STATE v) Q K l.
Proof. exact id. Qed.
Lemma wp_put_mark m v (Q : unit -> locals D -> Prop) K l :
  Q tt (l_set_mark m v l) -> wp (put_mark m v) Q K l.
Proof. exact id. Qed.
Lemma wp_break (Q : unit -> locals D -> Prop) K l : on_break K l -> wp break Q K l.
Proof. exact id. Qed.
Lemma wp_REEXECUTE (Q : unit -> locals D -> Prop) K l :
  on_reexecute K l -> wp REEXECUTE Q K l.
Proof. exact id. Qed.
Lemma wp_goto_error {A} (Q : A -> locals D -> Prop) K l : on_error K l -> wp goto_error Q K l.
Proof. exact id. Qed.
Lemma wp_error e (Q : unit -> locals D -> Prop) K l :
  on_error K (l_set_parser (set_http_errno e (l_parser l)) l) -> wp (error e) Q K l.
Proof. exact id. Qed.
Lemma wp_RETURN {A} n (Q : A -> locals D -> Prop) K l :
  on_return K (set_state (l_state l) (l_parser l)) n -> wp (RETURN n) Q K l.
Proof. exact id. Qed.
Lemma wp_return_ {A} n (Q : A -> locals D -> Prop) K l :
  on_return K (l_parser l) n -> wp (return_ n) Q K l.
Proof. exact id. Qed.
Lemma wp_assert b (Q : unit -> locals D -> Prop) K l :
  b = true -> Q tt l -> wp (c_assert b) Q K l.
Proof. intros ->. exact id. Qed.
Lemma wp_MARK m (Q : unit -> locals D -> Prop) K l :
  Q tt (l_set_mark m (Some match l_mark m l with Some a => a | None => l_p l end) l) ->
  wp (MARK m) Q K l.
Proof.
  unfold MARK. intros HQ. apply wp_bind, wp_get_mark. destruct (l_mark m l) as [a|] eqn:E.
  - unfold wp, mret, M_ret. destruct l, m; cbn in *; by subst.
  - exact HQ.
Qed.
Lemma wp_deref data p (Q : Z -> locals D -> Prop) K l :
  0 <= p < zlen data -> (forall b, byte_at data p = Some b -> Q b l) -> wp (deref data p) Q K l.
Proof.
  intros Hp HQ. destruct (byte_at_in data p Hp) as [b Hb].
  unfold wp, deref. rewrite Hb. by apply HQ.
Qed.
End Prims.

(** Composite statements *)
Section Composite.
Context {D : Type} (settings : http_parser_settings D) `{!WellBehaved settings}.
Implicit Types (l : locals D) (K : exits D).

Lemma wp_finish_header (Q : unit -> locals D -> Prop) K l :
  0 <= hp_flags (l_parser l) < 256 ->
  (forall fl, 0 <= fl < 256 -> Q tt (l_set_parser (set_flags fl (l_parser l)) l)) ->
  wp finish_header Q K l.
Proof.
  intros Hfl HQ. pose proof (HQ _ Hfl) as Hid. unfold finish_header.
  apply wp_bind, wp_gets. destruct (hp_header_state (l_parser l));
    try (apply wp_upd, HQ, u8_range);
    apply wp_ret; destruct l as [[] ? ? ? ? ? ? ? ?]; exact Hid.
Qed.

Lemma NEW_MESSAGE_cases (h : http_parser D) :
  NEW_MESSAGE h = s_start_req \/ NEW_MESSAGE h = s_start_res \/ NEW_MESSAGE h = s_dead.
Proof. unfold NEW_MESSAGE, start_state. repeat case_if; try case_decide; auto. Qed.

(** [on_headers_complete] goes on with changed data, flags and [upgrade],
    possibly paused, or returns with its error code. *)
Lemma wp_headers_complete (Q : unit -> locals D -> Prop) K l :
  hp_http_errno (l_parser l) = HPE_OK ->
  0 <= hp_flags (l_parser l) < 256 ->
  (forall d e fl up, e = HPE_OK \/ e = HPE_PAUSED -> 0 <= fl < 256 ->
     Q tt (l_set_parser (set_flags fl (set_upgrade up (set_http_errno e
             (set_data d (l_parser l))))) l)) ->
  (forall d, on_return K (set_state (l_state l) (set_http_errno HPE_CB_headers_complete
                                                   (set_data d (l_parser l)))) (l_p l)) ->
  wp (call_headers_complete settings) Q K l.
Proof.
  intros Hok Hfl HQ HR. pose proof (wb_headers_complete (s := settings)) as Hwb.
  unfold call_headers_complete.
  destruct l as [[ty fl st hs ix le nr cl mj mn sc me er up da] ch p pst m1 m2 m3 m4 m5].
  cbn in Hok, Hfl; subst er.
  destruct (on_headers_complete settings) as [f|].
  2:{ apply wp_ret. apply (HQ da HPE_OK fl up); auto. }
  apply wp_bind, wp_gets, wp_bind, wp_upd. cbn [l_parser l_set_parser].
  match goal with |- context [f ?x] => destruct (Hwb f x eq_refl) as (d & e & Heq & Hcase);
    destruct (f x) as [h' r]; cbn [fst snd] in Heq |- *; subst h' end.
  assert (e = HPE_OK \/ e = HPE_PAUSED) as He by (destruct Hcase; auto). clear Hcase.
  cbv zeta. destruct (r =? 0); [apply wp_ret, (HQ d e fl up); auto|].
  destruct (r =? 2).
  { apply wp_bind, wp_upd, wp_upd.
    apply (HQ d e (u8 (Z.lor fl F_SKIPBODY)) true); auto using u8_range. }
  destruct (r =? 1).
  { apply wp_upd. apply (HQ d e (u8 (Z.lor fl F_SKIPBODY)) up); auto using u8_range. }
  apply wp_bind, wp_upd, wp_bind, wp_get_p, wp_RETURN, (HR d).
Qed.

End Composite.

(** Compute with the projections and setters of the records. *)
Ltac lsimpl_in_goal :=
  cbn [l_parser l_ch l_p l_state l_header_field_mark l_header_value_mark l_url_mark
       l_body_mark l_status_mark l_set_parser l_set_ch l_set_p l_set_state l_mark l_set_mark
       set_type set_flags set_state set_header_state set_index set_lenient_http_headers
       set_nread set_content_length set_http_major set_http_minor set_status_code set_method
       set_http_errno set_upgrade set_data
       hp_type hp_flags hp_state hp_header_state hp_index hp_lenient_http_headers hp_nread
       hp_content_length hp_http_major hp_http_minor hp_status_code hp_method hp_http_errno
       hp_upgrade hp_data on_break on_reexecute on_error on_return case_exits fst snd].

Ltac lsimpl_in H :=
  cbn [l_parser l_ch l_p l_state l_header_field_mark l_header_value_mark l_url_mark
       l_body_mark l_status_mark l_set_parser l_set_ch l_set_p l_set_state l_mark l_set_mark
       hp_type hp_flags hp_state hp_header_state hp_index hp_lenient_http_headers hp_nread
       hp_content_length hp_http_major hp_http_minor hp_status_code hp_method hp_http_errno
       hp_upgrade hp_data] in H.

(** One step of the calculus. *)
Ltac wp_step :=
  lazymatch goal with
  | |- wp (_ ≫= _) _ _ _ => apply wp_bind
  | |- wp (mret _) _ _ _ => apply wp_ret; cbv beta
  | |- wp (gets _) _ _ _ => apply wp_gets; cbv beta; lsimpl_in_goal
  | |- wp get_ch _ _ _ => apply wp_get_ch; cbv beta; lsimpl_in_goal
  | |- wp get_p _ _ _ => apply wp_get_p; cbv beta; lsimpl_in_goal
  | |- wp CURRENT_STATE _ _ _ => apply wp_CURRENT_STATE; cbv beta; lsimpl_in_goal
  | |- wp (get_mark _) _ _ _ => apply wp_get_mark; cbv beta; lsimpl_in_goal
  | |- wp (upd _) _ _ _ => apply wp_upd; cbv beta; lsimpl_in_goal
  | |- wp (SET_ERRNO _) _ _ _ => apply wp_upd; cbv beta; lsimpl_in_goal
  | |- wp (or_flags _) _ _ _ => apply wp_upd; cbv beta; lsimpl_in_goal
  | |- wp incr_index _ _ _ => apply wp_upd; cbv beta; lsimpl_in_goal
  | |- wp (put_ch _) _ _ _ => apply wp_put_ch; cbv beta; lsimpl_in_goal
  | |- wp (put_p _) _ _ _ => apply wp_put_p; cbv beta; lsimpl_in_goal
  | |- wp (UPDATE_STATE (NEW_MESSAGE ?h)) _ _ _ =>
      destruct (NEW_MESSAGE_cases h) as [->|[->| ->]]
  | |- wp (UPDATE_STATE (if ?b then _ else _)) _ _ _ => destruct b eqn:?
  | |- wp (UPDATE_STATE _) _ _ _ => apply wp_UPDATE_STATE; cbv beta; lsimpl_in_goal
  | |- wp (put_mark _ _) _ _ _ => apply wp_put_mark; cbv beta; lsimpl_in_goal
  | |- wp (MARK _) _ _ _ => apply wp_MARK; cbv beta; lsimpl_in_goal
  | |- wp break _ _ _ => apply wp_break; lsimpl_in_goal
  | |- wp REEXECUTE _ _ _ => apply wp_REEXECUTE; lsimpl_in_goal
  | |- wp goto_error _ _ _ => apply wp_goto_error; lsimpl_in_goal
  | |- wp (error _) _ _ _ => apply wp_error; lsimpl_in_goal
  | |- wp (RETURN _) _ _ _ => apply wp_RETURN; lsimpl_in_goal
  | |- wp (return_ _) _ _ _ => apply wp_return_; lsimpl_in_goal
  | |- wp (STRICT_CHECK _) _ _ _ => unfold STRICT_CHECK
  | |- wp (c_assert _) _ _ _ => apply wp_assert; [|cbv beta]
  | |- wp assert_chunked _ _ _ => unfold assert_chunked
  | |- wp assert_body_length _ _ _ => unfold assert_body_length
  | |- wp (get_to_read _) _ _ _ => unfold get_to_read
  | |- wp (consume_body _) _ _ _ => unfold consume_body
  | |- wp (complete_message _) _ _ _ => unfold complete_message
  | |- wp (call_headers_complete _) _ _ _ =>
      apply (wp_headers_complete _);
      [done|lsimpl_in_goal; auto using u8_range; tauto
      |intros ? ? ? ? [->| ->] ?; lsimpl_in_goal|intros ?; lsimpl_in_goal]
  | |- wp finish_header _ _ _ =>
      apply wp_finish_header; [lsimpl_in_goal; tauto|intros ? ?; lsimpl_in_goal]
  | |- wp (if decide _ then _ else _) _ _ _ => case_decide
  | |- wp (if ?b then _ else _) _ _ _ => destruct b eqn:?
  | |- wp (let _ := _ in _) _ _ _ => cbv zeta
  | |- wp (match ?x with _ => _ end) _ _ _ => destruct x eqn:?
  end.

(** Split a state that satisfies the invariant into its components. *)
Ltac start_case :=
  match goal with
  | |- forall l : locals _, _ =>
      let st := fresh "st" in
      intros [[ty fl sst hs ix len0 nr0 cl mj mn sc me er up da] ch p st hf hv ur bo ss];
      lsimpl_in_goal; intros Hinv Est Hp; lsimpl_in Hinv; subst;
      destruct Hinv as (Her & [Hrg Hst] & Hm1 & Hm2 & Hm3 & Hm4 & Hm5);
      lsimpl_in Her; lsimpl_in Hm1; lsimpl_in Hm2; lsimpl_in Hm3; lsimpl_in Hm4; lsimpl_in Hm5;
      unfold ranges_ok in Hrg; lsimpl_in Hrg; lsimpl_in Hst; cbn [state_ok] in Hst;
      unfold chunked in Hst; lsimpl_in Hst; subst;
      unfold mark_ok in Hm1, Hm2, Hm3, Hm4, Hm5; cbn in Hm1, Hm2, Hm3, Hm4, Hm5
  end.

(** Forget the marks the state does not allow. *)
Ltac drop_marks :=
  repeat match goal with
  | H : match ?o with Some _ => false = true /\ _ | None => True end |- _ =>
      destruct o; [destruct H; discriminate|clear H]
  end.

Lemma or_flag_range f g : 0 <= f < 256 -> 0 <= g < 256 -> 0 <= u8 (Z.lor f g) < 256.
Proof. intros _ _. apply u8_range. Qed.

Lemma has_bit_or_other fl f g :
  0 <= fl < 256 -> 0 <= g < 256 -> has_bit fl f = true -> has_bit (u8 (Z.lor fl g)) f = true.
Proof.
  intros Hfl Hg. unfold has_bit. rewrite u8_small by (by apply lor_u8_range).
  rewrite !negb_true_iff, !Z.eqb_neq, Z.land_lor_distr_l. intros Hne Hz.
  apply Z.lor_eq_0_iff in Hz. tauto.
Qed.

(** Facts about one byte *)
Lemma IS_NUM_range ch : IS_NUM ch = true -> 0 <= ch - "0"%c <= 9.
Proof. unfold IS_NUM. intros H. breflect. lia. Qed.

Ltac num_facts :=
  repeat match goal with
  | H : negb (IS_NUM _) = false |- _ => apply negb_false_iff, IS_NUM_range in H
  | H : IS_NUM _ = true |- _ => apply IS_NUM_range in H
  end.

Ltac mod_facts :=
  repeat match goal with
  | |- context [u8 ?z] => lazymatch goal with
      | _ : 0 <= u8 z < 256 |- _ => fail | _ => pose proof (u8_range z) end
  | |- context [u16 ?z] => lazymatch goal with
      | _ : 0 <= u16 z < 65536 |- _ => fail | _ => pose proof (u16_range z) end
  | |- context [u64 ?z] => lazymatch goal with
      | _ : 0 <= u64 z < 2 ^ 64 |- _ => fail | _ => pose proof (u64_range z) end
  | |- context [u7 ?z] => lazymatch goal with
      | _ : 0 <= u7 z < 128 |- _ => fail | _ => pose proof (u7_range z) end
  end.

Lemma ULLONG_MAX_val : ULLONG_MAX = 18446744073709551615.
Proof. reflexivity. Qed.

Lemma HTTP_MAX_HEADER_SIZE_val : HTTP_MAX_HEADER_SIZE = 81920.
Proof. reflexivity. Qed.

Lemma method_string_pos m : 1 <= zlen (method_string m).
Proof. destruct m; vm_compute; discriminate. Qed.

Lemma unhex_range ch : -1 <= unhex ch <= 15.
Proof.
  unfold unhex, table_at. destruct (unhex_tab !! Z.to_nat ch) as [v|] eqn:E; [|cbn; lia].
  assert (Forall (fun v => -1 <= v <= 15) unhex_tab) as HF.
  { unfold unhex_tab. repeat constructor; lia. }
  by eapply Forall_lookup_1 in HF.
Qed.

(** The conservative overflow tests are exact enough: a length that passes
    them is multiplied without wrap-around and stays below [ULLONG_MAX]. *)
Lemma chunk_size_step cl v :
  0 <= cl -> cl <= (ULLONG_MAX - 16) / 16 -> 0 <= v <= 15 ->
  u64 (u64 (cl * 16) + v) = cl * 16 + v /\ cl * 16 + v < ULLONG_MAX.
Proof.
  change ((ULLONG_MAX - 16) / 16) with 1152921504606846974. intros.
  rewrite (u64_small (cl * 16)) by lia. rewrite u64_small by lia.
  rewrite ULLONG_MAX_val. lia.
Qed.

Lemma content_length_step cl v :
  0 <= cl -> cl <= (ULLONG_MAX - 10) / 10 -> 0 <= v <= 9 ->
  u64 (u64 (cl * 10) + v) = cl * 10 + v /\ cl * 10 + v < ULLONG_MAX.
Proof.
  change ((ULLONG_MAX - 10) / 10) with 1844674407370955160. intros.
  rewrite (u64_small (cl * 10)) by lia. rewrite u64_small by lia.
  rewrite ULLONG_MAX_val. lia.
Qed.

(** Arithmetic on the constants of the parser *)
Ltac hlia :=
  rewrite ?ULLONG_MAX_val, ?HTTP_MAX_HEADER_SIZE_val in *; lia.

(** Goals about an optional mark or a chosen header state *)
Ltac split_goal :=
  repeat match goal with
  | |- context [match ?o with Some _ => _ | None => _ end] => destruct o; destruct_and?
  | |- field_hs (if _ then _ else _) = true => case_if
  | |- value_hs (if _ then _ else _) = true => case_if
  end.

(** Close the goals a case leaves: the invariant of the next state, the
    offsets, the error codes. *)
Ltac finish_case :=
  unfold wf, inv; unfold parser_ok, marks_ok; unfold ranges_ok, mark_ok;
  lsimpl_in_goal; cbn [state_ok]; unfold chunked; lsimpl_in_goal; destruct_and?;
  repeat match goal with
    | |- _ /\ _ => split
    | |- (_ = HPE_OK \/ _) -> _ => intros _
    end; mod_facts; cbn [mark_state rank is_url_state];
  rewrite ?u16_small by (num_facts; lia);
  try assumption; split_goal;
  try done; try (by left); try (breflect; by right);
  try apply method_string_pos; try (breflect; num_facts; hlia).

Ltac solve_wb :=
  first [apply wb_message_begin | apply wb_headers_complete | apply wb_message_complete
        | apply wb_chunk_header | apply wb_chunk_complete | apply wb_data].

(** The steps of the callback macros *)
Ltac cb_step :=
  lazymatch goal with
  | |- wp (CALLBACK_NOTIFY _ _) _ _ _ => unfold CALLBACK_NOTIFY
  | |- wp (CALLBACK_NOTIFY_NOADVANCE _ _) _ _ _ => unfold CALLBACK_NOTIFY_NOADVANCE
  | |- wp (CALLBACK_NOTIFY_ _ _ _) _ _ _ =>
      apply wp_notify;
      [solve_wb|done|done|intros ? ? _; lsimpl_in_goal|intros ? ? ? ?; lsimpl_in_goal]
  | |- wp (CALLBACK_DATA _ _ _) _ _ _ => unfold CALLBACK_DATA
  | |- wp (CALLBACK_DATA_NOADVANCE _ _ _) _ _ _ => unfold CALLBACK_DATA_NOADVANCE
  | |- wp (CALLBACK_DATA_ _ _ _ _ _) _ _ _ =>
      apply wp_data_cb;
      [solve_wb|done|intros ?; lsimpl_in_goal; intros ?; simplify_eq
      |intros ? ? _; lsimpl_in_goal|intros ? ? ? ?; lsimpl_in_goal]
  end.

Ltac run_case := repeat first [wp_step|cb_step]; try solve [finish_case].

Section Cases_ok.
Context {D : Type} (settings : http_parser_settings D) `{!WellBehaved settings}.
Context (data : list Z) (lenient : bool) (Hlen : zlen data < 2 ^ 64).
Abbreviation len := (zlen data).

(** The statement proved for every case *)
Definition case_ok (st : state) (m : M D unit) : Prop :=
  forall l : locals D,
    inv 1 l -> l_state l = st -> 0 <= l_p l < len ->
    wp m (fun _ _ => False) (case_exits len (l_p l) st) l.

Ltac begin m := unfold case_ok, m; start_case; drop_marks.

Lemma case_dead_ok : case_ok s_dead case_dead.
Proof. begin @case_dead. run_case. Qed.

Lemma case_start_req_or_res_ok : case_ok s_start_req_or_res (case_start_req_or_res settings).
Proof. begin @case_start_req_or_res. run_case. Qed.

Lemma case_res_or_resp_H_ok : case_ok s_res_or_resp_H case_res_or_resp_H.
Proof. begin @case_res_or_resp_H. run_case. Qed.

Lemma case_start_res_ok : case_ok s_start_res (case_start_res settings).
Proof. begin @case_start_res. run_case. Qed.

Lemma case_res_H_ok : case_ok s_res_H case_res_H.
Proof. begin @case_res_H. unfold expect_strict. run_case. Qed.

Lemma case_res_HT_ok : case_ok s_res_HT case_res_HT.
Proof. begin @case_res_HT. unfold expect_strict. run_case. Qed.

Lemma case_res_HTT_ok : case_ok s_res_HTT case_res_HTT.
Proof. begin @case_res_HTT. unfold expect_strict. run_case. Qed.

Lemma case_res_HTTP_ok : case_ok s_res_HTTP case_res_HTTP.
Proof. begin @case_res_HTTP. unfold expect_strict. run_case. Qed.

Lemma case_res_line_almost_done_ok : case_ok s_res_line_almost_done case_res_line_almost_done.
Proof. begin @case_res_line_almost_done. unfold expect_strict. run_case. Qed.

Lemma case_req_http_H_ok : case_ok s_req_http_H case_req_http_H.
Proof. begin @case_req_http_H. unfold expect_strict. run_case. Qed.

Lemma case_req_http_HT_ok : case_ok s_req_http_HT case_req_http_HT.
Proof. begin @case_req_http_HT. unfold expect_strict. run_case. Qed.

Lemma case_req_http_HTT_ok : case_ok s_req_http_HTT case_req_http_HTT.
Proof. begin @case_req_http_HTT. unfold expect_strict. run_case. Qed.

Lemma case_req_http_HTTP_ok : case_ok s_req_http_HTTP case_req_http_HTTP.
Proof. begin @case_req_http_HTTP. unfold expect_strict. run_case. Qed.

Lemma case_header_value_discard_ws_almost_done_ok : case_ok s_header_value_discard_ws_almost_done case_header_value_discard_ws_almost_done.
Proof. begin @case_header_value_discard_ws_almost_done. unfold expect_strict. run_case. Qed.

Lemma case_res_http_major_ok : case_ok s_res_http_major (case_http_major s_res_http_dot).
Proof. begin @case_http_major. run_case. Qed.

Lemma case_res_http_dot_ok : case_ok s_res_http_dot (case_http_dot s_res_http_minor).
Proof. begin @case_http_dot. run_case. Qed.

Lemma case_res_http_minor_ok : case_ok s_res_http_minor (case_http_minor s_res_http_end).
Proof. begin @case_http_minor. run_case. Qed.

Lemma case_req_http_major_ok : case_ok s_req_http_major (case_http_major s_req_http_dot).
Proof. begin @case_http_major. run_case. Qed.

Lemma case_req_http_dot_ok : case_ok s_req_http_dot (case_http_dot s_req_http_minor).
Proof. begin @case_http_dot. run_case. Qed.

Lemma case_req_http_minor_ok : case_ok s_req_http_minor (case_http_minor s_req_http_end).
Proof. begin @case_http_minor. run_case. Qed.

Lemma case_res_http_end_ok : case_ok s_res_http_end case_res_http_end.
Proof. begin @case_res_http_end. run_case. Qed.

Lemma case_res_first_status_code_ok : case_ok s_res_first_status_code case_res_first_status_code.
Proof. begin @case_res_first_status_code. run_case. Qed.

Lemma case_res_status_code_ok : case_ok s_res_status_code case_res_status_code.
Proof. begin @case_res_status_code. run_case. Qed.

Lemma case_res_status_start_ok : case_ok s_res_status_start case_res_status_start.
Proof. begin @case_res_status_start. run_case. Qed.

Lemma case_res_status_ok : case_ok s_res_status (case_res_status settings data).
Proof. begin @case_res_status. run_case. Qed.

Lemma case_start_req_ok : case_ok s_start_req (case_start_req settings).
Proof. begin @case_start_req. run_case. Qed.

Lemma method_switch_index m i ch m' :
  method_switch m i ch = Some m' -> 0 <= i + 1 <= zlen (method_string m').
Proof.
  unfold method_switch. destruct m; intros H; try discriminate H;
    repeat match type of H with (if ?b then _ else _) = _ => destruct b eqn:? end;
    simplify_eq; breflect; subst; vm_compute; split; discriminate.
Qed.

Lemma method_string_bound m : zlen (method_string m) <= 11.
Proof. destruct m; vm_compute; discriminate. Qed.

Lemma c_str_at_bound s i : 0 <= i <= zlen s ->
  exists c, c_str_at s i = Some c /\ (i = zlen s -> c = 0).
Proof.
  unfold c_str_at, zlen. intros Hi.
  destruct (Z.ltb_spec i (Z.of_nat (length s))) as [Hlt|Hge].
  - destruct (lookup_lt_is_Some_2 s (Z.to_nat i)) as [c Hc]; [lia|].
    exists c. rewrite (proj2 (Z.leb_le 0 i)), Hc by lia. split; [done|lia].
  - exists 0. rewrite andb_false_r. rewrite (proj2 (Z.eqb_eq _ _)) by lia. done.
Qed.

Lemma wp_str_at s i (Q : Z -> locals D -> Prop) K l :
  0 <= i <= zlen s ->
  (forall c, c_str_at s i = Some c -> (i = zlen s -> c = 0) -> Q c l) ->
  wp (str_at s i) Q K l.
Proof.
  intros Hi HQ. destruct (c_str_at_bound s i Hi) as (c & Hc & H0).
  unfold wp, str_at. rewrite Hc. by apply HQ.
Qed.

Lemma case_req_method_ok : case_ok s_req_method case_req_method.
Proof.
  begin @case_req_method. pose proof (method_string_bound me).
  repeat wp_step; try solve [finish_case].
  all: apply wp_str_at; [lia|]; intros c Hc Hend; repeat wp_step; try solve [finish_case].
  all: destruct_and?; rewrite u7_small by lia; try solve [finish_case].
  apply method_switch_index in Heqo. finish_case.
Qed.

(** After [parse_url_char] the state is one of the URL states again, or the
    function goes to [error]. *)
Lemma wp_url_char (Q : unit -> locals D -> Prop) K l :
  is_url_state (l_state l) = true \/ l_state l = s_req_spaces_before_url ->
  (forall st', is_url_state st' = true -> Q tt (l_set_state st' l)) ->
  on_error K (l_set_parser (set_http_errno HPE_INVALID_URL (l_parser l))
                (l_set_state s_dead l)) ->
  wp url_char Q K l.
Proof.
  intros Hst HQ HE. unfold url_char. destruct l as [h ch p st m1 m2 m3 m4 m5].
  repeat wp_step; cbn [l_state] in Hst.
  - rewrite H in *. exact HE.
  - apply HQ. destruct (parse_url_char_url st ch) as [Hd|Hu]; [by destruct Hst; subst|done..].
Qed.

Ltac url_step :=
  apply wp_url_char;
  [by auto|intros st' Hst'; lsimpl_in_goal; repeat wp_step;
           destruct st'; try discriminate Hst'; finish_case
  |lsimpl_in_goal; finish_case].

Lemma case_req_spaces_before_url_ok :
  case_ok s_req_spaces_before_url case_req_spaces_before_url.
Proof. begin @case_req_spaces_before_url. run_case; url_step. Qed.

Lemma case_req_schema_ok st :
  st = s_req_schema \/ st = s_req_schema_slash \/ st = s_req_schema_slash_slash
  \/ st = s_req_server_start -> case_ok st case_req_schema.
Proof.
  intros [->|[->|[->| ->]]]; begin @case_req_schema; run_case; url_step.
Qed.

Lemma case_req_url_ok st :
  st = s_req_server \/ st = s_req_server_with_at \/ st = s_req_path
  \/ st = s_req_query_string_start \/ st = s_req_query_string
  \/ st = s_req_fragment_start \/ st = s_req_fragment ->
  case_ok st (case_req_url settings data).
Proof. intros [->|[->|[->|[->|[->|[->| ->]]]]]]; begin @case_req_url; run_case; url_step. Qed.

Lemma case_req_http_start_ok : case_ok s_req_http_start case_req_http_start.
Proof. begin @case_req_http_start. run_case. Qed.

Lemma case_req_http_end_ok : case_ok s_req_http_end case_req_http_end.
Proof. begin @case_req_http_end. run_case. Qed.

Lemma case_req_line_almost_done_ok : case_ok s_req_line_almost_done case_req_line_almost_done.
Proof. begin @case_req_line_almost_done. run_case. Qed.

Lemma case_header_field_start_ok : case_ok s_header_field_start case_header_field_start.
Proof. begin @case_header_field_start. run_case. Qed.

Lemma case_header_value_start_ok_gen st :
  st = s_header_value_start \/ st = s_header_value_discard_ws ->
  case_ok st case_header_value_start.
Proof. intros [->| ->]; begin @case_header_value_start; run_case. Qed.

Lemma case_header_value_start_ok : case_ok s_header_value_start case_header_value_start.
Proof. begin @case_header_value_start. run_case. Qed.

Lemma case_header_value_discard_ws_ok :
  case_ok s_header_value_discard_ws case_header_value_discard_ws.
Proof.
  intros l Hinv Est Hp. pose proof (case_header_value_start_ok_gen _ (or_intror eq_refl) l Hinv Est Hp)
    as Hfall. revert l Hinv Est Hp Hfall. unfold case_header_value_discard_ws.
  start_case. drop_marks. intros Hfall. repeat wp_step; try exact Hfall; finish_case.
Qed.

Lemma case_header_almost_done_ok : case_ok s_header_almost_done case_header_almost_done.
Proof. begin @case_header_almost_done. run_case. Qed.

Lemma case_header_value_lws_ok : case_ok s_header_value_lws case_header_value_lws.
Proof. begin @case_header_value_lws. run_case. Qed.

Lemma case_header_value_discard_lws_ok : case_ok s_header_value_discard_lws (case_header_value_discard_lws settings data).
Proof. begin @case_header_value_discard_lws. run_case. Qed.

Lemma case_body_identity_eof_ok : case_ok s_body_identity_eof (case_body_identity_eof data).
Proof. begin @case_body_identity_eof. run_case. Qed.

Lemma case_chunk_size_start_ok : case_ok s_chunk_size_start case_chunk_size_start.
Proof.
  begin @case_chunk_size_start. run_case.
  pose proof (unhex_range ch). breflect. rewrite u64_small by lia. finish_case.
Qed.

Lemma case_chunk_size_ok : case_ok s_chunk_size case_chunk_size.
Proof.
  begin @case_chunk_size. run_case.
  pose proof (unhex_range ch). breflect.
  destruct (chunk_size_step cl (unhex ch)) as [-> ?]; [lia..|]. finish_case.
Qed.

Lemma case_chunk_parameters_ok : case_ok s_chunk_parameters case_chunk_parameters.
Proof. begin @case_chunk_parameters. run_case. Qed.

Lemma case_chunk_size_almost_done_ok : case_ok s_chunk_size_almost_done (case_chunk_size_almost_done settings).
Proof. begin @case_chunk_size_almost_done. run_case. Qed.

Lemma body_step cl p :
  0 < cl < ULLONG_MAX -> 0 <= p < len ->
  exists r, Z.min cl (u64 (len - p)) = r /\ 1 <= r <= len - p /\ r <= cl
            /\ u64 (cl - r) = cl - r.
Proof.
  rewrite ULLONG_MAX_val. intros Hcl Hp. rewrite (u64_small (len - p)) by lia.
  eexists; split; [reflexivity|]. split_and!; try lia. apply u64_small. lia.
Qed.

Lemma case_chunk_data_ok : case_ok s_chunk_data (case_chunk_data data).
Proof.
  begin @case_chunk_data. destruct (body_step cl p) as (r & Hr & ? & ? & Hsub); [tauto..|].
  run_case; rewrite ?Hr, ?Hsub in *; finish_case.
Qed.

Lemma case_chunk_data_almost_done_ok : case_ok s_chunk_data_almost_done (case_chunk_data_almost_done settings data).
Proof. begin @case_chunk_data_almost_done. run_case. Qed.

Lemma case_chunk_data_done_ok : case_ok s_chunk_data_done (case_chunk_data_done settings).
Proof. begin @case_chunk_data_done. run_case. Qed.

Lemma case_body_identity_ok : case_ok s_body_identity (case_body_identity settings data).
Proof.
  begin @case_body_identity. destruct (body_step cl p) as (r & Hr & ? & ? & Hsub); [tauto..|].
  run_case; rewrite ?Hr, ?Hsub in *; finish_case.
Qed.

Lemma case_message_done_ok : case_ok s_message_done (case_message_done settings).
Proof. begin @case_message_done. run_case. Qed.

Lemma case_headers_done_ok : case_ok s_headers_done (case_headers_done settings).
Proof. begin @case_headers_done. run_case. Qed.

Lemma case_headers_almost_done_ok : case_ok s_headers_almost_done (case_headers_almost_done settings).
Proof. begin @case_headers_almost_done. run_case. Qed.

End Cases_ok.
