(* ===== verification/HttpSafe.v ===== *)
(** * Safety of [http_parser_execute]: the header loops and the main loop

    The two inner loops over header names and values, the [switch] as a whole,
    [goto reexecute], the main loop and the function. *)

From S2P Require Import Prelude HttpDefs HttpMonad HttpExec HttpInv.

Section Header_loops.
Context {D : Type} (settings : http_parser_settings D) `{!WellBehaved settings}.
Context (data : list Z) (lenient : bool) (Hlen : zlen data < 2 ^ 64).
Abbreviation len := (zlen data).
Implicit Types (l : locals D) (K : exits D).

Lemma wp_COUNT_HEADER_SIZE V (Q : unit -> locals D -> Prop) K l :
  (u32 (hp_nread (l_parser l) + V) <= HTTP_MAX_HEADER_SIZE ->
   Q tt (l_set_parser (set_nread (u32 (hp_nread (l_parser l) + V)) (l_parser l)) l)) ->
  (forall h, hp_http_errno h = HPE_HEADER_OVERFLOW -> on_error K (l_set_parser h l)) ->
  wp (COUNT_HEADER_SIZE V) Q K l.
Proof.
  intros HQ HE. unfold COUNT_HEADER_SIZE. apply wp_bind, wp_upd, wp_bind, wp_gets.
  destruct l as [h ch p st m1 m2 m3 m4 m5]; destruct h; lsimpl_in_goal.
  destruct (Z.ltb_spec HTTP_MAX_HEADER_SIZE (u32 (hp_nread + V))).
  - apply wp_error. lsimpl_in_goal. by apply (HE (mk_http_parser _ _ _ _ _ _ _ _ _ _ _ _ _ _ _)).
  - apply wp_ret. auto.
Qed.

Lemma wp_COUNT_HEADER_SIZE_fits V (Q : unit -> locals D -> Prop) K l :
  u32 (hp_nread (l_parser l) + V) <= HTTP_MAX_HEADER_SIZE ->
  Q tt (l_set_parser (set_nread (u32 (hp_nread (l_parser l) + V)) (l_parser l)) l) ->
  wp (COUNT_HEADER_SIZE V) Q K l.
Proof.
  intros Hfit HQ. unfold COUNT_HEADER_SIZE. apply wp_bind, wp_upd, wp_bind, wp_gets.
  destruct l as [[] ch p st m1 m2 m3 m4 m5]; lsimpl_in Hfit; lsimpl_in_goal.
  rewrite (proj2 (Z.ltb_ge _ _)) by done. by apply wp_ret.
Qed.

(** [match_keyword] stays inside its keyword: it changes the index and answers
    one of the three header states. *)
Lemma wp_match_keyword kw c h no_match full_match (Q : header_states -> locals D -> Prop) K l :
  (forall ix hs, 0 <= ix < 128 -> hs = no_match \/ hs = full_match \/ hs = h ->
     Q hs (l_set_parser (set_index ix (l_parser l)) l)) ->
  wp (match_keyword kw c h no_match full_match) Q K l.
Proof.
  intros HQ. unfold match_keyword. destruct l as [hp ch p st m1 m2 m3 m4 m5]; destruct hp.
  apply wp_bind, wp_upd. lsimpl_in_goal. apply wp_bind, wp_gets. lsimpl_in_goal.
  pose proof (u7_range (hp_index + 1)) as Hr.
  assert (forall hs, hs = no_match \/ hs = full_match \/ hs = h -> wp (mret hs) Q K
    {| l_parser := mk_http_parser hp_type hp_flags hp_state hp_header_state (u7 (hp_index + 1))
         hp_lenient_http_headers hp_nread hp_content_length hp_http_major hp_http_minor
         hp_status_code hp_method hp_http_errno hp_upgrade hp_data;
       l_ch := ch; l_p := p; l_state := st; l_header_field_mark := m1;
       l_header_value_mark := m2; l_url_mark := m3; l_body_mark := m4; l_status_mark := m5 |})
    as Hend by (intros hs Hhs; apply wp_ret; by apply HQ).
  apply wp_bind. destruct (Z.ltb_spec (sizeof kw - 1) (u7 (hp_index + 1))) as [Hlt|Hle].
  - apply wp_ret. auto.
  - apply wp_bind, wp_str_at; [unfold sizeof, zlen in *; lia|]. intros k _ _.
    apply wp_ret. destruct (negb (c =? k)); [auto|]. destruct (_ =? _); auto.
Qed.

(** *** Header names *)

(** One character of a header name changes the index and the header state. *)
Lemma wp_header_field_char ch c (Q : unit -> locals D -> Prop) K l :
  0 <= hp_index (l_parser l) < 128 ->
  field_hs (hp_header_state (l_parser l)) = true ->
  (forall ix hs, 0 <= ix < 128 -> field_hs hs = true ->
     Q tt (l_set_parser (set_header_state hs (set_index ix (l_parser l))) l)) ->
  wp (header_field_char ch c) Q K l.
Proof.
  intros Hix Hhs HQ. unfold header_field_char.
  destruct l as [hp ch0 p st m1 m2 m3 m4 m5]; destruct hp; cbn in Hix, Hhs.
  apply wp_bind, wp_gets. lsimpl_in_goal. pose proof (HQ _ _ Hix Hhs) as Hsame.
  destruct hp_header_state; try discriminate Hhs;
    try (apply wp_bind, wp_match_keyword; intros ix hs ? Hcase; apply wp_upd, HQ; [done|];
         by destruct_or! Hcase; subst);
    try (apply wp_bind, wp_upd, wp_upd, HQ; [apply u7_range|by repeat case_if]);
    try (case_if; [by apply wp_upd, HQ|exact Hsame]).
  exact Hsame.
Qed.

Lemma wp_header_field_loop fuel (Q : unit -> locals D -> Prop) K l :
  0 <= hp_index (l_parser l) < 128 ->
  field_hs (hp_header_state (l_parser l)) = true ->
  0 <= l_p l <= len -> len - l_p l < Z.of_nat fuel ->
  (forall ix hs ch p, 0 <= ix < 128 -> field_hs hs = true -> l_p l <= p <= len ->
     Q tt (l_set_p p (l_set_ch ch
            (l_set_parser (set_header_state hs (set_index ix (l_parser l))) l)))) ->
  wp (header_field_loop data fuel) Q K l.
Proof.
  revert l. induction fuel as [|fuel IH]; intros l Hix Hhs Hp Hfuel HQ; [lia|].
  destruct l as [hp ch0 p st m1 m2 m3 m4 m5]; destruct hp; lsimpl_in Hix; lsimpl_in Hhs;
    lsimpl_in Hp; lsimpl_in Hfuel.
  cbn [header_field_loop]. apply wp_bind, wp_get_p. lsimpl_in_goal.
  destruct (Z.eqb_spec p len) as [->|Hne].
  { apply wp_ret. apply (HQ _ _ ch0 len Hix Hhs). lsimpl_in_goal. lia. }
  apply wp_bind, wp_deref; [lia|]. intros b _.
  apply wp_bind, wp_put_ch. lsimpl_in_goal. cbv zeta.
  destruct (TOKEN b =? 0).
  { apply wp_ret. apply (HQ _ _ b p Hix Hhs). lsimpl_in_goal. lia. }
  apply wp_bind, wp_header_field_char; [done|done|]. intros ix hs Hix' Hhs'.
  lsimpl_in_goal. apply wp_bind, wp_put_p. lsimpl_in_goal.
  apply IH; lsimpl_in_goal; [done|done|lia|lia|]. intros ix2 hs2 ch2 p2 ? ? ?.
  apply HQ; [done|done|]. lsimpl_in_goal. lia.
Qed.

Lemma len_fuel p : 0 <= p -> len - p < Z.of_nat (S (length data)).
Proof. unfold zlen. lia. Qed.

Ltac count_step :=
  apply wp_COUNT_HEADER_SIZE;
  [let H := fresh "Hnr" in intros H; lsimpl_in H;
   match type of H with u32 ?z <= _ => pose proof (u32_range z) end; lsimpl_in_goal
  |intros [] ?; lsimpl_in_goal; cbn in *; subst; solve [finish_case]].

Lemma case_header_field_ok :
  case_ok data s_header_field (case_header_field settings data).
Proof.
  unfold case_ok, case_header_field. start_case. drop_marks.
  apply wp_bind, wp_get_p. lsimpl_in_goal.
  apply wp_bind, wp_header_field_loop; lsimpl_in_goal; [tauto|done|lia|apply len_fuel; lia|].
  intros ix' hs' ch' p' Hix' Hhs' Hp'. lsimpl_in_goal.
  apply wp_bind, wp_get_p. lsimpl_in_goal. apply wp_bind. count_step.
  repeat first [wp_step|cb_step]; try solve [finish_case].
Qed.

(** *** Header values *)

Lemma memchr_bound p c limit i b :
  0 <= p -> limit <= len - p -> byte_at data p = Some b -> b <> c ->
  memchr data p c limit = Some i -> p < i < len.
Proof.
  unfold memchr, byte_at, sub_bytes. intros Hp Hlim Hb Hne Hm.
  destruct (Z.ltb_spec p 0); [lia|].
  destruct (list_find (eq c) _) as [[n x]|] eqn:E; [|discriminate Hm].
  cbn in Hm. simplify_eq. apply list_find_Some in E. destruct E as (Hl & <- & _).
  pose proof (lookup_lt_Some _ _ _ Hl) as Hlt. rewrite length_take, length_drop in Hlt.
  apply lookup_take_Some in Hl as [Hl _]. rewrite lookup_drop in Hl.
  destruct n as [|n]; [|unfold zlen in *; lia].
  rewrite Nat.add_0_r in Hl. congruence.
Qed.

Lemma wp_skip_general b (Q : unit -> locals D -> Prop) K l :
  0 <= l_p l -> byte_at data (l_p l) = Some b -> b <> CR -> b <> LF ->
  (forall p, l_p l <= p < len -> Q tt (l_set_p p l)) ->
  wp (skip_general data) Q K l.
Proof.
  intros Hp Hb Hcr Hlf HQ. unfold skip_general. apply wp_bind, wp_get_p.
  pose proof (byte_at_Some _ _ _ Hb) as Hin. cbv zeta. apply wp_put_p, HQ.
  set (limit := Z.min _ _).
  destruct (memchr data (l_p l) CR limit) eqn:E1; [eapply memchr_bound in E1; [|eauto; lia..]|];
  (destruct (memchr data (l_p l) LF limit) eqn:E2; [eapply memchr_bound in E2; [|eauto; lia..]|]);
  try case_if; lia.
Qed.

Lemma wp_content_length_num ch (Q : header_states -> locals D -> Prop) K l :
  0 <= hp_content_length (l_parser l) <= ULLONG_MAX ->
  (forall cl hs, 0 <= cl <= ULLONG_MAX -> value_hs hs = true ->
     Q hs (l_set_parser (set_content_length cl (l_parser l)) l)) ->
  (forall h, hp_http_errno h = HPE_INVALID_CONTENT_LENGTH -> on_error K (l_set_parser h l)) ->
  wp (content_length_num ch) Q K l.
Proof.
  intros Hcl HQ HE. unfold content_length_num.
  destruct l as [h ch0 p st m1 m2 m3 m4 m5]; destruct h; lsimpl_in Hcl.
  repeat wp_step.
  1: by apply (HQ _ h_content_length_ws Hcl).
  1,2: by apply (HE (mk_http_parser _ _ _ _ _ _ _ _ _ _ _ _ _ _ _)).
  num_facts. breflect.
  destruct (content_length_step hp_content_length (ch - "0"%c)) as [-> ?]; [lia..|].
  apply (HQ _ h_content_length_num); [lia|done].
Qed.

(** One character of a header value changes the index, the content length,
    the flags and [p]. *)
Lemma wp_header_value_char b c hs (Q : header_states -> locals D -> Prop) K l :
  ranges_ok (l_parser l) -> value_hs hs = true ->
  0 <= l_p l -> byte_at data (l_p l) = Some b -> b <> CR -> b <> LF ->
  (forall hs' ix cl fl p, value_hs hs' = true -> 0 <= ix < 128 -> 0 <= cl <= ULLONG_MAX ->
     0 <= fl < 256 -> l_p l <= p < len ->
     Q hs' (l_set_p p (l_set_parser
              (set_flags fl (set_content_length cl (set_index ix (l_parser l)))) l))) ->
  (forall h, hp_http_errno h = HPE_INVALID_CONTENT_LENGTH -> on_error K (l_set_parser h l)) ->
  wp (header_value_char data b c hs) Q K l.
Proof.
  intros (Hfl & Hix & _ & Hcl & _) Hhs Hp Hb Hcr Hlf HQ HE. unfold header_value_char.
  pose proof (byte_at_Some _ _ _ Hb) as Hin.
  destruct l as [h ch0 p st m1 m2 m3 m4 m5]; destruct h; lsimpl_in Hfl; lsimpl_in Hix;
    lsimpl_in Hcl; lsimpl_in Hin; lsimpl_in Hp; lsimpl_in Hb.
  assert (forall hs', value_hs hs' = true -> Q hs' _) as Hsame
    by (intros hs' Hhs'; apply (HQ hs' _ _ _ p Hhs' Hix Hcl Hfl); lsimpl_in_goal; lia).
  lsimpl_in Hsame. destruct hs; try discriminate Hhs.
  all: try (apply wp_match_keyword; intros ix hs' ? Hcase;
            apply (HQ hs' ix _ _ p); [|done|done|done|lsimpl_in_goal; lia];
            by destruct_or! Hcase; subst).
  all: try (apply wp_content_length_num; [done| |done]; intros cl' hs' ? ?;
            apply (HQ hs' _ cl' _ p); [done..|lsimpl_in_goal; lia]).
  all: try (apply wp_ret, Hsame; by repeat case_if).
  all: try (repeat wp_step; [eapply (HQ _ 0 _ _ p)|by apply Hsame; try case_if];
            [done|lia|done|done || apply u8_range|lsimpl_in_goal; lia]).
  - apply wp_bind. eapply wp_skip_general; [done..|]. intros p' Hp'. apply wp_ret.
    by apply (HQ h_general _ _ _ p' eq_refl Hix Hcl Hfl).
  - repeat wp_step; [by apply Hsame|].
    by apply (HE (mk_http_parser _ _ _ _ _ _ _ _ _ _ _ _ _ _ _)).
Qed.

(** The invariant of the loop over a header value that began at [start] *)
Definition value_inv (start : Z) l : Prop :=
  hp_http_errno (l_parser l) = HPE_OK /\ ranges_ok (l_parser l)
  /\ l_header_field_mark l = None /\ l_url_mark l = None /\ l_body_mark l = None
  /\ l_status_mark l = None
  /\ (forall a, l_header_value_mark l = Some a -> 0 <= a <= start /\ l_state l = s_header_value)
  /\ 0 <= start <= l_p l.

Ltac solve_value_inv :=
  unfold value_inv, ranges_ok; lsimpl_in_goal; destruct_and?; split_and!; try done; try lia.

Lemma wp_header_value_loop fuel start hs (Q : header_states -> locals D -> Prop) l :
  value_inv start l -> l_state l = s_header_value -> value_hs hs = true ->
  l_p l <= len -> len - l_p l < Z.of_nat fuel ->
  (forall hs' l', value_inv start l' -> value_hs hs' = true ->
     l_state l' = s_header_value /\ l_p l' = len
     \/ l_state l' = s_header_almost_done /\ l_p l' < len -> Q hs' l') ->
  wp (header_value_loop settings data lenient fuel start hs) Q
     (case_exits len start s_header_value) l.
Proof.
  revert hs l. induction fuel as [|fuel IH]; intros hs l Hinv Hst Hhs Hp Hfuel HQ.
  { destruct Hinv; lia. }
  cbn [header_value_loop]. apply wp_bind, wp_get_p.
  destruct (Z.eqb_spec (l_p l) len) as [Hend|Hne]; [apply wp_ret, HQ; auto|].
  pose proof Hinv as (Her & Hrg & Hm1 & Hm3 & Hm4 & Hm5 & Hm2 & Hstart).
  apply wp_bind, wp_deref; [lia|]. intros b Hb. apply wp_bind, wp_put_ch.
  destruct l as [h ch p st hf hv ur bo ss]; lsimpl_in Hst; lsimpl_in Hm1; lsimpl_in Hm3;
    lsimpl_in Hm4; lsimpl_in Hm5; lsimpl_in Hm2; lsimpl_in Her; lsimpl_in Hp; lsimpl_in Hne;
    lsimpl_in Hfuel; lsimpl_in Hrg; lsimpl_in Hb; lsimpl_in Hstart; subst. lsimpl_in_goal.
  destruct (Z.eqb_spec b CR) as [Hcr|Hcr].
  { destruct h; unfold ranges_ok in Hrg; lsimpl_in Her; lsimpl_in Hrg; subst.
    repeat first [wp_step|cb_step]; try solve [finish_case].
    - specialize (Hm2 _ eq_refl). lia.
    - apply HQ; [|done|right; lsimpl_in_goal; split; [done|lia]].
      solve_value_inv. }
  apply wp_bind. destruct (Z.eqb_spec b LF) as [Hlf|Hlf].
  { destruct h; unfold ranges_ok in Hrg; lsimpl_in Her; lsimpl_in Hrg; subst.
    repeat first [wp_step|cb_step|count_step]; try solve [finish_case].
    specialize (Hm2 _ eq_refl). lia. }
  apply wp_ret. apply wp_bind. case_if.
  { apply wp_error. destruct h. finish_case. }
  apply wp_ret. cbv zeta.
  apply wp_bind. apply (wp_header_value_char b (LOWER b)); try done; lsimpl_in_goal; [lia| |].
  2:{ intros h' Hh'. finish_case. all: by rewrite Hh'. }
  intros hs' ix cl fl p' Hhs' Hix Hcl Hfl Hp'. lsimpl_in Hp'.
  apply wp_bind, wp_get_p, wp_bind, wp_put_p. destruct h; lsimpl_in_goal.
  unfold ranges_ok in Hrg; lsimpl_in Her; lsimpl_in Hrg; subst.
  apply IH; lsimpl_in_goal; try done; [|lia|lia].
  solve_value_inv.
Qed.

Lemma case_header_value_ok :
  case_ok data s_header_value (case_header_value settings data lenient).
Proof.
  unfold case_ok, case_header_value. start_case. drop_marks.
  apply wp_bind, wp_get_p, wp_bind, wp_gets. lsimpl_in_goal.
  apply wp_bind, wp_header_value_loop; lsimpl_in_goal; try done; [|lia|apply len_fuel; lia|].
  { solve_value_inv. intros a ->. tauto. }
  intros hs' [[] ch' p' st' hf' hv' ur' bo' ss'] (Her & Hrg' & ? & ? & ? & ? & Hm & Hs) Hhs' Hend.
  unfold ranges_ok in Hrg'. lsimpl_in Her. lsimpl_in Hrg'. clear Hrg. cbn in *. subst.
  apply wp_bind, wp_upd, wp_bind, wp_get_p. lsimpl_in_goal. apply wp_bind.
  destruct Hend as [[-> ->]|[-> ?]].
  - assert (match hv' with Some a => 0 <= a <= p | None => True end) as Hhv
      by (destruct hv'; [by apply Hm|done]).
    clear Hm Hm2. count_step. repeat wp_step; solve [finish_case].
  - assert (hv' = None) as -> by (destruct hv'; [by destruct (Hm _ eq_refl)|done]).
    count_step. repeat wp_step; try solve [finish_case].
Qed.

End Header_loops.

(** ** The [switch], [reexecute] and the main loop *)

Create HintDb http_cases.
#[export] Hint Resolve case_dead_ok case_start_req_or_res_ok case_res_or_resp_H_ok
  case_start_res_ok case_res_H_ok case_res_HT_ok case_res_HTT_ok case_res_HTTP_ok
  case_res_line_almost_done_ok case_req_http_H_ok case_req_http_HT_ok case_req_http_HTT_ok
  case_req_http_HTTP_ok case_header_value_discard_ws_almost_done_ok case_res_http_major_ok
  case_res_http_dot_ok case_res_http_minor_ok case_req_http_major_ok case_req_http_dot_ok
  case_req_http_minor_ok case_res_http_end_ok case_res_first_status_code_ok
  case_res_status_code_ok case_res_status_start_ok case_res_status_ok case_start_req_ok
  case_req_method_ok case_req_spaces_before_url_ok case_req_schema_ok case_req_url_ok
  case_req_http_start_ok case_req_http_end_ok case_req_line_almost_done_ok
  case_header_field_start_ok case_header_field_ok case_header_value_start_ok
  case_header_value_discard_ws_ok case_header_value_ok case_header_almost_done_ok
  case_header_value_lws_ok case_header_value_discard_lws_ok case_body_identity_eof_ok
  case_chunk_size_start_ok case_chunk_size_ok case_chunk_parameters_ok
  case_chunk_size_almost_done_ok case_chunk_data_ok case_chunk_data_almost_done_ok
  case_chunk_data_done_ok case_body_identity_ok case_message_done_ok case_headers_done_ok
  case_headers_almost_done_ok : http_cases.

Section Main_loop.
Context {D : Type} (settings : http_parser_settings D) `{!WellBehaved settings}.
Context (data : list Z) (lenient : bool) (Hlen : zlen data < 2 ^ 64).
Abbreviation len := (zlen data).
Implicit Types (l : locals D) (K : exits D).

Lemma switch_ok st : case_ok data st (switch settings data lenient st).
Proof. destruct st; cbn [switch]; auto 10 with http_cases. Qed.

(** [case_exits] without [goto reexecute] *)
Definition loop_exits (p0 : Z) : exits D := mk_exits
  (fun l => inv 0 l /\ p0 <= l_p l < len)
  (fun _ => False)
  (on_error (case_exits len p0 s_dead))
  (on_return (case_exits len p0 s_dead)).

Lemma reexecute_ok fuel l p0 :
  inv 1 l -> 0 <= p0 <= l_p l -> l_p l < len -> (rank (l_state l) < fuel)%nat ->
  wp (reexecute settings data lenient fuel) (fun _ _ => False) (loop_exits p0) l.
Proof.
  revert l. induction fuel as [|fuel IH]; intros l Hinv Hp0 Hp Hrank; [lia|].
  unfold wp. cbn [reexecute].
  pose proof (switch_ok (l_state l) l Hinv eq_refl) as Hsw. unfold wp in Hsw.
  destruct (switch settings data lenient (l_state l) l) as [| l' | l' | l' | h n | f];
    cbn in Hsw |- *; try (apply Hsw; lia); try (destruct Hsw; [lia|]; destruct_and?; split_and!; done || lia).
  destruct Hsw as (Hinv' & Hp' & Hr); [lia|]. apply IH; [done|lia|lia|lia].
Qed.

(** At every byte the rank of the state is below the fuel. *)
Lemma rank_fuel st : (rank st < reexecute_fuel)%nat.
Proof. unfold reexecute_fuel. destruct st; cbn; lia. Qed.

(** Reading the next byte: [nread] counts it in the header states. *)
Lemma inv_next l ch n :
  inv 0 l -> 0 <= n <= HTTP_MAX_HEADER_SIZE ->
  (l_state l = s_chunk_size_start -> n = 1) ->
  inv 1 (l_set_ch ch (l_set_parser (set_nread n (l_parser l)) l)).
Proof.
  destruct l as [[] ch0 p st hf hv ur bo ss]. unfold inv, parser_ok, ranges_ok, marks_ok.
  lsimpl_in_goal. intros (Her & [Hrg Hst] & Hm) Hn H1. split_and!; try tauto.
  destruct st; cbn in Hst |- *; unfold chunked in *; lsimpl_in Hst; lsimpl_in_goal; tauto.
Qed.

Lemma loop_body_ok l :
  inv 0 l -> 0 <= l_p l < len ->
  wp (loop_body settings data lenient) (fun _ _ => False) (loop_exits (l_p l)) l.
Proof.
  intros Hinv Hp. unfold loop_body. apply wp_bind, wp_get_p.
  apply wp_bind, wp_deref; [done|]. intros b Hb.
  apply wp_bind, wp_put_ch, wp_bind, wp_CURRENT_STATE.
  assert (forall n, 0 <= n <= HTTP_MAX_HEADER_SIZE ->
    (l_state l = s_chunk_size_start -> n = 1) ->
    wp (reexecute settings data lenient reexecute_fuel) (fun _ _ => False)
      (loop_exits (l_p l)) (l_set_ch b (l_set_parser (set_nread n (l_parser l)) l))) as Hre.
  { intros n Hn H1. apply reexecute_ok; [by apply inv_next|by destruct l; cbn in *; lia..|].
    apply rank_fuel. }
  pose proof Hinv as (_ & [(_ & _ & Hnr & _) Hst] & _).
  destruct l as [[] ch0 p st hf hv ur bo ss]; lsimpl_in Hst; lsimpl_in Hp; lsimpl_in Hnr.
  lsimpl_in Hre. apply wp_bind. lsimpl_in_goal. destruct (PARSING_HEADER st) eqn:E.
  - apply wp_COUNT_HEADER_SIZE; lsimpl_in_goal.
    + intros Hle. apply Hre; [pose proof (u32_range (hp_nread + 1)); lia|].
      intros ->. cbn in Hst. destruct Hst as [_ ->]. reflexivity.
    + intros h' Hh'. unfold loop_exits. lsimpl_in_goal. rewrite Hh'. split; [lia|done].
  - apply wp_ret. apply Hre; [done|]. intros ->. discriminate E.
Qed.

(** After the last byte *)

Lemma mark_state_inj m m' st :
  mark_state m st = true -> mark_state m' st = true -> m = m'.
Proof. destruct m, m', st; cbn; congruence. Qed.

Definition end_exits : exits D := mk_exits (fun _ => False) (fun _ => False) (fun _ => False)
  (fun h n => 0 <= n <= len /\ wf h
              /\ (hp_http_errno h <> HPE_OK \/ hp_upgrade h = true \/ n = len)).

(** Changing [data] and the stored state keeps the invariant. *)
Lemma inv_set_data l d s m :
  inv 0 l -> inv 0 (l_set_mark m None (l_set_parser (set_state s (set_data d (l_parser l))) l)).
Proof.
  destruct l as [[] ch0 p st hf hv ur bo ss]. unfold inv, parser_ok, ranges_ok, marks_ok.
  destruct m; lsimpl_in_goal; cbn [mark_ok];
    intros (Her & [Hrg Hst] & Hm); destruct_and?; split_and!; try tauto;
    destruct st; cbn in Hst |- *; tauto.
Qed.

Lemma inv_return l d e :
  inv 0 l -> wf (set_http_errno e (set_state (l_state l) (set_data d (l_parser l)))).
Proof.
  destruct l as [[] ch0 p st hf hv ur bo ss]. unfold wf, inv, parser_ok, ranges_ok, chunked.
  lsimpl_in_goal. intros (Her & [Hrg Hst] & Hm) _. split; [done|].
  destruct st; cbn in Hst |- *; unfold chunked in *; lsimpl_in Hst; lsimpl_in_goal; tauto.
Qed.

Lemma wp_flush m (Q : unit -> locals D -> Prop) l :
  inv 0 l -> l_p l = len ->
  (forall l', inv 0 l' -> l_p l' = len -> Q tt l') ->
  wp (CALLBACK_DATA_NOADVANCE settings data m) Q end_exits l.
Proof.
  intros Hinv Hp HQ. unfold CALLBACK_DATA_NOADVANCE. apply wp_bind, wp_get_p.
  apply wp_data_cb; [apply wb_data|by apply Hinv| | |].
  - intros a Ha. assert (mark_ok m (l_state l) (l_p l) (l_mark m l)) as Hm
      by (destruct Hinv as (_ & _ & ? & ? & ? & ? & ?); by destruct m).
    rewrite Ha in Hm. destruct Hm. lia.
  - intros d s _. apply HQ; [by apply inv_set_data|]. by destruct l, m.
  - intros d e Hne _. cbn. pose proof (zlen_nonneg data).
    split_and!; [lia|lia|by apply inv_return|]. destruct l as [[] ? ? ? ? ? ? ? ?]. by left.
Qed.

Lemma marks_at_most_one l :
  marks_ok l ->
  let one (o : option Z) := match o with Some _ => 1 | None => 0 end in
  one (l_header_field_mark l) + one (l_header_value_mark l) + one (l_url_mark l)
  + one (l_body_mark l) + one (l_status_mark l) <= 1.
Proof.
  destruct l as [h ch p st hf hv ur bo ss]. unfold marks_ok, mark_ok. cbn -[mark_state].
  intros (H1 & H2 & H3 & H4 & H5).
  destruct hf, hv, ur, bo, ss; try done; exfalso; destruct_and?;
    repeat match goal with
    | Ha : mark_state ?a st = true, Hb : mark_state ?b st = true |- _ =>
        first [discriminate (mark_state_inj a b st Ha Hb)|clear Ha]
    end.
Qed.

Lemma finish_ok l :
  inv 0 l -> l_p l = len ->
  wp (finish settings data) (fun _ _ => False) end_exits l.
Proof.
  intros Hinv Hp. unfold finish.
  do 5 apply wp_bind, wp_get_mark. cbv zeta. apply wp_bind, wp_assert.
  { apply Z.leb_le. apply marks_at_most_one. apply Hinv. }
  do 5 (apply wp_bind, wp_flush; [done|done|]; clear l Hinv Hp; intros l Hinv Hp).
  apply wp_RETURN. pose proof (inv_return l (hp_data (l_parser l)) HPE_OK Hinv) as Hwf.
  pose proof (zlen_nonneg data). destruct Hinv as (Hok & _).
  destruct l as [[] ? ? ? ? ? ? ? ?]; cbn in Hok |- *; subst. split_and!; [lia|lia|done|auto].
Qed.

Lemma error_label_ok l :
  hp_http_errno (l_parser l) <> HPE_OK -> hp_http_errno (l_parser l) <> HPE_PAUSED ->
  0 <= l_p l <= len -> wp error_label (fun _ _ => False) end_exits l.
Proof.
  intros H1 H2 Hp. unfold error_label. apply wp_bind, wp_gets, wp_bind.
  rewrite decide_False by done. apply wp_ret, wp_bind, wp_get_p, wp_RETURN.
  destruct l as [[] ? ? ? ? ? ? ? ?]; cbn in *. split_and!; [lia|lia| |by left].
  intros [?|?]; cbn in *; congruence.
Qed.

Lemma mark_ok_mono m st p p' v : mark_ok m st p v -> p <= p' -> mark_ok m st p' v.
Proof. destruct v; cbn; [intros [? ?] ?; split; [done|lia]|done]. Qed.

Lemma inv_advance l : inv 0 l -> inv 0 (l_set_p (l_p l + 1) l).
Proof.
  destruct l as [h ch p st hf hv ur bo ss]. unfold inv, marks_ok. lsimpl_in_goal.
  intros (? & ? & ? & ? & ? & ? & ?). split_and!; try done; (eapply mark_ok_mono; [done|lia]).
Qed.

Lemma main_loop_ok fuel l :
  inv 0 l -> 0 <= l_p l <= len -> len - l_p l < Z.of_nat fuel ->
  wp (main_loop settings data lenient fuel) (fun _ _ => False) end_exits l.
Proof.
  revert l. induction fuel as [|fuel IH]; intros l Hinv Hp Hfuel; [lia|].
  unfold wp. cbn [main_loop]. destruct (Z.eqb_spec (l_p l) (zlen data)) as [He|Hne].
  { by apply finish_ok. }
  assert (0 <= l_p l < len) as Hp' by lia.
  pose proof (loop_body_ok l Hinv Hp') as Hb. unfold wp in Hb.
  destruct (loop_body settings data lenient l) as [| l' | | l' | h n | f];
    cbn in Hb; try done.
  - destruct Hb as [Hinv' Hp1]. apply IH.
    + by apply inv_advance.
    + destruct l'. cbn in *. lia.
    + destruct l'. cbn in *. lia.
  - destruct Hb as (? & ? & ?). by apply error_label_ok.
  - destruct Hb as ((? & ?) & ? & ?). split_and!; [done..|tauto].
Qed.

End Main_loop.

(** ** [http_parser_execute] *)

Section Execute.
Context {D : Type} (settings : http_parser_settings D) `{!WellBehaved settings}.
Implicit Types (parser h : http_parser D).

Lemma init_locals_inv parser :
  hp_http_errno parser = HPE_OK -> wf parser -> inv 0 (init_locals parser).
Proof.
  intros Hok Hwf. unfold init_locals, inv. cbn [l_parser l_state]. cbv zeta.
  split; [done|]. split; [apply Hwf; by left|].
  unfold marks_ok, mark_ok. cbn -[mark_state is_url_state].
  split_and!; try (case_decide as Hd; [rewrite Hd; cbn; lia|done]);
    [|done]. destruct (is_url_state (hp_state parser)) eqn:E; [|done]. cbn. split; [done|lia].
Qed.

(** Running a computation whose exits are all returns *)
Lemma run_wp {A} (m : M D A) l (P : http_parser D -> Z -> Prop) :
  wp m (fun _ _ => False) (mk_exits (fun _ => False) (fun _ => False) (fun _ => False) P) l ->
  exists h n, run m l = Done h n /\ P h n.
Proof. unfold wp, run. destruct (m l); cbn; try done. eauto. Qed.

Lemma wf_errno h : hp_http_errno h <> HPE_OK -> hp_http_errno h <> HPE_PAUSED -> wf h.
Proof. intros ?? [?|?]; congruence. Qed.

Lemma execute_eof_ok parser :
  hp_http_errno parser = HPE_OK -> wf parser ->
  wp (execute_eof settings) (fun _ _ => False)
     (mk_exits (fun _ => False) (fun _ => False) (fun _ => False)
        (fun h n => 0 <= n <= 1 /\ wf h /\ (hp_http_errno h = HPE_OK -> n = 0)))
     (init_locals parser).
Proof.
  intros Hok Hwf. unfold execute_eof. apply wp_bind, wp_CURRENT_STATE. cbn [init_locals l_state].
  assert (forall l, l_parser l = parser -> wp (D := D) (A := unit) (return_ 0) (fun _ _ => False)
     (mk_exits (fun _ => False) (fun _ => False) (fun _ => False)
        (fun h n => 0 <= n <= 1 /\ wf h /\ (hp_http_errno h = HPE_OK -> n = 0))) l) as Hret0.
  { intros l Hl. apply wp_return_. cbn. rewrite Hl. split_and!; [lia|lia|done|done]. }
  destruct (hp_state parser) eqn:Est;
    try (by apply Hret0);
    try (apply wp_bind, wp_upd, wp_return_; cbn; split_and!; [lia|lia| |by destruct parser];
         by apply wf_errno; destruct parser).
  apply wp_bind. unfold CALLBACK_NOTIFY_NOADVANCE. apply wp_bind, wp_get_p.
  apply wp_notify; [apply wb_message_complete|done|done| |].
  - intros d s Hs. apply wp_return_. destruct parser; cbn in *.
    assert (s = s_body_identity_eof) as -> by (destruct Hs; congruence).
    split_and!; [lia|lia| |done]. subst. exact Hwf.
  - intros d e Hne Hcase. cbn. split_and!; [lia|lia| |by destruct parser].
    destruct parser; cbn in *. subst. intros _. destruct (Hwf (or_introl eq_refl)) as [Hrg _].
    split; [exact Hrg|exact I].
Qed.

End Execute.

(** An application without callbacks *)
#[global] Instance settings_init_wb {D} : WellBehaved (@http_parser_settings_init D).
Proof. split; [by intros ? ?..|]. by intros [] ? ?. Qed.

(** The function returns and keeps the invariant. *)
Lemma execute_total {D} (settings : http_parser_settings D) `{!WellBehaved settings}
    (parser : http_parser D) (data : list Z) :
  wf parser -> zlen data < 2 ^ 64 ->
  exists parser' n,
    http_parser_execute parser settings data = Done parser' n
    /\ wf parser'
    /\ 0 <= n <= Z.max 1 (zlen data)
    /\ (hp_http_errno parser' = HPE_OK -> n = zlen data \/ hp_upgrade parser' = true).
Proof.
  intros Hwf Hlen. unfold http_parser_execute. cbv zeta. pose proof (zlen_nonneg data).
  case_decide as Hok.
  2:{ exists parser, 0. split_and!; [done|done|lia|lia|done]. }
  destruct (Z.eqb_spec (zlen data) 0) as [Hz|Hz].
  - destruct (run_wp _ _ _ (execute_eof_ok settings parser Hok Hwf)) as (h & n & -> & Hn & Hwf' & He).
    exists h, n. split_and!; [done|done|lia|lia|]. intros Hok'. left. rewrite Hz. auto.
  - assert (wp (main_loop settings data (hp_lenient_http_headers parser) (S (length data)))
              (fun _ _ => False) (end_exits data) (init_locals parser)) as Hmain.
    { apply (main_loop_ok settings data _ Hlen); [by apply init_locals_inv|cbn; lia|cbn; unfold zlen; lia]. }
    destruct (run_wp _ _ _ Hmain) as (h & n & -> & Hn & Hwf' & He).
    exists h, n. split_and!; [done|done|lia|lia|]. tauto.
Qed.

(** C1: [http_parser_execute] is safe and total.  On every input, from every
    parser that satisfies the invariant, with callbacks that keep to the
    documented interface, no assertion fails, no array is read outside its
    bounds, the function returns, the invariant holds again, the number of
    parsed bytes is within the input (1 reports a premature end of input), and
    without an error either the whole input was consumed or the connection was
    upgraded. *)
Theorem execute_safe {D} (settings : http_parser_settings D) `{!WellBehaved settings}
    (parser : http_parser D) (data : list Z) :
  wf parser -> zlen data < 2 ^ 64 ->
  exists parser' n,
    http_parser_execute parser settings data = Done parser' n
    /\ wf parser'
    /\ 0 <= n <= Z.max 1 (zlen data)
    /\ (hp_http_errno parser' = HPE_OK -> n = zlen data \/ hp_upgrade parser' = true).
Proof. intros Hwf Hlen. by apply execute_total. Qed.

Lemma execute_safe_witness :
  let parser := http_parser_init
    (mk_http_parser HTTP_BOTH 0 s_dead h_general 0 false 0 0 0 0 0 HTTP_DELETE HPE_OK false tt)
    HTTP_RESPONSE in
  let data := bytes_of_string "HTTP/1.1 200 OK" in
  exists parser' n,
    http_parser_execute parser http_parser_settings_init data = Done parser' n
    /\ wf parser'
    /\ 0 <= n <= Z.max 1 (zlen data)
    /\ (hp_http_errno parser' = HPE_OK -> n = zlen data \/ hp_upgrade parser' = true).
Proof.
  cbv zeta. apply (execute_safe http_parser_settings_init (WellBehaved0 := settings_init_wb)).
  - intros _. split; [|exact I]. unfold ranges_ok. cbn. rewrite ULLONG_MAX_val.
    rewrite HTTP_MAX_HEADER_SIZE_val. lia.
  - vm_compute. reflexivity.
Defined.
