(* ===== verification/HttpUrl.v ===== *)
(** * [http_parser_parse_url] (src/protocol/http/http_parser.c)

    The splitter of request targets: [http_parse_host_char], [http_parse_host]
    and [http_parser_parse_url] over [struct http_parser_url], whose offsets and
    lengths are 16-bit, with the proofs that every access is in bounds for
    buffers shorter than 64 KB, that the fields it sets lie inside the buffer,
    and that the port is the decimal value of the port field. *)

From S2P Require Import Prelude HttpDefs HttpMonad.

(** ** Data *)

(** [enum http_parser_url_fields] *)
Inductive http_parser_url_fields : Set :=
  UF_SCHEMA | UF_HOST | UF_PORT | UF_PATH | UF_QUERY | UF_FRAGMENT | UF_USERINFO | UF_MAX.

#[global] Instance http_parser_url_fields_eq_dec : EqDecision http_parser_url_fields.
Proof. solve_decision. Defined.

Definition UF_num (uf : http_parser_url_fields) : Z :=
  match uf with
  | UF_SCHEMA => 0 | UF_HOST => 1 | UF_PORT => 2 | UF_PATH => 3
  | UF_QUERY => 4 | UF_FRAGMENT => 5 | UF_USERINFO => 6 | UF_MAX => 7
  end.

(** An element of [field_data] *)
Record field := mk_field { f_off : Z; f_len : Z }.

(** [struct http_parser_url]; the array [field_data] is indexed by the
    enumeration *)
Record http_parser_url := mk_http_parser_url {
  field_set : Z;
  port : Z;
  field_data : http_parser_url_fields -> field
}.

Section Access.
Implicit Types (u : http_parser_url) (uf : http_parser_url_fields).

Definition off u uf : Z := f_off (field_data u uf).
Definition flen u uf : Z := f_len (field_data u uf).

(** [u->field_set & (1 << uf)] *)
Definition is_set u uf : bool := Z.testbit (field_set u) (UF_num uf).

Definition set_off uf (v : Z) u : http_parser_url :=
  mk_http_parser_url (field_set u) (port u)
    (fun g => if decide (g = uf) then mk_field (u16 v) (flen u g) else field_data u g).

Definition set_len uf (v : Z) u : http_parser_url :=
  mk_http_parser_url (field_set u) (port u)
    (fun g => if decide (g = uf) then mk_field (off u g) (u16 v) else field_data u g).

(** [u->field_set |= (1 << uf)] *)
Definition add_field uf u : http_parser_url :=
  mk_http_parser_url (u16 (Z.lor (field_set u) (2 ^ UF_num uf))) (port u) (field_data u).

Definition set_port (v : Z) u : http_parser_url :=
  mk_http_parser_url (field_set u) (u16 v) (field_data u).

(** [u->field_data[uf].len++] *)
Definition incr_len uf u : http_parser_url := set_len uf (flen u uf + 1) u.

(** [u->field_data[uf].off = p - buf] and, where the code does so, the reset
    of the length and the set bit *)
Definition begin_field uf (p len : Z) u : http_parser_url :=
  add_field uf (set_len uf len (set_off uf p u)).

End Access.

(** [http_parser_url_init] *)
Definition http_parser_url_init : http_parser_url :=
  mk_http_parser_url 0 0 (fun _ => mk_field 0 0).

(** The ways these functions end, with the structure as they leave it:
    [return 0], [return 1], or a failed assertion or access *)
Inductive url_result : Type :=
| UrlOk (u : http_parser_url)
| UrlError (u : http_parser_url)
| UrlFail (f : failure).

(** ** Operations *)

Definition http_parse_host_char (s : http_host_state) (ch : Z) : http_host_state :=
  let v6_end := if ch =? ":"%c then s_http_host_port_start else s_http_host_dead in
  let zone_char :=
    if IS_ALPHANUM ch || (ch =? "%"%c) || (ch =? "."%c) || (ch =? "-"%c) || (ch =? "_"%c)
       || (ch =? "~"%c) then s_http_host_v6_zone
    else s_http_host_dead in
  let v6_char :=
    if IS_HEX ch || (ch =? ":"%c) || (ch =? "."%c) then s_http_host_v6
    else if bool_decide (s = s_http_host_v6) && (ch =? "%"%c) then s_http_host_v6_zone_start
    else s_http_host_dead in
  match s with
  | s_http_userinfo | s_http_userinfo_start =>
      if ch =? "@"%c then s_http_host_start
      else if IS_USERINFO_CHAR ch then s_http_userinfo
      else s_http_host_dead
  | s_http_host_start =>
      if ch =? "["%c then s_http_host_v6_start
      else if IS_HOST_CHAR ch then s_http_host
      else s_http_host_dead
  | s_http_host => if IS_HOST_CHAR ch then s_http_host else v6_end
  | s_http_host_v6_end => v6_end
  | s_http_host_v6 => if ch =? "]"%c then s_http_host_v6_end else v6_char
  | s_http_host_v6_start => v6_char
  | s_http_host_v6_zone => if ch =? "]"%c then s_http_host_v6_end else zone_char
  | s_http_host_v6_zone_start => zone_char
  | s_http_host_port | s_http_host_port_start =>
      if IS_NUM ch then s_http_host_port else s_http_host_dead
  | _ => s_http_host_dead
  end.

(** The [switch (new_s)] of the loop of [http_parse_host] *)
Definition host_field (s new_s : http_host_state) (p : Z) (u : http_parser_url)
    : http_parser_url :=
  match new_s with
  | s_http_host | s_http_host_v6 =>
      incr_len UF_HOST (if decide (s = new_s) then u else set_off UF_HOST p u)
  | s_http_host_v6_zone_start | s_http_host_v6_zone => incr_len UF_HOST u
  | s_http_host_port =>
      incr_len UF_PORT (if decide (s = new_s) then u else begin_field UF_PORT p 0 u)
  | s_http_userinfo =>
      incr_len UF_USERINFO (if decide (s = new_s) then u else begin_field UF_USERINFO p 0 u)
  | _ => u
  end.

(** The states in which a host must not end *)
Definition host_end_ok (s : http_host_state) : bool :=
  match s with
  | s_http_host_start | s_http_host_v6_start | s_http_host_v6 | s_http_host_v6_zone_start
  | s_http_host_v6_zone | s_http_host_port_start | s_http_userinfo
  | s_http_userinfo_start => false
  | _ => true
  end.

(** [for (p = buf + off; p < buf + buflen; p++)], [n] bytes to go *)
Fixpoint parse_host_loop (buf : list Z) (n : nat) (p : Z) (s : http_host_state)
    (u : http_parser_url) : url_result :=
  match n with
  | O => if host_end_ok s then UrlOk u else UrlError u
  | S n =>
      match byte_at buf p with
      | None => UrlFail OutOfBounds
      | Some ch =>
          let new_s := http_parse_host_char s ch in
          if decide (new_s = s_http_host_dead) then UrlError u
          else parse_host_loop buf n (p + 1) new_s (host_field s new_s p u)
      end
  end.

Definition http_parse_host (buf : list Z) (u : http_parser_url) (found_at : bool) : url_result :=
  let buflen := off u UF_HOST + flen u UF_HOST in
  if is_set u UF_HOST then
    let u' := set_len UF_HOST 0 u in
    let s := if found_at then s_http_userinfo_start else s_http_host_start in
    parse_host_loop buf (Z.to_nat (buflen - off u' UF_HOST)) (off u' UF_HOST) s u'
  else UrlFail AssertFailed.

(** The first [switch] of the loop of [http_parser_parse_url]: what to do in
    the new state *)
Inductive url_action : Set := Url_dead | Url_skip | Url_field (uf : http_parser_url_fields)
                            | Url_unexpected.

Definition url_action_of (s : state) : url_action :=
  match s with
  | s_dead => Url_dead
  | s_req_schema_slash | s_req_schema_slash_slash | s_req_server_start
  | s_req_query_string_start | s_req_fragment_start => Url_skip
  | s_req_schema => Url_field UF_SCHEMA
  | s_req_server_with_at | s_req_server => Url_field UF_HOST
  | s_req_path => Url_field UF_PATH
  | s_req_query_string => Url_field UF_QUERY
  | s_req_fragment => Url_field UF_FRAGMENT
  | _ => Url_unexpected
  end.

(** The port: [v *= 10; v += *p - '0'; if (v > 0xffff) return 1;] *)
Fixpoint parse_port (buf : list Z) (n : nat) (p v : Z) : option (option Z) :=
  match n with
  | O => Some (Some v)
  | S n =>
      match byte_at buf p with
      | None => None
      | Some ch =>
          let v' := u64 (u64 (v * 10) + (ch - "0"%c)) in
          if 65535 <? v' then Some None else parse_port buf n (p + 1) v'
      end
  end.

(** After the loop: host, the CONNECT rule, the port *)
Definition finish_url (buf : list Z) (is_connect found_at : bool) (u : http_parser_url)
    : url_result :=
  if is_set u UF_SCHEMA && negb (is_set u UF_HOST) then UrlError u
  else
    match (if is_set u UF_HOST then http_parse_host buf u found_at else UrlOk u) with
    | UrlError u => UrlError u
    | UrlFail f => UrlFail f
    | UrlOk u =>
        if is_connect && negb (field_set u =? Z.lor (2 ^ UF_num UF_HOST) (2 ^ UF_num UF_PORT))
        then UrlError u
        else if is_set u UF_PORT then
          if off u UF_PORT + flen u UF_PORT <=? zlen buf then
            match parse_port buf (Z.to_nat (flen u UF_PORT)) (off u UF_PORT) 0 with
            | None => UrlFail OutOfBounds
            | Some None => UrlError u
            | Some (Some v) => UrlOk (set_port v u)
            end
          else UrlFail AssertFailed
        else UrlOk u
    end.

(** The main loop over the bytes of the buffer *)
Fixpoint parse_url_loop (buf rest : list Z) (is_connect : bool) (p : Z) (s : state)
    (old_uf : http_parser_url_fields) (found_at : bool) (u : http_parser_url) : url_result :=
  match rest with
  | [] => finish_url buf is_connect found_at u
  | ch :: rest =>
      let s := parse_url_char s ch in
      match url_action_of s with
      | Url_dead => UrlError u
      | Url_unexpected => UrlFail AssertFailed
      | Url_skip => parse_url_loop buf rest is_connect (p + 1) s old_uf found_at u
      | Url_field uf =>
          let found_at := found_at || bool_decide (s = s_req_server_with_at) in
          if decide (uf = old_uf) then
            parse_url_loop buf rest is_connect (p + 1) s old_uf found_at (incr_len uf u)
          else
            parse_url_loop buf rest is_connect (p + 1) s uf found_at (begin_field uf p 1 u)
      end
  end.

Definition http_parser_parse_url (buf : list Z) (is_connect : bool) (u : http_parser_url)
    : url_result :=
  let u := mk_http_parser_url 0 0 (field_data u) in
  let s := if is_connect then s_req_server_start else s_req_spaces_before_url in
  parse_url_loop buf buf is_connect 0 s UF_MAX false u.

(** ** Correctness *)

(** The bytes of a field *)
Definition field_bytes (buf : list Z) (u : http_parser_url) (uf : http_parser_url_fields)
    : list Z := sub_bytes buf (off u uf) (flen u uf).

Definition decimal (ds : list Z) : Z :=
  foldl (fun v d => v * 10 + (d - "0"%c)) 0 ds.

(** *** Reading an updated structure *)

Lemma off_set_off uf v u g :
  off (set_off uf v u) g = if decide (g = uf) then u16 v else off u g.
Proof. unfold off. cbn. by case_decide. Qed.

Lemma flen_set_off uf v u g : flen (set_off uf v u) g = flen u g.
Proof. unfold flen. cbn. by case_decide. Qed.

Lemma off_set_len uf v u g : off (set_len uf v u) g = off u g.
Proof. unfold off. cbn. by case_decide. Qed.

Lemma flen_set_len uf v u g :
  flen (set_len uf v u) g = if decide (g = uf) then u16 v else flen u g.
Proof. unfold flen. cbn. by case_decide. Qed.

Lemma off_add_field uf u g : off (add_field uf u) g = off u g.
Proof. done. Qed.

Lemma flen_add_field uf u g : flen (add_field uf u) g = flen u g.
Proof. done. Qed.

Lemma UF_num_inj uf g : UF_num uf = UF_num g -> uf = g.
Proof. destruct uf, g; cbn; congruence. Qed.

Lemma UF_num_range uf : 0 <= UF_num uf <= 7.
Proof. destruct uf; cbn; lia. Qed.

Lemma pow2_UF_range uf : 0 <= 2 ^ UF_num uf < 256.
Proof. destruct uf; cbn; lia. Qed.

Lemma field_set_add_field uf u :
  0 <= field_set u < 256 -> 0 <= field_set (add_field uf u) < 256.
Proof.
  intros H. pose proof (pow2_UF_range uf). cbn.
  pose proof (lor_u8_range (field_set u) (2 ^ UF_num uf) ltac:(lia) ltac:(lia)).
  rewrite u16_small; lia.
Qed.

Lemma is_set_add_field uf u g :
  0 <= field_set u < 256 ->
  is_set (add_field uf u) g = is_set u g || bool_decide (g = uf).
Proof.
  intros H. pose proof (pow2_UF_range uf). unfold is_set, add_field. cbn [field_set].
  pose proof (lor_u8_range (field_set u) (2 ^ UF_num uf) ltac:(lia) ltac:(lia)).
  rewrite u16_small by lia. rewrite Z.lor_spec, Z.pow2_bits_eqb by apply UF_num_range.
  f_equal. destruct (Z.eqb_spec (UF_num uf) (UF_num g)) as [He|Hne].
  - apply UF_num_inj in He as ->. by rewrite bool_decide_eq_true_2.
  - rewrite bool_decide_eq_false_2; [done|congruence].
Qed.

Lemma is_set_set_off uf v u g : is_set (set_off uf v u) g = is_set u g.
Proof. done. Qed.

Lemma is_set_set_len uf v u g : is_set (set_len uf v u) g = is_set u g.
Proof. done. Qed.

Create Rewrite HintDb url.
#[export] Hint Rewrite off_set_off flen_set_off off_set_len flen_set_len off_add_field
  flen_add_field is_set_set_off is_set_set_len : url.

(** *** The host *)

(** Whether a byte of the host has been read in state [s] *)
Definition host_begun (s : http_host_state) : bool :=
  match s with
  | s_http_userinfo_start | s_http_userinfo | s_http_host_start | s_http_host_v6_start
  | s_http_host_dead => false
  | _ => true
  end.

(** The invariant of [parse_host_loop] at offset [p]; [u0] is the structure
    before the call. *)
Record host_inv (buf : list Z) (u0 : http_parser_url) (s : http_host_state) (p : Z)
    (u : http_parser_url) : Prop := {
  hi_range : 0 <= field_set u < 256;
  hi_p : 0 <= p;
  hi_live : s <> s_http_host_dead;
  hi_host : is_set u UF_HOST = true /\ 0 <= off u UF_HOST
            /\ off u UF_HOST + flen u UF_HOST <= p
            /\ (if host_begun s then 1 <= flen u UF_HOST else flen u UF_HOST = 0);
  hi_port : is_set u UF_PORT = bool_decide (s = s_http_host_port)
            /\ (is_set u UF_PORT = true ->
                  0 <= off u UF_PORT /\ 1 <= flen u UF_PORT
                  /\ off u UF_PORT + flen u UF_PORT = p
                  /\ forall i, off u UF_PORT <= i < p ->
                       exists ch, byte_at buf i = Some ch /\ IS_NUM ch = true);
  hi_userinfo : is_set u UF_USERINFO = true ->
                0 <= off u UF_USERINFO /\ 1 <= flen u UF_USERINFO
                /\ off u UF_USERINFO + flen u UF_USERINFO <= p;
  hi_userinfo_set : s = s_http_userinfo -> is_set u UF_USERINFO = true;
  hi_others : forall g, g <> UF_HOST -> g <> UF_PORT -> g <> UF_USERINFO ->
              is_set u g = is_set u0 g /\ off u g = off u0 g /\ flen u g = flen u0 g;
  hi_port0 : port u = port u0
}.

Ltac url_simpl :=
  unfold begin_field, incr_len;
  repeat (autorewrite with url; rewrite ?is_set_add_field by (assumption || cbn; assumption));
  cbn [decide].

Example url_smoke :
  match http_parser_parse_url (bytes_of_string "http://u:p@example.com:8080/a/b?q=1#f") false
          http_parser_url_init with
  | UrlOk u => map (fun uf => (off u uf, flen u uf))
                 [UF_SCHEMA; UF_HOST; UF_PORT; UF_PATH; UF_QUERY; UF_FRAGMENT; UF_USERINFO]
               = [(0, 4); (11, 11); (23, 4); (27, 4); (32, 3); (36, 1); (7, 3)]
               /\ field_set u = 127 /\ port u = 8080
  | _ => False
  end.
Proof. vm_compute. auto. Qed.

Lemma bool_decide_port s : s <> s_http_host_port -> bool_decide (s = s_http_host_port) = false.
Proof. intros. by apply bool_decide_eq_false_2. Qed.

(** Close the components of [host_inv] after one character. *)
Ltac host_solve Hu Ho :=
  constructor; url_simpl; cbn [host_begun field_set set_off set_len add_field] in *;
  rewrite ?u16_small by lia;
  repeat first [rewrite decide_True by done | rewrite decide_False by done];
  rewrite ?u16_small by lia;
  try solve [assumption | done | lia | auto
            | apply field_set_add_field; assumption
            | split_and!; try done; try lia; congruence
            | intros g ? ? ?; url_simpl; rewrite !decide_False by done;
              rewrite ?bool_decide_eq_false_2, ?orb_false_r by done; by apply Ho
            | intros Hset; specialize (Hu Hset); lia
            | by rewrite bool_decide_eq_true_2, orb_true_r ].

Lemma host_inv_step buf u0 s p u ch :
  host_inv buf u0 s p u -> p < 65535 -> byte_at buf p = Some ch ->
  let new_s := http_parse_host_char s ch in
  new_s <> s_http_host_dead ->
  host_inv buf u0 new_s (p + 1) (host_field s new_s p u).
Proof.
  intros [Hr Hp Hl (Hh1 & Hh2 & Hh3 & Hh4) [Hpo Hpo2] Hu Hus Ho H0] Hlt Hch new_s Hne.
  subst new_s. revert Hne. unfold http_parse_host_char. cbv zeta.
  destruct s; try (intros []; reflexivity); repeat case_if; intros Hne; try done;
  cbn [host_field]; cbn [host_begun] in Hh4; try rewrite bool_decide_port in Hpo by done;
  try rewrite bool_decide_eq_true_2 in Hpo by done;
  repeat first [rewrite decide_True by done | rewrite decide_False by done];
  try specialize (Hus eq_refl); try specialize (Hpo2 Hpo); try specialize (Hu Hus); host_solve Hu Ho.
  all: repeat first [rewrite (bool_decide_eq_true_2 (_ = _)) by done
                    |rewrite (bool_decide_eq_false_2 (_ = _)) by done];
       rewrite ?orb_false_r, ?orb_true_r; cbn [u16].
  all: try (split_and!; [done|lia..]).
  - split; [done|congruence].
  - split; [done|]. intros _. change (u16 (u16 0 + 1)) with 1. split_and!; [lia..|].
    intros i Hi. exists ch. by replace i with p by lia.
  - intros Hset. specialize (Hu Hset). lia.
  - split; [done|]. intros _. destruct Hpo2 as (? & ? & ? & Hd). split_and!; [lia..|].
    intros i Hi. destruct (Z.eq_dec i p) as [->|]; [by exists ch|]. apply Hd. lia.
Qed.

Lemma parse_host_loop_ok buf u0 n s p u :
  host_inv buf u0 s p u -> p + Z.of_nat n <= zlen buf -> zlen buf < 65536 ->
  match parse_host_loop buf n p s u with
  | UrlOk u' => exists s', host_end_ok s' = true /\ host_inv buf u0 s' (p + Z.of_nat n) u'
  | UrlError _ => True
  | UrlFail _ => False
  end.
Proof.
  revert s p u. induction n as [|n IH]; intros s p u Hinv Hn Hlen; cbn [parse_host_loop].
  - destruct (host_end_ok s) eqn:E; [|done]. exists s. by rewrite Z.add_0_r.
  - destruct (byte_at_in buf p) as [ch Hch]; [destruct Hinv; lia|]. rewrite Hch. cbv zeta.
    case_decide as Hd; [done|].
    apply (host_inv_step _ _ _ _ _ ch) in Hinv; [|lia|done|done].
    specialize (IH _ _ _ Hinv ltac:(lia) Hlen).
    replace (p + Z.of_nat (S n)) with (p + 1 + Z.of_nat n) by lia. exact IH.
Qed.

(** *** The main loop *)

Definition fields_in (u : http_parser_url) (p : Z) : Prop :=
  forall uf, is_set u uf = true ->
    0 <= off u uf /\ 1 <= flen u uf /\ off u uf + flen u uf <= p.

(** The invariant of [parse_url_loop] at offset [p] *)
Record url_inv (old_uf : http_parser_url_fields) (p : Z) (u : http_parser_url) : Prop := {
  ui_range : 0 <= field_set u < 256;
  ui_p : 0 <= p;
  ui_fields : fields_in u p;
  ui_old : old_uf <> UF_MAX -> is_set u old_uf = true;
  ui_port : is_set u UF_PORT = false;
  ui_userinfo : is_set u UF_USERINFO = false;
  ui_port0 : port u = 0
}.

Lemma url_action_field s uf :
  url_action_of s = Url_field uf -> uf <> UF_MAX /\ uf <> UF_PORT /\ uf <> UF_USERINFO.
Proof. destruct s; cbn; intros; by simplify_eq. Qed.

Lemma url_inv_incr uf p u :
  url_inv uf p u -> uf <> UF_MAX -> p < 65535 -> url_inv uf (p + 1) (incr_len uf u).
Proof.
  intros [Hr Hp Hf Ho Hpo Hu H0] Huf Hlt. constructor; try done; [lia|].
  intros g Hg. unfold incr_len. autorewrite with url. unfold incr_len in Hg.
  rewrite is_set_set_len in Hg. pose proof (Hf g Hg).
  case_decide; [subst|lia]. rewrite u16_small; lia.
Qed.

Lemma url_inv_begin old_uf uf p u :
  url_inv old_uf p u -> uf <> UF_PORT -> uf <> UF_USERINFO -> p < 65535 ->
  url_inv uf (p + 1) (begin_field uf p 1 u).
Proof.
  intros [Hr Hp Hf Ho Hpo Hu H0] Huf1 Huf2 Hlt. unfold begin_field.
  constructor; try done; [by apply field_set_add_field|lia|..].
  2:{ intros _. rewrite is_set_add_field by done. by rewrite bool_decide_eq_true_2, orb_true_r. }
  2,3: rewrite is_set_add_field by done; autorewrite with url;
       rewrite bool_decide_eq_false_2, orb_false_r by done; done.
  intros g. rewrite is_set_add_field by done. autorewrite with url. intros Hg.
  destruct (decide (g = uf)) as [->|Hne].
  - rewrite !u16_small by lia. lia.
  - rewrite bool_decide_eq_false_2, orb_false_r in Hg by done. pose proof (Hf g Hg). lia.
Qed.

Lemma url_inv_skip uf p u : url_inv uf p u -> url_inv uf (p + 1) u.
Proof.
  intros [Hr Hp Hf Ho Hpo Hu H0]. constructor; try done; [lia|].
  intros g Hg. pose proof (Hf g Hg). lia.
Qed.

(** *** After the loop *)

Lemma digits_byte ch : IS_NUM ch = true -> "0"%c <= ch <= "9"%c.
Proof. unfold IS_NUM. intros. breflect. lia. Qed.

Lemma sub_bytes_S buf p n ch :
  byte_at buf p = Some ch ->
  sub_bytes buf p (Z.of_nat (S n)) = ch :: sub_bytes buf (p + 1) (Z.of_nat n).
Proof.
  unfold byte_at, sub_bytes. destruct (Z.ltb_spec p 0) as [?|Hp]; [done|]. intros Hl.
  rewrite !Nat2Z.id, Z2Nat.inj_add, Nat.add_1_r by lia. by rewrite (drop_S _ _ _ Hl).
Qed.

(** The port loop computes the decimal value, or reports one above 65535. *)
Lemma parse_port_ok buf n p v :
  0 <= v <= 65535 -> 0 <= p ->
  (forall i, p <= i < p + Z.of_nat n -> exists ch, byte_at buf i = Some ch /\ IS_NUM ch = true) ->
  match parse_port buf n p v with
  | Some (Some v') =>
      v' = foldl (fun v d => v * 10 + (d - "0"%c)) v (sub_bytes buf p (Z.of_nat n))
      /\ 0 <= v' <= 65535
  | Some None => 65535 < foldl (fun v d => v * 10 + (d - "0"%c)) v
                           (sub_bytes buf p (Z.of_nat n))
  | None => False
  end.
Proof.
  revert p v. induction n as [|n IH]; intros p v Hv Hp Hd; cbn [parse_port].
  { unfold sub_bytes. cbn. done. }
  destruct (Hd p) as (ch & Hch & Hnum); [lia|]. rewrite Hch. cbv zeta.
  apply digits_byte in Hnum.
  rewrite (u64_small (v * 10)) by lia. rewrite (u64_small (v * 10 + _)) by lia.
  rewrite (sub_bytes_S _ _ _ _ Hch). cbn [foldl].
  destruct (Z.ltb_spec 65535 (v * 10 + (ch - "0"%c))) as [Hbig|Hsmall].
  - eapply Z.lt_le_trans; [exact Hbig|].
    assert (forall ds w, (forall d, In d ds -> "0"%c <= d) -> 0 <= w ->
      w <= foldl (fun v d => v * 10 + (d - "0"%c)) w ds) as Hmono.
    { induction ds as [|d ds IHds]; intros w Hds Hw; cbn [foldl]; [lia|].
      pose proof (Hds d (or_introl eq_refl)).
      etrans; [|apply IHds; [intros; apply Hds; by right|lia]]. lia. }
    apply Hmono; [|lia]. intros d Hin%list_elem_of_In%list_elem_of_lookup.
    destruct Hin as [k Hk]. unfold sub_bytes in Hk.
    apply lookup_take_Some in Hk as [Hk Hkn]. rewrite lookup_drop in Hk.
    destruct (Hd (p + 1 + Z.of_nat k)) as (ch' & Hch' & Hnum'); [lia|].
    unfold byte_at in Hch'. destruct (Z.ltb_spec (p + 1 + Z.of_nat k) 0); [lia|].
    replace (Z.to_nat (p + 1 + Z.of_nat k)) with (Z.to_nat (p + 1) + k)%nat in Hch' by lia.
    assert (ch' = d) as -> by congruence. apply digits_byte in Hnum'. lia.
  - apply IH; [lia|lia|]. intros i Hi. apply Hd. lia.
Qed.

(** What [return 0] promises *)
Definition url_good (buf : list Z) (is_connect : bool) (u : http_parser_url) : Prop :=
  fields_in u (zlen buf)
  /\ (is_set u UF_SCHEMA = true -> is_set u UF_HOST = true)
  /\ (is_connect = true -> field_set u = 6)
  /\ (if is_set u UF_PORT then port u = decimal (field_bytes buf u UF_PORT) /\ 0 <= port u <= 65535
      else port u = 0).

Lemma fields_in_host_inv buf u0 s p u :
  host_inv buf u0 s p u -> host_end_ok s = true -> p <= zlen buf ->
  (forall g, g <> UF_HOST -> is_set u0 g = true ->
     0 <= off u0 g /\ 1 <= flen u0 g /\ off u0 g + flen u0 g <= zlen buf) ->
  fields_in u (zlen buf).
Proof.
  intros [Hr Hp Hl (Hh1 & Hh2 & Hh3 & Hh4) [Hpo Hpo2] Hu Hus Ho H0] Hend Hpb H0f g Hg.
  destruct (decide (g = UF_HOST)) as [->|Hn1]; [destruct s; cbn in *; done || lia|].
  destruct (decide (g = UF_PORT)) as [->|Hn2]; [specialize (Hpo2 Hg); lia|].
  destruct (decide (g = UF_USERINFO)) as [->|Hn3]; [specialize (Hu Hg); lia|].
  destruct (Ho g Hn1 Hn2 Hn3) as (Hs & -> & ->). rewrite Hs in Hg. by apply H0f.
Qed.

Lemma host_inv_init buf uf p u (found_at : bool) :
  url_inv uf p u -> is_set u UF_HOST = true ->
  host_inv buf u (if found_at then s_http_userinfo_start else s_http_host_start)
    (off u UF_HOST) (set_len UF_HOST 0 u).
Proof.
  intros [Hr Hp Hf Ho Hpo Hu H0] Hh. pose proof (Hf _ Hh) as Hfh.
  constructor; autorewrite with url; try done; try lia; try by destruct found_at.
  - rewrite decide_True by done. change (u16 0) with 0. destruct found_at; cbn; split_and!; done || lia.
  - rewrite Hpo. destruct found_at; by split.
  - rewrite Hu. done.
  - intros g Hg _ _. autorewrite with url. by rewrite decide_False.
Qed.

Lemma finish_port_ok buf is_connect u :
  (is_connect = true -> field_set u = 6) -> fields_in u (zlen buf) ->
  (is_set u UF_SCHEMA = true -> is_set u UF_HOST = true) -> port u = 0 ->
  (is_set u UF_PORT = true -> forall i, off u UF_PORT <= i < off u UF_PORT + flen u UF_PORT ->
     exists ch, byte_at buf i = Some ch /\ IS_NUM ch = true) ->
  match (if is_set u UF_PORT then
          if off u UF_PORT + flen u UF_PORT <=? zlen buf then
            match parse_port buf (Z.to_nat (flen u UF_PORT)) (off u UF_PORT) 0 with
            | None => UrlFail OutOfBounds
            | Some None => UrlError u
            | Some (Some v) => UrlOk (set_port v u)
            end
          else UrlFail AssertFailed
        else UrlOk u) with
  | UrlOk u' => url_good buf is_connect u'
  | UrlError _ => True
  | UrlFail _ => False
  end.
Proof.
  intros Hc Hf Hsh H0 Hd. destruct (is_set u UF_PORT) eqn:Ep.
  2:{ split_and!; try done. by rewrite Ep. }
  pose proof (Hf _ Ep) as (Hp1 & Hp2 & Hp3). rewrite (proj2 (Z.leb_le _ _)) by lia.
  pose proof (parse_port_ok buf (Z.to_nat (flen u UF_PORT)) (off u UF_PORT) 0 ltac:(lia) Hp1)
    as Hport. rewrite Z2Nat.id in Hport by lia. specialize (Hport (Hd eq_refl)).
  destruct (parse_port _ _ _ _) as [[v|]|]; try done. destruct Hport as [Hv Hr].
  split_and!; try done. change (is_set (set_port v u) UF_PORT) with (is_set u UF_PORT).
  rewrite Ep. cbn [port set_port]. rewrite u16_small by lia. done.
Qed.

Lemma finish_url_ok buf is_connect found_at uf u :
  url_inv uf (zlen buf) u -> zlen buf < 65536 ->
  match finish_url buf is_connect found_at u with
  | UrlOk u' => url_good buf is_connect u'
  | UrlError _ => True
  | UrlFail _ => False
  end.
Proof.
  intros Hinv Hlen. pose proof Hinv as [Hr Hp Hf Ho Hpo Hu H0]. unfold finish_url.
  destruct (is_set u UF_SCHEMA && negb (is_set u UF_HOST)) eqn:Esh; [done|].
  destruct (is_set u UF_HOST) eqn:Eh.
  - unfold http_parse_host. rewrite Eh. cbv zeta. autorewrite with url.
    pose proof (Hf _ Eh) as Hfh.
    pose proof (parse_host_loop_ok buf u (Z.to_nat (off u UF_HOST + flen u UF_HOST - off u UF_HOST))
      _ _ _ (host_inv_init buf uf _ u found_at Hinv Eh) ltac:(lia) Hlen) as Hhost.
    destruct (parse_host_loop _ _ _ _ _) as [u'| |]; try done.
    destruct Hhost as (s & Hend & Hhi).
    assert (fields_in u' (zlen buf)) as Hf'.
    { eapply fields_in_host_inv; [done|done|lia|]. intros g _ Hg. by apply Hf. }
    destruct (is_connect && _) eqn:Ec; [done|]. apply finish_port_ok; try done.
    + intros ->. breflect. destruct Ec as [?|Ec]; [done|]. breflect. exact Ec.
    + intros _. apply Hhi.
    + destruct Hhi. congruence.
    + intros Hset. destruct Hhi as [_ _ _ _ [_ Hpo2] _ _ _ _].
      destruct (Hpo2 Hset) as (? & ? & He & Hd). intros i Hi. apply Hd. lia.
  - destruct (is_connect && _) eqn:Ec; [done|]. apply finish_port_ok; try done.
    + intros ->. breflect. destruct Ec as [?|Ec]; [done|]. breflect. exact Ec.
    + intros Hs. rewrite Hs in Esh. discriminate Esh.
    + congruence.
Qed.

Lemma parse_url_loop_ok buf pre rest is_connect s old_uf found_at u :
  buf = pre ++ rest -> zlen buf < 65536 -> url_inv old_uf (zlen pre) u ->
  match parse_url_loop buf rest is_connect (zlen pre) s old_uf found_at u with
  | UrlOk u' => url_good buf is_connect u'
  | UrlError _ => True
  | UrlFail _ => False
  end.
Proof.
  revert pre s old_uf found_at u. induction rest as [|ch rest IH];
    intros pre s old_uf found_at u Hbuf Hlen Hinv; cbn [parse_url_loop].
  - rewrite app_nil_r in Hbuf. subst pre. by eapply finish_url_ok.
  - assert (zlen pre < 65535) as Hp.
    { subst buf. unfold zlen in *. rewrite length_app in Hlen. cbn in Hlen. lia. }
    assert (zlen pre + 1 = zlen (pre ++ [ch])) as Hlen'.
    { unfold zlen. rewrite length_app. cbn. lia. }
    cbv zeta. rewrite Hlen'.
    assert (buf = (pre ++ [ch]) ++ rest) as Hbuf' by (by rewrite <- app_assoc).
    destruct (url_action_of (parse_url_char s ch)) as [| |uf|] eqn:Ea.
    + done.
    + apply IH; [done|done|]. rewrite <- Hlen'. by apply url_inv_skip.
    + destruct (url_action_field _ _ Ea) as (Hm & Hpo & Hu).
      case_decide; [subst uf|]; (apply IH; [done|done|]); rewrite <- Hlen'.
      * by apply url_inv_incr.
      * by eapply url_inv_begin.
    + exfalso. destruct (parse_url_char_url s ch) as [Hd|Hs].
      * by rewrite Hd in Ea.
      * by destruct (parse_url_char s ch).
Qed.

(** C37: [http_parser_parse_url] is safe on every buffer shorter than 64 KB:
    no assertion fails and no byte outside the buffer is read; when it returns
    0, every field it reports is non-empty and lies inside the buffer, a schema
    comes with a host, a CONNECT target is exactly a host and a port, and
    [port] is the decimal value of the port field, 0 without one. *)
Theorem parse_url_safe (buf : list Z) (is_connect : bool) (u : http_parser_url) :
  zlen buf < 65536 ->
  match http_parser_parse_url buf is_connect u with
  | UrlOk u' => url_good buf is_connect u'
  | UrlError _ => True
  | UrlFail _ => False
  end.
Proof.
  intros Hlen. unfold http_parser_parse_url.
  apply (parse_url_loop_ok buf [] buf); [done|done|].
  constructor; cbn; try done; try lia. intros uf Hset. unfold is_set in Hset. cbn in Hset.
  by rewrite Z.testbit_0_l in Hset.
Qed.

Lemma parse_url_safe_witness :
  let buf := bytes_of_string "example.com:443" in
  let r := http_parser_parse_url buf true http_parser_url_init in
  match r with
  | UrlOk u' => url_good buf true u'
  | UrlError _ => True
  | UrlFail _ => False
  end /\ match r with UrlOk u' => port u' = 443 | _ => False end.
Proof.
  cbv zeta. split; [|vm_compute; reflexivity].
  apply (parse_url_safe (bytes_of_string "example.com:443") true http_parser_url_init).
  vm_compute. reflexivity.
Defined.
