(* ===== verification/HttpProps.v ===== *)
(** * What [http_parser_execute] computes

    Theorems on the results of the parser: request methods, header names,
    chunk sizes, bodies, and the sessions of an application that calls the
    library.  [log_settings] is an application that records every callback. *)

From stdpp Require Import relations.
From S2P Require Import Prelude HttpDefs HttpMonad HttpExec HttpInv HttpSafe.

(** A zeroed parser with the application's [data] *)
Definition blank {D} (d : D) : http_parser D :=
  mk_http_parser HTTP_REQUEST 0 s_dead h_general 0 false 0 0 0 0 0 HTTP_DELETE HPE_OK false d.

(** ** Sessions of an application *)

Section Session.
Context {D : Type} (settings : http_parser_settings D).

(** The calls the library documents, and the application's own [data] field *)
Inductive app_step : http_parser D -> http_parser D -> Prop :=
| app_init h t : app_step h (http_parser_init h t)
| app_execute h data h' n :
    zlen data < 2 ^ 64 -> http_parser_execute h settings data = Done h' n -> app_step h h'
| app_pause h paused h' : http_parser_pause h paused = Some h' -> app_step h h'
| app_data h d : app_step h (set_data d h).

Lemma init_wf (h : http_parser D) t : wf (http_parser_init h t).
Proof.
  intros _. destruct h. split.
  - unfold ranges_ok. cbn. rewrite ULLONG_MAX_val, HTTP_MAX_HEADER_SIZE_val. lia.
  - by destruct t.
Qed.

Lemma parser_ok_frame st nr (h h' : http_parser D) :
  (forall e d, h' = set_http_errno e (set_data d h) -> parser_ok st nr h -> parser_ok st nr h').
Proof.
  intros e d ->. destruct h. unfold parser_ok, ranges_ok. cbn. intros [Hr Hs]. split; [done|].
  destruct st; cbn in *; done.
Qed.

Lemma pause_wf (h h' : http_parser D) b : wf h -> http_parser_pause h b = Some h' -> wf h'.
Proof.
  unfold http_parser_pause. intros Hwf Hp. destruct (_ || _) eqn:E; [|done].
  simplify_eq.
  assert (hp_http_errno h = HPE_OK \/ hp_http_errno h = HPE_PAUSED) as Hor.
  { apply orb_true_iff in E. destruct E as [?%bool_decide_eq_true|?%bool_decide_eq_true]; auto. }
  intros _. destruct h as [ty fl st hs ix le nr cl mj mn sc me er up da].
  apply (parser_ok_frame st 0 _ _ (if b then HPE_PAUSED else HPE_OK) da eq_refl), Hwf, Hor.
Qed.

End Session.

(** C2: from [http_parser_init] on, whatever an application does through the
    interface, the parser satisfies its invariant and the next call of
    [http_parser_execute] returns without a failed assertion or a stray
    access. *)
Theorem session_safe {D} (settings : http_parser_settings D) `{!WellBehaved settings}
    (h0 h : http_parser D) (t : http_parser_type) (data : list Z) :
  rtc (app_step settings) (http_parser_init h0 t) h -> zlen data < 2 ^ 64 ->
  wf h /\ exists h' n, http_parser_execute h settings data = Done h' n.
Proof.
  intros Hrtc Hlen. assert (wf h) as Hwf.
  { remember (http_parser_init h0 t) as h1 eqn:E.
    assert (wf h1) as H1 by (subst; apply init_wf). clear E.
    induction Hrtc as [h|h1 h2 h3 Hstep _ IH]; [done|]. apply IH. clear IH.
    destruct Hstep as [h t'|h dat h' n Hl He|h b h' Hp|h d].
    - apply init_wf.
    - destruct (execute_total settings h dat H1 Hl) as (h2 & n2 & He2 & Hwf2 & _).
      rewrite He in He2. by simplify_eq.
    - by eapply pause_wf.
    - intros Hok. destruct h as [ty fl st hs ix le nr cl mj mn sc me er up da].
      apply (parser_ok_frame st 0 _ _ er d eq_refl), H1, Hok. }
  split; [done|]. destruct (execute_total settings h data Hwf Hlen) as (h' & n & He & _). eauto.
Qed.

Lemma session_safe_witness :
  let h0 := http_parser_init (blank tt) HTTP_REQUEST in
  let get := bytes_of_string "GET /" in
  exists h, app_step http_parser_settings_init h0 h
    /\ wf h /\ exists h' n, http_parser_execute h http_parser_settings_init get = Done h' n.
Proof.
  cbv zeta. destruct (http_parser_execute (http_parser_init (blank tt) HTTP_REQUEST)
    http_parser_settings_init (bytes_of_string "GET /")) as [h n|f] eqn:E.
  2:{ vm_compute in E. discriminate E. }
  assert (app_step http_parser_settings_init (http_parser_init (blank tt) HTTP_REQUEST) h) as Hs
    by (eapply app_execute; [|exact E]; vm_compute; reflexivity).
  exists h. split; [exact Hs|].
  apply (session_safe http_parser_settings_init (WellBehaved0 := settings_init_wb)
           (blank tt) h HTTP_REQUEST).
  - by apply rtc_once.
  - vm_compute. reflexivity.
Defined.

(** ** Reasoning about whole inputs *)

Section Whole_input.
Context {D : Type} (settings : http_parser_settings D) (data : list Z) (lenient : bool).
Abbreviation len := (zlen data).
Implicit Types (l : locals D) (K : exits D).

(** The function returns with [P]. *)
Definition returns (P : http_parser D -> Z -> Prop) : exits D :=
  mk_exits (fun _ => False) (fun _ => False) (fun _ => False) P.

(** The exits of one execution of the loop body that goes on with [J] *)
Definition body_exits (J : locals D -> Prop) (P : http_parser D -> Z -> Prop) : exits D :=
  mk_exits (fun l => J (l_set_p (l_p l + 1) l)) (fun _ => False)
    (fun l => wp error_label (fun _ _ => False) (returns P) l) P.

Lemma wp_reexecute_S fuel Q K l :
  (forall l', ~ on_reexecute K l') ->
  wp (switch settings data lenient (l_state l)) Q K l ->
  wp (reexecute settings data lenient (S fuel)) Q K l.
Proof.
  intros HK. unfold wp. cbn [reexecute].
  destruct (switch settings data lenient (l_state l) l); auto. intros H. by destruct (HK l0).
Qed.

Lemma wp_reexecute_again fuel Q K l :
  wp (switch settings data lenient (l_state l)) Q
     (mk_exits (on_break K)
        (fun l' => wp (reexecute settings data lenient fuel) Q K l') (on_error K) (on_return K)) l ->
  wp (reexecute settings data lenient (S fuel)) Q K l.
Proof.
  unfold wp. cbn [reexecute]. by destruct (switch settings data lenient (l_state l) l).
Qed.

(** The main loop with an invariant of its own *)
Lemma wp_main_loop (J : locals D -> Prop) P fuel l :
  (forall l, J l -> 0 <= l_p l <= len) ->
  (forall l, J l -> l_p l < len ->
     wp (loop_body settings data lenient) (fun _ _ => False) (body_exits (fun l' => J l' /\ l_p l < l_p l') P) l) ->
  (forall l, J l -> l_p l = len -> wp (finish settings data) (fun _ _ => False) (returns P) l) ->
  J l -> len - l_p l < Z.of_nat fuel ->
  wp (main_loop settings data lenient fuel) (fun _ _ => False) (returns P) l.
Proof.
  intros HJ Hbody Hfin. revert l. induction fuel as [|fuel IH]; intros l Hl Hfuel.
  { apply HJ in Hl. lia. }
  unfold wp. cbn [main_loop]. pose proof (HJ l Hl) as Hp.
  destruct (Z.eqb_spec (l_p l) (zlen data)) as [He|Hne]; [by apply Hfin|].
  pose proof (Hbody l Hl ltac:(lia)) as Hb. unfold wp in Hb.
  destruct (loop_body settings data lenient l) as [|l'| | l'|h n|f]; cbn in Hb; try done.
  destruct Hb as [HJ' Hlt]. apply IH; [done|]. lia.
Qed.

(** Unrolling the main loop *)
Lemma wp_main_loop_step fuel P l :
  l_p l <> len ->
  wp (loop_body settings data lenient) (fun _ _ => False)
     (body_exits (fun l' => wp (main_loop settings data lenient fuel) (fun _ _ => False)
                              (returns P) l') P) l ->
  wp (main_loop settings data lenient (S fuel)) (fun _ _ => False) (returns P) l.
Proof.
  intros Hne Hb. unfold wp in *. cbn [main_loop]. rewrite (proj2 (Z.eqb_neq _ _)) by done.
  by destruct (loop_body settings data lenient l).
Qed.

Lemma wp_main_loop_end fuel P l :
  l_p l = len -> wp (finish settings data) (fun _ _ => False) (returns P) l ->
  wp (main_loop settings data lenient (S fuel)) (fun _ _ => False) (returns P) l.
Proof.
  intros He Hf. unfold wp in *. cbn [main_loop]. by rewrite (proj2 (Z.eqb_eq _ _)).
Qed.

(** Without marks nothing is left to do after the last byte. *)
Lemma finish_no_marks P l :
  hp_http_errno (l_parser l) = HPE_OK -> (forall m, l_mark m l = None) ->
  P (set_state (l_state l) (l_parser l)) len ->
  wp (finish settings data) (fun _ _ => False) (returns P) l.
Proof.
  intros Hok Hm HP. destruct l as [[] ch p st hf hv ur bo ss]. cbn in Hok. subst.
  pose proof (Hm M_header_field). pose proof (Hm M_header_value). pose proof (Hm M_url).
  pose proof (Hm M_body). pose proof (Hm M_status). cbn in *. subst. exact HP.
Qed.

(** A failed parse reports its error. *)
Lemma wp_error_label P l :
  hp_http_errno (l_parser l) <> HPE_OK ->
  P (set_state (l_state l) (l_parser l)) (l_p l) ->
  wp error_label (fun _ _ => False) (returns P) l.
Proof.
  intros H HP. unfold error_label. apply wp_bind, wp_gets, wp_bind.
  rewrite decide_False by done. apply wp_ret, wp_bind, wp_get_p, wp_RETURN. exact HP.
Qed.

End Whole_input.

(** A call that is not at the end of the input runs the main loop. *)
Lemma execute_main {D} (settings : http_parser_settings D) parser data P :
  hp_http_errno parser = HPE_OK -> zlen data <> 0 ->
  wp (main_loop settings data (hp_lenient_http_headers parser) (S (length data)))
     (fun _ _ => False) (returns P) (init_locals parser) ->
  exists h n, http_parser_execute parser settings data = Done h n /\ P h n.
Proof.
  intros Hok Hne Hwp. unfold http_parser_execute. cbv zeta. rewrite decide_True by done.
  destruct (Z.eqb_spec (zlen data) 0); [done|]. by apply run_wp.
Qed.

(** ** Request methods *)

Lemma method_of_first_prefix ch m :
  method_of_first ch = Some m -> take 1 (method_string m) = [ch].
Proof.
  unfold method_of_first. intros H.
  repeat match type of H with (if ?b then _ else _) = _ => destruct b eqn:? end;
    simplify_eq; breflect; subst; reflexivity.
Qed.

Lemma method_switch_prefix m i ch m' :
  method_switch m i ch = Some m' ->
  take (Z.to_nat i) (method_string m') = take (Z.to_nat i) (method_string m)
  /\ method_string m' !! Z.to_nat i = Some ch.
Proof.
  unfold method_switch. destruct m; intros H; try discriminate H;
    repeat match type of H with (if ?b then _ else _) = _ => destruct b eqn:? end;
    simplify_eq; breflect; subst; split; reflexivity.
Qed.

Lemma method_string_no_nul m : Forall (fun c => c <> 0) (method_string m).
Proof. destruct m; repeat constructor; discriminate. Qed.

Lemma method_no_space m : ~ In " "%c (method_string m).
Proof. destruct m; vm_compute; intuition discriminate. Qed.

Section Method.
Context {D : Type} (settings : http_parser_settings D) `{!WellBehaved settings}.
Context (w : list Z) (lenient : bool).
Context (Hfirst : forall ch, head w = Some ch -> ch <> CR /\ ch <> LF).
Context (Hspace : ~ In " "%c w) (Hne : w <> []).
Implicit Types (l : locals D).

Let data := w ++ [" "%c].

Lemma method_data_len : zlen data = zlen w + 1.
Proof. unfold data, zlen. rewrite length_app. cbn. lia. Qed.

Lemma method_data_at p b :
  byte_at data p = Some b ->
  (p < zlen w /\ w !! Z.to_nat p = Some b /\ b <> " "%c) \/ (p = zlen w /\ b = " "%c).
Proof.
  intros Hb. pose proof (byte_at_Some _ _ _ Hb) as Hr. rewrite method_data_len in Hr.
  unfold byte_at in Hb. destruct (Z.ltb_spec p 0); [lia|]. unfold data, zlen in *.
  destruct (decide (p < Z.of_nat (length w))) as [Hlt|Hge].
  - rewrite lookup_app_l in Hb by lia. left. split_and!; [done|done|]. intros ->.
    apply Hspace, list_elem_of_In, list_elem_of_lookup. eauto.
  - right. assert (p = Z.of_nat (length w)) as -> by lia. rewrite Nat2Z.id in Hb.
    rewrite lookup_app_r, Nat.sub_diag in Hb by lia. cbn in Hb. split; congruence.
Qed.

(** How far the method has been read at offset [p] *)
Definition method_read (st : state) (m : http_method) (index p : Z) : Prop :=
  (p = 0 /\ st = s_start_req)
  \/ (1 <= p <= zlen w /\ st = s_req_method /\ index = p
      /\ take (Z.to_nat p) (method_string m) = take (Z.to_nat p) w)
  \/ (p = zlen w + 1 /\ st = s_req_spaces_before_url /\ method_string m = w).

Definition method_J l : Prop :=
  hp_http_errno (l_parser l) = HPE_OK /\ (forall m, l_mark m l = None)
  /\ 0 <= l_p l <= zlen data
  /\ method_read (l_state l) (hp_method (l_parser l)) (hp_index (l_parser l)) (l_p l).

Definition method_P (h : http_parser D) (n : Z) : Prop :=
  hp_http_errno h = HPE_OK ->
  hp_state h = s_req_spaces_before_url /\ w = method_string (hp_method h).

(** One more byte of the method *)
Lemma method_read_more m p ch :
  0 <= p < zlen w -> w !! Z.to_nat p = Some ch ->
  take (Z.to_nat p) (method_string m) = take (Z.to_nat p) w ->
  method_string m !! Z.to_nat p = Some ch ->
  method_read s_req_method m (p + 1) (p + 1).
Proof.
  intros Hp Hw Ht Hm. right; left. split_and!; [lia|lia|done|done|].
  replace (Z.to_nat (p + 1)) with (S (Z.to_nat p)) by lia.
  by rewrite !(take_S_r _ _ ch), Ht by done.
Qed.

(** The prefix read so far is within the method's name. *)
Lemma method_prefix_len m p :
  0 <= p <= zlen w -> take (Z.to_nat p) (method_string m) = take (Z.to_nat p) w ->
  p <= zlen (method_string m).
Proof.
  intros Hp Ht%(f_equal length). rewrite !length_take in Ht. unfold zlen in *. lia.
Qed.

Lemma method_end m : take (length w) (method_string m) = w ->
  c_str_at (method_string m) (zlen w) = Some 0 -> method_string m = w.
Proof.
  intros Ht Hc. unfold c_str_at, zlen in Hc.
  destruct (Z.ltb_spec (Z.of_nat (length w)) (Z.of_nat (length (method_string m)))) as [Hlt|Hge].
  - rewrite (proj2 (Z.leb_le _ _)) in Hc by lia. cbn in Hc. rewrite Nat2Z.id in Hc.
    pose proof (method_string_no_nul m) as Hn. by eapply Forall_lookup_1 in Hn.
  - rewrite <- Ht at 1. rewrite take_ge by lia. done.
Qed.

Lemma c_str_at_lookup s i c :
  c_str_at s i = Some c -> c <> 0 -> s !! Z.to_nat i = Some c.
Proof.
  unfold c_str_at. intros H Hc. destruct (_ && _); [done|]. destruct (_ =? _); congruence.
Qed.

Ltac method_err :=
  apply wp_error_label; lsimpl_in_goal; [done|by intros ?].

Lemma method_start_ok l b :
  method_J l -> l_state l = s_start_req -> l_ch l = b -> byte_at data (l_p l) = Some b ->
  l_p l = 0 ->
  wp (case_start_req settings) (fun _ _ => False)
     (body_exits (fun l' => method_J l' /\ l_p l < l_p l') method_P) l.
Proof.
  intros (Hok & Hm & Hp & _) Hst Hch Hb H0.
  destruct l as [[] ch p st hf hv ur bo ss]. lsimpl_in Hok. lsimpl_in Hst. lsimpl_in Hch.
  lsimpl_in Hb. lsimpl_in H0. lsimpl_in Hp. subst.
  destruct (method_data_at _ _ Hb) as [(Hlt & Hw & Hns)|[Hz _]].
  2:{ destruct Hne. apply nil_length_inv. unfold zlen in Hz. lia. }
  assert (head w = Some b) as Hh by (by rewrite head_lookup).
  destruct (Hfirst b Hh) as [Hcr Hlf]. unfold case_start_req.
  repeat first [wp_step|cb_step]; breflect; try method_err.
  - by destruct Heqb0 as [?%Z.eqb_eq|?%Z.eqb_eq].
  - split; [|lsimpl_in_goal; lia]. split; [done|]. split; [exact Hm|].
    split; [rewrite method_data_len; lsimpl_in_goal; lia|]. right; left. split_and!; try done; try (lsimpl_in_goal; lia).
    lsimpl_in_goal. change (Z.to_nat (0 + 1)) with 1%nat.
    rewrite (method_of_first_prefix b) by done. by rewrite (take_S_r w 0 b).
  - intros ?. done.
Qed.

Lemma method_char_ok l b :
  method_J l -> l_state l = s_req_method -> l_ch l = b -> byte_at data (l_p l) = Some b ->
  wp case_req_method (fun _ _ => False)
     (body_exits (fun l' => method_J l' /\ l_p l < l_p l') method_P) l.
Proof.
  intros (Hok & Hm & Hp & Hread) Hst Hch Hb.
  destruct l as [[] ch p st hf hv ur bo ss]. lsimpl_in Hok. lsimpl_in Hst. lsimpl_in Hch.
  lsimpl_in Hb. lsimpl_in Hread. lsimpl_in Hp. subst.
  destruct Hread as [[_ ?]|[(Hp1 & _ & Hix & Ht)|(_ & ? & _)]]; try discriminate. subst hp_index.
  pose proof (method_prefix_len hp_method p ltac:(lia) Ht) as Hpl.
  pose proof (method_string_bound hp_method) as Hbd. unfold case_req_method.
  apply wp_bind, wp_get_ch. lsimpl_in_goal. apply wp_bind.
  destruct (Z.eqb_spec b 0) as [|Hb0]; [apply wp_error; lsimpl_in_goal; method_err|].
  apply wp_ret, wp_bind, wp_gets, wp_bind, wp_gets. lsimpl_in_goal.
  apply wp_bind, wp_str_at; [lia|]. intros c Hc _.
  pose proof (method_data_at _ _ Hb) as Hat.
  assert (forall m, p < zlen w /\ w !! Z.to_nat p = Some b /\ b <> 32 ->
            take (Z.to_nat p) (method_string m) = take (Z.to_nat p) w ->
            method_string m !! Z.to_nat p = Some b ->
            method_read s_req_method m (p + 1) (p + 1)) as Hmore
    by (intros m (? & ? & ?) ? ?; eapply method_read_more; [lia|done..]).
  repeat wp_step; try method_err; split; try (lsimpl_in_goal; lia); split; try done;
    (split; [exact Hm|]); (split; [rewrite method_data_len; lsimpl_in_goal; lia|]); lsimpl_in_goal;
    rewrite ?u7_small by lia; breflect; subst.
  - destruct Hat as [(_ & _ & ?)|[-> _]]; [done|]. right; right. split_and!; [done|done|].
    apply method_end; [|done]. unfold zlen in Ht. rewrite Nat2Z.id in Ht.
    by rewrite Ht, firstn_all.
  - apply Hmore; [|done|by apply c_str_at_lookup].
    destruct Hat as [?|[-> ->]]; [done|]. apply c_str_at_lookup in Hc; [|done].
    destruct (method_no_space hp_method). apply list_elem_of_In, list_elem_of_lookup. eauto.
  - destruct (method_switch_prefix _ _ _ _ Heqo) as [Hpre Hat'].
    apply Hmore; [|congruence|done].
    destruct Hat as [?|[-> ->]]; [done|]. destruct Heqb2; breflect; lia.
Qed.

Lemma method_body_ok l :
  method_J l -> l_p l < zlen data ->
  wp (loop_body settings data lenient) (fun _ _ => False)
     (body_exits (fun l' => method_J l' /\ l_p l < l_p l') method_P) l.
Proof.
  intros HJ Hlt. pose proof HJ as (Hok & Hm & Hp & Hread). unfold loop_body.
  apply wp_bind, wp_get_p, wp_bind, wp_deref; [lia|]. intros b Hb.
  apply wp_bind, wp_put_ch, wp_bind, wp_CURRENT_STATE, wp_bind.
  assert (l_state l = s_start_req /\ l_p l = 0 \/ l_state l = s_req_method) as Hst.
  { destruct Hread as [[? ?]|[(? & ? & ?)|(He & _)]]; auto. rewrite method_data_len in Hlt. lia. }
  destruct l as [[] ch p st hf hv ur bo ss]. cbn [l_set_ch l_state] in *.
  assert (PARSING_HEADER st = true) as -> by (by destruct Hst as [[-> _]| ->]).
  apply wp_COUNT_HEADER_SIZE; lsimpl_in_goal.
  - intros _. apply wp_reexecute_S; [by intros l' ?|]. lsimpl_in_goal.
    destruct Hst as [[-> H0]| ->].
    + eapply method_start_ok; [|done|done|exact Hb|exact H0]. exact HJ.
    + eapply method_char_ok; [|done|done|exact Hb]. exact HJ.
  - intros [] He. apply wp_error_label; lsimpl_in_goal; cbn in He; subst; [done|by intros ?].
Qed.

Lemma method_finish_ok l :
  method_J l -> l_p l = zlen data ->
  wp (finish settings data) (fun _ _ => False) (returns method_P) l.
Proof.
  intros (Hok & Hm & _ & Hread) Hp. apply finish_no_marks; [done|done|]. intros _.
  rewrite Hp, method_data_len in Hread. pose proof (zlen_nonneg w).
  destruct Hread as [[? _]|[(? & _)|(_ & -> & Hw)]]; [lia|lia|].
  destruct l as [[] ch p st hf hv ur bo ss]. by cbn in *.
Qed.

End Method.

(** A request method is accepted exactly as it is spelled.  When the
    parser, at the start of a request, reads a word and the space after it
    without an error, the word is the name of the method it has recorded. *)
Theorem method_sound {D} (settings : http_parser_settings D) `{!WellBehaved settings}
    (parser : http_parser D) (w : list Z) :
  hp_http_errno parser = HPE_OK -> hp_state parser = s_start_req ->
  w <> [] -> (forall ch, head w = Some ch -> ch <> CR /\ ch <> LF) -> ~ In " "%c w ->
  exists parser' n,
    http_parser_execute parser settings (w ++ [" "%c]) = Done parser' n
    /\ (hp_http_errno parser' = HPE_OK ->
        hp_state parser' = s_req_spaces_before_url /\ w = method_string (hp_method parser')).
Proof.
  intros Hok Hst Hne Hfirst Hspace. pose proof (zlen_nonneg w).
  apply execute_main; [done|rewrite method_data_len; lia|].
  apply (wp_main_loop settings _ _ (method_J w)).
  - intros l Hl. apply Hl.
  - intros l HJ Hlt. by apply method_body_ok.
  - intros l HJ Hp. by apply method_finish_ok.
  - destruct parser; cbn in Hok, Hst; subst. split_and!; try done.
    + intros []; reflexivity.
    + cbn. rewrite method_data_len. lia.
    + by left.
  - cbn. unfold zlen. lia.
Qed.

Lemma method_sound_witness :
  exists parser' n,
    http_parser_execute (http_parser_init (blank tt) HTTP_REQUEST) http_parser_settings_init
      (bytes_of_string "M-SEARCH" ++ [" "%c]) = Done parser' n
    /\ (hp_http_errno parser' = HPE_OK ->
        hp_state parser' = s_req_spaces_before_url
        /\ bytes_of_string "M-SEARCH" = method_string (hp_method parser')).
Proof.
  apply method_sound; try reflexivity; [apply settings_init_wb|vm_compute; discriminate| |].
  - intros ch Hch. vm_compute in Hch. injection Hch as <-. split; discriminate.
  - vm_compute. intuition discriminate.
Defined.

(** Every one of the 34 methods of the library is recognised. *)
Theorem method_complete (m : http_method) (parser : http_parser unit) :
  exists parser' n,
    http_parser_execute (http_parser_init parser HTTP_REQUEST) http_parser_settings_init
      (method_string m ++ [" "%c]) = Done parser' n
    /\ hp_http_errno parser' = HPE_OK
    /\ hp_state parser' = s_req_spaces_before_url /\ hp_method parser' = m.
Proof.
  destruct parser as [ty fl st hs ix le nr cl mj mn sc me er up []].
  destruct m; eexists _, _; (split; [vm_compute; reflexivity|]); auto.
Qed.
