(* ===== verification/HttpHeaders.v ===== *)
(** * Header names

    The token table against the grammar of RFC 7230, and the recognition of
    the header names the parser acts on: the incremental matcher of
    [s_header_field_start] and [s_header_field] classifies a name as a
    comparison of the whole lower-cased name would. *)

From S2P Require Import Prelude HttpDefs HttpMonad HttpExec HttpInv HttpSafe HttpProps.

(** ** Tokens *)

Definition bytes256 : list Z := map Z.of_nat (seq 0 256).

Lemma in_bytes256 b : is_byte b -> In b bytes256.
Proof.
  intros [H1 H2]. apply in_map_iff. exists (Z.to_nat b). split; [lia|]. apply in_seq. lia.
Qed.

(** A boolean test on all bytes *)
Lemma forall_bytes (f : Z -> bool) :
  forallb f bytes256 = true -> forall b, is_byte b -> f b = true.
Proof. intros H b Hb. rewrite forallb_forall in H. by apply H, in_bytes256. Qed.

(** RFC 7230, section 3.2.6 *)
Definition is_tchar (ch : Z) : bool :=
  (("0"%c <=? ch) && (ch <=? "9"%c)) || (("A"%c <=? ch) && (ch <=? "Z"%c))
  || (("a"%c <=? ch) && (ch <=? "z"%c))
  || existsb (Z.eqb ch) (bytes_of_string "!#$%&'*+-.^_`|~").

Definition to_lower (ch : Z) : Z := if ("A"%c <=? ch) && (ch <=? "Z"%c) then ch + 32 else ch.

Lemma TOKEN_tchar ch : is_byte ch -> TOKEN ch = if is_tchar ch then to_lower ch else 0.
Proof.
  intros Hb. apply Z.eqb_eq. revert ch Hb. apply forall_bytes. vm_compute. reflexivity.
Qed.

Lemma TOKEN_nonzero ch : is_byte ch -> is_tchar ch = true -> TOKEN ch <> 0.
Proof.
  intros Hb. assert (negb (is_tchar ch) || negb (TOKEN ch =? 0) = true) as Hf.
  { revert ch Hb. apply forall_bytes. vm_compute. reflexivity. }
  intros Ht. rewrite Ht in Hf. cbn in Hf. by breflect.
Qed.

(** The character table of the parser is the token grammar of RFC 7230: a
    byte has a non-zero entry exactly when it may occur in a token, and the
    entry is the byte in lower case. *)
Theorem token_table (ch : Z) :
  is_byte ch -> TOKEN ch = if is_tchar ch then to_lower ch else 0.
Proof. apply TOKEN_tchar. Qed.

Lemma token_table_witness : TOKEN "X"%c = "x"%c.
Proof. rewrite token_table; [reflexivity|split; [discriminate|reflexivity]]. Defined.

Lemma TOKEN_byte ch : is_byte (TOKEN ch).
Proof.
  unfold TOKEN, table_at, is_byte. destruct (tokens !! Z.to_nat ch) as [v|] eqn:E; [|cbn; lia].
  assert (forallb (fun v => (0 <=? v) && (v <? 256)) tokens = true) as H by (vm_compute; reflexivity).
  rewrite forallb_forall in H.
  assert (In v tokens) as Hin by (apply list_elem_of_In, list_elem_of_lookup; eauto).
  specialize (H v Hin). breflect. cbn. lia.
Qed.

Lemma TOKEN_space_colon : TOKEN " "%c = 0 /\ TOKEN ":"%c = 0.
Proof. split; reflexivity. Qed.

(** ** The name matcher *)

(** [match_keyword] on the header state and the index *)
Definition keyword_next (kw : list Z) (c : Z) (hs full : header_states) (ix : Z)
    : header_states * Z :=
  let ix := u7 (ix + 1) in
  if sizeof kw - 1 <? ix then (h_general, ix)
  else if negb (c =? default 0 (c_str_at kw ix)) then (h_general, ix)
  else if ix =? sizeof kw - 2 then (full, ix)
  else (hs, ix).

(** One character of a header name other than a space *)
Definition field_next (hs : header_states) (ix c : Z) : header_states * Z :=
  match hs with
  | h_C => (if c =? "o"%c then h_CO else h_general, u7 (ix + 1))
  | h_CO => (if c =? "n"%c then h_CON else h_general, u7 (ix + 1))
  | h_CON => (if c =? "n"%c then h_matching_connection
              else if c =? "t"%c then h_matching_content_length else h_general, u7 (ix + 1))
  | h_matching_connection => keyword_next CONNECTION c hs h_connection ix
  | h_matching_proxy_connection => keyword_next PROXY_CONNECTION c hs h_connection ix
  | h_matching_content_length => keyword_next CONTENT_LENGTH c hs h_content_length ix
  | h_matching_transfer_encoding => keyword_next TRANSFER_ENCODING c hs h_transfer_encoding ix
  | h_matching_upgrade => keyword_next UPGRADE c hs h_upgrade ix
  | _ => (h_general, ix)
  end.

(** The header state of a first character *)
Definition first_hs (c : Z) : header_states :=
  if c =? "c"%c then h_C
  else if c =? "p"%c then h_matching_proxy_connection
  else if c =? "t"%c then h_matching_transfer_encoding
  else if c =? "u"%c then h_matching_upgrade
  else h_general.

Definition is_prefix (w k : list Z) : bool := bool_decide (w = take (length w) k).

(** The header state after the lower-cased prefix [w] of a name, as a
    comparison of whole strings *)
Definition name_hs (w : list Z) : header_states :=
  if bool_decide (w = CONNECTION) || bool_decide (w = PROXY_CONNECTION) then h_connection
  else if bool_decide (w = CONTENT_LENGTH) then h_content_length
  else if bool_decide (w = TRANSFER_ENCODING) then h_transfer_encoding
  else if bool_decide (w = UPGRADE) then h_upgrade
  else if bool_decide (w = bytes_of_string "c") then h_C
  else if bool_decide (w = bytes_of_string "co") then h_CO
  else if bool_decide (w = bytes_of_string "con") then h_CON
  else if is_prefix w CONNECTION then h_matching_connection
  else if is_prefix w PROXY_CONNECTION then h_matching_proxy_connection
  else if is_prefix w CONTENT_LENGTH then h_matching_content_length
  else if is_prefix w TRANSFER_ENCODING then h_matching_transfer_encoding
  else if is_prefix w UPGRADE then h_matching_upgrade
  else h_general.

Definition name_keywords : list (list Z) :=
  [CONNECTION; PROXY_CONNECTION; CONTENT_LENGTH; TRANSFER_ENCODING; UPGRADE].

(** The state of the matcher after the prefix [w] *)
Definition name_ok (w : list Z) (hs : header_states) (ix : Z) : Prop :=
  hs = name_hs w /\ (hs <> h_general -> ix = zlen w - 1).

Definition step_ok (w : list Z) (c : Z) : bool :=
  let r := field_next (name_hs w) (zlen w - 1) c in
  let hs' := name_hs (w ++ [c]) in
  bool_decide (fst r = hs') && (bool_decide (hs' = h_general) || (snd r =? zlen w)).

Definition keyword_prefixes : list (list Z) :=
  flat_map (fun k => map (fun n => take (S n) k) (seq 0 (length k))) name_keywords.

Lemma step_ok_prefixes :
  forallb (fun w => forallb (step_ok w) bytes256) keyword_prefixes = true.
Proof. vm_compute. reflexivity. Qed.

Lemma first_ok : forallb (fun c => bool_decide (first_hs c = name_hs [c])) bytes256 = true.
Proof. vm_compute. reflexivity. Qed.

Lemma is_prefix_in w : w <> [] ->
  existsb (is_prefix w) name_keywords = true -> In w keyword_prefixes.
Proof.
  intros Hne (k & Hk & Hp%bool_decide_eq_true)%existsb_exists.
  apply in_flat_map. exists k. split; [done|]. apply in_map_iff.
  exists (pred (length w)). destruct w as [|b w]; [done|]. split; [by rewrite Hp at 2|].
  apply in_seq. apply (f_equal length) in Hp. rewrite length_take in Hp.
  cbn [length pred] in *. lia.
Qed.

Lemma not_prefix_general w :
  existsb (is_prefix w) name_keywords = false -> name_hs w = h_general.
Proof.
  unfold name_keywords. cbn [existsb]. intros H. breflect.
  assert (forall k, is_prefix w k = false -> bool_decide (w = k) = false) as Hk.
  { intros k Hk. apply bool_decide_eq_false. intros ->. apply bool_decide_eq_false in Hk.
    apply Hk. by rewrite firstn_all. }
  assert (forall n, bool_decide (w = take n CONNECTION) = false) as Hc.
  { intros n. apply bool_decide_eq_false. intros Hw.
    match goal with H : is_prefix w CONNECTION = false |- _ =>
      apply bool_decide_eq_false in H; apply H end.
    rewrite Hw at 1. apply (f_equal length) in Hw as Hl. rewrite length_take in Hl.
    rewrite Hl. apply list_eq. intros i.
    rewrite !lookup_take. repeat case_decide; try done; try lia.
    apply lookup_ge_None. lia. }
  unfold name_hs. rewrite !Hk by done. cbn [orb].
  change (bytes_of_string "c") with (take 1 CONNECTION).
  change (bytes_of_string "co") with (take 2 CONNECTION).
  change (bytes_of_string "con") with (take 3 CONNECTION). rewrite !Hc.
  repeat match goal with H : is_prefix w _ = false |- _ => rewrite H; clear H end. reflexivity.
Qed.

Lemma not_prefix_app w c :
  existsb (is_prefix w) name_keywords = false ->
  existsb (is_prefix (w ++ [c])) name_keywords = false.
Proof.
  intros H. apply not_true_iff_false. intros (k & Hk & Hp)%existsb_exists.
  apply bool_decide_eq_true in Hp. apply not_true_iff_false in H. apply H.
  apply existsb_exists. exists k. split; [done|]. apply bool_decide_eq_true.
  apply (f_equal (take (length w))) in Hp.
  rewrite take_app_length, take_take, length_app in Hp. cbn in Hp.
  by rewrite Nat.min_l in Hp by lia.
Qed.

(** The matcher follows the comparison of whole strings. *)
Lemma name_ok_step w hs ix c :
  w <> [] -> is_byte c -> name_ok w hs ix ->
  let r := field_next hs ix c in name_ok (w ++ [c]) (fst r) (snd r).
Proof.
  intros Hne Hc [-> Hix]. destruct (existsb (is_prefix w) name_keywords) eqn:E.
  - pose proof step_ok_prefixes as Hall. rewrite forallb_forall in Hall.
    specialize (Hall w (is_prefix_in w Hne E)). apply forall_bytes with (b := c) in Hall; [|done].
    destruct (decide (name_hs w = h_general)) as [Hg|Hg].
    + unfold step_ok in Hall. rewrite Hg in *. cbn in Hall |- *. breflect.
      apply bool_decide_eq_true in H. split; cbn; [done|]. congruence.
    + rewrite (Hix Hg). unfold step_ok in Hall. breflect. apply bool_decide_eq_true in H.
      split; [done|]. intros Hg'. rewrite H in Hg'.
      destruct H0 as [?%bool_decide_eq_true|?]; [done|]. breflect.
      unfold zlen in *. rewrite length_app. cbn. lia.
  - rewrite (not_prefix_general w E). cbn. split; [|done].
    symmetry. apply not_prefix_general. by apply not_prefix_app.
Qed.

(** ** The matcher in the parser *)

Section Names.
Context {D : Type} (settings : http_parser_settings D) `{!WellBehaved settings}.
Implicit Types (l : locals D) (K : exits D).

Lemma wp_keyword_next kw c hs full (Q : header_states -> locals D -> Prop) K l :
  (let r := keyword_next kw c hs full (hp_index (l_parser l)) in
   Q (fst r) (l_set_parser (set_index (snd r) (l_parser l)) l)) ->
  wp (match_keyword kw c hs h_general full) Q K l.
Proof.
  intros HQ. unfold match_keyword. destruct l as [hp ch p st m1 m2 m3 m4 m5]; destruct hp.
  apply wp_bind, wp_upd. lsimpl_in_goal. apply wp_bind, wp_gets. lsimpl_in_goal.
  unfold keyword_next in HQ. cbv zeta in HQ. lsimpl_in HQ.
  pose proof (u7_range (hp_index + 1)) as Hr.
  apply wp_bind. destruct (Z.ltb_spec (sizeof kw - 1) (u7 (hp_index + 1))) as [Hlt|Hle].
  - apply wp_ret, wp_ret. exact HQ.
  - apply wp_bind, wp_str_at; [unfold sizeof, zlen in *; lia|]. intros k Hk _.
    rewrite Hk in HQ. cbn [default from_option id] in HQ.
    revert HQ. destruct (negb (c =? k)); [intros HQ; by apply wp_ret, wp_ret|].
    intros HQ. apply wp_ret. revert HQ. destruct (_ =? _); intros HQ; by apply wp_ret.
Qed.

Lemma wp_field_next ch c (Q : unit -> locals D -> Prop) K l :
  field_hs (hp_header_state (l_parser l)) = true -> ch <> " "%c ->
  (let r := field_next (hp_header_state (l_parser l)) (hp_index (l_parser l)) c in
   Q tt (l_set_parser (set_header_state (fst r) (set_index (snd r) (l_parser l))) l)) ->
  wp (header_field_char ch c) Q K l.
Proof.
  intros Hhs Hch HQ. unfold header_field_char.
  destruct l as [hp ch0 p st m1 m2 m3 m4 m5]; destruct hp; cbn in Hhs.
  apply wp_bind, wp_gets. lsimpl_in_goal. cbv zeta in HQ. lsimpl_in HQ.
  apply Z.eqb_neq in Hch. destruct hp_header_state; try discriminate Hhs; cbn [field_next] in HQ;
    try (apply wp_bind, wp_keyword_next; cbv zeta; lsimpl_in_goal; apply wp_upd; exact HQ);
    try (apply wp_bind, wp_upd, wp_upd; exact HQ);
    try (rewrite Hch; apply wp_upd; exact HQ).
  exact HQ.
Qed.

Context (name : list Z) (lenient : bool).
Context (Hne : name <> []) (Htok : Forall (fun b => TOKEN b <> 0) name).
Let data := name ++ [":"%c].

Lemma name_data_len : zlen data = zlen name + 1.
Proof. unfold data, zlen. rewrite length_app. cbn. lia. Qed.

Lemma name_data_at p b :
  byte_at data p = Some b ->
  (p < zlen name /\ name !! Z.to_nat p = Some b /\ TOKEN b <> 0) \/ (p = zlen name /\ b = ":"%c).
Proof.
  intros Hb. pose proof (byte_at_Some _ _ _ Hb) as Hr. rewrite name_data_len in Hr.
  unfold byte_at in Hb. destruct (Z.ltb_spec p 0); [lia|]. unfold data, zlen in *.
  destruct (decide (p < Z.of_nat (length name))) as [Hlt|Hge].
  - rewrite lookup_app_l in Hb by lia. left. split_and!; [done|done|].
    by eapply Forall_lookup_1 in Htok.
  - right. assert (p = Z.of_nat (length name)) as -> by lia. rewrite Nat2Z.id in Hb.
    rewrite lookup_app_r, Nat.sub_diag in Hb by lia. cbn in Hb. split; congruence.
Qed.

(** The lower-cased first [p] bytes of the name *)
Definition lower_prefix (p : Z) : list Z := map TOKEN (take (Z.to_nat p) name).

Lemma lower_prefix_S p b :
  0 <= p -> name !! Z.to_nat p = Some b -> lower_prefix (p + 1) = lower_prefix p ++ [TOKEN b].
Proof.
  intros Hp Hb. unfold lower_prefix. replace (Z.to_nat (p + 1)) with (S (Z.to_nat p)) by lia.
  by rewrite (take_S_r _ _ b), map_app.
Qed.

Lemma lower_prefix_ne p : 0 < p <= zlen name -> lower_prefix p <> [].
Proof.
  intros Hp H%(f_equal length). unfold lower_prefix in H.
  rewrite length_map, length_take in H. unfold zlen in Hp. cbn in H. lia.
Qed.

(** Everything but the header state and the index of the parser, [ch] and [p] *)
Lemma wp_name_loop fuel (Q : unit -> locals D -> Prop) K l :
  field_hs (hp_header_state (l_parser l)) = true ->
  0 < l_p l <= zlen name -> zlen name - l_p l < Z.of_nat fuel ->
  name_ok (lower_prefix (l_p l)) (hp_header_state (l_parser l)) (hp_index (l_parser l)) ->
  (forall ix, Q tt (l_set_p (zlen name) (l_set_ch ":"%c
     (l_set_parser (set_header_state (name_hs (map TOKEN name))
                      (set_index ix (l_parser l))) l)))) ->
  wp (header_field_loop data fuel) Q K l.
Proof.
  revert l. induction fuel as [|fuel IH]; intros l Hhs Hp Hfuel Hok HQ; [lia|].
  destruct l as [[] ch0 p st m1 m2 m3 m4 m5]; lsimpl_in Hhs; lsimpl_in Hp; lsimpl_in Hfuel;
    lsimpl_in Hok. lsimpl_in_goal.
  cbn [header_field_loop]. apply wp_bind, wp_get_p. lsimpl_in_goal.
  pose proof name_data_len as Hdl.
  destruct (Z.eqb_spec p (zlen data)) as [->|_]; [lia|].
  apply wp_bind, wp_deref; [lia|]. intros b Hb.
  apply wp_bind, wp_put_ch. lsimpl_in_goal. cbv zeta.
  destruct (name_data_at p b Hb) as [(Hlt & Hl & Ht)|[-> ->]].
  - rewrite (proj2 (Z.eqb_neq _ _)) by done.
    assert (b <> " "%c) as Hsp by (intros ->; by destruct Ht).
    apply wp_bind, wp_field_next; [done|done|]. cbv zeta. lsimpl_in_goal.
    apply wp_bind, wp_put_p. lsimpl_in_goal.
    pose proof (name_ok_step _ _ _ (TOKEN b) (lower_prefix_ne p ltac:(lia)) (TOKEN_byte b) Hok)
      as Hok'. cbv zeta in Hok'. rewrite <- (lower_prefix_S p b) in Hok' by (done || lia).
    apply IH; lsimpl_in_goal; [|lia|lia|done|done].
    destruct Hok' as [-> _]. unfold name_hs. by repeat case_if.
  - rewrite (proj2 (Z.eqb_eq _ _)) by reflexivity. apply wp_ret.
    destruct Hok as [-> _]. unfold lower_prefix in HQ |- *.
    unfold zlen at 1. rewrite Nat2Z.id, firstn_all. exact (HQ hp_index).
Qed.

Definition names_P (h : http_parser D) (n : Z) : Prop :=
  hp_http_errno h = HPE_OK ->
  hp_state h = s_header_value_discard_ws /\ hp_header_state h = name_hs (map TOKEN name).

(** The states between the bytes of the name *)
Definition names_J l : Prop :=
  hp_http_errno (l_parser l) = HPE_OK
  /\ l_header_value_mark l = None /\ l_url_mark l = None /\ l_body_mark l = None
  /\ l_status_mark l = None
  /\ ((l_p l = 0 /\ l_state l = s_header_field_start /\ l_header_field_mark l = None)
      \/ (l_p l = 1 /\ l_state l = s_header_field /\ l_header_field_mark l = Some 0
          /\ name_ok (lower_prefix 1) (hp_header_state (l_parser l)) (hp_index (l_parser l))
          /\ field_hs (hp_header_state (l_parser l)) = true)
      \/ (l_p l = zlen data /\ l_state l = s_header_value_discard_ws
          /\ l_header_field_mark l = None
          /\ hp_header_state (l_parser l) = name_hs (map TOKEN name))).

Lemma name_len_pos : 1 <= zlen name.
Proof.
  destruct (Z.eq_dec (zlen name) 0) as [H|H]; [|pose proof (zlen_nonneg name); lia].
  destruct Hne. apply nil_length_inv. unfold zlen in H. lia.
Qed.

Lemma name_start_ok l :
  names_J l -> l_p l = 0 -> l_state l = s_header_field_start ->
  byte_at data 0 = Some (l_ch l) ->
  wp case_header_field_start (fun _ _ => False)
     (body_exits (fun l' => names_J l' /\ l_p l < l_p l') names_P) l.
Proof.
  intros (Hok & Hm2 & Hm3 & Hm4 & Hm5 & HJ) Hp Hst Hb. pose proof name_len_pos as Hpos.
  destruct HJ as [(_ & _ & Hm1)|[(? & _)|(? & _)]];
    [|lia|pose proof name_data_len; pose proof (zlen_nonneg name); lia].
  destruct (name_data_at _ _ Hb) as [(_ & Hl & Ht)|[? _]]; [|lia].
  destruct l as [[] ch p st hf hv ur bo ss]. cbn in Hok, Hm1, Hm2, Hm3, Hm4, Hm5, Hp, Hst, Hl, Ht.
  subst. unfold case_header_field_start.
  assert (ch <> CR /\ ch <> LF) as [Hcr Hlf] by (split; intros ->; by destruct Ht).
  repeat wp_step; breflect; try done.
  split; [|lsimpl_in_goal; lia]. split_and!; try done. right; left.
  lsimpl_in_goal. split_and!; try done; [|by repeat case_if].
  change (name_ok (lower_prefix (0 + 1)) (first_hs (TOKEN ch)) 0).
  rewrite (lower_prefix_S 0 ch) by (done || lia).
  change (lower_prefix 0) with (@nil Z). cbn [app]. split; [|done].
  pose proof (forall_bytes _ first_ok (TOKEN ch) (TOKEN_byte ch)) as Hf.
  by apply bool_decide_eq_true in Hf.
Qed.

Lemma name_rest_ok l :
  names_J l -> l_p l = 1 -> l_state l = s_header_field ->
  wp (case_header_field settings data) (fun _ _ => False)
     (body_exits (fun l' => names_J l' /\ l_p l < l_p l') names_P) l.
Proof.
  intros (Hok & Hm2 & Hm3 & Hm4 & Hm5 & HJ) Hp Hst. pose proof name_len_pos as Hpos.
  pose proof name_data_len as Hdl.
  destruct HJ as [(? & _)|[(_ & _ & Hm1 & Hname & Hhs)|(? & _)]]; [lia| |lia].
  destruct l as [[] ch p st hf hv ur bo ss]. cbn in Hok, Hm1, Hm2, Hm3, Hm4, Hm5, Hp, Hst, Hname, Hhs.
  subst. unfold case_header_field. apply wp_bind, wp_get_p, wp_bind. lsimpl_in_goal.
  apply wp_name_loop; lsimpl_in_goal; [done|lia|unfold data, zlen in *; rewrite length_app; lia|done|].
  intros ix. lsimpl_in_goal. apply wp_bind, wp_get_p, wp_bind. lsimpl_in_goal.
  apply wp_COUNT_HEADER_SIZE; lsimpl_in_goal.
  2:{ intros [] He. apply wp_error_label; lsimpl_in_goal; cbn in He; subst; [done|by intros ?]. }
  intros _. rewrite (proj2 (Z.eqb_neq (zlen name) _)) by lia.
  repeat first [wp_step|cb_step]; try done.
  - unfold data in *. lia.
  - split; [|lsimpl_in_goal; lia]. split_and!; try done. right; right.
    lsimpl_in_goal. split_and!; [lia|done..].
Qed.

Lemma names_body_ok l :
  names_J l -> l_p l < zlen data ->
  wp (loop_body settings data lenient) (fun _ _ => False)
     (body_exits (fun l' => names_J l' /\ l_p l < l_p l') names_P) l.
Proof.
  intros HJ Hlt. pose proof HJ as (Hok & _ & _ & _ & _ & Hcase). unfold loop_body.
  assert (l_p l = 0 /\ l_state l = s_header_field_start
          \/ l_p l = 1 /\ l_state l = s_header_field) as Hst.
  { destruct Hcase as [(? & ? & _)|[(? & ? & _)|(? & _)]]; auto; lia. }
  apply wp_bind, wp_get_p, wp_bind, wp_deref; [lia|]. intros b Hb.
  apply wp_bind, wp_put_ch, wp_bind, wp_CURRENT_STATE, wp_bind.
  destruct l as [[] ch p st hf hv ur bo ss]. cbn [l_set_ch l_state l_p] in *.
  assert (PARSING_HEADER st = true) as -> by (by destruct Hst as [[_ ->]|[_ ->]]).
  apply wp_COUNT_HEADER_SIZE; lsimpl_in_goal.
  - intros _. apply wp_reexecute_S; [by intros l' ?|]. lsimpl_in_goal.
    destruct Hst as [[-> ->]|[-> ->]].
    + eapply name_start_ok; [exact HJ|done|done|exact Hb].
    + eapply name_rest_ok; [exact HJ|done|done].
  - intros [] He. apply wp_error_label; lsimpl_in_goal; cbn in He; subst; [done|by intros ?].
Qed.

Lemma names_finish_ok l :
  names_J l -> l_p l = zlen data ->
  wp (finish settings data) (fun _ _ => False) (returns names_P) l.
Proof.
  intros (Hok & Hm2 & Hm3 & Hm4 & Hm5 & HJ) Hp. rewrite Hp in HJ.
  pose proof name_data_len. pose proof name_len_pos.
  destruct HJ as [(? & _)|[(? & _)|(_ & Hst & Hm1 & Hhs)]]; [lia|lia|].
  apply finish_no_marks; [done|by intros []|]. intros _.
  destruct l as [[] ch p st hf hv ur bo ss]. by cbn in *.
Qed.

End Names.

Ltac kinds :=
  split_and!; split; intros; destruct_or?; (auto || done || discriminate || (subst; done)).

Lemma name_hs_kinds w :
  (name_hs w = h_connection <-> w = CONNECTION \/ w = PROXY_CONNECTION)
  /\ (name_hs w = h_content_length <-> w = CONTENT_LENGTH)
  /\ (name_hs w = h_transfer_encoding <-> w = TRANSFER_ENCODING)
  /\ (name_hs w = h_upgrade <-> w = UPGRADE).
Proof.
  unfold name_hs.
  destruct (bool_decide (w = CONNECTION)) eqn:E1; cbn [orb];
    [apply bool_decide_eq_true in E1; subst w; kinds|apply bool_decide_eq_false in E1].
  destruct (bool_decide (w = PROXY_CONNECTION)) eqn:E2; cbn [orb];
    [apply bool_decide_eq_true in E2; subst w; kinds|apply bool_decide_eq_false in E2].
  destruct (bool_decide (w = CONTENT_LENGTH)) eqn:E3; cbn [orb];
    [apply bool_decide_eq_true in E3; subst w; kinds|apply bool_decide_eq_false in E3].
  destruct (bool_decide (w = TRANSFER_ENCODING)) eqn:E4; cbn [orb];
    [apply bool_decide_eq_true in E4; subst w; kinds|apply bool_decide_eq_false in E4].
  destruct (bool_decide (w = UPGRADE)) eqn:E5; cbn [orb];
    [apply bool_decide_eq_true in E5; subst w; kinds|apply bool_decide_eq_false in E5].
  repeat case_if; kinds.
Qed.

Lemma map_TOKEN_lower name :
  Forall (fun b => is_byte b /\ is_tchar b = true) name -> map TOKEN name = map to_lower name.
Proof.
  intros H. apply map_ext_in. intros b Hb. rewrite List.Forall_forall in H.
  destruct (H b Hb) as [Hb1 Hb2].
  by rewrite TOKEN_tchar, Hb2.
Qed.

(** C38: header names are recognised as a comparison of the whole name would,
    in any mix of upper and lower case, although the parser matches them byte
    by byte with a shared index: when the name and its colon are read without
    an error, the header is taken for a connection, content-length,
    transfer-encoding or upgrade header exactly when its lower-cased name is
    that keyword. *)
Theorem header_name_recognised {D} (settings : http_parser_settings D) `{!WellBehaved settings}
    (parser : http_parser D) (name : list Z) :
  hp_http_errno parser = HPE_OK -> hp_state parser = s_header_field_start ->
  name <> [] -> Forall (fun b => is_byte b /\ is_tchar b = true) name ->
  let lname := map to_lower name in
  exists parser' n,
    http_parser_execute parser settings (name ++ [":"%c]) = Done parser' n
    /\ (hp_http_errno parser' = HPE_OK ->
        hp_state parser' = s_header_value_discard_ws
        /\ (hp_header_state parser' = h_connection <->
              lname = bytes_of_string "connection"
              \/ lname = bytes_of_string "proxy-connection")
        /\ (hp_header_state parser' = h_content_length <->
              lname = bytes_of_string "content-length")
        /\ (hp_header_state parser' = h_transfer_encoding <->
              lname = bytes_of_string "transfer-encoding")
        /\ (hp_header_state parser' = h_upgrade <-> lname = bytes_of_string "upgrade")).
Proof.
  intros Hok Hst Hne Hall lname. pose proof (zlen_nonneg name).
  assert (Forall (fun b => TOKEN b <> 0) name) as Htok.
  { eapply Forall_impl; [|exact Hall]. intros b [Hb Ht]. by apply TOKEN_nonzero. }
  assert (exists h n, http_parser_execute parser settings (name ++ [":"%c]) = Done h n
                      /\ names_P name h n) as (h & n & He & HP).
  { apply execute_main; [done|rewrite name_data_len; lia|].
    apply (wp_main_loop settings _ _ (names_J name)).
    - intros l (_ & _ & _ & _ & _ & Hc). pose proof (name_data_len name).
      pose proof (name_len_pos name Hne).
      destruct Hc as [(? & _)|[(? & _)|(? & _)]]; lia.
    - intros l HJ Hlt. by apply names_body_ok.
    - intros l HJ Hp. by apply names_finish_ok.
    - destruct parser; cbn in Hok, Hst; subst. split_and!; try done. by left.
    - cbn. unfold zlen. lia. }
  exists h, n. split; [done|]. intros Hok'. destruct (HP Hok') as [Hs ->]. split; [done|].
  rewrite (map_TOKEN_lower name Hall). apply name_hs_kinds.
Qed.

Lemma header_name_recognised_witness :
  exists parser' n,
    http_parser_execute (set_state s_header_field_start (blank tt)) http_parser_settings_init
      (bytes_of_string "Content-LENGTH" ++ [":"%c]) = Done parser' n
    /\ hp_header_state parser' = h_content_length.
Proof.
  destruct (header_name_recognised http_parser_settings_init
    (set_state s_header_field_start (blank tt)) (bytes_of_string "Content-LENGTH"))
    as (parser' & n & He & Hk); [reflexivity|reflexivity|discriminate| |].
  - repeat constructor; discriminate.
  - exists parser', n. split; [exact He|]. vm_compute in He. injection He as <- <-.
    destruct (Hk eq_refl) as (_ & _ & [_ H] & _). apply H. reflexivity.
Defined.
