(* ===== verification/HttpBody.v ===== *)
(** * Message bodies

    Chunk sizes are the hexadecimal values of their digits, or an error; an
    identity body is delivered to the application complete and in order,
    however the input is cut into pieces; two quirks of the tables and loops
    of the parser, stated as theorems. *)

From S2P Require Import Prelude HttpDefs HttpMonad HttpExec HttpInv HttpSafe HttpProps HttpHeaders.

(** ** Chunk sizes *)

Definition hex_digit (ch : Z) : Z := if IS_NUM ch then ch - "0"%c else LOWER ch - "a"%c + 10.

Definition hex_value (ds : list Z) : Z := foldl (fun v d => v * 16 + hex_digit d) 0 ds.

(** The largest length that may still be multiplied by 16 *)
Definition chunk_limit : Z := (ULLONG_MAX - 16) / 16.

Lemma unhex_ascii ch : 0 <= ch < 128 -> unhex ch = if IS_HEX ch then hex_digit ch else -1.
Proof.
  intros Hch. assert (is_byte ch) as Hb by (unfold is_byte; lia).
  assert ((128 <=? ch) || (unhex ch =? if IS_HEX ch then hex_digit ch else -1) = true) as H.
  { clear Hch. revert ch Hb. apply forall_bytes. vm_compute. reflexivity. }
  rewrite (proj2 (Z.leb_gt _ _)) in H by lia. by apply Z.eqb_eq.
Qed.

Lemma IS_HEX_ascii ch : is_byte ch -> IS_HEX ch = true -> 0 <= ch < 128 /\ 0 <= hex_digit ch <= 15.
Proof.
  intros Hb Hx.
  assert (negb (IS_HEX ch) || ((ch <? 128) && (0 <=? hex_digit ch) && (hex_digit ch <=? 15)) = true)
    as H. { clear Hx. revert ch Hb. apply forall_bytes. vm_compute. reflexivity. }
  rewrite Hx in H. unfold is_byte in Hb. cbn in H. breflect. lia.
Qed.

Lemma hex_value_app ds d : hex_value (ds ++ [d]) = hex_value ds * 16 + hex_digit d.
Proof. unfold hex_value. by rewrite foldl_app. Qed.

Definition hex_digits (ds : list Z) : Prop := Forall (fun d => is_byte d /\ IS_HEX d = true) ds.

Lemma hex_value_mono ds ds' :
  hex_digits (ds ++ ds') -> 0 <= hex_value ds <= hex_value (ds ++ ds').
Proof.
  intros [H1 H2]%Forall_app. revert H2. induction ds' as [|d ds' IH] using rev_ind; intros H2.
  - rewrite app_nil_r. split; [|lia]. clear -H1. induction ds as [|d ds IH] using rev_ind; [cbn; lia|].
    apply Forall_app in H1 as [H1 [Hb Hx]%Forall_singleton]. specialize (IH H1).
    rewrite hex_value_app. destruct (IS_HEX_ascii d Hb Hx). lia.
  - apply Forall_app in H2 as [H2 [Hb Hx]%Forall_singleton]. specialize (IH H2).
    rewrite app_assoc, hex_value_app. destruct (IS_HEX_ascii d Hb Hx). lia.
Qed.

Section Chunk_size.
Context {D : Type} (settings : http_parser_settings D) (lenient : bool).
Context (ds : list Z) (Hds : hex_digits ds) (Hne : ds <> []).
Context (Hlen : zlen ds <= HTTP_MAX_HEADER_SIZE).
Implicit Types (l : locals D) (h : http_parser D).

(** The digits before offset [p] *)
Let before (p : Z) : list Z := take (Z.to_nat p) ds.

Lemma before_S p d : 0 <= p -> ds !! Z.to_nat p = Some d ->
  hex_value (before (p + 1)) = hex_value (before p) * 16 + hex_digit d.
Proof.
  intros Hp Hd. unfold before. replace (Z.to_nat (p + 1)) with (S (Z.to_nat p)) by lia.
  by rewrite (take_S_r _ _ d), hex_value_app.
Qed.

Lemma before_mono p q : 0 <= p <= q -> 0 <= hex_value (before p) <= hex_value (before q).
Proof.
  intros Hpq. unfold before.
  rewrite <- (take_drop (Z.to_nat p) (take (Z.to_nat q) ds)).
  rewrite take_take, Nat.min_l by lia. apply hex_value_mono.
  assert (take (Z.to_nat p) ds = take (Z.to_nat p) (take (Z.to_nat q) ds)) as ->
    by (rewrite take_take, Nat.min_l; lia || done).
  rewrite take_drop. by apply Forall_take.
Qed.

Definition chunk_P h (n : Z) : Prop :=
  if hex_value (before (zlen ds - 1)) <=? chunk_limit then
    hp_http_errno h = HPE_OK /\ hp_state h = s_chunk_size
    /\ hp_content_length h = hex_value ds /\ n = zlen ds
  else hp_http_errno h = HPE_INVALID_CONTENT_LENGTH.

Definition chunk_J l : Prop :=
  hp_http_errno (l_parser l) = HPE_OK /\ (forall m, l_mark m l = None)
  /\ chunked (l_parser l) /\ hp_nread (l_parser l) = l_p l /\ 0 <= l_p l <= zlen ds
  /\ (l_p l = 0 /\ l_state l = s_chunk_size_start
      \/ 1 <= l_p l /\ l_state l = s_chunk_size
         /\ hp_content_length (l_parser l) = hex_value (before (l_p l))
         /\ hex_value (before (l_p l - 1)) <= chunk_limit).

Lemma digit_at p b : byte_at ds p = Some b ->
  0 <= p /\ ds !! Z.to_nat p = Some b /\ 0 <= b < 128 /\ IS_HEX b = true
  /\ 0 <= unhex b <= 15 /\ unhex b = hex_digit b /\ b <> CR.
Proof.
  intros Hb. pose proof (byte_at_Some _ _ _ Hb) as Hr. unfold byte_at in Hb.
  destruct (Z.ltb_spec p 0); [lia|]. pose proof Hds as HF. eapply Forall_lookup_1 in HF as [Hby Hx]; [|done].
  destruct (IS_HEX_ascii b Hby Hx). pose proof (unhex_ascii b ltac:(lia)) as Hu. rewrite Hx in Hu.
  split_and!; try done; try lia. intros ->. discriminate Hx.
Qed.

Lemma chunk_body_ok l :
  chunk_J l -> l_p l < zlen ds ->
  wp (loop_body settings ds lenient) (fun _ _ => False)
     (body_exits (fun l' => chunk_J l' /\ l_p l < l_p l') chunk_P) l.
Proof.
  intros (Hok & Hm & Hch & Hnr & Hp & Hst) Hlt. unfold loop_body.
  apply wp_bind, wp_get_p, wp_bind, wp_deref; [lia|]. intros b Hb.
  apply wp_bind, wp_put_ch, wp_bind, wp_CURRENT_STATE, wp_bind.
  destruct (digit_at _ _ Hb) as (Hp0 & Hl & _ & _ & Hu & Heq & Hcr).
  destruct l as [[] ch p st hf hv ur bo ss]. unfold chunked in Hch.
  cbn in Hok, Hm, Hch, Hnr, Hp, Hst, Hlt, Hp0, Hl. lsimpl_in_goal.
  assert (PARSING_HEADER st = true) as -> by (by destruct Hst as [[_ ->]|(_ & -> & _)]).
  subst. apply wp_COUNT_HEADER_SIZE_fits; lsimpl_in_goal; rewrite HTTP_MAX_HEADER_SIZE_val in *;
    rewrite u32_small by lia; [lia|].
  apply wp_reexecute_S; [by intros l' ?|]. lsimpl_in_goal.
  destruct Hst as [[-> ->]|(Hp1 & -> & -> & Hlim)]; cbn [switch].
  - unfold case_chunk_size_start. repeat wp_step; try done; [breflect; lia|].
    split; [|lsimpl_in_goal; lia]. split_and!; try done; lsimpl_in_goal; [lia|].
    right. split_and!; [lia|done| |].
    + rewrite (before_S 0 b) by done. rewrite u64_small by lia. rewrite Heq. reflexivity.
    + vm_compute. discriminate.
  - unfold case_chunk_size. repeat wp_step; try done; breflect; try lia.
    + apply wp_error_label; lsimpl_in_goal; [done|]. unfold chunk_P.
      rewrite (proj2 (Z.leb_gt _ _)); [done|]. fold chunk_limit in Heqb2.
      pose proof (before_mono p (zlen ds - 1) ltac:(lia)). lia.
    + fold chunk_limit in Heqb2. pose proof (before_mono 0 p ltac:(lia)).
      split; [|lsimpl_in_goal; lia]. split_and!; try done; lsimpl_in_goal; try lia.
      right. split_and!; [lia|done| |].
      * rewrite (before_S p b) by done.
        destruct (chunk_size_step (hex_value (before p)) (unhex b)) as [-> _]; [lia|done|done|].
        by rewrite Heq.
      * by replace (p + 1 - 1) with p by lia.
Qed.

Lemma chunk_finish_ok l :
  chunk_J l -> l_p l = zlen ds ->
  wp (finish settings ds) (fun _ _ => False) (returns chunk_P) l.
Proof.
  intros (Hok & Hm & Hch & Hnr & Hp & Hst) He. apply finish_no_marks; [done|done|].
  assert (zlen ds <> 0) as Hnz.
  { intros Hz. apply Hne, nil_length_inv. unfold zlen in Hz. lia. }
  destruct Hst as [[? _]|(Hp1 & Hst & Hcl & Hlim)]; [lia|]. unfold chunk_P.
  rewrite He in *. rewrite (proj2 (Z.leb_le _ _)) by done.
  destruct l as [[] ch p st hf hv ur bo ss]. cbn in *. subst. split_and!; try done.
  unfold before. unfold zlen. by rewrite Nat2Z.id, firstn_all.
Qed.

End Chunk_size.

(** Chunk sizes.  Reading a run of hexadecimal digits at the start of a
    chunk either stores their exact value as the length of the chunk, with no
    wrap-around of the 64-bit counter, or reports an invalid length; the error
    comes exactly when the digits but the last exceed the limit that keeps the
    multiplication by 16 in range. *)
Theorem chunk_size_value {D} (settings : http_parser_settings D) (parser : http_parser D)
    (ds : list Z) :
  hp_http_errno parser = HPE_OK -> hp_state parser = s_chunk_size_start ->
  chunked parser -> hp_nread parser = 0 ->
  hex_digits ds -> ds <> [] -> zlen ds <= HTTP_MAX_HEADER_SIZE ->
  exists parser' n,
    http_parser_execute parser settings ds = Done parser' n
    /\ (if hex_value (take (length ds - 1) ds) <=? chunk_limit then
          hp_http_errno parser' = HPE_OK /\ hp_state parser' = s_chunk_size
          /\ hp_content_length parser' = hex_value ds /\ n = zlen ds
        else hp_http_errno parser' = HPE_INVALID_CONTENT_LENGTH).
Proof.
  intros Hok Hst Hch Hnr Hds Hne Hlen.
  assert (zlen ds <> 0) as Hnz.
  { intros Hz. apply Hne, nil_length_inv. unfold zlen in Hz. lia. }
  replace (length ds - 1)%nat with (Z.to_nat (zlen ds - 1)) by (unfold zlen; lia).
  pose proof (zlen_nonneg ds).
  apply execute_main; [done|done|].
  apply (wp_main_loop settings _ _ (chunk_J ds)).
  - intros l Hl. apply Hl.
  - intros l HJ Hlt. by apply chunk_body_ok.
  - intros l HJ Hp. by apply chunk_finish_ok.
  - destruct parser; cbn in Hok, Hst, Hnr; subst. split_and!; try done.
    + by intros [].
    + by left.
  - cbn. unfold zlen. lia.
Qed.

Lemma chunk_size_value_witness :
  exists parser' n,
    http_parser_execute (set_flags F_CHUNKED (set_state s_chunk_size_start (blank tt)))
      http_parser_settings_init (bytes_of_string "1fA0") = Done parser' n
    /\ hp_content_length parser' = 8096.
Proof.
  destruct (chunk_size_value http_parser_settings_init
    (set_flags F_CHUNKED (set_state s_chunk_size_start (blank tt))) (bytes_of_string "1fA0"))
    as (parser' & n & He & Hv); try reflexivity; try discriminate.
  - repeat constructor; discriminate.
  - exists parser', n. split; [exact He|]. vm_compute in Hv. apply Hv.
Defined.

(** The table [unhex] of 256 entries has 128 initialisers; the others are 0,
    not -1. *)

(** A chunk-size line that is one byte above 0x7F is read as the size 0,
    the last chunk: the parser goes on to the trailer without an error. *)
Theorem chunk_size_high_byte (ch : Z) :
  128 <= ch < 256 ->
  exists parser' n,
    http_parser_execute (set_flags F_CHUNKED (set_state s_chunk_size_start (blank tt)))
      http_parser_settings_init [ch; CR; LF] = Done parser' n
    /\ hp_http_errno parser' = HPE_OK /\ hp_state parser' = s_header_field_start
    /\ has_bit (hp_flags parser') F_TRAILING = true.
Proof.
  intros Hch. assert (is_byte ch) as Hb by (unfold is_byte; lia).
  assert ((ch <? 128) ||
    match http_parser_execute (set_flags F_CHUNKED (set_state s_chunk_size_start (blank tt)))
            http_parser_settings_init [ch; CR; LF] with
    | Done h _ => bool_decide (hp_http_errno h = HPE_OK)
                  && bool_decide (hp_state h = s_header_field_start)
                  && has_bit (hp_flags h) F_TRAILING
    | Failed _ => false
    end = true) as H.
  { clear Hch. revert ch Hb. apply forall_bytes. vm_compute. reflexivity. }
  rewrite (proj2 (Z.ltb_ge _ _)) in H by lia. cbn [orb] in H.
  destruct (http_parser_execute _ _ _) as [h n|]; [|done]. exists h, n. breflect.
  apply bool_decide_eq_true in H. apply bool_decide_eq_true in H1. auto.
Qed.

Lemma chunk_size_high_byte_witness :
  exists parser' n,
    http_parser_execute (set_flags F_CHUNKED (set_state s_chunk_size_start (blank tt)))
      http_parser_settings_init [200; CR; LF] = Done parser' n
    /\ hp_http_errno parser' = HPE_OK /\ hp_state parser' = s_header_field_start
    /\ has_bit (hp_flags parser') F_TRAILING = true.
Proof. apply chunk_size_high_byte. split; [discriminate|reflexivity]. Defined.

(** ** An application that records the callbacks *)

Inductive event : Type :=
| E_message_begin | E_headers_complete | E_message_complete | E_chunk_header | E_chunk_complete
| E_data (m : mark) (bytes : list Z).

Definition log_event (e : event) (h : http_parser (list event)) : http_parser (list event) * Z :=
  (set_data (hp_data h ++ [e]) h, 0).

Definition log_settings : http_parser_settings (list event) :=
  let notify e := Some (log_event e) in
  let data m := Some (fun h bs => log_event (E_data m bs) h) in
  mk_http_parser_settings (notify E_message_begin) (data M_url) (data M_status)
    (data M_header_field) (data M_header_value) (notify E_headers_complete) (data M_body)
    (notify E_message_complete) (notify E_chunk_header) (notify E_chunk_complete).

Lemma log_event_frame e h : cb_frame h (fst (log_event e h)).
Proof. exists (hp_data h ++ [e]), (hp_http_errno h). destruct h. by auto. Qed.

#[global] Instance log_settings_wb : WellBehaved log_settings.
Proof.
  split; [intros f h Hf; injection Hf as <-; apply log_event_frame..|].
  intros [] f h bs Hf; injection Hf as <-; apply log_event_frame.
Qed.

Section Logged.
Context (data : list Z).
Implicit Types (l : locals (list event)) (K : exits (list event)).

(** What a callback leaves: one more event, the stored state current *)
Definition logged (e : event) l : locals (list event) :=
  l_set_parser (set_data (hp_data (l_parser l) ++ [e]) (set_state (l_state l) (l_parser l))) l.

Lemma wp_log_notify cb e err ER (Q : unit -> locals (list event) -> Prop) K l :
  cb = Some (log_event e) -> hp_http_errno (l_parser l) = HPE_OK ->
  Q tt (logged e l) -> wp (CALLBACK_NOTIFY_ cb err ER) Q K l.
Proof.
  intros -> Hok HQ. destruct l as [[] ch p st hf hv ur bo ss]. cbn in Hok. subst. exact HQ.
Qed.

Lemma wp_log_data m a extra ER (Q : unit -> locals (list event) -> Prop) K l :
  hp_http_errno (l_parser l) = HPE_OK -> l_mark m l = Some a ->
  0 <= a -> 0 <= l_p l - a + extra -> l_p l + extra <= zlen data ->
  Q tt (l_set_mark m None (logged (E_data m (sub_bytes data a (l_p l - a + extra))) l)) ->
  wp (CALLBACK_DATA_ log_settings data m extra ER) Q K l.
Proof.
  intros Hok Hm Ha Hn Hend HQ. unfold CALLBACK_DATA_, assert_errno_ok.
  apply wp_bind, wp_bind, wp_gets. rewrite Hok, bool_decide_eq_true_2 by done.
  apply wp_ret, wp_bind, wp_get_mark. rewrite Hm. apply wp_bind, wp_get_p. cbv zeta.
  apply wp_bind. assert (data_cb log_settings m =
    Some (fun h bs => log_event (E_data m bs) h)) as -> by (by destruct m).
  apply wp_bind. unfold check_region. rewrite !(proj2 (Z.leb_le _ _)) by lia. apply wp_ret.
  destruct l as [[] ch p st hf hv ur bo ss]. cbn in Hok. subst. exact HQ.
Qed.

Lemma wp_log_no_mark m (Q : unit -> locals (list event) -> Prop) K l :
  hp_http_errno (l_parser l) = HPE_OK -> l_mark m l = None ->
  Q tt l -> wp (CALLBACK_DATA_NOADVANCE log_settings data m) Q K l.
Proof.
  intros Hok Hm HQ. unfold CALLBACK_DATA_NOADVANCE, CALLBACK_DATA_, assert_errno_ok.
  apply wp_bind, wp_get_p, wp_bind, wp_bind, wp_gets.
  rewrite Hok, bool_decide_eq_true_2 by done. apply wp_ret, wp_bind, wp_get_mark.
  rewrite Hm. by apply wp_ret.
Qed.

End Logged.

(** ** Identity bodies *)

(** The calls of an application that passes the pieces of its input on as they
    arrive and stops at the first that is not fully parsed *)
Fixpoint feed (h : http_parser (list event)) (pieces : list (list Z))
    : option (http_parser (list event)) :=
  match pieces with
  | [] => Some h
  | d :: pieces =>
      match http_parser_execute h log_settings d with
      | Done h' n =>
          if (n =? zlen d) && bool_decide (hp_http_errno h' = HPE_OK) then feed h' pieces else None
      | Failed _ => None
      end
  end.

(** Whether the connection persists does not depend on the body. *)
Lemma NEW_MESSAGE_body {D} (h h' : http_parser D) :
  hp_type h = hp_type h' -> hp_flags h = hp_flags h' -> hp_status_code h = hp_status_code h' ->
  hp_http_major h = hp_http_major h' -> hp_http_minor h = hp_http_minor h' ->
  hp_content_length h <> ULLONG_MAX -> hp_content_length h' <> ULLONG_MAX ->
  NEW_MESSAGE h = NEW_MESSAGE h'.
Proof.
  intros H1 H2 H3 H4 H5 H6 H7.
  unfold NEW_MESSAGE, http_should_keep_alive, http_message_needs_eof, start_state.
  rewrite H1, H2, H3, H4, H5. apply Z.eqb_neq in H6, H7.
  by rewrite H6, H7.
Qed.

Section Identity_body.
Context (data : list Z) (Hlen : zlen data < 2 ^ 64) (Hne : data <> []).
Implicit Types (h : http_parser (list event)) (l : locals (list event)).

Lemma data_len_pos : 1 <= zlen data.
Proof.
  destruct (Z.eq_dec (zlen data) 0) as [Hz|Hz]; [|pose proof (zlen_nonneg data); lia].
  destruct Hne. apply nil_length_inv. unfold zlen in Hz. lia.
Qed.

Lemma sub_bytes_all : sub_bytes data 0 (zlen data) = data.
Proof. unfold sub_bytes, zlen. by rewrite Nat2Z.id, drop_0, firstn_all. Qed.

(** The parser in an identity body with [cl] bytes to come *)
Definition in_body h (cl : Z) : Prop :=
  hp_http_errno h = HPE_OK /\ hp_state h = s_body_identity /\ hp_content_length h = cl
  /\ 0 < cl < ULLONG_MAX.

Lemma fuel_two : S (length data) = S (S (pred (length data))).
Proof. pose proof data_len_pos. unfold zlen in *. lia. Qed.

(** The first byte of a piece enters the case [s_body_identity]. *)
Lemma enter_body h P :
  hp_http_errno h = HPE_OK -> hp_state h = s_body_identity ->
  (forall b, wp (reexecute log_settings data (hp_lenient_http_headers h) reexecute_fuel)
     (fun _ _ => False)
     (body_exits (fun l' => wp (main_loop log_settings data (hp_lenient_http_headers h)
                                  (S (pred (length data)))) (fun _ _ => False) (returns P) l') P)
     (mk_locals h b 0 s_body_identity None None None None None)) ->
  exists h' n, http_parser_execute h log_settings data = Done h' n /\ P h' n.
Proof.
  intros Hok Hst Hwp. pose proof data_len_pos as Hpos.
  apply execute_main; [done|lia|]. rewrite fuel_two.
  apply wp_main_loop_step; [cbn; lia|]. unfold loop_body.
  apply wp_bind, wp_get_p, wp_bind, wp_deref; [cbn; lia|]. intros b _.
  apply wp_bind, wp_put_ch, wp_bind, wp_CURRENT_STATE, wp_bind.
  destruct h. cbn in Hst. subst hp_state. apply wp_ret. apply Hwp.
Qed.

(** The length test and the counters of the case *)
Lemma body_assert cl : 0 < cl < ULLONG_MAX -> negb (cl =? 0) && negb (cl =? ULLONG_MAX) = true.
Proof.
  intros H. rewrite !(proj2 (Z.eqb_neq _ _)) by lia. reflexivity.
Qed.

(** A piece that does not reach the end of the body *)
Lemma body_more h cl :
  in_body h cl -> zlen data < cl ->
  http_parser_execute h log_settings data =
  Done (set_data (hp_data h ++ [E_data M_body data])
          (set_content_length (cl - zlen data) h)) (zlen data).
Proof.
  intros (Hok & Hst & Hcl & Hr) Hlt. pose proof data_len_pos as Hpos.
  pose proof (body_assert cl Hr) as Hass. rewrite ULLONG_MAX_val in Hr.
  destruct (enter_body h
    (fun h' n => h' = set_data (hp_data h ++ [E_data M_body data])
                        (set_content_length (cl - zlen data) h) /\ n = zlen data) Hok Hst)
    as (h' & n & He & -> & ->); [|exact He]. intros b.
  destruct h. cbn in Hok, Hst, Hcl. subst.
  apply wp_reexecute_S; [by intros l' ?|]. lsimpl_in_goal. cbn [switch]. unfold case_body_identity.
  assert (Z.min cl (u64 (zlen data - 0)) = zlen data) as Hmin by (rewrite u64_small; lia).
  repeat wp_step; rewrite ?Hmin in *; [done|breflect; rewrite u64_small in *; lia|].
  apply wp_main_loop_end; lsimpl_in_goal; [lia|]. unfold finish.
  repeat first [apply wp_bind, wp_get_mark; lsimpl_in_goal]. cbv zeta.
  apply wp_bind, wp_assert; [done|].
  do 3 (apply wp_bind, wp_log_no_mark; [done|done|]).
  apply wp_bind. unfold CALLBACK_DATA_NOADVANCE at 1.
  apply wp_bind, wp_get_p, (wp_log_data _ _ 0); lsimpl_in_goal; try done; try lia.
  unfold logged. lsimpl_in_goal. apply wp_bind, wp_log_no_mark; [done|done|].
  apply wp_RETURN. lsimpl_in_goal.
  rewrite u64_small by lia.
  replace (0 + (zlen data - 1) + 1 - 0 + 0) with (zlen data) by lia.
  by rewrite sub_bytes_all.
Qed.

(** The piece that ends it *)
Lemma body_last h :
  in_body h (zlen data) ->
  http_parser_execute h log_settings data =
  Done (set_data (hp_data h ++ [E_data M_body data; E_message_complete])
          (set_state (NEW_MESSAGE h) (set_content_length 0 h))) (zlen data).
Proof.
  intros (Hok & Hst & Hcl & Hr). pose proof data_len_pos as Hpos.
  pose proof (body_assert _ Hr) as Hass. rewrite ULLONG_MAX_val in Hr.
  destruct (enter_body h
    (fun h' n => h' = set_data (hp_data h ++ [E_data M_body data; E_message_complete])
                        (set_state (NEW_MESSAGE h) (set_content_length 0 h)) /\ n = zlen data)
    Hok Hst) as (h' & n & He & -> & ->); [|exact He]. intros b.
  destruct h. cbn in Hok, Hst, Hcl. subst.
  apply wp_reexecute_again. lsimpl_in_goal. cbn [switch]. unfold case_body_identity.
  assert (Z.min (zlen data) (u64 (zlen data - 0)) = zlen data) as Hmin by (rewrite u64_small; lia).
  repeat wp_step; rewrite ?Hmin in *; [done| |breflect; rewrite u64_small in *; lia].
  apply (wp_log_data _ _ 0); lsimpl_in_goal; try done; try lia.
  unfold logged. lsimpl_in_goal. apply wp_REEXECUTE. lsimpl_in_goal.
  apply wp_reexecute_S; [by intros l' ?|]. lsimpl_in_goal. cbn [switch]. unfold case_message_done.
  unfold complete_message. apply wp_bind, wp_bind, wp_gets. lsimpl_in_goal.
  set (hm := mk_http_parser _ _ _ _ _ _ _ _ _ _ _ _ _ _ _).
  set (h0 := mk_http_parser _ _ s_body_identity _ _ _ _ (zlen data) _ _ _ _ _ _ hp_data).
  assert (NEW_MESSAGE hm = NEW_MESSAGE h0) as ->
    by (apply NEW_MESSAGE_body; cbn; rewrite ?u64_small; rewrite ?ULLONG_MAX_val; lia || done).
  apply wp_bind, wp_UPDATE_STATE. unfold CALLBACK_NOTIFY. apply wp_bind, wp_get_p.
  apply (wp_log_notify _ E_message_complete); [done|done|]. unfold logged.
  subst hm. lsimpl_in_goal.
  replace (0 + (zlen data - 1) - 0 + 1) with (zlen data) by lia.
  rewrite sub_bytes_all, <- app_assoc. cbn [app]. rewrite u64_small, Z.sub_diag by lia.
  apply wp_bind, wp_gets. lsimpl_in_goal. apply wp_bind. destruct hp_upgrade.
  - apply wp_bind, wp_get_p, wp_RETURN. lsimpl_in_goal. cbn. split; [done|lia].
  - apply wp_ret, wp_break. cbn [on_break body_exits]. apply wp_main_loop_end; lsimpl_in_goal; [lia|].
    apply finish_no_marks; [done|by intros []|]. lsimpl_in_goal. by split.
Qed.

End Identity_body.

Lemma feed_body pieces : forall h cl,
  in_body h cl -> Forall (fun d => d <> []) pieces -> zlen (concat pieces) = cl ->
  exists h', feed h pieces = Some h'
    /\ hp_http_errno h' = HPE_OK /\ hp_state h' = NEW_MESSAGE h
    /\ hp_content_length h' = 0
    /\ hp_data h' = hp_data h ++ map (E_data M_body) pieces ++ [E_message_complete].
Proof.
  induction pieces as [|d pieces IH]; intros h cl Hin Hne Hcl.
  { destruct Hin as (_ & _ & _ & ?). unfold zlen in Hcl. cbn in Hcl. lia. }
  apply Forall_cons_1 in Hne as [Hd Hne]. unfold zlen in Hcl. cbn in Hcl. rewrite length_app in Hcl.
  pose proof Hin as (Hok & Hst & Hh & Hr). rewrite ULLONG_MAX_val in Hr.
  assert (zlen d < 2 ^ 64) as Hdl by (unfold zlen; lia). cbn [feed map app].
  destruct pieces as [|d' pieces].
  - cbn in Hcl. assert (cl = zlen d) as -> by (unfold zlen; lia).
    rewrite (body_last d Hdl Hd h Hin). rewrite Z.eqb_refl.
    destruct h. cbn in Hok, Hst, Hh |- *. subst. cbn. eexists. split; [reflexivity|]. auto.
  - pose proof (data_len_pos d' ltac:(by apply Forall_cons_1 in Hne as [? _])) as Hd'.
    assert (zlen d < cl) as Hlt by (unfold zlen in *; cbn in Hcl; rewrite length_app in Hcl; lia).
    rewrite (body_more d Hdl Hd h cl Hin Hlt), Z.eqb_refl.
    destruct h. cbn in Hok, Hst, Hh. subst hp_http_errno hp_state. cbn [andb bool_decide decide set_data set_content_length].
    set (h' := mk_http_parser _ _ _ _ _ _ _ _ _ _ _ _ _ _ _).
    destruct (IH h' (cl - zlen d)) as (h2 & Hfeed & Hok2 & Hst2 & Hcl2 & Hd2).
    + split_and!; try done; [lia|rewrite ULLONG_MAX_val; unfold zlen in *; lia].
    + done.
    + unfold zlen in *. lia.
    + exists h2. split; [exact Hfeed|]. split_and!; try done.
      * rewrite Hst2. apply NEW_MESSAGE_body; cbn; try done; rewrite ULLONG_MAX_val; unfold zlen in *; lia.
      * rewrite Hd2. cbn. by rewrite <- app_assoc.
Qed.

(** An identity body reaches the application complete and in order,
    however the input is cut into pieces: each piece is reported once as body
    data, and the message is complete after the last of the announced bytes
    and not before. *)
Theorem identity_body_delivered (h : http_parser (list event)) (pieces : list (list Z)) :
  hp_http_errno h = HPE_OK -> hp_state h = s_body_identity ->
  0 < hp_content_length h < ULLONG_MAX ->
  Forall (fun d => d <> []) pieces -> zlen (concat pieces) = hp_content_length h ->
  exists h', feed h pieces = Some h'
    /\ hp_http_errno h' = HPE_OK /\ hp_state h' = NEW_MESSAGE h
    /\ hp_data h' = hp_data h ++ map (E_data M_body) pieces ++ [E_message_complete].
Proof.
  intros Hok Hst Hr Hne Hcl.
  destruct (feed_body pieces h (hp_content_length h)) as (h' & ? & ? & ? & _ & ?);
    [by split_and!; destruct Hr|done|done|]. exists h'. by split_and!.
Qed.

Lemma identity_body_delivered_witness :
  let h := set_content_length 5 (set_state s_body_identity (blank ([] : list event))) in
  exists h', feed h [bytes_of_string "he"; bytes_of_string "llo"] = Some h'
    /\ hp_http_errno h' = HPE_OK /\ hp_state h' = NEW_MESSAGE h
    /\ hp_data h' = hp_data h ++ map (E_data M_body) [bytes_of_string "he"; bytes_of_string "llo"]
                      ++ [E_message_complete].
Proof.
  apply identity_body_delivered; try reflexivity.
  - split; reflexivity.
  - repeat constructor; discriminate.
Defined.

(** Whether a header value is accepted depends on how the input is cut:
    the loop over ordinary values tests only the first byte of a run, so a
    control byte is accepted inside one piece and rejected at the start of the
    next. *)
Theorem header_value_split_dependent :
  exists (whole : list Z) (first second : list Z),
    whole = first ++ second
    /\ (exists h, feed (http_parser_init (blank []) HTTP_REQUEST) [whole] = Some h)
    /\ feed (http_parser_init (blank []) HTTP_REQUEST) [first; second] = None.
Proof.
  exists (bytes_of_string "GET / HTTP/1.1" ++ [CR; LF] ++ bytes_of_string "X: ab" ++ [1; CR; LF]),
         (bytes_of_string "GET / HTTP/1.1" ++ [CR; LF] ++ bytes_of_string "X: ab"), [1; CR; LF].
  split; [reflexivity|]. split; [|vm_compute; reflexivity].
  eexists. vm_compute. reflexivity.
Qed.
