(* ===== verification/ByteBuffer.v ===== *)
(** * What the protocols rely on from a buffer

    The protocol code uses [IOBuffer] through a few operations; this file
    states them and their laws as a type class.  The protocol theorems are
    proved against the class; [IoBuffer] discharges it for the block store,
    and the plain list of bytes is the reference instance. *)

From S2P Require Import Prelude.

(** [St] is the memory buffers share, [B] a buffer in it. *)
Class ByteBuffer (St B : Type) := {
  bb_ok : St -> B -> Prop;
  bb_contents : St -> B -> list Z;
  (** the number of bytes that can still be appended before memory runs out *)
  bb_room : St -> Z;
  (** no byte has been taken from the front *)
  bb_fresh : B -> Prop;

  bb_empty : B;
  bb_append : list Z -> St -> B -> St * B;
  bb_append_move : B -> B -> B;
  bb_cut : Z -> St -> B -> B * list Z * Z;
  bb_copy_to : Z -> St -> B -> list Z * Z;
  bb_pop_front : Z -> B -> B * Z;
  bb_size : B -> Z
}.

Class ByteBufferLaws (St B : Type) `{ByteBuffer St B} : Prop := {
  bb_empty_ok st b : bb_ok st b -> bb_ok st bb_empty;
  bb_empty_contents st : bb_contents st bb_empty = [];
  bb_empty_fresh : bb_fresh bb_empty;

  bb_append_ok st b data : bb_ok st b -> zlen data <= bb_room st ->
    let '(st', b') := bb_append data st b in
    bb_ok st' b' /\ bb_contents st' b' = bb_contents st b ++ data
    /\ bb_room st' = bb_room st - zlen data
    /\ (bb_fresh b -> bb_fresh b')
    /\ (forall other, bb_ok st other ->
          bb_ok st' other /\ bb_contents st' other = bb_contents st other);

  bb_append_move_ok st other b : bb_ok st other -> bb_ok st b -> bb_fresh other ->
    bb_ok st (bb_append_move other b)
    /\ bb_contents st (bb_append_move other b) = bb_contents st b ++ bb_contents st other;

  bb_cut_ok st b n : bb_ok st b -> 0 <= n ->
    let '(b', bytes, size) := bb_cut n st b in
    bb_ok st b' /\ bytes = take (Z.to_nat n) (bb_contents st b)
    /\ size = Z.min n (zlen (bb_contents st b))
    /\ bb_contents st b' = drop (Z.to_nat n) (bb_contents st b);

  bb_copy_to_ok st b n : bb_ok st b -> 0 <= n ->
    let '(bytes, size) := bb_copy_to n st b in
    bytes = take (Z.to_nat n) (bb_contents st b)
    /\ size = Z.min n (zlen (bb_contents st b));

  bb_pop_front_ok st b n : bb_ok st b -> 0 <= n ->
    let '(b', size) := bb_pop_front n b in
    bb_ok st b' /\ size = Z.min n (zlen (bb_contents st b))
    /\ bb_contents st b' = drop (Z.to_nat n) (bb_contents st b);

  bb_size_ok st b : bb_ok st b -> bb_size b = zlen (bb_contents st b)
}.

(** ** The reference instance: a buffer is its bytes, the memory the number of
    bytes it still holds *)

#[global] Instance list_buffer : ByteBuffer Z (list Z) := {|
  bb_ok _ _ := True;
  bb_contents _ b := b;
  bb_room room := room;
  bb_fresh _ := True;
  bb_empty := [];
  bb_append data room b := (room - zlen data, b ++ data);
  bb_append_move other b := b ++ other;
  bb_cut n _ b := (drop (Z.to_nat n) b, take (Z.to_nat n) b, Z.min n (zlen b));
  bb_copy_to n _ b := (take (Z.to_nat n) b, Z.min n (zlen b));
  bb_pop_front n b := (drop (Z.to_nat n) b, Z.min n (zlen b));
  bb_size b := zlen b
|}.

#[global] Instance list_buffer_laws : ByteBufferLaws Z (list Z).
Proof. split; cbn; intros; split_and?; done. Qed.

(** ** Streams *)

(** What the serialiser of protocol buffers relies on: handing [data] over
    through a zero-copy stream on the buffer. [None] is undefined behaviour. *)
Class StreamBuffer (St B : Type) := { bb_stream_write : list Z -> St -> B -> option (St * B) }.

(** The bytes of a message arrive as if they were appended. Nothing is promised
    for a message of no bytes. *)
Class StreamBufferLaws (St B : Type) `{ByteBuffer St B} `{StreamBuffer St B} : Prop := {
  bb_stream_write_ok st b data :
    bb_ok st b -> data <> [] -> zlen data <= bb_room st -> zlen data < 2 ^ 63 ->
    exists st' b', bb_stream_write data st b = Some (st', b')
      /\ bb_ok st' b' /\ bb_contents st' b' = bb_contents st b ++ data
      /\ bb_room st' = bb_room st - zlen data
      /\ (bb_fresh b -> bb_fresh b')
      /\ (forall other, bb_ok st other ->
            bb_ok st' other /\ bb_contents st' other = bb_contents st other)
}.

#[global] Instance list_stream : StreamBuffer Z (list Z) := {|
  bb_stream_write data room b := match data with [] => None | _ => Some (room - zlen data, b ++ data) end
|}.

#[global] Instance list_stream_laws : StreamBufferLaws Z (list Z).
Proof. split. intros st b [|x data] _ Hne _ _; [done|]. by do 2 eexists. Qed.
