(* ===== verification/IoBuffer.v ===== *)
(** * Zero-copy buffers (src/common/io_buffer.h, src/common/io_buffer.cpp)

    An [IOBuffer] is a vector of slices of reference-counted blocks; blocks are
    shared between buffers and filled through a thread-local chain.  The model
    keeps the blocks of a thread in a store, with the chain and the number of
    allocations [malloc] will still grant; a buffer refers to them by key, so
    that two buffers alias a block exactly when the code's do.  Blocks whose
    count falls to zero stay in the store, where nothing refers to them.

    The file defines every operation of the class, an invariant of stores and
    buffers, and the refinement to sequences of bytes: each operation acts on
    [contents] as the corresponding list operation and leaves every other
    buffer's contents alone. *)

From stdpp Require Import gmap.
From S2P Require Import Prelude ByteBuffer.

(** ** Data *)

(** [struct Block]: its [data] array has [b_capacity] bytes *)
Record block := mk_block {
  b_next : option nat;
  b_size : Z;
  b_capacity : Z;
  b_data : list Z
}.

(** [struct IOBuffer::Slice] *)
Record slice := mk_slice { s_block : nat; s_offset : Z; s_length : Z }.

(** [class IOBuffer] *)
Record IOBuffer := mk_IOBuffer { ref : list slice; ref_offset : nat }.

(** The blocks of a thread, [s_tls_block_chain], the allocations that will
    succeed and the next key *)
Record store := mk_store {
  st_blocks : gmap nat block;
  st_tls : option nat;
  st_mem : nat;
  st_fresh : nat
}.

Definition BUFFER_DEFAULT_BLOCK_SIZE : Z := 8192.
Definition IO_BUFFER_DEFAULT_SLICE_REF_SIZE : nat := 4.

(** [offsetof(Block, data)]: a [std::shared_ptr] and two [uint32_t] *)
Definition offsetof_data : Z := 24.

Definition freeSpace (b : block) : Z := b_capacity b - b_size b.

(** [Block(hint_size)] on fresh memory, whose bytes the program never reads
    before it has written them *)
Definition new_block (hint_size : Z) : block :=
  let capacity := hint_size - offsetof_data in
  mk_block None 0 capacity (replicate (Z.to_nat capacity) 0).

Definition set_block (k : nat) (b : block) (st : store) : store :=
  mk_store (<[k := b]> (st_blocks st)) (st_tls st) (st_mem st) (st_fresh st).

Definition set_tls (t : option nat) (st : store) : store :=
  mk_store (st_blocks st) t (st_mem st) (st_fresh st).

Definition get_block (st : store) (k : nat) : option block := st_blocks st !! k.

(** [createBlock(size)]: null when [malloc] fails *)
Definition createBlock (size : Z) (st : store) : option nat * store :=
  match st_mem st with
  | O => (None, st)
  | S mem =>
      let k := st_fresh st in
      (Some k, mk_store (<[k := new_block size]> (st_blocks st)) (st_tls st) mem (S k))
  end.

(** The loop of [shareBlockFromTLSChain]: drop full blocks from the chain *)
Fixpoint share_loop (fuel : nat) (st : store) : option nat * store :=
  match fuel with
  | O => (None, st)
  | S fuel =>
      match st_tls st with
      | None => (None, st)
      | Some k =>
          match get_block st k with
          | None => (None, st)
          | Some b =>
              if 0 <? freeSpace b then (Some k, st)
              else share_loop fuel (set_tls (b_next b) st)
          end
      end
  end.

Definition chain_fuel (st : store) : nat := S (size (st_blocks st)).

Definition shareBlockFromTLSChain (st : store) : option nat * store :=
  match share_loop (chain_fuel st) st with
  | (Some k, st) => (Some k, st)
  | (None, st) =>
      let '(k, st) := createBlock BUFFER_DEFAULT_BLOCK_SIZE st in
      (k, set_tls k st)
  end.

(** [memmove(block->data + at, bytes, n)] *)
Definition write_bytes (at_ : Z) (bytes : list Z) (d : list Z) : list Z :=
  take (Z.to_nat at_) d ++ bytes ++ drop (Z.to_nat at_ + length bytes) d.

(** The [do { } while (0)] of the append functions: extend the last slice when
    it ends where the block's free space begins, else add a slice *)
Definition extend_or_emplace (buf : IOBuffer) (k : nat) (size n : Z) : IOBuffer :=
  let emplace := mk_IOBuffer (ref buf ++ [mk_slice k size n]) (ref_offset buf) in
  if (ref_offset buf <? length (ref buf))%nat then
    match list.last (ref buf) with
    | Some back =>
        if bool_decide (s_block back = k) && (s_offset back + s_length back =? size) then
          mk_IOBuffer (take (length (ref buf) - 1) (ref buf)
                         ++ [mk_slice (s_block back) (s_offset back) (s_length back + n)])
            (ref_offset buf)
        else emplace
    | None => emplace
    end
  else emplace.

(** Copy [bytes], which fit, into the free space of block [k]. *)
Definition push_bytes (k : nat) (b : block) (bytes : list Z) (st : store) (buf : IOBuffer)
    : store * IOBuffer :=
  let n := zlen bytes in
  (set_block k (mk_block (b_next b) (b_size b + n) (b_capacity b)
                  (write_bytes (b_size b) bytes (b_data b))) st,
   extend_or_emplace buf k (b_size b) n).

(** [append(char c)] *)
Definition append_char (c : Z) (st : store) (buf : IOBuffer) : store * IOBuffer :=
  let '(k, st) := shareBlockFromTLSChain st in
  match k with
  | None => (st, buf)
  | Some k =>
      match get_block st k with
      | None => (st, buf)
      | Some b => push_bytes k b [c] st buf
      end
  end.

(** The loop of [append(const void*, size_t)]: [rest] is still to be copied *)
Fixpoint append_loop (fuel : nat) (rest : list Z) (st : store) (buf : IOBuffer)
    : store * IOBuffer :=
  match fuel with
  | O => (st, buf)
  | S fuel =>
      match rest with
      | [] => (st, buf)
      | _ =>
          let '(k, st) := shareBlockFromTLSChain st in
          match k with
          | None => (st, buf)
          | Some k =>
              match get_block st k with
              | None => (st, buf)
              | Some b =>
                  let push_size := Z.to_nat (Z.min (zlen rest) (freeSpace b)) in
                  let '(st, buf) := push_bytes k b (take push_size rest) st buf in
                  append_loop fuel (drop push_size rest) st buf
              end
          end
      end
  end.

(** [append(const void *data, size_t count)] *)
Definition append (data : list Z) (st : store) (buf : IOBuffer) : store * IOBuffer :=
  append_loop (length data) data st buf.

(** *** Reading and cutting *)

Definition slice_bytes (st : store) (s : slice) : list Z :=
  match get_block st (s_block s) with
  | Some b => sub_bytes (b_data b) (s_offset s) (s_length s)
  | None => []
  end.

(** [length()] *)
Definition length_ (buf : IOBuffer) : Z :=
  foldr (fun s n => s_length s + n) 0 (drop (ref_offset buf) (ref buf)).

(** [to_string()] *)
Definition to_string (st : store) (buf : IOBuffer) : list Z :=
  flat_map (slice_bytes st) (drop (ref_offset buf) (ref buf)).

(** [tryReleaseBlock()] *)
Definition tryReleaseBlock (buf : IOBuffer) : IOBuffer :=
  if (IO_BUFFER_DEFAULT_SLICE_REF_SIZE <? ref_offset buf)%nat
  then mk_IOBuffer (drop (ref_offset buf) (ref buf)) 0
  else buf.

(** The loop shared by [pop_front] and the three [cut] functions, over the
    slices from [idx] on: how many of them are consumed whole, the slice that
    is left of the next one, the slices handed out and the number of bytes *)
Fixpoint cut_slices (n cur_size : Z) (slices : list slice) : nat * list slice * list slice * Z :=
  match slices with
  | [] => (O, [], [], cur_size)
  | s :: rest =>
      if cur_size <? n then
        let cut_size := n - cur_size in
        if cut_size <? s_length s then
          (O, mk_slice (s_block s) (s_offset s + cut_size) (s_length s - cut_size) :: rest,
           [mk_slice (s_block s) (s_offset s) cut_size], cur_size + cut_size)
        else
          let '(k, remaining, out, size) := cut_slices n (cur_size + s_length s) rest in
          (S k, s :: remaining, s :: out, size)
      else (O, slices, [], cur_size)
  end.

(** The buffer after the loop, and what was cut off *)
Definition cut_front (n : Z) (buf : IOBuffer) : IOBuffer * list slice * Z :=
  let '(k, remaining, out, size) := cut_slices n 0 (drop (ref_offset buf) (ref buf)) in
  (tryReleaseBlock (mk_IOBuffer (take (ref_offset buf) (ref buf) ++ remaining)
                      (ref_offset buf + k)), out, size).

Definition pop_front (n : Z) (buf : IOBuffer) : IOBuffer * Z :=
  let '(buf, _, size) := cut_front n buf in (buf, size).

(** [cut(IOBuffer *out, size_t n)] *)
Definition cut_buffer (n : Z) (buf out : IOBuffer) : IOBuffer * IOBuffer * Z :=
  let '(buf, slices, size) := cut_front n buf in
  (buf, mk_IOBuffer (ref out ++ slices) (ref_offset out), size).

(** [cut(void *out, size_t n)]: the bytes written to [out] *)
Definition cut (n : Z) (st : store) (buf : IOBuffer) : IOBuffer * list Z * Z :=
  let '(buf, slices, size) := cut_front n buf in (buf, flat_map (slice_bytes st) slices, size).

(** [cut(std::string &out, size_t n)] *)
Definition cut_string (n : Z) (out : list Z) (st : store) (buf : IOBuffer)
    : IOBuffer * list Z * Z :=
  if n =? 0 then (buf, out, 0)
  else
    let '(buf, bytes, size) := cut (Z.min n (length_ buf)) st buf in (buf, out ++ bytes, size).

(** [copy_to(void *out, size_t n)] *)
Definition copy_to (n : Z) (st : store) (buf : IOBuffer) : list Z * Z :=
  let '(_, _, out, size) := cut_slices n 0 (drop (ref_offset buf) (ref buf)) in
  (flat_map (slice_bytes st) out, size).

(** The loop of [pop_back], over the slices from the last one on *)
Fixpoint pop_back_slices (n cur_size : Z) (rslices : list slice) : list slice * Z :=
  match rslices with
  | [] => ([], cur_size)
  | s :: rest =>
      if cur_size <? n then
        let pop_size := n - cur_size in
        if pop_size <? s_length s then
          (mk_slice (s_block s) (s_offset s) (s_length s - pop_size) :: rest,
           cur_size + pop_size)
        else pop_back_slices n (cur_size + s_length s) rest
      else (rslices, cur_size)
  end.

Definition pop_back (n : Z) (buf : IOBuffer) : IOBuffer * Z :=
  let '(rleft, size) := pop_back_slices n 0 (rev (drop (ref_offset buf) (ref buf))) in
  (mk_IOBuffer (take (ref_offset buf) (ref buf) ++ rev rleft) (ref_offset buf), size).

(** [append(const IOBuffer&)] and [append(IOBuffer&&)]: every slice of
    [other], the consumed ones included *)
Definition append_copy (other buf : IOBuffer) : IOBuffer :=
  mk_IOBuffer (ref buf ++ ref other) (ref_offset buf).

Definition clear : IOBuffer := mk_IOBuffer [] 0.

Definition append_move (other buf : IOBuffer) : IOBuffer * IOBuffer :=
  (append_copy other buf, clear).

(** [slice(i)]: [None] is an access past the vector *)
Definition slice_at (i : nat) (st : store) (buf : IOBuffer) : option (list Z) :=
  slice_bytes st <$> ref buf !! (ref_offset buf + i)%nat.

Definition slice_num (buf : IOBuffer) : nat := length (ref buf) - ref_offset buf.

Example append_smoke :
  let st := mk_store ∅ None 10 0 in
  let '(st, b1) := append (bytes_of_string "hello ") st clear in
  let '(st, b2) := append (bytes_of_string "other") st clear in
  let '(st, b1) := append (bytes_of_string "world") st b1 in
  to_string st b1 = bytes_of_string "hello world" /\ to_string st b2 = bytes_of_string "other"
  /\ length (ref b1) = 2%nat.
Proof. vm_compute. auto. Qed.

(** ** Invariants *)

(** The capacity of a block of the default size *)
Definition default_capacity : Z := BUFFER_DEFAULT_BLOCK_SIZE - offsetof_data.

Definition block_ok (b : block) : Prop :=
  (0 <= b_size b <= b_capacity b /\ b_capacity b <= default_capacity)
  /\ zlen (b_data b) = b_capacity b.

(** Every block is within its capacity; the chain has at most one block. *)
Record store_ok (st : store) : Prop := {
  so_block : forall k b, get_block st k = Some b -> block_ok b /\ (k < st_fresh st)%nat;
  so_tls : forall k, st_tls st = Some k ->
           exists b, get_block st k = Some b /\ b_next b = None
}.

Definition slice_ok (st : store) (s : slice) : Prop :=
  exists b, get_block st (s_block s) = Some b
            /\ 0 <= s_offset s /\ 0 <= s_length s /\ s_offset s + s_length s <= b_size b.

Definition buf_ok (st : store) (buf : IOBuffer) : Prop :=
  Forall (slice_ok st) (ref buf) /\ (ref_offset buf <= length (ref buf))%nat.

(** The bytes of a buffer *)
Definition contents (st : store) (buf : IOBuffer) : list Z := to_string st buf.

(** Later stores keep every written byte. *)
Definition store_le (st st' : store) : Prop :=
  forall k b, get_block st k = Some b ->
    exists b', get_block st' k = Some b' /\ b_size b <= b_size b'
               /\ take (Z.to_nat (b_size b)) (b_data b) = take (Z.to_nat (b_size b)) (b_data b').

#[global] Instance store_le_preorder : PreOrder store_le.
Proof.
  split.
  - intros st k b Hb. exists b. split_and!; [done|lia|done].
  - intros st1 st2 st3 H12 H23 k b Hb. destruct (H12 k b Hb) as (b2 & Hb2 & Hs2 & Hd2).
    destruct (H23 k b2 Hb2) as (b3 & Hb3 & Hs3 & Hd3). exists b3. split_and!; [done|lia|].
    rewrite Hd2. apply (f_equal (take (Z.to_nat (b_size b)))) in Hd3.
    rewrite !take_take, !Nat.min_l in Hd3 by lia. done.
Qed.

Lemma sub_bytes_prefix (d d' : list Z) (m from n : Z) :
  0 <= from -> 0 <= n -> from + n <= m ->
  take (Z.to_nat m) d = take (Z.to_nat m) d' -> sub_bytes d from n = sub_bytes d' from n.
Proof.
  intros Hf Hn Hm Ht. unfold sub_bytes.
  assert (forall l : list Z, take (Z.to_nat n) (drop (Z.to_nat from) l)
    = drop (Z.to_nat from) (take (Z.to_nat from + Z.to_nat n) (take (Z.to_nat m) l))) as Heq.
  { intros l. rewrite take_take, Nat.min_l by lia. rewrite <- take_drop_commute. done. }
  by rewrite !Heq, Ht.
Qed.

Lemma slice_le st st' s :
  store_le st st' -> slice_ok st s ->
  slice_ok st' s /\ slice_bytes st' s = slice_bytes st s.
Proof.
  intros Hle (b & Hb & Ho & Hl & Hs). destruct (Hle _ _ Hb) as (b' & Hb' & Hsz & Hd).
  split; [exists b'; split_and!; done || lia|]. unfold slice_bytes. rewrite Hb, Hb'.
  symmetry. by eapply sub_bytes_prefix.
Qed.

Lemma slices_le st st' l :
  store_le st st' -> Forall (slice_ok st) l ->
  Forall (slice_ok st') l /\ flat_map (slice_bytes st') l = flat_map (slice_bytes st) l.
Proof.
  intros Hle. induction 1 as [|s l Hs _ IH]; [done|]. destruct IH as [IH1 IH2].
  destruct (slice_le _ _ _ Hle Hs) as [Hs' He]. split; [by constructor|]. cbn. by rewrite He, IH2.
Qed.

(** Buffers keep their contents in later stores. *)
Lemma contents_le st st' buf :
  store_le st st' -> buf_ok st buf -> buf_ok st' buf /\ contents st' buf = contents st buf.
Proof.
  intros Hle [Hf Ho]. destruct (slices_le _ _ _ Hle Hf) as [Hf' _]. split; [done|].
  unfold contents, to_string. by apply slices_le; [|apply Forall_drop].
Qed.

Lemma slice_bytes_length st s : store_ok st -> slice_ok st s -> zlen (slice_bytes st s) = s_length s.
Proof.
  intros Hst (b & Hb & Ho & Hl & Hs). unfold slice_bytes. rewrite Hb.
  destruct (so_block st Hst _ _ Hb) as [[Hsz Hlen] _].
  apply length_sub_bytes; lia.
Qed.

(** *** The chain *)

Definition room (st : store) : Z :=
  match st_tls st with
  | Some k => match get_block st k with Some b => freeSpace b | None => 0 end
  | None => 0
  end + Z.of_nat (st_mem st) * default_capacity.

Lemma get_set_block st k b k' :
  get_block (set_block k b st) k' = if decide (k' = k) then Some b else get_block st k'.
Proof.
  unfold get_block, set_block. cbn. case_decide as Hd; [subst; by rewrite lookup_insert_eq|].
  by rewrite lookup_insert_ne.
Qed.

Lemma get_block_size st k b : get_block st k = Some b -> exists m, size (st_blocks st) = S m.
Proof.
  intros Hb. destruct (size (st_blocks st)) eqn:E; [|eauto]. apply map_size_empty_iff in E.
  unfold get_block in Hb. rewrite E in Hb. by rewrite lookup_empty in Hb.
Qed.

Lemma create_fresh size st k st' :
  store_ok st -> createBlock size st = (Some k, st') -> get_block st k = None.
Proof.
  intros Hst. unfold createBlock. destruct (st_mem st); intros H; simplify_eq.
  destruct (get_block st (st_fresh st)) eqn:E; [|done]. apply (so_block st Hst) in E. lia.
Qed.

Lemma create_other size st k st' k0 :
  createBlock size st = (Some k, st') -> k0 <> k -> get_block st' k0 = get_block st k0.
Proof.
  unfold createBlock. destruct (st_mem st); intros H Hne; simplify_eq. unfold get_block. cbn.
  by rewrite lookup_insert_ne.
Qed.

Lemma create_ok size st k st' :
  store_ok st -> offsetof_data <= size <= BUFFER_DEFAULT_BLOCK_SIZE ->
  createBlock size st = (k, st') ->
  match k with
  | None => st_mem st = O /\ st' = st
  | Some k => store_ok st' /\ store_le st st' /\ st_tls st' = st_tls st
              /\ get_block st' k = Some (new_block size) /\ st_mem st = S (st_mem st')
  end.
Proof.
  intros Hst Hsize Hc. destruct k as [k|].
  2:{ unfold createBlock in Hc. destruct (st_mem st); by simplify_eq. }
  pose proof (create_fresh _ _ _ _ Hst Hc) as Hf. unfold createBlock in Hc.
  destruct (st_mem st) as [|mem]; simplify_eq.
  assert (forall k, get_block (mk_store (<[st_fresh st := new_block size]> (st_blocks st))
     (st_tls st) mem (S (st_fresh st))) k
     = if decide (k = st_fresh st) then Some (new_block size) else get_block st k) as Hget
    by (intros; apply (get_set_block st)).
  split_and!; try done; [|..].
  - split.
    + intros k b. rewrite Hget. case_decide; intros Hb; simplify_eq.
      * split; [|cbn; lia]. split; cbn; [unfold default_capacity; lia|]. unfold zlen. rewrite length_replicate. lia.
      * apply (so_block st Hst) in Hb as [? ?]. split; [done|cbn; lia].
    + intros k Hk. destruct (so_tls st Hst k Hk) as (b & Hb & Hn). exists b. rewrite Hget.
      rewrite decide_False; [done|]. intros ->. congruence.
  - intros k b Hb. exists b. rewrite Hget. rewrite decide_False by congruence. split_and!; done || lia.
  - rewrite Hget. by rewrite decide_True.
Qed.

Lemma set_tls_ok st t :
  store_ok st -> (forall k, t = Some k -> exists b, get_block st k = Some b /\ b_next b = None) ->
  store_ok (set_tls t st).
Proof. intros [Hb _] Ht. split; [exact Hb|exact Ht]. Qed.

(** [shareBlockFromTLSChain] answers a block with free space, or [malloc]
    failed. *)
Lemma share_ok st k st' :
  store_ok st -> shareBlockFromTLSChain st = (k, st') ->
  store_ok st' /\ store_le st st' /\ room st' = room st
  /\ match k with
     | Some k => st_tls st' = Some k
                 /\ exists b, get_block st' k = Some b /\ 0 < freeSpace b
     | None => room st = 0
     end.
Proof.
  intros Hst. unfold shareBlockFromTLSChain.
  assert (exists k0 st0, share_loop (chain_fuel st) st = (k0, st0) /\
    match k0 with
    | Some k => st0 = st /\ st_tls st = Some k
                /\ exists b, get_block st k = Some b /\ 0 < freeSpace b
    | None => st0 = set_tls None st /\ room st = Z.of_nat (st_mem st) * default_capacity
    end) as (k0 & st0 & -> & Hcase).
  { unfold chain_fuel. destruct (st_tls st) as [kt|] eqn:Et.
    - destruct (so_tls st Hst kt Et) as (b & Hb & Hn).
      destruct (get_block_size st kt b Hb) as [m Hm].
      rewrite Hm. cbn [share_loop]. rewrite Et, Hb.
      destruct (Z.ltb_spec 0 (freeSpace b)) as [Hfree|Hfull];
        [exists (Some kt), st; split_and!; eauto|].
      rewrite Hn. cbn. do 2 eexists. split; [reflexivity|]. split; [done|].
      unfold room. rewrite Et, Hb. destruct (so_block st Hst _ _ Hb) as [[Hs _] _].
      unfold freeSpace in *. lia.
    - cbn [share_loop]. rewrite Et. do 2 eexists. split; [reflexivity|]. split.
      + destruct st; cbn in *; by subst.
      + unfold room. rewrite Et. lia. }
  destruct k0 as [k0|].
  { destruct Hcase as (-> & Ht & Hb). intros H. simplify_eq. split_and!; done. }
  destruct Hcase as [-> Hroom].
  destruct (createBlock BUFFER_DEFAULT_BLOCK_SIZE (set_tls None st)) as [k1 st1] eqn:Ec.
  apply create_ok in Ec; [|by apply set_tls_ok|done]. intros H. simplify_eq.
  destruct k as [k|].
  - destruct Ec as (Hst1 & Hle & Ht & Hb & Hmem). cbn in Hmem. split_and!.
    + apply set_tls_ok; [done|]. intros k' Hk'. simplify_eq. exists (new_block BUFFER_DEFAULT_BLOCK_SIZE).
      by split.
    + exact Hle.
    + rewrite Hroom. unfold room. cbn [st_tls set_tls st_mem].
      change (get_block (set_tls (Some k) st1) k) with (get_block st1 k). rewrite Hb, Hmem.
      change (freeSpace (new_block BUFFER_DEFAULT_BLOCK_SIZE)) with default_capacity. lia.
    + done.
    + exists (new_block BUFFER_DEFAULT_BLOCK_SIZE). by split.
  - destruct Ec as [Hmem ->]. cbn in Hmem. split_and!; try done.
    + apply set_tls_ok; [|done]. by apply set_tls_ok.
    + intros k b Hb. exists b. split_and!; done || lia.
    + rewrite Hroom, Hmem. lia.
Qed.

(** *** Appending *)

Lemma write_bytes_length at_ bytes d :
  0 <= at_ -> at_ + zlen bytes <= zlen d -> zlen (write_bytes at_ bytes d) = zlen d.
Proof.
  unfold write_bytes, zlen. intros. rewrite !length_app, length_take, length_drop. lia.
Qed.

Lemma write_bytes_prefix at_ bytes d :
  0 <= at_ <= zlen d -> take (Z.to_nat at_) (write_bytes at_ bytes d) = take (Z.to_nat at_) d.
Proof.
  unfold write_bytes, zlen. intros H. rewrite take_app_le by (rewrite length_take; lia).
  rewrite take_take. by rewrite Nat.min_id.
Qed.

(** Reading back what was written, with the bytes before it *)
Lemma write_bytes_read at_ bytes d from n :
  0 <= from -> 0 <= n -> from + n = at_ -> at_ + zlen bytes <= zlen d ->
  sub_bytes (write_bytes at_ bytes d) from (n + zlen bytes) = sub_bytes d from n ++ bytes.
Proof.
  intros Hf Hn Hat Hlen. subst at_. unfold sub_bytes, write_bytes, zlen in *.
  rewrite drop_app_le by (rewrite length_take; lia).
  replace (Z.to_nat (n + Z.of_nat (length bytes)))
    with (length (drop (Z.to_nat from) (take (Z.to_nat (from + n)) d)) + length bytes)%nat
    by (rewrite length_drop, length_take; lia).
  rewrite take_app_add, take_app_length. f_equal.
  rewrite Z2Nat.inj_add by lia. by rewrite take_drop_commute.
Qed.

Lemma flat_map_snoc {A B} (f : A -> list B) l x : flat_map f (l ++ [x]) = flat_map f l ++ f x.
Proof. rewrite flat_map_app. cbn. by rewrite app_nil_r. Qed.

Lemma to_string_snoc st r off s :
  (off <= length r)%nat ->
  to_string st (mk_IOBuffer (r ++ [s]) off)
  = to_string st (mk_IOBuffer r off) ++ slice_bytes st s.
Proof.
  intros H. unfold to_string. cbn. rewrite drop_app_le by done. apply flat_map_snoc.
Qed.

Lemma extend_or_emplace_ok st k b size n buf bytes :
  buf_ok st buf -> get_block st k = Some b -> 0 <= size -> 0 <= n -> size + n <= b_size b ->
  (forall from m, 0 <= from -> 0 <= m -> from + m = size ->
     sub_bytes (b_data b) from (m + n) = sub_bytes (b_data b) from m ++ bytes) ->
  let buf' := extend_or_emplace buf k size n in
  buf_ok st buf' /\ contents st buf' = contents st buf ++ bytes.
Proof.
  intros [Hf Ho] Hb Hs Hn Hfit Hread buf'.
  assert (slice_ok st (mk_slice k size n)) as Hnew by (exists b; by split_and!).
  assert (slice_bytes st (mk_slice k size n) = bytes) as Hnewb.
  { unfold slice_bytes. cbn [s_block s_offset s_length]. rewrite Hb. specialize (Hread size 0 Hs ltac:(lia) ltac:(lia)).
    rewrite Z.add_0_l in Hread. rewrite Hread. unfold sub_bytes. by cbn. }
  assert (let e := mk_IOBuffer (ref buf ++ [mk_slice k size n]) (ref_offset buf) in
          buf_ok st e /\ contents st e = contents st buf ++ bytes) as Hemplace.
  { split.
    - split; cbn; [apply Forall_app; by split; [|constructor]|rewrite length_app; lia].
    - unfold contents. rewrite to_string_snoc by done. rewrite Hnewb. by destruct buf. }
  subst buf'. unfold extend_or_emplace. destruct (Nat.ltb_spec (ref_offset buf) (length (ref buf))) as [Hlt|];
    [|exact Hemplace].
  destruct (list.last (ref buf)) as [back|] eqn:El; [|exact Hemplace].
  destruct (bool_decide (s_block back = k) && _) eqn:Ec; [|exact Hemplace].
  breflect. apply bool_decide_eq_true in H. subst k. clear Hemplace Hnew Hnewb.
  apply last_Some in El as [init El]. destruct buf as [rf off]; cbn in *. subst rf.
  rewrite length_app in *. cbn [length] in *.
  replace (length init + 1 - 1)%nat with (length init) by lia. rewrite take_app_length.
  apply Forall_app in Hf as [Hi [Hback _]%Forall_cons_1].
  destruct Hback as (b' & Hb' & Hb1 & Hb2 & Hb3). assert (b' = b) as -> by congruence.
  split.
  - split; cbn; [|rewrite length_app; cbn; lia]. apply Forall_app; split; [done|].
    constructor; [|constructor]. exists b. cbn. split_and!; done || lia.
  - unfold contents, to_string. cbn [ref ref_offset].
    rewrite !drop_app_le by lia. rewrite !flat_map_snoc.
    rewrite <- app_assoc. f_equal. unfold slice_bytes. cbn [s_block s_offset s_length]. rewrite Hb.
    apply Hread; lia.
Qed.

(** Block [b] with [bytes] copied to its free space *)
Definition filled (b : block) (bytes : list Z) : block :=
  mk_block (b_next b) (b_size b + zlen bytes) (b_capacity b) (write_bytes (b_size b) bytes (b_data b)).

Lemma fill_block_ok k b bytes st :
  store_ok st -> get_block st k = Some b -> zlen bytes <= freeSpace b ->
  let st' := set_block k (filled b bytes) st in
  store_ok st' /\ store_le st st' /\ get_block st' k = Some (filled b bytes)
  /\ forall from m, 0 <= from -> 0 <= m -> from + m = b_size b ->
     sub_bytes (b_data (filled b bytes)) from (m + zlen bytes)
     = sub_bytes (b_data (filled b bytes)) from m ++ bytes.
Proof.
  intros Hst Hb Hfit st'. destruct (so_block st Hst _ _ Hb) as [[Hsz Hlen] Hfresh].
  unfold freeSpace in Hfit. pose proof (zlen_nonneg bytes) as Hn. split_and!; [split|..].
  - intros k0 b0. unfold st'. rewrite get_set_block. case_decide; intros H0; simplify_eq.
    + split; [|done]. split; cbn; [lia|]. rewrite write_bytes_length by lia. done.
    + by apply (so_block st Hst).
  - intros k0 Hk0. cbn in Hk0. destruct (so_tls st Hst k0 Hk0) as (b0 & Hb0 & Hn0).
    unfold st'. rewrite get_set_block. case_decide; [|eauto]. eexists. split; [done|]. cbn. congruence.
  - intros k0 b0 Hb0. unfold st'. rewrite get_set_block. case_decide; [subst k0|].
    + simplify_eq. eexists. split_and!; [done|cbn; lia|]. cbn. by rewrite write_bytes_prefix by lia.
    + exists b0. split_and!; done || lia.
  - unfold st'. rewrite get_set_block. by rewrite decide_True.
  - intros from m ? ? ?. cbn. rewrite write_bytes_read by lia. f_equal.
    eapply sub_bytes_prefix; [done|done| |symmetry; apply write_bytes_prefix]; lia.
Qed.

Lemma room_fill k b bytes st :
  st_tls st = Some k -> get_block st k = Some b ->
  room (set_block k (filled b bytes) st) = room st - zlen bytes.
Proof.
  intros Ht Hb. unfold room. change (st_tls (set_block k (filled b bytes) st)) with (st_tls st).
  rewrite Ht, Hb, get_set_block, decide_True by done.
  change (st_mem (set_block k (filled b bytes) st)) with (st_mem st). unfold freeSpace. cbn. lia.
Qed.

Lemma push_bytes_ok k b bytes st buf st' buf' :
  store_ok st -> buf_ok st buf -> get_block st k = Some b -> st_tls st = Some k ->
  zlen bytes <= freeSpace b -> push_bytes k b bytes st buf = (st', buf') ->
  store_ok st' /\ store_le st st' /\ room st' = room st - zlen bytes
  /\ buf_ok st' buf' /\ contents st' buf' = contents st buf ++ bytes.
Proof.
  intros Hst Hbuf Hb Ht Hfit Hpush. unfold push_bytes in Hpush. simplify_eq.
  destruct (so_block st Hst _ _ Hb) as [[Hsz Hlen] Hfresh]. pose proof (zlen_nonneg bytes) as Hn.
  destruct (fill_block_ok k b bytes st Hst Hb Hfit) as (Hst' & Hle & Hb' & Hread).
  change (mk_block _ _ _ _) with (filled b bytes). set (st' := set_block _ _ _) in *.
  destruct (contents_le _ _ _ Hle Hbuf) as [Hbuf' Hc'].
  destruct (extend_or_emplace_ok st' k (filled b bytes) (b_size b) (zlen bytes) buf bytes)
    as [Hb2 Hc2]; try done; cbn; try lia.
  split_and!; try done.
  - by apply room_fill.
  - by rewrite Hc2, Hc'.
Qed.

Lemma room_nonneg st : store_ok st -> 0 <= room st.
Proof.
  intros Hst. unfold room, default_capacity, BUFFER_DEFAULT_BLOCK_SIZE, offsetof_data.
  destruct (st_tls st) as [k|]; [|lia]. destruct (get_block st k) as [b|] eqn:Eb; [|lia].
  apply (so_block st Hst) in Eb as [[? _] _]. unfold freeSpace. lia.
Qed.

Lemma append_loop_ok fuel : forall rest st buf st' buf',
  store_ok st -> buf_ok st buf -> (length rest <= fuel)%nat ->
  append_loop fuel rest st buf = (st', buf') ->
  let n := Z.min (zlen rest) (room st) in
  store_ok st' /\ store_le st st' /\ room st' = room st - n
  /\ buf_ok st' buf' /\ contents st' buf' = contents st buf ++ take (Z.to_nat n) rest.
Proof.
  induction fuel as [|fuel IH]; intros rest st buf st' buf' Hst Hbuf Hfuel Hrun n;
    pose proof (room_nonneg st Hst) as Hroom; cbn [append_loop] in Hrun.
  { destruct rest; [|cbn in Hfuel; lia]. simplify_eq. subst n.
    rewrite Z.min_l by done. change (zlen (@nil Z)) with 0. rewrite take_nil, app_nil_r.
    split_and!; done || lia. }
  destruct rest as [|x rest0].
  { simplify_eq. subst n. rewrite Z.min_l by done. change (zlen (@nil Z)) with 0.
    rewrite take_nil, app_nil_r. split_and!; done || lia. }
  set (rest := x :: rest0) in *. assert (1 <= zlen rest) as Hpos by (unfold zlen; cbn; lia).
  destruct (shareBlockFromTLSChain st) as [[k|] st1] eqn:Es.
  2:{ apply share_ok in Es as (Hst1 & Hle1 & Hr1 & Hr0); [|done]. simplify_eq.
      destruct (contents_le _ _ _ Hle1 Hbuf) as [Hbuf1 ->]. subst n. rewrite Hr0, Z.min_r by lia.
      cbn [Z.to_nat take]. rewrite app_nil_r. split_and!; done || lia. }
  apply share_ok in Es as (Hst1 & Hle1 & Hr1 & Ht1 & b & Hb & Hfree); [|done].
  rewrite Hb in Hrun.
  destruct (push_bytes _ _ _ _ _) as [st2 buf2] eqn:Ep.
  destruct (contents_le _ _ _ Hle1 Hbuf) as [Hbuf1 Hc1].
  set (m := Z.min (zlen rest) (freeSpace b)) in *.
  assert (zlen (take (Z.to_nat m) rest) = m) as Htl
    by (unfold zlen in *; rewrite length_take; lia).
  apply push_bytes_ok in Ep as (Hst2 & Hle2 & Hr2 & Hbuf2 & Hc2); try done; [|lia].
  assert (freeSpace b <= room st1) as Hfr.
  { unfold room. rewrite Ht1, Hb. unfold default_capacity, BUFFER_DEFAULT_BLOCK_SIZE, offsetof_data. lia. }
  assert (zlen (drop (Z.to_nat m) rest) = zlen rest - m) as Hdl
    by (unfold zlen in *; rewrite length_drop; lia).
  apply IH in Hrun as (Hst3 & Hle3 & Hr3 & Hbuf3 & Hc3); try done.
  2:{ unfold zlen in *. cbn in Hfuel. rewrite length_drop. cbn [length rest]. subst m rest. cbn [length] in *. lia. }
  rewrite Hdl, Hr2, Htl in *. split_and!; [done| |lia|done|].
  - by do 2 (etrans; [done|]).
  - rewrite Hc3, Hc2, Hc1, <- app_assoc. f_equal. subst n.
    replace (Z.to_nat (Z.min (zlen rest) (room st)))
      with (Z.to_nat m + Z.to_nat (Z.min (zlen rest - m) (room st1 - m)))%nat by lia.
    apply take_take_drop.
Qed.

(** *** Cutting *)

Definition slices_len (l : list slice) : Z := foldr (fun s n => s_length s + n) 0 l.

Lemma flat_map_length st l :
  store_ok st -> Forall (slice_ok st) l -> zlen (flat_map (slice_bytes st) l) = slices_len l.
Proof.
  intros Hst. induction 1 as [|s l Hs _ IH]; [done|]. cbn. unfold zlen. rewrite length_app.
  pose proof (slice_bytes_length st s Hst Hs). unfold zlen, slices_len in *. lia.
Qed.

Lemma slice_split st s m :
  slice_ok st s -> 0 <= m <= s_length s ->
  let s1 := mk_slice (s_block s) (s_offset s) m in
  let s2 := mk_slice (s_block s) (s_offset s + m) (s_length s - m) in
  slice_ok st s1 /\ slice_ok st s2
  /\ slice_bytes st s = slice_bytes st s1 ++ slice_bytes st s2.
Proof.
  intros (b & Hb & Ho & Hl & Hs) Hm s1 s2. split_and!.
  - exists b. cbn. split_and!; done || lia.
  - exists b. cbn. split_and!; done || lia.
  - subst s1 s2. unfold slice_bytes. cbn [s_block s_offset s_length]. rewrite Hb. unfold sub_bytes.
    replace (Z.to_nat (s_length s)) with (Z.to_nat m + Z.to_nat (s_length s - m))%nat by lia.
    rewrite Z2Nat.inj_add, <- drop_drop by lia. by rewrite take_take_drop.
Qed.

(** What the loop of [pop_front] and [cut] leaves and hands out: the first
    [k] slices are consumed, the bytes are split after [n - cur] of them. *)
Lemma cut_slices_ok st n : store_ok st -> forall slices cur k remaining out size,
  Forall (slice_ok st) slices -> cur <= n ->
  cut_slices n cur slices = (k, remaining, out, size) ->
  Forall (slice_ok st) remaining /\ Forall (slice_ok st) out
  /\ (k <= length remaining)%nat
  /\ size = cur + Z.min (n - cur) (slices_len slices)
  /\ slices_len out = size - cur
  /\ flat_map (slice_bytes st) slices
     = flat_map (slice_bytes st) out ++ flat_map (slice_bytes st) (drop k remaining).
Proof.
  intros Hst slices. induction slices as [|s rest IH]; intros cur k remaining out size HF Hcur;
    cbn [cut_slices].
  { intros H. simplify_eq. split_and!; try done; cbn; lia. }
  apply Forall_cons_1 in HF as [Hs HF].
  assert (0 <= slices_len rest) as Hlen.
  { rewrite <- (flat_map_length st) by done. apply zlen_nonneg. }
  assert (0 <= s_length s) as Hsl by (by destruct Hs as (? & _ & _ & ? & _)).
  destruct (Z.ltb_spec cur n) as [Hlt|Hge].
  - destruct (Z.ltb_spec (n - cur) (s_length s)) as [Hc|Hc].
    + intros H. simplify_eq.
      destruct (slice_split st s (n - cur) Hs ltac:(lia)) as (H1 & H2 & H3).
      split_and!; try (by repeat constructor); cbn; try lia.
      * fold (slices_len rest). lia.
      * by rewrite H3, app_nil_r, app_assoc.
    + destruct (cut_slices n (cur + s_length s) rest) as [[[k0 rem0] out0] size0] eqn:E.
      intros H. simplify_eq. apply IH in E as (H1 & H2 & H3 & H4 & H5 & H6); [|done|lia].
      split_and!; try (by constructor); cbn [length slices_len foldr] in *; try lia.
      * fold (slices_len rest). lia.
      * fold (slices_len out0). lia.
      * cbn. by rewrite H6, app_assoc.
  - intros H. simplify_eq. split_and!; try done; cbn; try lia.
    + by constructor.
    + fold (slices_len rest). lia.
Qed.

Lemma tryReleaseBlock_ok st buf :
  buf_ok st buf -> buf_ok st (tryReleaseBlock buf)
                   /\ contents st (tryReleaseBlock buf) = contents st buf.
Proof.
  intros [Hf Ho]. unfold tryReleaseBlock. case_if; [|done].
  split; [split; cbn; [by apply Forall_drop|lia]|done].
Qed.

Lemma length_contents st buf : store_ok st -> buf_ok st buf -> length_ buf = zlen (contents st buf).
Proof.
  intros Hst [Hf _]. unfold contents, to_string. symmetry. apply flat_map_length; [done|].
  by apply Forall_drop.
Qed.

Lemma cut_front_ok st n buf buf' out size :
  store_ok st -> buf_ok st buf -> 0 <= n -> cut_front n buf = (buf', out, size) ->
  buf_ok st buf' /\ Forall (slice_ok st) out
  /\ size = Z.min n (zlen (contents st buf))
  /\ flat_map (slice_bytes st) out = take (Z.to_nat n) (contents st buf)
  /\ contents st buf' = drop (Z.to_nat n) (contents st buf).
Proof.
  intros Hst Hbuf Hn. pose proof Hbuf as [Hf Ho]. unfold cut_front.
  destruct (cut_slices n 0 (drop (ref_offset buf) (ref buf))) as [[[k rem] out0] size0] eqn:E.
  intros H. simplify_eq.
  apply (cut_slices_ok st) in E as (Hr & Hout & Hk & Hsize & Hol & Hbytes);
    [|done|by apply Forall_drop|done].
  rewrite Z.sub_0_r, Z.add_0_l in Hsize.
  change (slices_len (drop (ref_offset buf) (ref buf))) with (length_ buf) in Hsize.
  rewrite (length_contents st) in Hsize by done.
  assert (buf_ok st (mk_IOBuffer (take (ref_offset buf) (ref buf) ++ rem) (ref_offset buf + k)))
    as Hmid.
  { split; cbn; [apply Forall_app; split; [by apply Forall_take|done]|].
    rewrite length_app, length_take. lia. }
  destruct (tryReleaseBlock_ok st _ Hmid) as [Hb' Hc'].
  assert (contents st (mk_IOBuffer (take (ref_offset buf) (ref buf) ++ rem) (ref_offset buf + k))
          = flat_map (slice_bytes st) (drop k rem)) as Hcm.
  { unfold contents, to_string. cbn [ref ref_offset]. rewrite drop_app_ge by (rewrite length_take; lia).
    rewrite length_take. f_equal. f_equal. lia. }
  assert (zlen (flat_map (slice_bytes st) out) = size) as Hlen.
  { rewrite flat_map_length by done. lia. }
  change (flat_map (slice_bytes st) (drop (ref_offset buf) (ref buf)))
    with (contents st buf) in Hbytes.
  assert (flat_map (slice_bytes st) out = take (Z.to_nat n) (contents st buf)
          /\ flat_map (slice_bytes st) (drop k rem) = drop (Z.to_nat n) (contents st buf))
    as [Ht Hd].
  { destruct (Z.le_gt_cases n (zlen (contents st buf))).
    - rewrite Hbytes, take_app_length', drop_app_length' by (unfold zlen in *; lia). done.
    - rewrite (take_ge (contents st buf)), (drop_ge (contents st buf)) by (unfold zlen in *; lia).
      assert (length (flat_map (slice_bytes st) (drop k rem)) = 0)%nat as Hz.
      { apply (f_equal length) in Hbytes. rewrite length_app in Hbytes. unfold zlen in *. lia. }
      apply nil_length_inv in Hz. rewrite Hz in *. by rewrite app_nil_r in Hbytes. }
  split_and!; try done. by rewrite Hc', Hcm.
Qed.

(** *** The operations on contents *)

Lemma append_ok st buf data st' buf' :
  store_ok st -> buf_ok st buf -> append data st buf = (st', buf') ->
  let n := Z.min (zlen data) (room st) in
  store_ok st' /\ store_le st st' /\ room st' = room st - n
  /\ buf_ok st' buf' /\ contents st' buf' = contents st buf ++ take (Z.to_nat n) data.
Proof. intros Hst Hbuf Ha. by eapply append_loop_ok in Ha. Qed.

(** The slices of a buffer that is only appended to stay unconsumed. *)
Lemma append_loop_offset fuel : forall rest st buf,
  ref_offset (snd (append_loop fuel rest st buf)) = ref_offset buf.
Proof.
  induction fuel as [|fuel IH]; intros rest st buf; [done|]. cbn [append_loop].
  destruct rest as [|x rest]; [done|]. destruct (shareBlockFromTLSChain st) as [[k|] st1]; [|done].
  destruct (get_block st1 k) as [b|]; [|done]. destruct (push_bytes _ _ _ _ _) as [st2 buf2] eqn:E.
  rewrite IH. unfold push_bytes, extend_or_emplace in E. simplify_eq.
  by repeat case_match.
Qed.

Lemma append_copy_ok st other buf :
  buf_ok st other -> buf_ok st buf -> ref_offset other = O ->
  buf_ok st (append_copy other buf)
  /\ contents st (append_copy other buf) = contents st buf ++ contents st other.
Proof.
  intros [Hf1 Ho1] [Hf2 Ho2] H0. split.
  - split; cbn; [by apply Forall_app|rewrite length_app; lia].
  - unfold contents, to_string. cbn [append_copy ref ref_offset].
    rewrite drop_app_le, flat_map_app by done. by rewrite H0, drop_0.
Qed.

(** A buffer in a good store *)
Definition io_ok (st : store) (buf : IOBuffer) : Prop := store_ok st /\ buf_ok st buf.

#[global] Instance io_buffer : ByteBuffer store IOBuffer := {|
  bb_ok := io_ok;
  bb_contents := contents;
  bb_room := room;
  bb_fresh buf := ref_offset buf = O;
  bb_empty := clear;
  bb_append := append;
  bb_append_move other buf := fst (append_move other buf);
  bb_cut := cut;
  bb_copy_to := copy_to;
  bb_pop_front := pop_front;
  bb_size := length_
|}.

Lemma io_append_law st buf data :
  io_ok st buf -> zlen data <= room st ->
  let '(st', buf') := append data st buf in
  io_ok st' buf' /\ contents st' buf' = contents st buf ++ data
  /\ room st' = room st - zlen data
  /\ (ref_offset buf = O -> ref_offset buf' = O)
  /\ (forall other, io_ok st other ->
        io_ok st' other /\ contents st' other = contents st other).
Proof.
  intros [Hst Hbuf] Hroom. destruct (append data st buf) as [st' buf'] eqn:E.
  pose proof (append_loop_offset (length data) data st buf) as Hoff.
  unfold append in E. rewrite E in Hoff. cbn in Hoff.
  apply append_ok in E as (Hst' & Hle & Hr & Hbuf' & Hc); [|done|done].
  rewrite Z.min_l in Hr, Hc by lia. unfold zlen in Hc. rewrite Nat2Z.id, firstn_all in Hc.
  split_and!; try done; [congruence|]. intros other [_ Ho].
  destruct (contents_le _ _ _ Hle Ho) as [Ho' Hco]. split; [by split|done].
Qed.

Lemma io_cut_law st buf n :
  io_ok st buf -> 0 <= n ->
  let '(buf', bytes, size) := cut n st buf in
  io_ok st buf' /\ bytes = take (Z.to_nat n) (contents st buf)
  /\ size = Z.min n (zlen (contents st buf))
  /\ contents st buf' = drop (Z.to_nat n) (contents st buf).
Proof.
  intros [Hst Hbuf] Hn. unfold cut. destruct (cut_front n buf) as [[buf' out] size] eqn:E.
  apply (cut_front_ok st) in E as (Hb & _ & Hs & Hbytes & Hc); try done; by split_and!.
Qed.

Lemma io_pop_front_law st buf n :
  io_ok st buf -> 0 <= n ->
  let '(buf', size) := pop_front n buf in
  io_ok st buf' /\ size = Z.min n (zlen (contents st buf))
  /\ contents st buf' = drop (Z.to_nat n) (contents st buf).
Proof.
  intros [Hst Hbuf] Hn. unfold pop_front. destruct (cut_front n buf) as [[buf' out] size] eqn:E.
  apply (cut_front_ok st) in E as (Hb & _ & Hs & _ & Hc); try done; by split_and!.
Qed.

Lemma io_copy_to_law st buf n :
  io_ok st buf -> 0 <= n ->
  let '(bytes, size) := copy_to n st buf in
  bytes = take (Z.to_nat n) (contents st buf) /\ size = Z.min n (zlen (contents st buf)).
Proof.
  intros [Hst Hbuf] Hn. pose proof (cut_front_ok st n buf) as Hcut. unfold copy_to.
  unfold cut_front in Hcut.
  destruct (cut_slices n 0 (drop (ref_offset buf) (ref buf))) as [[[k rem] out] size].
  by destruct (Hcut _ _ _ Hst Hbuf Hn eq_refl) as (_ & _ & ? & ? & _).
Qed.

#[global] Instance io_buffer_laws : ByteBufferLaws store IOBuffer.
Proof.
  split.
  - intros st b [Hst _]. split; [done|]. by split; [constructor|].
  - done.
  - done.
  - intros st b data Hok Hr. by apply io_append_law.
  - intros st other b [_ Ho] [Hst Hb] Hfresh. destruct (append_copy_ok st other b) as [? ?]; try done.
  - intros st b n Hok Hn. by apply io_cut_law.
  - intros st b n Hok Hn. by apply io_copy_to_law.
  - intros st b n Hok Hn. by apply io_pop_front_law.
  - intros st b [Hst Hb]. by apply length_contents.
Qed.
