(* ===== verification/IoBufferProps.v ===== *)
(** * Properties of [IOBuffer]

    The refinement of the buffer operations to lists of bytes, stated for the
    whole class: appending, cutting, moving slices between buffers and the
    assignment operators; with a place where the class does not keep its
    contents. *)

From stdpp Require Import gmap.
From S2P Require Import Prelude ByteBuffer IoBuffer.

(** ** Construction, assignment and exchange *)

(** [IOBuffer(const IOBuffer&)], [operator=(const IOBuffer&)] *)
Definition copy_assign (right : IOBuffer) : IOBuffer := mk_IOBuffer (ref right) (ref_offset right).

(** [IOBuffer(IOBuffer&&)]: the new buffer and what is left of [right] *)
Definition move_construct (right : IOBuffer) : IOBuffer * IOBuffer :=
  (mk_IOBuffer (ref right) (ref_offset right), clear).

(** [operator=(IOBuffer&&)]: [_ref_offset] keeps its old value *)
Definition move_assign (this right : IOBuffer) : IOBuffer * IOBuffer :=
  (mk_IOBuffer (ref right) (ref_offset this), clear).

Definition swap (this right : IOBuffer) : IOBuffer * IOBuffer :=
  (mk_IOBuffer (ref right) (ref_offset right), mk_IOBuffer (ref this) (ref_offset this)).

(** ** Theorems *)

Lemma append_frame (st : store) (buf : IOBuffer) (data : list Z) :
  store_ok st -> buf_ok st buf ->
  let '(st', buf') := append data st buf in
  store_ok st' /\ buf_ok st' buf'
  /\ contents st' buf' = contents st buf ++ take (Z.to_nat (room st)) data
  /\ (forall other, buf_ok st other -> buf_ok st' other /\ contents st' other = contents st other).
Proof.
  intros Hst Hbuf. destruct (append data st buf) as [st' buf'] eqn:E.
  apply append_ok in E as (Hst' & Hle & Hr & Hbuf' & Hc); [|done|done].
  split_and!; try done.
  - rewrite Hc. f_equal. destruct (Z.le_gt_cases (zlen data) (room st)).
    + rewrite Z.min_l, !take_ge by (unfold zlen in *; lia). done.
    + by rewrite Z.min_r by lia.
  - intros other Ho. by apply contents_le.
Qed.

(** Appending bytes extends the contents by exactly these bytes, as far as
    memory reaches, and changes no other buffer, although buffers share blocks
    and the last slice is extended in place. *)
Theorem append_contents (st : store) (buf : IOBuffer) (data : list Z) :
  store_ok st -> buf_ok st buf ->
  let '(st', buf') := append data st buf in
  store_ok st' /\ buf_ok st' buf'
  /\ contents st' buf' = contents st buf ++ take (Z.to_nat (room st)) data
  /\ (forall other, buf_ok st other -> buf_ok st' other /\ contents st' other = contents st other).
Proof. apply append_frame. Qed.

Definition two_blocks_store : store := mk_store ∅ None 2 0.

Lemma two_blocks_store_ok : store_ok two_blocks_store.
Proof.
  split.
  - intros k b Hb. unfold get_block in Hb. cbn in Hb. by rewrite lookup_empty in Hb.
  - done.
Qed.

Lemma append_contents_witness :
  let '(st', buf') := append (bytes_of_string "bolt") two_blocks_store clear in
  store_ok st' /\ buf_ok st' buf'
  /\ contents st' buf' = contents two_blocks_store clear
                         ++ take (Z.to_nat (room two_blocks_store)) (bytes_of_string "bolt")
  /\ (forall other, buf_ok two_blocks_store other ->
        buf_ok st' other /\ contents st' other = contents two_blocks_store other).
Proof.
  apply (append_contents two_blocks_store clear (bytes_of_string "bolt")).
  - apply two_blocks_store_ok.
  - split; [constructor|apply le_n].
Defined.

Lemma cut_buffer_ok (st : store) (buf out : IOBuffer) (n : Z) :
  store_ok st -> buf_ok st buf -> buf_ok st out -> 0 <= n ->
  let '(buf', out', size) := cut_buffer n buf out in
  buf_ok st buf' /\ buf_ok st out'
  /\ size = Z.min n (zlen (contents st buf))
  /\ contents st out' = contents st out ++ take (Z.to_nat n) (contents st buf)
  /\ contents st buf' = drop (Z.to_nat n) (contents st buf).
Proof.
  intros Hst Hbuf [Hfo Hoo] Hn. unfold cut_buffer.
  destruct (cut_front n buf) as [[buf' slices] size] eqn:E.
  apply (cut_front_ok st) in E as (Hb & Hs & Hsize & Hbytes & Hc); try done.
  split_and!; try done.
  - split; cbn; [by apply Forall_app|rewrite length_app; lia].
  - unfold contents, to_string. cbn [ref ref_offset]. rewrite drop_app_le, flat_map_app by done.
    f_equal. exact Hbytes.
Qed.

(** [cut(IOBuffer*, n)] moves the first [n] bytes, or all of them, to the
    end of the other buffer without copying: the two contents are split at [n]
    and the number of bytes moved is reported. *)
Theorem cut_buffer_contents (st : store) (buf out : IOBuffer) (n : Z) :
  store_ok st -> buf_ok st buf -> buf_ok st out -> 0 <= n ->
  let '(buf', out', size) := cut_buffer n buf out in
  buf_ok st buf' /\ buf_ok st out'
  /\ size = Z.min n (zlen (contents st buf))
  /\ contents st out' = contents st out ++ take (Z.to_nat n) (contents st buf)
  /\ contents st buf' = drop (Z.to_nat n) (contents st buf).
Proof. apply cut_buffer_ok. Qed.

Lemma cut_buffer_contents_witness :
  let '(st, buf) := append (bytes_of_string "header body") two_blocks_store clear in
  let '(buf', out', size) := cut_buffer 6 buf clear in
  contents st out' = bytes_of_string "header" /\ contents st buf' = bytes_of_string " body".
Proof.
  pose proof (append_frame two_blocks_store clear (bytes_of_string "header body")
    two_blocks_store_ok ltac:(split; [constructor|apply le_n])) as Ha.
  destruct (append (bytes_of_string "header body") two_blocks_store clear) as [st buf].
  destruct Ha as (Hst & Hbuf & Hc & Hother).
  pose proof (cut_buffer_contents st buf clear 6 Hst Hbuf
    ltac:(split; [constructor|apply le_n]) ltac:(discriminate)) as Hcut.
  destruct (cut_buffer 6 buf clear) as [[buf' out'] size].
  destruct Hcut as (_ & _ & _ & Ho & Hb). rewrite Ho, Hb, Hc. split; reflexivity.
Defined.

(** The loop of [pop_back] on reversed slices *)
Lemma pop_back_slices_ok st n : store_ok st -> forall rslices cur rleft size,
  Forall (slice_ok st) rslices -> cur <= n ->
  pop_back_slices n cur rslices = (rleft, size) ->
  Forall (slice_ok st) rleft
  /\ size = cur + Z.min (n - cur) (slices_len rslices)
  /\ exists dropped,
       flat_map (slice_bytes st) (rev rslices) = flat_map (slice_bytes st) (rev rleft) ++ dropped
       /\ zlen dropped = size - cur.
Proof.
  intros Hst rslices. induction rslices as [|s rest IH]; intros cur rleft size HF Hcur;
    cbn [pop_back_slices].
  { intros H. simplify_eq. split_and!; [done|cbn; lia|]. exists []. by rewrite Z.sub_diag. }
  apply Forall_cons_1 in HF as [Hs HF].
  assert (0 <= slices_len rest) as Hlen.
  { rewrite <- (flat_map_length st) by done. apply zlen_nonneg. }
  pose proof Hs as (_ & _ & _ & Hsl & _).
  destruct (Z.ltb_spec cur n) as [Hlt|Hge].
  - destruct (Z.ltb_spec (n - cur) (s_length s)) as [Hc|Hc]; intros H; simplify_eq.
    + destruct (slice_split st s (s_length s - (n - cur)) Hs ltac:(lia)) as (H1 & H2 & H3).
      split_and!; [by constructor|cbn; fold (slices_len rest); lia|].
      eexists. split; [cbn [rev]; rewrite !flat_map_snoc, H3, app_assoc; reflexivity|].
      rewrite (slice_bytes_length st) by done. cbn. lia.
    + apply IH in H as (H1 & H2 & d & H3 & H4); [|done|lia].
      split_and!; [done|cbn; fold (slices_len rest); lia|].
      exists (d ++ slice_bytes st s). split; [cbn [rev]; by rewrite flat_map_snoc, H3, app_assoc|].
      unfold zlen. rewrite length_app. pose proof (slice_bytes_length st s Hst Hs).
      unfold zlen in *. lia.
  - intros H. simplify_eq. split_and!; [by constructor|cbn; fold (slices_len rest); lia|].
    exists []. rewrite app_nil_r. split; [done|]. change (zlen (@nil Z)) with 0. lia.
Qed.

Lemma slices_len_app l l' : slices_len (l ++ l') = slices_len l + slices_len l'.
Proof. unfold slices_len. induction l as [|s l IH]; [done|]. cbn. lia. Qed.

Lemma slices_len_rev l : slices_len (rev l) = slices_len l.
Proof. induction l as [|s l IH]; [done|]. cbn [rev]. rewrite slices_len_app, IH. unfold slices_len. cbn. lia. Qed.

(** [pop_back] drops the last [n] bytes, or all of them, and reports how
    many; the popped vector of slices stays well formed. *)
Theorem pop_back_contents (st : store) (buf : IOBuffer) (n : Z) :
  store_ok st -> buf_ok st buf -> 0 <= n ->
  let '(buf', size) := pop_back n buf in
  buf_ok st buf' /\ size = Z.min n (zlen (contents st buf))
  /\ contents st buf' = take (length (contents st buf) - Z.to_nat n) (contents st buf).
Proof.
  intros Hst [Hf Ho] Hn. unfold pop_back.
  destruct (pop_back_slices n 0 (rev (drop (ref_offset buf) (ref buf)))) as [rleft size] eqn:E.
  assert (Forall (slice_ok st) (drop (ref_offset buf) (ref buf))) as Hfd by (by apply Forall_drop).
  apply (pop_back_slices_ok st) in E as (Hr & Hsize & d & Hbytes & Hd); try done;
    [|by apply List.Forall_rev].
  rewrite rev_involutive in Hbytes. fold (to_string st buf) in Hbytes. fold (contents st buf) in Hbytes.
  assert (slices_len (rev (drop (ref_offset buf) (ref buf))) = zlen (contents st buf)) as Hlen.
  { rewrite slices_len_rev, <- (flat_map_length st) by done. done. }
  rewrite Z.sub_0_r, Z.add_0_l, Hlen in Hsize.
  split_and!.
  - split; cbn; [|rewrite length_app, length_take; lia].
    apply Forall_app. split; [by apply Forall_take|by apply List.Forall_rev].
  - done.
  - assert (contents st (mk_IOBuffer (take (ref_offset buf) (ref buf) ++ rev rleft) (ref_offset buf))
            = flat_map (slice_bytes st) (rev rleft)) as ->.
    { unfold contents, to_string. cbn [ref ref_offset]. rewrite drop_app_length'; [done|].
      rewrite length_take. lia. }
    rewrite Hbytes. rewrite Hbytes in Hsize. unfold zlen in *. rewrite length_app in *.
    rewrite take_app_length'; [done|]. lia.
Qed.

Lemma pop_back_contents_witness :
  let '(st, buf) := append (bytes_of_string "abcdef") two_blocks_store clear in
  let '(buf', size) := pop_back 2 buf in
  size = 2 /\ contents st buf' = bytes_of_string "abcd".
Proof.
  pose proof (append_frame two_blocks_store clear (bytes_of_string "abcdef")
    two_blocks_store_ok ltac:(split; [constructor|apply le_n])) as Ha.
  destruct (append (bytes_of_string "abcdef") two_blocks_store clear) as [st buf].
  destruct Ha as (Hst & Hbuf & Hc & _).
  pose proof (pop_back_contents st buf 2 Hst Hbuf ltac:(discriminate)) as Hp.
  destruct (pop_back 2 buf) as [buf' size]. destruct Hp as (_ & Hs & Hb).
  rewrite Hs, Hb, Hc. split; reflexivity.
Defined.

(** Bytes consumed from a buffer come back when it is appended to another
    one: [append(IOBuffer&&)] and [append(const IOBuffer&)] copy the slices
    before [_ref_offset] too. *)
Theorem append_consumed_reappears :
  exists (st : store) (other buf : IOBuffer),
    store_ok st /\ buf_ok st other /\ buf_ok st buf
    /\ contents st other = [] /\ contents st buf = []
    /\ contents st (append_copy other buf) = bytes_of_string "stale".
Proof.
  pose proof (append_frame two_blocks_store clear (bytes_of_string "stale")
    two_blocks_store_ok ltac:(split; [constructor|apply le_n])) as Ha.
  destruct (append (bytes_of_string "stale") two_blocks_store clear) as [st buf] eqn:E.
  destruct Ha as (Hst & Hbuf & _ & _).
  exists st, (fst (pop_front 5 buf)), clear. split; [done|].
  pose proof (io_pop_front_law st buf 5 (conj Hst Hbuf) ltac:(lia)) as Hp.
  vm_compute in E. simplify_eq. destruct (pop_front 5 _) as [b' n] eqn:Ep. vm_compute in Ep.
  simplify_eq. destruct Hp as ((_ & ?) & _ & _). split; [done|].
  split; [by split; [constructor|]|]. vm_compute. auto.
Qed.
