(* ===== verification/IoBufferFd.v ===== *)
(** * Transfers between buffers and file descriptors

    [append_from_file_descriptor] and [cut_into_file_descriptor] of
    src/common/io_buffer.cpp, with the block chain they borrow from. What the
    system calls answer is an argument: the bytes [readv] stores and the counts
    both calls return. *)

From stdpp Require Import gmap.
From S2P Require Import Prelude ByteBuffer IoBuffer IoBufferProps.

Definition MAX_APPEND_IOVEC : nat := 64.
Definition IOBUF_IOV_MAX : nat := 256.

(** The loop of [acquireBlockFromTLSChain] *)
Fixpoint acquire_loop (fuel : nat) (st : store) : option nat * store :=
  match fuel with
  | O => (None, st)
  | S fuel =>
      match st_tls st with
      | None => (None, st)
      | Some k =>
          match get_block st k with
          | None => (None, st)
          | Some b =>
              let st := set_tls (b_next b) st in
              if 0 <? freeSpace b then
                (Some k, set_block k (mk_block None (b_size b) (b_capacity b) (b_data b)) st)
              else acquire_loop fuel st
          end
      end
  end.

Definition acquireBlockFromTLSChain (st : store) : option nat * store :=
  match acquire_loop (chain_fuel st) st with
  | (Some k, st) => (Some k, st)
  | (None, st) => createBlock BUFFER_DEFAULT_BLOCK_SIZE st
  end.

(** [releaseBlockToTLSChain] *)
Definition releaseBlockToTLSChain (k : nat) (st : store) : store :=
  match get_block st k with
  | None => st
  | Some b =>
      if freeSpace b =? 0 then st
      else set_tls (Some k) (set_block k (mk_block (st_tls st) (b_size b) (b_capacity b) (b_data b)) st)
  end.

(** [block->next = n] *)
Definition link_block (k : nat) (n : option nat) (st : store) : store :=
  match get_block st k with
  | None => st
  | Some b => set_block k (mk_block n (b_size b) (b_capacity b) (b_data b)) st
  end.

(** The first loop of [append_from_file_descriptor]: the blocks of the I/O
    vector, linked in order, with the space they offer; [None] when [malloc]
    fails *)
Fixpoint gather (fuel : nat) (max_size space : Z) (nvec : nat) (tail : option nat)
    (acc : list nat) (st : store) : option (list nat * Z) * store :=
  match fuel with
  | O => (None, st)
  | S fuel =>
      let '(k, st) := acquireBlockFromTLSChain st in
      match k with
      | None => (None, st)
      | Some k =>
          match get_block st k with
          | None => (None, st)
          | Some b =>
              let st := match tail with Some t => link_block t (Some k) st | None => st end in
              let space := space + Z.min (freeSpace b) (max_size - space) in
              let nvec := S nvec in
              if (max_size <=? space) || (MAX_APPEND_IOVEC <=? nvec)%nat
              then (Some (acc ++ [k], space), st)
              else gather fuel max_size space nvec (Some k) (acc ++ [k]) st
          end
      end
  end.

(** The loop over the bytes [readv] has stored: the slices they become.
    [readv] writes them to the free space of the blocks in order. *)
Fixpoint scatter (fuel : nat) (bytes : list Z) (head : option nat) (st : store) (buf : IOBuffer)
    : option nat * store * IOBuffer :=
  match fuel with
  | O => (head, st, buf)
  | S fuel =>
      match head with
      | None => (head, st, buf)
      | Some k =>
          match get_block st k with
          | None => (head, st, buf)
          | Some b =>
              let len := Z.to_nat (Z.min (zlen bytes) (freeSpace b)) in
              let b' := mk_block (b_next b) (b_size b + Z.of_nat len) (b_capacity b)
                          (write_bytes (b_size b) (take len bytes) (b_data b)) in
              let st := set_block k b' st in
              let buf := mk_IOBuffer (ref buf ++ [mk_slice k (b_size b) (Z.of_nat len)])
                           (ref_offset buf) in
              let head := if freeSpace b' =? 0 then b_next b' else Some k in
              match drop len bytes with
              | [] => (head, st, buf)
              | rest => scatter fuel rest head st buf
              end
          end
      end
  end.

(** The last loop: [releaseBlockToTLSChain(block_head); block_head =
    block_head->next], which reads [next] after it has been overwritten *)
Fixpoint release_chain (fuel : nat) (head : option nat) (st : store) : option store :=
  match head with
  | None => Some st
  | Some k =>
      match fuel with
      | O => None
      | S fuel =>
          let st := releaseBlockToTLSChain k st in
          match get_block st k with
          | None => Some st
          | Some b => release_chain fuel (b_next b) st
          end
      end
  end.

(** [append_from_file_descriptor]; [input] is what [readv] stores, [nr] its
    result *)
Definition after_readv (input : list Z) (nr : Z) (blocks : list nat) (st : store) (buf : IOBuffer)
    : option (store * IOBuffer * Z) :=
  let '(hd, st, buf) :=
    if 0 <? nr then scatter (length input) input (head blocks) st buf
    else (head blocks, st, buf) in
  match release_chain (chain_fuel st) hd st with
  | None => None
  | Some st => Some (st, buf, nr)
  end.

Definition append_from_file_descriptor (input : list Z) (nr : Z) (max_size : Z)
    (st : store) (buf : IOBuffer) : option (store * IOBuffer * Z) :=
  match gather MAX_APPEND_IOVEC max_size 0 0 None [] st with
  | (None, st) => Some (st, buf, -1)
  | (Some (blocks, _), st) => after_readv input nr blocks st buf
  end.

(** The space [readv] is offered *)
Definition iov_space (max_size : Z) (st : store) : Z :=
  match gather MAX_APPEND_IOVEC max_size 0 0 None [] st with
  | (Some (_, space), _) => space
  | (None, _) => 0
  end.

(** [cut_into_file_descriptor]: the bytes offered to [writev]; [nw] is what it
    answers; [None] is the access to the first slice of a buffer without
    slices *)
Fixpoint iov_bytes (fuel : nat) (size_hint cur_len : Z) (st : store) (slices : list slice)
    : list Z :=
  match fuel, slices with
  | S fuel, s :: rest =>
      let cur_len := cur_len + s_length s in
      slice_bytes st s ++ (if cur_len <? size_hint then iov_bytes fuel size_hint cur_len st rest
                           else [])
  | _, _ => []
  end.

Definition cut_into_file_descriptor (size_hint nw : Z) (st : store) (buf : IOBuffer)
    : option (list Z * IOBuffer * Z) :=
  match drop (ref_offset buf) (ref buf) with
  | [] => None
  | slices =>
      Some (iov_bytes IOBUF_IOV_MAX size_hint 0 st slices,
            if 0 <? nw then fst (pop_front nw buf) else buf, nw)
  end.

(** ** Writing to a descriptor *)

Lemma iov_bytes_prefix st size_hint : forall slices fuel cur_len,
  exists rest, flat_map (slice_bytes st) slices = iov_bytes fuel size_hint cur_len st slices ++ rest.
Proof.
  induction slices as [|s slices IH]; intros [|fuel] cur_len; try (by exists []); [by eexists|].
  cbn [iov_bytes flat_map]. destruct (cur_len + s_length s <? size_hint).
  - destruct (IH fuel (cur_len + s_length s)) as [rest ->]. exists rest. by rewrite app_assoc.
  - exists (flat_map (slice_bytes st) slices). by rewrite app_nil_r.
Qed.

Lemma cut_into_fd_ok (st : store) (buf : IOBuffer) (size_hint nw : Z) :
  store_ok st -> buf_ok st buf -> (0 < slice_num buf)%nat ->
  exists offered buf',
    cut_into_file_descriptor size_hint nw st buf = Some (offered, buf', nw)
    /\ buf_ok st buf'
    /\ (nw <= zlen offered ->
        contents st buf = take (Z.to_nat nw) offered ++ contents st buf').
Proof.
  intros Hst Hbuf Hnum. unfold cut_into_file_descriptor. set (slices := drop _ _).
  assert (slices <> []) as Hne.
  { unfold slice_num in Hnum. intros Hn. apply (f_equal length) in Hn. subst slices.
    rewrite length_drop in Hn. cbn in Hn. lia. }
  destruct slices as [|s slices'] eqn:Es; [done|]. rewrite <- Es in *. clear Hne.
  destruct (iov_bytes_prefix st size_hint slices IOBUF_IOV_MAX 0) as [rest Hp].
  eexists _, _. split; [reflexivity|]. change (flat_map _ slices) with (contents st buf) in Hp.
  destruct (Z.ltb_spec 0 nw) as [Hpos|Hneg].
  - pose proof (io_pop_front_law st buf nw (conj Hst Hbuf) ltac:(lia)) as Hpop.
    destruct (pop_front nw buf) as [buf' size]. destruct Hpop as ((_ & Hok) & _ & Hc).
    split; [done|]. intros Hle. cbn [fst]. rewrite Hc, Hp. unfold zlen in Hle.
    rewrite drop_app_le by lia. by rewrite app_assoc, take_drop.
  - split; [done|]. intros _. by replace (Z.to_nat nw) with 0%nat by lia.
Qed.

(** What is offered to [writev] is a prefix of the contents, and whatever
    part of it the call accepts, exactly that part is removed from the front:
    no byte is lost or sent twice. *)
Theorem cut_into_fd_contents (st : store) (buf : IOBuffer) (size_hint nw : Z) :
  store_ok st -> buf_ok st buf -> (0 < slice_num buf)%nat ->
  exists offered buf',
    cut_into_file_descriptor size_hint nw st buf = Some (offered, buf', nw)
    /\ buf_ok st buf'
    /\ (nw <= zlen offered ->
        contents st buf = take (Z.to_nat nw) offered ++ contents st buf').
Proof. apply cut_into_fd_ok. Qed.

Lemma cut_into_fd_contents_witness :
  let '(st, buf) := append (bytes_of_string "abcdef") two_blocks_store clear in
  exists offered buf',
    cut_into_file_descriptor 100 2 st buf = Some (offered, buf', 2)
    /\ offered = bytes_of_string "abcdef"
    /\ contents st buf = take 2 offered ++ contents st buf'.
Proof.
  pose proof (append_frame two_blocks_store clear (bytes_of_string "abcdef")
    two_blocks_store_ok ltac:(split; [constructor|apply le_n])) as Ha.
  destruct (append (bytes_of_string "abcdef") two_blocks_store clear) as [st buf] eqn:E.
  destruct Ha as (Hst & Hbuf & Hc & _). vm_compute in E. injection E as Es Eb.
  destruct (cut_into_fd_contents st buf 100 2 Hst Hbuf) as (offered & buf' & Hcut & _ & Hpre).
  { rewrite <- Eb. unfold slice_num. cbn. lia. }
  exists offered, buf'. assert (offered = bytes_of_string "abcdef") as Ho.
  { rewrite <- Es, <- Eb in Hcut. vm_compute in Hcut. injection Hcut as <- _. reflexivity. }
  split; [exact Hcut|]. split; [exact Ho|]. apply Hpre. rewrite Ho. discriminate.
Defined.

(** ** Reading from a descriptor *)

(** The blocks of the vector: linked in order, with free space *)
Definition linked (st : store) (l : list nat) : Prop :=
  NoDup l /\ forall i k, l !! i = Some k ->
    exists b, get_block st k = Some b /\ b_next b = l !! S i /\ 0 < freeSpace b.

Definition free_of (st : store) (k : nat) : Z :=
  match get_block st k with Some b => freeSpace b | None => 0 end.

Definition free_sum (st : store) (l : list nat) : Z := foldr (fun k n => free_of st k + n) 0 l.

Lemma linked_nil st : linked st [].
Proof. split; [constructor|done]. Qed.

(** Setting a block that keeps its size and data, outside the chain *)
Lemma set_next_ok st k b n :
  store_ok st -> get_block st k = Some b -> st_tls st <> Some k ->
  let st' := set_block k (mk_block n (b_size b) (b_capacity b) (b_data b)) st in
  store_ok st' /\ store_le st st'.
Proof.
  intros Hst Hb Ht st'. split; [split|].
  - intros k0 b0. unfold st'. rewrite get_set_block. case_decide; intros H0; simplify_eq.
    + destruct (so_block st Hst _ _ Hb). by split.
    + by apply (so_block st Hst).
  - intros k0 Hk0. cbn in Hk0. destruct (so_tls st Hst k0 Hk0) as (b0 & Hb0 & Hn0).
    exists b0. unfold st'. rewrite get_set_block. rewrite decide_False by congruence. done.
  - intros k0 b0 Hb0. unfold st'. rewrite get_set_block. case_decide; [simplify_eq|];
      eexists; split_and!; try done; cbn; lia.
Qed.

(** [acquireBlockFromTLSChain] empties the chain and answers a block of its own. *)
Lemma acquire_ok st k st' :
  store_ok st -> acquireBlockFromTLSChain st = (k, st') ->
  store_ok st' /\ store_le st st' /\ st_tls st' = None
  /\ match k with
     | Some k => (st_tls st = Some k \/ get_block st k = None)
                 /\ (forall k0, k0 <> k -> get_block st' k0 = get_block st k0)
                 /\ exists b, get_block st' k = Some b /\ b_next b = None /\ 0 < freeSpace b
     | None => True
     end.
Proof.
  intros Hst. unfold acquireBlockFromTLSChain.
  assert (exists k0 st0, acquire_loop (chain_fuel st) st = (k0, st0) /\
    match k0 with
    | Some k => st_tls st = Some k /\ exists b, get_block st k = Some b /\ b_next b = None
                  /\ 0 < freeSpace b
                  /\ st0 = set_block k (mk_block None (b_size b) (b_capacity b) (b_data b)) (set_tls None st)
    | None => st0 = set_tls None st
    end) as (k0 & st0 & -> & Hcase).
  { unfold chain_fuel. destruct (st_tls st) as [kt|] eqn:Et.
    - destruct (so_tls st Hst kt Et) as (b & Hb & Hn).
      destruct (get_block_size st kt b Hb) as [m Hm].
      rewrite Hm. cbn [acquire_loop]. rewrite Et, Hb, Hn.
      destruct (Z.ltb_spec 0 (freeSpace b)) as [Hfree|Hfull].
      + do 2 eexists. split; [reflexivity|]. split; [done|]. exists b. by split_and!.
      + cbn. do 2 eexists. by split.
    - cbn [acquire_loop]. rewrite Et. do 2 eexists. split; [reflexivity|].
      destruct st; cbn in *; by subst. }
  assert (store_ok (set_tls None st)) as Hst0 by by apply set_tls_ok.
  destruct k0 as [k0|].
  { destruct Hcase as (Ht & b & Hb & Hn & Hf & ->). intros H. simplify_eq.
    destruct (set_next_ok (set_tls None st) k0 b None Hst0 Hb) as [? Hle]; [done|].
    split_and!; [done|exact Hle|done|by left| |].
    { intros k1 Hk1. rewrite get_set_block. by rewrite decide_False. }
    eexists. rewrite get_set_block, decide_True by done.
    by split_and!. }
  subst st0. intros Ec. destruct k as [k|].
  - pose proof (create_fresh _ _ _ _ Hst0 Ec) as Hfresh.
    assert (forall k0, k0 <> k -> get_block st' k0 = get_block st k0) as Hother
      by (intros k0 Hk0; exact (create_other _ _ _ _ k0 Ec Hk0)).
    apply create_ok in Ec as (Hst1 & Hle & Ht & Hb & _); [|done|done].
    split_and!; [done|exact Hle|done|by right|done|]. eexists. by split_and!.
  - apply create_ok in Ec as [_ ->]; [|done|done]. split_and!; try done.
    intros k b Hb. exists b. split_and!; done || lia.
Qed.

(** *** Gathering the blocks *)

Lemma free_of_some st k b : get_block st k = Some b -> free_of st k = freeSpace b.
Proof. unfold free_of. by intros ->. Qed.

Lemma free_sum_snoc st l k : free_sum st (l ++ [k]) = free_sum st l + free_of st k.
Proof. unfold free_sum. induction l as [|x l IH]; cbn in *; lia. Qed.

Lemma free_sum_ext st st' l :
  (forall k, k ∈ l -> free_of st' k = free_of st k) -> free_sum st' l = free_sum st l.
Proof.
  induction l as [|x l IH]; intros H; [done|]. cbn. rewrite H by left. f_equal. apply IH.
  intros k Hk. apply H. by right.
Qed.

(** Adding an acquired block at the end of the list *)
Lemma linked_snoc st l k b :
  store_ok st -> st_tls st = None -> linked st l -> k ∉ l ->
  get_block st k = Some b -> b_next b = None -> 0 < freeSpace b ->
  let st' := match list.last l with Some t => link_block t (Some k) st | None => st end in
  store_ok st' /\ store_le st st' /\ st_tls st' = None /\ linked st' (l ++ [k])
  /\ free_sum st' (l ++ [k]) = free_sum st l + freeSpace b.
Proof.
  intros Hst Ht [Hnd Hl] Hk Hb Hn Hf st'. subst st'.
  assert (NoDup (l ++ [k])) as Hnd'.
  { apply list.NoDup_app. split_and!; [done| |apply NoDup_singleton].
    intros x Hx Hx'. apply list_elem_of_singleton in Hx'. by subst. }
  destruct (list.last l) as [t|] eqn:El.
  2:{ apply last_None in El. subst l. split_and!; try done.
      - split; [done|]. intros [|[|i]] k0 H0; simplify_eq/=. eauto.
      - cbn. rewrite (free_of_some _ _ _ Hb). lia. }
  apply last_Some in El as [init ->].
  assert ((init ++ [t]) !! length init = Some t) as Hi
    by (rewrite lookup_app_r by lia; by rewrite Nat.sub_diag).
  destruct (Hl (length init) t Hi) as (bt & Hbt & Hnt & Hft). unfold link_block. rewrite Hbt.
  destruct (set_next_ok st t bt (Some k) Hst Hbt) as [Hst' Hle]; [congruence|].
  set (st' := set_block t _ st) in *.
  assert (t <> k) as Htk by (intros ->; apply Hk, elem_of_app; right; by left).
  assert (get_block st' k = Some b) as Hb'
    by (unfold st'; rewrite get_set_block; by rewrite decide_False).
  split_and!; try done.
  - split; [done|]. intros i k0 H0. apply lookup_app_Some in H0 as [H0|[Hge H0]].
    + destruct (decide (k0 = t)) as [->|Hne].
      * pose proof (NoDup_lookup _ _ _ _ Hnd H0 Hi) as ->.
        eexists. unfold st'. rewrite get_set_block, decide_True by done. split_and!; [done| |done].
        cbn [b_next]. rewrite lookup_app_r by (rewrite length_app; cbn; lia).
        by replace (S (length init) - length (init ++ [t]))%nat with 0%nat
          by (rewrite length_app; cbn; lia).
      * destruct (Hl i k0 H0) as (b0 & Hb0 & Hn0 & Hf0). exists b0. unfold st'.
        rewrite get_set_block, decide_False by done. split_and!; [done| |done]. rewrite Hn0.
        pose proof (lookup_lt_Some _ _ _ H0) as Hlt. rewrite length_app in Hlt. cbn in Hlt.
        assert (i <> length init) by (intros ->; congruence).
        by rewrite (lookup_app_l (init ++ [t])) by (rewrite length_app; cbn; lia).
    + apply list_lookup_singleton_Some in H0 as [H0 <-]. exists b. split_and!; [done| |done].
      rewrite Hn. symmetry. apply lookup_ge_None. rewrite length_app. cbn. lia.
  - rewrite free_sum_snoc, (free_of_some _ _ _ Hb'). f_equal. apply free_sum_ext.
    intros k0 _. unfold free_of, st'. rewrite get_set_block. case_decide; [subst|done]. by rewrite Hbt.
Qed.

(** A block that was acquired is not among those acquired before. *)
Lemma acquire_new st l k :
  linked st l -> (l = [] \/ st_tls st = None) -> (st_tls st = Some k \/ get_block st k = None) ->
  k ∉ l.
Proof.
  intros [_ Hl] Hor Hk Hin. apply list_elem_of_lookup in Hin as [i Hi].
  destruct (Hl i k Hi) as (b0 & Hb0 & _). destruct Hor as [->|Ht]; [done|]. destruct Hk; congruence.
Qed.

(** Lists of blocks that do not change stay linked. *)
Lemma linked_ext st st' l :
  (forall k, k ∈ l -> get_block st' k = get_block st k) -> linked st l ->
  linked st' l /\ free_sum st' l = free_sum st l.
Proof.
  intros Heq [Hnd Hl]. split; [split; [done|]|].
  - intros i k Hi. rewrite Heq by (by eapply list_elem_of_lookup_2). by apply Hl.
  - apply free_sum_ext. intros k Hk. unfold free_of. by rewrite Heq.
Qed.

Lemma gather_ok fuel : forall max_size space nvec acc st res st',
  store_ok st -> linked st acc -> (acc = [] \/ st_tls st = None) -> space <= free_sum st acc ->
  gather fuel max_size space nvec (list.last acc) acc st = (res, st') ->
  store_ok st' /\ store_le st st'
  /\ match res with
     | Some (blocks, sp) =>
         linked st' blocks /\ sp <= free_sum st' blocks /\ blocks <> [] /\ st_tls st' = None
     | None => True
     end.
Proof.
  induction fuel as [|fuel IH]; intros max_size space nvec acc st res st' Hst Hl Hor Hsp Hg;
    cbn [gather] in Hg; [by simplify_eq|].
  destruct (acquireBlockFromTLSChain st) as [[k|] st1] eqn:Ea;
    apply acquire_ok in Ea as (Hst1 & Hle1 & Ht1 & Hk); try done; [|by simplify_eq].
  destruct Hk as (Hnew & Hother & b & Hb & Hn & Hf). rewrite Hb in Hg.
  pose proof (acquire_new st acc k Hl Hor Hnew) as Hnin.
  destruct (linked_ext st st1 acc) as [Hl1 Hs1]; [|done|].
  { intros k0 Hk0. apply Hother. by intros ->. }
  destruct (linked_snoc st1 acc k b Hst1 Ht1 Hl1 Hnin Hb Hn Hf) as (Hst2 & Hle2 & Ht2 & Hl2 & Hs2).
  set (st2 := match list.last acc with Some t => _ | None => _ end) in *.
  set (space' := space + Z.min (freeSpace b) (max_size - space)) in *.
  assert (space' <= free_sum st2 (acc ++ [k])) as Hsp' by lia.
  assert (store_le st st2) as Hle by (by etrans).
  destruct ((max_size <=? space') || (MAX_APPEND_IOVEC <=? S nvec)%nat).
  - simplify_eq. split_and!; try done. by destruct acc.
  - replace (Some k) with (list.last (acc ++ [k])) in Hg by apply last_snoc.
    apply IH in Hg as (Hst3 & Hle3 & Hres); try done; [|by right].
    split_and!; [done|by etrans|done].
Qed.

Lemma gather_start fuel max_size st res st' :
  store_ok st -> gather fuel max_size 0 0 None [] st = (res, st') ->
  store_ok st' /\ store_le st st'
  /\ match res with
     | Some (blocks, sp) =>
         linked st' blocks /\ sp <= free_sum st' blocks /\ blocks <> [] /\ st_tls st' = None
     | None => True
     end.
Proof.
  intros Hst Hg. apply (gather_ok fuel max_size 0 0 [] st res st'); try done;
    [apply linked_nil|by left].
Qed.

(** *** The bytes that were read *)

(** A new slice over the bytes copied to a block *)
Lemma emplace_filled_ok k b bytes st buf :
  store_ok st -> buf_ok st buf -> get_block st k = Some b -> zlen bytes <= freeSpace b ->
  let st' := set_block k (filled b bytes) st in
  let buf' := mk_IOBuffer (ref buf ++ [mk_slice k (b_size b) (zlen bytes)]) (ref_offset buf) in
  buf_ok st' buf' /\ contents st' buf' = contents st buf ++ bytes.
Proof.
  intros Hst Hbuf Hb Hfit st' buf'. destruct (so_block st Hst _ _ Hb) as [[Hsz _] _].
  destruct (fill_block_ok k b bytes st Hst Hb Hfit) as (Hst' & Hle & Hb' & Hread).
  destruct (contents_le _ _ _ Hle Hbuf) as [[Hf Ho] Hc]. split.
  - split; cbn; [|rewrite length_app; lia]. apply Forall_app. split; [done|]. constructor; [|constructor].
    exists (filled b bytes). cbn. split_and!; [done|lia|apply zlen_nonneg|lia].
  - unfold contents in *. subst buf'. rewrite to_string_snoc by done. f_equal; [by destruct buf|].
    unfold slice_bytes. cbn [s_block s_offset s_length]. subst st'. rewrite Hb'.
    specialize (Hread (b_size b) 0 ltac:(lia) ltac:(lia) ltac:(lia)). rewrite Z.add_0_l in Hread.
    rewrite Hread. unfold sub_bytes. by cbn.
Qed.

Lemma linked_cons st k l :
  linked st (k :: l) ->
  exists b, get_block st k = Some b /\ (b_next b = head l) /\ 0 < freeSpace b
                                  /\ (k ∉ l) /\ linked st l.
Proof.
  intros [Hnd Hl]. destruct (Hl 0%nat k eq_refl) as (b & Hb & Hn & Hf). inversion_clear Hnd.
  exists b. split_and!; try done; [by rewrite Hn; destruct l|]. split; [done|].
  intros i k0 Hi. exact (Hl (S i) k0 Hi).
Qed.

Lemma scatter_ok : forall l bytes fuel st buf hd st' buf',
  store_ok st -> buf_ok st buf -> st_tls st = None -> linked st l -> bytes <> [] ->
  zlen bytes <= free_sum st l -> (length bytes <= fuel)%nat ->
  scatter fuel bytes (head l) st buf = (hd, st', buf') ->
  store_ok st' /\ store_le st st' /\ st_tls st' = None
  /\ buf_ok st' buf' /\ contents st' buf' = contents st buf ++ bytes
  /\ (forall k, hd = Some k -> exists b, get_block st' k = Some b /\ 0 < freeSpace b).
Proof.
  induction l as [|k l IH]; intros bytes fuel st buf hd st' buf' Hst Hbuf Ht Hl Hne Hsum Hfuel Hrun.
  { cbn in Hsum. destruct bytes; [done|]. unfold zlen in Hsum. cbn in Hsum. lia. }
  destruct fuel as [|fuel]; [by destruct bytes; cbn in *; [|lia]|].
  apply linked_cons in Hl as (b & Hb & Hn & Hf & Hk & Hl). cbn [scatter head] in Hrun.
  rewrite Hb in Hrun. set (len := Z.to_nat (Z.min (zlen bytes) (freeSpace b))) in *.
  assert (Z.of_nat len = zlen (take len bytes)) as Hlen
    by (unfold len, zlen; rewrite length_take; lia).
  rewrite Hlen in Hrun. change (mk_block _ _ _ _) with (filled b (take len bytes)) in Hrun.
  assert (zlen (take len bytes) <= freeSpace b) as Hfit by lia.
  destruct (fill_block_ok k b _ st Hst Hb Hfit) as (Hst1 & Hle1 & Hb1 & _).
  destruct (emplace_filled_ok k b _ st buf Hst Hbuf Hb Hfit) as [Hbuf1 Hc1].
  set (st1 := set_block k _ st) in *. set (buf1 := mk_IOBuffer _ _) in *.
  destruct (linked_ext st st1 l) as [Hl1 Hs1]; [|done|].
  { intros k0 Hk0. unfold st1. rewrite get_set_block. rewrite decide_False; [done|]. by intros ->. }
  cbn [filled b_next] in Hrun.
  destruct (drop len bytes) as [|x rest] eqn:Edrop.
  - simplify_eq. assert (take len bytes = bytes) as Hall.
    { rewrite <- (take_drop len bytes) at 2. by rewrite Edrop, app_nil_r. }
    split_and!; try done; [by rewrite Hc1, Hall|].
    intros k0. destruct (Z.eqb_spec (freeSpace (filled b (take len bytes))) 0) as [|Hnz]; intros Hk0.
    + rewrite Hn in Hk0. destruct l as [|k1 l]; [done|]. injection Hk0 as ->.
      apply linked_cons in Hl1 as (b0 & ? & _ & ? & _). eauto.
    + injection Hk0 as <-. exists (filled b (take len bytes)). split; [done|].
      unfold freeSpace, filled in *. cbn in *. lia.
  - assert (zlen (x :: rest) = zlen bytes - zlen (take len bytes)) as Hrest.
    { rewrite <- Edrop, <- Hlen. unfold zlen. rewrite length_drop.
      apply (f_equal length) in Edrop. rewrite length_drop in Edrop. cbn in Edrop. lia. }
    assert (zlen (take len bytes) = freeSpace b) as Hfull.
    { rewrite <- Hlen. pose proof (zlen_nonneg rest). unfold len in *. unfold zlen in Hrest at 1. cbn [length] in Hrest. lia. }
    rewrite (proj2 (Z.eqb_eq _ _)) in Hrun by (unfold freeSpace, filled in *; cbn; lia).
    rewrite Hn in Hrun. cbn [free_sum foldr] in Hsum. rewrite (free_of_some _ _ _ Hb) in Hsum.
    apply IH in Hrun as (Hst2 & Hle2 & Ht2 & Hbuf2 & Hc2 & Hhd); try done.
    + split_and!; try done; [by etrans|]. rewrite Hc2, Hc1, <- app_assoc, <- Edrop. by rewrite take_drop.
    + rewrite Hs1, Hrest. unfold free_sum. lia.
    + apply (f_equal length) in Edrop. rewrite length_drop in Edrop. unfold zlen in *. cbn in *. lia.
Qed.

(** The loop that gives a block back ends after one step. *)
Lemma release_chain_ok fuel hd st :
  store_ok st -> st_tls st = None -> (0 < fuel)%nat ->
  (forall k, hd = Some k -> exists b, get_block st k = Some b /\ 0 < freeSpace b) ->
  exists st', release_chain fuel hd st = Some st' /\ store_ok st' /\ store_le st st'.
Proof.
  intros Hst Ht Hfuel Hhd. destruct hd as [k|]; [|exists st; by destruct fuel].
  destruct (Hhd k eq_refl) as (b & Hb & Hf). destruct fuel as [|fuel]; [lia|].
  cbn [release_chain]. unfold releaseBlockToTLSChain. rewrite Hb.
  rewrite (proj2 (Z.eqb_neq _ _)) by lia. rewrite Ht.
  destruct (set_next_ok st k b None Hst Hb) as [Hst1 Hle1]; [by rewrite Ht|].
  set (st1 := set_block _ _ _) in *.
  assert (get_block st1 k = Some (mk_block None (b_size b) (b_capacity b) (b_data b))) as Hb1
    by (unfold st1; rewrite get_set_block; by rewrite decide_True).
  change (get_block (set_tls (Some k) st1) k) with (get_block st1 k). rewrite Hb1.
  exists (set_tls (Some k) st1). split_and!; [by destruct fuel| |exact Hle1].
  apply set_tls_ok; [done|]. intros k0 Hk0. simplify_eq. eauto.
Qed.

(** After the blocks have been gathered *)
Lemma after_readv_ok st buf input nr blocks space st1 :
  store_ok st1 -> store_le st st1 -> linked st1 blocks -> space <= free_sum st1 blocks ->
  blocks <> [] -> st_tls st1 = None -> buf_ok st buf ->
  nr = zlen input \/ nr = -1 /\ input = [] -> zlen input <= space ->
  exists st' buf',
    after_readv input nr blocks st1 buf = Some (st', buf', nr)
    /\ store_ok st' /\ store_le st st' /\ buf_ok st' buf'
    /\ contents st' buf' = contents st buf ++ input.
Proof.
  intros Hst1 Hle1 Hl Hsp Hne Ht1 Hbuf Hnr Hspace.
  destruct (contents_le _ _ _ Hle1 Hbuf) as [Hbuf1 Hc1]. unfold after_readv.
  assert (exists hd st2 buf2,
    (if 0 <? nr then scatter (length input) input (head blocks) st1 buf else (head blocks, st1, buf))
    = (hd, st2, buf2) /\ store_ok st2 /\ store_le st1 st2 /\ st_tls st2 = None /\ buf_ok st2 buf2
    /\ contents st2 buf2 = contents st1 buf ++ input
    /\ (forall k, hd = Some k -> exists b, get_block st2 k = Some b /\ 0 < freeSpace b))
    as (hd & st2 & buf2 & -> & Hst2 & Hle2 & Ht2 & Hbuf2 & Hc2 & Hhd).
  { destruct (Z.ltb_spec 0 nr) as [Hpos|Hneg].
    - destruct (scatter (length input) input (head blocks) st1 buf) as [[hd st2] buf2] eqn:Es.
      exists hd, st2, buf2. split; [done|]. apply scatter_ok in Es; try done; [|lia].
      intros ->. unfold zlen in Hnr. cbn in Hnr. lia.
    - assert (input = []) as ->.
      { destruct Hnr as [->|[_ ->]]; [|done]. apply nil_length_inv. unfold zlen in Hneg. lia. }
      do 3 eexists. split; [reflexivity|]. rewrite app_nil_r. split_and!; try done.
      intros k Hk. destruct blocks as [|k0 blocks]; [done|]. injection Hk as ->.
      apply linked_cons in Hl as (b & ? & _ & ? & _). eauto. }
  destruct (release_chain_ok (chain_fuel st2) hd st2) as (st3 & -> & Hst3 & Hle3); try done;
    [unfold chain_fuel; lia|].
  destruct (contents_le _ _ _ Hle3 Hbuf2) as [Hbuf3 Hc3].
  do 2 eexists. split; [reflexivity|]. split_and!; [done|by do 2 (etrans; [done|])|done|].
  by rewrite Hc3, Hc2, Hc1.
Qed.

Lemma append_from_fd_eq input nr max_size st buf :
  append_from_file_descriptor input nr max_size st buf
  = match gather MAX_APPEND_IOVEC max_size 0 0 None [] st with
    | (None, st) => Some (st, buf, -1)
    | (Some (blocks, _), st) => after_readv input nr blocks st buf
    end.
Proof. reflexivity. Qed.

Lemma iov_space_eq max_size st :
  iov_space max_size st
  = match gather MAX_APPEND_IOVEC max_size 0 0 None [] st with
    | (Some (_, space), _) => space
    | (None, _) => 0
    end.
Proof. reflexivity. Qed.

Lemma append_from_fd_ok (st : store) (buf : IOBuffer) (input : list Z) (nr max_size : Z) :
  store_ok st -> buf_ok st buf ->
  nr = zlen input \/ nr = -1 /\ input = [] -> zlen input <= iov_space max_size st ->
  exists st' buf' res,
    append_from_file_descriptor input nr max_size st buf = Some (st', buf', res)
    /\ store_ok st' /\ buf_ok st' buf' /\ (res = nr \/ res = -1 /\ input = [])
    /\ contents st' buf' = contents st buf ++ input
    /\ (forall other, buf_ok st other -> buf_ok st' other /\ contents st' other = contents st other).
Proof.
  intros Hst Hbuf Hnr. rewrite append_from_fd_eq, iov_space_eq. generalize MAX_APPEND_IOVEC.
  intros fuel Hspace. destruct (gather fuel max_size 0 0 None [] st) as [res st1] eqn:Eg.
  apply gather_start in Eg as (Hst1 & Hle1 & Hres); [|done].
  destruct res as [[blocks space]|].
  - destruct Hres as (Hl & Hsp & Hne & Ht1).
    destruct (after_readv_ok st buf input nr blocks space st1)
      as (st2 & buf2 & -> & Hst2 & Hle2 & Hbuf2 & Hc2); try done.
    do 3 eexists. split; [reflexivity|]. split_and!; [done|done|by left|done|].
    intros other Ho. by apply contents_le.
  - assert (input = []) as -> by (apply nil_length_inv; unfold zlen in Hspace; lia).
    do 3 eexists. split; [reflexivity|]. rewrite app_nil_r. split_and!; [done| |by right| |].
    + by apply (contents_le st).
    + by apply contents_le.
    + intros other Ho. by apply contents_le.
Qed.

(** [append_from_file_descriptor] returns; when [readv] has stored bytes
    within the space it was offered, exactly these bytes are appended, and on
    failure nothing; the blocks and every other buffer are kept. *)
Theorem append_from_fd_contents (st : store) (buf : IOBuffer) (input : list Z) (nr max_size : Z) :
  store_ok st -> buf_ok st buf ->
  nr = zlen input \/ nr = -1 /\ input = [] -> zlen input <= iov_space max_size st ->
  exists st' buf' res,
    append_from_file_descriptor input nr max_size st buf = Some (st', buf', res)
    /\ store_ok st' /\ buf_ok st' buf' /\ (res = nr \/ res = -1 /\ input = [])
    /\ contents st' buf' = contents st buf ++ input
    /\ (forall other, buf_ok st other -> buf_ok st' other /\ contents st' other = contents st other).
Proof. apply append_from_fd_ok. Qed.

Lemma append_from_fd_contents_witness :
  exists st' buf' res,
    append_from_file_descriptor [1; 2; 3] 3 8192 two_blocks_store clear = Some (st', buf', res)
    /\ store_ok st' /\ buf_ok st' buf' /\ (res = 3 \/ res = -1 /\ [1; 2; 3] = [])
    /\ contents st' buf' = contents two_blocks_store clear ++ [1; 2; 3]
    /\ (forall other, buf_ok two_blocks_store other ->
          buf_ok st' other /\ contents st' other = contents two_blocks_store other).
Proof.
  apply (append_from_fd_contents two_blocks_store clear [1; 2; 3] 3 8192).
  - apply two_blocks_store_ok.
  - split; [constructor|apply le_n].
  - left. reflexivity.
  - vm_compute. discriminate.
Defined.
