(* ===== verification/IoBuffers.v ===== *)
(** * Programs over several buffers (src/common/io_buffer.cpp, io_buffer.h)

    The buffers of a thread share the blocks of its store. A program is any
    sequence of operations of [IOBuffer] on them. However the operations are
    mixed, every buffer stays well formed; and as long as a buffer that is
    appended to another one has not been consumed before, the buffers hold
    what lists of bytes would hold. *)

From stdpp Require Import gmap.
From S2P Require Import Prelude ByteBuffer IoBuffer IoBufferProps IoBufferFd.

(** One operation: [i] is the buffer it is called on, [j] its argument. What
    [readv] and [writev] do is part of the operation. *)
Inductive io_op : Type :=
| Io_append (i : nat) (data : list Z)
| Io_append_char (i : nat) (c : Z)
| Io_append_copy (i j : nat)
| Io_append_move (i j : nat)
| Io_cut_buffer (i j : nat) (n : Z)
| Io_cut (i : nat) (n : Z)
| Io_copy_to (i : nat) (n : Z)
| Io_pop_front (i : nat) (n : Z)
| Io_pop_back (i : nat) (n : Z)
| Io_clear (i : nat)
| Io_copy_assign (i j : nat)
| Io_move_assign (i j : nat)
| Io_swap (i j : nat)
| Io_from_fd (i : nat) (input : list Z) (nr max_size : Z)
| Io_into_fd (i : nat) (size_hint nw : Z).

(** The bytes an operation hands out, the store and the buffers; [None] when a
    buffer does not exist or an operation is undefined *)
Definition io_result : Type := option (list Z * store * list IOBuffer).

Definition io_step (op : io_op) (st : store) (bufs : list IOBuffer) : io_result :=
  match op with
  | Io_append i data =>
      b ← bufs !! i; let '(st, b) := append data st b in Some ([], st, <[i := b]> bufs)
  | Io_append_char i c =>
      b ← bufs !! i; let '(st, b) := append_char c st b in Some ([], st, <[i := b]> bufs)
  | Io_append_copy i j =>
      b ← bufs !! i; other ← bufs !! j; Some ([], st, <[i := append_copy other b]> bufs)
  | Io_append_move i j =>
      b ← bufs !! i; other ← bufs !! j;
      let '(b, other) := append_move other b in Some ([], st, <[j := other]> (<[i := b]> bufs))
  | Io_cut_buffer i j n =>
      b ← bufs !! i; out ← bufs !! j;
      let '(b, out, _) := cut_buffer n b out in Some ([], st, <[j := out]> (<[i := b]> bufs))
  | Io_cut i n =>
      b ← bufs !! i; let '(b, bytes, _) := cut n st b in Some (bytes, st, <[i := b]> bufs)
  | Io_copy_to i n =>
      b ← bufs !! i; let '(bytes, _) := copy_to n st b in Some (bytes, st, bufs)
  | Io_pop_front i n =>
      b ← bufs !! i; let '(b, _) := pop_front n b in Some ([], st, <[i := b]> bufs)
  | Io_pop_back i n =>
      b ← bufs !! i; let '(b, _) := pop_back n b in Some ([], st, <[i := b]> bufs)
  | Io_clear i => b ← bufs !! i; Some ([], st, <[i := clear]> bufs)
  | Io_copy_assign i j => b ← bufs !! i; other ← bufs !! j; Some ([], st, <[i := copy_assign other]> bufs)
  | Io_move_assign i j =>
      b ← bufs !! i; other ← bufs !! j;
      let '(b, other) := move_assign b other in Some ([], st, <[j := other]> (<[i := b]> bufs))
  | Io_swap i j =>
      b ← bufs !! i; other ← bufs !! j;
      let '(b, other) := swap b other in Some ([], st, <[j := other]> (<[i := b]> bufs))
  | Io_from_fd i input nr max_size =>
      b ← bufs !! i;
      match append_from_file_descriptor input nr max_size st b with
      | Some (st, b, _) => Some ([], st, <[i := b]> bufs)
      | None => None
      end
  | Io_into_fd i size_hint nw =>
      b ← bufs !! i;
      match cut_into_file_descriptor size_hint nw st b with
      | Some (offered, b, nw) => Some (take (Z.to_nat nw) offered, st, <[i := b]> bufs)
      | None => None
      end
  end.

Fixpoint io_run (ops : list io_op) (st : store) (bufs : list IOBuffer) : option (list (list Z) * store * list IOBuffer) :=
  match ops with
  | [] => Some ([], st, bufs)
  | op :: ops =>
      match io_step op st bufs with
      | None => None
      | Some (out, st, bufs) =>
          match io_run ops st bufs with
          | None => None
          | Some (outs, st, bufs) => Some (out :: outs, st, bufs)
          end
      end
  end.

(** ** The specification: lists of bytes *)

Definition at_ (l : list (list Z)) (i : nat) : list Z := default [] (l !! i).

Definition io_spec (op : io_op) (l : list (list Z)) : list Z * list (list Z) :=
  match op with
  | Io_append i data | Io_from_fd i data _ _ => ([], <[i := at_ l i ++ data]> l)
  | Io_append_char i c => ([], <[i := at_ l i ++ [c]]> l)
  | Io_append_copy i j => ([], <[i := at_ l i ++ at_ l j]> l)
  | Io_append_move i j => ([], <[j := []]> (<[i := at_ l i ++ at_ l j]> l))
  | Io_cut_buffer i j n =>
      ([], <[j := at_ l j ++ take (Z.to_nat n) (at_ l i)]> (<[i := drop (Z.to_nat n) (at_ l i)]> l))
  | Io_cut i n | Io_into_fd i _ n => (take (Z.to_nat n) (at_ l i), <[i := drop (Z.to_nat n) (at_ l i)]> l)
  | Io_copy_to i n => (take (Z.to_nat n) (at_ l i), l)
  | Io_pop_front i n => ([], <[i := drop (Z.to_nat n) (at_ l i)]> l)
  | Io_pop_back i n => ([], <[i := take (length (at_ l i) - Z.to_nat n) (at_ l i)]> l)
  | Io_clear i => ([], <[i := []]> l)
  | Io_copy_assign i j => ([], <[i := at_ l j]> l)
  | Io_move_assign i j => ([], <[j := []]> (<[i := at_ l j]> l))
  | Io_swap i j => ([], <[j := at_ l i]> (<[i := at_ l j]> l))
  end.

Fixpoint io_spec_run (ops : list io_op) (l : list (list Z)) : list (list Z) * list (list Z) :=
  match ops with
  | [] => ([], l)
  | op :: ops =>
      let '(out, l) := io_spec op l in
      let '(outs, l) := io_spec_run ops l in (out :: outs, l)
  end.

(** ** When an operation is defined, and when it is exact *)

(** The buffers exist and are different ones; sizes are not negative; [readv]
    and [writev] keep to their documentation; [cut_into_file_descriptor] has a
    slice; and the [_ref_offset] that [operator=(IOBuffer&&)] leaves behind is
    within the new slices. *)
Definition io_pre (op : io_op) (st : store) (bufs : list IOBuffer) : Prop :=
  match op with
  | Io_append i _ | Io_append_char i _ | Io_clear i => is_Some (bufs !! i)
  | Io_append_copy i j | Io_append_move i j | Io_copy_assign i j | Io_swap i j =>
      is_Some (bufs !! i) /\ is_Some (bufs !! j) /\ i <> j
  | Io_cut_buffer i j n => is_Some (bufs !! i) /\ is_Some (bufs !! j) /\ i <> j /\ 0 <= n
  | Io_cut i n | Io_copy_to i n | Io_pop_front i n | Io_pop_back i n => is_Some (bufs !! i) /\ 0 <= n
  | Io_move_assign i j =>
      i <> j /\ exists b other, bufs !! i = Some b /\ bufs !! j = Some other /\ (ref_offset b <= length (ref other))%nat
  | Io_from_fd i input nr max_size =>
      is_Some (bufs !! i) /\ (nr = zlen input \/ nr = -1 /\ input = []) /\ zlen input <= iov_space max_size st
  | Io_into_fd i size_hint nw =>
      match bufs !! i with
      | Some b =>
          (0 < slice_num b)%nat
          /\ match cut_into_file_descriptor size_hint nw st b with
             | Some (offered, _, _) => nw <= zlen offered
             | None => False
             end
      | None => False
      end
  end.

(** There is memory, and no slice of an argument was consumed before. *)
Definition io_exact (op : io_op) (st : store) (bufs : list IOBuffer) : Prop :=
  match op with
  | Io_append _ data => zlen data <= room st
  | Io_append_char _ _ => 1 <= room st
  | Io_append_copy _ j | Io_append_move _ j => ref_offset <$> bufs !! j = Some O
  | Io_move_assign i j => ref_offset <$> bufs !! i = ref_offset <$> bufs !! j
  | _ => True
  end.

(** A condition along a run *)
Fixpoint io_along (P : io_op -> store -> list IOBuffer -> Prop) (ops : list io_op) (st : store) (bufs : list IOBuffer) : Prop :=
  match ops with
  | [] => True
  | op :: ops =>
      P op st bufs
      /\ match io_step op st bufs with
         | Some (_, st, bufs) => io_along P ops st bufs
         | None => True
         end
  end.

(** ** Every step *)

Definition io_all_ok (st : store) (bufs : list IOBuffer) : Prop := store_ok st /\ Forall (buf_ok st) bufs.

Definition io_contents (st : store) (bufs : list IOBuffer) : list (list Z) := contents st <$> bufs.

Lemma at_contents st bufs i b : bufs !! i = Some b -> at_ (io_contents st bufs) i = contents st b.
Proof. intros Hb. unfold at_, io_contents. by rewrite list_lookup_fmap, Hb. Qed.

Lemma contents_insert st bufs i b : io_contents st (<[i := b]> bufs) = <[i := contents st b]> (io_contents st bufs).
Proof. apply list_fmap_insert. Qed.

(** A store that grows keeps the buffers. *)
Lemma grow_all st st' bufs :
  io_all_ok st bufs -> store_ok st' ->
  (forall other, buf_ok st other -> buf_ok st' other /\ contents st' other = contents st other) ->
  io_all_ok st' bufs /\ io_contents st' bufs = io_contents st bufs.
Proof.
  intros [_ Hall] Hst Hgrow. split; [split; [done|]|].
  - eapply Forall_impl; [|exact Hall]. intros b Hb. by apply Hgrow.
  - unfold io_contents. induction Hall as [|b bufs Hb Hall IH]; [done|]. cbn. rewrite IH. f_equal. by apply Hgrow.
Qed.

Lemma insert_all_ok st bufs i b : io_all_ok st bufs -> buf_ok st b -> io_all_ok st (<[i := b]> bufs).
Proof. intros [Hst Hall] Hb. split; [done|]. by apply Forall_insert. Qed.

Lemma all_ok_lookup st bufs i b : io_all_ok st bufs -> bufs !! i = Some b -> buf_ok st b.
Proof. intros [_ Hall] Hb. by eapply Forall_lookup_1. Qed.

Lemma clear_ok st : buf_ok st clear.
Proof. split; [constructor|apply le_n]. Qed.

Lemma append_char_append c st b : store_ok st -> append_char c st b = append [c] st b.
Proof.
  intros Hst. unfold append_char, append. cbn [append_loop length].
  destruct (shareBlockFromTLSChain st) as [k st1] eqn:E. apply share_ok in E as (_ & _ & _ & Hk); [|done].
  destruct k as [k|]; [|done]. destruct Hk as (_ & b0 & -> & Hfree).
  replace (Z.to_nat (Z.min (zlen [c]) (freeSpace b0))) with 1%nat by (change (zlen [c]) with 1; lia).
  cbn [take drop]. by destruct (push_bytes k b0 [c] st1 b).
Qed.

(** The step of an operation: it is defined, keeps every buffer well formed,
    and is the one of the specification when it is exact. *)
Definition io_good (op : io_op) (st : store) (bufs : list IOBuffer) : Prop :=
  exists out st' bufs', io_step op st bufs = Some (out, st', bufs') /\ io_all_ok st' bufs' /\ length bufs' = length bufs
    /\ (io_exact op st bufs -> (out, io_contents st' bufs') = io_spec op (io_contents st bufs)).

Lemma append_good i data st bufs : io_all_ok st bufs -> is_Some (bufs !! i) -> io_good (Io_append i data) st bufs.
Proof.
  intros Hall [b Hb]. pose proof (all_ok_lookup _ _ _ _ Hall Hb) as Hok.
  pose proof (append_frame st b data (proj1 Hall) Hok) as Ha.
  unfold io_good. cbn [io_step io_exact io_spec]. rewrite Hb, (at_contents st bufs i b Hb). cbn [mbind option_bind].
  destruct (append data st b) as [st' b']. destruct Ha as (Hst' & Hb' & Hc & Hgrow).
  destruct (grow_all st st' bufs Hall Hst' Hgrow) as [Hall' Heq].
  eexists _, _, _. split; [reflexivity|]. split; [by apply insert_all_ok|]. split; [apply length_insert|]. intros Hroom.
  rewrite contents_insert, Hc, Heq, take_ge; [done|]. unfold zlen in Hroom. lia.
Qed.

Lemma append_char_good i c st bufs : io_all_ok st bufs -> is_Some (bufs !! i) -> io_good (Io_append_char i c) st bufs.
Proof.
  intros Hall Hi. destruct (append_good i [c] st bufs Hall Hi) as (out & st' & bufs' & Hrun & Hok & Hl & Hspec).
  exists out, st', bufs'. split_and!; [|done|done|by intros Hroom; apply Hspec].
  cbn [io_step] in *. destruct (bufs !! i) as [b|]; [|done]. cbn [mbind option_bind] in *.
  by rewrite append_char_append by apply Hall.
Qed.

Ltac io_start Hall :=
  unfold io_good; cbn [io_step io_exact io_spec io_pre];
  repeat match goal with
  | H : ?bufs !! ?i = Some ?b |- context [?bufs !! ?i] => rewrite H
  end; cbn [mbind option_bind];
  repeat match goal with
  | H : ?bufs !! ?i = Some ?b |- _ =>
      rewrite ?(at_contents _ bufs i b H); pose proof (all_ok_lookup _ _ _ _ Hall H); revert H
  end; intros.

(** Slices that are taken over whole *)
Lemma append_copy_buf_ok st other b : buf_ok st other -> buf_ok st b -> buf_ok st (append_copy other b).
Proof. intros [Hf1 Ho1] [Hf2 Ho2]. split; cbn; [by apply Forall_app|rewrite length_app; lia]. Qed.

Lemma same_slices_ok st b offset : buf_ok st b -> (offset <= length (ref b))%nat -> buf_ok st (mk_IOBuffer (ref b) offset).
Proof. by intros [Hf _]. Qed.

Ltac io_finish :=
  eexists _, _, _; split; [reflexivity|]; split; [repeat apply insert_all_ok; eauto using append_copy_buf_ok, same_slices_ok, clear_ok|];
  split; [by rewrite ?length_insert|];
  intros Hexact; rewrite ?contents_insert.

Lemma copies_good op st bufs i j :
  io_all_ok st bufs -> is_Some (bufs !! i) /\ is_Some (bufs !! j) /\ i <> j ->
  op = Io_append_copy i j \/ op = Io_append_move i j \/ op = Io_copy_assign i j \/ op = Io_swap i j ->
  io_good op st bufs.
Proof.
  intros Hall ([b Hb] & [other Ho] & Hij) Hop.
  pose proof (append_copy_ok st other b) as Hcopy.
  destruct Hop as [->|[->|[->| ->]]]; io_start Hall; cbn [append_move swap]; unfold copy_assign.
  - io_finish. destruct (Hcopy ltac:(done) ltac:(done)) as [_ ->]; [by injection Hexact|done].
  - io_finish. destruct (Hcopy ltac:(done) ltac:(done)) as [_ ->]; [by injection Hexact|done].
  - io_finish. done.
  - io_finish. done.
Qed.

Lemma move_assign_good i j st bufs :
  io_all_ok st bufs -> io_pre (Io_move_assign i j) st bufs -> io_good (Io_move_assign i j) st bufs.
Proof.
  intros Hall (Hij & b & other & Hb & Ho & Hoff). io_start Hall. cbn [move_assign].
  io_finish. injection Hexact as Hexact.
  unfold contents at 2, to_string. cbn [ref ref_offset]. by rewrite Hexact.
Qed.

Lemma takes_good op st bufs i n :
  io_all_ok st bufs -> is_Some (bufs !! i) /\ 0 <= n ->
  op = Io_cut i n \/ op = Io_copy_to i n \/ op = Io_pop_front i n \/ op = Io_pop_back i n -> io_good op st bufs.
Proof.
  intros Hall ([b Hb] & Hn) Hop. pose proof (all_ok_lookup _ _ _ _ Hall Hb) as Hok.
  pose proof (io_cut_law st b n (conj (proj1 Hall) Hok) Hn) as Hcut.
  pose proof (io_copy_to_law st b n (conj (proj1 Hall) Hok) Hn) as Hcopy.
  pose proof (io_pop_front_law st b n (conj (proj1 Hall) Hok) Hn) as Hpop.
  pose proof (pop_back_contents st b n (proj1 Hall) Hok Hn) as Hback.
  destruct Hop as [->|[->|[->| ->]]]; io_start Hall.
  - destruct (cut n st b) as [[b' bytes] size]. destruct Hcut as ([_ Hb'] & -> & _ & Hc). io_finish. by rewrite Hc.
  - destruct (copy_to n st b) as [bytes size]. destruct Hcopy as [-> _].
    eexists _, _, _. by split_and!.
  - destruct (pop_front n b) as [b' size]. destruct Hpop as ([_ Hb'] & _ & Hc). io_finish. by rewrite Hc.
  - destruct (pop_back n b) as [b' size]. destruct Hback as (Hb' & _ & Hc). io_finish. by rewrite Hc.
Qed.

Lemma cut_buffer_good i j n st bufs :
  io_all_ok st bufs -> io_pre (Io_cut_buffer i j n) st bufs -> io_good (Io_cut_buffer i j n) st bufs.
Proof.
  intros Hall ([b Hb] & [out Ho] & Hij & Hn). io_start Hall.
  pose proof (cut_buffer_ok st b out n (proj1 Hall) ltac:(done) ltac:(done) Hn) as Hcut.
  destruct (cut_buffer n b out) as [[b' out'] size]. destruct Hcut as (Hb' & Hout' & _ & Hco & Hcb).
  io_finish. by rewrite Hco, Hcb.
Qed.

Lemma fd_good op st bufs :
  io_all_ok st bufs -> io_pre op st bufs ->
  (exists i input nr max_size, op = Io_from_fd i input nr max_size) \/ (exists i size_hint nw, op = Io_into_fd i size_hint nw) ->
  io_good op st bufs.
Proof.
  intros Hall Hpre [(i & input & nr & max_size & ->)|(i & size_hint & nw & ->)]; cbn [io_pre] in Hpre.
  - destruct Hpre as ([b Hb] & Hnr & Hspace). io_start Hall.
    destruct (append_from_fd_ok st b input nr max_size (proj1 Hall) ltac:(done) Hnr Hspace)
      as (st' & b' & res & -> & Hst' & Hb' & _ & Hc & Hgrow).
    destruct (grow_all st st' bufs Hall Hst' Hgrow) as [Hall' Heq]. io_finish. by rewrite Hc, Heq.
  - destruct (bufs !! i) as [b|] eqn:Hb; [|done]. destruct Hpre as (Hnum & Hoff). io_start Hall.
    destruct (cut_into_fd_ok st b size_hint nw (proj1 Hall) ltac:(done) Hnum) as (offered & b' & Hcut & Hb' & Hc).
    rewrite Hcut in *. specialize (Hc Hoff). io_finish.
    assert (length (take (Z.to_nat nw) offered) = Z.to_nat nw) as Hl by (rewrite length_take; unfold zlen in Hoff; lia).
    rewrite Hc, take_app_length', drop_app_length' by done. done.
Qed.

Lemma io_step_good op st bufs : io_all_ok st bufs -> io_pre op st bufs -> io_good op st bufs.
Proof.
  intros Hall Hpre. destruct op; cbn [io_pre] in Hpre;
    first [by apply append_good | by apply append_char_good | by eapply copies_good; eauto | by apply cut_buffer_good
          | by eapply takes_good; eauto | by apply move_assign_good | by apply fd_good; eauto | idtac].
  - destruct Hpre as [b Hb]. io_start Hall. io_finish. done.
  - apply fd_good; [done|done|]. left. eauto.
Qed.

(** Runs, with both promises at once *)
Lemma io_run_good (exact : bool) ops : forall st bufs,
  io_all_ok st bufs ->
  io_along (fun op st bufs => io_pre op st bufs /\ (exact = true -> io_exact op st bufs)) ops st bufs ->
  exists outs st' bufs', io_run ops st bufs = Some (outs, st', bufs') /\ io_all_ok st' bufs'
    /\ length outs = length ops /\ length bufs' = length bufs
    /\ (exact = true -> (outs, io_contents st' bufs') = io_spec_run ops (io_contents st bufs)).
Proof.
  induction ops as [|op ops IH]; intros st bufs Hall Hpre; [by exists [], st, bufs|].
  destruct Hpre as [[Hpre Hex] Hrest].
  destruct (io_step_good op st bufs Hall Hpre) as (out & st1 & bufs1 & Hstep & Hall1 & Hl1 & Hspec).
  cbn [io_run io_spec_run]. rewrite Hstep in *.
  destruct (IH st1 bufs1 Hall1 Hrest) as (outs & st2 & bufs2 & -> & Hall2 & Hlen & Hlen2 & Hspec2).
  exists (out :: outs), st2, bufs2. split_and!; [done|done|cbn; lia|lia|]. intros He.
  rewrite <- (Hspec (Hex He)), <- (Hspec2 He). done.
Qed.

Lemma io_along_impl (P Q : io_op -> store -> list IOBuffer -> Prop) ops : forall st bufs,
  (forall op st bufs, P op st bufs -> Q op st bufs) -> io_along P ops st bufs -> io_along Q ops st bufs.
Proof.
  induction ops as [|op ops IH]; intros st bufs HPQ Hp; [done|]. destruct Hp as [Hp Hrest].
  split; [by apply HPQ|]. destruct (io_step op st bufs) as [[[out st1] bufs1]|]; [by apply IH|done].
Qed.

(** ** Theorems *)

(** C35: the buffers of a thread stay well formed. In a sequence of operations,
    on buffers that share blocks in any way and with as little memory as there
    may be, each operation is defined and leaves the store and every buffer
    valid: each slice lies within the used part of a block that exists, and
    [_ref_offset] within the slices. Conditions, at each operation ([io_pre]):
    - the buffers it names exist, two buffers it names are distinct, and
      lengths are not negative;
    - in a move assignment the slices the target has already consumed are no
      more than the slices it is given: [operator=] leaves [_ref_offset] as it
      was (io_buffer.cpp:132), and beyond them the target is not well formed
      ([move_assign_breaks]);
    - [readv] answers the number of bytes it has put into the slices, at most
      their size, or -1 and none; [writev] answers at most what it was offered;
    - a buffer written to a descriptor has a slice. *)
Theorem buffers_well_formed (ops : list io_op) (st : store) (bufs : list IOBuffer) :
  io_all_ok st bufs -> io_along io_pre ops st bufs ->
  exists outs st' bufs', io_run ops st bufs = Some (outs, st', bufs') /\ io_all_ok st' bufs'
    /\ length outs = length ops /\ length bufs' = length bufs.
Proof.
  intros Hall Hpre. destruct (io_run_good false ops st bufs Hall) as (outs & st' & bufs' & Hrun & Hall' & Hl & Hl' & _).
  - eapply io_along_impl; [|exact Hpre]. by intros op st0 bufs0.
  - by exists outs, st', bufs'.
Qed.

(** C36: the buffers of a thread behave as as many lists of bytes: the bytes
    handed out and the contents of all the buffers are those of the lists,
    although the buffers share blocks, slices are moved between them without
    copying, and the last slice is extended in place. Conditions, at each
    operation: those of C35 ([io_pre]), and ([io_exact])
    - there is memory for the bytes appended;
    - of a buffer that is appended to another, by copy or by move, no slice was
      consumed before;
    - in a move assignment target and source have consumed equally many slices:
      [operator=] does not move [_ref_offset] (io_buffer.cpp:132), so a consumed
      buffer moved into a fresh one brings its consumed bytes back, and a fresh
      one moved into a consumed one loses slices ([move_assign_breaks]). *)
Theorem buffers_refine (ops : list io_op) (st : store) (bufs : list IOBuffer) :
  io_all_ok st bufs -> io_along (fun op st bufs => io_pre op st bufs /\ io_exact op st bufs) ops st bufs ->
  exists outs st' bufs', io_run ops st bufs = Some (outs, st', bufs')
    /\ (outs, io_contents st' bufs') = io_spec_run ops (io_contents st bufs).
Proof.
  intros Hall Hpre. destruct (io_run_good true ops st bufs Hall) as (outs & st' & bufs' & Hrun & _ & _ & _ & Hspec).
  - eapply io_along_impl; [|exact Hpre]. intros op st0 bufs0 [Hp He]. by split.
  - exists outs, st', bufs'. split; [done|by apply Hspec].
Qed.

(** A buffer is filled, cut into a second one, and both go on being used. *)
Definition sample_program : list io_op :=
  [Io_append 0 (bytes_of_string "header"); Io_append_char 0 32; Io_append 0 (bytes_of_string "body");
   Io_cut_buffer 0 1 7; Io_pop_back 1 1; Io_copy_assign 2 1; Io_append 1 (bytes_of_string "!");
   Io_append_move 2 1; Io_cut 0 2; Io_swap 0 2; Io_from_fd 1 [1; 2] 2 4096; Io_into_fd 1 2 2; Io_copy_to 2 4].

Lemma buffers_refine_witness :
  exists outs st bufs, io_run sample_program two_blocks_store [clear; clear; clear] = Some (outs, st, bufs)
    /\ io_contents st bufs = [bytes_of_string "headerheader!"; []; bytes_of_string "dy"]
    /\ concat outs = bytes_of_string "bo" ++ [1; 2] ++ bytes_of_string "dy".
Proof.
  destruct (buffers_refine sample_program two_blocks_store [clear; clear; clear]) as (outs & st & bufs & Hrun & Hspec).
  - split; [apply two_blocks_store_ok|]. repeat (apply Forall_cons; [apply clear_ok|]). constructor.
  - vm_compute. repeat split; first [discriminate | by eexists | lia | by left | idtac].
  - exists outs, st, bufs. split; [exact Hrun|]. injection Hspec as Ho Hc. rewrite Ho, Hc.
    split; vm_compute; reflexivity.
Defined.

(** Less memory than is asked for, a buffer that was consumed
    and is appended, and a move: all the same the buffers stay well formed. *)
Definition rough_program : list io_op :=
  [Io_append 0 (replicate (Z.to_nat 9000) 7); Io_pop_front 0 8500; Io_append_copy 1 0; Io_move_assign 2 1; Io_append_char 2 1].

Lemma buffers_well_formed_witness :
  exists outs st bufs, io_run rough_program (mk_store ∅ None 1 0) [clear; clear; clear] = Some (outs, st, bufs)
    /\ io_all_ok st bufs /\ zlen <$> io_contents st bufs = [0; 0; 8168].
Proof.
  destruct (buffers_well_formed rough_program (mk_store ∅ None 1 0) [clear; clear; clear])
    as (outs & st & bufs & Hrun & Hall & _).
  - split; [split; [intros k b Hb; discriminate Hb|done]|]. repeat (apply Forall_cons; [apply clear_ok|]). constructor.
  - vm_compute. repeat split; first [discriminate | by eexists | idtac].
    eexists _, _. split; [reflexivity|]. split; [reflexivity|]. apply le_0_n.
  - exists outs, st, bufs. split; [exact Hrun|]. split; [exact Hall|].
    assert (exists l, (fun r => match r with Some (_, st, bufs) => Some (zlen <$> io_contents st bufs) | None => None end)
      (io_run rough_program (mk_store ∅ None 1 0) [clear; clear; clear]) = Some l /\ l = [0; 0; 8168]) as (l & Hl & ->)
      by (eexists; split; vm_compute; reflexivity).
    rewrite Hrun in Hl. by injection Hl.
Defined.

(** The move assignment on buffers with consumed slices: buffer 0 is filled in
    two slices and the first is consumed. Moved into a fresh buffer it has its
    consumed bytes again; a buffer of one slice moved into it is lost, and an
    empty one moved into it leaves it with an offset beyond its slices. *)
Definition consumed_program : list io_op :=
  [Io_append 0 (bytes_of_string "ab"); Io_append 1 (bytes_of_string "x"); Io_append 0 (bytes_of_string "cd");
   Io_pop_front 0 2].

Definition after_move (i j : nat) : option (list (list Z) * list bool) :=
  match io_run (consumed_program ++ [Io_move_assign i j]) two_blocks_store [clear; clear; clear] with
  | Some (_, st, bufs) => Some (io_contents st bufs, (fun b => bool_decide (ref_offset b <= length (ref b))%nat) <$> bufs)
  | None => None
  end.

Lemma move_assign_breaks :
  after_move 2 0 = Some ([[]; bytes_of_string "x"; bytes_of_string "abcd"], [true; true; true])
  /\ after_move 0 1 = Some ([[]; []; []], [true; true; true])
  /\ after_move 0 2 = Some ([[]; bytes_of_string "x"; []], [false; true; true]).
Proof. vm_compute. repeat split; reflexivity. Qed.
