(* ===== verification/IoStream.v ===== *)
(** * The protobuf streams over [IOBuffer]

    [IOBufferZeroCopyInputStream] and [IOBufferZeroCopyOutputStream] of
    src/common/io_buffer.cpp: reading a buffer slice by slice without copying,
    and handing out the free space of blocks to be filled by the serialiser.
    [None] of the output stream is undefined behaviour: a null block when
    [malloc] fails, and the slice that [BackUp] reads after it has removed it. *)

From stdpp Require Import gmap.
From S2P Require Import Prelude ByteBuffer IoBuffer IoBufferProps IoBufferFd.

(** ** Input *)

(** [class IOBufferZeroCopyInputStream], without the buffer *)
Record in_stream := mk_in_stream {
  is_byte_count : Z;
  is_add_offset : Z;
  is_ref_index : nat
}.

Definition new_in_stream (buf : IOBuffer) : in_stream := mk_in_stream 0 0 (ref_offset buf).

(** [Next]: the bytes from [*data] on, or [false] *)
Definition in_next (st : store) (buf : IOBuffer) (s : in_stream) : option (list Z) * in_stream :=
  match ref buf !! is_ref_index s with
  | None => (None, s)
  | Some sl =>
      let size := u64 (s_length sl - is_add_offset s) in
      (Some (slice_bytes st (mk_slice (s_block sl) (s_offset sl + is_add_offset s) (s32 size))),
       mk_in_stream (u64 (is_byte_count s + size)) 0 (S (is_ref_index s)))
  end.

(** [BackUp(count)] *)
Definition in_backup (count : Z) (buf : IOBuffer) (s : in_stream) : in_stream :=
  if (ref_offset buf <? is_ref_index s)%nat then
    let idx := (is_ref_index s - 1)%nat in
    match ref buf !! idx with
    | Some sl => mk_in_stream (u64 (is_byte_count s - count)) (u32 (s_length sl - count)) idx
    | None => s
    end
  else s.

(** [Skip(count)] *)
Fixpoint skip_loop (fuel : nat) (count : Z) (buf : IOBuffer) (s : in_stream) : bool * in_stream :=
  match fuel with
  | O => (false, s)
  | S fuel =>
      match ref buf !! is_ref_index s with
      | None => (false, s)
      | Some sl =>
          let left_bytes := s32 (u64 (s_length sl - is_add_offset s)) in
          if count <? left_bytes then
            (true, mk_in_stream (u64 (is_byte_count s + count)) (u64 (is_add_offset s + count))
                     (is_ref_index s))
          else
            let s := mk_in_stream (u64 (is_byte_count s + left_bytes)) 0 (S (is_ref_index s)) in
            if (length (ref buf) <=? is_ref_index s)%nat then (false, s)
            else skip_loop fuel (s32 (count - left_bytes)) buf s
      end
  end.

Definition in_skip (count : Z) (buf : IOBuffer) (s : in_stream) : bool * in_stream :=
  if (length (ref buf) <=? is_ref_index s)%nat then (false, s)
  else skip_loop (length (ref buf)) count buf s.

Definition in_byte_count (s : in_stream) : Z := is_byte_count s.

(** ** Output *)

(** [class IOBufferZeroCopyOutputStream], without the buffer *)
Record out_stream := mk_out_stream { os_byte_count : Z }.

Definition new_out_stream : out_stream := mk_out_stream 0.

(** [Next]: the block, the offset and the size of the space handed out *)
Definition out_next (st : store) (buf : IOBuffer) (s : out_stream)
    : option (store * IOBuffer * out_stream * (nat * Z * Z)) :=
  let '(k, st) := shareBlockFromTLSChain st in
  match k with
  | None => None
  | Some k =>
      match get_block st k with
      | None => None
      | Some b =>
          let size := freeSpace b in
          Some (set_block k (mk_block (b_next b) (b_capacity b) (b_capacity b) (b_data b)) st,
                mk_IOBuffer (ref buf ++ [mk_slice k (b_size b) size]) (ref_offset buf),
                mk_out_stream (u64 (os_byte_count s + size)), (k, b_size b, size))
      end
  end.

(** [BackUp(count)] *)
Definition out_backup (count : Z) (st : store) (buf : IOBuffer) (s : out_stream)
    : option (store * IOBuffer * out_stream) :=
  match list.last (ref buf) with
  | None => Some (st, buf, s)
  | Some sl =>
      if count =? 0 then Some (st, buf, s)
      else if count <? s32 (s_length sl) then
        match get_block st (s_block sl) with
        | None => None
        | Some b =>
            Some (set_block (s_block sl) (mk_block (b_next b) (b_size b - count) (b_capacity b) (b_data b)) st,
                  mk_IOBuffer (take (length (ref buf) - 1) (ref buf)
                                 ++ [mk_slice (s_block sl) (s_offset sl) (s_length sl - count)])
                    (ref_offset buf),
                  mk_out_stream (u64 (os_byte_count s - count)))
        end
      else None
  end.

Definition out_byte_count (s : out_stream) : Z := os_byte_count s.

(** ** The input stream reads the buffer *)

(** The slices before the position, and the position in the contents *)
Definition read_slices (buf : IOBuffer) (s : in_stream) : list slice :=
  take (is_ref_index s - ref_offset buf) (drop (ref_offset buf) (ref buf)).

Record in_ok (st : store) (buf : IOBuffer) (s : in_stream) : Prop := {
  io_low : (ref_offset buf <= is_ref_index s <= length (ref buf))%nat;
  io_add : is_add_offset s = 0 \/ exists sl, ref buf !! is_ref_index s = Some sl
                                             /\ 0 <= is_add_offset s <= s_length sl;
  io_count : is_byte_count s = slices_len (read_slices buf s) + is_add_offset s
}.

Definition in_remaining (st : store) (buf : IOBuffer) (s : in_stream) : list Z :=
  drop (Z.to_nat (is_byte_count s)) (contents st buf).

Section Input.
Context (st : store) (buf : IOBuffer).
Hypothesis (Hst : store_ok st) (Hbuf : buf_ok st buf) (Hsmall : zlen (contents st buf) < 2 ^ 31).

Lemma new_in_ok : in_ok st buf (new_in_stream buf).
Proof.
  destruct Hbuf as [_ Ho]. split; cbn; [lia|by left|]. unfold read_slices. cbn. by rewrite Nat.sub_diag.
Qed.

(** The contents are the slices read and the slices still to be read. *)
Lemma contents_split s :
  in_ok st buf s ->
  contents st buf = flat_map (slice_bytes st) (read_slices buf s)
                    ++ flat_map (slice_bytes st) (drop (is_ref_index s) (ref buf)).
Proof.
  intros Hin. pose proof (io_low _ _ _ Hin) as Hlow. unfold contents, to_string, read_slices.
  rewrite <- flat_map_app. f_equal.
  replace (drop (is_ref_index s) (ref buf))
    with (drop (is_ref_index s - ref_offset buf) (drop (ref_offset buf) (ref buf)))
    by (rewrite drop_drop; f_equal; lia).
  by rewrite take_drop.
Qed.

Lemma slices_ok l : (exists a b, l = take a (drop b (ref buf))) \/ (exists b, l = drop b (ref buf)) ->
  zlen (flat_map (slice_bytes st) l) = slices_len l /\ Forall (slice_ok st) l.
Proof.
  destruct Hbuf as [Hf _]. intros Hl. assert (Forall (slice_ok st) l) as Hok.
  { destruct Hl as [(a & b & ->)|[b ->]]; [by apply Forall_take, Forall_drop|by apply Forall_drop]. }
  split; [|done]. by apply flat_map_length.
Qed.

Lemma slices_len_nonneg l : Forall (slice_ok st) l -> 0 <= slices_len l.
Proof.
  intros Hl. rewrite <- (flat_map_length st l Hst Hl). apply zlen_nonneg.
Qed.

Lemma drop_app_zlen_add (l k : list Z) m :
  0 <= m -> drop (Z.to_nat (zlen l + m)) (l ++ k) = drop (Z.to_nat m) k.
Proof.
  intros Hm. unfold zlen. replace (Z.to_nat (Z.of_nat (length l) + m))
    with (length l + Z.to_nat m)%nat by lia.
  apply drop_app_add.
Qed.

(** What remains is what remains of the slices still to be read. *)
Lemma remaining_slices s :
  in_ok st buf s ->
  in_remaining st buf s
  = drop (Z.to_nat (is_add_offset s)) (flat_map (slice_bytes st) (drop (is_ref_index s) (ref buf))).
Proof.
  intros Hin. destruct (slices_ok (read_slices buf s)) as [Hr _]; [left; by do 2 eexists|].
  unfold in_remaining. rewrite (contents_split s Hin), (io_count _ _ _ Hin), <- Hr.
  apply drop_app_zlen_add. destruct (io_add _ _ _ Hin) as [->|(? & _ & ?)]; lia.
Qed.

(** The next slice: the numbers of the step stay in range. *)
Lemma next_slice s sl :
  in_ok st buf s -> ref buf !! is_ref_index s = Some sl ->
  slice_ok st sl /\ 0 <= is_add_offset s <= s_length sl /\ is_add_offset s <= is_byte_count s
  /\ is_byte_count s + (s_length sl - is_add_offset s) <= zlen (contents st buf)
  /\ in_remaining st buf s
     = slice_bytes st (mk_slice (s_block sl) (s_offset sl + is_add_offset s)
                         (s_length sl - is_add_offset s))
       ++ flat_map (slice_bytes st) (drop (S (is_ref_index s)) (ref buf)).
Proof.
  intros Hin Hsl. pose proof (contents_split s Hin) as Hc. rewrite (drop_S _ _ _ Hsl) in Hc.
  cbn [flat_map] in Hc.
  destruct (slices_ok (read_slices buf s)) as [Hr Hrok]; [left; by do 2 eexists|].
  pose proof (slices_len_nonneg _ Hrok) as Hr0.
  assert (slice_ok st sl) as Hok by (destruct Hbuf as [Hf _]; by eapply Forall_lookup_1).
  pose proof Hok as (b & _ & _ & Hlen & _).
  assert (0 <= is_add_offset s <= s_length sl) as Hadd.
  { destruct (io_add _ _ _ Hin) as [->|(sl' & Hsl' & ?)]; [lia|]. by simplify_eq. }
  destruct (slice_split st sl (is_add_offset s) Hok Hadd) as (Hs1 & Hs2 & Hsplit).
  pose proof (slice_bytes_length st _ Hst Hs1) as Hl1. cbn [s_length] in Hl1.
  rewrite (io_count _ _ _ Hin). split_and!; [done|lia|lia|lia| |].
  - rewrite Hc, !zlen_app, Hr, (slice_bytes_length st sl Hst Hok).
    pose proof (zlen_nonneg (flat_map (slice_bytes st) (drop (S (is_ref_index s)) (ref buf)))). lia.
  - rewrite (remaining_slices s Hin), (drop_S _ _ _ Hsl). cbn [flat_map].
    rewrite Hsplit, <- app_assoc. rewrite <- (Z.add_0_r (is_add_offset s)) at 1. rewrite <- Hl1 at 1.
    by rewrite drop_app_zlen_add.
Qed.

Lemma read_slices_next s sl n m :
  in_ok st buf s -> ref buf !! is_ref_index s = Some sl ->
  slices_len (read_slices buf (mk_in_stream n m (S (is_ref_index s))))
  = slices_len (read_slices buf s) + s_length sl.
Proof.
  intros Hin Hsl. pose proof (io_low _ _ _ Hin) as Hlow. unfold read_slices. cbn [is_ref_index].
  replace (S (is_ref_index s) - ref_offset buf)%nat with (S (is_ref_index s - ref_offset buf)) by lia.
  rewrite (take_S_r _ _ sl).
  - unfold slices_len. rewrite foldr_app. cbn [foldr]. rewrite Z.add_0_r.
    generalize (take (is_ref_index s - ref_offset buf) (drop (ref_offset buf) (ref buf))).
    intros l. induction l as [|x l IH]; cbn; lia.
  - rewrite lookup_drop. by replace (ref_offset buf + (is_ref_index s - ref_offset buf))%nat
      with (is_ref_index s) by lia.
Qed.

(** [Next] delivers the next bytes. *)
Lemma in_next_ok s :
  in_ok st buf s ->
  match in_next st buf s with
  | (Some chunk, s') =>
      in_ok st buf s' /\ is_byte_count s' = is_byte_count s + zlen chunk
      /\ in_remaining st buf s = chunk ++ in_remaining st buf s'
      /\ forall count, 0 <= count <= zlen chunk ->
         let s'' := in_backup count buf s' in
         in_ok st buf s'' /\ is_byte_count s'' = is_byte_count s' - count
  | (None, s') => s' = s /\ is_byte_count s = zlen (contents st buf)
  end.
Proof.
  intros Hin. unfold in_next. destruct (ref buf !! is_ref_index s) as [sl|] eqn:Esl.
  - destruct (next_slice s sl Hin Esl) as (Hok & Hadd & Hbc & Hle & Hrem).
    rewrite (u64_small (_ - _)) by lia. rewrite s32_small by lia. rewrite u64_small by lia.
    assert (slice_ok st (mk_slice (s_block sl) (s_offset sl + is_add_offset s)
                           (s_length sl - is_add_offset s))) as Hok2
      by (by apply slice_split).
    pose proof (slice_bytes_length st _ Hst Hok2) as Hl2. cbn [s_length] in Hl2. rewrite Hl2.
    set (s' := mk_in_stream _ _ _).
    assert (in_ok st buf s') as Hin'.
    { pose proof (lookup_lt_Some _ _ _ Esl). pose proof (io_low _ _ _ Hin).
      split; [cbn; lia|by left|]. unfold s'. rewrite (read_slices_next s sl) by done.
      cbn [is_byte_count is_add_offset]. rewrite (io_count _ _ _ Hin). lia. }
    split_and!; [done|done| |].
    + rewrite Hrem. f_equal. by rewrite (remaining_slices s' Hin').
    + intros count Hcount. rewrite ?Hl2 in Hcount. unfold in_backup. cbn [is_ref_index s'].
      rewrite (proj2 (Nat.ltb_lt _ _)) by (pose proof (io_low _ _ _ Hin); lia).
      replace (S (is_ref_index s) - 1)%nat with (is_ref_index s) by lia. rewrite Esl.
      unfold s'. cbn [is_byte_count]. rewrite u64_small, u32_small by lia. split; [|done].
      split; cbn [is_ref_index is_add_offset is_byte_count]; [apply (io_low _ _ _ Hin)| |].
      * right. exists sl. split; [done|lia].
      * change (read_slices buf _) with (read_slices buf s). rewrite (io_count _ _ _ Hin). lia.
  - split; [done|]. destruct (slices_ok (read_slices buf s)) as [Hr _]; [left; by do 2 eexists|].
    rewrite (contents_split s Hin), (io_count _ _ _ Hin), zlen_app, Hr.
    destruct (io_add _ _ _ Hin) as [->|(? & ? & _)]; [|congruence].
    by rewrite (drop_ge (ref buf)) by (by apply lookup_ge_None).
Qed.

(** Past the slices, everything has been read. *)
Lemma in_end s : in_ok st buf s -> (length (ref buf) <= is_ref_index s)%nat ->
  is_byte_count s = zlen (contents st buf).
Proof.
  intros Hin Hge. pose proof (in_next_ok s Hin) as Hn. unfold in_next in Hn.
  rewrite (proj2 (lookup_ge_None _ _) Hge) in Hn. apply Hn.
Qed.

Lemma skip_loop_ok fuel : forall s count,
  in_ok st buf s -> (is_ref_index s < length (ref buf))%nat ->
  (length (ref buf) - is_ref_index s <= fuel)%nat -> 0 <= count < 2 ^ 31 ->
  let '(r, s') := skip_loop fuel count buf s in
  in_ok st buf s' /\ is_byte_count s' = Z.min (is_byte_count s + count) (zlen (contents st buf))
  /\ r = (is_byte_count s + count <? zlen (contents st buf)).
Proof.
  induction fuel as [|fuel IH]; intros s count Hin Hlt Hfuel Hcount; [lia|]. cbn [skip_loop].
  destruct (lookup_lt_is_Some_2 _ _ Hlt) as [sl Hsl]. rewrite Hsl.
  destruct (next_slice s sl Hin Hsl) as (_ & Hadd & Hbc & Hle & _).
  pose proof (in_next_ok s Hin) as Hnext. unfold in_next in Hnext. rewrite Hsl in Hnext.
  rewrite (u64_small (s_length sl - _)) in * by lia. rewrite (s32_small (s_length sl - _)) in * by lia.
  set (left_bytes := s_length sl - is_add_offset s) in *.
  destruct Hnext as (Hin1 & Hbc1 & _ & _).
  destruct (Z.ltb_spec count left_bytes) as [Hless|Hmore].
  - rewrite !u64_small by lia. split_and!; cbn [is_byte_count]; [|lia|symmetry; apply Z.ltb_lt; lia].
    split; cbn [is_ref_index is_add_offset is_byte_count]; [apply (io_low _ _ _ Hin)| |].
    + right. exists sl. split; [done|lia].
    + change (read_slices buf _) with (read_slices buf s). rewrite (io_count _ _ _ Hin). lia.
  - set (s1 := mk_in_stream _ _ _) in *. unfold s1 in Hbc1. cbn [is_byte_count] in Hbc1.
    assert (is_byte_count s1 = is_byte_count s + left_bytes) as Hb1
      by (unfold s1; cbn [is_byte_count]; apply u64_small; lia).
    destruct (Nat.leb_spec (length (ref buf)) (is_ref_index s1)) as [Hend|Hgo].
    + pose proof (in_end s1 Hin1 Hend) as He. split_and!; [done|lia|].
      symmetry. apply Z.ltb_ge. lia.
    + rewrite s32_small by lia.
      pose proof (IH s1 (count - left_bytes) Hin1 Hgo) as IH1.
      destruct (skip_loop fuel (count - left_bytes) buf s1) as [r s'].
      destruct IH1 as (Hin2 & Hbc2 & Hr); [cbn; lia|lia|].
      rewrite Hb1 in *. replace (is_byte_count s + left_bytes + (count - left_bytes))
        with (is_byte_count s + count) in * by lia. done.
Qed.

Lemma in_skip_ok s count :
  in_ok st buf s -> 0 <= count < 2 ^ 31 ->
  let '(r, s') := in_skip count buf s in
  in_ok st buf s' /\ is_byte_count s' = Z.min (is_byte_count s + count) (zlen (contents st buf))
  /\ r = (is_byte_count s + count <? zlen (contents st buf)).
Proof.
  intros Hin Hcount. unfold in_skip.
  destruct (Nat.leb_spec (length (ref buf)) (is_ref_index s)) as [Hge|Hlt].
  - rewrite (in_end s Hin Hge). split_and!; [done|lia|]. symmetry. apply Z.ltb_ge. lia.
  - apply skip_loop_ok; [done|done|lia|done].
Qed.

End Input.

(** The streams a client of the protobuf interface can reach: [BackUp] only
    after a [Next], by at most the bytes it delivered. *)
Inductive in_reach (st : store) (buf : IOBuffer) : in_stream -> Prop :=
| reach_new : in_reach st buf (new_in_stream buf)
| reach_next s chunk s' :
    in_reach st buf s -> in_next st buf s = (Some chunk, s') -> in_reach st buf s'
| reach_backup s chunk s' count :
    in_reach st buf s -> in_next st buf s = (Some chunk, s') -> 0 <= count <= zlen chunk ->
    in_reach st buf (in_backup count buf s')
| reach_skip s count r s' :
    in_reach st buf s -> 0 <= count < 2 ^ 31 -> in_skip count buf s = (r, s') ->
    in_reach st buf s'.

Lemma in_reach_ok st buf s :
  store_ok st -> buf_ok st buf -> zlen (contents st buf) < 2 ^ 31 ->
  in_reach st buf s -> in_ok st buf s.
Proof.
  intros Hst Hbuf Hsmall. induction 1 as [|s chunk s' _ IH Hn|s chunk s' count _ IH Hn Hc|s count r s' _ IH Hc Hs].
  - by apply new_in_ok.
  - pose proof (in_next_ok st buf Hst Hbuf Hsmall s IH) as H. rewrite Hn in H. apply H.
  - pose proof (in_next_ok st buf Hst Hbuf Hsmall s IH) as H. rewrite Hn in H. by apply H.
  - pose proof (in_skip_ok st buf Hst Hbuf Hsmall s count IH Hc) as H. rewrite Hs in H. apply H.
Qed.

(** At every point a client can reach, [ByteCount] is the position in the
    contents of the buffer: [Next] delivers the bytes from there on and fails
    only at the end, [BackUp] gives them back, and [Skip] moves over them and
    answers whether bytes are left. *)
Theorem input_stream_position (st : store) (buf : IOBuffer) (s : in_stream) :
  store_ok st -> buf_ok st buf -> zlen (contents st buf) < 2 ^ 31 -> in_reach st buf s ->
  match in_next st buf s with
  | (Some chunk, s') =>
      drop (Z.to_nat (in_byte_count s)) (contents st buf)
      = chunk ++ drop (Z.to_nat (in_byte_count s')) (contents st buf)
      /\ in_byte_count s' = in_byte_count s + zlen chunk
      /\ (forall count, 0 <= count <= zlen chunk ->
           in_byte_count (in_backup count buf s') = in_byte_count s' - count)
  | (None, _) => in_byte_count s = zlen (contents st buf)
  end
  /\ (forall count, 0 <= count < 2 ^ 31 ->
       let '(r, s') := in_skip count buf s in
       in_byte_count s' = Z.min (in_byte_count s + count) (zlen (contents st buf))
       /\ r = (in_byte_count s + count <? zlen (contents st buf))).
Proof.
  intros Hst Hbuf Hsmall Hreach. apply in_reach_ok in Hreach as Hin; try done. split.
  - pose proof (in_next_ok st buf Hst Hbuf Hsmall s Hin) as H.
    destruct (in_next st buf s) as [[chunk|] s']; [|apply H].
    destruct H as (_ & Hbc & Hrem & Hback). split_and!; [exact Hrem|exact Hbc|].
    intros count Hc. by apply Hback.
  - intros count Hc. pose proof (in_skip_ok st buf Hst Hbuf Hsmall s count Hin Hc) as H.
    destruct (in_skip count buf s) as [r s']. apply H.
Qed.

Lemma input_stream_position_witness :
  let '(st, buf) := append (bytes_of_string "abcdef") two_blocks_store clear in
  let '(_, s) := in_skip 2 buf (new_in_stream buf) in
  exists chunk s', in_next st buf s = (Some chunk, s')
    /\ drop 2 (contents st buf)
       = chunk ++ drop (Z.to_nat (in_byte_count s')) (contents st buf).
Proof.
  pose proof (append_frame two_blocks_store clear (bytes_of_string "abcdef")
    two_blocks_store_ok ltac:(split; [constructor|apply le_n])) as Ha.
  destruct (append (bytes_of_string "abcdef") two_blocks_store clear) as [st buf] eqn:E.
  destruct Ha as (Hst & Hbuf & Hc & _). vm_compute in E. injection E as Es Eb.
  destruct (in_skip 2 buf (new_in_stream buf)) as [r s] eqn:Esk.
  assert (in_reach st buf s) as Hreach
    by (apply (reach_skip st buf (new_in_stream buf) 2 r); [constructor|lia|exact Esk]).
  assert (s = mk_in_stream 2 2 0) as Hs.
  { rewrite <- Eb in Esk. vm_compute in Esk. injection Esk as _ <-. reflexivity. }
  destruct (input_stream_position st buf s Hst Hbuf) as [Hnext _];
    [rewrite Hc; reflexivity|exact Hreach|].
  destruct (in_next st buf s) as [[chunk|] s'] eqn:En.
  - exists chunk, s'. split; [reflexivity|]. rewrite Hs in Hnext. apply Hnext.
  - exfalso. rewrite Hs, <- Eb in En. vm_compute in En. discriminate En.
Defined.

(** ** The output stream fills the buffer *)

(** The client stores [bytes] in the space it was handed. *)
Definition write_region (k : nat) (at_ : Z) (bytes : list Z) (st : store) : option store :=
  match get_block st k with
  | None => None
  | Some b => Some (set_block k (mk_block (b_next b) (b_size b) (b_capacity b)
                                   (write_bytes at_ bytes (b_data b))) st)
  end.

(** A client of the protobuf interface that serialises [bytes]: it fills each
    space it is handed and gives back what is left of the last one. *)
Fixpoint stream_write (fuel : nat) (bytes : list Z) (st : store) (buf : IOBuffer) (s : out_stream)
    : option (store * IOBuffer * out_stream) :=
  match bytes, fuel with
  | [], _ => Some (st, buf, s)
  | _, O => None
  | _, S fuel =>
      '(st, buf, s, (k, at_, size)) ← out_next st buf s;
      let n := Z.to_nat (Z.min (zlen bytes) size) in
      st ← write_region k at_ (take n bytes) st;
      '(st, buf, s) ← out_backup (size - Z.of_nat n) st buf s;
      stream_write fuel (drop n bytes) st buf s
  end.

Lemma set_set_block k b b' st : set_block k b (set_block k b' st) = set_block k b st.
Proof. unfold set_block. cbn. by rewrite insert_insert_eq. Qed.

(** One space, filled and given back: a slice over exactly the bytes written *)
Lemma stream_write_step st1 k b buf s bytes :
  store_ok st1 -> get_block st1 k = Some b -> 0 < freeSpace b < 2 ^ 31 ->
  0 < zlen bytes <= freeSpace b -> 0 <= os_byte_count s -> os_byte_count s + freeSpace b < 2 ^ 64 ->
  let st2 := set_block k (mk_block (b_next b) (b_capacity b) (b_capacity b) (b_data b)) st1 in
  let buf2 := mk_IOBuffer (ref buf ++ [mk_slice k (b_size b) (freeSpace b)]) (ref_offset buf) in
  exists st3, write_region k (b_size b) bytes st2 = Some st3
    /\ out_backup (freeSpace b - zlen bytes) st3 buf2 (mk_out_stream (os_byte_count s + freeSpace b))
       = Some (set_block k (filled b bytes) st1,
               mk_IOBuffer (ref buf ++ [mk_slice k (b_size b) (zlen bytes)]) (ref_offset buf),
               mk_out_stream (os_byte_count s + zlen bytes)).
Proof.
  intros Hst Hb Hfree Hbytes Hs0 Hs st2 buf2. unfold write_region.
  assert (get_block st2 k = Some (mk_block (b_next b) (b_capacity b) (b_capacity b) (b_data b))) as Hb2
    by (unfold st2; rewrite get_set_block; by rewrite decide_True).
  rewrite Hb2. eexists. split; [reflexivity|]. cbn [b_next b_size b_capacity b_data].
  unfold st2. rewrite set_set_block. unfold out_backup, buf2. cbn [ref ref_offset].
  rewrite last_snoc. destruct (so_block st1 Hst _ _ Hb) as [[Hsz _] _].
  destruct (Z.eqb_spec (freeSpace b - zlen bytes) 0) as [Hz|Hnz].
  - replace (zlen bytes) with (freeSpace b) by lia. do 3 f_equal.
    unfold filled. do 2 f_equal. unfold freeSpace in *. lia.
  - cbn [s_length s_block s_offset]. rewrite s32_small by lia.
    rewrite (proj2 (Z.ltb_lt _ _)) by lia.
    rewrite get_set_block, decide_True by done. cbn [b_next b_size b_capacity b_data].
    rewrite set_set_block. rewrite length_app, Nat.add_sub, take_app_length. cbn [os_byte_count].
    rewrite u64_small by lia. do 3 f_equal.
    + f_equal. unfold filled. f_equal. unfold freeSpace. lia.
    + repeat f_equal. lia.
    + f_equal. lia.
Qed.

Lemma stream_write_ok fuel : forall bytes st buf s,
  store_ok st -> buf_ok st buf -> (length bytes <= fuel)%nat -> zlen bytes <= room st ->
  0 <= os_byte_count s -> os_byte_count s + zlen bytes < 2 ^ 63 ->
  exists st' buf' s', stream_write fuel bytes st buf s = Some (st', buf', s')
    /\ store_ok st' /\ store_le st st' /\ buf_ok st' buf'
    /\ contents st' buf' = contents st buf ++ bytes
    /\ os_byte_count s' = os_byte_count s + zlen bytes
    /\ room st' = room st - zlen bytes /\ ref_offset buf' = ref_offset buf.
Proof.
  induction fuel as [|fuel IH]; intros bytes st buf s Hst Hbuf Hfuel Hroom Hs0 Hs.
  { destruct bytes; [|cbn in Hfuel; lia]. exists st, buf, s. rewrite app_nil_r. unfold zlen.
    cbn. split_and!; done || lia. }
  destruct bytes as [|x rest0].
  { exists st, buf, s. rewrite app_nil_r. unfold zlen. cbn. split_and!; done || lia. }
  set (bytes := x :: rest0) in *. assert (1 <= zlen bytes) as Hpos by (unfold zlen; cbn; lia).
  change (stream_write (S fuel) bytes st buf s) with
    ('(st, buf, s, (k, at_, size)) ← out_next st buf s;
     let n := Z.to_nat (Z.min (zlen bytes) size) in
     st ← write_region k at_ (take n bytes) st;
     '(st, buf, s) ← out_backup (size - Z.of_nat n) st buf s;
     stream_write fuel (drop n bytes) st buf s).
  unfold out_next.
  destruct (shareBlockFromTLSChain st) as [[k|] st1] eqn:Es;
    apply share_ok in Es as (Hst1 & Hle1 & Hr1 & Hk); try done; [|lia].
  destruct Hk as (Ht1 & b & Hb & Hfree). rewrite Hb. cbn [mbind option_bind].
  destruct (so_block st1 Hst1 _ _ Hb) as [[[Hsz Hcap] _] _].
  assert (freeSpace b <= default_capacity) as Hfcap by (unfold freeSpace; lia).
  change default_capacity with 8168 in Hfcap.
  set (n := Z.to_nat (Z.min (zlen bytes) (freeSpace b))) in *.
  assert (zlen (take n bytes) = Z.of_nat n) as Htl
    by (unfold n, zlen; rewrite length_take; lia).
  rewrite (u64_small (_ + _)) by lia.
  destruct (stream_write_step st1 k b buf s (take n bytes)) as (st3 & Hw & Hbk); try done; try lia.
  cbv zeta. rewrite Hw. cbn [mbind option_bind]. rewrite Htl in Hbk. rewrite Hbk. clear Hw Hbk.
  assert (zlen (take n bytes) <= freeSpace b) as Hfit by lia.
  destruct (contents_le _ _ _ Hle1 Hbuf) as [Hbuf1 Hc1].
  destruct (fill_block_ok k b (take n bytes) st1 Hst1 Hb Hfit) as (Hst2 & Hle2 & _ & _).
  destruct (emplace_filled_ok k b (take n bytes) st1 buf Hst1 Hbuf1 Hb Hfit) as [Hbuf2 Hc2].
  rewrite Htl in Hbuf2, Hc2. cbn [mbind option_bind].
  assert (zlen (drop n bytes) = zlen bytes - Z.of_nat n) as Hdl
    by (unfold n, zlen; rewrite length_drop; lia).
  destruct (IH (drop n bytes) (set_block k (filled b (take n bytes)) st1)
     (mk_IOBuffer (ref buf ++ [mk_slice k (b_size b) (Z.of_nat n)]) (ref_offset buf))
     (mk_out_stream (os_byte_count s + Z.of_nat n)))
    as (st' & buf' & s' & -> & Hst' & Hle' & Hbuf' & Hc' & Hbc' & Hrm' & Hoff'); try done.
  - unfold zlen in *. rewrite length_drop. cbn [length bytes] in *. lia.
  - rewrite room_fill by done. lia.
  - cbn. lia.
  - cbn. lia.
  - exists st', buf', s'. split_and!; try done; [by do 2 (etrans; [done|])| | |].
    + rewrite Hc', Hc2, Hc1, <- app_assoc. by rewrite take_drop.
    + rewrite Hbc'. cbn. lia.
    + rewrite Hrm', room_fill by done. lia.
Qed.

(** Serialising through the output stream appends exactly the bytes
    written, counts them, and leaves every other buffer as it was, whatever
    blocks they share. *)
Theorem output_stream_writes (bytes : list Z) (st : store) (buf : IOBuffer) :
  store_ok st -> buf_ok st buf -> zlen bytes <= room st -> zlen bytes < 2 ^ 63 ->
  exists st' buf' s',
    stream_write (length bytes) bytes st buf new_out_stream = Some (st', buf', s')
    /\ store_ok st' /\ buf_ok st' buf' /\ contents st' buf' = contents st buf ++ bytes
    /\ out_byte_count s' = zlen bytes
    /\ (forall other, buf_ok st other -> buf_ok st' other /\ contents st' other = contents st other).
Proof.
  intros Hst Hbuf Hroom Hlen.
  destruct (stream_write_ok (length bytes) bytes st buf new_out_stream)
    as (st' & buf' & s' & -> & Hst' & Hle & Hbuf' & Hc & Hbc & _); try done.
  exists st', buf', s'. split_and!; try done. intros other Ho. by apply contents_le.
Qed.

Lemma output_stream_writes_witness :
  exists st' buf' s',
    stream_write 3 [7; 8; 9] two_blocks_store clear new_out_stream = Some (st', buf', s')
    /\ store_ok st' /\ buf_ok st' buf' /\ contents st' buf' = [7; 8; 9]
    /\ out_byte_count s' = 3
    /\ (forall other, buf_ok two_blocks_store other ->
          buf_ok st' other /\ contents st' other = contents two_blocks_store other).
Proof.
  apply (output_stream_writes [7; 8; 9] two_blocks_store clear).
  - apply two_blocks_store_ok.
  - split; [constructor|apply le_n].
  - vm_compute. discriminate.
  - reflexivity.
Defined.

(** Giving back everything [Next] has handed out, as the serialiser of an
    empty message does, reads the length of a slice that has just been
    removed. *)
Theorem backup_all_undefined (st : store) (buf : IOBuffer) (s : out_stream)
    (st' : store) (buf' : IOBuffer) (s' : out_stream) (k : nat) (at_ size : Z) :
  out_next st buf s = Some (st', buf', s', (k, at_, size)) -> 0 < size < 2 ^ 31 ->
  out_backup size st' buf' s' = None.
Proof.
  unfold out_next. destruct (shareBlockFromTLSChain st) as [[k0|] st1]; [|done].
  destruct (get_block st1 k0) as [b|]; [|done]. intros H Hsize. simplify_eq.
  unfold out_backup. cbn [ref]. rewrite last_snoc. cbn [s_length].
  rewrite (proj2 (Z.eqb_neq _ _)) by lia. rewrite s32_small by lia. by rewrite Z.ltb_irrefl.
Qed.

Lemma backup_all_undefined_witness :
  exists st' buf' s' k at_,
    out_next two_blocks_store clear new_out_stream = Some (st', buf', s', (k, at_, 8168))
    /\ out_backup 8168 st' buf' s' = None.
Proof.
  do 5 eexists. split; [vm_compute; reflexivity|].
  eapply (backup_all_undefined two_blocks_store clear new_out_stream).
  - vm_compute. reflexivity.
  - lia.
Defined.

(** ** Serialising a message *)

(** [SerializeToZeroCopyStream]: the coded stream asks for space before it has
    anything to write, so a message without bytes gives all of it back. *)
Definition serialize_to_stream (bytes : list Z) (st : store) (buf : IOBuffer) : option (store * IOBuffer) :=
  match bytes with
  | [] =>
      '(st, buf, s, (_, _, size)) ← out_next st buf new_out_stream;
      '(st, buf, _) ← out_backup size st buf s;
      Some (st, buf)
  | _ =>
      '(st, buf, _) ← stream_write (length bytes) bytes st buf new_out_stream;
      Some (st, buf)
  end.

#[global] Instance io_stream : StreamBuffer store IOBuffer := {| bb_stream_write := serialize_to_stream |}.

#[global] Instance io_stream_laws : StreamBufferLaws store IOBuffer.
Proof.
  split. intros st buf [|x bytes] [Hst Hbuf] Hne Hroom Hlen; [done|].
  destruct (stream_write_ok (length (x :: bytes)) (x :: bytes) st buf new_out_stream)
    as (st' & buf' & s' & Hrun & Hst' & Hle & Hbuf' & Hc & _ & Hrm & Hoff); try done.
  exists st', buf'. cbn [bb_stream_write io_stream serialize_to_stream]. rewrite Hrun.
  split_and!; try done; [by cbn; rewrite Hoff|]. intros other [_ Ho].
  destruct (contents_le _ _ _ Hle Ho) as [Ho' Hco]. split; [by split|done].
Qed.

(** The serialiser of an empty message always runs into the undefined
    [BackUp]. *)
Lemma empty_message_undefined st buf : store_ok st -> serialize_to_stream [] st buf = None.
Proof.
  intros Hst. cbn [serialize_to_stream].
  destruct (out_next st buf new_out_stream) as [[[[st' buf'] s'] [[k at_] size]]|] eqn:E; [|done].
  cbn [mbind option_bind]. rewrite (backup_all_undefined _ _ _ _ _ _ _ _ _ E); [done|].
  unfold out_next in E. destruct (shareBlockFromTLSChain st) as [[k0|] st1] eqn:Es; [|done].
  apply share_ok in Es as (Hst1 & _ & _ & _ & b & Hb & Hfree); [|done]. rewrite Hb in E. simplify_eq.
  destruct (so_block st1 Hst1 _ _ Hb) as [[[Hsz Hcap] _] _]. unfold freeSpace in *.
  change default_capacity with 8168 in Hcap. lia.
Qed.
