(* ===== verification/Bolt.v ===== *)
(** * The Bolt protocol (src/protocol/bolt, include/protocol/bolt)

    Requests are assembled into, and responses parsed from, a [ByteBuffer].
    The header structures are packed; [hton] and [ntoh] turn their fields to
    and from network order, so their memory is the big-endian encoding of the
    fields on a host of either endianness.  Protocol buffers are a parameter:
    what a message serialises to, and what parsing a stream answers; the bytes
    of a message reach the buffer through a [StreamBuffer], where an empty
    message is undefined. *)

From stdpp Require Import gmap.
From S2P Require Import Prelude ByteBuffer.

(** ** Network byte order *)

Definition be16 (x : Z) : list Z := [u8 (x / 2 ^ 8); u8 x].
Definition be32 (x : Z) : list Z := [u8 (x / 2 ^ 24); u8 (x / 2 ^ 16); u8 (x / 2 ^ 8); u8 x].

(** The integer at the front of a byte sequence *)
Definition of_be (bytes : list Z) : Z := foldl (fun v b => v * 256 + b) 0 bytes.

Lemma of_be16 x : 0 <= x < 2 ^ 16 -> of_be (be16 x) = x.
Proof.
  intros H. unfold of_be, be16, u8. cbn [foldl].
  change (2 ^ 8) with 256 in *. pose proof (Z.div_mod x 256).
  rewrite (Z.mod_small (x / 256)); [lia|].
  split; [apply Z.div_pos; lia|]. apply Z.div_lt_upper_bound; lia.
Qed.

Lemma of_be32 x : 0 <= x < 2 ^ 32 -> of_be (be32 x) = x.
Proof.
  intros H. unfold of_be, be32, u8. cbn [foldl].
  change (2 ^ 24) with (256 * 256 * 256). change (2 ^ 16) with (256 * 256).
  change (2 ^ 8) with 256. rewrite <- !Z.div_div by lia.
  pose proof (Z.div_mod x 256). pose proof (Z.div_mod (x / 256) 256).
  pose proof (Z.div_mod (x / 256 / 256) 256).
  assert (0 <= x / 256 / 256 / 256 < 256).
  { split; [repeat apply Z.div_pos; lia|]. repeat (apply Z.div_lt_upper_bound; [lia|]). lia. }
  rewrite (Z.mod_small (x / 256 / 256 / 256)) by done. lia.
Qed.

Lemma be_bytes x : Forall is_byte (be16 x) /\ Forall is_byte (be32 x).
Proof. split; repeat constructor; apply u8_range. Qed.

(** ** Constants (include/common/common_defines.h) *)

Definition BOLT_PROTOCOL_TYPE : Z := 1.
Definition BOLT_PROTOCOL_REQUEST : Z := 1.
Definition BOLT_PROTOCOL_RESPONSE : Z := 0.
Definition BOLT_PROTOCOL_CMD_HEARTBEAT : Z := 0.
Definition BOLT_PROTOCOL_CMD_REQUEST : Z := 1.
Definition BOLT_PROTOCOL_CMD_RESPONSE : Z := 2.
Definition BOLT_PROTOCOL_VER2 : Z := 1.
Definition BOLT_PROTOCOL_CODEC_PB : Z := 11.

(** ** Requests *)

(** [BoltRequest]: the strings, and [_data] with [_data_type]; a null pointer
    is [None] *)
Inductive request_data (Msg : Type) : Type :=
| RD_NONE
| RD_CSTRING (c_str : option (list Z))
| RD_STRING (str : option (list Z))
| RD_PROTOBUF (proto : option Msg).
#[global] Arguments RD_NONE {Msg}.
#[global] Arguments RD_CSTRING {Msg}.
#[global] Arguments RD_STRING {Msg}.
#[global] Arguments RD_PROTOBUF {Msg}.

Record BoltRequest (Msg : Type) : Type := mk_BoltRequest {
  br_service : list Z;
  br_method : list Z;
  br_trace_id : list Z;
  br_data : request_data Msg
}.
#[global] Arguments mk_BoltRequest {Msg}.
#[global] Arguments br_service {Msg}.
#[global] Arguments br_method {Msg}.
#[global] Arguments br_trace_id {Msg}.
#[global] Arguments br_data {Msg}.

(** The constructor and the setters of [BoltRequest] *)
Definition new_BoltRequest {Msg} : BoltRequest Msg := mk_BoltRequest [] [] [] RD_NONE.
Definition service {Msg} (s : list Z) (r : BoltRequest Msg) : BoltRequest Msg :=
  mk_BoltRequest s (br_method r) (br_trace_id r) (br_data r).
Definition method {Msg} (m : list Z) (r : BoltRequest Msg) : BoltRequest Msg :=
  mk_BoltRequest (br_service r) m (br_trace_id r) (br_data r).
Definition traceId {Msg} (i : list Z) (r : BoltRequest Msg) : BoltRequest Msg :=
  mk_BoltRequest (br_service r) (br_method r) i (br_data r).
Definition data {Msg} (d : request_data Msg) (r : BoltRequest Msg) : BoltRequest Msg :=
  mk_BoltRequest (br_service r) (br_method r) (br_trace_id r) d.

(** [struct BoltRequestHeader], the constant fields left out *)
Record BoltRequestHeader := mk_BoltRequestHeader {
  q_cmdcode : Z;
  q_request_id : Z;
  q_timeout : Z;
  q_class_len : Z;
  q_header_len : Z;
  q_content_len : Z
}.

(** Its 22 bytes after [hton] *)
Definition request_header_bytes (h : BoltRequestHeader) : list Z :=
  [BOLT_PROTOCOL_TYPE; BOLT_PROTOCOL_REQUEST] ++ be16 (q_cmdcode h) ++ [BOLT_PROTOCOL_VER2]
  ++ be32 (q_request_id h) ++ [BOLT_PROTOCOL_CODEC_PB] ++ be32 (q_timeout h)
  ++ be16 (q_class_len h) ++ be16 (q_header_len h) ++ be32 (q_content_len h).

(** [initHeader] and the constructor of [BoltInternalRequest]; [timeout] is
    [-1] as a [uint32_t] *)
Definition init_request_header {Msg} (req : BoltRequest Msg) (request_id : Z)
    : BoltRequestHeader :=
  let cmdcode := match br_data req with
                 | RD_NONE => BOLT_PROTOCOL_CMD_HEARTBEAT
                 | _ => BOLT_PROTOCOL_CMD_REQUEST
                 end in
  mk_BoltRequestHeader cmdcode (u32 request_id) (u32 (-1)) 0 0 0.

Definition class_name : list Z :=
  bytes_of_string "com.alipay.sofa.rpc.core.request.SofaRequest".
Definition service_key : list Z := bytes_of_string "service".
Definition sofa_service_key : list Z := bytes_of_string "sofa_head_target_service".
Definition method_key : list Z := bytes_of_string "sofa_head_method_name".
Definition trace_id_key : list Z := bytes_of_string "rpc_trace_context.sofaTraceId".

(** The four entries of the request's header map, in order *)
Definition request_entries {Msg} (req : BoltRequest Msg) : list (list Z * list Z) :=
  [(service_key, br_service req); (sofa_service_key, br_service req);
   (method_key, br_method req); (trace_id_key, br_trace_id req)].

Section Serialize.
Context {St B : Type} `{ByteBuffer St B} `{!StreamBuffer St B} {Msg : Type}.
(** The bytes [SerializeToZeroCopyStream] writes for a message *)
Context (pb_serialize : Msg -> list Z).

(** [appendBoltHeaderKV]: the sizes are [uint32_t] *)
Definition appendBoltHeaderKV (key value : list Z) (st : St) (buffer : B) : St * B * Z :=
  let '(st, buffer) := bb_append (be32 (u32 (zlen key))) st buffer in
  let '(st, buffer) := bb_append key st buffer in
  let '(st, buffer) := bb_append (be32 (u32 (zlen value))) st buffer in
  let '(st, buffer) := bb_append value st buffer in
  (st, buffer, u32 (8 + u32 (zlen key) + u32 (zlen value))).

(** The four calls of it; [header_len] is a [uint16_t] *)
Fixpoint append_entries (entries : list (list Z * list Z)) (st : St) (buffer : B)
    (header_len : Z) : St * B * Z :=
  match entries with
  | [] => (st, buffer, header_len)
  | (key, value) :: entries =>
      let '(st, buffer, n) := appendBoltHeaderKV key value st buffer in
      append_entries entries st buffer (u16 (header_len + n))
  end.

(** The data of the request: the buffers and [content_len] *)
Definition append_content (req : BoltRequest Msg) (class_len header_len : Z) (st : St) (buffer buffer_body : B)
    : option (St * B * B * Z) :=
  match br_data req with
  | RD_PROTOBUF (Some msg) =>
      match bb_stream_write (pb_serialize msg) st buffer_body with
      | Some (st, buffer_body) => Some (st, buffer, buffer_body, u32 (bb_size buffer_body - class_len - header_len))
      | None => None
      end
  | RD_STRING (Some str) =>
      let '(st, buffer_body) := bb_append str st buffer_body in
      Some (st, buffer, buffer_body, u32 (zlen str))
  | RD_CSTRING (Some c_str) =>
      let '(st, buffer) := bb_append c_str st buffer in
      Some (st, buffer, buffer_body, u32 (zlen c_str))
  | _ => Some (st, buffer, buffer_body, 0)
  end.

(** [BoltInternalRequest::serialize]; [None] is undefined behaviour of the
    stream *)
Definition serialize (req : BoltRequest Msg) (request_id : Z) (st : St) (buffer : B) : option (St * B) :=
  let header := init_request_header req request_id in
  if q_cmdcode header =? BOLT_PROTOCOL_CMD_HEARTBEAT then
    Some (bb_append (request_header_bytes header) st buffer)
  else
    let class_len := u16 (zlen class_name) in
    let '(st, buffer_body) := bb_append class_name st bb_empty in
    let '(st, buffer_body, header_len) := append_entries (request_entries req) st buffer_body 0 in
    match append_content req class_len header_len st buffer buffer_body with
    | None => None
    | Some (st, buffer, buffer_body, content_len) =>
        let header := mk_BoltRequestHeader (q_cmdcode header) (q_request_id header)
                        (q_timeout header) class_len header_len content_len in
        let '(st, buffer) := bb_append (request_header_bytes header) st buffer in
        Some (st, bb_append_move buffer_body buffer)
    end.

(** [assembleBoltRequest], which answers [true] when it returns *)
Definition assembleBoltRequest (req : BoltRequest Msg) (request_id : Z) (st : St) (buffer : B)
    : option (bool * St * B) :=
  match serialize req request_id st buffer with
  | Some (st, buffer) => Some (true, st, buffer)
  | None => None
  end.

End Serialize.

(** [converseBoltRequest] *)
Definition converseBoltRequest (request_id : Z) : Z := u32 request_id.

Example serialize_smoke :
  snd <$> serialize (Msg := unit) (fun _ => []) (data (RD_STRING (Some [7; 8]))
        (service [1] (method [2] (traceId [3] new_BoltRequest)))) 5 1000 []
  = Some (request_header_bytes (mk_BoltRequestHeader 1 5 4294967295 44 117 2)
    ++ class_name ++ flat_map (fun '(k, v) => be32 (zlen k) ++ k ++ be32 (zlen v) ++ v)
         [(service_key, [1]); (sofa_service_key, [1]); (method_key, [2]); (trace_id_key, [3])]
    ++ [7; 8]).
Proof. vm_compute. reflexivity. Qed.

(** ** Appending, composed *)

Section Appended.
Context {St B : Type} `{ByteBufferLaws St B}.
Implicit Types (st : St) (b : B).

(** No buffer is disturbed between the two memories. *)
Definition framed st st' : Prop :=
  forall other, bb_ok st other -> bb_ok st' other /\ bb_contents st' other = bb_contents st other.

Record appended st b (bytes : list Z) st' b' : Prop := {
  ap_ok : bb_ok st' b';
  ap_contents : bb_contents st' b' = bb_contents st b ++ bytes;
  ap_room : bb_room st' = bb_room st - zlen bytes;
  ap_fresh : bb_fresh b -> bb_fresh b';
  ap_framed : framed st st'
}.

Lemma framed_trans st1 st2 st3 : framed st1 st2 -> framed st2 st3 -> framed st1 st3.
Proof.
  intros H12 H23 o Ho. destruct (H12 o Ho) as [Ho2 Hc2]. destruct (H23 o Ho2) as [Ho3 Hc3].
  split; [done|congruence].
Qed.

Lemma appended_trans st b d1 st1 b1 d2 st2 b2 :
  appended st b d1 st1 b1 -> appended st1 b1 d2 st2 b2 -> appended st b (d1 ++ d2) st2 b2.
Proof.
  intros [] []. split; [done| | |auto|by eapply framed_trans].
  - by rewrite app_assoc, <- ap_contents0.
  - rewrite zlen_app. lia.
Qed.

Lemma append_appended st b bytes :
  bb_ok st b -> zlen bytes <= bb_room st ->
  appended st b bytes (fst (bb_append bytes st b)) (snd (bb_append bytes st b)).
Proof.
  intros Hok Hroom. pose proof (bb_append_ok st b bytes Hok Hroom) as Ha.
  destruct (bb_append bytes st b) as [st' b']. destruct Ha as (? & ? & ? & ? & ?). by split.
Qed.

Lemma stream_appended `{!StreamBuffer St B} `{!StreamBufferLaws St B} st b bytes :
  bb_ok st b -> bytes <> [] -> zlen bytes <= bb_room st -> zlen bytes < 2 ^ 63 ->
  exists st' b', bb_stream_write bytes st b = Some (st', b') /\ appended st b bytes st' b'.
Proof.
  intros Hok Hne Hroom Hlen.
  destruct (bb_stream_write_ok st b bytes Hok Hne Hroom Hlen) as (st' & b' & Hw & ? & ? & ? & ? & ?).
  exists st', b'. by split.
Qed.

End Appended.

(** The encoding of header-map entries *)
Definition kv_bytes (entries : list (list Z * list Z)) : list Z :=
  flat_map (fun '(k, v) => be32 (zlen k) ++ k ++ be32 (zlen v) ++ v) entries.

Lemma kv_bytes_cons k v entries :
  kv_bytes ((k, v) :: entries) = be32 (zlen k) ++ k ++ be32 (zlen v) ++ v ++ kv_bytes entries.
Proof. cbn. by rewrite <- !app_assoc. Qed.

Lemma zlen_kv_cons k v entries :
  zlen (kv_bytes ((k, v) :: entries)) = 8 + zlen k + zlen v + zlen (kv_bytes entries).
Proof.
  rewrite kv_bytes_cons, !zlen_app. change (zlen (be32 (zlen k))) with 4.
  change (zlen (be32 (zlen v))) with 4. lia.
Qed.

Section Serialize_ok.
Context {St B : Type} `{ByteBufferLaws St B} `{!StreamBuffer St B} `{!StreamBufferLaws St B} {Msg : Type}.
Context (pb_serialize : Msg -> list Z).
Implicit Types (st : St) (b : B).

(** The bytes of one append, in a [let] of the code *)
Ltac append_step :=
  match goal with
  | |- context [bb_append ?d ?st ?b] =>
      let Ha := fresh "Ha" in
      pose proof (append_appended st b d) as Ha;
      destruct (bb_append d st b) as [? ?]; cbn [fst snd] in Ha
  end.

Lemma appendBoltHeaderKV_ok key value st b :
  bb_ok st b -> 8 + zlen key + zlen value <= bb_room st ->
  8 + zlen key + zlen value < 2 ^ 32 ->
  let '(st', b', n) := appendBoltHeaderKV key value st b in
  appended st b (kv_bytes [(key, value)]) st' b' /\ n = 8 + zlen key + zlen value.
Proof.
  intros Hok Hroom Hsz. pose proof (zlen_nonneg key). pose proof (zlen_nonneg value).
  unfold appendBoltHeaderKV. rewrite !u32_small by (rewrite ?u32_small; lia).
  assert (forall x, zlen (be32 x) = 4) as Hbe by done.
  append_step. specialize (Ha Hok ltac:(rewrite Hbe; lia)).
  pose proof (ap_room _ _ _ _ _ Ha) as Hr. rewrite Hbe in Hr.
  append_step. specialize (Ha0 (ap_ok _ _ _ _ _ Ha) ltac:(lia)).
  pose proof (ap_room _ _ _ _ _ Ha0) as Hr0.
  append_step. specialize (Ha1 (ap_ok _ _ _ _ _ Ha0) ltac:(rewrite Hbe; lia)).
  pose proof (ap_room _ _ _ _ _ Ha1) as Hr1. rewrite Hbe in Hr1.
  append_step. specialize (Ha2 (ap_ok _ _ _ _ _ Ha1) ltac:(lia)).
  split; [|done]. rewrite kv_bytes_cons. cbn [kv_bytes flat_map]. rewrite app_nil_r.
  eapply appended_trans; [done|]. eapply appended_trans; [done|].
  by eapply appended_trans.
Qed.

Lemma append_entries_ok entries : forall st b hl,
  bb_ok st b -> zlen (kv_bytes entries) <= bb_room st -> 0 <= hl ->
  hl + zlen (kv_bytes entries) < 2 ^ 16 ->
  let '(st', b', hl') := append_entries entries st b hl in
  appended st b (kv_bytes entries) st' b' /\ hl' = hl + zlen (kv_bytes entries).
Proof.
  induction entries as [|[k v] entries IH]; intros st b hl Hok Hroom Hhl Hsz; cbn [append_entries].
  { change (kv_bytes []) with (@nil Z). change (zlen (@nil Z)) with 0. split; [|lia].
    split; try done; [by rewrite app_nil_r|change (zlen (@nil Z)) with 0; lia]. }
  rewrite zlen_kv_cons in *. pose proof (zlen_nonneg (kv_bytes entries)).
  pose proof (zlen_nonneg k). pose proof (zlen_nonneg v).
  pose proof (appendBoltHeaderKV_ok k v st b Hok ltac:(lia) ltac:(lia)) as Hkv.
  destruct (appendBoltHeaderKV k v st b) as [[st1 b1] n]. destruct Hkv as [Ha ->].
  pose proof (ap_room _ _ _ _ _ Ha) as Hr. rewrite zlen_kv_cons in Hr.
  change (zlen (kv_bytes [])) with 0 in Hr.
  rewrite u16_small by lia.
  specialize (IH st1 b1 (hl + (8 + zlen k + zlen v)) (ap_ok _ _ _ _ _ Ha) ltac:(lia) ltac:(lia) ltac:(lia)).
  destruct (append_entries entries st1 b1 _) as [[st2 b2] hl2]. destruct IH as [Ha2 ->].
  split; [|lia]. change (kv_bytes ((k, v) :: entries)) with (kv_bytes ([(k, v)] ++ entries)).
  unfold kv_bytes. rewrite flat_map_app. by eapply appended_trans.
Qed.

(** The content of a request and the frame it should become *)
Definition request_content (req : BoltRequest Msg) : list Z :=
  match br_data req with
  | RD_STRING (Some str) => str
  | RD_CSTRING (Some str) => str
  | RD_PROTOBUF (Some msg) => pb_serialize msg
  | _ => []
  end.

Definition request_frame (req : BoltRequest Msg) (request_id : Z) : list Z :=
  let kvs := kv_bytes (request_entries req) in
  let content := request_content req in
  request_header_bytes (mk_BoltRequestHeader BOLT_PROTOCOL_CMD_REQUEST (u32 request_id)
    (2 ^ 32 - 1) (zlen class_name) (zlen kvs) (zlen content))
  ++ class_name ++ kvs ++ content.

Lemma zlen_header h : zlen (request_header_bytes h) = 22.
Proof. done. Qed.

Lemma move_body st b bytes body :
  bb_ok st b -> bb_ok st body -> bb_fresh body -> bb_contents st body = bytes ->
  bb_ok st (bb_append_move body b)
  /\ bb_contents st (bb_append_move body b) = bb_contents st b ++ bytes.
Proof. intros ? ? ? <-. by apply bb_append_move_ok. Qed.

(** The class name and the entries in [buffer_body] *)
Lemma body_ok (req : BoltRequest Msg) st buffer :
  bb_ok st buffer ->
  zlen class_name + zlen (kv_bytes (request_entries req)) <= bb_room st ->
  zlen (kv_bytes (request_entries req)) < 2 ^ 16 ->
  let '(st1, body) := bb_append class_name st bb_empty in
  let '(st2, body, header_len) := append_entries (request_entries req) st1 body 0 in
  header_len = zlen (kv_bytes (request_entries req))
  /\ appended st bb_empty (class_name ++ kv_bytes (request_entries req)) st2 body.
Proof.
  intros Hok Hroom Hsz. pose proof (zlen_nonneg (kv_bytes (request_entries req))).
  pose proof (bb_empty_ok st buffer Hok) as He.
  append_step. specialize (Ha He ltac:(lia)). pose proof (ap_room _ _ _ _ _ Ha) as Hr.
  pose proof (append_entries_ok (request_entries req) s b 0 (ap_ok _ _ _ _ _ Ha) ltac:(lia)
    ltac:(lia) ltac:(lia)) as Hent.
  destruct (append_entries _ s b 0) as [[st2 b2] hl]. destruct Hent as [Ha2 ->].
  split; [done|]. by eapply appended_trans.
Qed.

(** The header, then the body *)
Lemma finish_frame st buffer h body bytes :
  bb_ok st buffer -> bb_ok st body -> bb_fresh body -> bb_contents st body = bytes ->
  22 <= bb_room st ->
  let '(st', buffer') := bb_append (request_header_bytes h) st buffer in
  bb_ok st' (bb_append_move body buffer')
  /\ bb_contents st' (bb_append_move body buffer')
     = bb_contents st buffer ++ request_header_bytes h ++ bytes
  /\ framed st st'.
Proof.
  intros Hok Hbok Hfresh Hbytes Hroom. append_step. specialize (Ha Hok Hroom).
  destruct (ap_framed _ _ _ _ _ Ha body Hbok) as [Hbok' Hbc].
  destruct (move_body s b bytes body (ap_ok _ _ _ _ _ Ha) Hbok' Hfresh) as [Hm Hc]; [congruence|].
  split_and!; [done| |by apply Ha]. rewrite Hc, (ap_contents _ _ _ _ _ Ha). by rewrite app_assoc.
Qed.

(** The data whose content follows the header: a string, or a message that is
    not empty *)
Definition body_content (req : BoltRequest Msg) : option (list Z) :=
  match br_data req with
  | RD_STRING (Some str) => Some str
  | RD_PROTOBUF (Some msg) => match pb_serialize msg with [] => None | bytes => Some bytes end
  | _ => None
  end.

Lemma body_content_request req content : body_content req = Some content -> request_content req = content.
Proof.
  unfold body_content, request_content. destruct (br_data req) as [|?|[str|]|[msg|]]; try done; intros Hc;
    [by simplify_eq|]. by destruct (pb_serialize msg); simplify_eq.
Qed.

(** The content goes to the end of the body, and its length is told. *)
Lemma append_content_ok req content st buffer body head :
  body_content req = Some content -> bb_ok st buffer -> bb_ok st body -> bb_contents st body = class_name ++ head ->
  zlen content <= bb_room st -> zlen class_name + zlen head + zlen content < 2 ^ 32 ->
  exists st' body', append_content pb_serialize req (zlen class_name) (zlen head) st buffer body
      = Some (st', buffer, body', zlen content)
    /\ appended st body content st' body'.
Proof.
  intros Hcontent Hok Hbody Hc Hroom Htotal. pose proof (zlen_nonneg class_name). pose proof (zlen_nonneg head).
  pose proof (zlen_nonneg content). unfold append_content, body_content in *.
  destruct (br_data req) as [|?|[str|]|[msg|]]; try discriminate Hcontent.
  - injection Hcontent as ->. append_step. specialize (Ha Hbody Hroom). do 2 eexists. split; [|done].
    by rewrite u32_small by lia.
  - destruct (pb_serialize msg) as [|x bytes] eqn:Eb; [done|]. injection Hcontent as <-. rewrite <- Eb in *.
    destruct (stream_appended st body (pb_serialize msg) Hbody) as (st' & body' & -> & Ha); [by rewrite Eb|done|lia|].
    exists st', body'. split; [|done]. rewrite (bb_size_ok st' body' (ap_ok _ _ _ _ _ Ha)), (ap_contents _ _ _ _ _ Ha), Hc.
    rewrite !zlen_app, u32_small by lia. do 2 f_equal. lia.
Qed.

Lemma serialize_frame req request_id content st buffer :
  body_content req = Some content -> bb_ok st buffer ->
  22 + zlen class_name + zlen (kv_bytes (request_entries req)) + zlen content <= bb_room st ->
  zlen (kv_bytes (request_entries req)) < 2 ^ 16 ->
  zlen class_name + zlen (kv_bytes (request_entries req)) + zlen content < 2 ^ 32 ->
  exists st' buffer', serialize pb_serialize req request_id st buffer = Some (st', buffer')
  /\ bb_ok st' buffer'
  /\ bb_contents st' buffer' = bb_contents st buffer ++ request_frame req request_id
  /\ framed st st'.
Proof.
  intros Hcontent Hok Hroom Hsz Htotal. pose proof (zlen_nonneg class_name).
  pose proof (zlen_nonneg content). pose proof (zlen_nonneg (kv_bytes (request_entries req))).
  pose proof (body_ok req st buffer Hok ltac:(lia) Hsz) as Hbody.
  assert (q_cmdcode (init_request_header req request_id) = BOLT_PROTOCOL_CMD_REQUEST) as Hcmd.
  { unfold init_request_header, body_content in *. by destruct (br_data req). }
  unfold serialize, request_frame. rewrite (body_content_request _ _ Hcontent), Hcmd.
  change (BOLT_PROTOCOL_CMD_REQUEST =? BOLT_PROTOCOL_CMD_HEARTBEAT) with false. cbv iota zeta.
  destruct (bb_append class_name st bb_empty) as [st1 b1].
  destruct (append_entries (request_entries req) st1 b1 0) as [[st2 b2] hl]. destruct Hbody as (-> & Ha2).
  pose proof (ap_contents _ _ _ _ _ Ha2) as Hc2. rewrite bb_empty_contents in Hc2. cbn [app] in Hc2.
  pose proof (ap_room _ _ _ _ _ Ha2) as Hr2. rewrite zlen_app in Hr2.
  destruct (ap_framed _ _ _ _ _ Ha2 buffer Hok) as [Hok2 Hcb2].
  change (u16 (zlen class_name)) with (zlen class_name).
  destruct (append_content_ok req content st2 buffer b2 _ Hcontent Hok2 (ap_ok _ _ _ _ _ Ha2) Hc2 ltac:(lia) Htotal)
    as (st3 & b3 & -> & Ha3).
  pose proof (appended_trans _ _ _ _ _ _ _ _ Ha2 Ha3) as Ha.
  destruct (ap_framed _ _ _ _ _ Ha3 buffer Hok2) as [Hok3 Hc3].
  pose proof (ap_room _ _ _ _ _ Ha3) as Hr3.
  assert (bb_contents st3 b3 = class_name ++ kv_bytes (request_entries req) ++ content) as Hb3
    by (rewrite (ap_contents _ _ _ _ _ Ha3), Hc2; by rewrite <- app_assoc).
  match goal with |- context [request_header_bytes ?h] =>
    pose proof (finish_frame st3 buffer h b3 _ Hok3 (ap_ok _ _ _ _ _ Ha)
      (ap_fresh _ _ _ _ _ Ha bb_empty_fresh) Hb3 ltac:(lia)) as Hfin end.
  destruct (bb_append _ st3 buffer) as [st4 buf4]. destruct Hfin as (Hf1 & Hf2 & Hf3).
  do 2 eexists. split; [reflexivity|].
  split_and!; [done|by rewrite Hf2, Hc3, Hcb2|]. eapply framed_trans; [by apply Ha|done].
Qed.

End Serialize_ok.

(** C8: a request whose data are a string, or a protocol-buffers message that
    serialises to at least one byte, is assembled into exactly one Bolt frame
    after what the buffer held: a 22-byte header in network order with the
    lengths of the three parts, the class name, the four header entries and the
    content; no other buffer of the thread changes. This needs memory for the
    frame, header entries of less than 2^16 bytes and a total of less than 2^32
    bytes, the ranges of the header's fields. *)
Theorem assemble_request_frame {St B : Type} `{ByteBufferLaws St B} `{!StreamBuffer St B} `{!StreamBufferLaws St B}
    {Msg : Type} (pb_serialize : Msg -> list Z) (req : BoltRequest Msg) (request_id : Z) (content : list Z)
    (st : St) (buffer : B) :
  body_content pb_serialize req = Some content -> bb_ok st buffer ->
  22 + zlen class_name + zlen (kv_bytes (request_entries req)) + zlen content <= bb_room st ->
  zlen (kv_bytes (request_entries req)) < 2 ^ 16 ->
  zlen class_name + zlen (kv_bytes (request_entries req)) + zlen content < 2 ^ 32 ->
  exists st' buffer', assembleBoltRequest pb_serialize req request_id st buffer = Some (true, st', buffer')
  /\ bb_ok st' buffer'
  /\ bb_contents st' buffer'
     = bb_contents st buffer
       ++ request_header_bytes (mk_BoltRequestHeader BOLT_PROTOCOL_CMD_REQUEST
            (converseBoltRequest request_id) (2 ^ 32 - 1)
            (zlen class_name) (zlen (kv_bytes (request_entries req))) (zlen content))
       ++ class_name ++ kv_bytes (request_entries req) ++ content
  /\ (forall other, bb_ok st other -> bb_ok st' other
                    /\ bb_contents st' other = bb_contents st other).
Proof.
  intros Hcontent Hok Hroom Hsz Htotal. unfold assembleBoltRequest.
  destruct (serialize_frame pb_serialize req request_id content st buffer Hcontent Hok Hroom Hsz Htotal)
    as (st' & buffer' & -> & Hok' & Hc & Hf).
  exists st', buffer'. split_and!; try done. rewrite Hc. unfold request_frame.
  by rewrite (body_content_request _ _ _ Hcontent).
Qed.

(** A protobuf message of seven bytes, over lists of bytes *)
Lemma assemble_request_frame_witness :
  let req := data (RD_PROTOBUF (Some tt)) (service (bytes_of_string "svc:1.0") new_BoltRequest) in
  exists st' buffer', assembleBoltRequest (fun _ : unit => bytes_of_string "payload") req 9 1000 [] = Some (true, st', buffer')
    /\ zlen buffer' = 22 + 44 + zlen (kv_bytes (request_entries req)) + 7.
Proof.
  cbv zeta. assert (bb_ok (1000 : Z) ([] : list Z)) as Hok by exact I.
  destruct (assemble_request_frame (fun _ : unit => bytes_of_string "payload")
    (data (RD_PROTOBUF (Some tt))
       (service (bytes_of_string "svc:1.0") new_BoltRequest)) 9 (bytes_of_string "payload")
    1000 ([] : list Z) eq_refl Hok ltac:(vm_compute; discriminate) ltac:(vm_compute; reflexivity)
    ltac:(vm_compute; reflexivity)) as (st' & buffer' & Hrun & _ & Hc & _).
  exists st', buffer'. split; [exact Hrun|].
  change (bb_contents st' buffer') with buffer' in Hc. rewrite Hc. vm_compute. reflexivity.
Defined.

(** A request without data becomes the 22-byte heartbeat frame, whose
    lengths are zero. *)
Theorem assemble_heartbeat_frame {St B : Type} `{ByteBufferLaws St B} `{!StreamBuffer St B} {Msg : Type}
    (pb_serialize : Msg -> list Z) (req : BoltRequest Msg) (request_id : Z) (st : St) (buffer : B) :
  br_data req = RD_NONE -> bb_ok st buffer -> 22 <= bb_room st ->
  exists st' buffer', assembleBoltRequest pb_serialize req request_id st buffer = Some (true, st', buffer')
  /\ bb_ok st' buffer'
  /\ bb_contents st' buffer'
     = bb_contents st buffer
       ++ request_header_bytes (mk_BoltRequestHeader BOLT_PROTOCOL_CMD_HEARTBEAT
            (converseBoltRequest request_id) (2 ^ 32 - 1) 0 0 0).
Proof.
  intros Hd Hok Hroom. unfold assembleBoltRequest, serialize, init_request_header. rewrite Hd.
  cbn [q_cmdcode]. change (BOLT_PROTOCOL_CMD_HEARTBEAT =? BOLT_PROTOCOL_CMD_HEARTBEAT) with true.
  cbv iota zeta. set (h := request_header_bytes _).
  pose proof (append_appended st buffer h Hok Hroom) as Ha.
  destruct (bb_append h st buffer) as [st' buffer']. destruct Ha as [? Hc _ _ _].
  exists st', buffer'. split_and!; done.
Qed.

Lemma assemble_heartbeat_frame_witness :
  exists st' buffer', assembleBoltRequest (fun _ : unit => []) new_BoltRequest 3 100 [] = Some (true, st', buffer')
  /\ buffer' = [1; 1; 0; 0; 1; 0; 0; 0; 3; 11; 255; 255; 255; 255; 0; 0; 0; 0; 0; 0; 0; 0].
Proof.
  assert (bb_ok (100 : Z) ([] : list Z)) as Hok by exact I.
  destruct (assemble_heartbeat_frame (fun _ : unit => []) new_BoltRequest 3 100 ([] : list Z)
    eq_refl Hok ltac:(vm_compute; discriminate)) as (st' & buffer' & Hrun & _ & Hc).
  exists st', buffer'. split; [exact Hrun|].
  change (bb_contents st' buffer') with buffer' in Hc. rewrite Hc. vm_compute. reflexivity.
Defined.

(** The content of a request given as a C string is written before the
    frame's header, to the buffer instead of the body: what follows the header
    is shorter than the lengths it announces. *)
Theorem cstring_content_misplaced {Msg : Type} (pb_serialize : Msg -> list Z)
    (s : list Z) (request_id : Z) (st : Z) :
  let req := data (RD_CSTRING (Some s)) new_BoltRequest in
  exists h, q_content_len h = u32 (zlen s)
    /\ snd <$> assembleBoltRequest pb_serialize req request_id st []
       = Some (s ++ request_header_bytes h ++ class_name ++ kv_bytes (request_entries req)).
Proof.
  cbv zeta. eexists (mk_BoltRequestHeader _ _ _ _ _ _). split; [reflexivity|].
  unfold assembleBoltRequest, serialize. cbn -[request_header_bytes kv_bytes class_name u32 u16].
  rewrite <- app_assoc. do 3 f_equal.
Qed.
