(* ===== verification/BoltResponse.v ===== *)
(** * Bolt responses (src/protocol/bolt/bolt_response.cpp)

    [checkHeader], which frames the input of a connection, and [deserialize],
    which reads a response out of the buffer, over the [ByteBuffer] interface;
    with the heartbeat predicates of bolt_protocol.cpp. *)

From stdpp Require Import gmap.
From S2P Require Import Prelude CommonDefines ByteBuffer Bolt.

(** ** Data *)

(** [struct BoltHeader] after [ntoh] *)
Record BoltHeader := mk_BoltHeader {
  h_proto : Z;
  h_type : Z;
  h_cmdcode : Z;
  h_ver2 : Z;
  h_request_id : Z;
  h_codec : Z;
  h_status : Z;
  h_class_len : Z;
  h_header_len : Z;
  h_content_len : Z
}.

Definition sizeof_BoltHeader : Z := 20.

(** The packed fields of 20 bytes, in host order *)
Definition ntoh (bytes : list Z) : BoltHeader :=
  let field from n := of_be (sub_bytes bytes from n) in
  mk_BoltHeader (field 0 1) (field 1 1) (u16 (field 2 2)) (field 4 1) (u32 (field 5 4)) (field 9 1)
    (u16 (field 10 2)) (u16 (field 12 2)) (u16 (field 14 2)) (u32 (field 16 4)).

Definition SUCCESS : Z := 0.

(** [s_rsp_error_info] *)
Definition s_rsp_error_info : list (Z * string) :=
  [(0, "success"); (1, "error"); (2, "server exception"); (3, "unknown");
   (4, "server thread pool busy"); (5, "error communication"); (6, "no processor");
   (7, "timeout"); (8, "client send error"); (9, "codec exception"); (16, "connection closed");
   (17, "server serial exception"); (18, "server deserial exception")].

(** [msg()] *)
Definition msg (status : Z) : string :=
  match list_find (fun e => fst e = status) s_rsp_error_info with
  | Some (_, (_, s)) => s
  | None => "unknown"
  end.

(** [_data] with [_data_type]: the target the application gave, and what has
    been stored in it *)
Inductive response_data (Msg : Type) : Type :=
| RS_NONE
| RS_STRING (str : list Z)
| RS_PROTOBUF (proto : Msg).
#[global] Arguments RS_NONE {Msg}.
#[global] Arguments RS_STRING {Msg}.
#[global] Arguments RS_PROTOBUF {Msg}.

(** [class BoltResponse]; [_header] is [None] before it has been read in full *)
Record BoltResponse (Msg : Type) : Type := mk_BoltResponse {
  rs_header : option BoltHeader;
  rs_class_name : list Z;
  rs_header_map : gmap (list Z) (list Z);
  rs_data : response_data Msg
}.
#[global] Arguments mk_BoltResponse {Msg}.
#[global] Arguments rs_header {Msg}.
#[global] Arguments rs_class_name {Msg}.
#[global] Arguments rs_header_map {Msg}.
#[global] Arguments rs_data {Msg}.

(** The constructors *)
Definition new_BoltResponse {Msg} (d : response_data Msg) : BoltResponse Msg :=
  mk_BoltResponse None [] ∅ d.

Definition isHeartbeat {Msg} (r : BoltResponse Msg) : bool :=
  match rs_header r with
  | Some h => h_cmdcode h =? BOLT_PROTOCOL_CMD_HEARTBEAT
  | None => false
  end.

Definition status {Msg} (r : BoltResponse Msg) : option Z := h_status <$> rs_header r.

(** [std::unordered_map::emplace]: an existing key keeps its value *)
Definition emplace (k v : list Z) (m : gmap (list Z) (list Z)) : gmap (list Z) (list Z) :=
  match m !! k with
  | Some _ => m
  | None => <[k := v]> m
  end.

(** [s.resize(n)] and a [cut] of at most [n] bytes into it *)
Definition resize_cut (n : Z) (bytes s : list Z) : list Z :=
  bytes ++ drop (length bytes) (take (Z.to_nat n) (s ++ replicate (Z.to_nat n) 0)).

Definition MAX_BOLT_BODY_SIZE : Z := 64 * 1024 * 1024.

Section Response.
Context {St B : Type} `{ByteBuffer St B} {Msg : Type}.
(** [ParseFromCodedStream] and [ConsumedEntireMessage] on the bytes of the
    stream: the message and the stream's [ByteCount] *)
Context (pb_parse : list Z -> option (Msg * Z)).

(** [BoltResponse::checkHeader], with the data size and the request id where
    it sets them; the sum of the lengths is a [uint32_t] *)
Definition checkHeader (st : St) (buffer : B) : EResParseResult * option (Z * Z) :=
  let '(bytes, cn) := bb_copy_to sizeof_BoltHeader st buffer in
  let header := ntoh bytes in
  if cn <? sizeof_BoltHeader then (PARSE_NOT_ENOUGH_DATA, None)
  else
    let request_id := h_request_id header in
    let data_size := u32 (h_class_len header + h_header_len header + h_content_len header) in
    if MAX_BOLT_BODY_SIZE <? data_size then (PARSE_ERROR, Some (data_size, request_id))
    else
      let data_size := data_size + sizeof_BoltHeader in
      if bb_size buffer <? data_size then (PARSE_NOT_ENOUGH_DATA, Some (data_size, request_id))
      else (PARSE_OK, Some (data_size, request_id)).

(** A length-prefixed string of the header map: [cut] of the size, then of the
    bytes; [None] when the buffer ends *)
Definition cut_sized (left_size : Z) (st : St) (buffer : B) : B * option (list Z * Z) :=
  let '(buffer, bytes, cn) := bb_cut 4 st buffer in
  if cn <? 4 then (buffer, None)
  else
    let size := of_be bytes in
    let left_size := u16 (left_size - 4) in
    if 0 <? size then
      let '(buffer, str, cn) := bb_cut size st buffer in
      if cn <? size then (buffer, None) else (buffer, Some (str, u16 (left_size - size)))
    else (buffer, Some ([], left_size)).

(** The [while (left_size > 0)] loop *)
Fixpoint header_map_loop (fuel : nat) (left_size : Z) (m : gmap (list Z) (list Z))
    (st : St) (buffer : B) : B * gmap (list Z) (list Z) * option EResParseResult :=
  match fuel with
  | O => (buffer, m, None)
  | S fuel =>
      if 0 <? left_size then
        match cut_sized left_size st buffer with
        | (buffer, None) => (buffer, m, Some PARSE_NOT_ENOUGH_DATA)
        | (buffer, Some (key, left_size)) =>
            match cut_sized left_size st buffer with
            | (buffer, None) => (buffer, m, Some PARSE_NOT_ENOUGH_DATA)
            | (buffer, Some (value, left_size)) =>
                header_map_loop fuel left_size (emplace key value m) st buffer
            end
        end
      else (buffer, m, Some PARSE_OK)
  end.

(** The content *)
Definition read_content (h : BoltHeader) (d : response_data Msg) (st : St) (buffer : B)
    : EResParseResult * response_data Msg * B :=
  if 0 <? h_content_len h then
    match d with
    | RS_STRING str =>
        let '(buffer, bytes, cn) := bb_cut (h_content_len h) st buffer in
        (if cn <? h_content_len h then PARSE_NOT_ENOUGH_DATA else PARSE_OK,
         RS_STRING (resize_cut (h_content_len h) bytes str), buffer)
    | RS_PROTOBUF _ =>
        match pb_parse (bb_contents st buffer) with
        | None => (PARSE_ERROR, d, buffer)
        | Some (m, byte_count) =>
            if negb (byte_count =? h_content_len h) then (PARSE_ERROR, RS_PROTOBUF m, buffer)
            else (PARSE_OK, RS_PROTOBUF m, fst (bb_pop_front (h_content_len h) buffer))
        end
    | RS_NONE => (PARSE_OK, d, buffer)
    end
  else (PARSE_OK, d, buffer).

(** [BoltResponse::deserialize]; [None] only when the fuel ran out *)
Definition deserialize (r : BoltResponse Msg) (st : St) (buffer : B)
    : option (EResParseResult * BoltResponse Msg * B) :=
  let '(buffer, bytes, cn) := bb_cut sizeof_BoltHeader st buffer in
  if cn <? sizeof_BoltHeader then
    Some (PARSE_NOT_ENOUGH_DATA,
          mk_BoltResponse None (rs_class_name r) (rs_header_map r) (rs_data r), buffer)
  else
    let h := ntoh bytes in
    let r := mk_BoltResponse (Some h) (rs_class_name r) (rs_header_map r) (rs_data r) in
    if negb (h_proto h =? BOLT_PROTOCOL_TYPE) then Some (PARSE_ERROR, r, buffer)
    else if negb (h_type h =? BOLT_PROTOCOL_RESPONSE) then Some (PARSE_ERROR, r, buffer)
    else if h_cmdcode h =? BOLT_PROTOCOL_CMD_HEARTBEAT then Some (PARSE_OK, r, buffer)
    else if negb (h_cmdcode h =? BOLT_PROTOCOL_CMD_RESPONSE) then Some (PARSE_ERROR, r, buffer)
    else if negb (h_status h =? SUCCESS) then
      let data_size := u32 (h_class_len h + h_header_len h + h_content_len h) in
      Some (PARSE_OK, r, fst (bb_pop_front data_size buffer))
    else
      let '(buffer, bytes, cn) := bb_cut (h_class_len h) st buffer in
      let cls := resize_cut (h_class_len h) bytes (rs_class_name r) in
      let r := mk_BoltResponse (Some h) cls (rs_header_map r) (rs_data r) in
      if cn <? h_class_len h then Some (PARSE_NOT_ENOUGH_DATA, r, buffer)
      else
        match header_map_loop (S (Z.to_nat (bb_size buffer))) (h_header_len h)
                (rs_header_map r) st buffer with
        | (buffer, m, None) => None
        | (buffer, m, Some PARSE_OK) =>
            let '(res, d, buffer) := read_content h (rs_data r) st buffer in
            Some (res, mk_BoltResponse (Some h) cls m d, buffer)
        | (buffer, m, Some res) => Some (res, mk_BoltResponse (Some h) cls m (rs_data r), buffer)
        end.

(** [parseBoltProtocol] and [parseBoltResponse] *)
Definition parseBoltProtocol (st : St) (buffer : B) : EResParseResult * option (Z * Z) :=
  checkHeader st buffer.

Definition parseBoltResponse (r : BoltResponse Msg) (st : St) (buffer : B) :=
  deserialize r st buffer.

End Response.

(** [assembleHeartbeatRequest]: the shared empty request and a new response *)
Definition assembleHeartbeatRequest {Msg} : BoltRequest Msg * BoltResponse Msg * bool :=
  (new_BoltRequest, new_BoltResponse RS_NONE, true).

(** [parseHeartbeatResponse]; the pointer may be null *)
Definition parseHeartbeatResponse {Msg} (r : option (BoltResponse Msg)) : bool :=
  match r with
  | Some r => isHeartbeat r && bool_decide (status r = Some SUCCESS)
  | None => false
  end.

(** ** Frames *)

(** The 20 bytes of a response header, and a whole response *)
Definition response_header_bytes (h : BoltHeader) : list Z :=
  [h_proto h; h_type h] ++ be16 (h_cmdcode h) ++ [h_ver2 h] ++ be32 (h_request_id h)
  ++ [h_codec h] ++ be16 (h_status h) ++ be16 (h_class_len h) ++ be16 (h_header_len h)
  ++ be32 (h_content_len h).

Definition header_fits (h : BoltHeader) : Prop :=
  0 <= h_cmdcode h < 2 ^ 16 /\ 0 <= h_request_id h < 2 ^ 32 /\ 0 <= h_status h < 2 ^ 16
  /\ 0 <= h_class_len h < 2 ^ 16 /\ 0 <= h_header_len h < 2 ^ 16
  /\ 0 <= h_content_len h < 2 ^ 32.

Definition response_frame (h : BoltHeader) (cls : list Z) (entries : list (list Z * list Z))
    (content : list Z) : list Z :=
  response_header_bytes h ++ cls ++ kv_bytes entries ++ content.

(** The lengths of the header are those of the parts. *)
Definition frame_ok (h : BoltHeader) (cls : list Z) (entries : list (list Z * list Z))
    (content : list Z) : Prop :=
  header_fits h /\ h_class_len h = zlen cls /\ h_header_len h = zlen (kv_bytes entries)
  /\ h_content_len h = zlen content.

Lemma zlen_response_header h : zlen (response_header_bytes h) = 20.
Proof. done. Qed.

Lemma ntoh_bytes h : header_fits h -> ntoh (response_header_bytes h) = h.
Proof.
  intros (Hc & Hi & Hs & Hcl & Hhl & Hcn). destruct h as [pr ty cmd ver rid cod sta cl hl cn].
  cbn in *. unfold ntoh, response_header_bytes, sub_bytes.
  assert (forall x, 0 <= x < 2 ^ 16 -> u16 (of_be (be16 x)) = x) as H16
    by (intros x Hx; rewrite of_be16 by done; by apply u16_small).
  assert (forall x, 0 <= x < 2 ^ 32 -> u32 (of_be (be32 x)) = x) as H32
    by (intros x Hx; rewrite of_be32 by done; by apply u32_small).
  f_equal; [exact (H16 cmd Hc)|exact (H32 rid Hi)
           |exact (H16 sta Hs)|exact (H16 cl Hcl)|exact (H16 hl Hhl)|exact (H32 cn Hcn)].
Qed.

Section Frames.
Context {St B : Type} `{ByteBufferLaws St B} {Msg : Type}.
Implicit Types (st : St) (b : B).

Lemma take_app_zlen (l k : list Z) : take (Z.to_nat (zlen l)) (l ++ k) = l.
Proof. unfold zlen. rewrite Nat2Z.id. apply take_app_length. Qed.

Lemma drop_app_zlen (l k : list Z) : drop (Z.to_nat (zlen l)) (l ++ k) = k.
Proof. unfold zlen. rewrite Nat2Z.id. apply drop_app_length. Qed.

(** Cutting a known prefix *)
Lemma cut_prefix st b l k n :
  bb_ok st b -> bb_contents st b = l ++ k -> n = zlen l ->
  exists b', bb_cut n st b = (b', l, n) /\ bb_ok st b' /\ bb_contents st b' = k.
Proof.
  intros Hok Hc ->. pose proof (bb_cut_ok st b (zlen l) Hok (zlen_nonneg l)) as Hcut.
  destruct (bb_cut (zlen l) st b) as [[b' bytes] size]. destruct Hcut as (Hok' & -> & -> & Hc').
  rewrite Hc in *. rewrite take_app_zlen, drop_app_zlen in *. exists b'. split_and!; try done.
  f_equal. rewrite zlen_app. pose proof (zlen_nonneg k). lia.
Qed.

Lemma resize_cut_all bytes s : resize_cut (zlen bytes) bytes s = bytes.
Proof.
  unfold resize_cut, zlen. rewrite Nat2Z.id. rewrite drop_ge; [by rewrite app_nil_r|].
  rewrite length_take. lia.
Qed.

(** The header of a frame is read back. *)
Lemma check_prefix st b h rest :
  bb_ok st b -> header_fits h -> bb_contents st b = response_header_bytes h ++ rest ->
  bb_copy_to sizeof_BoltHeader st b = (response_header_bytes h, 20).
Proof.
  intros Hok Hfit Hc. pose proof (bb_copy_to_ok st b 20 Hok ltac:(lia)) as Hcp.
  unfold sizeof_BoltHeader. destruct (bb_copy_to 20 st b) as [bytes n]. destruct Hcp as [-> ->].
  rewrite Hc, zlen_app, zlen_response_header. pose proof (zlen_nonneg rest).
  rewrite Z.min_l by lia. change 20 with (zlen (response_header_bytes h)) at 1.
  by rewrite take_app_zlen.
Qed.

(** A header entry is read back. *)
Lemma cut_sized_ok st b s rest left_size :
  bb_ok st b -> bb_contents st b = be32 (zlen s) ++ s ++ rest -> zlen s < 2 ^ 32 ->
  4 + zlen s <= left_size < 2 ^ 16 ->
  exists b', cut_sized left_size st b = (b', Some (s, left_size - 4 - zlen s))
    /\ bb_ok st b' /\ bb_contents st b' = rest.
Proof.
  intros Hok Hc Hsz Hl. pose proof (zlen_nonneg s) as Hpos. unfold cut_sized.
  destruct (cut_prefix st b (be32 (zlen s)) (s ++ rest) 4 Hok Hc) as (b1 & -> & Hok1 & Hc1); [done|].
  change (4 <? 4) with false. cbv iota zeta. rewrite of_be32 by lia.
  rewrite (u16_small (left_size - 4)) by lia.
  destruct (Z.ltb_spec 0 (zlen s)) as [Hlt|Hz].
  - destruct (cut_prefix st b1 s rest (zlen s) Hok1 Hc1) as (b2 & -> & Hok2 & Hc2); [done|].
    rewrite Z.ltb_irrefl, u16_small by lia. eauto.
  - assert (s = []) as -> by (apply nil_length_inv; unfold zlen in *; lia).
    exists b1. split_and!; try done. by rewrite Z.sub_0_r.
Qed.

Lemma header_map_loop_ok fuel : forall entries rest m st b,
  bb_ok st b -> bb_contents st b = kv_bytes entries ++ rest ->
  zlen (kv_bytes entries) < 2 ^ 16 -> (length entries < fuel)%nat ->
  exists b', header_map_loop fuel (zlen (kv_bytes entries)) m st b
             = (b', foldl (fun m '(k, v) => emplace k v m) m entries, Some PARSE_OK)
    /\ bb_ok st b' /\ bb_contents st b' = rest.
Proof.
  induction fuel as [|fuel IH]; intros entries rest m st b Hok Hc Hsz Hfuel; [lia|].
  destruct entries as [|[k v] entries].
  { cbn. exists b. split_and!; done. }
  rewrite zlen_kv_cons in *. pose proof (zlen_nonneg k). pose proof (zlen_nonneg v).
  pose proof (zlen_nonneg (kv_bytes entries)). cbn [header_map_loop].
  rewrite (proj2 (Z.ltb_lt 0 _)) by lia.
  rewrite kv_bytes_cons, <- !app_assoc in Hc.
  destruct (cut_sized_ok st b k _ (8 + zlen k + zlen v + zlen (kv_bytes entries)) Hok Hc)
    as (b1 & -> & Hok1 & Hc1); [lia|lia|].
  destruct (cut_sized_ok st b1 v _ (8 + zlen k + zlen v + zlen (kv_bytes entries) - 4 - zlen k) Hok1 Hc1)
    as (b2 & -> & Hok2 & Hc2); [lia|lia|].
  replace (8 + zlen k + zlen v + zlen (kv_bytes entries) - 4 - zlen k - 4 - zlen v)
    with (zlen (kv_bytes entries)) by lia.
  cbn [foldl]. apply IH; [done|done|lia|cbn in Hfuel; lia].
Qed.

End Frames.

(** Entries with different keys are all kept. *)
Lemma emplace_all entries m :
  NoDup entries.*1 -> (forall k, k ∈ entries.*1 -> m !! k = None) ->
  foldl (fun m '(k, v) => emplace k v m) m entries = list_to_map entries ∪ m.
Proof.
  revert m. induction entries as [|[k v] entries IH]; intros m Hnd Hm; cbn.
  { by rewrite (left_id_L ∅ _). }
  inversion Hnd as [|? ? Hk Hnd']; subst. unfold emplace at 2. rewrite (Hm k) by (cbn; set_solver).
  rewrite IH; [|done|].
  - rewrite <- insert_union_l, <- insert_union_r; [done|].
    by apply not_elem_of_list_to_map_1.
  - intros k' Hin. rewrite lookup_insert_ne; [by apply Hm, list_elem_of_further|]. by intros ->.
Qed.

Lemma kv_bytes_length entries : 8 * Z.of_nat (length entries) <= zlen (kv_bytes entries).
Proof.
  induction entries as [|[k v] entries IH]; [done|]. rewrite zlen_kv_cons. cbn [length].
  pose proof (zlen_nonneg k). pose proof (zlen_nonneg v). lia.
Qed.

(** [checkHeader] on a prefix of a response and what follows it *)
Lemma checkHeader_frame {St B : Type} `{ByteBufferLaws St B} (st : St) (buffer : B)
    (h : BoltHeader) (cls : list Z) (entries : list (list Z * list Z)) (content rest : list Z)
    (n : nat) :
  frame_ok h cls entries content ->
  h_class_len h + h_header_len h + h_content_len h <= MAX_BOLT_BODY_SIZE ->
  bb_ok st buffer ->
  bb_contents st buffer = take n (response_frame h cls entries content ++ rest) ->
  let size := zlen (response_frame h cls entries content) in
  if Z.of_nat n <? size then fst (checkHeader st buffer) = PARSE_NOT_ENOUGH_DATA
  else checkHeader st buffer = (PARSE_OK, Some (size, h_request_id h)).
Proof.
  intros (Hfit & Hcl & Hhl & Hcn) Hmax Hok Hc size.
  assert (size = 20 + h_class_len h + h_header_len h + h_content_len h) as Hsize.
  { unfold size, response_frame. rewrite !zlen_app, zlen_response_header. lia. }
  pose proof Hfit as (_ & _ & _ & ? & ? & ?). unfold MAX_BOLT_BODY_SIZE in Hmax.
  destruct (Z.ltb_spec (Z.of_nat n) 20) as [Hshort|Hlong].
  - rewrite (proj2 (Z.ltb_lt _ _)) by lia. unfold checkHeader, sizeof_BoltHeader.
    pose proof (bb_copy_to_ok st buffer 20 Hok ltac:(lia)) as Hcp.
    destruct (bb_copy_to 20 st buffer) as [bytes m]. destruct Hcp as [_ ->].
    rewrite (proj2 (Z.ltb_lt _ 20)); [done|]. rewrite Hc. unfold zlen. rewrite length_take. lia.
  - unfold response_frame in Hc. rewrite <- !app_assoc in Hc.
    rewrite take_app_ge in Hc by (change (length (response_header_bytes h)) with 20%nat; lia).
    change (length (response_header_bytes h)) with 20%nat in Hc.
    unfold checkHeader. rewrite (check_prefix st buffer h _ Hok Hfit Hc).
    change (20 <? sizeof_BoltHeader) with false. cbv iota zeta. rewrite ntoh_bytes by done.
    rewrite u32_small by lia. unfold MAX_BOLT_BODY_SIZE, sizeof_BoltHeader.
    rewrite (proj2 (Z.ltb_ge _ (h_class_len h + h_header_len h + h_content_len h))) by lia.
    rewrite (bb_size_ok st buffer Hok), Hc, zlen_app, zlen_response_header.
    assert (zlen (take (n - 20) (cls ++ kv_bytes entries ++ content ++ rest))
            = Z.min (Z.of_nat n - 20) (size - 20 + zlen rest)) as ->.
    { unfold zlen in *. rewrite length_take, !length_app. lia. }
    pose proof (zlen_nonneg rest).
    destruct (Z.ltb_spec (Z.of_nat n) size) as [Hlt|Hge].
    + by rewrite (proj2 (Z.ltb_lt _ _)) by lia.
    + rewrite (proj2 (Z.ltb_ge _ _)) by lia. do 3 f_equal. lia.
Qed.

(** C7: [checkHeader] frames the input of a connection: as long as the buffer
    holds less than a whole response it asks for more data, and when the whole
    response is there it answers its exact size and request id, whatever
    follows it. *)
Theorem check_header_frames {St B : Type} `{ByteBufferLaws St B} (st : St) (buffer : B)
    (h : BoltHeader) (cls : list Z) (entries : list (list Z * list Z)) (content rest : list Z)
    (n : nat) :
  frame_ok h cls entries content ->
  h_class_len h + h_header_len h + h_content_len h <= MAX_BOLT_BODY_SIZE ->
  bb_ok st buffer ->
  bb_contents st buffer = take n (response_frame h cls entries content ++ rest) ->
  let size := zlen (response_frame h cls entries content) in
  if Z.of_nat n <? size then fst (checkHeader st buffer) = PARSE_NOT_ENOUGH_DATA
  else checkHeader st buffer = (PARSE_OK, Some (size, h_request_id h)).
Proof. apply checkHeader_frame. Qed.

Definition sample_header : BoltHeader := mk_BoltHeader 1 0 2 1 77 11 0 3 10 4.

Lemma sample_header_fits : header_fits sample_header.
Proof. unfold header_fits, sample_header. cbn. lia. Qed.

Lemma check_header_frames_witness :
  checkHeader 0 (response_frame sample_header [99; 108; 115] [([107], [118])] [1; 2; 3; 4] ++ [255])
  = (PARSE_OK, Some (37, 77)).
Proof.
  pose proof (check_header_frames 0
    (response_frame sample_header [99; 108; 115] [([107], [118])] [1; 2; 3; 4] ++ [255])
    sample_header [99; 108; 115] [([107], [118])] [1; 2; 3; 4] [255] 38) as Hc.
  cbv zeta in Hc. change (Z.of_nat 38 <? _) with false in Hc. apply Hc.
  - repeat split; try reflexivity; apply sample_header_fits.
  - vm_compute. discriminate.
  - exact I.
  - reflexivity.
Defined.

(** Reading back a successful response *)
Lemma response_read_back {St B : Type} `{ByteBufferLaws St B} {Msg : Type}
    (pb_parse : list Z -> option (Msg * Z)) (st : St) (buffer : B)
    (h : BoltHeader) (cls : list Z) (entries : list (list Z * list Z)) (content rest str : list Z) :
  frame_ok h cls entries content ->
  h_proto h = BOLT_PROTOCOL_TYPE -> h_type h = BOLT_PROTOCOL_RESPONSE ->
  h_cmdcode h = BOLT_PROTOCOL_CMD_RESPONSE -> h_status h = SUCCESS ->
  NoDup entries.*1 -> content <> [] ->
  bb_ok st buffer -> bb_contents st buffer = response_frame h cls entries content ++ rest ->
  exists buffer',
    deserialize pb_parse (new_BoltResponse (RS_STRING str)) st buffer
    = Some (PARSE_OK, mk_BoltResponse (Some h) cls (list_to_map entries) (RS_STRING content), buffer')
    /\ bb_ok st buffer' /\ bb_contents st buffer' = rest.
Proof.
  intros (Hfit & Hcl & Hhl & Hcn) Hp Ht Hcmd Hst Hnd Hne Hok Hc.
  unfold response_frame in Hc. rewrite <- !app_assoc in Hc. unfold deserialize.
  destruct (cut_prefix st buffer _ _ 20 Hok Hc) as (b1 & Hcut & Hok1 & Hc1); [done|].
  unfold sizeof_BoltHeader. rewrite Hcut. change (20 <? 20) with false. cbv iota zeta.
  rewrite ntoh_bytes by done. rewrite Hp, Ht, Hcmd, Hst. cbn [negb Z.eqb rs_class_name].
  destruct (cut_prefix st b1 _ _ (h_class_len h) Hok1 Hc1) as (b2 & Hcut2 & Hok2 & Hc2); [done|].
  rewrite Hcut2, Z.ltb_irrefl.
  replace (resize_cut (h_class_len h) cls _) with cls by (rewrite Hcl; symmetry; apply resize_cut_all).
  rewrite Hhl. cbn [rs_header_map new_BoltResponse rs_data].
  pose proof (kv_bytes_length entries) as Hkl.
  pose proof Hfit as (_ & _ & _ & _ & ? & ?).
  destruct (header_map_loop_ok (S (Z.to_nat (bb_size b2))) entries (content ++ rest) ∅ st b2 Hok2 Hc2)
    as (b3 & -> & Hok3 & Hc3); [lia| |].
  { rewrite (bb_size_ok st b2 Hok2), Hc2, zlen_app. pose proof (zlen_nonneg (content ++ rest)). lia. }
  unfold read_content.
  destruct (cut_prefix st b3 _ _ (h_content_len h) Hok3 Hc3) as (b4 & Hcut4 & Hok4 & Hc4); [done|].
  assert (0 < h_content_len h) as Hpos.
  { rewrite Hcn. destruct content; [done|]. unfold zlen. cbn. lia. }
  rewrite (proj2 (Z.ltb_lt _ _)) by done. rewrite Hcut4, Z.ltb_irrefl.
  replace (resize_cut (h_content_len h) content _) with content
    by (rewrite Hcn; symmetry; apply resize_cut_all).
  exists b4. split_and!; try done.
  rewrite emplace_all; [|done|by intros; rewrite lookup_empty].
  by rewrite (right_id_L ∅ _).
Qed.

(** C6: a successful response is read back into a string. For a response object
    that has not been used and whose target is a string, and a frame of the kind
    RESPONSE with status SUCCESS, distinct header keys and a content that is not
    empty, [deserialize] stores the header, the class name, every header entry
    and the content, and leaves exactly the bytes after the response in the
    buffer. (Other statuses: [deserialize_error_status].) *)
Theorem deserialize_frame {St B : Type} `{ByteBufferLaws St B} {Msg : Type}
    (pb_parse : list Z -> option (Msg * Z)) (st : St) (buffer : B)
    (h : BoltHeader) (cls : list Z) (entries : list (list Z * list Z)) (content rest str : list Z) :
  frame_ok h cls entries content ->
  h_proto h = BOLT_PROTOCOL_TYPE -> h_type h = BOLT_PROTOCOL_RESPONSE ->
  h_cmdcode h = BOLT_PROTOCOL_CMD_RESPONSE -> h_status h = SUCCESS ->
  NoDup entries.*1 -> content <> [] ->
  bb_ok st buffer -> bb_contents st buffer = response_frame h cls entries content ++ rest ->
  exists buffer',
    deserialize pb_parse (new_BoltResponse (RS_STRING str)) st buffer
    = Some (PARSE_OK, mk_BoltResponse (Some h) cls (list_to_map entries) (RS_STRING content), buffer')
    /\ bb_ok st buffer' /\ bb_contents st buffer' = rest.
Proof. apply response_read_back. Qed.

Lemma deserialize_frame_witness :
  exists buffer',
    deserialize (Msg := unit) (fun _ => None) (new_BoltResponse (RS_STRING [])) 0
      (response_frame sample_header [99; 108; 115] [([107], [118])] [1; 2; 3; 4] ++ [255])
    = Some (PARSE_OK, mk_BoltResponse (Some sample_header) [99; 108; 115]
                        (list_to_map [([107], [118])]) (RS_STRING [1; 2; 3; 4]), buffer')
    /\ bb_ok 0 buffer' /\ bb_contents 0 buffer' = [255].
Proof.
  apply (deserialize_frame (fun _ => None) 0
    (response_frame sample_header [99; 108; 115] [([107], [118])] [1; 2; 3; 4] ++ [255])
    sample_header [99; 108; 115] [([107], [118])] [1; 2; 3; 4] [255] []); try reflexivity.
  - repeat split; try reflexivity; apply sample_header_fits.
  - repeat constructor. intros Hin. inversion Hin.
  - discriminate.
Defined.

(** ** Termination and errors *)

Section Total.
Context {St B : Type} `{ByteBufferLaws St B} {Msg : Type}.
Context (pb_parse : list Z -> option (Msg * Z)).
Implicit Types (st : St) (b : B).

(** A cut that is not short shrinks the buffer by its size. *)
Lemma cut_shrinks st b n b' bytes cn :
  bb_ok st b -> 0 <= n -> bb_cut n st b = (b', bytes, cn) ->
  bb_ok st b' /\ bb_size b' = bb_size b - cn /\ 0 <= cn.
Proof.
  intros Hok Hn Hcut. pose proof (bb_cut_ok st b n Hok Hn) as Hc. rewrite Hcut in Hc.
  destruct Hc as (Hok' & -> & -> & Hc'). split; [done|].
  rewrite (bb_size_ok st b' Hok'), (bb_size_ok st b Hok), Hc'.
  pose proof (zlen_nonneg (bb_contents st b)). unfold zlen in *. rewrite length_drop. lia.
Qed.

Lemma cut_sized_shrinks st b left_size b' r :
  bb_ok st b -> cut_sized left_size st b = (b', Some r) ->
  bb_ok st b' /\ bb_size b' + 4 <= bb_size b.
Proof.
  intros Hok Hcut. unfold cut_sized in Hcut.
  destruct (bb_cut 4 st b) as [[b1 bytes] cn] eqn:Hc1.
  destruct (cut_shrinks _ _ 4 _ _ _ Hok ltac:(done) Hc1) as (Hok1 & Hs1 & Hp1).
  destruct (Z.ltb_spec cn 4); [done|]. destruct (Z.ltb_spec 0 (of_be bytes)) as [Hpos|_].
  - destruct (bb_cut (of_be bytes) st b1) as [[b2 str] cn2] eqn:Hc2.
    destruct (cut_shrinks _ _ (of_be bytes) _ _ _ Hok1 ltac:(lia) Hc2) as (Hok2 & Hs2 & Hp2).
    destruct (cn2 <? of_be bytes); [done|]. injection Hcut as <- <-. split; [done|lia].
  - injection Hcut as <- <-. split; [done|lia].
Qed.

Lemma header_map_loop_total fuel : forall left_size m st b,
  bb_ok st b -> bb_size b < Z.of_nat fuel ->
  exists b' m' res, header_map_loop fuel left_size m st b = (b', m', Some res) /\ res <> PARSE_ERROR.
Proof.
  induction fuel as [|fuel IH]; intros left_size m st b Hok Hf.
  { rewrite (bb_size_ok st b Hok) in Hf. pose proof (zlen_nonneg (bb_contents st b)). lia. }
  cbn [header_map_loop]. destruct (0 <? left_size); [|by eauto].
  destruct (cut_sized left_size st b) as [b1 [[key l1]|]] eqn:Hc1; [|by eauto].
  destruct (cut_sized_shrinks _ _ _ _ _ Hok Hc1) as [Hok1 Hs1].
  destruct (cut_sized l1 st b1) as [b2 [[value l2]|]] eqn:Hc2; [|by eauto].
  destruct (cut_sized_shrinks _ _ _ _ _ Hok1 Hc2) as [Hok2 Hs2].
  apply IH; [done|lia].
Qed.

(** ** The reference reader *)

(** Over any buffer the operations give what they give over the list of its
    bytes. *)
Lemma cut_reference st b n :
  bb_ok st b -> 0 <= n ->
  exists b' bytes cn, bb_cut n st b = (b', bytes, cn) /\ bb_ok st b'
    /\ bb_cut n 0 (bb_contents st b) = (bb_contents st b', bytes, cn).
Proof.
  intros Hok Hn. pose proof (bb_cut_ok st b n Hok Hn) as Hc. destruct (bb_cut n st b) as [[b' bytes] cn].
  destruct Hc as (Hok' & -> & -> & Hc). do 3 eexists. split; [done|]. rewrite Hc. by split.
Qed.

Lemma pop_front_reference st b n :
  bb_ok st b -> 0 <= n ->
  bb_ok st (fst (bb_pop_front n b))
  /\ fst (bb_pop_front n (bb_contents st b)) = bb_contents st (fst (bb_pop_front n b)).
Proof.
  intros Hok Hn. pose proof (bb_pop_front_ok st b n Hok Hn) as Hc. destruct (bb_pop_front n b) as [b' cn].
  destruct Hc as (Hok' & -> & Hc). split; [done|]. cbn [fst]. by rewrite Hc.
Qed.

Lemma cut_sized_reference st b left_size :
  bb_ok st b ->
  exists b' r, cut_sized left_size st b = (b', r) /\ bb_ok st b'
    /\ cut_sized left_size 0 (bb_contents st b) = (bb_contents st b', r).
Proof.
  intros Hok. unfold cut_sized. destruct (cut_reference st b 4 Hok ltac:(done)) as (b1 & bytes & cn & -> & Hok1 & ->).
  case_match; [by eauto|]. destruct (Z.ltb_spec 0 (of_be bytes)); [|by eauto].
  destruct (cut_reference st b1 (of_be bytes) Hok1 ltac:(lia)) as (b2 & str & cn2 & -> & Hok2 & ->).
  case_match; by eauto.
Qed.

Lemma header_map_loop_reference fuel : forall left_size m st b,
  bb_ok st b ->
  exists b' m' res, header_map_loop fuel left_size m st b = (b', m', res) /\ bb_ok st b'
    /\ header_map_loop fuel left_size m 0 (bb_contents st b) = (bb_contents st b', m', res).
Proof.
  induction fuel as [|fuel IH]; intros left_size m st b Hok; cbn [header_map_loop]; [by eauto 6|].
  case_match; [|by eauto 6].
  destruct (cut_sized_reference st b left_size Hok) as (b1 & [[key l1]|] & -> & Hok1 & ->); [|by eauto 6].
  destruct (cut_sized_reference st b1 l1 Hok1) as (b2 & [[value l2]|] & -> & Hok2 & ->); [|by eauto 6].
  by apply IH.
Qed.

Lemma read_content_reference h d st b :
  bb_ok st b ->
  exists res d' b', read_content pb_parse h d st b = (res, d', b') /\ bb_ok st b'
    /\ read_content pb_parse h d 0 (bb_contents st b) = (res, d', bb_contents st b').
Proof.
  intros Hok. unfold read_content. destruct (Z.ltb_spec 0 (h_content_len h)) as [Hpos|]; [|by eauto 6].
  destruct d as [|str|proto]; [by eauto 6| |].
  - destruct (cut_reference st b (h_content_len h) Hok ltac:(lia)) as (b1 & bytes & cn & -> & Hok1 & ->). by eauto 6.
  - destruct (pop_front_reference st b (h_content_len h) Hok ltac:(lia)) as [Hok1 Hp].
    change (bb_contents 0 (bb_contents st b)) with (bb_contents st b).
    destruct (pb_parse (bb_contents st b)) as [[msg n]|]; [|by eauto 6]. case_match; [by eauto 6|].
    rewrite Hp. by eauto 6.
Qed.

(** [deserialize] over any buffer is [deserialize] over its bytes, and it
    returns. *)
Lemma deserialize_reference (r : BoltResponse Msg) st b :
  bb_ok st b ->
  exists ret r' b', deserialize pb_parse r st b = Some (ret, r', b') /\ bb_ok st b'
    /\ deserialize pb_parse r 0 (bb_contents st b) = Some (ret, r', bb_contents st b').
Proof.
  intros Hok. unfold deserialize, sizeof_BoltHeader.
  destruct (cut_reference st b 20 Hok ltac:(done)) as (b1 & bytes & cn & -> & Hok1 & ->).
  do 5 (case_match; [by eauto 6|]). set (h := ntoh bytes) in *.
  case_match.
  { match goal with |- context [bb_pop_front ?n b1] =>
      destruct (pop_front_reference st b1 n Hok1 ltac:(apply u32_range)) as [Hok2 Hp] end.
    rewrite Hp. by eauto 6. }
  destruct (cut_reference st b1 (h_class_len h) Hok1 ltac:(apply u16_range)) as (b2 & cls & cn2 & -> & Hok2 & ->).
  case_match; [by eauto 6|]. cbn [rs_header_map rs_data]. rewrite (bb_size_ok st b2 Hok2).
  change (bb_size (bb_contents st b2)) with (zlen (bb_contents st b2)).
  destruct (header_map_loop_total (S (Z.to_nat (zlen (bb_contents st b2)))) (h_header_len h) (rs_header_map r)
              st b2 Hok2) as (b3 & m & res & Hrun & _).
  { rewrite (bb_size_ok st b2 Hok2). pose proof (zlen_nonneg (bb_contents st b2)). lia. }
  destruct (header_map_loop_reference (S (Z.to_nat (zlen (bb_contents st b2)))) (h_header_len h) (rs_header_map r)
              st b2 Hok2) as (b4 & m' & res' & Hrun' & Hok4 & ->).
  rewrite Hrun in Hrun'. simplify_eq. rewrite Hrun. destruct res; [|by eauto 6|by eauto 6].
  destruct (read_content_reference h (rs_data r) st b4 Hok4) as (res & d & b5 & -> & Hok5 & ->). by eauto 6.
Qed.

End Total.

(** [deserialize] returns on every input, whatever the lengths in the
    bytes say: the fuel of the header-map loop, one more than the size of the
    buffer, is never used up. *)
Theorem deserialize_total {St B : Type} `{ByteBufferLaws St B} {Msg : Type}
    (pb_parse : list Z -> option (Msg * Z)) (r : BoltResponse Msg) (st : St) (buffer : B) :
  bb_ok st buffer -> exists out, deserialize pb_parse r st buffer = Some out.
Proof.
  intros Hok. destruct (deserialize_reference pb_parse r st buffer Hok) as (ret & r' & b' & -> & _). by eauto.
Qed.

Lemma deserialize_total_witness :
  exists out, deserialize (Msg := unit) (fun _ => None) (new_BoltResponse RS_NONE) 0
                (response_header_bytes (mk_BoltHeader 1 0 2 1 7 11 0 2 65535 4) ++ [1; 2; 0; 0; 0; 9])
              = Some out.
Proof.
  apply (deserialize_total (fun _ => None) (new_BoltResponse RS_NONE) 0
    (response_header_bytes (mk_BoltHeader 1 0 2 1 7 11 0 2 65535 4) ++ [1; 2; 0; 0; 0; 9])).
  exact I.
Defined.

(** A response whose status is not [SUCCESS] is reported as parsed with
    its header, the body is dropped unread, and what follows it in the
    connection is left for the next response. *)
Theorem deserialize_error_status {St B : Type} `{ByteBufferLaws St B} {Msg : Type}
    (pb_parse : list Z -> option (Msg * Z)) (r : BoltResponse Msg) (st : St) (buffer : B)
    (h : BoltHeader) (cls : list Z) (entries : list (list Z * list Z)) (content rest : list Z) :
  frame_ok h cls entries content ->
  h_class_len h + h_header_len h + h_content_len h < 2 ^ 32 ->
  h_proto h = BOLT_PROTOCOL_TYPE -> h_type h = BOLT_PROTOCOL_RESPONSE ->
  h_cmdcode h = BOLT_PROTOCOL_CMD_RESPONSE -> h_status h <> SUCCESS ->
  bb_ok st buffer -> bb_contents st buffer = response_frame h cls entries content ++ rest ->
  exists buffer',
    deserialize pb_parse r st buffer
    = Some (PARSE_OK, mk_BoltResponse (Some h) (rs_class_name r) (rs_header_map r) (rs_data r), buffer')
    /\ bb_ok st buffer' /\ bb_contents st buffer' = rest.
Proof.
  intros (Hfit & Hcl & Hhl & Hcn) Hsum Hp Ht Hcmd Hst Hok Hc.
  unfold response_frame in Hc. rewrite <- !app_assoc in Hc. unfold deserialize.
  destruct (cut_prefix st buffer _ _ 20 Hok Hc) as (b1 & Hcut & Hok1 & Hc1); [done|].
  unfold sizeof_BoltHeader. rewrite Hcut. change (20 <? 20) with false. cbv iota zeta.
  rewrite ntoh_bytes by done. rewrite Hp, Ht, Hcmd.
  rewrite (proj2 (Z.eqb_neq _ _) Hst). cbn [negb Z.eqb rs_class_name rs_header_map rs_data].
  rewrite u32_small by (pose proof Hfit as (_ & _ & _ & ? & ? & ?); lia).
  set (n := h_class_len h + _ + _).
  assert (n = zlen (cls ++ kv_bytes entries ++ content)) as Hn by (rewrite !zlen_app; subst n; lia).
  pose proof (bb_pop_front_ok st b1 n Hok1 ltac:(rewrite Hn; apply zlen_nonneg)) as Hpop.
  destruct (bb_pop_front n b1) as [b2 k]. destruct Hpop as (Hok2 & _ & Hc2).
  exists b2. split_and!; try done. rewrite Hc2, Hc1, Hn, !app_assoc. apply drop_app_zlen.
Qed.

Lemma deserialize_error_status_witness :
  exists buffer',
    deserialize (Msg := unit) (fun _ => None) (new_BoltResponse (RS_STRING [])) 0
      (response_frame (mk_BoltHeader 1 0 2 1 77 11 7 3 10 4) [99; 108; 115] [([107], [118])]
         [1; 2; 3; 4] ++ [255])
    = Some (PARSE_OK, mk_BoltResponse (Some (mk_BoltHeader 1 0 2 1 77 11 7 3 10 4)) [] ∅
                        (RS_STRING []), buffer')
    /\ bb_ok 0 buffer' /\ bb_contents 0 buffer' = [255].
Proof.
  apply (deserialize_error_status (fun _ => None) (new_BoltResponse (RS_STRING [])) 0
    (response_frame (mk_BoltHeader 1 0 2 1 77 11 7 3 10 4) [99; 108; 115] [([107], [118])]
       [1; 2; 3; 4] ++ [255])
    (mk_BoltHeader 1 0 2 1 77 11 7 3 10 4) [99; 108; 115] [([107], [118])] [1; 2; 3; 4] [255]);
    try reflexivity; [|discriminate].
  repeat split; try reflexivity; cbn; lia.
Defined.

(** The limit of 64 MB of [checkHeader] is tested on a 32-bit sum that
    wraps around: a response header that announces a content of almost 4 GB
    passes as a complete response of 20 bytes. *)
Theorem check_header_limit_wraps :
  let h := mk_BoltHeader 1 0 2 1 7 11 0 65535 65535 4294836226 in
  header_fits h
  /\ MAX_BOLT_BODY_SIZE < h_content_len h
  /\ checkHeader 0 (response_header_bytes h) = (PARSE_OK, Some (20, 7)).
Proof. unfold header_fits, MAX_BOLT_BODY_SIZE. cbn. split_and!; try lia; reflexivity. Qed.
