(* ===== verification/Queues.v ===== *)
(** * The lock-free ring queues (include/common/lockfree_queue.h)

    [SPSCQueue], [SPMCQueue] and [MPSCQueue]: each operation is a thread that
    advances by one atomic access per step, and the threads are interleaved in
    any order (the accesses are those of a sequentially consistent memory). The
    histories [sent] and [received] are not part of the code: they record the
    values in the order in which the indices are advanced. Slots start out
    uninitialised: a pop delivers [None] when it reads such a slot. *)

From stdpp Require Import relations.
From S2P Require Import Prelude.

Section Queues.
Context {T : Type}.

(** The fields of the three classes; only [MPSCQueue] has a
    [_write_prepare_idx]. *)
Record queue := mk_queue {
  q_capacity : Z;
  q_buffer : list (option T);
  q_read : Z;
  q_prepare : Z;
  q_write : Z
}.

(** The constructors: [_buffer] is uninitialised memory *)
Definition new_queue (capacity : Z) : queue :=
  mk_queue capacity (replicate (Z.to_nat capacity) None) 0 0 0.

(** [_buffer[idx & _mask]] *)
Definition slot (q : queue) (idx : Z) : nat := Z.to_nat (Z.land idx (q_capacity q - 1)).

Definition read_slot (q : queue) (idx : Z) : option T :=
  match q_buffer q !! slot q idx with Some x => x | None => None end.

Definition write_slot (idx : Z) (v : T) (q : queue) : queue :=
  mk_queue (q_capacity q) (<[slot q idx := Some v]> (q_buffer q)) (q_read q) (q_prepare q) (q_write q).

Definition set_read (r : Z) (q : queue) : queue :=
  mk_queue (q_capacity q) (q_buffer q) r (q_prepare q) (q_write q).
Definition set_prepare (w : Z) (q : queue) : queue :=
  mk_queue (q_capacity q) (q_buffer q) (q_read q) w (q_write q).
Definition set_write (w : Z) (q : queue) : queue :=
  mk_queue (q_capacity q) (q_buffer q) (q_read q) (q_prepare q) w.

(** [size()], the same in the three classes *)
Definition queue_size (q : queue) : Z :=
  if q_write q <=? q_read q then 0 else u64 (q_write q - q_read q).

(** ** One producer *)

(** [push] of [SPSCQueue] and [SPMCQueue]: where the producer is *)
Inductive producer : Type :=
| P_idle
| P_load_read (v : T) (write : Z)
| P_store (v : T) (write : Z)
| P_commit (v : T) (write : Z).

(** One step of the producer; an idle one starts [push(v)]. With the value
    whose index has been committed. *)
Definition push_step (v : T) (q : queue) (p : producer) : queue * producer * option T :=
  match p with
  | P_idle => (q, P_load_read v (q_write q), None)
  | P_load_read v write =>
      if u64 (q_read q + q_capacity q) <=? write then (q, P_idle, None)
      else (q, P_store v write, None)
  | P_store v write => (write_slot write v q, P_commit v write, None)
  | P_commit v write => (set_write (u64 (write + 1)) q, P_idle, Some v)
  end.

(** ** [SPSCQueue] *)

(** [pop]: where the consumer is *)
Inductive consumer1 : Type :=
| C1_idle
| C1_load_write (read : Z)
| C1_move (read : Z)
| C1_store (read : Z) (val : option T).

(** With the value that has been delivered *)
Definition spsc_pop_step (q : queue) (c : consumer1) : queue * consumer1 * option (option T) :=
  match c with
  | C1_idle => (q, C1_load_write (q_read q), None)
  | C1_load_write read =>
      if read =? q_write q then (q, C1_idle, None) else (q, C1_move read, None)
  | C1_move read => (q, C1_store read (read_slot q read), None)
  | C1_store read val => (set_read (u64 (read + 1)) q, C1_idle, Some val)
  end.

(** [front()] *)
Definition front (q : queue) : option T := read_slot q (q_read q).

(** ** [SPMCQueue] *)

Inductive consumer : Type :=
| C_idle
| C_check (read : Z)
| C_copy (read : Z)
| C_cas (read : Z) (val : option T).

Definition spmc_pop_step (q : queue) (c : consumer) : queue * consumer * option (option T) :=
  match c with
  | C_idle => (q, C_check (q_read q), None)
  | C_check read =>
      if read =? q_write q then (q, C_idle, None) else (q, C_copy read, None)
  | C_copy read => (q, C_cas read (read_slot q read), None)
  | C_cas read val =>
      if q_read q =? read then (set_read (u64 (read + 1)) q, C_idle, Some val)
      else (q, C_check (q_read q), None)
  end.

(** ** [MPSCQueue] *)

(** [push] by one of many producers *)
Inductive mproducer : Type :=
| M_idle
| M_check (v : T) (write : Z)
| M_cas (v : T) (write : Z)
| M_store (v : T) (write : Z)
| M_commit (write_commit : Z).

Definition mpsc_push_step (v : T) (q : queue) (p : mproducer) : queue * mproducer :=
  match p with
  | M_idle => (q, M_check v (q_prepare q))
  | M_check v write =>
      if u64 (q_read q + q_capacity q) <=? write then (q, M_idle) else (q, M_cas v write)
  | M_cas v write =>
      if q_prepare q =? write then (set_prepare (u64 (write + 1)) q, M_store v write)
      else (q, M_check v (q_prepare q))
  | M_store v write => (write_slot write v q, M_commit write)
  | M_commit write_commit =>
      if q_write q =? write_commit then (set_write (u64 (write_commit + 1)) q, M_idle)
      else (q, M_commit (q_write q))
  end.

(** [pop] of [MPSCQueue]; it copies the value *)
Definition mpsc_pop_step (q : queue) (c : consumer1) : queue * consumer1 * option (option T) :=
  spsc_pop_step q c.

End Queues.
#[global] Arguments queue : clear implicits.
#[global] Arguments producer : clear implicits.
#[global] Arguments consumer : clear implicits.
#[global] Arguments consumer1 : clear implicits.
#[global] Arguments mproducer : clear implicits.

(** ** The ring *)

Section Ring.
Context {T : Type}.
Implicit Types (q : queue T) (sent : list T) (received : list (option T)).

(** The buffer holds the values that were sent and not yet received. *)
Record ring_ok q sent received : Prop := {
  rk_cap : exists k, 0 <= k < 64 /\ q_capacity q = 2 ^ k;
  rk_len : zlen (q_buffer q) = q_capacity q;
  rk_read : q_read q = zlen received;
  rk_write : q_write q = zlen sent;
  rk_bounds : zlen received <= zlen sent <= zlen received + q_capacity q;
  rk_received : received = Some <$> take (length received) sent;
  rk_live : forall i v, sent !! i = Some v -> (length received <= i)%nat ->
              read_slot q (Z.of_nat i) = Some v
}.

(** No index has reached [2^64]. *)
Definition no_wrap q sent : Prop := zlen sent + q_capacity q < 2 ^ 64.

Lemma slot_mod q idx k :
  q_capacity q = 2 ^ k -> 0 <= k -> slot q idx = Z.to_nat (idx mod q_capacity q).
Proof.
  intros Hcap Hk. unfold slot. rewrite Hcap. f_equal.
  rewrite Z.sub_1_r, <- Z.ones_equiv. by apply Z.land_ones.
Qed.

(** Slots of indices less than a capacity apart are different. *)
Lemma slot_ne q i j :
  (exists k, 0 <= k < 64 /\ q_capacity q = 2 ^ k) -> i < j < i + q_capacity q -> slot q i <> slot q j.
Proof.
  intros (k & Hk & Hcap) Hij Heq. rewrite !(slot_mod q _ k) in Heq by (done || lia).
  assert (0 < q_capacity q) as Hpos by (rewrite Hcap; apply Z.pow_pos_nonneg; lia).
  pose proof (Z.mod_pos_bound i (q_capacity q) Hpos).
  pose proof (Z.mod_pos_bound j (q_capacity q) Hpos).
  assert (i mod q_capacity q = j mod q_capacity q) as Hm by lia.
  pose proof (Z.div_mod i (q_capacity q) ltac:(lia)).
  pose proof (Z.div_mod j (q_capacity q) ltac:(lia)). clear Hcap Heq.
  set (c := q_capacity q) in *. assert (j - i = c * (j / c - i / c)) as Hd by lia.
  destruct (Z.le_gt_cases (j / c - i / c) 0); nia.
Qed.

Lemma slot_lt q i :
  (exists k, 0 <= k < 64 /\ q_capacity q = 2 ^ k) -> zlen (q_buffer q) = q_capacity q ->
  (slot q i < length (q_buffer q))%nat.
Proof.
  intros (k & Hk & Hcap) Hlen. rewrite (slot_mod q _ k) by (done || lia).
  assert (0 < q_capacity q) as Hpos by (rewrite Hcap; apply Z.pow_pos_nonneg; lia).
  pose proof (Z.mod_pos_bound i (q_capacity q) Hpos). unfold zlen in Hlen. lia.
Qed.

Lemma read_write_slot q i j v :
  (exists k, 0 <= k < 64 /\ q_capacity q = 2 ^ k) -> zlen (q_buffer q) = q_capacity q ->
  read_slot (write_slot i v q) j = if decide (slot q i = slot q j) then Some v else read_slot q j.
Proof.
  intros Hcap Hlen. unfold read_slot, write_slot. cbn. change (slot (mk_queue _ _ _ _ _) j) with (slot q j).
  case_decide as Heq.
  - rewrite Heq. rewrite list_lookup_insert_eq; [done|]. by apply slot_lt.
  - by rewrite list_lookup_insert_ne.
Qed.

Lemma new_ring_ok k : 0 <= k < 64 -> ring_ok (new_queue (2 ^ k)) [] [].
Proof.
  intros Hk. assert (0 < 2 ^ k) as Hpos by (apply Z.pow_pos_nonneg; lia).
  split; unfold zlen; cbn; try done; [by exists k| |lia].
  rewrite length_replicate. lia.
Qed.

(** The producer fills the slot after the last one. *)
Lemma ring_write q sent received w v :
  ring_ok q sent received -> w = zlen sent -> w < zlen received + q_capacity q ->
  ring_ok (write_slot w v q) sent received /\ read_slot (write_slot w v q) w = Some v.
Proof.
  intros Hr -> Hw. destruct (Hr) as [Hcap Hlen Hre Hwr Hb Hrec Hlive]. split.
  - split; cbn; try done.
    + unfold zlen in *. by rewrite length_insert.
    + intros i u Hi Hge. rewrite read_write_slot by done. rewrite decide_False; [by apply Hlive|].
      pose proof (lookup_lt_Some _ _ _ Hi). apply not_eq_sym, slot_ne; [done|]. unfold zlen in *. lia.
  - rewrite read_write_slot by done. by rewrite decide_True.
Qed.

Lemma ring_commit q sent received w v :
  ring_ok q sent received -> w = zlen sent -> w < zlen received + q_capacity q ->
  read_slot q w = Some v -> no_wrap q sent ->
  ring_ok (set_write (u64 (w + 1)) q) (sent ++ [v]) received.
Proof.
  intros [Hcap Hlen Hre Hwr Hb Hrec Hlive] -> Hw Hslot Hnw. unfold no_wrap in Hnw.
  pose proof (zlen_nonneg sent). pose proof (zlen_nonneg received).
  assert (zlen (sent ++ [v]) = zlen sent + 1) as Hsn by (rewrite zlen_app; reflexivity).
  split; cbn; try done; rewrite ?Hsn; try lia.
  - apply u64_small. destruct Hcap as (k & Hk & Hcap). pose proof (Z.pow_pos_nonneg 2 k). lia.
  - rewrite take_app_le; [done|]. unfold zlen in *. lia.
  - intros i u Hi Hge. apply lookup_app_Some in Hi as [Hi|[Hi Hu]]; [by apply Hlive|].
    apply list_lookup_singleton_Some in Hu as [Hi0 <-].
    replace (Z.of_nat i) with (zlen sent) by (unfold zlen; lia). done.
Qed.

Lemma ring_deliver q sent received r v :
  ring_ok q sent received -> r = zlen received -> sent !! Z.to_nat r = Some v -> no_wrap q sent ->
  ring_ok (set_read (u64 (r + 1)) q) sent (received ++ [Some v]).
Proof.
  intros [Hcap Hlen Hre Hwr Hb Hrec Hlive] -> Hv Hnw. unfold no_wrap in Hnw.
  unfold zlen in Hv. rewrite Nat2Z.id in Hv. pose proof (lookup_lt_Some _ _ _ Hv) as Hlt.
  pose proof (zlen_nonneg received).
  assert (zlen (received ++ [Some v]) = zlen received + 1) as Hsn by (rewrite zlen_app; reflexivity).
  assert (0 < q_capacity q) as Hpos
    by (destruct Hcap as (k & Hk & ->); apply Z.pow_pos_nonneg; lia).
  split; cbn; try done; rewrite ?Hsn; try (unfold zlen in *; lia).
  - apply u64_small. unfold zlen in *. lia.
  - rewrite length_app. cbn. rewrite Nat.add_1_r, (take_S_r _ _ v Hv), fmap_app. by f_equal.
  - intros i u Hi Hge. rewrite length_app in Hge. cbn in Hge. apply Hlive; [done|lia].
Qed.

(** *** The producer *)

Definition producer_ok q sent received (p : producer T) : Prop :=
  match p with
  | P_idle => True
  | P_load_read _ w => w = zlen sent
  | P_store _ w => w = zlen sent /\ w < zlen received + q_capacity q
  | P_commit v w => w = zlen sent /\ w < zlen received + q_capacity q /\ read_slot q w = Some v
  end.

Lemma push_step_ok v q p q' p' out sent received :
  ring_ok q sent received -> producer_ok q sent received p -> no_wrap q sent ->
  push_step v q p = (q', p', out) ->
  ring_ok q' (sent ++ option_list out) received
  /\ producer_ok q' (sent ++ option_list out) received p'
  /\ q_capacity q' = q_capacity q /\ q_read q' = q_read q.
Proof.
  intros Hr Hp Hnw Hstep. pose proof (zlen_nonneg received).
  assert (0 <= q_capacity q) by (rewrite <- (rk_len _ _ _ Hr); apply zlen_nonneg).
  destruct p as [|v0 w|v0 w|v0 w]; cbn in Hstep, Hp.
  - simplify_eq. cbn. rewrite app_nil_r. by rewrite (rk_write _ _ _ Hr).
  - pose proof (rk_read _ _ _ Hr) as Hread. unfold no_wrap in Hnw. pose proof (rk_bounds _ _ _ Hr).
    rewrite u64_small in Hstep by lia.
    destruct (Z.leb_spec (q_read q + q_capacity q) w); simplify_eq; cbn; rewrite app_nil_r; [done|].
    split_and!; done || lia.
  - destruct Hp as [Hw Hlt]. simplify_eq. cbn. rewrite app_nil_r.
    destruct (ring_write q sent received (zlen sent) v0 Hr eq_refl Hlt). split_and!; done.
  - destruct Hp as (Hw & Hlt & Hslot). simplify_eq. cbn [option_list]. cbn.
    split_and!; try done. by apply ring_commit.
Qed.

End Ring.

(** ** Many consumers *)

Section Spmc.
Context {T : Type}.

Record spmc := mk_spmc {
  sm_queue : queue T;
  sm_producer : producer T;
  sm_consumers : list (consumer T);
  sm_sent : list T;
  sm_received : list (option T)
}.

Definition spmc_init (capacity : Z) (consumers : nat) : spmc :=
  mk_spmc (new_queue capacity) P_idle (replicate consumers C_idle) [] [].

(** Any thread may make the next step. *)
Inductive spmc_step : spmc -> spmc -> Prop :=
| spmc_push v q p cs sent received q' p' out :
    push_step v q p = (q', p', out) ->
    spmc_step (mk_spmc q p cs sent received)
              (mk_spmc q' p' cs (sent ++ option_list out) received)
| spmc_pop i c q p cs sent received q' c' out :
    cs !! i = Some c -> spmc_pop_step q c = (q', c', out) ->
    spmc_step (mk_spmc q p cs sent received)
              (mk_spmc q' p (<[i := c']> cs) sent (received ++ option_list out)).

Definition consumer_ok (sent : list T) (received : list (option T)) (c : consumer T) : Prop :=
  match c with
  | C_idle => True
  | C_check r => 0 <= r <= zlen received
  | C_copy r => 0 <= r <= zlen received /\ r < zlen sent
  | C_cas r val => 0 <= r <= zlen received /\ r < zlen sent
                   /\ (r = zlen received -> exists v, val = Some v /\ sent !! Z.to_nat r = Some v)
  end.

Record spmc_ok (s : spmc) : Prop := {
  sk_ring : ring_ok (sm_queue s) (sm_sent s) (sm_received s);
  sk_producer : producer_ok (sm_queue s) (sm_sent s) (sm_received s) (sm_producer s);
  sk_consumers : Forall (consumer_ok (sm_sent s) (sm_received s)) (sm_consumers s)
}.

(** What a consumer knows stays true when values are sent or received. *)
Lemma consumer_ok_grow (sent : list T) received c more more' :
  consumer_ok sent received c -> consumer_ok (sent ++ more) (received ++ more') c.
Proof.
  destruct c as [|r|r|r val]; cbn; rewrite ?zlen_app; pose proof (zlen_nonneg more);
    pose proof (zlen_nonneg more'); [done|lia|lia|].
  intros (Hr & Hs & Hval). split_and!; try lia. intros Heq. destruct Hval as (v & -> & Hv); [lia|].
  exists v. split; [done|]. by apply lookup_app_l_Some.
Qed.

(** A receiver keeps what the producer knows. *)
Lemma producer_ok_received (q q' : queue T) sent received more (p : producer T) :
  producer_ok q sent received p -> q_capacity q' = q_capacity q ->
  (forall i, read_slot q' i = read_slot q i) -> producer_ok q' sent (received ++ more) p.
Proof.
  intros Hp Hcap Hslot. destruct p; cbn in *; rewrite ?Hcap, ?Hslot, ?zlen_app;
    pose proof (zlen_nonneg more); [done|done|lia|]. destruct Hp as (? & ? & ?). split_and!; done || lia.
Qed.

Lemma spmc_pop_step_ok (q : queue T) c q' c' out sent received :
  ring_ok q sent received -> consumer_ok sent received c -> no_wrap q sent ->
  spmc_pop_step q c = (q', c', out) ->
  ring_ok q' sent (received ++ option_list out) /\ consumer_ok sent (received ++ option_list out) c'
  /\ q_capacity q' = q_capacity q /\ (forall i, read_slot q' i = read_slot q i).
Proof.
  intros Hr Hc Hnw Hstep. pose proof (rk_read _ _ _ Hr) as Hre. pose proof (rk_write _ _ _ Hr) as Hwr.
  pose proof (rk_bounds _ _ _ Hr) as Hb. pose proof (zlen_nonneg received) as H0.
  destruct c as [|r|r|r val]; cbn in Hstep, Hc.
  - simplify_eq. cbn. rewrite app_nil_r. split_and!; done || lia.
  - destruct (Z.eqb_spec r (q_write q)); simplify_eq; cbn; rewrite app_nil_r; [done|].
    split_and!; done || lia.
  - simplify_eq. cbn. rewrite app_nil_r. split_and!; try done; try lia. intros ->.
    unfold zlen. rewrite Nat2Z.id.
    destruct (lookup_lt_is_Some_2 sent (length received)) as [v Hv]; [unfold zlen in *; lia|].
    exists v. split; [|done]. by apply (rk_live _ _ _ Hr).
  - destruct Hc as (Hr1 & Hr2 & Hval).
    destruct (Z.eqb_spec (q_read q) r) as [Heq|Hne]; simplify_eq.
    + destruct Hval as (v & -> & Hv); [lia|]. cbn [option_list]. split_and!; try done.
      by apply ring_deliver.
    + cbn. rewrite app_nil_r. split_and!; done || lia.
Qed.

(** The history only grows and the capacity stays. *)
Lemma spmc_step_mono s s' :
  spmc_step s s' -> zlen (sm_sent s) <= zlen (sm_sent s')
                    /\ q_capacity (sm_queue s') = q_capacity (sm_queue s).
Proof.
  destruct 1 as [v q p cs sent rcv q' p' out Hs|i c q p cs sent rcv q' c' out Hi Hs]; cbn.
  - rewrite zlen_app. pose proof (zlen_nonneg (option_list out)). split; [lia|].
    destruct p; cbn in Hs; repeat case_match; by simplify_eq.
  - split; [lia|]. destruct c; cbn in Hs; repeat case_match; by simplify_eq.
Qed.

Lemma spmc_step_ok s s' :
  spmc_step s s' -> spmc_ok s -> no_wrap (sm_queue s) (sm_sent s) -> spmc_ok s'.
Proof.
  intros Hstep [Hr Hp Hc] Hnw.
  destruct Hstep as [v q p cs sent rcv q' p' out Hs|i c q p cs sent rcv q' c' out Hi Hs]; cbn in *.
  - apply push_step_ok with (sent := sent) (received := rcv) in Hs as (Hr' & Hp' & Hcap & _); try done.
    split; cbn; try done. eapply Forall_impl; [|exact Hc]. intros c0 Hc0.
    rewrite <- (app_nil_r rcv). by apply consumer_ok_grow.
  - apply spmc_pop_step_ok with (sent := sent) (received := rcv) in Hs as (Hr' & Hc' & Hcap & Hslot);
      try done; [|by eapply Forall_lookup_1].
    split; cbn; try done.
    + by apply producer_ok_received with (q := q).
    + apply Forall_insert; [|done]. eapply Forall_impl; [|exact Hc]. intros c0 Hc0.
      rewrite <- (app_nil_r sent). by apply consumer_ok_grow.
Qed.

Lemma spmc_reach_mono s s' :
  rtc spmc_step s s' -> zlen (sm_sent s) <= zlen (sm_sent s')
                        /\ q_capacity (sm_queue s') = q_capacity (sm_queue s).
Proof.
  induction 1 as [|s1 s2 s3 Hs _ [IH1 IH2]]; [split; done || lia|].
  apply spmc_step_mono in Hs as [? ?]. split; [lia|congruence].
Qed.

Lemma spmc_reach_ok s s' :
  rtc spmc_step s s' -> spmc_ok s -> no_wrap (sm_queue s) (sm_sent s') -> spmc_ok s'.
Proof.
  induction 1 as [|s1 s2 s3 Hs Hrest IH]; intros Hok Hnw; [done|].
  pose proof (spmc_step_mono _ _ Hs) as [Hm Hcap]. pose proof (spmc_reach_mono _ _ Hrest) as [Hm2 _].
  unfold no_wrap in *. apply IH; [|rewrite Hcap; done].
  apply (spmc_step_ok s1 s2); [done|done|]. unfold no_wrap. lia.
Qed.

Lemma spmc_init_ok k n : 0 <= k < 64 -> spmc_ok (spmc_init (2 ^ k) n).
Proof.
  intros Hk. split; cbn; [by apply new_ring_ok|done|]. by apply Forall_replicate.
Qed.

End Spmc.
#[global] Arguments spmc : clear implicits.

(** C19: [SPMCQueue] is a FIFO queue under every interleaving of its producer
    with any number of consumers: the values the consumers get, in the order
    in which they take them, are the first ones that were pushed, none lost,
    doubled or uninitialised, and never more than [capacity] are in flight. *)
Theorem spmc_fifo {T : Type} (k : Z) (consumers : nat) (s : spmc T) :
  0 <= k < 64 -> rtc spmc_step (spmc_init (2 ^ k) consumers) s ->
  zlen (sm_sent s) + 2 ^ k < 2 ^ 64 ->
  sm_received s = Some <$> take (length (sm_received s)) (sm_sent s)
  /\ zlen (sm_received s) <= zlen (sm_sent s) <= zlen (sm_received s) + 2 ^ k
  /\ queue_size (sm_queue s) = zlen (sm_sent s) - zlen (sm_received s).
Proof.
  intros Hk Hrtc Hnw. pose proof (spmc_reach_mono _ _ Hrtc) as [_ Hcap].
  destruct (spmc_reach_ok _ _ Hrtc (spmc_init_ok k consumers Hk) Hnw) as [Hr _ _].
  cbn in Hcap. destruct Hr as [_ _ Hre Hwr Hb Hrec _]. rewrite Hcap in Hb. split_and!; try done; try lia.
  pose proof (zlen_nonneg (sm_received s)). assert (0 < 2 ^ k) by (apply Z.pow_pos_nonneg; lia).
  unfold queue_size. rewrite Hre, Hwr. destruct (Z.leb_spec (zlen (sm_sent s)) (zlen (sm_received s))); [lia|].
  apply u64_small. lia.
Qed.

(** A schedule: which thread makes each step *)
Inductive choice (T : Type) : Type := Do_push (i : nat) (v : T) | Do_pop (i : nat).
#[global] Arguments Do_push {T}.
#[global] Arguments Do_pop {T}.

Definition spmc_do {T} (c : choice T) (s : spmc T) : spmc T :=
  match c with
  | Do_push _ v =>
      let '(q', p', out) := push_step v (sm_queue s) (sm_producer s) in
      mk_spmc q' p' (sm_consumers s) (sm_sent s ++ option_list out) (sm_received s)
  | Do_pop i =>
      match sm_consumers s !! i with
      | None => s
      | Some c =>
          let '(q', c', out) := spmc_pop_step (sm_queue s) c in
          mk_spmc q' (sm_producer s) (<[i := c']> (sm_consumers s)) (sm_sent s)
            (sm_received s ++ option_list out)
      end
  end.

Lemma spmc_do_rtc {T} (sched : list (choice T)) s :
  rtc spmc_step s (foldl (fun s c => spmc_do c s) s sched).
Proof.
  revert s. induction sched as [|c sched IH]; intros s; cbn; [done|].
  etrans; [|apply IH]. destruct s as [q p cs sent rcv]. unfold spmc_do. cbn.
  destruct c as [i v|i].
  - destruct (push_step v q p) as [[q' p'] out] eqn:E. apply rtc_once. by eapply spmc_push.
  - destruct (cs !! i) as [c|] eqn:Ei; [|done].
    destruct (spmc_pop_step q c) as [[q' c'] out] eqn:E. apply rtc_once. by eapply spmc_pop.
Qed.

(** Two consumers race for the first of two values. *)
Definition race : list (choice Z) :=
  replicate 4 (Do_push 0 11) ++ replicate 3 (Do_pop 0) ++ replicate 4 (Do_pop 1)
  ++ replicate 4 (Do_push 0 22) ++ replicate 5 (Do_pop 0).

Lemma spmc_fifo_witness :
  let s := foldl (fun s c => spmc_do c s) (spmc_init (2 ^ 2) 2) race in
  sm_received s = [Some 11; Some 22]
  /\ sm_received s = Some <$> take (length (sm_received s)) (sm_sent s).
Proof.
  split; [vm_compute; reflexivity|].
  apply (spmc_fifo 2 2 (foldl (fun s c => spmc_do c s) (spmc_init (2 ^ 2) 2) race)).
  - lia.
  - apply spmc_do_rtc.
  - vm_compute. reflexivity.
Defined.

(** ** One consumer *)

Section Spsc.
Context {T : Type}.

Record spsc := mk_spsc {
  ss_queue : queue T;
  ss_producer : producer T;
  ss_consumer : consumer1 T;
  ss_sent : list T;
  ss_received : list (option T)
}.

Definition spsc_init (capacity : Z) : spsc := mk_spsc (new_queue capacity) P_idle C1_idle [] [].

Inductive spsc_step : spsc -> spsc -> Prop :=
| spsc_push v q p c sent received q' p' out :
    push_step v q p = (q', p', out) ->
    spsc_step (mk_spsc q p c sent received) (mk_spsc q' p' c (sent ++ option_list out) received)
| spsc_pop c q p sent received q' c' out :
    spsc_pop_step q c = (q', c', out) ->
    spsc_step (mk_spsc q p c sent received) (mk_spsc q' p c' sent (received ++ option_list out)).

Definition consumer1_ok (sent : list T) (received : list (option T)) (c : consumer1 T) : Prop :=
  match c with
  | C1_idle => True
  | C1_load_write r => r = zlen received
  | C1_move r => r = zlen received /\ r < zlen sent
  | C1_store r val => r = zlen received /\ exists v, val = Some v /\ sent !! Z.to_nat r = Some v
  end.

Lemma consumer1_ok_sent (sent : list T) received c more :
  consumer1_ok sent received c -> consumer1_ok (sent ++ more) received c.
Proof.
  destruct c as [|r|r|r val]; cbn; rewrite ?zlen_app; pose proof (zlen_nonneg more); [done|done|lia|].
  intros (Hr & v & -> & Hv). split; [done|]. exists v. split; [done|]. by apply lookup_app_l_Some.
Qed.

Lemma spsc_pop_step_ok (q : queue T) c q' c' out sent received :
  ring_ok q sent received -> consumer1_ok sent received c -> no_wrap q sent ->
  spsc_pop_step q c = (q', c', out) ->
  ring_ok q' sent (received ++ option_list out) /\ consumer1_ok sent (received ++ option_list out) c'
  /\ q_capacity q' = q_capacity q /\ (forall i, read_slot q' i = read_slot q i).
Proof.
  intros Hr Hc Hnw Hstep. pose proof (rk_read _ _ _ Hr) as Hre. pose proof (rk_write _ _ _ Hr) as Hwr.
  pose proof (rk_bounds _ _ _ Hr) as Hb.
  destruct c as [|r|r|r val]; cbn in Hstep, Hc.
  - simplify_eq. cbn. rewrite app_nil_r. by split_and!.
  - destruct (Z.eqb_spec r (q_write q)); simplify_eq; cbn; rewrite app_nil_r; [done|].
    split_and!; done || lia.
  - destruct Hc as [-> Hlt]. simplify_eq. cbn. rewrite app_nil_r. split_and!; try done.
    unfold zlen. rewrite Nat2Z.id.
    destruct (lookup_lt_is_Some_2 sent (length received)) as [v Hv]; [unfold zlen in *; lia|].
    exists v. split; [|done]. by apply (rk_live _ _ _ Hr).
  - destruct Hc as (Hr1 & v & -> & Hv). simplify_eq. cbn [option_list]. split_and!; try done.
    by apply ring_deliver.
Qed.

Record spsc_ok (s : spsc) : Prop := {
  ssk_ring : ring_ok (ss_queue s) (ss_sent s) (ss_received s);
  ssk_producer : producer_ok (ss_queue s) (ss_sent s) (ss_received s) (ss_producer s);
  ssk_consumer : consumer1_ok (ss_sent s) (ss_received s) (ss_consumer s)
}.

Lemma spsc_step_mono s s' :
  spsc_step s s' -> zlen (ss_sent s) <= zlen (ss_sent s')
                    /\ q_capacity (ss_queue s') = q_capacity (ss_queue s).
Proof.
  destruct 1 as [v q p c sent rcv q' p' out Hs|c q p sent rcv q' c' out Hs]; cbn.
  - rewrite zlen_app. pose proof (zlen_nonneg (option_list out)). split; [lia|].
    destruct p; cbn in Hs; repeat case_match; by simplify_eq.
  - split; [lia|]. destruct c; cbn in Hs; repeat case_match; by simplify_eq.
Qed.

Lemma spsc_step_ok s s' :
  spsc_step s s' -> spsc_ok s -> no_wrap (ss_queue s) (ss_sent s) -> spsc_ok s'.
Proof.
  intros Hstep [Hr Hp Hc] Hnw.
  destruct Hstep as [v q p c sent rcv q' p' out Hs|c q p sent rcv q' c' out Hs]; cbn in *.
  - apply push_step_ok with (sent := sent) (received := rcv) in Hs as (Hr' & Hp' & Hcap & _); try done.
    split; cbn; try done. by apply consumer1_ok_sent.
  - apply spsc_pop_step_ok with (sent := sent) (received := rcv) in Hs as (Hr' & Hc' & Hcap & Hslot);
      try done.
    split; cbn; try done. by apply producer_ok_received with (q := q).
Qed.

Lemma spsc_reach_mono s s' :
  rtc spsc_step s s' -> zlen (ss_sent s) <= zlen (ss_sent s')
                        /\ q_capacity (ss_queue s') = q_capacity (ss_queue s).
Proof.
  induction 1 as [|s1 s2 s3 Hs _ [IH1 IH2]]; [split; done || lia|].
  apply spsc_step_mono in Hs as [? ?]. split; [lia|congruence].
Qed.

Lemma spsc_reach_ok s s' :
  rtc spsc_step s s' -> spsc_ok s -> no_wrap (ss_queue s) (ss_sent s') -> spsc_ok s'.
Proof.
  induction 1 as [|s1 s2 s3 Hs Hrest IH]; intros Hok Hnw; [done|].
  pose proof (spsc_step_mono _ _ Hs) as [Hm Hcap]. pose proof (spsc_reach_mono _ _ Hrest) as [Hm2 _].
  unfold no_wrap in *. apply IH; [|rewrite Hcap; done].
  apply (spsc_step_ok s1 s2); [done|done|]. unfold no_wrap. lia.
Qed.

End Spsc.
#[global] Arguments spsc : clear implicits.

(** [SPSCQueue] is a FIFO queue under every interleaving of its producer
    with its consumer, and [front], when a value is in flight, is the next
    value to be received. *)
Theorem spsc_fifo {T : Type} (k : Z) (s : spsc T) :
  0 <= k < 64 -> rtc spsc_step (spsc_init (2 ^ k)) s -> zlen (ss_sent s) + 2 ^ k < 2 ^ 64 ->
  ss_received s = Some <$> take (length (ss_received s)) (ss_sent s)
  /\ zlen (ss_received s) <= zlen (ss_sent s) <= zlen (ss_received s) + 2 ^ k
  /\ (zlen (ss_received s) < zlen (ss_sent s) ->
      front (ss_queue s) = ss_sent s !! length (ss_received s)).
Proof.
  intros Hk Hrtc Hnw. pose proof (spsc_reach_mono _ _ Hrtc) as [_ Hcap]. cbn in Hcap.
  assert (spsc_ok (spsc_init (T := T) (2 ^ k))) as Hinit by (split; cbn; [by apply new_ring_ok|done|done]).
  destruct (spsc_reach_ok _ _ Hrtc Hinit Hnw) as [Hr _ _].
  destruct Hr as [_ _ Hre _ Hb Hrec Hlive]. rewrite Hcap in Hb. split_and!; try done; try lia.
  intros Hlt. destruct (lookup_lt_is_Some_2 (ss_sent s) (length (ss_received s))) as [v Hv];
    [unfold zlen in *; lia|].
  unfold front. rewrite Hre, Hv. by apply Hlive.
Qed.

Definition spsc_do {T} (c : choice T) (s : spsc T) : spsc T :=
  match c with
  | Do_push _ v =>
      let '(q', p', out) := push_step v (ss_queue s) (ss_producer s) in
      mk_spsc q' p' (ss_consumer s) (ss_sent s ++ option_list out) (ss_received s)
  | Do_pop _ =>
      let '(q', c', out) := spsc_pop_step (ss_queue s) (ss_consumer s) in
      mk_spsc q' (ss_producer s) c' (ss_sent s) (ss_received s ++ option_list out)
  end.

Lemma spsc_do_rtc {T} (sched : list (choice T)) s :
  rtc spsc_step s (foldl (fun s c => spsc_do c s) s sched).
Proof.
  revert s. induction sched as [|c sched IH]; intros s; cbn; [done|].
  etrans; [|apply IH]. destruct s as [q p c0 sent rcv]. unfold spsc_do. cbn. destruct c as [i v|i].
  - destruct (push_step v q p) as [[q' p'] out] eqn:E. apply rtc_once. by eapply spsc_push.
  - destruct (spsc_pop_step q c0) as [[q' c'] out] eqn:E. apply rtc_once. by eapply spsc_pop.
Qed.

Lemma spsc_fifo_witness :
  let s := foldl (fun s c => spsc_do c s) (spsc_init (2 ^ 1))
             (replicate 10 (Do_push 0 5) ++ replicate 6 (Do_pop 0) ++ replicate 4 (Do_push 0 6)) in
  ss_sent s = [5; 5; 6] /\ ss_received s = Some <$> take (length (ss_received s)) (ss_sent s).
Proof.
  split; [vm_compute; reflexivity|].
  apply (spsc_fifo 1 (foldl (fun s c => spsc_do c s) (spsc_init (2 ^ 1))
    (replicate 10 (Do_push 0 5) ++ replicate 6 (Do_pop 0) ++ replicate 4 (Do_push 0 6)))).
  - lia.
  - apply spsc_do_rtc.
  - vm_compute. reflexivity.
Defined.

(** ** Many producers *)

Section Mpsc.
Context {T : Type}.

Record mpsc := mk_mpsc {
  mp_queue : queue T;
  mp_producers : list (mproducer T);
  mp_consumer : consumer1 T;
  mp_received : list (option T)
}.

Definition mpsc_init (capacity : Z) (producers : nat) : mpsc :=
  mk_mpsc (new_queue capacity) (replicate producers M_idle) C1_idle [].

Inductive mpsc_step : mpsc -> mpsc -> Prop :=
| mpsc_push i v q p ps c received q' p' :
    ps !! i = Some p -> mpsc_push_step v q p = (q', p') ->
    mpsc_step (mk_mpsc q ps c received) (mk_mpsc q' (<[i := p']> ps) c received)
| mpsc_pop q ps c received q' c' out :
    mpsc_pop_step q c = (q', c', out) ->
    mpsc_step (mk_mpsc q ps c received) (mk_mpsc q' ps c' (received ++ option_list out)).

(** The producers that have reserved a slot and not yet committed one *)
Definition reserved (p : mproducer T) : Z :=
  match p with M_store _ _ | M_commit _ => 1 | _ => 0 end.

Definition pending (ps : list (mproducer T)) : Z := zsum reserved ps.

Definition mproducer_ok (q : queue T) (p : mproducer T) : Prop :=
  match p with
  | M_check _ w => w <= q_prepare q
  | M_cas _ w => w <= q_prepare q /\ w < q_read q + q_capacity q
  | _ => True
  end.

Definition mconsumer_ok (q : queue T) (c : consumer1 T) : Prop :=
  match c with
  | C1_idle => True
  | C1_load_write r => r = q_read q
  | C1_move r | C1_store r _ => r = q_read q /\ r < q_write q
  end.

Record mpsc_ok (s : mpsc) : Prop := {
  mk_bounds : 0 <= q_read (mp_queue s) <= q_write (mp_queue s)
              /\ q_prepare (mp_queue s) <= q_read (mp_queue s) + q_capacity (mp_queue s);
  mk_pending : q_prepare (mp_queue s) = q_write (mp_queue s) + pending (mp_producers s);
  mk_producers : Forall (mproducer_ok (mp_queue s)) (mp_producers s);
  mk_consumer : mconsumer_ok (mp_queue s) (mp_consumer s)
}.

Lemma reserved_range p : 0 <= reserved p <= 1.
Proof. destruct p; cbn; lia. Qed.

Lemma pending_insert ps i p p' :
  ps !! i = Some p -> pending (<[i := p']> ps) = pending ps - reserved p + reserved p'.
Proof. apply zsum_insert. Qed.

Lemma pending_nonneg ps : 0 <= pending ps.
Proof. apply zsum_nonneg. intros p. apply reserved_range. Qed.

Lemma pending_ge ps i p : ps !! i = Some p -> reserved p <= pending ps.
Proof. apply zsum_ge. intros x. apply reserved_range. Qed.

(** Producers keep what they know when the indices advance. *)
Lemma mproducer_ok_mono q q' p :
  mproducer_ok q p -> q_prepare q <= q_prepare q' -> q_read q <= q_read q' ->
  q_capacity q' = q_capacity q -> mproducer_ok q' p.
Proof. destruct p; cbn; lia. Qed.

Lemma mpsc_push_step_ok v q p q' p' (n : Z) :
  0 <= q_read q <= q_write q -> q_prepare q <= q_read q + q_capacity q ->
  q_prepare q = q_write q + n -> reserved p <= n -> mproducer_ok q p ->
  q_prepare q + q_capacity q < 2 ^ 64 -> 0 <= q_capacity q ->
  mpsc_push_step v q p = (q', p') ->
  q_read q' = q_read q /\ q_capacity q' = q_capacity q /\ q_prepare q <= q_prepare q'
  /\ q_write q <= q_write q' /\ q_prepare q' <= q_read q' + q_capacity q'
  /\ q_prepare q' = q_write q' + (n - reserved p + reserved p') /\ mproducer_ok q' p'.
Proof.
  intros Hb1 Hb2 Hn Hres Hp Hnw Hcap Hstep. pose proof (reserved_range p).
  destruct p as [|v0 w|v0 w|v0 w|w]; cbn in Hstep, Hp, Hres; repeat case_match;
    breflect; simplify_eq; cbn; rewrite ?u64_small in * by lia; lia || (split_and!; lia || done).
Qed.

Lemma mpsc_step_ok s s' :
  mpsc_step s s' -> mpsc_ok s -> 0 < q_capacity (mp_queue s) ->
  q_prepare (mp_queue s) + q_capacity (mp_queue s) < 2 ^ 64 ->
  mpsc_ok s' /\ q_capacity (mp_queue s') = q_capacity (mp_queue s)
  /\ q_prepare (mp_queue s') <= q_prepare (mp_queue s) + 1.
Proof.
  intros Hstep [Hb Hn Hps Hc] Hcap Hnw.
  destruct Hstep as [i v q p ps c rcv q' p' Hi Hs|q ps c rcv q' c' out Hs];
    cbn [mp_queue mp_producers mp_consumer mp_received] in *.
  - pose proof (Forall_lookup_1 _ _ _ _ Hps Hi) as Hp. pose proof (pending_ge ps i p Hi) as Hge.
    pose proof (pending_nonneg ps) as Hpn.
    assert (q_prepare q' <= q_prepare q + 1) as Hp1.
    { destruct p; cbn in Hs; repeat case_match; breflect; simplify_eq; cbn; try lia.
      rewrite u64_small; lia. }
    destruct (mpsc_push_step_ok v q p q' p' (pending ps)) as (Hr & Hcap' & Hp2 & Hw & Hb' & Hn' & Hok);
      try done; try lia.
    split_and!; [|done|done]. split; cbn [mp_queue mp_producers mp_consumer mp_received];
      rewrite ?(pending_insert ps i p p' Hi); [lia|done| |].
    + apply Forall_insert; [|done]. eapply Forall_impl; [|exact Hps]. intros p0 Hp0.
      apply (mproducer_ok_mono q); done || lia.
    + destruct c; cbn in *; rewrite ?Hr; [done|done|lia|lia].
  - pose proof (pending_nonneg ps). destruct c as [|r|r|r val]; cbn in Hs, Hc; unfold mpsc_pop_step in Hs;
      cbn in Hs; repeat case_match; breflect; simplify_eq; cbn [set_read q_capacity q_prepare]; split_and!; try done; try lia;
      split; cbn [set_read q_capacity q_prepare q_write q_read mp_queue mp_producers mp_consumer mp_received mconsumer_ok];
      rewrite ?u64_small by lia; try done; try lia.
    eapply Forall_impl; [|exact Hps]. intros p0 Hp0. apply (mproducer_ok_mono q); cbn; rewrite ?u64_small; done || lia.
Qed.

Lemma pending_idle n : pending (replicate n M_idle) = 0.
Proof. by apply zsum_replicate. Qed.

Lemma mpsc_init_ok capacity n : 0 <= capacity -> mpsc_ok (mpsc_init capacity n).
Proof.
  intros Hcap. split; cbn; [lia|by rewrite pending_idle|by apply Forall_replicate|done].
Qed.

Lemma mpsc_reach_ok n : forall s s',
  nsteps mpsc_step n s s' -> mpsc_ok s -> 0 < q_capacity (mp_queue s) ->
  q_prepare (mp_queue s) + Z.of_nat n + q_capacity (mp_queue s) < 2 ^ 64 ->
  mpsc_ok s' /\ q_capacity (mp_queue s') = q_capacity (mp_queue s).
Proof.
  induction n as [|n IH]; intros s s' Hsteps Hok Hcap Hnw; inversion Hsteps as [|? ? s1 ? Hs Hrest]; subst;
    [done|].
  destruct (mpsc_step_ok s s1 Hs Hok Hcap) as (Hok1 & Hcap1 & Hp1); [lia|].
  rewrite <- Hcap1. apply IH; try done; rewrite Hcap1; lia.
Qed.

End Mpsc.
#[global] Arguments mpsc : clear implicits.

(** Whatever the interleaving, the indices of [MPSCQueue] stay in order:
    at most [capacity] slots are reserved beyond the consumer, and the slots
    between the two write indices are as many as there are pushes under way. *)
Theorem mpsc_bounds {T : Type} (k : Z) (producers n : nat) (s : mpsc T) :
  0 <= k -> nsteps mpsc_step n (mpsc_init (2 ^ k) producers) s -> Z.of_nat n + 2 ^ k < 2 ^ 64 ->
  let q := mp_queue s in
  0 <= q_read q <= q_write q /\ q_write q <= q_prepare q <= q_read q + 2 ^ k
  /\ q_prepare q - q_write q = pending (mp_producers s)
  /\ queue_size q <= 2 ^ k.
Proof.
  intros Hk Hsteps Hn q. assert (0 < 2 ^ k) as Hpos by (apply Z.pow_pos_nonneg; lia).
  destruct (mpsc_reach_ok n _ s Hsteps (mpsc_init_ok (2 ^ k) producers ltac:(lia))) as [[Hb Hp _ _] Hcap];
    [cbn; lia|cbn; lia|].
  cbn in Hcap. rewrite Hcap in Hb. pose proof (pending_nonneg (mp_producers s)). fold q in Hb, Hp.
  split_and!; try lia. unfold queue_size. destruct (Z.leb_spec (q_write q) (q_read q)); [lia|].
  rewrite u64_small by lia. lia.
Qed.

Definition mpsc_do {T} (c : choice T) (s : mpsc T) : mpsc T :=
  match c with
  | Do_push i v =>
      match mp_producers s !! i with
      | None => s
      | Some p =>
          let '(q', p') := mpsc_push_step v (mp_queue s) p in
          mk_mpsc q' (<[i := p']> (mp_producers s)) (mp_consumer s) (mp_received s)
      end
  | Do_pop _ =>
      let '(q', c', out) := mpsc_pop_step (mp_queue s) (mp_consumer s) in
      mk_mpsc q' (mp_producers s) c' (mp_received s ++ option_list out)
  end.

Lemma mpsc_do_step {T} (c : choice T) s :
  match c with Do_push i _ => is_Some (mp_producers s !! i) | Do_pop _ => True end ->
  mpsc_step s (mpsc_do c s).
Proof.
  destruct s as [q ps c0 rcv]. unfold mpsc_do. cbn. destruct c as [i v|i]; cbn.
  - intros [p Hp]. rewrite Hp. destruct (mpsc_push_step v q p) as [q' p'] eqn:E. by eapply mpsc_push.
  - intros _. destruct (mpsc_pop_step q c0) as [[q' c'] out] eqn:E. by eapply mpsc_pop.
Qed.

Lemma mpsc_bounds_witness :
  let s := mpsc_do (Do_push 1 5) (mpsc_do (Do_push 0 4) (mpsc_init (2 ^ 1) 2)) in
  0 <= q_read (mp_queue s) <= q_write (mp_queue s).
Proof.
  apply (mpsc_bounds 1 2 2 (mpsc_do (Do_push 1 5) (mpsc_do (Do_push 0 4) (mpsc_init (2 ^ 1) 2)))).
  - lia.
  - eapply nsteps_l; [|apply nsteps_once]; apply mpsc_do_step; cbn; eauto.
  - reflexivity.
Defined.

(** The commit loop of [MPSCQueue::push] reloads the index it compares
    with, so a producer that is ahead commits the slot of one that is still
    behind: the consumer pops memory nobody has written. *)
Theorem mpsc_pops_unwritten :
  exists s, rtc mpsc_step (mpsc_init (T := Z) 4 2) s
    /\ mp_received s = [None] /\ mp_producers s !! 0%nat = Some (M_store 11 0).
Proof.
  exists (foldl (fun s c => mpsc_do c s) (mpsc_init 4 2)
    (replicate 3 (Do_push 0 11) ++ replicate 6 (Do_push 1 22) ++ replicate 4 (Do_pop 0))).
  split; [|split; vm_compute; reflexivity].
  cbn [replicate app foldl]. repeat (eapply rtc_r; [|apply mpsc_do_step; vm_compute; eauto]). done.
Qed.
