(* ===== verification/LifeCycleLock.v ===== *)
(** * The life-cycle lock (include/common/life_cycle_lock.h)

    [LifeCycleLock] is one atomic 32-bit word: the number of sharers in steps
    of [SHARED], and the [UPGRADED] and [EXCLUSIVE] bits. Each atomic access is
    a function on the word; the threads of the program, as the channel, the
    socket and the hash map use the lock, are a step relation that interleaves
    these accesses. *)

From stdpp Require Import relations.
From S2P Require Import Prelude.

Definition SHARED : Z := 4.
Definition UPGRADED : Z := 2.
Definition EXCLUSIVE : Z := 1.

(** ** The accesses *)

(** The value before, and the word after *)
Definition fetch_add (x bits : Z) : Z * Z := (bits, s32 (bits + x)).
Definition fetch_or (x bits : Z) : Z * Z := (bits, Z.lor bits x).
Definition fetch_and (x bits : Z) : Z * Z := (bits, Z.land bits x).
Definition compare_exchange (expect x bits : Z) : bool * Z :=
  if bits =? expect then (true, x) else (false, bits).

Definition has (mask value : Z) : bool := negb (Z.land value mask =? 0).

(** [tryShared]: its first access; when it answers [false] the second one,
    [releaseShared], follows *)
Definition tryShared (bits : Z) : bool * Z :=
  let '(value, bits) := fetch_add SHARED bits in
  (negb (has (Z.lor UPGRADED EXCLUSIVE) value), bits).

Definition releaseShared (bits : Z) : Z := snd (fetch_add (- SHARED) bits).

Definition tryUpgrade (bits : Z) : bool * Z :=
  let '(value, bits) := fetch_or UPGRADED bits in (negb (has EXCLUSIVE value), bits).

Definition tryUpgradeNonReEntrant (bits : Z) : bool * Z :=
  let '(value, bits) := fetch_or UPGRADED bits in
  (negb (has (Z.lor UPGRADED EXCLUSIVE) value), bits).

Definition tryExclusive (bits : Z) : bool * Z := compare_exchange UPGRADED EXCLUSIVE bits.

Definition releaseExclusive (bits : Z) : Z :=
  snd (fetch_and (Z.lnot (Z.lor EXCLUSIVE UPGRADED)) bits).

(** ** Threads *)

(** What a thread holds. [T_trying] is between the two accesses of a failed
    [tryShared]; [T_shared_upgraded] is a sharer that has won the upgrade, as
    in [Channel::getSocketInternal]. The loops of [share], [upgrade] and
    [exclusive] repeat the access until it succeeds. *)
Inductive thread : Set :=
| T_idle
| T_trying
| T_shared
| T_shared_upgraded
| T_upgraded
| T_exclusive.

Inductive access : Set :=
| A_share
| A_release_shared
| A_upgrade
| A_upgrade_once
| A_exclusive
| A_give_up
| A_release_exclusive.

(** One access of a thread; [None] when the thread does not hold what the
    access needs *)
Definition thread_step (a : access) (t : thread) (bits : Z) : option (thread * Z) :=
  match t, a with
  | T_idle, A_share =>
      let '(ok, bits) := tryShared bits in Some (if ok then T_shared else T_trying, bits)
  | T_trying, A_release_shared => Some (T_idle, releaseShared bits)
  | T_shared, A_release_shared => Some (T_idle, releaseShared bits)
  | T_shared_upgraded, A_release_shared => Some (T_upgraded, releaseShared bits)
  | T_idle, A_upgrade =>
      let '(ok, bits) := tryUpgrade bits in Some (if ok then T_upgraded else T_idle, bits)
  | T_idle, A_upgrade_once =>
      let '(ok, bits) := tryUpgradeNonReEntrant bits in
      Some (if ok then T_upgraded else T_idle, bits)
  | T_shared, A_upgrade_once =>
      let '(ok, bits) := tryUpgradeNonReEntrant bits in
      Some (if ok then T_shared_upgraded else T_shared, bits)
  | T_upgraded, A_exclusive =>
      let '(ok, bits) := tryExclusive bits in Some (if ok then T_exclusive else T_upgraded, bits)
  | T_upgraded, A_give_up => Some (T_idle, bits)
  | T_exclusive, A_release_exclusive => Some (T_idle, releaseExclusive bits)
  | _, _ => None
  end.

Record lock_system := mk_lock_system { ls_bits : Z; ls_threads : list thread }.

Definition lock_init (threads : nat) : lock_system := mk_lock_system 0 (replicate threads T_idle).

Inductive lock_step : lock_system -> lock_system -> Prop :=
| lock_access i a t t' bits bits' ts :
    ts !! i = Some t -> thread_step a t bits = Some (t', bits') ->
    lock_step (mk_lock_system bits ts) (mk_lock_system bits' (<[i := t']> ts)).

(** ** The word *)

(** [n] sharers or attempts, and the two bits *)
Definition word (n : Z) (u e : bool) : Z := 4 * n + (if u then 2 else 0) + (if e then 1 else 0).

Lemma word_lor n u e :
  word n u e = Z.lor (Z.shiftl n 2) (Z.lor (if u then 2 else 0) (if e then 1 else 0)).
Proof.
  unfold word. rewrite <- Z.add_assoc.
  replace ((if u then 2 else 0) + (if e then 1 else 0))
    with (Z.lor (if u then 2 else 0) (if e then 1 else 0)) by (by destruct u, e).
  replace (4 * n) with (Z.shiftl n 2) by (rewrite Z.shiftl_mul_pow2 by lia; lia).
  apply Z.add_nocarry_lor. apply Z.bits_inj'. intros i Hi.
  rewrite Z.land_spec, Z.bits_0. destruct (Z.lt_ge_cases i 2) as [Hlt|Hge].
  - by rewrite Z.shiftl_spec_low by lia.
  - rewrite (Z.bits_above_log2 (Z.lor _ _) i); [by rewrite andb_false_r|by destruct u, e|].
    assert (Z.log2 (Z.lor (if u then 2 else 0) (if e then 1 else 0)) <= 1); [|lia].
    by destruct u, e.
Qed.

Lemma word_land n u e m :
  Z.land (Z.shiftl n 2) m = 0 ->
  Z.land (word n u e) m = Z.land (Z.lor (if u then 2 else 0) (if e then 1 else 0)) m.
Proof. intros Hm. rewrite word_lor, Z.land_lor_distr_l, Hm. apply Z.lor_0_l. Qed.

Lemma shift_land_low n m : 0 <= m < 4 -> Z.land (Z.shiftl n 2) m = 0.
Proof.
  intros Hm. apply Z.bits_inj'. intros i Hi. rewrite Z.land_spec, Z.bits_0.
  destruct (Z.lt_ge_cases i 2) as [Hlt|Hge]; [by rewrite Z.shiftl_spec_low by lia|].
  rewrite (Z.bits_above_log2 m i); [by rewrite andb_false_r|lia|].
  destruct (decide (m = 0)) as [->|]; [cbn; lia|]. apply Z.log2_lt_pow2; [lia|].
  assert (2 ^ 2 <= 2 ^ i) by (apply Z.pow_le_mono_r; lia). lia.
Qed.

Lemma word_has_both n u e : has (Z.lor UPGRADED EXCLUSIVE) (word n u e) = u || e.
Proof. unfold has. rewrite word_land by by apply shift_land_low. by destruct u, e. Qed.

Lemma word_has_exclusive n u e : has EXCLUSIVE (word n u e) = e.
Proof. unfold has. rewrite word_land by by apply shift_land_low. by destruct u, e. Qed.

Lemma word_or n u e : Z.lor (word n u e) UPGRADED = word n true e.
Proof. rewrite !word_lor, <- Z.lor_assoc. f_equal. by destruct u, e. Qed.

Lemma word_and n u e : Z.land (word n u e) (Z.lnot (Z.lor EXCLUSIVE UPGRADED)) = word n false false.
Proof.
  rewrite !word_lor, Z.land_lor_distr_l. f_equal; [|by destruct u, e].
  apply Z.bits_inj'. intros i Hi. rewrite Z.land_spec, Z.lnot_spec by lia.
  destruct (Z.lt_ge_cases i 2) as [Hlt|Hge]; [by rewrite Z.shiftl_spec_low by lia|].
  rewrite (Z.bits_above_log2 (Z.lor EXCLUSIVE UPGRADED) i); [by rewrite andb_true_r|done|].
  assert (Z.log2 (Z.lor EXCLUSIVE UPGRADED) <= 1) by done. lia.
Qed.

Lemma word_eq_upgraded n u e : 0 <= n -> (word n u e =? UPGRADED) = (n =? 0) && u && negb e.
Proof.
  intros Hn. unfold word, UPGRADED.
  destruct (Z.eqb_spec n 0) as [->|]; [by destruct u, e|].
  apply Z.eqb_neq. destruct u, e; lia.
Qed.

(** ** Mutual exclusion *)

Definition attempts (t : thread) : Z :=
  match t with T_trying | T_shared | T_shared_upgraded => 1 | _ => 0 end.
Definition shares (t : thread) : Z :=
  match t with T_shared | T_shared_upgraded => 1 | _ => 0 end.
Definition excludes (t : thread) : Z := match t with T_exclusive => 1 | _ => 0 end.

(** The word counts the sharers and attempts, the [EXCLUSIVE] bit says whether
    a thread is exclusive, and then there are no sharers. *)
Record lock_ok (s : lock_system) : Prop := {
  lk_bits : exists u, ls_bits s = word (zsum attempts (ls_threads s)) u
                                    (0 <? zsum excludes (ls_threads s));
  lk_one : zsum excludes (ls_threads s) <= 1;
  lk_none : 0 < zsum excludes (ls_threads s) -> zsum shares (ls_threads s) = 0
}.

Lemma attempts_range t : 0 <= attempts t <= 1.
Proof. destruct t; cbn; lia. Qed.
Lemma shares_range t : 0 <= shares t.
Proof. destruct t; cbn; lia. Qed.
Lemma excludes_range t : 0 <= excludes t.
Proof. destruct t; cbn; lia. Qed.

Lemma word_add n x u e :
  0 <= n -> 0 <= n + x < 2 ^ 28 -> s32 (word n u e + 4 * x) = word (n + x) u e.
Proof. intros Hn Hx. unfold word. rewrite s32_small; destruct u, e; lia. Qed.

Lemma word_eq n n' u e e' : n = n' -> e = e' -> word n u e = word n' u e'.
Proof. by intros -> ->. Qed.

Lemma lock_ok_insert ts i t t' bits' :
  ts !! i = Some t ->
  (exists u, bits' = word (zsum attempts ts - attempts t + attempts t') u
                       (0 <? zsum excludes ts - excludes t + excludes t')) ->
  zsum excludes ts - excludes t + excludes t' <= 1 ->
  (0 < zsum excludes ts - excludes t + excludes t' -> zsum shares ts - shares t + shares t' = 0) ->
  lock_ok (mk_lock_system bits' (<[i := t']> ts)).
Proof.
  intros Hi Hb Hone Hnone. split; cbn [ls_bits ls_threads]; rewrite !(zsum_insert _ _ _ _ _ Hi); done.
Qed.

(** The accesses on a word *)
Lemma tryShared_word n u e :
  0 <= n < 2 ^ 28 - 1 -> tryShared (word n u e) = (negb (u || e), word (n + 1) u e).
Proof.
  intros Hn. unfold tryShared, fetch_add. rewrite word_has_both. change SHARED with (4 * 1).
  by rewrite word_add by lia.
Qed.

Lemma releaseShared_word n u e : 0 < n < 2 ^ 28 -> releaseShared (word n u e) = word (n - 1) u e.
Proof.
  intros Hn. unfold releaseShared, fetch_add. cbn [snd]. change (- SHARED) with (4 * -1).
  rewrite word_add by lia. done.
Qed.

Lemma tryUpgrade_word n u e : tryUpgrade (word n u e) = (negb e, word n true e).
Proof. unfold tryUpgrade, fetch_or. by rewrite word_has_exclusive, word_or. Qed.

Lemma tryUpgradeNonReEntrant_word n u e :
  tryUpgradeNonReEntrant (word n u e) = (negb (u || e), word n true e).
Proof. unfold tryUpgradeNonReEntrant, fetch_or. by rewrite word_has_both, word_or. Qed.

Lemma tryExclusive_word n u e :
  0 <= n ->
  tryExclusive (word n u e)
  = if (n =? 0) && u && negb e then (true, word 0 false true) else (false, word n u e).
Proof. intros Hn. unfold tryExclusive, compare_exchange. by rewrite word_eq_upgraded. Qed.

Lemma releaseExclusive_word n u e : releaseExclusive (word n u e) = word n false false.
Proof. apply word_and. Qed.

(** One access, on the counts of the other threads *)
Lemma thread_step_ok a t t' n h e u bits' :
  attempts t <= n < 2 ^ 28 - 1 -> shares t <= h <= n -> excludes t <= e <= 1 -> (0 < e -> h = 0) ->
  thread_step a t (word n u (0 <? e)) = Some (t', bits') ->
  (exists u', bits' = word (n - attempts t + attempts t') u' (0 <? e - excludes t + excludes t'))
  /\ e - excludes t + excludes t' <= 1
  /\ (0 < e - excludes t + excludes t' -> h - shares t + shares t' = 0).
Proof.
  intros Hn Hh He Hnone Hs. pose proof (attempts_range t). pose proof (excludes_range t).
  destruct t, a; try discriminate Hs; cbn [thread_step attempts shares excludes] in *;
    rewrite ?tryShared_word, ?releaseShared_word, ?tryUpgrade_word, ?tryUpgradeNonReEntrant_word,
      ?tryExclusive_word, ?releaseExclusive_word in Hs by lia;
    destruct (Z.ltb_spec 0 e), u; cbn [orb andb negb] in Hs;
    rewrite ?andb_false_r, ?andb_true_r in Hs; repeat case_match; breflect; simplify_eq;
    cbn [attempts shares excludes];
    (split_and!; [eexists; apply word_eq; [lia|]|lia|lia]);
    first [symmetry; apply Z.ltb_lt; lia|symmetry; apply Z.ltb_ge; lia].
Qed.

Lemma lock_step_ok s s' :
  lock_step s s' -> lock_ok s -> zlen (ls_threads s) < 2 ^ 28 - 1 ->
  lock_ok s' /\ zlen (ls_threads s') = zlen (ls_threads s).
Proof.
  intros Hstep [[u Hbits] Hone Hnone] Hlen. destruct Hstep as [i a t t' bits bits' ts Hi Hs].
  cbn [ls_bits ls_threads] in *. split; [|unfold zlen; by rewrite length_insert].
  pose proof (zsum_ge attempts ts i t ltac:(apply attempts_range) Hi) as Ha.
  pose proof (zsum_ge shares ts i t shares_range Hi) as Hsh.
  pose proof (zsum_ge excludes ts i t excludes_range Hi) as He.
  pose proof (zsum_le_length attempts ts ltac:(apply attempts_range)) as Hal.
  assert (zsum shares ts <= zsum attempts ts) as Hsa.
  { clear. induction ts as [|t ts IH]; cbn; [lia|]. unfold zsum in *. destruct t; cbn; lia. }
  rewrite Hbits in Hs. apply (thread_step_ok _ _ _ _ (zsum shares ts)) in Hs as (Hb & Ho & Hn); try lia.
  by apply (lock_ok_insert ts i t).
Qed.

Lemma lock_init_ok n : lock_ok (lock_init n).
Proof.
  split; cbn [ls_bits ls_threads lock_init]; rewrite !zsum_replicate by done; [by exists false|lia|lia].
Qed.

Lemma lock_reach_ok s s' :
  rtc lock_step s s' -> lock_ok s -> zlen (ls_threads s) < 2 ^ 28 - 1 -> lock_ok s'.
Proof.
  induction 1 as [|s1 s2 s3 Hs _ IH]; intros Hok Hlen; [done|].
  destruct (lock_step_ok s1 s2 Hs Hok Hlen) as [Hok2 Hlen2]. apply IH; [done|lia].
Qed.

Lemma exclusive_alone s i j t :
  lock_ok s -> ls_threads s !! i = Some T_exclusive -> i <> j -> ls_threads s !! j = Some t ->
  t <> T_exclusive /\ t <> T_shared /\ t <> T_shared_upgraded.
Proof.
  intros [_ Hone Hnone] Hi Hij Hj. pose proof (zsum_two excludes _ i j _ _ excludes_range Hij Hi Hj) as H2. cbn [excludes] in H2.
  pose proof (zsum_ge shares _ j t shares_range Hj) as Hs. specialize (Hnone ltac:(destruct t; cbn in *; lia)).
  destruct t; cbn in *; split_and!; try done; lia.
Qed.

(** C20: mutual exclusion. However the accesses of the threads interleave, a
    thread that has made the lock exclusive is the only one to hold it: no other
    thread is exclusive, and none shares the lock. *)
Theorem lock_mutual_exclusion (threads : nat) (s : lock_system) (i j : nat) (t : thread) :
  Z.of_nat threads < 2 ^ 28 - 1 -> rtc lock_step (lock_init threads) s ->
  ls_threads s !! i = Some T_exclusive -> i <> j -> ls_threads s !! j = Some t ->
  t <> T_exclusive /\ t <> T_shared /\ t <> T_shared_upgraded.
Proof.
  intros Hlen Hrtc. apply exclusive_alone, (lock_reach_ok _ _ Hrtc (lock_init_ok threads)).
  unfold zlen. cbn. by rewrite length_replicate.
Qed.

Lemma lock_mutual_exclusion_witness :
  let s := mk_lock_system 5 [T_exclusive; T_trying] in
  T_trying <> T_exclusive /\ T_trying <> T_shared /\ T_trying <> T_shared_upgraded.
Proof.
  apply (lock_mutual_exclusion 2 (mk_lock_system 5 [T_exclusive; T_trying]) 0 1); try reflexivity.
  - apply (rtc_l _ _ (mk_lock_system 2 [T_upgraded; T_idle]));
      [exact (lock_access 0 A_upgrade T_idle T_upgraded 0 2 [T_idle; T_idle] eq_refl eq_refl)|].
    apply (rtc_l _ _ (mk_lock_system 1 [T_exclusive; T_idle]));
      [exact (lock_access 0 A_exclusive T_upgraded T_exclusive 2 1 [T_upgraded; T_idle] eq_refl eq_refl)|].
    apply rtc_once.
    exact (lock_access 1 A_share T_idle T_trying 1 5 [T_exclusive; T_idle] eq_refl eq_refl).
  - discriminate.
Defined.

(** ** The waiting loops and the guard, run by one thread *)

(** [share] and [upgrade] repeat the access until it succeeds; [None]: nobody
    changes the word, and they never return. *)
Definition share (bits : Z) : option Z := let '(ok, bits) := tryShared bits in if ok then Some bits else None.

Definition upgrade (bits : Z) : option Z := let '(ok, bits) := tryUpgrade bits in if ok then Some bits else None.

(** [LifeCycleShareGuard]: [_shared] and the word after its constructor, and
    the word after its destructor *)
Definition construct_guard (bits : Z) : bool * Z :=
  let '(ok, bits) := tryShared bits in (ok, if ok then bits else releaseShared bits).

Definition destroy_guard (shared : bool) (bits : Z) : Z := if shared then releaseShared bits else bits.

(** A guard leaves the word as it was, whether it shares the lock or not. *)
Lemma guard_restores (bits : Z) :
  - 2 ^ 31 <= bits < 2 ^ 31 -> let '(shared, inside) := construct_guard bits in destroy_guard shared inside = bits.
Proof.
  intros Hb. unfold construct_guard, tryShared, fetch_add, destroy_guard, releaseShared. cbn [snd].
  assert (s32 (s32 (bits + SHARED) + - SHARED) = bits) as Hs.
  { unfold s32, SHARED. Z.div_mod_to_equations. lia. }
  by destruct (negb _).
Qed.
