(* ===== verification/HashMap.v ===== *)
(** * The hash map (include/common/concurrent_hash_map.h)

    [ConcurrentHashMap]: chained buckets, [put], [exchange], [get] and [erase],
    and the intrusive variants the LRU cache builds on. Each operation works on
    one bucket between taking and releasing the bucket's [LifeCycleLock], whose
    exclusion is the subject of LifeCycleLock; here an operation is one step.
    The hash function is a parameter. *)

From stdpp Require Import gmap.
From S2P Require Import Prelude.

(** ** The number of buckets *)

Definition primes : list Z :=
  [2; 3; 5; 7; 11; 13; 17; 19; 23; 29; 31; 37; 41; 43; 47; 53; 59; 61; 67; 71; 73; 79; 83; 89;
    97; 103; 109; 113; 127; 137; 139; 149; 157; 167; 179; 193; 199; 211; 227; 241; 257; 277;
    293; 313; 337; 359; 383; 409; 439; 467; 503; 541; 577; 619; 661; 709; 761; 823; 887; 953;
    1031; 1109; 1193; 1289; 1381; 1493; 1613; 1741; 1879; 2029; 2179; 2357; 2549; 2753; 2971;
    3209; 3469; 3739; 4027; 4349; 4703; 5087; 5503; 5953; 6427; 6949; 7517; 8123; 8783; 9497;
    10273; 11113; 12011; 12983; 14033; 15173; 16411; 17749; 19183; 20753; 22447; 24281; 26267;
    28411; 30727; 33223; 35933; 38873; 42043; 45481; 49201; 53201; 57557; 62233; 67307; 72817;
    78779; 85229; 92203; 99733; 107897; 116731; 126271; 136607; 147793; 159871; 172933; 187091;
    202409; 218971; 236897; 256279; 277261; 299951; 324503; 351061; 379787; 410857; 444487;
    480881; 520241; 562841; 608903; 658753; 712697; 771049; 834181; 902483; 976369; 1056323;
    1142821; 1236397; 1337629; 1447153; 1565659; 1693859; 1832561; 1982627; 2144977; 2320627;
    2510653; 2716249; 2938679; 3179303; 3439651; 3721303; 4026031; 4355707; 4712381; 5098259;
    5515729; 5967347; 6456007; 6984629; 7556579; 8175383; 8844859; 9569143; 10352717; 11200489;
    12117689; 13109983; 14183539; 15345007; 16601593; 17961079; 19431899; 21023161; 22744717;
    24607243; 26622317; 28802401; 31160981; 33712729; 36473443; 39460231; 42691603; 46187573;
    49969847; 54061849; 58488943; 63278561; 68460391; 74066549; 80131819; 86693767; 93793069;
    101473717; 109783337; 118773397; 128499677; 139022417; 150406843; 162723577; 176048909;
    190465427; 206062531; 222936881; 241193053; 260944219; 282312799; 305431229; 330442829;
    357502601; 386778277; 418451333; 452718089; 489790921; 529899637; 573292817; 620239453;
    671030513; 725980837; 785430967; 849749479; 919334987; 994618837; 1076067617; 1164186217;
    1259520799; 1362662261; 1474249943; 1594975441; 1725587117; 1866894511; 2019773507;
    2185171673; 2364114217; 2557710269; 2767159799; 2993761039; 3238918481; 3504151727;
    3791104843; 4101556399; 4294967291].

(** [std::lower_bound(first, last, n)]: the first element not less than [n], or
    the one [last] points to *)
Fixpoint lower_bound (n last : Z) (l : list Z) : Z :=
  match l with
  | [] => last
  | p :: l => if p <? n then lower_bound n last l else p
  end.

Definition nextBucketNum (n : Z) : Z :=
  lower_bound n (List.last primes 0) (removelast primes).

Fixpoint ascending (l : list Z) : bool :=
  match l with
  | p :: (q :: _) as l' => (p <? q) && ascending l'
  | _ => true
  end.

Lemma lower_bound_least n l : forall last,
  ascending (l ++ [last]) = true -> n <= last ->
  let r := lower_bound n last l in
  r ∈ l ++ [last] /\ n <= r /\ forall p, p ∈ l ++ [last] -> n <= p -> r <= p.
Proof.
  induction l as [|p l IH]; intros last Hasc Hn; cbn.
  - split_and!; [by left|done|]. intros p Hp _. apply list_elem_of_singleton in Hp. lia.
  - assert (ascending (l ++ [last]) = true /\ forall q, q ∈ l ++ [last] -> p < q) as [Hasc' Hlt].
    { clear IH Hn. revert p Hasc. induction l as [|q l IH]; intros p Hasc; cbn in Hasc; breflect.
      - split; [done|]. intros q Hq. apply list_elem_of_singleton in Hq. lia.
      - destruct (IH q H0) as [_ Hq]. split; [done|]. intros q' Hq'.
        apply elem_of_cons in Hq' as [->|Hq']; [done|]. specialize (Hq q' Hq'). lia. }
    destruct (Z.ltb_spec p n) as [Hless|Hge].
    + destruct (IH last Hasc' Hn) as (Hin & Hr & Hmin). split_and!; [by right|done|].
      intros q Hq Hnq. apply elem_of_cons in Hq as [->|Hq]; [lia|]. by apply Hmin.
    + split_and!; [by left|done|]. intros q Hq _. apply elem_of_cons in Hq as [->|Hq]; [lia|].
      specialize (Hlt q Hq). lia.
Qed.

(** The number of buckets is the least prime of the table that is not less
    than the hint. *)
Theorem bucket_num_least (n : Z) :
  n <= 4294967291 ->
  nextBucketNum n ∈ primes /\ n <= nextBucketNum n
  /\ forall p, p ∈ primes -> n <= p -> nextBucketNum n <= p.
Proof.
  intros Hn. assert (removelast primes ++ [List.last primes 0] = primes) as Hp by (vm_compute; reflexivity).
  pose proof (lower_bound_least n (removelast primes) (List.last primes 0)) as Hl. rewrite Hp in Hl.
  apply Hl; [vm_compute; reflexivity|].
  replace (List.last primes 0) with 4294967291 by (vm_compute; reflexivity). done.
Qed.

Lemma bucket_num_least_witness :
  nextBucketNum 100 ∈ primes /\ 100 <= nextBucketNum 100
  /\ forall p, p ∈ primes -> 100 <= p -> nextBucketNum 100 <= p.
Proof. apply (bucket_num_least 100). discriminate. Defined.

(** ** Chains *)

Section Chains.
Context {K : Type} `{EqDecision K} {V : Type}.

(** A bucket: the nodes from [_buckets[offset]] along [hash_next] *)
Definition chain : Type := list (K * V).

Fixpoint put_nolock (n : chain) (key : K) (value : V) : chain * bool :=
  match n with
  | [] => ([(key, value)], true)
  | (k, v) :: n =>
      if decide (k = key) then ((k, v) :: n, false)
      else let '(n, ret) := put_nolock n key value in ((k, v) :: n, ret)
  end.

(** With the value that is left in the caller's [val] *)
Fixpoint exchange_nolock (n : chain) (key : K) (val : V) : chain * bool * V :=
  match n with
  | [] => ([(key, val)], false, val)
  | (k, v) :: n =>
      if decide (k = key) then ((k, val) :: n, true, v)
      else let '(n, ret, val) := exchange_nolock n key val in ((k, v) :: n, ret, val)
  end.

Fixpoint get_nolock (n : chain) (key : K) : option V :=
  match n with
  | [] => None
  | (k, v) :: n => if decide (k = key) then Some v else get_nolock n key
  end.

Fixpoint erase_nolock (n : chain) (key : K) : chain * bool :=
  match n with
  | [] => ([], false)
  | (k, v) :: n =>
      if decide (k = key) then (n, true)
      else let '(n, ret) := erase_nolock n key in ((k, v) :: n, ret)
  end.

(** [intrusive_exchange_nolock]: the caller's node, whose [hash_next] is null,
    takes the place of the node with the key; the old node, with everything
    that hangs on its [hash_next], is handed back *)
Fixpoint intrusive_exchange_nolock (n : chain) (key : K) (val : K * V) : chain * bool * (K * V) :=
  match n with
  | [] => ([val], false, val)
  | (k, v) :: n =>
      if decide (k = key) then ([val], true, (k, v))
      else let '(n, ret, val) := intrusive_exchange_nolock n key val in ((k, v) :: n, ret, val)
  end.

(** [intrusive_put_nolock], [intrusive_get_nolock], [intrusive_erase_nolock] *)
Fixpoint intrusive_put_nolock (n : chain) (key : K) (val : K * V) : chain * bool :=
  match n with
  | [] => ([val], true)
  | (k, v) :: n =>
      if decide (k = key) then ((k, v) :: n, false)
      else let '(n, ret) := intrusive_put_nolock n key val in ((k, v) :: n, ret)
  end.

Fixpoint intrusive_get_nolock (n : chain) (key : K) : option (K * V) :=
  match n with
  | [] => None
  | (k, v) :: n => if decide (k = key) then Some (k, v) else intrusive_get_nolock n key
  end.

Fixpoint intrusive_erase_nolock (n : chain) (key : K) : chain * option (K * V) :=
  match n with
  | [] => ([], None)
  | (k, v) :: n =>
      if decide (k = key) then (n, Some (k, v))
      else let '(n, val) := intrusive_erase_nolock n key in ((k, v) :: n, val)
  end.

(** *** What the loops do *)

Lemma get_nolock_In n key : get_nolock n key = None <-> key ∉ n.*1.
Proof.
  induction n as [|[k v] n IH]; cbn; [split; [by intros _ ?%elem_of_nil|done]|].
  case_decide; [subst; split; [done|]; intros []; by left|].
  rewrite IH, not_elem_of_cons. split; [intros Hn; split; congruence|by intros [_ ?]].
Qed.

Lemma put_nolock_ok n key value n' ret :
  put_nolock n key value = (n', ret) ->
  match get_nolock n key with
  | Some _ => n' = n /\ ret = false
  | None => n' = n ++ [(key, value)] /\ ret = true
  end.
Proof.
  revert n' ret. induction n as [|[k v] n IH]; intros n' ret Hp; cbn in *; [by simplify_eq|].
  case_decide; [by simplify_eq|]. destruct (put_nolock n key value) as [n0 r0].
  specialize (IH n0 r0 eq_refl). simplify_eq. destruct (get_nolock n key); destruct IH; by subst.
Qed.

Lemma exchange_nolock_ok n key val n' ret out :
  exchange_nolock n key val = (n', ret, out) ->
  n'.*1 = match get_nolock n key with Some _ => n.*1 | None => n.*1 ++ [key] end
  /\ (forall k, get_nolock n' k = if decide (k = key) then Some val else get_nolock n k)
  /\ match get_nolock n key with
     | Some v => ret = true /\ out = v
     | None => ret = false /\ out = val
     end.
Proof.
  revert n' ret out. induction n as [|[k v] n IH]; intros n' ret out Hp; cbn in *.
  { simplify_eq. cbn. split_and!; try done. intros k. repeat case_decide; congruence. }
  case_decide.
  - simplify_eq. cbn. split_and!; try done. intros k. repeat case_decide; congruence.
  - destruct (exchange_nolock n key val) as [[n0 r0] o0]. specialize (IH n0 r0 o0 eq_refl) as (Hk & Hg & Hr).
    simplify_eq. cbn. split_and!; try done.
    + rewrite Hk. by destruct (get_nolock n key).
    + intros k0. rewrite Hg. repeat case_decide; congruence.
Qed.

Lemma erase_nolock_ok n key n' ret :
  NoDup n.*1 -> erase_nolock n key = (n', ret) ->
  n'.*1 `sublist_of` n.*1
  /\ (forall k, get_nolock n' k = if decide (k = key) then None else get_nolock n k)
  /\ (ret = match get_nolock n key with Some _ => true | None => false end).
Proof.
  revert n' ret. induction n as [|[k v] n IH]; intros n' ret Hnd Hp; cbn in *.
  { simplify_eq. cbn. split_and!; try done. intros k. by case_decide. }
  inversion_clear Hnd as [|?? Hk Hnd']. case_decide as Heq.
  - simplify_eq. cbn. split_and!; try done; [by apply sublist_cons|].
    intros k0. repeat case_decide; try congruence. subst. by apply get_nolock_In.
  - destruct (erase_nolock n key) as [n0 r0]. specialize (IH n0 r0 Hnd' eq_refl) as (Hs & Hg & Hr).
    simplify_eq. cbn. split_and!; try done; [by apply sublist_skip|].
    intros k0. rewrite Hg. repeat case_decide; congruence.
Qed.

End Chains.
#[global] Arguments chain : clear implicits.

(** ** The map *)

Section Map.
Context {K : Type} `{Countable K} {V : Type}.
(** [std::hash<K>] *)
Context (hasher : K -> Z).

Record hash_map := mk_hash_map {
  hm_buckets : list (chain K V);
  hm_bucket_size : Z;
  hm_element_size : Z
}.

Definition new_hash_map (bucket_hint : Z) : hash_map :=
  let bucket_size := nextBucketNum bucket_hint in
  mk_hash_map (replicate (Z.to_nat bucket_size) []) bucket_size 0.

(** [get_bucket_idx], [get_entry] *)
Definition get_entry (key : K) (m : hash_map) : nat := Z.to_nat (hasher key mod hm_bucket_size m).

Definition bucket (key : K) (m : hash_map) : chain K V :=
  match hm_buckets m !! get_entry key m with Some c => c | None => [] end.

Definition set_bucket (key : K) (c : chain K V) (size : Z) (m : hash_map) : hash_map :=
  mk_hash_map (<[get_entry key m := c]> (hm_buckets m)) (hm_bucket_size m) size.

Definition hm_put (key : K) (value : V) (m : hash_map) : hash_map * bool :=
  let '(c, ret) := put_nolock (bucket key m) key value in
  (set_bucket key c (if ret then u64 (hm_element_size m + 1) else hm_element_size m) m, ret).

Definition hm_exchange (key : K) (val : V) (m : hash_map) : hash_map * bool * V :=
  let '(c, ret, val) := exchange_nolock (bucket key m) key val in
  (set_bucket key c (if ret then hm_element_size m else u64 (hm_element_size m + 1)) m, ret, val).

Definition hm_get (key : K) (m : hash_map) : option V := get_nolock (bucket key m) key.

Definition hm_erase (key : K) (m : hash_map) : hash_map * bool :=
  let '(c, ret) := erase_nolock (bucket key m) key in
  (set_bucket key c (if ret then u64 (hm_element_size m - 1) else hm_element_size m) m, ret).

(** [size()] *)
Definition hm_size (m : hash_map) : Z := hm_element_size m.

(** *** The map it stands for *)

Definition hm_map (m : hash_map) : gmap K V := list_to_map (concat (hm_buckets m)).

Record hm_ok (m : hash_map) : Prop := {
  hk_length : zlen (hm_buckets m) = hm_bucket_size m;
  hk_pos : 0 < hm_bucket_size m;
  hk_chain : forall i c, hm_buckets m !! i = Some c ->
               NoDup c.*1 /\ forall k, k ∈ c.*1 -> get_entry k m = i;
  hk_size : hm_element_size m = u64 (Z.of_nat (size (hm_map m)))
}.

Lemma list_to_map_get (l : chain K V) k : (list_to_map l : gmap K V) !! k = get_nolock l k.
Proof.
  induction l as [|[k' v] l IH]; [done|]. cbn. case_decide.
  - subst. by rewrite lookup_insert_eq.
  - by rewrite lookup_insert_ne.
Qed.

Lemma get_nolock_app (l l' : chain K V) k :
  get_nolock (l ++ l') k = match get_nolock l k with Some v => Some v | None => get_nolock l' k end.
Proof. induction l as [|[k' v] l IH]; [done|]. cbn. by case_decide. Qed.

(** A key can only be in the bucket of its hash. *)
Lemma get_concat (bs : list (chain K V)) k j :
  (forall i c, bs !! i = Some c -> k ∈ c.*1 -> i = j) ->
  get_nolock (concat bs) k = match bs !! j with Some c => get_nolock c k | None => None end.
Proof.
  revert j. induction bs as [|c bs IH]; intros j Hb; [done|]. cbn [concat]. rewrite get_nolock_app.
  destruct j as [|j]; cbn.
  - destruct (get_nolock c k) eqn:E; [done|]. apply get_nolock_In. intros Hin.
    apply list_elem_of_fmap in Hin as ([k' v] & -> & Hin). apply list_elem_of_In, in_concat in Hin as (c' & Hc' & Hin).
    apply list_elem_of_In, list_elem_of_lookup in Hc' as [i Hi].
    specialize (Hb (S i) c' Hi). rewrite list_elem_of_fmap in Hb.
    discriminate Hb. exists (k', v). split; [done|]. by apply list_elem_of_In.
  - destruct (get_nolock c k) eqn:E.
    + assert (k ∈ c.*1) as Hin by (destruct (decide (k ∈ c.*1)) as [|Hn]; [done|]; apply get_nolock_In in Hn; congruence).
      by specialize (Hb 0%nat c eq_refl Hin).
    + apply IH. intros i c' Hi Hin. specialize (Hb (S i) c' Hi Hin). lia.
Qed.

Lemma hm_map_lookup m k :
  (forall i c, hm_buckets m !! i = Some c -> forall k, k ∈ c.*1 -> get_entry k m = i) ->
  hm_map m !! k = get_nolock (bucket k m) k.
Proof.
  intros Hm. unfold hm_map, bucket. rewrite list_to_map_get.
  rewrite (get_concat _ _ (get_entry k m)) by (intros i c Hi Hin; symmetry; by apply (Hm i c)).
  by destruct (hm_buckets m !! get_entry k m).
Qed.

Lemma get_entry_lt k m : hm_ok m -> (get_entry k m < length (hm_buckets m))%nat.
Proof.
  intros Hm. pose proof (hk_pos m Hm). pose proof (hk_length m Hm) as Hl. unfold get_entry, zlen in *.
  pose proof (Z.mod_pos_bound (hasher k) (hm_bucket_size m)). lia.
Qed.

Lemma bucket_lookup k m : hm_ok m -> hm_buckets m !! get_entry k m = Some (bucket k m).
Proof.
  intros Hm. unfold bucket. destruct (lookup_lt_is_Some_2 _ _ (get_entry_lt k m Hm)) as [c Hc].
  by rewrite Hc.
Qed.

Lemma hm_lookup m k : hm_ok m -> hm_map m !! k = get_nolock (bucket k m) k.
Proof. intros Hm. apply hm_map_lookup. intros i c Hi. by apply (hk_chain m Hm). Qed.

(** Replacing the bucket of a key *)
Lemma set_bucket_ok key c sz m (g : gmap K V) :
  hm_ok m -> NoDup c.*1 -> (forall k, k ∈ c.*1 -> get_entry k m = get_entry key m) ->
  (forall k, g !! k = if decide (get_entry k m = get_entry key m) then get_nolock c k
                      else hm_map m !! k) ->
  sz = u64 (Z.of_nat (size g)) ->
  hm_ok (set_bucket key c sz m) /\ hm_map (set_bucket key c sz m) = g.
Proof.
  intros Hm Hnd Hc Hg Hsz. pose proof (get_entry_lt key m Hm) as Hlt.
  assert (forall i c', hm_buckets (set_bucket key c sz m) !! i = Some c' ->
    NoDup c'.*1 /\ forall k, k ∈ c'.*1 -> get_entry k m = i) as Hchain.
  { intros i c' Hi. cbn in Hi. apply list_lookup_insert_Some in Hi as [(<- & <- & _)|[_ Hi]]; [done|].
    by apply (hk_chain m Hm). }
  assert (hm_map (set_bucket key c sz m) = g) as Hmap.
  { apply map_eq. intros k. rewrite hm_map_lookup by (intros i c' Hi; by apply Hchain).
    rewrite Hg. unfold bucket. change (get_entry k (set_bucket key c sz m)) with (get_entry k m). cbn.
    case_decide as He.
    - rewrite He. by rewrite list_lookup_insert_eq.
    - rewrite list_lookup_insert_ne by done. symmetry. by apply hm_lookup. }
  split; [|done]. split.
  - cbn. unfold zlen. rewrite length_insert. apply (hk_length m Hm).
  - apply (hk_pos m Hm).
  - exact Hchain.
  - by rewrite Hmap.
Qed.

Lemma bucket_ok k m : hm_ok m ->
  NoDup (bucket k m).*1 /\ forall k', k' ∈ (bucket k m).*1 -> get_entry k' m = get_entry k m.
Proof. intros Hm. exact (hk_chain m Hm _ _ (bucket_lookup k m Hm)). Qed.

(** Buckets of keys with the same entry are the same. *)
Lemma lookup_same_entry m k key :
  hm_ok m -> get_entry k m = get_entry key m -> hm_map m !! k = get_nolock (bucket key m) k.
Proof. intros Hm He. rewrite hm_lookup by done. unfold bucket. by rewrite He. Qed.

Lemma u64_succ n x : u64 (u64 n + x) = u64 (n + x).
Proof. unfold u64. by rewrite Zplus_mod_idemp_l. Qed.

Lemma hm_put_ok key value m m' ret :
  hm_ok m -> hm_put key value m = (m', ret) ->
  hm_ok m' /\ match hm_map m !! key with
              | Some _ => hm_map m' = hm_map m /\ ret = false
              | None => hm_map m' = <[key := value]> (hm_map m) /\ ret = true
              end.
Proof.
  intros Hm Hp. unfold hm_put in Hp. destruct (put_nolock (bucket key m) key value) as [c r] eqn:E.
  simplify_eq. apply put_nolock_ok in E. pose proof (bucket_ok key m Hm) as [Hnd Hen].
  rewrite (hm_lookup m key Hm). destruct (get_nolock (bucket key m) key) as [v|] eqn:Eg; destruct E as [-> ->].
  - destruct (set_bucket_ok key (bucket key m) (hm_element_size m) m (hm_map m)) as [Hok Hmap]; try done.
    + intros k. case_decide; [by apply lookup_same_entry|done].
    + apply (hk_size m Hm).
  - destruct (set_bucket_ok key (bucket key m ++ [(key, value)]) (u64 (hm_element_size m + 1)) m
      (<[key := value]> (hm_map m))) as [Hok Hmap]; try done.
    + rewrite fmap_app. apply list.NoDup_app. split_and!; [done| |apply NoDup_singleton].
      intros x Hx Hx'. apply list_elem_of_singleton in Hx'. subst. by apply get_nolock_In in Eg.
    + intros k Hk. rewrite fmap_app in Hk. apply elem_of_app in Hk as [Hk|Hk]; [by apply Hen|].
      apply list_elem_of_singleton in Hk. by subst.
    + intros k. destruct (decide (k = key)) as [->|Hne].
      * rewrite lookup_insert_eq, decide_True by done. rewrite get_nolock_app, Eg. cbn.
        by rewrite decide_True.
      * rewrite lookup_insert_ne by done. case_decide; [|done]. rewrite get_nolock_app.
        rewrite (lookup_same_entry m k key) by done. cbn. rewrite decide_False by done.
        by destruct (get_nolock (bucket key m) k).
    + rewrite map_size_insert_None by (by rewrite hm_lookup). rewrite (hk_size m Hm), u64_succ. f_equal. lia.
Qed.

Lemma hm_exchange_ok key val m m' ret out :
  hm_ok m -> hm_exchange key val m = (m', ret, out) ->
  hm_ok m' /\ hm_map m' = <[key := val]> (hm_map m)
  /\ match hm_map m !! key with
     | Some v => ret = true /\ out = v
     | None => ret = false /\ out = val
     end.
Proof.
  intros Hm Hp. unfold hm_exchange in Hp.
  destruct (exchange_nolock (bucket key m) key val) as [[c r] o] eqn:E. simplify_eq.
  apply exchange_nolock_ok in E as (Hk & Hg & Hr). pose proof (bucket_ok key m Hm) as [Hnd Hen].
  rewrite <- (hm_lookup m key Hm) in *. apply and_assoc. split; [|done].
  apply set_bucket_ok; try done.
  - rewrite Hk. destruct (hm_map m !! key) eqn:Eg; [done|]. apply list.NoDup_app.
    split_and!; [done| |apply NoDup_singleton]. intros x Hx Hx'. apply list_elem_of_singleton in Hx'. subst.
    rewrite hm_lookup in Eg by done. by apply get_nolock_In in Eg.
  - intros k Hin. rewrite Hk in Hin. destruct (hm_map m !! key); [by apply Hen|].
    apply elem_of_app in Hin as [Hin|Hin]; [by apply Hen|]. apply list_elem_of_singleton in Hin. by subst.
  - intros k. rewrite Hg. destruct (decide (k = key)) as [->|Hne].
    + by rewrite lookup_insert_eq, decide_True.
    + rewrite lookup_insert_ne by done. case_decide; [by apply lookup_same_entry|done].
  - rewrite map_size_insert, (hk_size m Hm).
    destruct (hm_map m !! key); destruct Hr as [-> _]; [done|]. rewrite u64_succ. f_equal. lia.
Qed.

Lemma hm_erase_ok key m m' ret :
  hm_ok m -> hm_erase key m = (m', ret) ->
  hm_ok m' /\ hm_map m' = delete key (hm_map m)
  /\ ret = bool_decide (is_Some (hm_map m !! key)).
Proof.
  intros Hm Hp. unfold hm_erase in Hp. destruct (erase_nolock (bucket key m) key) as [c r] eqn:E.
  simplify_eq. pose proof (bucket_ok key m Hm) as [Hnd Hen].
  apply erase_nolock_ok in E as (Hs & Hg & Hr); [|done]. rewrite <- (hm_lookup m key Hm) in *.
  apply and_assoc. split.
  - apply set_bucket_ok; try done.
    + by eapply sublist_NoDup.
    + intros k Hin. apply Hen. by eapply elem_of_sublist.
    + intros k. rewrite Hg. destruct (decide (k = key)) as [->|Hne].
      * rewrite lookup_delete_eq. by case_decide.
      * rewrite lookup_delete_ne by done. case_decide; [by apply lookup_same_entry|done].
    + rewrite map_size_delete, (hk_size m Hm). destruct (hm_map m !! key) as [v|] eqn:Eg; subst ret; [|done].
      change (u64 (Z.of_nat (size (hm_map m))) - 1) with (u64 (Z.of_nat (size (hm_map m))) + -1).
      rewrite u64_succ. f_equal. assert (size (hm_map m) <> 0%nat); [|lia].
      intros H0. apply map_size_empty_iff in H0. rewrite H0, lookup_empty in Eg. done.
  - subst ret. destruct (hm_map m !! key); case_bool_decide as Hd; try done.
    destruct Hd. by eexists.
Qed.

(** *** Sequences of operations *)

Inductive map_op : Type :=
| Op_put (k : K) (v : V)
| Op_exchange (k : K) (v : V)
| Op_get (k : K)
| Op_erase (k : K).

(** What an operation answers: its result, and the value it hands out *)
Definition run_op (op : map_op) (m : hash_map) : hash_map * (bool * option V) :=
  match op with
  | Op_put k v => let '(m, ret) := hm_put k v m in (m, (ret, None))
  | Op_exchange k v => let '(m, ret, out) := hm_exchange k v m in (m, (ret, Some out))
  | Op_get k => (m, match hm_get k m with Some v => (true, Some v) | None => (false, None) end)
  | Op_erase k => let '(m, ret) := hm_erase k m in (m, (ret, None))
  end.

(** The same on finite maps *)
Definition spec_op (op : map_op) (g : gmap K V) : gmap K V * (bool * option V) :=
  match op with
  | Op_put k v => match g !! k with
                  | Some _ => (g, (false, None))
                  | None => (<[k := v]> g, (true, None))
                  end
  | Op_exchange k v => (<[k := v]> g, match g !! k with
                                      | Some old => (true, Some old)
                                      | None => (false, Some v)
                                      end)
  | Op_get k => (g, match g !! k with Some v => (true, Some v) | None => (false, None) end)
  | Op_erase k => (delete k g, (bool_decide (is_Some (g !! k)), None))
  end.

Fixpoint run_ops {M R : Type} (step : map_op -> M -> M * R) (ops : list map_op) (m : M) : M * list R :=
  match ops with
  | [] => (m, [])
  | op :: ops => let '(m, r) := step op m in let '(m, rs) := run_ops step ops m in (m, r :: rs)
  end.

Lemma run_op_ok op m :
  hm_ok m -> let '(m', r) := run_op op m in hm_ok m' /\ spec_op op (hm_map m) = (hm_map m', r).
Proof.
  intros Hm. destruct op as [k v|k v|k|k]; cbn.
  - destruct (hm_put k v m) as [m' ret] eqn:E. apply hm_put_ok in E as [Hok Hr]; [|done].
    split; [done|]. destruct (hm_map m !! k); destruct Hr as [-> ->]; done.
  - destruct (hm_exchange k v m) as [[m' ret] out] eqn:E. apply hm_exchange_ok in E as (Hok & -> & Hr); [|done].
    split; [done|]. destruct (hm_map m !! k); by destruct Hr as [-> ->].
  - split; [done|]. unfold hm_get. by rewrite <- hm_lookup.
  - destruct (hm_erase k m) as [m' ret] eqn:E. apply hm_erase_ok in E as (Hok & -> & ->); done.
Qed.

Lemma run_ops_ok ops : forall m, hm_ok m ->
  let '(m', rs) := run_ops run_op ops m in
  hm_ok m' /\ run_ops spec_op ops (hm_map m) = (hm_map m', rs).
Proof.
  induction ops as [|op ops IH]; intros m Hm; cbn; [done|].
  pose proof (run_op_ok op m Hm) as Hop. destruct (run_op op m) as [m1 r]. destruct Hop as [Hm1 ->].
  specialize (IH m1 Hm1). destruct (run_ops run_op ops m1) as [m' rs]. destruct IH as [Hm' ->]. done.
Qed.

Lemma nextBucketNum_pos n : 0 < nextBucketNum n.
Proof.
  assert (forall l last, Forall (fun p => 0 < p) (l ++ [last]) -> 0 < lower_bound n last l) as Hlb.
  { induction l as [|p l IH]; intros last Hl; cbn in *; [by inversion Hl|]. inversion_clear Hl.
    case_match; [by apply IH|done]. }
  apply Hlb. apply (bool_decide_unpack _). vm_compute. exact I.
Qed.

Lemma new_hash_map_ok hint : hm_ok (new_hash_map hint) /\ hm_map (new_hash_map hint) = ∅.
Proof.
  pose proof (nextBucketNum_pos hint) as Hpos.
  assert (hm_map (new_hash_map hint) = ∅) as Hmap.
  { unfold hm_map, new_hash_map. cbn [hm_buckets].
    by induction (Z.to_nat (nextBucketNum hint)) as [|n IH]. }
  split; [|done]. split; cbn [hm_buckets hm_bucket_size hm_element_size new_hash_map].
  - unfold zlen. rewrite length_replicate. lia.
  - done.
  - intros i c Hi. apply lookup_replicate in Hi as [-> _]. cbn. split; [constructor|].
    by intros k ?%elem_of_nil.
  - by rewrite Hmap.
Qed.

End Map.

(** The hash map implements finite maps: any sequence of [put], [exchange],
    [get] and [erase] on a new map, whatever the hash function and the number
    of buckets, answers as the same sequence on a finite map, and [size] is the
    number of its keys. *)
Theorem hash_map_refines {K : Type} `{Countable K} {V : Type} (hasher : K -> Z) (hint : Z)
    (ops : list (map_op (K := K) (V := V))) :
  let '(m, rs) := run_ops (run_op hasher) ops (new_hash_map hint) in
  run_ops spec_op ops ∅ = (hm_map m, rs) /\ hm_size m = u64 (Z.of_nat (size (hm_map m))).
Proof.
  destruct (new_hash_map_ok (V := V) hasher hint) as [Hok Hmap].
  pose proof (run_ops_ok hasher ops _ Hok) as Hrun.
  destruct (run_ops (run_op hasher) ops (new_hash_map hint)) as [m rs]. destruct Hrun as [Hm Hspec].
  rewrite Hmap in Hspec. split; [done|]. apply (hk_size hasher m Hm).
Qed.

(** [intrusive_exchange_nolock] puts the new node in the place of the old
    one without taking over its [hash_next]: every entry behind it in the
    bucket is lost. *)
Theorem intrusive_exchange_drops {K : Type} `{EqDecision K} {V : Type}
    (before behind : chain K V) (key : K) (v w : V) :
  key ∉ before.*1 ->
  intrusive_exchange_nolock (before ++ (key, v) :: behind) key (key, w)
  = (before ++ [(key, w)], true, (key, v)).
Proof.
  induction before as [|[k u] before IH]; intros Hk; cbn.
  - by rewrite decide_True.
  - cbn in Hk. apply not_elem_of_cons in Hk as [Hne Hk]. rewrite decide_False by congruence. by rewrite IH.
Qed.

Lemma intrusive_exchange_drops_witness :
  intrusive_exchange_nolock ([(1, 10)] ++ (2, 20) :: [(3, 30)]) 2 (2, 21)
  = ([(1, 10)] ++ [(2, 21)], true, (2, 20)).
Proof. apply (intrusive_exchange_drops [(1, 10)] [(3, 30)] 2 20 21). apply (bool_decide_unpack _). exact I. Defined.
