(* ===== verification/Session.v ===== *)
(** * The life of a read session

    [SocketReadSession] (src/tcp/socket.h) is shared by three threads: the one
    that sends the request and waits for its result (src/session/session.cpp,
    [Session::sendInternal]), the timer thread that fires at the timeout, and
    the thread of the socket that delivers responses and reclaims the session
    (src/tcp/socket.cpp, [cutIntoMessage] and [tryReclaimSessionMap]). They
    agree through the session's [LifeCycleLock]. The model starts when the
    session has been handed to the socket and the timer is armed, on the path
    where the request is written, and interleaves the threads access by access;
    an access to a session that has been deleted sets [se_fault]. *)

From stdpp Require Import relations.
From S2P Require Import Prelude CommonDefines LifeCycleLock.

(** Where a thread is in [SocketReadSession::notify] *)
Inductive notifier : Set :=
| N_share
| N_undo
| N_upgrade
| N_promise
| N_post
| N_callback (e : ESessionError)
| N_release.

(** The sending thread: writing the request, [if (!session_info->callback)],
    waiting for the promise, [postProcess], [releaseShared] *)
Inductive sender : Set := S_write | S_check | S_wait | S_post | S_release | S_done.

(** The timer's callback: [notify(READ_TIMEOUT)], then [releaseShared] *)
Inductive timer : Set := T_armed | T_notify (n : notifier) | T_release | T_done.

(** The socket's thread: [notify(SESSION_OK)] for each response with the
    session's id, and [tryReclaimSessionMap] *)
Inductive reader : Set := R_idle | R_notify (n : notifier) | R_reclaimed.

Record session := mk_session {
  se_owners : Z;
  se_alive : bool;
  se_fault : bool;
  se_results : list ESessionError;
  se_sender : sender;
  se_timer : timer;
  se_reader : reader
}.

(** [owners.tryShared()] has been called for the timer. *)
Definition new_session : session :=
  mk_session (snd (tryShared 0)) true false [] S_write T_armed R_idle.

(** An access to the session's memory *)
Definition touch (s : session) : session :=
  mk_session (se_owners s) (se_alive s) (se_fault s || negb (se_alive s)) (se_results s)
    (se_sender s) (se_timer s) (se_reader s).

Definition set_owners (b : Z) (s : session) : session :=
  mk_session b (se_alive s) (se_fault s) (se_results s) (se_sender s) (se_timer s) (se_reader s).
Definition set_sender (p : sender) (s : session) : session :=
  mk_session (se_owners s) (se_alive s) (se_fault s) (se_results s) p (se_timer s) (se_reader s).
Definition set_timer (p : timer) (s : session) : session :=
  mk_session (se_owners s) (se_alive s) (se_fault s) (se_results s) (se_sender s) p (se_reader s).
Definition set_reader (p : reader) (s : session) : session :=
  mk_session (se_owners s) (se_alive s) (se_fault s) (se_results s) (se_sender s) (se_timer s) p.
Definition add_result (e : ESessionError) (s : session) : session :=
  mk_session (se_owners s) (se_alive s) (se_fault s) (se_results s ++ [e]) (se_sender s) (se_timer s)
    (se_reader s).

(** [postProcess(error)]: [parsed] is what [parse_response_fn] answers, when
    there is a response to fill *)
Definition postProcess (parsed : option EResParseResult) (error : ESessionError) : ESessionError :=
  match error, parsed with
  | SESSION_OK, Some ret => if bool_decide (ret = PARSE_OK) then SESSION_OK else PARSE_RESPONSE_FAIL
  | _, _ => error
  end.

(** One access of [notify(err)]; [None] when it returns. [sync] says that the
    session has no callback: the promise is set and the share is left to the
    sender; otherwise [postProcess] parses the response, the callback is called
    with the error it leaves, and the share is released. *)
Definition notify_step (sync : bool) (err : ESessionError) (parsed : option EResParseResult)
    (n : notifier) (s : session) : session * option notifier :=
  match n with
  | N_share =>
      let '(ok, b) := tryShared (se_owners s) in
      (set_owners b s, Some (if ok then N_upgrade else N_undo))
  | N_undo => (set_owners (releaseShared (se_owners s)) s, None)
  | N_upgrade =>
      let '(ok, b) := tryUpgradeNonReEntrant (se_owners s) in
      let s := set_owners b s in
      if ok then (s, Some (if sync then N_promise else N_post)) else (s, Some N_release)
  | N_promise => (add_result err s, None)
  | N_post => (s, Some (N_callback (postProcess parsed err)))
  | N_callback e => (add_result e s, Some N_release)
  | N_release => (set_owners (releaseShared (se_owners s)) s, None)
  end.

(** [sendInternal] after the timer has been added, when the request is written *)
Definition sender_step (sync : bool) (s : session) : option session :=
  match se_sender s with
  | S_write => Some (set_sender S_check (touch s))
  | S_check => Some (set_sender (if sync then S_wait else S_done) (touch s))
  | S_wait =>
      match se_results s with
      | [] => None
      | _ => Some (set_sender S_post (touch s))
      end
  | S_post => Some (set_sender S_release (touch s))
  | S_release =>
      Some (set_sender S_done (set_owners (releaseShared (se_owners s)) (touch s)))
  | S_done => None
  end.

(** The lambda given to [addTimeschdule]; its error is not [SESSION_OK], so
    [postProcess] parses nothing. *)
Definition timer_step (sync : bool) (s : session) : option session :=
  match se_timer s with
  | T_armed => Some (set_timer (T_notify N_share) s)
  | T_notify n =>
      let '(s, n) := notify_step sync READ_TIMEOUT None n (touch s) in
      Some (set_timer (match n with Some n => T_notify n | None => T_release end) s)
  | T_release => Some (set_timer T_done (set_owners (releaseShared (se_owners s)) (touch s)))
  | T_done => None
  end.

(** A response with the session's id has arrived, or [notify] goes on; [parsed]
    is what parsing it would answer. *)
Definition response_step (sync : bool) (parsed : option EResParseResult) (s : session) : option session :=
  match se_reader s with
  | R_idle => Some (set_reader (R_notify N_share) s)
  | R_notify n =>
      let '(s, n) := notify_step sync SESSION_OK parsed n (touch s) in
      Some (set_reader (match n with Some n => R_notify n | None => R_idle end) s)
  | R_reclaimed => None
  end.

(** [tryReclaimSessionMap]: [if (owners.tryExclusive()) delete session] *)
Definition reclaim_step (s : session) : option session :=
  match se_reader s with
  | R_idle =>
      let '(ok, b) := tryExclusive (se_owners s) in
      let s := touch s in
      Some (if ok then mk_session b false (se_fault s) (se_results s) (se_sender s) (se_timer s) R_reclaimed
            else s)
  | _ => None
  end.

Inductive session_step (sync : bool) : session -> session -> Prop :=
| by_sender s s' : sender_step sync s = Some s' -> session_step sync s s'
| by_timer s s' : timer_step sync s = Some s' -> session_step sync s s'
| by_response parsed s s' : response_step sync parsed s = Some s' -> session_step sync s s'
| by_reclaim s s' : reclaim_step s = Some s' -> session_step sync s s'.

(** ** The shares *)

Definition notifier_shares (n : notifier) : Z := match n with N_share => 0 | _ => 1 end.
Definition timer_shares (t : timer) : Z :=
  match t with T_armed | T_release => 1 | T_notify n => 1 + notifier_shares n | T_done => 0 end.
Definition reader_shares (r : reader) : Z :=
  match r with R_notify n => notifier_shares n | _ => 0 end.

Definition notified (s : session) : bool := match se_results s with [] => false | _ => true end.

(** A notifier that has upgraded the lock and not yet given the result *)
Definition winning (n : notifier) : bool :=
  match n with N_promise | N_post | N_callback _ => true | _ => false end.
Definition notifier_fits (sync : bool) (n : notifier) : Prop :=
  match n with N_promise => sync = true | N_post | N_callback _ => sync = false | _ => True end.

Definition timer_notifier (t : timer) : option notifier := match t with T_notify n => Some n | _ => None end.
Definition reader_notifier (r : reader) : option notifier := match r with R_notify n => Some n | _ => None end.
Definition wins (n : option notifier) : bool := match n with Some n => winning n | None => false end.
Definition fits (sync : bool) (n : option notifier) : Prop :=
  match n with Some n => notifier_fits sync n | None => True end.

Definition timer_wins (s : session) : bool := wins (timer_notifier (se_timer s)).
Definition reader_wins (s : session) : bool := wins (reader_notifier (se_reader s)).
Definition upgraded (s : session) : bool := notified s || timer_wins s || reader_wins s.
Definition winners (s : session) : nat :=
  length (se_results s) + Nat.b2n (timer_wins s) + Nat.b2n (reader_wins s).

(** In the synchronous case the share of the winning notification belongs to
    the sender until it releases it. *)
Definition sender_shares (sync : bool) (s : session) : Z :=
  if sync && notified s then match se_sender s with S_done => 0 | _ => 1 end else 0.

(** How far the sender can be *)
Definition sender_fits (sync : bool) (s : session) : Prop :=
  match se_sender s with
  | S_post | S_release => sync = true /\ notified s = true
  | S_wait => sync = true
  | S_done => sync = true -> notified s = true
  | _ => True
  end.

Record session_ok (sync : bool) (s : session) : Prop := {
  so_word : se_owners s = word (timer_shares (se_timer s) + reader_shares (se_reader s)
                                + sender_shares sync s) (upgraded s && se_alive s) (negb (se_alive s));
  so_once : (winners s <= 1)%nat;
  so_fits : fits sync (timer_notifier (se_timer s)) /\ fits sync (reader_notifier (se_reader s));
  so_sender : sender_fits sync s;
  so_dead : se_alive s = false ->
            se_reader s = R_reclaimed /\ se_timer s = T_done /\ notified s = true
            /\ (sync = true -> se_sender s = S_done);
  so_reader : se_reader s = R_reclaimed -> se_alive s = false;
  so_fault : sync = true -> se_fault s = false
}.

Lemma sender_shares_range sync s : 0 <= sender_shares sync s <= 1.
Proof. unfold sender_shares. repeat case_match; lia. Qed.
Lemma notifier_shares_range n : 0 <= notifier_shares n <= 1.
Proof. destruct n; cbn; lia. Qed.
Lemma timer_shares_range t : 0 <= timer_shares t <= 2.
Proof. destruct t as [|n| |]; cbn; try lia. pose proof (notifier_shares_range n). lia. Qed.
Lemma reader_shares_range r : 0 <= reader_shares r <= 1.
Proof. destruct r as [|n|]; cbn; try lia. apply notifier_shares_range. Qed.

(** [notify] with [m] shares held by the other threads, [o]: another thread
    wins. At most the first one to upgrade gives a result, and in the
    synchronous case its share then goes to the sender. *)
Lemma notify_step_ok sync err parsed n s s' r m (o : bool) :
  0 <= m <= 4 -> (length (se_results s) + Nat.b2n (winning n) + Nat.b2n o <= 1)%nat ->
  notifier_fits sync n -> (sync = true -> se_sender s = S_done -> notified s = true) ->
  se_owners s = word (m + notifier_shares n + sender_shares sync s) (notified s || winning n || o) false ->
  notify_step sync err parsed n s = (s', r) ->
  se_owners s' = word (m + match r with Some n' => notifier_shares n' | None => 0 end
                       + sender_shares sync s') (notified s' || wins r || o) false
  /\ (length (se_results s') + Nat.b2n (wins r) + Nat.b2n o <= 1)%nat /\ fits sync r
  /\ (notified s = true -> notified s' = true)
  /\ se_alive s' = se_alive s /\ se_fault s' = se_fault s /\ se_sender s' = se_sender s
  /\ se_timer s' = se_timer s /\ se_reader s' = se_reader s.
Proof.
  intros Hm Hlen Hfit Hdone Hw Hs. pose proof (sender_shares_range sync s) as Hss.
  destruct s as [ow al f res sd tm rd]. unfold notify_step in Hs. cbn [se_owners] in Hs, Hw.
  rewrite Hw in Hs. clear Hw.
  destruct n; cbn [notifier_shares winning] in *;
    rewrite ?tryShared_word, ?releaseShared_word, ?tryUpgradeNonReEntrant_word in Hs by lia;
    unfold sender_shares, notified in *;
    cbn [se_owners se_alive se_fault se_results se_sender se_timer se_reader andb] in *.
  - simplify_eq. destruct (negb _); cbn; (split_and!; try done; apply word_eq; [lia|done]).
  - simplify_eq. cbn. split_and!; try done. apply word_eq; [lia|done].
  - destruct res as [|e res], o; cbn in Hs, Hlen; simplify_eq; cbn; rewrite ?andb_false_r; split_and!; try done; try lia;
      destruct sync; cbn in *; try done; lia.
  - simplify_eq. destruct res; [|cbn in Hlen; lia]. destruct o; [cbn in Hlen; lia|]. cbn in Hfit. subst sync.
    cbn. split_and!; try done. destruct sd; try (apply word_eq; [lia|done]).
    by specialize (Hdone eq_refl eq_refl).
  - simplify_eq. cbn. cbn in Hfit. subst sync. cbn in *. split_and!; done.
  - simplify_eq. cbn. cbn in Hfit. subst sync. destruct res; [|cbn in Hlen; lia]. cbn in *. split_and!; try done.
  - simplify_eq. cbn. split_and!; try done. apply word_eq; [lia|done].
Qed.

(** A thread that still has work on the session finds it alive. *)
Lemma timer_alive sync s : session_ok sync s -> se_timer s <> T_done -> se_alive s = true.
Proof. intros Hs Ht. destruct (se_alive s) eqn:E; [done|]. by destruct (so_dead _ _ Hs E) as (_ & ? & _). Qed.

Lemma reader_alive sync s : session_ok sync s -> se_reader s <> R_reclaimed -> se_alive s = true.
Proof. intros Hs Hr. destruct (se_alive s) eqn:E; [done|]. by destruct (so_dead _ _ Hs E) as (? & _). Qed.

Lemma sender_alive s : session_ok true s -> se_sender s <> S_done -> se_alive s = true.
Proof.
  intros Hs Hr. destruct (se_alive s) eqn:E; [done|].
  destruct (so_dead _ _ Hs E) as (_ & _ & _ & Hd). by rewrite Hd in Hr.
Qed.

(** On a live session an access leaves everything as it is. *)
Lemma touch_alive s : se_alive s = true -> touch s = s.
Proof. destruct s as [o al f res sd tm rd]. cbn. intros ->. unfold touch. cbn. by rewrite orb_false_r. Qed.

Lemma new_session_ok sync : session_ok sync new_session.
Proof. split; cbn; try done; [|unfold winners; cbn; lia]. unfold sender_shares. cbn. by rewrite andb_false_r. Qed.

Lemma session_ok_alive sync s :
  se_alive s = true -> se_reader s <> R_reclaimed -> (winners s <= 1)%nat ->
  fits sync (timer_notifier (se_timer s)) -> fits sync (reader_notifier (se_reader s)) ->
  se_owners s = word (timer_shares (se_timer s) + reader_shares (se_reader s) + sender_shares sync s)
                  (upgraded s) false ->
  sender_fits sync s -> (sync = true -> se_fault s = false) -> session_ok sync s.
Proof.
  intros Ha Hr Hl Ht Hrd Hw Hs Hf. split; try done; try congruence. by rewrite Ha, andb_true_r.
Qed.

Lemma sender_fits_mono sync s s' :
  sender_fits sync s -> se_sender s' = se_sender s -> (notified s = true -> notified s' = true) ->
  sender_fits sync s'.
Proof. unfold sender_fits. intros Hs -> Hn. destruct (se_sender s); intuition. Qed.

(** The word of a session that is alive *)
Lemma word_alive sync s :
  session_ok sync s -> se_alive s = true ->
  se_owners s = word (timer_shares (se_timer s) + reader_shares (se_reader s) + sender_shares sync s)
                  (upgraded s) false
  /\ se_reader s <> R_reclaimed.
Proof.
  intros [Hw _ _ _ _ Hr _] Ha. rewrite Hw, Ha, andb_true_r. split; [done|]. intros E. apply Hr in E. congruence.
Qed.

(** What a thread does leaves the notifications of the others alone. *)
Lemma sender_done_notified sync s : sender_fits sync s -> sync = true -> se_sender s = S_done -> notified s = true.
Proof. unfold sender_fits. intros Hs Hsync E. rewrite E in Hs. by apply Hs. Qed.

Lemma timer_step_ok sync s s' : session_ok sync s -> timer_step sync s = Some s' -> session_ok sync s'.
Proof.
  intros Hok Hs. pose proof (reader_shares_range (se_reader s)) as Hrr.
  pose proof (sender_shares_range sync s) as Hss. unfold timer_step in Hs.
  assert (se_timer s <> T_done) as Hnd by (intros E; by rewrite E in Hs).
  pose proof (timer_alive _ _ Hok Hnd) as Hal. rewrite (touch_alive s Hal) in Hs.
  destruct (word_alive _ _ Hok Hal) as [Hw Hre]. destruct Hok as [_ Ho [Hft Hfr] Hsd _ _ Hf].
  unfold upgraded, winners, timer_wins in Hw, Ho.
  destruct (se_timer s) as [|n| |] eqn:Et; [..|done]; cbn [timer_shares timer_notifier wins fits] in *.
  - injection Hs as <-. by apply session_ok_alive.
  - destruct (notify_step sync READ_TIMEOUT None n s) as [s1 r] eqn:En. injection Hs as <-.
    apply (notify_step_ok _ _ _ _ _ _ _ (1 + reader_shares (se_reader s)) (reader_wins s)) in En
      as (Hw1 & Ho1 & Hfit & Hn1 & Ha1 & Hf1 & Hs1 & Ht1 & Hr1); try done; [|lia| |].
    2:{ by apply sender_done_notified. }
    2:{ rewrite Hw. apply word_eq; [lia|done]. }
    assert (reader_wins s1 = reader_wins s) as Hrw by (unfold reader_wins; by rewrite Hr1).
    apply session_ok_alive;
      unfold winners, upgraded, timer_wins, reader_wins in *;
      cbn [se_alive se_reader se_results se_owners se_timer se_fault set_timer];
      rewrite ?Ha1, ?Hr1, ?Hf1; try done; [by destruct r|by destruct r| |by apply (sender_fits_mono sync s)].
    rewrite Hw1. destruct r; apply word_eq; cbn [timer_shares]; try done; unfold sender_shares, notified; cbn; lia.
  - injection Hs as <-. apply session_ok_alive; try done. cbn [se_owners set_timer set_owners se_timer timer_shares].
    rewrite Hw, releaseShared_word by lia. apply word_eq; [|done].
    unfold sender_shares, notified. cbn. lia.
Qed.

Lemma orb_swap (a b c : bool) : a || b || c = a || c || b.
Proof. by destruct a, b, c. Qed.

Lemma response_step_ok sync parsed s s' :
  session_ok sync s -> response_step sync parsed s = Some s' -> session_ok sync s'.
Proof.
  intros Hok Hs. pose proof (timer_shares_range (se_timer s)) as Hrr.
  pose proof (sender_shares_range sync s) as Hss. unfold response_step in Hs.
  assert (se_reader s <> R_reclaimed) as Hnd by (intros E; by rewrite E in Hs).
  pose proof (reader_alive _ _ Hok Hnd) as Hal. rewrite (touch_alive s Hal) in Hs.
  destruct (word_alive _ _ Hok Hal) as [Hw _]. destruct Hok as [_ Ho [Hft Hfr] Hsd _ _ Hf].
  unfold upgraded, winners, reader_wins in Hw, Ho.
  destruct (se_reader s) as [|n|] eqn:Er; [..|done]; cbn [reader_shares reader_notifier wins fits] in *.
  - injection Hs as <-. by apply session_ok_alive.
  - destruct (notify_step sync SESSION_OK parsed n s) as [s1 r] eqn:En. injection Hs as <-.
    apply (notify_step_ok _ _ _ _ _ _ _ (timer_shares (se_timer s)) (timer_wins s)) in En
      as (Hw1 & Ho1 & Hfit & Hn1 & Ha1 & Hf1 & Hs1 & Ht1 & Hr1); try done; [|lia|lia| |].
    2:{ by apply sender_done_notified. }
    2:{ rewrite Hw, orb_swap. apply word_eq; [lia|done]. }
    apply session_ok_alive;
      unfold winners, upgraded, timer_wins, reader_wins in *;
      cbn [se_alive se_reader se_results se_owners se_timer se_fault set_reader];
      rewrite ?Ha1, ?Ht1, ?Hf1; try done;
      [by destruct r|destruct r; cbn in *; lia|by destruct r| |by apply (sender_fits_mono sync s)].
    rewrite Hw1, orb_swap. destruct r; apply word_eq; try done; unfold sender_shares, notified; cbn; lia.
Qed.

Lemma reclaim_step_ok sync s s' : session_ok sync s -> reclaim_step s = Some s' -> session_ok sync s'.
Proof.
  intros Hok Hs. pose proof (timer_shares_range (se_timer s)) as Htr.
  pose proof (sender_shares_range sync s) as Hss. unfold reclaim_step in Hs.
  assert (se_reader s <> R_reclaimed) as Hnd by (intros E; by rewrite E in Hs).
  pose proof (reader_alive _ _ Hok Hnd) as Hal. rewrite (touch_alive s Hal) in Hs.
  destruct (word_alive _ _ Hok Hal) as [Hw _]. destruct (se_reader s) eqn:Er; try done.
  cbn [reader_shares] in Hw. rewrite Hw, tryExclusive_word in Hs by lia.
  destruct ((_ =? 0) && upgraded s && negb false) eqn:Ec; [|by injection Hs as <-].
  apply andb_true_iff in Ec as [[Hz Hup]%andb_true_iff _]. apply Z.eqb_eq in Hz.
  injection Hs as <-. destruct Hok as [_ Ho Hfit Hsd _ _ Hf].
  assert (se_timer s = T_done) as Htd.
  { assert (timer_shares (se_timer s) = 0) as H0 by lia. destruct (se_timer s) as [|n| |]; cbn in H0; try done; try lia.
    pose proof (notifier_shares_range n). lia. }
  assert (notified s = true) as Hnt.
  { unfold upgraded, timer_wins, reader_wins in Hup. rewrite Htd, Er in Hup. cbn in Hup. by rewrite !orb_false_r in Hup. }
  assert (sync = true -> se_sender s = S_done) as Hsend.
  { intros ->. assert (sender_shares true s = 0) as H0 by lia. unfold sender_shares in H0. rewrite Hnt in H0. cbn in H0.
    by destruct (se_sender s). }
  unfold winners, timer_wins, reader_wins in Ho. rewrite Htd, Er in Ho.
  split; cbn [se_alive se_reader se_results se_owners se_timer se_fault se_sender]; try done.
  - rewrite Htd, andb_false_r. cbn [timer_shares reader_shares negb].
    apply word_eq; [|done]. unfold sender_shares, notified in *. cbn in *.
    rewrite Htd in *. cbn [timer_shares] in *. lia.
  - unfold winners, timer_wins, reader_wins. cbn. by rewrite Htd.
  - by rewrite Htd.
Qed.

Lemma sender_step_ok sync s s' : session_ok sync s -> sender_step sync s = Some s' -> session_ok sync s'.
Proof.
  intros Hok Hs. pose proof (timer_shares_range (se_timer s)) as Htr.
  pose proof (reader_shares_range (se_reader s)) as Hrr. unfold sender_step in Hs.
  assert (se_sender s <> S_done) as Hnd by (intros E; by rewrite E in Hs).
  destruct sync.
  - pose proof (sender_alive s Hok Hnd) as Hal. rewrite (touch_alive s Hal) in Hs.
    destruct (word_alive _ _ Hok Hal) as [Hw Hre]. destruct Hok as [_ Ho [Hft Hfr] Hsd _ _ Hf].
    unfold sender_fits, sender_shares in Hsd, Hw.
    destruct (se_sender s) eqn:Es; try done; try (injection Hs as <-);
      try (apply session_ok_alive; try done; unfold sender_shares, notified in *; cbn in *;
           by destruct (se_results s)).
    + destruct (se_results s) eqn:Er; [done|]. injection Hs as <-.
      apply session_ok_alive; try done; unfold sender_fits, sender_shares, notified in *; cbn in *;
        rewrite ?Er in *; done.
    + destruct Hsd as [_ Hn]. rewrite Hn in Hw. cbn in Hw.
      apply session_ok_alive; try done; unfold sender_fits, sender_shares; [|intros _; exact Hn].
      cbn [se_owners se_timer se_reader se_sender set_sender set_owners andb].
      change (notified (set_sender _ _)) with (notified s). rewrite Hn, Hw, releaseShared_word by lia.
      apply word_eq; [lia|done].
  - destruct Hok as [Hw Ho Hfit Hsd Hdead Hrd Hf]. unfold sender_fits, sender_shares in Hsd, Hw.
    destruct (se_sender s) eqn:Es; try done; try (by destruct Hsd); try (injection Hs as <-);
      (split; try done; unfold sender_fits, sender_shares, notified in *; cbn in *; try done;
       intros Hd; destruct (Hdead Hd) as (? & ? & ? & _); by split_and!).
Qed.

Lemma session_reach_ok sync s : rtc (session_step sync) new_session s -> session_ok sync s.
Proof.
  apply rtc_ind_r; [apply new_session_ok|]. intros s1 s2 _ Hstep Hok.
  destruct Hstep as [s0 s' Hs|s0 s' Hs|parsed s0 s' Hs|s0 s' Hs].
  - by eapply sender_step_ok.
  - by eapply timer_step_ok.
  - by eapply response_step_ok.
  - by eapply reclaim_step_ok.
Qed.

(** C24: a session is notified at most once, by the first response or by the
    timeout, under every interleaving of the sender, the timer and the socket's
    thread: a promise is never set twice and a callback never called twice; and
    a synchronous session is never touched after it has been deleted. *)
Theorem session_notified_once (sync : bool) (s : session) :
  rtc (session_step sync) new_session s ->
  (length (se_results s) <= 1)%nat /\ (sync = true -> se_fault s = false).
Proof. intros [_ Ho _ _ _ _ Hf]%session_reach_ok. split; [unfold winners in Ho; lia|done]. Qed.

(** A schedule of the threads *)
Inductive who : Set := W_sender | W_timer | W_response | W_reclaim.

Definition session_do (sync : bool) (s : session) (w : who) : session :=
  match match w with
        | W_sender => sender_step sync s
        | W_timer => timer_step sync s
        | W_response => response_step sync (Some PARSE_OK) s
        | W_reclaim => reclaim_step s
        end with
  | Some s' => s'
  | None => s
  end.

Lemma session_do_rtc sync sched s : rtc (session_step sync) s (foldl (session_do sync) s sched).
Proof.
  revert s. induction sched as [|w sched IH]; intros s; cbn; [done|]. etrans; [|apply IH].
  unfold session_do. destruct w; case_match eqn:E; try done; apply rtc_once;
    [by apply by_sender|by apply by_timer|by apply (by_response _ (Some PARSE_OK))|by apply by_reclaim].
Qed.

(** The response and the timeout race, the sender is slow, the session is
    reclaimed at the end. *)
Definition sync_race : list who :=
  [W_response; W_response; W_timer; W_timer; W_response; W_response; W_timer; W_timer; W_timer]
  ++ replicate 5 W_sender ++ [W_reclaim].

Lemma session_notified_once_witness :
  let s := foldl (session_do true) new_session sync_race in
  se_alive s = false /\ (length (se_results s) <= 1)%nat /\ (true = true -> se_fault s = false).
Proof.
  split; [vm_compute; reflexivity|].
  apply (session_notified_once true (foldl (session_do true) new_session sync_race)).
  apply session_do_rtc.
Defined.

(** An asynchronous session has no share for the sending thread: when the
    timer fires before [sendInternal] has returned, the session is deleted and
    the sender still reads its callback. *)
Theorem async_sender_use_after_delete :
  exists s, rtc (session_step false) new_session s /\ se_fault s = true /\ se_results s = [READ_TIMEOUT].
Proof.
  exists (foldl (session_do false) new_session
    ([W_sender] ++ replicate 7 W_timer ++ [W_reclaim; W_sender])).
  split; [apply session_do_rtc|split; vm_compute; reflexivity].
Qed.
