(* ===== verification/HttpResponse.v ===== *)
(** * HTTP responses (src/protocol/http/http_response.cpp)

    [HttpResponse]: the callbacks it gives to the parser, [checkHeader], which
    feeds the slices of a connection's buffer to the parser until a message is
    complete, and [deserialize]. The callbacks keep to the parser's interface,
    so what HttpSafe proves of the parser holds for every connection. *)

From stdpp Require Import gmap.
From S2P Require Import Prelude CommonDefines HttpDefs HttpMonad HttpExec HttpInv HttpSafe HttpProps.
From S2P Require Import ByteBuffer IoBuffer IoBufferProps Bolt BoltResponse.

(** ** The message under construction *)

Inductive HttpParserStage : Set :=
| HTTP_ON_MESSAGE_BEGIN
| HTTP_ON_URL
| HTTP_ON_STATUS
| HTTP_ON_HEADER_FIELD
| HTTP_ON_HEADER_VALUE
| HTTP_ON_HEADERS_COMPLELE
| HTTP_ON_BODY
| HTTP_ON_MESSAGE_COMPLELE.

#[global] Instance HttpParserStage_eq_dec : EqDecision HttpParserStage.
Proof. solve_decision. Defined.

(** [struct HttpMessageInfo]; a new one has no stage yet *)
Record HttpMessageInfo := mk_info {
  mi_stage : option HttpParserStage;
  mi_url : list Z;
  mi_cur_header : list Z;
  mi_body : list Z;
  mi_header : gmap (list Z) (list Z)
}.

Definition new_info : HttpMessageInfo := mk_info None [] [] [] ∅.

Definition stage (s : HttpParserStage) (m : HttpMessageInfo) : HttpMessageInfo :=
  mk_info (Some s) (mi_url m) (mi_cur_header m) (mi_body m) (mi_header m).

(** ** The callbacks *)

(** A callback works on [parser->data]. *)
Definition on_info (f : HttpMessageInfo -> HttpMessageInfo * Z) : http_cb HttpMessageInfo :=
  fun parser => let '(m, r) := f (hp_data parser) in (set_data m parser, r).

Definition on_info_data (f : list Z -> HttpMessageInfo -> HttpMessageInfo * Z)
    : http_data_cb HttpMessageInfo :=
  fun parser bytes => let '(m, r) := f bytes (hp_data parser) in (set_data m parser, r).

Definition onMessageBegin (m : HttpMessageInfo) : HttpMessageInfo * Z :=
  (stage HTTP_ON_MESSAGE_BEGIN m, 0).

Definition onUrl (bytes : list Z) (m : HttpMessageInfo) : HttpMessageInfo * Z :=
  (mk_info (Some HTTP_ON_URL) (mi_url m ++ bytes) (mi_cur_header m) (mi_body m) (mi_header m), 0).

Definition onStatus (bytes : list Z) (m : HttpMessageInfo) : HttpMessageInfo * Z :=
  (stage HTTP_ON_STATUS m, 0).

Definition onHeaderField (bytes : list Z) (m : HttpMessageInfo) : HttpMessageInfo * Z :=
  let cur := if decide (mi_stage m = Some HTTP_ON_HEADER_FIELD) then mi_cur_header m else [] in
  (mk_info (Some HTTP_ON_HEADER_FIELD) (mi_url m) (cur ++ bytes) (mi_body m) (mi_header m), 0).

(** [emplace], or [append(",")] and [append(value)] *)
Definition onHeaderValue (bytes : list Z) (m : HttpMessageInfo) : HttpMessageInfo * Z :=
  let first := negb (bool_decide (mi_stage m = Some HTTP_ON_HEADER_VALUE)) in
  let m := stage HTTP_ON_HEADER_VALUE m in
  if first && bool_decide (mi_cur_header m = []) then (m, -1)
  else
    let value := match mi_header m !! mi_cur_header m with
                 | None => bytes
                 | Some old => old ++ [","%c] ++ bytes
                 end in
    (mk_info (mi_stage m) (mi_url m) (mi_cur_header m) (mi_body m)
       (<[mi_cur_header m := value]> (mi_header m)), 0).

Definition onHeadersComplete (m : HttpMessageInfo) : HttpMessageInfo * Z :=
  (stage HTTP_ON_HEADERS_COMPLELE m, 0).

Definition onBodyCb (bytes : list Z) (m : HttpMessageInfo) : HttpMessageInfo * Z :=
  (mk_info (Some HTTP_ON_BODY) (mi_url m) (mi_cur_header m) (mi_body m ++ bytes) (mi_header m), 0).

Definition onMessageCompleteCb (m : HttpMessageInfo) : HttpMessageInfo * Z :=
  (stage HTTP_ON_MESSAGE_COMPLELE m, 0).

Definition g_parser_settings : http_parser_settings HttpMessageInfo :=
  mk_http_parser_settings
    (Some (on_info onMessageBegin)) (Some (on_info_data onUrl)) (Some (on_info_data onStatus))
    (Some (on_info_data onHeaderField)) (Some (on_info_data onHeaderValue))
    (Some (on_info onHeadersComplete)) (Some (on_info_data onBodyCb))
    (Some (on_info onMessageCompleteCb)) None None.

(** ** [checkHeader] *)

(** The loop over the slices: [nr] bytes are parsed so far; the parser is
    deleted on an error. [None] is a failed assertion of the parser. *)
Fixpoint feed_slices (slices : list (list Z)) (nr : Z) (parser : http_parser HttpMessageInfo)
    : option (EResParseResult * option (http_parser HttpMessageInfo) * Z) :=
  match slices with
  | [] => Some (PARSE_NOT_ENOUGH_DATA, Some parser, nr)
  | data :: slices =>
      if 0 <? zlen data then
        match http_parser_execute parser g_parser_settings data with
        | Failed _ => None
        | Done parser n =>
            let nr := nr + n in
            if negb (bool_decide (hp_http_errno parser = HPE_OK)) then Some (PARSE_ERROR, None, nr)
            else if bool_decide (mi_stage (hp_data parser) = Some HTTP_ON_MESSAGE_COMPLELE)
                 then Some (PARSE_OK, Some parser, nr)
                 else feed_slices slices nr parser
        end
      else feed_slices slices nr parser
  end.

(** [p] is what the connection has kept from the last call. *)
Definition http_checkHeader (p : option (http_parser HttpMessageInfo)) (st : store) (buf : IOBuffer)
    : option (EResParseResult * option (http_parser HttpMessageInfo) * IOBuffer) :=
  let parser := match p with
                | Some parser => parser
                | None => http_parser_init (blank new_info) HTTP_BOTH
                end in
  match feed_slices (slice_bytes st <$> drop (ref_offset buf) (ref buf)) 0 parser with
  | None => None
  | Some (ret, parser, nr) => Some (ret, parser, fst (pop_front nr buf))
  end.

(** ** [deserialize] *)

Record HttpResponse := mk_HttpResponse {
  hr_url : list Z;
  hr_body : list Z;
  hr_header : gmap (list Z) (list Z)
}.

(** [parseHttpResponse]: [setHttpParser] and [deserialize] *)
Definition http_deserialize (parser : option (http_parser HttpMessageInfo)) (r : HttpResponse)
    : EResParseResult * HttpResponse :=
  match parser with
  | None => (PARSE_ERROR, r)
  | Some parser =>
      let info := hp_data parser in
      if bool_decide (mi_stage info = Some HTTP_ON_MESSAGE_COMPLELE)
      then (PARSE_OK, mk_HttpResponse (mi_url info) (mi_body info) (mi_header info))
      else (PARSE_ERROR, r)
  end.

(** ** The callbacks keep to the interface *)

Lemma on_info_frame f h : cb_frame h (fst (on_info f h)).
Proof.
  unfold on_info. destruct (f (hp_data h)) as [m r]. exists m, (hp_http_errno h). split; [|by left].
  by destruct h.
Qed.

Lemma on_info_data_frame f h bytes : cb_frame h (fst (on_info_data f h bytes)).
Proof.
  unfold on_info_data. destruct (f bytes (hp_data h)) as [m r]. exists m, (hp_http_errno h).
  split; [|by left]. by destruct h.
Qed.

#[global] Instance g_parser_settings_wb : WellBehaved g_parser_settings.
Proof.
  split; try (intros f h [= <-]; apply on_info_frame); try done.
  intros [] f h bs [= <-]; apply on_info_data_frame.
Qed.

Lemma feed_slices_ok slices : forall nr parser,
  wf parser -> zlen (concat slices) < 2 ^ 64 ->
  exists ret p' nr', feed_slices slices nr parser = Some (ret, p', nr')
    /\ nr <= nr' <= nr + zlen (concat slices)
    /\ match ret, p' with
       | PARSE_ERROR, None => True
       | PARSE_OK, Some h => wf h /\ mi_stage (hp_data h) = Some HTTP_ON_MESSAGE_COMPLELE
       | PARSE_NOT_ENOUGH_DATA, Some h => wf h
       | _, _ => False
       end.
Proof.
  induction slices as [|data slices IH]; intros nr parser Hwf Hlen.
  { do 3 eexists. split; [reflexivity|]. split; [unfold zlen; cbn; lia|done]. }
  cbn [concat] in *. rewrite zlen_app in *. pose proof (zlen_nonneg data) as Hd.
  pose proof (zlen_nonneg (concat slices)) as Hs. cbn [feed_slices].
  destruct (Z.ltb_spec 0 (zlen data)) as [Hpos|Hz].
  2:{ destruct (IH nr parser Hwf ltac:(lia)) as (ret & p' & nr' & -> & Hb & Hr).
      do 3 eexists. split; [reflexivity|]. split; [lia|done]. }
  destruct (execute_total g_parser_settings parser data Hwf ltac:(lia)) as (h & n & -> & Hwf' & Hn & _).
  case_bool_decide as He; cbn [negb].
  2:{ do 3 eexists. split; [reflexivity|]. split; [lia|done]. }
  case_bool_decide as Hst.
  { do 3 eexists. split; [reflexivity|]. split; [lia|done]. }
  destruct (IH (nr + n) h Hwf' ltac:(lia)) as (ret & p' & nr' & -> & Hb & Hr).
  do 3 eexists. split; [reflexivity|]. split; [lia|done].
Qed.

Lemma concat_slices st buf :
  concat (slice_bytes st <$> drop (ref_offset buf) (ref buf)) = contents st buf.
Proof. unfold contents, to_string. symmetry. apply flat_map_concat_map. Qed.

Lemma http_checkHeader_ok (p : option (http_parser HttpMessageInfo)) (st : store) (buf : IOBuffer) :
  store_ok st -> buf_ok st buf -> zlen (contents st buf) < 2 ^ 64 ->
  (forall parser, p = Some parser -> wf parser) ->
  exists ret p' buf' nr,
    http_checkHeader p st buf = Some (ret, p', buf')
    /\ buf_ok st buf' /\ 0 <= nr <= zlen (contents st buf)
    /\ contents st buf' = drop (Z.to_nat nr) (contents st buf)
    /\ (ret = PARSE_ERROR <-> p' = None)
    /\ (forall parser, p' = Some parser -> wf parser)
    /\ (ret = PARSE_OK -> forall r, fst (http_deserialize p' r) = PARSE_OK).
Proof.
  intros Hst Hbuf Hlen Hp. unfold http_checkHeader. set (parser := match p with Some _ => _ | None => _ end).
  assert (wf parser) as Hwf by (subst parser; destruct p; [by apply Hp|apply init_wf]).
  destruct (feed_slices_ok (slice_bytes st <$> drop (ref_offset buf) (ref buf)) 0 parser Hwf)
    as (ret & p' & nr & -> & Hb & Hr); [by rewrite concat_slices|].
  rewrite concat_slices in Hb. pose proof (io_pop_front_law st buf nr (conj Hst Hbuf) ltac:(lia)) as Hpop.
  destruct (pop_front nr buf) as [buf' size]. destruct Hpop as ([_ Hbuf'] & _ & Hc).
  exists ret, p', buf', nr. split; [done|]. split; [done|]. split; [lia|]. split; [done|].
  destruct ret, p' as [h|]; try done; split_and!; try done; try (by intros ? [= <-]; apply Hr);
    try (by intros ? [= <-]).
  intros _ r. cbn. destruct Hr as [_ ->]. by rewrite bool_decide_eq_true_2.
Qed.

(** Reading a response is safe on every input: whatever a connection
    receives and however it is cut into slices, [checkHeader] returns without a
    failed assertion of the parser, keeps a valid parser for the next call
    exactly when it reports no error, removes from the buffer only bytes it has
    parsed, and reports success only for a complete message, which
    [deserialize] then accepts. *)
Theorem http_check_header_safe (p : option (http_parser HttpMessageInfo)) (st : store) (buf : IOBuffer) :
  store_ok st -> buf_ok st buf -> zlen (contents st buf) < 2 ^ 64 ->
  (forall parser, p = Some parser -> wf parser) ->
  exists ret p' buf' nr,
    http_checkHeader p st buf = Some (ret, p', buf')
    /\ buf_ok st buf' /\ 0 <= nr <= zlen (contents st buf)
    /\ contents st buf' = drop (Z.to_nat nr) (contents st buf)
    /\ (ret = PARSE_ERROR <-> p' = None)
    /\ (forall parser, p' = Some parser -> wf parser)
    /\ (ret = PARSE_OK -> forall r, fst (http_deserialize p' r) = PARSE_OK).
Proof. apply http_checkHeader_ok. Qed.

Definition crlf : list Z := [CR; LF].

(** A response with a one-byte body *)
Definition sample_response (body : string) : list Z :=
  bytes_of_string "HTTP/1.1 200 OK" ++ crlf ++ bytes_of_string "Content-Length: 1" ++ crlf ++ crlf
  ++ bytes_of_string body.

Lemma http_check_header_safe_witness :
  exists ret p' buf' nr,
    http_checkHeader None two_blocks_store clear = Some (ret, p', buf')
    /\ buf_ok two_blocks_store buf' /\ 0 <= nr <= zlen (contents two_blocks_store clear)
    /\ contents two_blocks_store buf' = drop (Z.to_nat nr) (contents two_blocks_store clear)
    /\ (ret = PARSE_ERROR <-> p' = None)
    /\ (forall parser, p' = Some parser -> wf parser)
    /\ (ret = PARSE_OK -> forall r, fst (http_deserialize p' r) = PARSE_OK).
Proof.
  apply (http_check_header_safe None two_blocks_store clear).
  - apply two_blocks_store_ok.
  - split; [constructor|apply le_n].
  - reflexivity.
  - intros parser Hp. discriminate Hp.
Defined.

(** Two responses that arrive in one slice are read as one: the parser
    goes on to the second message before [checkHeader] looks at the stage, so
    the bodies are joined in one response and the second one is lost. *)
Theorem pipelined_responses_merged :
  let '(st, buf) := append (sample_response "a" ++ sample_response "b") two_blocks_store clear in
  exists parser buf',
    http_checkHeader None st buf = Some (PARSE_OK, Some parser, buf')
    /\ contents st buf' = []
    /\ http_deserialize (Some parser) (mk_HttpResponse [] [] ∅)
       = (PARSE_OK, mk_HttpResponse [] (bytes_of_string "ab")
            {[bytes_of_string "Content-Length" := bytes_of_string "1,1"]}).
Proof.
  destruct (append _ _ _) as [st buf] eqn:E. vm_compute in E. injection E as <- <-.
  destruct (http_checkHeader _ _ _) as [[[ret [parser|]] buf']|] eqn:Ec; vm_compute in Ec; try discriminate Ec.
  injection Ec as <- <- <-. do 2 eexists. split; [reflexivity|]. split; vm_compute; reflexivity.
Qed.
