(* ===== verification/Socket.v ===== *)
(** * Sockets (src/tcp/socket.h, src/tcp/socket.cpp)

    [Socket]: writing a request to the descriptor, and the read event, which
    appends what the descriptor holds to the read buffer, cuts complete
    responses out of it through the bound protocol, hands each one to the
    session that waits for it, and reclaims the sessions nobody refers to any
    more. What the system calls answer, what the clock reads and which element
    [unordered_map::begin] names are arguments. The sessions are those of
    Session; here the reading thread runs its part of them without the others
    stepping in. *)

From stdpp Require Import gmap.
From S2P Require Import Prelude CommonDefines ByteBuffer IoBuffer IoBufferProps IoBufferFd.
From S2P Require Import LifeCycleLock Session Bolt BoltResponse.
From S2P Require Import HttpDefs HttpResponse.

(** ** Protocols *)

Inductive EProtocolType : Set := PROTOCOL_BOLT | PROTOCOL_HTTP.

(** [struct Protocol], as far as reading needs it; [D] is the type of the
    additional data, [R] that of the responses. [p_parse] is
    [parse_protocol_fn]: it answers the result, the response size, the request
    id, the additional data and the buffer. [p_parse_response] is
    [parse_response_fn]: it fills a response from the buffer and the additional
    data of a session. [None] is a failed assertion. *)
Record Protocol (D R : Type) : Type := mk_Protocol {
  p_type : EProtocolType;
  p_parse : option D -> store -> IOBuffer -> option (EResParseResult * Z * Z * option D * IOBuffer);
  p_parse_response : R -> option D -> store -> IOBuffer -> option (EResParseResult * R * IOBuffer)
}.
#[global] Arguments mk_Protocol {D R}.
#[global] Arguments p_type {D R}.
#[global] Arguments p_parse {D R}.
#[global] Arguments p_parse_response {D R}.

(** [parseBoltProtocol] leaves the buffer and the additional data alone. *)
Definition bolt_protocol {D Msg} (pb_parse : list Z -> option (Msg * Z)) : Protocol D (BoltResponse Msg) :=
  mk_Protocol PROTOCOL_BOLT
    (fun d st buf =>
       let '(ret, out) := parseBoltProtocol st buf in
       let '(size, id) := default (0, 0) out in
       Some (ret, size, id, d, buf))
    (fun response _ st buf => parseBoltResponse pb_parse response st buf).

(** [parseHttpProtocol] sets the response size to 0 and does not set the id;
    [parseHttpResponse] reads the message the parser has collected. *)
Definition http_protocol : Protocol (http_parser HttpMessageInfo) HttpResponse :=
  mk_Protocol PROTOCOL_HTTP
    (fun d st buf =>
       match http_checkHeader d st buf with
       | Some (ret, d, buf) => Some (ret, 0, 0, d, buf)
       | None => None
       end)
    (fun response d _ buf => let '(ret, response) := http_deserialize d response in Some (ret, response, buf)).

(** ** Sessions and sockets *)

(** [struct SocketReadSession]; [r_sync]: there is no callback. The result of a
    synchronous session, or what the callback of another one was called with,
    is in [r_life]. *)
Record read_session (D R : Type) : Type := mk_read_session {
  r_request_id : Z;
  r_request_time : Z;
  r_sync : bool;
  r_life : session;
  r_read_buf : IOBuffer;
  r_data : option D;
  r_response : option R
}.
#[global] Arguments mk_read_session {D R}.
#[global] Arguments r_request_id {D R}.
#[global] Arguments r_request_time {D R}.
#[global] Arguments r_sync {D R}.
#[global] Arguments r_life {D R}.
#[global] Arguments r_read_buf {D R}.
#[global] Arguments r_data {D R}.
#[global] Arguments r_response {D R}.

(** [class Socket], the reading side; [sk_ticks] counts the readings of the
    clock *)
Record socket (D R : Type) : Type := mk_socket {
  sk_status : ERpcStatus;
  sk_read_buf : IOBuffer;
  sk_session_info : list (read_session D R);
  sk_session_map : gmap Z (read_session D R);
  sk_last_active_time_us : Z;
  sk_read_additional_data : option D;
  sk_ticks : nat
}.
#[global] Arguments mk_socket {D R}.
#[global] Arguments sk_status {D R}.
#[global] Arguments sk_read_buf {D R}.
#[global] Arguments sk_session_info {D R}.
#[global] Arguments sk_session_map {D R}.
#[global] Arguments sk_last_active_time_us {D R}.
#[global] Arguments sk_read_additional_data {D R}.
#[global] Arguments sk_ticks {D R}.

Definition setStatus {D R} (s : ERpcStatus) (sk : socket D R) : socket D R :=
  mk_socket s (sk_read_buf sk) (sk_session_info sk) (sk_session_map sk)
    (sk_last_active_time_us sk) (sk_read_additional_data sk) (sk_ticks sk).

Definition set_read_buf {D R} (b : IOBuffer) (sk : socket D R) : socket D R :=
  mk_socket (sk_status sk) b (sk_session_info sk) (sk_session_map sk)
    (sk_last_active_time_us sk) (sk_read_additional_data sk) (sk_ticks sk).

Definition active {D R} (sk : socket D R) : bool := bool_decide (sk_status sk = RPC_STATUS_OK).

(** [notify(SESSION_OK)] run to its end: at most six steps; [parsed] is what
    parsing the response answers, when an asynchronous session has one to fill *)
Fixpoint notify_loop (fuel : nat) (sync : bool) (parsed : option EResParseResult) (s : session) : session :=
  match fuel with
  | O => s
  | S fuel =>
      match response_step sync parsed s with
      | Some s => match se_reader s with R_notify _ => notify_loop fuel sync parsed s | _ => s end
      | None => s
      end
  end.

Definition notify (sync : bool) (parsed : option EResParseResult) (s : session) : session :=
  notify_loop 6 sync parsed s.

(** The guards of [notify]: [tryShared], then [tryUpgradeNonReEntrant] *)
Definition gains_upgrade (s : session) : bool :=
  let '(shared, owners) := tryShared (se_owners s) in
  shared && fst (tryUpgradeNonReEntrant owners).

(** ** Writing *)

Definition EINTR : Z := 4.
Definition EAGAIN : Z := 11.

(** The loop of [Socket::write] over what [writev] answers: the count, or -1
    with [errno]; [cur_size] is a [size_t]. The bytes that reached the
    descriptor are the first component. [None]: [cut_into_file_descriptor] is
    called without a slice, or the answers end before the loop does. *)
Fixpoint write_loop (answers : list (Z * Z)) (cur_size buffer_size : Z) (st : store) (buf : IOBuffer)
    : option (list Z * IOBuffer * bool) :=
  if cur_size <? buffer_size then
    match answers with
    | [] => None
    | (nw, errno) :: answers =>
        match cut_into_file_descriptor buffer_size nw st buf with
        | None => None
        | Some (offered, buf, nw) =>
            if (nw <? 0) && negb (errno =? EAGAIN) then Some ([], buf, false)
            else
              match write_loop answers (u64 (cur_size + nw)) buffer_size st buf with
              | Some (sent, buf, ret) => Some (take (Z.to_nat nw) offered ++ sent, buf, ret)
              | None => None
              end
        end
    end
  else Some ([], buf, true).

(** [Socket::write]; the status is that of the socket afterwards. *)
Definition write {D R} (answers : list (Z * Z)) (timeout_ms : Z) (st : store) (buf : IOBuffer) (sk : socket D R)
    : option (list Z * IOBuffer * socket D R * bool) :=
  if timeout_ms <? 0 then Some ([], buf, sk, false)
  else if length_ buf <=? 0 then Some ([], buf, sk, false)
  else
    match write_loop answers 0 (length_ buf) st buf with
    | Some (sent, buf, true) => Some (sent, buf, sk, true)
    | Some (sent, buf, false) => Some (sent, buf, setStatus RPC_STATUS_SOCKET_WRITE_ERROR sk, false)
    | None => None
    end.

(** ** Reading *)

Section Reading.
Context {D R : Type} (protocol : Protocol D R) (clock : nat -> Z)
  (map_begin : gmap Z (read_session D R) -> option Z).
Implicit Types (sk : socket D R) (s : read_session D R) (m : gmap Z (read_session D R)).

(** [Utils::getHighPrecisionTimeStamp] *)
Definition now (sk : socket D R) : Z * socket D R :=
  (clock (sk_ticks sk),
   mk_socket (sk_status sk) (sk_read_buf sk) (sk_session_info sk) (sk_session_map sk)
     (sk_last_active_time_us sk) (sk_read_additional_data sk) (S (sk_ticks sk))).

(** The loop over [_session_info]: [emplace] keeps an entry that is there. *)
Fixpoint collect_sessions (begin_time : Z) (info : list (read_session D R)) (m : gmap Z (read_session D R))
    : list (read_session D R) * gmap Z (read_session D R) :=
  match info with
  | [] => ([], m)
  | s :: info =>
      let m := match m !! r_request_id s with
               | Some _ => m
               | None => <[r_request_id s := s]> m
               end in
      if begin_time <=? r_request_time s then (info, m) else collect_sessions begin_time info m
  end.

(** What the session gets: the bytes, the additional data, and the notification.
    When an asynchronous session is the one to be notified, [postProcess] fills
    its response from its buffer before the callback is called. *)
Definition deliver (st : store) (buf : IOBuffer) (data : option D) (s : read_session D R)
    : option (read_session D R) :=
  let session life := mk_read_session (r_request_id s) (r_request_time s) (r_sync s) life in
  match r_response s with
  | Some response =>
      if negb (r_sync s) && gains_upgrade (r_life s) then
        match p_parse_response protocol response data st buf with
        | Some (ret, response, buf) =>
            Some (session (notify (r_sync s) (Some ret) (r_life s)) buf data (Some response))
        | None => None
        end
      else Some (session (notify (r_sync s) None (r_life s)) buf data (Some response))
  | None => Some (session (notify (r_sync s) None (r_life s)) buf data None)
  end.

(** [cutIntoMessage]: 0 when there is no complete response, -1 on an error,
    otherwise the request id *)
Definition cutIntoMessage (st : store) (sk : socket D R) : option (Z * socket D R) :=
  if length_ (sk_read_buf sk) =? 0 then Some (0, sk)
  else
    match p_parse protocol (sk_read_additional_data sk) st (sk_read_buf sk) with
    | None => None
    | Some (ret, response_size, receive_request_id, data, buf) =>
        let sk := mk_socket (sk_status sk) buf (sk_session_info sk) (sk_session_map sk)
                    (sk_last_active_time_us sk) data (sk_ticks sk) in
        match ret with
        | PARSE_NOT_ENOUGH_DATA => Some (0, sk)
        | PARSE_ERROR => Some (-1, setStatus RPC_STATUS_SOCKET_READ_ERROR sk)
        | PARSE_OK =>
            let '(active_time, sk) := now sk in
            let '(begin_time, sk) := now sk in
            let '(info, m) := collect_sessions begin_time (sk_session_info sk) (sk_session_map sk) in
            let itr := match p_type protocol with
                       | PROTOCOL_HTTP => map_begin m
                       | PROTOCOL_BOLT => Some receive_request_id
                       end in
            match itr ≫= fun id => pair id <$> m !! id with
            | None =>
                let '(buf, _) := pop_front response_size (sk_read_buf sk) in
                Some (receive_request_id,
                      mk_socket (sk_status sk) buf info m active_time data (sk_ticks sk))
            | Some (id, s) =>
                let '(buf, out, _) := cut_buffer response_size (sk_read_buf sk) (r_read_buf s) in
                match deliver st out data s with
                | None => None
                | Some s =>
                    Some (receive_request_id,
                          mk_socket (sk_status sk) buf info (<[id := s]> m) active_time None (sk_ticks sk))
                end
            end
        end
    end.

(** [while (true) { ... cutIntoMessage() ... }]: ends when it answers 0 or
    less *)
Fixpoint cut_messages (fuel : nat) (st : store) (sk : socket D R) : option (Z * socket D R) :=
  match fuel with
  | O => None
  | S fuel =>
      match cutIntoMessage st sk with
      | None => None
      | Some (id, sk) => if id <=? 0 then Some (id, sk) else cut_messages fuel st sk
      end
  end.

(** What one call of [readv] does: the bytes it stores, what it returns and
    [errno] *)
Record readv := mk_readv { rd_input : list Z; rd_nr : Z; rd_errno : Z }.

(** One round of the loop of [onRead]: [true] when the loop goes on *)
Definition read_round (r : readv) (st : store) (sk : socket D R) : option (bool * store * socket D R) :=
  match append_from_file_descriptor (rd_input r) (rd_nr r) 4096 st (sk_read_buf sk) with
  | None => None
  | Some (st, buf, nr) =>
      let sk := set_read_buf buf sk in
      if (nr <? 0) && (rd_errno r =? EINTR) then Some (true, st, sk)
      else if (nr <? 0) && (rd_errno r =? EAGAIN) then Some (false, st, sk)
      else if nr <? 0 then Some (false, st, setStatus RPC_STATUS_SOCKET_READ_ERROR sk)
      else
        let read_eof := nr =? 0 in
        let sk := if read_eof then setStatus RPC_STATUS_SOCKET_CLOSED_BY_SERVER sk else sk in
        match cut_messages (S (Z.to_nat (length_ (sk_read_buf sk)))) st sk with
        | None => None
        | Some (id, sk) => Some (negb ((id <? 0) || read_eof), st, sk)
        end
  end.

(** [while (!read_eof)]: after the last answer the descriptor has no more data
    and [readv] answers [EAGAIN]. *)
Fixpoint read_loop (reads : list readv) (st : store) (sk : socket D R) : option (store * socket D R) :=
  match reads with
  | [] => Some (st, sk)
  | r :: reads =>
      match read_round r st sk with
      | None => None
      | Some (true, st, sk) => read_loop reads st sk
      | Some (false, st, sk) => Some (st, sk)
      end
  end.

(** [tryReclaimSessionMap] *)
Definition reclaim (s : read_session D R) : option (read_session D R) :=
  match reclaim_step (r_life s) with
  | Some life =>
      if se_alive life
      then Some (mk_read_session (r_request_id s) (r_request_time s) (r_sync s) life (r_read_buf s) (r_data s) (r_response s))
      else None
  | None => Some s
  end.

Definition tryReclaimSessionMap (sk : socket D R) : socket D R :=
  mk_socket (sk_status sk) (sk_read_buf sk) (sk_session_info sk) (omap reclaim (sk_session_map sk))
    (sk_last_active_time_us sk) (sk_read_additional_data sk) (sk_ticks sk).

End Reading.

(** [onRead]; the protocol may be missing *)
Definition onRead {D R} (protocol : option (Protocol D R)) (clock : nat -> Z)
    (map_begin : gmap Z (read_session D R) -> option Z) (reads : list readv) (st : store) (sk : socket D R)
    : option (store * socket D R) :=
  match protocol with
  | None => Some (st, setStatus RPC_STATUS_SOCKET_READ_ERROR sk)
  | Some protocol =>
      match (if active sk then read_loop protocol clock map_begin reads st sk else Some (st, sk)) with
      | Some (st, sk) => Some (st, tryReclaimSessionMap sk)
      | None => None
      end
  end.

(** ** Views of a socket *)

Section Views.
Context {D R : Type}.
Implicit Types (sk : socket D R) (s : read_session D R).

(** The sessions a socket knows: those of the map, and those still in the
    queue, the first one with an id winning *)
Definition pending (info : list (read_session D R)) : gmap Z (read_session D R) :=
  list_to_map ((fun s => (r_request_id s, s)) <$> info).

Definition sessions (sk : socket D R) : gmap Z (read_session D R) :=
  sk_session_map sk ∪ pending (sk_session_info sk).

Lemma sessions_map sk : sk_session_info sk = [] -> sessions sk = sk_session_map sk.
Proof. intros Hs. unfold sessions. rewrite Hs. apply map_union_empty. Qed.

(** What there is to see of a session: whether it is synchronous, its life, the
    bytes it holds, and its response *)
Definition session_view (st : store) (s : read_session D R) : bool * session * list Z * option R :=
  (r_sync s, r_life s, contents st (r_read_buf s), r_response s).

Definition view (st : store) (sk : socket D R) : gmap Z (bool * session * list Z * option R) :=
  session_view st <$> sessions sk.

Record socket_ok (st : store) (sk : socket D R) : Prop := {
  sko_store : store_ok st;
  sko_read_buf : buf_ok st (sk_read_buf sk);
  sko_map : map_Forall (fun _ s => buf_ok st (r_read_buf s)) (sk_session_map sk);
  sko_info : Forall (fun s => buf_ok st (r_read_buf s)) (sk_session_info sk)
}.

Lemma sko_sessions st sk : socket_ok st sk -> map_Forall (fun _ s => buf_ok st (r_read_buf s)) (sessions sk).
Proof.
  intros [_ _ Hm Hi] i s Hs. apply lookup_union_Some_raw in Hs as [Hs|[_ Hs]]; [by apply (Hm i)|].
  apply elem_of_list_to_map_2 in Hs. apply list_elem_of_fmap in Hs as (s0 & Heq & Hin). simplify_eq.
  rewrite List.Forall_forall in Hi. apply Hi. by apply list_elem_of_In.
Qed.

(** The requests in the queue were sent before any response is read. *)
Definition timely (clock : nat -> Z) (sk : socket D R) : Prop :=
  Forall (fun s => forall n, r_request_time s < clock n) (sk_session_info sk).

End Views.

(** The specification over bytes. A response is appended to what its session
    holds. An asynchronous session that is notified with it, and has a response
    to fill, parses these bytes, keeps what the parser leaves, and its callback
    is called with the outcome; every other session keeps the bytes and is
    notified with success. *)
Definition spec_session {Msg} (pb_parse : list Z -> option (Msg * Z)) (bytes : list Z)
    (v : bool * session * list Z * option (BoltResponse Msg)) : bool * session * list Z * option (BoltResponse Msg) :=
  let '(sync, life, got, response) := v in
  let got := got ++ bytes in
  let kept := (sync, notify sync None life, got, response) in
  if negb sync && gains_upgrade life then
    match response ≫= fun r => parseBoltResponse pb_parse r 0 got with
    | Some (ret, r, rest) => (sync, notify sync (Some ret) life, rest, Some r)
    | None => kept
    end
  else kept.

Definition spec_deliver {Msg} (pb_parse : list Z -> option (Msg * Z))
    (m : gmap Z (bool * session * list Z * option (BoltResponse Msg))) (r : Z * list Z) :
    gmap Z (bool * session * list Z * option (BoltResponse Msg)) :=
  alter (spec_session pb_parse r.2) r.1 m.

(** A response of the Bolt protocol with a request id *)
Definition is_response (r : Z * list Z) : Prop :=
  exists h cls entries content,
    frame_ok h cls entries content
    /\ h_class_len h + h_header_len h + h_content_len h <= MAX_BOLT_BODY_SIZE
    /\ r.2 = response_frame h cls entries content /\ r.1 = h_request_id h /\ 0 < r.1.

(** The beginning of a response, without its end *)
Definition incomplete (bytes : list Z) : Prop :=
  exists r x rest, is_response r /\ r.2 = bytes ++ x :: rest.

Lemma response_length r : is_response r -> 20 <= zlen r.2.
Proof.
  intros (h & cls & entries & content & _ & _ & -> & _). unfold response_frame.
  rewrite zlen_app, zlen_response_header. pose proof (zlen_nonneg (cls ++ kv_bytes entries ++ content)). lia.
Qed.

Lemma incomplete_prefix p q : incomplete (p ++ q) -> incomplete p.
Proof.
  intros (r & x & rest & Hr & Heq). rewrite <- app_assoc in Heq.
  destruct q as [|y q]; [by exists r, x, rest|]. by exists r, y, (q ++ x :: rest).
Qed.

(** A response is not the beginning of another one: its header tells its
    length. *)
Lemma response_not_prefix r r' x rest : is_response r -> is_response r' -> r'.2 = r.2 ++ x :: rest -> False.
Proof.
  intros (h & cls & entries & content & Hf & Hmax & Hb & _) (h' & cls' & entries' & content' & Hf' & Hmax' & Hb' & _) Heq.
  rewrite Hb, Hb' in Heq.
  pose proof (checkHeader_frame 0 (r.2 : list Z) h cls entries content [] (length r.2) Hf Hmax I) as Hc.
  pose proof (checkHeader_frame 0 (r.2 : list Z) h' cls' entries' content' [] (length r.2) Hf' Hmax' I) as Hc'.
  rewrite app_nil_r, <- Hb in Hc. rewrite app_nil_r, Heq, <- Hb in Hc'. cbv zeta in Hc, Hc'.
  rewrite firstn_all in Hc. rewrite take_app_length in Hc'.
  rewrite (proj2 (Z.ltb_ge _ _)) in Hc by done.
  rewrite (proj2 (Z.ltb_lt _ _)) in Hc' by (unfold zlen; rewrite length_app; cbn; lia).
  specialize (Hc eq_refl). specialize (Hc' eq_refl). by rewrite Hc in Hc'.
Qed.

(** A prefix of a stream of responses ends inside one of them. *)
Lemma stream_prefix frames tail : forall p q,
  Forall is_response frames -> incomplete tail ->
  p ++ q = concat frames.*2 ++ tail ->
  exists frames1 frames2 t, frames = frames1 ++ frames2 /\ p = concat frames1.*2 ++ t
    /\ incomplete t /\ t ++ q = concat frames2.*2 ++ tail.
Proof.
  induction frames as [|f frames IH]; intros p q Hf Ht Heq.
  - exists [], [], p. split_and!; try done. cbn in Heq. subst tail. by eapply incomplete_prefix.
  - inversion_clear Hf as [|? ? Hf1 Hfs]. cbn in Heq. rewrite <- app_assoc in Heq.
    apply app_eq_inv in Heq as [(k & -> & Hk)|(k & Hf & Hq)].
    + destruct (IH k q Hfs Ht (eq_sym Hk)) as (f1 & f2 & t & -> & -> & Hin & Hrest).
      exists (f :: f1), f2, t. split_and!; try done. cbn. by rewrite <- app_assoc.
    + destruct k as [|x k].
      * rewrite app_nil_r in Hf. cbn in Hq. destruct (IH [] q Hfs Ht Hq) as (f1 & f2 & t & -> & Hnil & Hin & Hrest).
        exists (f :: f1), f2, t. split_and!; try done. cbn. by rewrite <- app_assoc, <- Hnil, app_nil_r, Hf.
      * exists [], (f :: frames), p. split_and!; try done.
        -- by exists f, x, k.
        -- cbn. rewrite Hq, Hf, <- !app_assoc. done.
Qed.

Lemma stream_length frames : Forall is_response frames ->
  (length frames <= length (concat frames.*2))%nat.
Proof.
  induction 1 as [|f frames Hf _ IH]; [done|]. apply response_length in Hf.
  cbn. rewrite length_app. unfold zlen in Hf. lia.
Qed.

(** ** One message *)

Section Delivery.
Context {D Msg : Type} (pb_parse : list Z -> option (Msg * Z)) (clock : nat -> Z) (map_begin : gmap Z (read_session D (BoltResponse Msg)) -> option Z).
Implicit Types (sk : socket D (BoltResponse Msg)) (s : read_session D (BoltResponse Msg)) (m : gmap Z (read_session D (BoltResponse Msg))).

Lemma pending_emplace s info m :
  match m !! r_request_id s with Some _ => m | None => <[r_request_id s := s]> m end ∪ pending info
  = m ∪ pending (s :: info).
Proof.
  change (m ∪ pending (s :: info)) with (m ∪ <[r_request_id s := s]> (pending info)).
  destruct (m !! r_request_id s) as [s0|] eqn:Em.
  - apply map_eq. intros i. rewrite !lookup_union. destruct (decide (i = r_request_id s)) as [->|Hne].
    + rewrite Em, lookup_insert_eq. by destruct (pending info !! r_request_id s).
    + by rewrite lookup_insert_ne.
  - by rewrite <- insert_union_l, insert_union_r.
Qed.

Lemma collect_all t info m :
  Forall (fun s => r_request_time s < t) info ->
  collect_sessions t info m = ([], m ∪ pending info).
Proof.
  revert m. induction info as [|s info IH]; intros m Hi.
  { cbn. by rewrite map_union_empty. }
  inversion_clear Hi as [|? ? Hs Hr]. cbn [collect_sessions].
  rewrite (proj2 (Z.leb_gt _ _)) by done. by rewrite IH, pending_emplace.
Qed.

Lemma bolt_parse_frame st sk r rest :
  socket_ok st sk -> is_response r -> contents st (sk_read_buf sk) = r.2 ++ rest ->
  p_parse (bolt_protocol pb_parse) (sk_read_additional_data sk) st (sk_read_buf sk)
  = Some (PARSE_OK, zlen r.2, r.1, sk_read_additional_data sk, sk_read_buf sk).
Proof.
  intros Hok (h & cls & entries & content & Hf & Hmax & Hb & Hid & _) Hc.
  pose proof (checkHeader_frame st (sk_read_buf sk) h cls entries content rest
    (length (r.2 ++ rest)) Hf Hmax) as Hch.
  cbn [p_parse bolt_protocol]. unfold parseBoltProtocol.
  rewrite <- Hb, firstn_all in Hch. cbv zeta in Hch. rewrite (proj2 (Z.ltb_ge _ _)) in Hch.
  - rewrite Hch; [|split; apply Hok|done]. by rewrite Hid.
  - unfold zlen. rewrite length_app. lia.
Qed.

Lemma bolt_parse_incomplete st sk :
  socket_ok st sk -> incomplete (contents st (sk_read_buf sk)) ->
  cutIntoMessage (bolt_protocol pb_parse) clock map_begin st sk = Some (0, sk).
Proof.
  intros Hok (r & x & rest & (h & cls & entries & content & Hf & Hmax & Hb & Hid & _) & Heq).
  pose proof (checkHeader_frame st (sk_read_buf sk) h cls entries content []
    (length (contents st (sk_read_buf sk))) Hf Hmax) as Hch.
  unfold cutIntoMessage. case_if; [done|]. cbn [p_parse bolt_protocol]. unfold parseBoltProtocol.
  rewrite <- Hb, app_nil_r in Hch. cbv zeta in Hch. rewrite (proj2 (Z.ltb_lt _ _)) in Hch.
  - rewrite Heq, take_app_length in Hch.
    specialize (Hch ltac:(split; apply Hok) eq_refl).
    destruct (checkHeader st (sk_read_buf sk)) as [ret out]. cbn in Hch. subst ret.
    destruct (default (0, 0) out). by destruct sk.
  - rewrite Heq. unfold zlen. rewrite length_app. cbn. lia.
Qed.

(** What a session gets, over bytes *)
Lemma deliver_session st out d s bytes :
  store_ok st -> buf_ok st out -> contents st out = contents st (r_read_buf s) ++ bytes ->
  exists s', deliver (bolt_protocol pb_parse) st out d s = Some s' /\ buf_ok st (r_read_buf s')
    /\ session_view st s' = spec_session pb_parse bytes (session_view st s).
Proof.
  intros Hst Hout Hc. unfold deliver, spec_session, session_view. cbn [p_parse_response bolt_protocol].
  rewrite <- Hc. unfold parseBoltResponse. assert (bb_ok st out) as Hbb by by split.
  destruct (deserialize_reference pb_parse (default (new_BoltResponse RS_NONE) (r_response s)) st out Hbb)
    as (ret & r' & b' & Hrun & [_ Hb'] & Href).
  destruct (r_response s) as [response|].
  2:{ eexists. split; [reflexivity|]. split; [done|]. by destruct (negb _ && _). }
  change (default _ (Some response)) with response in Hrun, Href. destruct (negb (r_sync s) && gains_upgrade (r_life s)).
  - rewrite Hrun. cbn [mbind option_bind]. change (contents st out) with (bb_contents st out). rewrite Href.
    eexists. split; [reflexivity|]. by split.
  - eexists. split; [reflexivity|]. by split.
Qed.

(** The sessions after all of the queue has been collected *)
Lemma deliver_view st sk r m :
  socket_ok st sk ->
  match sessions sk !! r.1 with
  | Some s => exists s', m = <[r.1 := s']> (sessions sk) /\ buf_ok st (r_read_buf s')
                         /\ session_view st s' = spec_session pb_parse r.2 (session_view st s)
  | None => m = sessions sk
  end ->
  map_Forall (fun _ s => buf_ok st (r_read_buf s)) m
  /\ session_view st <$> m = spec_deliver pb_parse (view st sk) r.
Proof.
  intros Hok Hm. unfold spec_deliver, view. destruct (sessions sk !! r.1) as [s|] eqn:Es.
  - destruct Hm as (s' & -> & Ho & Hv). split.
    + apply map_Forall_insert_2; [done|]. by apply sko_sessions.
    + rewrite fmap_insert. apply map_eq. intros i. destruct (decide (i = r.1)) as [->|Hne].
      * by rewrite lookup_insert_eq, lookup_alter_eq, lookup_fmap, Es, Hv.
      * by rewrite lookup_insert_ne, lookup_alter_ne.
  - subst m. split; [by apply sko_sessions|]. symmetry. apply alter_id. intros v Hv. rewrite lookup_fmap, Es in Hv. done.
Qed.

Lemma cut_one st sk r rest :
  socket_ok st sk -> timely clock sk -> is_response r -> contents st (sk_read_buf sk) = r.2 ++ rest ->
  exists sk', cutIntoMessage (bolt_protocol pb_parse) clock map_begin st sk = Some (r.1, sk')
    /\ socket_ok st sk' /\ timely clock sk' /\ contents st (sk_read_buf sk') = rest
    /\ view st sk' = spec_deliver pb_parse (view st sk) r /\ sk_status sk' = sk_status sk.
Proof.
  intros Hok Htime Hr Hc. pose proof (response_length r Hr) as Hlen.
  pose proof (sko_store _ _ Hok) as Hst. pose proof (sko_read_buf _ _ Hok) as Hbuf.
  assert (length_ (sk_read_buf sk) = zlen r.2 + zlen rest) as Hsize.
  { rewrite (length_contents st) by done. by rewrite Hc, zlen_app. }
  unfold cutIntoMessage. rewrite (proj2 (Z.eqb_neq _ _)) by (pose proof (zlen_nonneg rest); lia).
  rewrite (bolt_parse_frame st sk r rest) by done. cbn [now sk_session_info sk_session_map sk_ticks].
  rewrite collect_all.
  2: { eapply Forall_impl; [|exact Htime]. cbn. intros s Hs. apply Hs. }
  change (sk_session_map sk ∪ pending (sk_session_info sk)) with (sessions sk).
  cbn [p_type bolt_protocol mbind option_bind sk_read_buf sk_status].
  pose proof (io_pop_front_law st (sk_read_buf sk) (zlen r.2) (conj Hst Hbuf) ltac:(lia)) as Hpop.
  destruct (sessions sk !! r.1) as [s|] eqn:Es; cbn [fmap option_fmap option_map].
  - pose proof (cut_buffer_ok st (sk_read_buf sk) (r_read_buf s) (zlen r.2) Hst Hbuf
      (sko_sessions _ _ Hok _ _ Es) ltac:(lia)) as Hcut.
    destruct (cut_buffer _ _ _) as [[buf out] n]. destruct Hcut as (Hb & Ho & _ & Hco & Hcb).
    unfold zlen in Hco, Hcb. rewrite Nat2Z.id, Hc in Hco, Hcb.
    rewrite take_app_length in Hco. rewrite drop_app_length in Hcb.
    destruct (deliver_session st out (sk_read_additional_data sk) s r.2 Hst Ho Hco) as (s' & -> & Hbs' & Hvs).
    destruct (deliver_view st sk r (<[r.1 := s']> (sessions sk)) Hok) as [Hm Hv].
    { rewrite Es. by exists s'. }
    eexists. split; [reflexivity|].
    split_and!; [split; [done|done|done|constructor]|exact (List.Forall_nil _)|done| |done].
    unfold view. by rewrite sessions_map.
  - destruct (pop_front (zlen r.2) (sk_read_buf sk)) as [buf n]. destruct Hpop as ((_ & Hb) & _ & Hcb).
    unfold zlen in Hcb. rewrite Nat2Z.id, Hc, drop_app_length in Hcb.
    destruct (deliver_view st sk r (sessions sk) Hok) as [Hm Hv]; [by rewrite Es|].
    eexists. split; [reflexivity|].
    split_and!; [split; [done|done|done|constructor]|exact (List.Forall_nil _)|done| |done].
    unfold view. by rewrite sessions_map.
Qed.

Lemma cut_stream st : forall frames fuel sk t,
  socket_ok st sk -> timely clock sk -> Forall is_response frames -> incomplete t ->
  contents st (sk_read_buf sk) = concat frames.*2 ++ t -> (length frames < fuel)%nat ->
  exists sk', cut_messages (bolt_protocol pb_parse) clock map_begin fuel st sk = Some (0, sk')
    /\ socket_ok st sk' /\ timely clock sk' /\ contents st (sk_read_buf sk') = t
    /\ view st sk' = foldl (spec_deliver pb_parse) (view st sk) frames /\ sk_status sk' = sk_status sk.
Proof.
  induction frames as [|r frames IH]; intros [|fuel] sk t Hok Htime Hf Ht Hc Hfuel; cbn in Hfuel; try lia.
  - cbn in Hc. cbn [cut_messages]. rewrite bolt_parse_incomplete by (done || by rewrite Hc).
    exists sk. by split_and!.
  - inversion_clear Hf as [|? ? Hr Hfs]. cbn in Hc. rewrite <- app_assoc in Hc.
    destruct (cut_one st sk r _ Hok Htime Hr Hc) as (sk1 & Hcut & Hok1 & Ht1 & Hc1 & Hv1 & Hs1).
    cbn [cut_messages]. rewrite Hcut. assert (0 < r.1) as Hid by (by destruct Hr as (?&?&?&?&_&_&_&_&?)).
    rewrite (proj2 (Z.leb_gt _ _)) by done.
    destruct (IH fuel sk1 t Hok1 Ht1 Hfs Ht Hc1) as (sk2 & Hrun & Hok2 & Ht2 & Hc2 & Hv2 & Hs2); [lia|].
    exists sk2. split_and!; try done; [|by rewrite Hs2]. cbn [foldl]. by rewrite Hv2, Hv1.
Qed.

End Delivery.

(** ** The read event *)

Section Read_event.
Context {D R : Type} (clock : nat -> Z) (map_begin : gmap Z (read_session D R) -> option Z).
Implicit Types (sk : socket D R).

(** What [readv] documents: it stores no more than it is offered, and returns
    the number of bytes or -1. *)
Definition readv_ok (r : readv) (st : store) : Prop :=
  (rd_nr r = zlen (rd_input r) \/ rd_nr r = -1 /\ rd_input r = [])
  /\ zlen (rd_input r) <= iov_space 4096 st.

(** ... each time [onRead] calls it *)
Fixpoint reads_ok (protocol : Protocol D R) (reads : list readv) (st : store) (sk : socket D R) : Prop :=
  match reads with
  | [] => True
  | r :: reads =>
      readv_ok r st
      /\ match read_round protocol clock map_begin r st sk with
         | Some (true, st, sk) => reads_ok protocol reads st sk
         | _ => True
         end
  end.

(** The descriptor has data, or the call is interrupted. *)
Definition data_or_interrupt (r : readv) : Prop :=
  0 < rd_nr r \/ rd_nr r = -1 /\ rd_errno r = EINTR.

Lemma socket_grow st st' buf sk :
  store_ok st' -> buf_ok st' buf -> socket_ok st sk ->
  (forall other, buf_ok st other -> buf_ok st' other /\ contents st' other = contents st other) ->
  socket_ok st' (set_read_buf buf sk) /\ view st' (set_read_buf buf sk) = view st sk.
Proof.
  intros Hst Hbuf Hok Hgrow. split.
  - split; [done|done| |].
    + intros i s Hs. apply Hgrow. by apply (sko_map _ _ Hok i s).
    + eapply Forall_impl; [|exact (sko_info _ _ Hok)]. intros s Hs. by apply Hgrow.
  - unfold view. change (sessions (set_read_buf buf sk)) with (sessions sk).
    apply map_fmap_ext. intros i s Hs. unfold session_view.
    destruct (Hgrow (r_read_buf s)) as [_ ->]; [by apply (sko_sessions _ _ Hok i s)|done].
Qed.

Lemma read_append st sk r :
  socket_ok st sk -> readv_ok r st ->
  exists st' buf res, append_from_file_descriptor (rd_input r) (rd_nr r) 4096 st (sk_read_buf sk)
      = Some (st', buf, res)
    /\ (res = rd_nr r \/ res = -1 /\ rd_input r = [])
    /\ socket_ok st' (set_read_buf buf sk) /\ view st' (set_read_buf buf sk) = view st sk
    /\ contents st' buf = contents st (sk_read_buf sk) ++ rd_input r.
Proof.
  intros Hok [Hnr Hfit].
  destruct (append_from_fd_ok st (sk_read_buf sk) (rd_input r) (rd_nr r) 4096)
    as (st' & buf & res & Hrun & Hst & Hbuf & Hres & Hc & Hgrow); try done; try apply Hok.
  destruct (socket_grow st st' buf sk Hst Hbuf Hok Hgrow). exists st', buf, res. by split_and!.
Qed.

End Read_event.

(** ** A stream of responses *)

Section Stream.
Context {D Msg : Type} (pb_parse : list Z -> option (Msg * Z)) (clock : nat -> Z)
  (map_begin : gmap Z (read_session D (BoltResponse Msg)) -> option Z).
Implicit Types (sk : socket D (BoltResponse Msg)).

Lemma read_round_data st sk r frames tail more :
  socket_ok st sk -> timely clock sk -> readv_ok r st -> data_or_interrupt r ->
  Forall is_response frames -> incomplete tail -> incomplete (contents st (sk_read_buf sk)) ->
  contents st (sk_read_buf sk) ++ rd_input r ++ more = concat frames.*2 ++ tail ->
  exists st' sk' frames1 frames2,
    read_round (bolt_protocol pb_parse) clock map_begin r st sk = Some (true, st', sk')
    /\ frames = frames1 ++ frames2 /\ socket_ok st' sk' /\ timely clock sk'
    /\ incomplete (contents st' (sk_read_buf sk'))
    /\ contents st' (sk_read_buf sk') ++ more = concat frames2.*2 ++ tail
    /\ view st' sk' = foldl (spec_deliver pb_parse) (view st sk) frames1 /\ sk_status sk' = sk_status sk.
Proof.
  intros Hok Htime Hr Hdata Hf Ht Hin Heq. pose proof Hr as [Hnr _].
  destruct (read_append st sk r Hok Hr) as (st' & buf & res & Hrun & Hres & Hok' & Hv' & Hc').
  unfold read_round. rewrite Hrun. destruct Hdata as [Hpos|[Hneg Hint]].
  - assert (res = rd_nr r) as ->.
    { destruct Hres as [|[_ Hnil]]; [done|]. rewrite Hnil in Hnr. unfold zlen in Hnr. cbn in Hnr. lia. }
    rewrite (proj2 (Z.ltb_ge _ _)) by lia. cbn [andb]. rewrite (proj2 (Z.eqb_neq (rd_nr r) 0)) by lia.
    rewrite app_assoc, <- Hc' in Heq.
    destruct (stream_prefix frames tail _ _ Hf Ht Heq) as (f1 & f2 & t & -> & Hp & Hti & Hrest).
    apply Forall_app in Hf as [Hf1 _].
    destruct (cut_stream pb_parse clock map_begin st' f1 (S (Z.to_nat (length_ (sk_read_buf (set_read_buf buf sk)))))
      (set_read_buf buf sk) t) as (sk' & Hcut & Hok2 & Ht2 & Hc2 & Hv2 & Hs2); try done.
    { rewrite (length_contents st') by apply Hok'. cbn [sk_read_buf set_read_buf]. rewrite Hp.
      unfold zlen. rewrite Nat2Z.id, length_app. pose proof (stream_length _ Hf1). lia. }
    rewrite Hcut. exists st', sk', f1, f2. rewrite Hc2. split_and!; try done. by rewrite Hv2, Hv'.
  - assert (res = -1) as -> by (destruct Hres as [->|[-> _]]; done).
    assert (rd_input r = []) as Hnil.
    { destruct Hnr as [Hnr|[_ ?]]; [|done]. unfold zlen in Hnr. lia. }
    rewrite Hint. cbn [Z.ltb Z.eqb EINTR andb]. rewrite Hnil in Heq, Hc'. rewrite app_nil_r in Hc'.
    exists st', (set_read_buf buf sk), [], frames. cbn [sk_read_buf set_read_buf]. rewrite Hc'.
    by split_and!.
Qed.

Lemma read_stream : forall reads st sk frames tail,
  socket_ok st sk -> timely clock sk -> reads_ok clock map_begin (bolt_protocol pb_parse) reads st sk ->
  Forall data_or_interrupt reads ->
  Forall is_response frames -> incomplete tail -> incomplete (contents st (sk_read_buf sk)) ->
  contents st (sk_read_buf sk) ++ concat (rd_input <$> reads) = concat frames.*2 ++ tail ->
  exists st' sk', read_loop (bolt_protocol pb_parse) clock map_begin reads st sk = Some (st', sk')
    /\ socket_ok st' sk' /\ timely clock sk' /\ contents st' (sk_read_buf sk') = tail
    /\ view st' sk' = foldl (spec_deliver pb_parse) (view st sk) frames /\ sk_status sk' = sk_status sk.
Proof.
  induction reads as [|r reads IH]; intros st sk frames tail Hok Htime Hreads Hdata Hf Ht Hin Heq.
  - exists st, sk. cbn in Heq. rewrite app_nil_r in Heq.
    assert (frames = []) as ->.
    { destruct frames as [|f frames]; [done|]. exfalso. inversion_clear Hf as [|? ? Hf1 _].
      cbn in Heq. rewrite <- app_assoc in Heq. rewrite Heq in Hin.
      apply incomplete_prefix in Hin. destruct Hin as (r & x & rest & Hr & Hpre).
      exact (response_not_prefix _ _ _ _ Hf1 Hr Hpre). }
    by split_and!.
  - inversion_clear Hdata as [|? ? Hd Hds]. destruct Hreads as [Hr Hrest]. cbn in Heq.
    destruct (read_round_data st sk r frames tail _ Hok Htime Hr Hd Hf Ht Hin Heq)
      as (st1 & sk1 & f1 & f2 & Hround & -> & Hok1 & Ht1 & Hin1 & Heq1 & Hv1 & Hs1).
    rewrite Hround in Hrest. cbn [read_loop]. rewrite Hround. apply Forall_app in Hf as [_ Hf2].
    destruct (IH st1 sk1 f2 tail) as (st2 & sk2 & Hrun & Hok2 & Ht2 & Hc2 & Hv2 & Hs2); try done.
    exists st2, sk2. split_and!; try done; [|by rewrite Hs2]. by rewrite foldl_app, Hv2, Hv1.
Qed.

End Stream.

(** ** What sockets rely on from a protocol *)

(** On a buffer the protocol answers without a failure, takes bytes only from
    the front, keeps its additional data valid, and a response with an id has a
    size, all of it in the buffer; filling a response answers without a failure
    and leaves a buffer. *)
Class ProtocolSafe {D R} (p : Protocol D R) (data_ok : option D -> Prop) : Prop := {
  data_ok_none : data_ok None;
  parse_safe st buf d :
    store_ok st -> buf_ok st buf -> zlen (contents st buf) < 2 ^ 64 -> data_ok d ->
    exists ret size id d' buf', p_parse p d st buf = Some (ret, size, id, d', buf')
      /\ buf_ok st buf' /\ zlen (contents st buf') <= zlen (contents st buf) /\ data_ok d' /\ 0 <= size
      /\ (ret = PARSE_OK -> 0 < id -> 0 < size <= zlen (contents st buf'));
  parse_response_safe st buf d r :
    store_ok st -> buf_ok st buf ->
    exists ret r' buf', p_parse_response p r d st buf = Some (ret, r', buf') /\ buf_ok st buf'
}.

#[global] Instance bolt_protocol_safe {D Msg} (pb_parse : list Z -> option (Msg * Z)) :
  ProtocolSafe (bolt_protocol (D := D) pb_parse) (fun _ => True).
Proof.
  split; [done| |].
  2:{ intros st buf d r Hst Hbuf. assert (bb_ok st buf) as Hbb by by split.
      destruct (deserialize_reference pb_parse r st buf Hbb) as (ret & r' & b' & Hrun & [_ Hb'] & _).
      exists ret, r', b'. by split. }
  intros st buf d Hst Hbuf _ _. cbn [p_parse bolt_protocol].
  unfold parseBoltProtocol, checkHeader. destruct (bb_copy_to sizeof_BoltHeader st buf) as [bytes n].
  pose proof (bb_size_ok st buf (conj Hst Hbuf)) as Hsize.
  change (bb_contents st buf) with (contents st buf) in Hsize.
  pose proof (u32_range (h_class_len (ntoh bytes) + h_header_len (ntoh bytes) + h_content_len (ntoh bytes))).
  repeat case_if; breflect; do 5 eexists; (split; [reflexivity|]); unfold sizeof_BoltHeader in *;
    split_and!; (done || lia).
Qed.

#[global] Instance http_protocol_safe :
  ProtocolSafe http_protocol (fun d => forall parser, d = Some parser -> HttpInv.wf parser).
Proof.
  split; [done| |].
  2:{ intros st buf d r Hst Hbuf. cbn [p_parse_response http_protocol].
      destruct (http_deserialize d r) as [ret r']. exists ret, r', buf. by split. }
  intros st buf d Hst Hbuf Hlen Hd. cbn [p_parse http_protocol].
  destruct (http_checkHeader_ok d st buf Hst Hbuf Hlen Hd) as (ret & p & buf' & nr & -> & Hb & Hn & Hc & _ & Hp & _).
  do 5 eexists. split; [reflexivity|]. split_and!; try done; try lia.
  rewrite Hc. unfold zlen. rewrite length_drop. lia.
Qed.

Section Safety.
Context {D R : Type} (p : Protocol D R) (data_ok : option D -> Prop) `{!ProtocolSafe p data_ok}.
Context (clock : nat -> Z) (map_begin : gmap Z (read_session D R) -> option Z).
Implicit Types (sk : socket D R).

Lemma collect_Forall (P : read_session D R -> Prop) t info m info' m' :
  collect_sessions t info m = (info', m') -> Forall P info -> map_Forall (fun _ => P) m ->
  Forall P info' /\ map_Forall (fun _ => P) m'.
Proof.
  revert m. induction info as [|s info IH]; intros m Hrun Hi Hm; cbn [collect_sessions] in Hrun;
    [by simplify_eq|].
  inversion_clear Hi as [|? ? Hs Hr].
  set (m1 := match m !! r_request_id s with Some _ => m | None => _ end) in Hrun.
  assert (map_Forall (fun _ => P) m1) by (subst m1; destruct (m !! _); [done|by apply map_Forall_insert_2]).
  case_match; [by simplify_eq|by eapply IH].
Qed.

Lemma deliver_safe st out d s :
  store_ok st -> buf_ok st out -> exists s', deliver p st out d s = Some s' /\ buf_ok st (r_read_buf s').
Proof.
  intros Hst Hout. unfold deliver. destruct (r_response s) as [r|]; [|by eexists].
  destruct (negb (r_sync s) && gains_upgrade (r_life s)); [|by eexists].
  destruct (parse_response_safe st out d r Hst Hout) as (ret & r' & buf' & -> & Hb). by eexists.
Qed.

Definition read_ok (st : store) (sk : socket D R) : Prop :=
  socket_ok st sk /\ data_ok (sk_read_additional_data sk)
  /\ zlen (contents st (sk_read_buf sk)) < 2 ^ 64.

Lemma cut_one_safe st sk :
  read_ok st sk ->
  exists id sk', cutIntoMessage p clock map_begin st sk = Some (id, sk') /\ read_ok st sk'
    /\ zlen (contents st (sk_read_buf sk')) <= zlen (contents st (sk_read_buf sk))
    /\ (0 < id -> zlen (contents st (sk_read_buf sk')) < zlen (contents st (sk_read_buf sk))).
Proof.
  intros (Hok & Hd & Hlen). pose proof Hok as [Hst Hbuf Hms His]. unfold cutIntoMessage.
  case_if; [exists 0, sk; by split_and!|].
  destruct (parse_safe st (sk_read_buf sk) _ Hst Hbuf Hlen Hd)
    as (ret & size & id & d' & buf' & -> & Hb' & Hle & Hd' & Hs & Hpos).
  destruct ret.
  2, 3: do 2 eexists; (split; [reflexivity|]); cbn [sk_read_buf setStatus]; split_and!; try done; try lia;
    (split; [by split|split; [done|cbn [sk_read_buf setStatus]; lia]]).
  cbn [now sk_session_info sk_session_map sk_ticks sk_read_buf sk_status].
  destruct (collect_sessions _ _ _) as [info m] eqn:Ecol.
  eapply collect_Forall in Ecol as [His' Hms']; [|exact His|exact Hms].
  pose proof (io_pop_front_law st buf' size (conj Hst Hb') Hs) as Hpop.
  destruct (_ ≫= _) as [[i s]|] eqn:Ei.
  - assert (m !! i = Some s) as Hm.
    { destruct (match p_type p with PROTOCOL_BOLT => _ | PROTOCOL_HTTP => _ end) as [j|]; [|done]. cbn in Ei.
      destruct (m !! j) eqn:?; cbn in Ei; by simplify_eq. }
    pose proof (Hms' i s Hm) as Hbs. cbn beta in Hbs.
    pose proof (cut_buffer_ok st buf' (r_read_buf s) size Hst Hb' Hbs Hs) as Hcut.
    destruct (cut_buffer _ _ _) as [[buf out] n]. destruct Hcut as (Hb & Ho & _ & _ & Hcb).
    destruct (deliver_safe st out d' s Hst Ho) as (s' & -> & Hbs').
    do 2 eexists. split; [reflexivity|]. cbn [sk_read_buf]. rewrite Hcb. unfold zlen in *. rewrite length_drop.
    split_and!; [|lia|intros Hid; specialize (Hpos eq_refl Hid); lia].
    split; [|split; [apply (data_ok_none (p := p))|cbn [sk_read_buf]; rewrite Hcb; unfold zlen; rewrite length_drop; lia]].
    split; [done|done| |done]. by apply map_Forall_insert_2.
  - destruct (pop_front size buf') as [buf n]. destruct Hpop as ((_ & Hb) & _ & Hcb).
    do 2 eexists. split; [reflexivity|]. cbn [sk_read_buf]. rewrite Hcb. unfold zlen in *. rewrite length_drop.
    split_and!; [|lia|intros Hid; specialize (Hpos eq_refl Hid); lia].
    split; [|split; [done|cbn [sk_read_buf]; rewrite Hcb; unfold zlen; rewrite length_drop; lia]].
    by split.
Qed.

Lemma cut_messages_safe st : forall fuel sk,
  read_ok st sk -> zlen (contents st (sk_read_buf sk)) < Z.of_nat fuel ->
  exists id sk', cut_messages p clock map_begin fuel st sk = Some (id, sk') /\ read_ok st sk'
    /\ zlen (contents st (sk_read_buf sk')) <= zlen (contents st (sk_read_buf sk)).
Proof.
  induction fuel as [|fuel IH]; intros sk Hok Hfuel; [pose proof (zlen_nonneg (contents st (sk_read_buf sk))); lia|].
  destruct (cut_one_safe st sk Hok) as (id & sk1 & Hcut & Hok1 & Hle & Hlt). cbn [cut_messages]. rewrite Hcut.
  destruct (Z.leb_spec id 0); [by exists id, sk1|].
  destruct (IH sk1 Hok1) as (id2 & sk2 & -> & Hok2 & Hle2); [specialize (Hlt ltac:(done)); lia|].
  exists id2, sk2. split_and!; [done|done|lia].
Qed.

Lemma read_round_safe st sk r :
  read_ok st sk -> readv_ok r st ->
  zlen (contents st (sk_read_buf sk)) + zlen (rd_input r) < 2 ^ 64 ->
  exists go st' sk', read_round p clock map_begin r st sk = Some (go, st', sk') /\ read_ok st' sk'
    /\ zlen (contents st' (sk_read_buf sk')) <= zlen (contents st (sk_read_buf sk)) + zlen (rd_input r).
Proof.
  intros (Hok & Hd & Hlen) Hr Hsum.
  destruct (read_append st sk r Hok Hr) as (st' & buf & res & Hrun & _ & Hok' & _ & Hc').
  unfold read_round. rewrite Hrun.
  assert (forall s, read_ok st' (setStatus s (set_read_buf buf sk))) as Hok1.
  { intros s. split; [|split; [done|cbn [sk_read_buf setStatus set_read_buf]; by rewrite Hc', zlen_app]].
    destruct Hok'; by split. }
  assert (read_ok st' (set_read_buf buf sk)) as Hok2.
  { pose proof (Hok1 (sk_status sk)) as H1. by destruct sk. }
  assert (zlen (contents st' buf) = zlen (contents st (sk_read_buf sk)) + zlen (rd_input r)) as Hz
    by by rewrite Hc', zlen_app.
  destruct (_ && _); [do 3 eexists; split; [reflexivity|]; split; [done|cbn; lia]|].
  destruct (_ && _); [do 3 eexists; split; [reflexivity|]; split; [done|cbn; lia]|].
  destruct (res <? 0); [do 3 eexists; split; [reflexivity|]; split; [apply Hok1|cbn; lia]|].
  assert (exists sk1, (if res =? 0 then setStatus RPC_STATUS_SOCKET_CLOSED_BY_SERVER (set_read_buf buf sk)
      else set_read_buf buf sk) = sk1 /\ read_ok st' sk1 /\ sk_read_buf sk1 = buf) as (sk1 & -> & Hok3 & Hb1).
  { destruct (res =? 0); eexists; split_and!; try reflexivity; [apply Hok1|done]. }
  destruct (cut_messages_safe st' (S (Z.to_nat (length_ (sk_read_buf sk1)))) sk1 Hok3)
    as (id & sk2 & -> & Hok4 & Hle4).
  { rewrite (length_contents st') by apply Hok3. unfold zlen. lia. }
  do 3 eexists. split; [reflexivity|]. split; [done|]. rewrite Hb1 in Hle4. lia.
Qed.

Lemma read_loop_safe : forall reads st sk,
  read_ok st sk -> reads_ok clock map_begin p reads st sk ->
  zlen (contents st (sk_read_buf sk)) + zlen (concat (rd_input <$> reads)) < 2 ^ 64 ->
  exists st' sk', read_loop p clock map_begin reads st sk = Some (st', sk') /\ read_ok st' sk'.
Proof.
  induction reads as [|r reads IH]; intros st sk Hok Hr Hsum; [by exists st, sk|].
  destruct Hr as [Hr Hrs]. cbn [fmap list_fmap concat] in Hsum. rewrite zlen_app in Hsum.
  pose proof (zlen_nonneg (concat (rd_input <$> reads))).
  destruct (read_round_safe st sk r Hok Hr ltac:(lia)) as (go & st1 & sk1 & Hround & Hok1 & Hle1).
  cbn [read_loop]. rewrite Hround in *. destruct go; [|by exists st1, sk1].
  apply IH; [done|done|lia].
Qed.

End Safety.

(** ** Theorems *)

(** C4: responses reach their sessions. On a connected socket that speaks Bolt,
    whose queued requests were sent before the read event, let the descriptor
    yield any number of complete responses with ids above 0 and the beginning
    of another one, cut into reads in any way and interrupted any number of
    times ([readv] stores no more than it is offered). The read event then
    gives each session the responses with its id, in their order: a synchronous
    session has them appended to its buffer and its promise is set once; the
    first one of an asynchronous session is parsed into the session's response,
    which removes it from the buffer, and the callback is called once with the
    outcome ([spec_session]). It drops responses nobody waits for, keeps the
    beginning of the last response for the next event, and then reclaims
    sessions. What a callback does itself is not part of this. *)
Theorem on_read_delivers {D Msg : Type} (pb_parse : list Z -> option (Msg * Z)) (clock : nat -> Z)
    (map_begin : gmap Z (read_session D (BoltResponse Msg)) -> option Z)
    (reads : list readv) (st : store) (sk : socket D (BoltResponse Msg)) (frames : list (Z * list Z)) (tail : list Z) :
  socket_ok st sk -> timely clock sk -> sk_status sk = RPC_STATUS_OK ->
  reads_ok clock map_begin (bolt_protocol pb_parse) reads st sk -> Forall data_or_interrupt reads ->
  Forall is_response frames -> incomplete tail -> incomplete (contents st (sk_read_buf sk)) ->
  contents st (sk_read_buf sk) ++ concat (rd_input <$> reads) = concat frames.*2 ++ tail ->
  exists st' sk', onRead (Some (bolt_protocol pb_parse)) clock map_begin reads st sk
      = Some (st', tryReclaimSessionMap sk')
    /\ socket_ok st' sk' /\ contents st' (sk_read_buf sk') = tail
    /\ view st' sk' = foldl (spec_deliver pb_parse) (view st sk) frames /\ sk_status sk' = RPC_STATUS_OK.
Proof.
  intros Hok Ht Hs Hr Hd Hf Hi Hin Heq.
  destruct (read_stream pb_parse clock map_begin reads st sk frames tail Hok Ht Hr Hd Hf Hi Hin Heq)
    as (st' & sk' & Hrun & Hok' & _ & Hc & Hv & Hs').
  exists st', sk'. unfold onRead, active. rewrite bool_decide_eq_true_2, Hrun by done.
  split_and!; try done. by rewrite Hs'.
Qed.

Definition sample_frame (id : Z) (content : list Z) : Z * list Z :=
  (id, response_frame (mk_BoltHeader 1 0 2 1 id 11 0 0 0 (zlen content)) [] [] content).

Lemma sample_frame_response id content :
  0 < id < 2 ^ 32 -> zlen content <= 1000 -> is_response (sample_frame id content).
Proof.
  intros Hid Hc. pose proof (zlen_nonneg content).
  exists (mk_BoltHeader 1 0 2 1 id 11 0 0 0 (zlen content)), [], [], content.
  unfold frame_ok, header_fits, MAX_BOLT_BODY_SIZE. cbn. split_and!; done || lia.
Qed.

(** A synchronous session, and an asynchronous one with a string to fill *)
Definition sample_target : BoltResponse unit := new_BoltResponse (RS_STRING []).
Definition sample_socket : socket unit (BoltResponse unit) :=
  mk_socket RPC_STATUS_OK clear
    [mk_read_session 7 1 true new_session clear None (Some sample_target);
     mk_read_session 8 2 false new_session clear None (Some sample_target)]
    ∅ 0 None 0.

(** Two responses, the second cut in the middle, and the beginning of a third *)
Definition sample_reads : list readv :=
  let bytes := (sample_frame 8 [1; 2]).2 ++ (sample_frame 7 [3]).2 in
  [mk_readv (take 30 bytes) 30 0; mk_readv [] (-1) EINTR; mk_readv (drop 30 bytes ++ [1; 0]) 15 0].

Lemma sample_socket_ok : socket_ok two_blocks_store sample_socket.
Proof.
  assert (buf_ok two_blocks_store clear) as Hc by (split; [constructor|apply le_n]).
  split; [apply two_blocks_store_ok|exact Hc|apply map_Forall_empty|].
  apply Forall_cons; [exact Hc|]. apply Forall_cons; [exact Hc|constructor].
Qed.

Lemma on_read_delivers_witness :
  let clock n := 10 + Z.of_nat n in
  exists st' sk', onRead (Some (bolt_protocol (fun _ => None))) clock (fun _ => None) sample_reads two_blocks_store
                    sample_socket = Some (st', tryReclaimSessionMap sk')
    /\ contents st' (sk_read_buf sk') = [1; 0] /\ sk_status sk' = RPC_STATUS_OK
    /\ (exists life, view st' sk' !! 7 = Some (true, life, (sample_frame 7 [3]).2, Some sample_target)
          /\ se_results life = [SESSION_OK])
    /\ (exists life response, view st' sk' !! 8 = Some (false, life, [], Some response)
          /\ se_results life = [SESSION_OK] /\ rs_data response = RS_STRING [1; 2]).
Proof.
  destruct (on_read_delivers (fun _ => None) (fun n => 10 + Z.of_nat n) (fun _ => None) sample_reads two_blocks_store
    sample_socket [sample_frame 8 [1; 2]; sample_frame 7 [3]] [1; 0]) as (st' & sk' & Hrun & _ & Hc & Hv & Hs).
  - apply sample_socket_ok.
  - repeat constructor; intros n; cbn; lia.
  - reflexivity.
  - vm_compute. repeat split; try discriminate; first [left; reflexivity|right; split; reflexivity].
  - repeat constructor; vm_compute; first [left; reflexivity|right; split; reflexivity].
  - apply Forall_cons; [|apply Forall_cons; [|constructor]];
      (apply sample_frame_response; [lia|vm_compute; discriminate]).
  - exists (sample_frame 1 []), 0, (drop 3 (sample_frame 1 []).2). split; [|reflexivity].
    apply sample_frame_response; [lia|vm_compute; discriminate].
  - exists (sample_frame 1 []), 1, (drop 1 (sample_frame 1 []).2). split; [|reflexivity].
    apply sample_frame_response; [lia|vm_compute; discriminate].
  - reflexivity.
  - exists st', sk'. rewrite Hv. split_and!; [exact Hrun|exact Hc|exact Hs|eexists|eexists _, _];
      (split; [vm_compute; reflexivity|]); [reflexivity|split; reflexivity].
Defined.

(** C5: the read event is safe with every protocol that keeps to the
    interface, Bolt and HTTP among them. On a well-formed socket with less than
    2^64 bytes in all, whatever bytes arrive and whatever [readv] answers within
    its documentation, the event returns and no assertion of a parser fails;
    afterwards the socket's read buffer and the buffers of its sessions are
    well formed, and so is the state the protocol keeps for the next event. *)
Theorem on_read_safe {D R : Type} (p : Protocol D R) (data_ok : option D -> Prop) `{!ProtocolSafe p data_ok}
    (clock : nat -> Z) (map_begin : gmap Z (read_session D R) -> option Z)
    (reads : list readv) (st : store) (sk : socket D R) :
  read_ok data_ok st sk -> reads_ok clock map_begin p reads st sk ->
  zlen (contents st (sk_read_buf sk)) + zlen (concat (rd_input <$> reads)) < 2 ^ 64 ->
  exists st' sk', onRead (Some p) clock map_begin reads st sk = Some (st', sk') /\ read_ok data_ok st' sk'.
Proof.
  intros Hok Hr Hsum.
  assert (forall st (sk : socket D R), read_ok data_ok st sk -> read_ok data_ok st (tryReclaimSessionMap sk)) as Hrec.
  { intros st0 sk0 ([Hst Hb Hm Hi] & Hd & Hl). split; [split; [done|done| |done]|done].
    intros i s Hs. cbn [sk_session_map tryReclaimSessionMap] in Hs. rewrite lookup_omap in Hs.
    destruct (sk_session_map sk0 !! i) as [s0|] eqn:E0; [|done]. apply Hm in E0.
    cbn in Hs. unfold reclaim in Hs. repeat case_match; by simplify_eq. }
  unfold onRead. destruct (active sk).
  - destruct (read_loop_safe p data_ok clock map_begin reads st sk Hok Hr Hsum) as (st' & sk' & -> & Hok').
    eexists _, _. split; [reflexivity|by apply Hrec].
  - eexists _, _. split; [reflexivity|by apply Hrec].
Qed.

Definition sample_http_socket : socket (http_parser HttpMessageInfo) HttpResponse :=
  mk_socket RPC_STATUS_OK clear [] ∅ 0 None 0.

Lemma on_read_safe_witness :
  exists st' sk', onRead (Some http_protocol) (fun _ => 0) (fun _ => None)
      [mk_readv (bytes_of_string "no http") 7 0] two_blocks_store sample_http_socket = Some (st', sk')
    /\ sk_status sk' = RPC_STATUS_SOCKET_READ_ERROR.
Proof.
  destruct (on_read_safe http_protocol (fun d => forall parser, d = Some parser -> HttpInv.wf parser)
    (fun _ => 0) (fun _ => None) [mk_readv (bytes_of_string "no http") 7 0] two_blocks_store sample_http_socket)
    as (st' & sk' & Hrun & _).
  - split; [split; [apply two_blocks_store_ok|split; [constructor|apply le_n]|apply map_Forall_empty|constructor]|].
    split; [discriminate|reflexivity].
  - split; [split; [left; reflexivity|vm_compute; discriminate]|].
    destruct (read_round _ _ _ _ _ _) as [[[[] ?] ?]|]; exact I.
  - reflexivity.
  - exists st', sk'. split; [exact Hrun|]. vm_compute in Hrun. injection Hrun as _ <-. reflexivity.
Defined.

(** ** Writing *)

(** What [writev] documents: it accepts no more than it is offered. *)
Fixpoint writes_ok (answers : list (Z * Z)) (size : Z) (st : store) (buf : IOBuffer) : Prop :=
  match answers with
  | [] => True
  | (nw, _) :: answers =>
      match cut_into_file_descriptor size nw st buf with
      | Some (offered, buf, _) => nw <= zlen offered /\ writes_ok answers size st buf
      | None => True
      end
  end.

Lemma contents_slices st buf : contents st buf <> [] -> (0 < slice_num buf)%nat.
Proof.
  intros Hc. unfold slice_num. destruct (decide (length (ref buf) <= ref_offset buf)%nat) as [Hle|]; [|lia].
  destruct Hc. unfold contents, to_string. by rewrite drop_ge.
Qed.

Lemma write_loop_ok st size : store_ok st -> size < 2 ^ 64 -> forall answers cur buf,
  buf_ok st buf -> 0 <= cur -> cur + zlen (contents st buf) = size ->
  Forall (fun a => 0 <= fst a) answers -> writes_ok answers size st buf ->
  match write_loop answers cur size st buf with
  | Some (sent, buf', ret) => ret = true /\ sent = contents st buf /\ contents st buf' = []
  | None => zsum fst answers < zlen (contents st buf)
  end.
Proof.
  intros Hst Hsize. induction answers as [|[nw errno] answers IH]; intros cur buf Hbuf Hcur Hsum Hpos Hfit.
  - cbn [write_loop]. destruct (Z.ltb_spec cur size); [cbn; lia|].
    assert (contents st buf = []) as -> by (apply nil_length_inv; unfold zlen in Hsum; lia). done.
  - inversion_clear Hpos as [|? ? Hnw Hrest]. cbn in Hnw. cbn [write_loop].
    destruct (Z.ltb_spec cur size) as [Hlt|Hge].
    2:{ assert (contents st buf = []) as -> by (apply nil_length_inv; unfold zlen in Hsum; lia). done. }
    destruct (cut_into_fd_ok st buf size nw Hst Hbuf) as (offered & buf' & Hcut & Hbuf' & Hc).
    { apply (contents_slices st). intros Hn. rewrite Hn in Hsum. unfold zlen in Hsum. cbn in Hsum. lia. }
    cbn [writes_ok] in Hfit. rewrite Hcut in *. destruct Hfit as [Hle Hfit]. specialize (Hc Hle).
    rewrite (proj2 (Z.ltb_ge _ _)) by done. cbn [andb].
    assert (zlen (contents st buf) = nw + zlen (contents st buf')) as Hz.
    { rewrite Hc, zlen_app. unfold zlen at 1. rewrite length_take. unfold zlen in Hle. lia. }
    pose proof (zlen_nonneg (contents st buf')).
    rewrite u64_small by lia. specialize (IH (cur + nw) buf' Hbuf' ltac:(lia) ltac:(lia) Hrest Hfit).
    destruct (write_loop answers (cur + nw) size st buf') as [[[sent buf2] ret]|].
    + destruct IH as (-> & -> & ->). by rewrite Hc.
    + change (zsum fst ((nw, errno) :: answers)) with (nw + zsum fst answers). lia.
Qed.

(** A request is written completely and in order: when [writev] accepts
    bytes at every call, in whatever portions, until there is none left,
    [write] sends exactly the contents of the buffer, empties it, and answers
    [true]; the socket is unchanged. *)
Theorem write_sends_all {D R : Type} (answers : list (Z * Z)) (timeout_ms : Z) (st : store) (buf : IOBuffer)
    (sk : socket D R) :
  store_ok st -> buf_ok st buf -> 0 < zlen (contents st buf) < 2 ^ 64 -> 0 <= timeout_ms ->
  Forall (fun a => 0 <= fst a) answers -> writes_ok answers (length_ buf) st buf ->
  zlen (contents st buf) <= zsum fst answers ->
  exists buf', write answers timeout_ms st buf sk = Some (contents st buf, buf', sk, true)
    /\ contents st buf' = [].
Proof.
  intros Hst Hbuf Hlen Ht Hpos Hfit Hsum. unfold write. rewrite (proj2 (Z.ltb_ge _ _)) by done.
  rewrite (length_contents st) in * by done. rewrite (proj2 (Z.leb_gt _ _)) by lia.
  pose proof (write_loop_ok st (zlen (contents st buf)) Hst ltac:(lia) answers 0 buf Hbuf) as Hw.
  destruct (write_loop _ _ _ _ _) as [[[sent buf'] ret]|].
  - destruct Hw as (-> & -> & Hc); try done. eauto.
  - specialize (Hw ltac:(done) eq_refl Hpos Hfit). lia.
Qed.

Lemma write_sends_all_witness :
  let '(st, buf) := append (bytes_of_string "request") two_blocks_store clear in
  exists buf', write [(3, 0); (0, 0); (4, 0)] 500 st buf sample_socket
               = Some (bytes_of_string "request", buf', sample_socket, true)
    /\ contents st buf' = [].
Proof.
  pose proof (append_frame two_blocks_store clear (bytes_of_string "request")
    two_blocks_store_ok ltac:(split; [constructor|apply le_n])) as Ha.
  destruct (append (bytes_of_string "request") two_blocks_store clear) as [st buf] eqn:E.
  destruct Ha as (Hst & Hbuf & Hc & _). vm_compute in E. injection E as Es Eb.
  assert (contents st buf = bytes_of_string "request") as Hall by (rewrite <- Es, <- Eb; vm_compute; reflexivity).
  rewrite <- Hall. apply (write_sends_all [(3, 0); (0, 0); (4, 0)] 500 st buf sample_socket Hst Hbuf).
  - rewrite Hall. vm_compute. split; reflexivity.
  - lia.
  - repeat (apply Forall_cons; [cbn; lia|]). constructor.
  - rewrite <- Es, <- Eb. vm_compute. repeat split; discriminate.
  - rewrite Hall. vm_compute. discriminate.
Defined.

(** A full socket buffer loses the request. When the first [writev]
    answers [EAGAIN], its -1 is added to the unsigned [cur_size], the loop ends,
    and [write] reports success although nothing has been sent. *)
Theorem write_eagain_loses {D R : Type} (timeout_ms : Z) (st : store) (buf : IOBuffer) (sk : socket D R) :
  store_ok st -> buf_ok st buf -> 0 < zlen (contents st buf) < 2 ^ 64 -> 0 <= timeout_ms ->
  write [(-1, EAGAIN)] timeout_ms st buf sk = Some ([], buf, sk, true).
Proof.
  intros Hst Hbuf Hlen Ht. unfold write. rewrite (proj2 (Z.ltb_ge _ _)) by done.
  rewrite (length_contents st) by done. rewrite (proj2 (Z.leb_gt _ _)) by lia.
  cbn [write_loop]. rewrite (proj2 (Z.ltb_lt _ _)) by lia.
  destruct (cut_into_fd_ok st buf (zlen (contents st buf)) (-1) Hst Hbuf) as (offered & buf' & Hcut & _).
  { apply (contents_slices st). intros Hn. rewrite Hn in Hlen. unfold zlen in Hlen. cbn [length] in Hlen. lia. }
  rewrite Hcut. cbn [Z.ltb andb negb EAGAIN Z.eqb Z.compare Pos.eqb].
  assert (buf' = buf) as ->.
  { unfold cut_into_file_descriptor in Hcut. destruct (drop _ _); [done|]. by simplify_eq. }
  rewrite (proj2 (Z.ltb_ge _ _)); [done|]. change (u64 (0 + -1)) with (2 ^ 64 - 1). lia.
Qed.

Lemma write_eagain_loses_witness :
  let '(st, buf) := append (bytes_of_string "request") two_blocks_store clear in
  write [(-1, EAGAIN)] 500 st buf sample_socket = Some ([], buf, sample_socket, true).
Proof.
  pose proof (append_frame two_blocks_store clear (bytes_of_string "request")
    two_blocks_store_ok ltac:(split; [constructor|apply le_n])) as Ha.
  destruct (append (bytes_of_string "request") two_blocks_store clear) as [st buf] eqn:E.
  destruct Ha as (Hst & Hbuf & Hc & _). vm_compute in E. injection E as Es Eb.
  apply write_eagain_loses; [done|done| |lia]. rewrite <- Es, <- Eb. vm_compute. split; reflexivity.
Defined.
