(* ===== verification/Heap.v ===== *)
(** * Binary heaps of the C++ library

    [std::push_heap] and [std::pop_heap], which the timer thread uses on a
    vector of tasks. Their algorithms are not part of the standard, their
    effect is: the class states it, and an implementation that keeps the vector
    sorted shows that it can be met. [key] orders the elements; the one with the
    least key comes first. *)

From stdpp Require Import sorting.
From S2P Require Import Prelude.

Section Heaps.
Context {A : Type} (key : A -> Z).

(** [std::is_heap]: no element comes before its parent. *)
Definition is_heap (l : list A) : Prop :=
  forall i p c, l !! S i = Some c -> l !! (i / 2)%nat = Some p -> key p <= key c.

(** [push_heap] on a vector whose last element is new; [pop_heap] moves the
    first element to the end. *)
Class StdHeap := {
  push_heap : list A -> list A;
  pop_heap : list A -> list A;
  push_heap_ok l x : is_heap l -> is_heap (push_heap (l ++ [x])) /\ push_heap (l ++ [x]) ≡ₚ x :: l;
  pop_heap_ok x l : is_heap (x :: l) ->
    exists l', pop_heap (x :: l) = l' ++ [x] /\ is_heap l' /\ l' ≡ₚ l
}.

(** The first element of a heap is a least one. *)
Lemma heap_least x l : is_heap (x :: l) -> Forall (fun y => key x <= key y) l.
Proof.
  intros Hh. apply Forall_lookup_2. intros i y Hi.
  assert (forall n j z, (j < n)%nat -> (x :: l) !! j = Some z -> key x <= key z) as Hall.
  { induction n as [|n IH]; intros j z Hj Hz; [lia|]. destruct j as [|j]; [cbn in Hz; simplify_eq; lia|].
    assert (j / 2 < S j)%nat as Hlt by (pose proof (Nat.Div0.div_le_upper_bound j 2 j); lia).
    destruct (lookup_lt_is_Some_2 (x :: l) (j / 2)) as [p Hp].
    { apply lookup_lt_Some in Hz. lia. }
    specialize (Hh j p z Hz Hp). assert (j / 2 < n)%nat by lia. specialize (IH _ _ ltac:(done) Hp). lia. }
  apply (Hall (S (S i)) (S i)); [lia|done].
Qed.

(** ** A sorted vector is a heap *)

Definition before (x y : A) : Prop := key x <= key y.

#[local] Instance before_dec x y : Decision (before x y).
Proof. unfold before. apply _. Defined.

#[local] Instance before_trans : Transitive before.
Proof. intros x y z. unfold before. lia. Qed.

#[local] Instance before_total : Total before.
Proof. intros x y. unfold before. lia. Qed.

Lemma sorted_lookup l i j x y :
  StronglySorted before l -> l !! i = Some x -> l !! j = Some y -> (i < j)%nat -> before x y.
Proof.
  intros Hs Hi Hj Hlt. rewrite <- (take_drop (S i) l) in Hs.
  apply (StronglySorted_app_1_elem_of _ _ _ x y Hs).
  - apply (list_elem_of_lookup_2 _ i). rewrite lookup_take_lt by lia. done.
  - apply (list_elem_of_lookup_2 _ (j - S i)). rewrite lookup_drop. by replace (S i + (j - S i))%nat with j by lia.
Qed.

Lemma sorted_heap l : is_heap (merge_sort before l).
Proof.
  intros i p c Hc Hp. eapply sorted_lookup; [|exact Hp|exact Hc|].
  - apply StronglySorted_merge_sort; apply _.
  - pose proof (Nat.Div0.div_le_upper_bound i 2 i). lia.
Qed.

Definition sorted_std_heap : StdHeap.
Proof.
  refine {| push_heap := merge_sort before;
            pop_heap l := match l with [] => [] | x :: l => merge_sort before l ++ [x] end |}.
  - intros l x _. split; [apply sorted_heap|]. rewrite merge_sort_Permutation. apply Permutation_app_comm.
  - intros x l _. eexists. split; [reflexivity|]. split; [apply sorted_heap|apply merge_sort_Permutation].
Defined.

End Heaps.

#[global] Arguments push_heap {A key _} _.
#[global] Arguments pop_heap {A key _} _.
