(* ===== verification/TimeThread.v ===== *)
(** * The timer thread (src/schedule/time_thread.cpp, include/common/time_thread.h)

    [TimeThread] runs callbacks at given times. A thread that schedules a task
    puts it in the queue of its own [TaskContainer] and lowers the time at which
    the timer has to wake up; the timer thread collects the queues in a heap,
    runs what is due, and sleeps until the next task. The model interleaves the
    threads: one step is one access to memory they share. The two queues of a
    container have one producer and one consumer; Queues shows that they are
    FIFO queues of bounded capacity, which is what is used here, and a step that
    takes from a queue takes all the elements its [size] has announced, which
    the producer can only see as more room. *)

From stdpp Require Import gmap relations.
From S2P Require Import Prelude Heap.

(** [struct Task]; the callback is known by the task's id. *)
Record Task := mk_Task { abs_time : Z; task_id : Z }.

#[global] Instance Task_eq_dec : EqDecision Task.
Proof. solve_decision. Defined.

(** [struct TaskContainer]; it is created in use, and the code that would give
    it back is commented out. *)
Record TaskContainer := mk_TaskContainer { tc_tasks : list Task; tc_abandon_tasks : list Z }.

Definition TASK_QUEUE_SIZE : Z := 4096.
Definition WARING_TASK_QUEUE_SIZE : Z := 2730.
Definition SIZE_MAX : Z := 2 ^ 64 - 1.

(** Where a client thread is in [scheduleAbs] or [unschedule] *)
Inductive client_pc : Set :=
| C_idle
| C_push (t : Task)
| C_load (time : Z)
| C_lower (time nearest : Z)
| C_notify
| C_warn
| C_abandon (id : Z)
| C_abandon_warn.

(** [c_local]: the index of the container [pthread_getspecific] answers *)
Record client := mk_client { c_local : option nat; c_pc : client_pc }.

(** Where the timer thread is: [L_top] is the test of [_exit], [L_begin] the
    start of [loopOnce] *)
Inductive loop_pc : Set :=
| L_top
| L_begin
| L_reset (nearest : Z)
| L_size
| L_tasks (i size : nat)
| L_abandon (i size : nat)
| L_run
| L_cancel (t : Task) (now : Z) (i size : nat)
| L_exec (t : Task) (now : Z)
| L_next
| L_lower (nearest next : Z)
| L_deadline (nearest : Z)
| L_check (nearest : Z)
| L_sleep (nearest : Z)
| L_done.

(** [class TimeThread], the threads, and a record of the callbacks that were
    run, with the time at which they were found due *)
Record timer := mk_timer {
  tm_exit : bool;
  tm_nearest_run_time : Z;
  tm_timer_id : Z;
  tm_containers : list TaskContainer;
  tm_active_ids : gset Z;
  tm_tasks : list Task;
  tm_loop : loop_pc;
  tm_clients : list client;
  tm_log : list (Task * Z)
}.

Definition new_timer (clients : nat) : timer :=
  mk_timer false SIZE_MAX 1 [] ∅ [] L_top (replicate clients (mk_client None C_idle)) [].

(** ** The clients *)

Definition set_nearest (n : Z) (s : timer) : timer :=
  mk_timer (tm_exit s) n (tm_timer_id s) (tm_containers s) (tm_active_ids s) (tm_tasks s) (tm_loop s)
    (tm_clients s) (tm_log s).
Definition set_timer_id (n : Z) (s : timer) : timer :=
  mk_timer (tm_exit s) (tm_nearest_run_time s) n (tm_containers s) (tm_active_ids s) (tm_tasks s) (tm_loop s)
    (tm_clients s) (tm_log s).
Definition set_containers (c : list TaskContainer) (s : timer) : timer :=
  mk_timer (tm_exit s) (tm_nearest_run_time s) (tm_timer_id s) c (tm_active_ids s) (tm_tasks s) (tm_loop s)
    (tm_clients s) (tm_log s).
Definition set_active (a : gset Z) (s : timer) : timer :=
  mk_timer (tm_exit s) (tm_nearest_run_time s) (tm_timer_id s) (tm_containers s) a (tm_tasks s) (tm_loop s)
    (tm_clients s) (tm_log s).
Definition set_tasks (h : list Task) (s : timer) : timer :=
  mk_timer (tm_exit s) (tm_nearest_run_time s) (tm_timer_id s) (tm_containers s) (tm_active_ids s) h (tm_loop s)
    (tm_clients s) (tm_log s).
Definition set_loop (l : loop_pc) (s : timer) : timer :=
  mk_timer (tm_exit s) (tm_nearest_run_time s) (tm_timer_id s) (tm_containers s) (tm_active_ids s) (tm_tasks s) l
    (tm_clients s) (tm_log s).
Definition set_client (i : nat) (c : client) (s : timer) : timer :=
  mk_timer (tm_exit s) (tm_nearest_run_time s) (tm_timer_id s) (tm_containers s) (tm_active_ids s) (tm_tasks s)
    (tm_loop s) (<[i := c]> (tm_clients s)) (tm_log s).
Definition add_log (t : Task) (now : Z) (s : timer) : timer :=
  mk_timer (tm_exit s) (tm_nearest_run_time s) (tm_timer_id s) (tm_containers s) (tm_active_ids s) (tm_tasks s)
    (tm_loop s) (tm_clients s) (tm_log s ++ [(t, now)]).

(** [_wake_cond.notify_one()] *)
Definition notify_one (s : timer) : timer :=
  match tm_loop s with
  | L_sleep n => set_loop (L_check n) s
  | _ => s
  end.

(** [getLocalTaskContainer]: the container of the thread, created when it has
    none; [None] is the null pointer of a timer that is shutting down. *)
Definition getLocalTaskContainer (local : option nat) (s : timer) : option (nat * timer) :=
  if tm_exit s then None
  else match local with
       | Some k => Some (k, s)
       | None => Some (length (tm_containers s), set_containers (tm_containers s ++ [mk_TaskContainer [] []]) s)
       end.

Inductive request : Set :=
| Schedule (abs_time : Z)
| Unschedule (task_id : Z)
| Go_on.

(** One access of client [i]. [scheduleAbs] answers 0, and the client stays
    idle, when the timer is shutting down or the queue is full; [None] of
    [unschedule] is the null pointer it does not test. *)
Definition client_step (i : nat) (r : request) (s : timer) : option timer :=
  match tm_clients s !! i with
  | None => None
  | Some c =>
      match c_pc c, r with
      | C_idle, Schedule time =>
          match getLocalTaskContainer (c_local c) s with
          | None => Some s
          | Some (k, s) =>
              let id := tm_timer_id s in
              Some (set_client i (mk_client (Some k) (C_push (mk_Task time id))) (set_timer_id (u64 (id + 1)) s))
          end
      | C_idle, Unschedule id =>
          match getLocalTaskContainer (c_local c) s with
          | None => None
          | Some (k, s) => Some (set_client i (mk_client (Some k) (C_abandon id)) s)
          end
      | pc, Go_on =>
          match c_local c with
          | None => None
          | Some k =>
              match tm_containers s !! k with
              | None => None
              | Some tc =>
                  let goto pc := set_client i (mk_client (Some k) pc) in
                  match pc with
                  | C_push t =>
                      if Z.of_nat (length (tc_tasks tc)) <? TASK_QUEUE_SIZE then
                        Some (goto (C_load (abs_time t))
                               (set_containers (<[k := mk_TaskContainer (tc_tasks tc ++ [t]) (tc_abandon_tasks tc)]>
                                                  (tm_containers s)) s))
                      else Some (goto C_idle s)
                  | C_load time => Some (goto (C_lower time (tm_nearest_run_time s)) s)
                  | C_lower time near =>
                      if near <=? time then Some (goto C_warn s)
                      else if tm_nearest_run_time s =? near then Some (goto C_notify (set_nearest time s))
                      else Some (goto (C_lower time (tm_nearest_run_time s)) s)
                  | C_notify => Some (goto C_warn (notify_one s))
                  | C_warn =>
                      Some (goto C_idle
                             (if WARING_TASK_QUEUE_SIZE <=? Z.of_nat (length (tc_tasks tc)) then notify_one s else s))
                  | C_abandon id =>
                      if Z.of_nat (length (tc_abandon_tasks tc)) <? TASK_QUEUE_SIZE then
                        Some (goto C_abandon_warn
                               (set_containers (<[k := mk_TaskContainer (tc_tasks tc) (tc_abandon_tasks tc ++ [id])]>
                                                  (tm_containers s)) s))
                      else Some (goto C_idle s)
                  | C_abandon_warn =>
                      Some (goto C_idle
                             (if WARING_TASK_QUEUE_SIZE <=? Z.of_nat (length (tc_abandon_tasks tc)) then notify_one s
                              else s))
                  | C_idle => None
                  end
              end
          end
      | _, _ => None
      end
  end.

(** ** The timer thread *)

Section Loop.
Context `{!StdHeap abs_time}.

(** A task of a queue goes to [_active_ids] and to the heap. *)
Definition collect_task (s : timer) (t : Task) : timer :=
  set_active ({[task_id t]} ∪ tm_active_ids s) (set_tasks (push_heap (tm_tasks s ++ [t])) s).

(** [collectUnschedule(container)] *)
Definition collectUnschedule (k : nat) (s : timer) : timer :=
  match tm_containers s !! k with
  | None => s
  | Some tc =>
      set_active (tm_active_ids s ∖ list_to_set (tc_abandon_tasks tc))
        (set_containers (<[k := mk_TaskContainer (tc_tasks tc) []]> (tm_containers s)) s)
  end.

Definition collectTasks (k : nat) (s : timer) : timer :=
  match tm_containers s !! k with
  | None => s
  | Some tc =>
      foldl collect_task
        (set_containers (<[k := mk_TaskContainer [] (tc_abandon_tasks tc)]> (tm_containers s)) s)
        (tc_tasks tc)
  end.

(** The callback of a task that is still active *)
Definition run_task (now : Z) (s : timer) (t : Task) : timer :=
  if bool_decide (task_id t ∈ tm_active_ids s)
  then set_active (tm_active_ids s ∖ {[task_id t]}) (add_log t now s) else s.

(** One access of the timer thread; [now] is what the clock reads if it is
    read. [None]: the thread has ended, or it sleeps. *)
Definition loop_step (now : Z) (s : timer) : option timer :=
  match tm_loop s with
  | L_top => Some (set_loop (if tm_exit s then L_done else L_begin) s)
  | L_begin => Some (set_loop (L_reset (tm_nearest_run_time s)) s)
  | L_reset near =>
      if tm_nearest_run_time s =? near then Some (set_loop L_size (set_nearest SIZE_MAX s))
      else Some (set_loop L_top s)
  | L_size => Some (set_loop (L_tasks 0 (length (tm_containers s))) s)
  | L_tasks i size =>
      if (i <? size)%nat then Some (set_loop (L_abandon i size) (collectTasks i s))
      else Some (set_loop L_run s)
  | L_abandon i size => Some (set_loop (L_tasks (S i) size) (collectUnschedule i s))
  | L_run =>
      match tm_tasks s with
      | [] => Some (set_loop L_next s)
      | task :: _ =>
          if now <? abs_time task then Some (set_loop L_next s)
          else if tm_nearest_run_time s <? abs_time task then Some (set_loop L_top s)
          else
            let h := pop_heap (tm_tasks s) in
            match list.last h with
            | Some this_task =>
                Some (set_loop (L_cancel this_task now 0 (length (tm_containers s)))
                        (set_tasks (removelast h) s))
            | None => None
            end
      end
  | L_cancel t now i size =>
      if (i <? size)%nat then Some (set_loop (L_cancel t now (S i) size) (collectUnschedule i s))
      else Some (set_loop (L_exec t now) s)
  | L_exec t now =>
      Some (set_loop L_run (run_task now s t))
  | L_next =>
      let next := match tm_tasks s with [] => SIZE_MAX | t :: _ => abs_time t end in
      Some (set_loop (L_lower (tm_nearest_run_time s) next) s)
  | L_lower near next =>
      if next <? near then
        if tm_nearest_run_time s =? near then Some (set_loop (L_lower next next) (set_nearest next s))
        else Some (set_loop (L_lower (tm_nearest_run_time s) next) s)
      else Some (set_loop (L_deadline near) s)
  | L_deadline near => Some (set_loop (if near <=? now then L_top else L_check near) s)
  | L_check near =>
      Some (set_loop (if tm_exit s || negb (near =? tm_nearest_run_time s) then L_top else L_sleep near) s)
  | L_sleep _ => None
  | L_done => None
  end.

(** The sleep ends by itself: at the deadline, or spuriously. *)
Definition wake_step (timeout : bool) (s : timer) : option timer :=
  match tm_loop s with
  | L_sleep near => Some (set_loop (if timeout then L_top else L_check near) s)
  | _ => None
  end.

(** [destroy] after the timer thread has ended: the containers are emptied, and
    the tasks that are still active are run, whatever their time. *)
Definition destroy (now : Z) (s : timer) : timer :=
  let s := foldl (fun s k => collectUnschedule k (collectTasks k s)) s (seq 0 (length (tm_containers s))) in
  foldl (run_task now) s (tm_tasks s).

(** [destroy] sets [_exit], then wakes the timer thread. *)
Definition exit_step (s : timer) : timer :=
  mk_timer true (tm_nearest_run_time s) (tm_timer_id s) (tm_containers s) (tm_active_ids s) (tm_tasks s)
    (tm_loop s) (tm_clients s) (tm_log s).

Inductive timer_step : timer -> timer -> Prop :=
| by_client i r s s' : client_step i r s = Some s' -> timer_step s s'
| by_loop now s s' : loop_step now s = Some s' -> timer_step s s'
| by_wake timeout s s' : wake_step timeout s = Some s' -> timer_step s s'
| by_exit s : timer_step s (exit_step s)
| by_exit_wake s : timer_step s (notify_one s).

End Loop.

(** ** Invariants *)

(** Replacing an element of a list, seen through what the elements hold *)
Lemma flat_map_insert {A B} (f : A -> list B) l i x y :
  l !! i = Some x -> flat_map f (<[i := y]> l) ++ f x ≡ₚ flat_map f l ++ f y.
Proof.
  revert i. induction l as [|z l IH]; intros [|i] Hi; [done|done| |]; cbn in *.
  - simplify_eq. solve_Permutation.
  - rewrite <- !app_assoc. by rewrite IH.
Qed.

Definition push_ids (c : client) : list Z := match c_pc c with C_push t => [task_id t] | _ => [] end.
Definition queue_ids (tc : TaskContainer) : list Z := task_id <$> tc_tasks tc.
Definition hand (s : timer) : list Task :=
  match tm_loop s with L_cancel t _ _ _ => [t] | L_exec t _ => [t] | _ => [] end.

(** Every id that has been given out, and is not forgotten *)
Definition all_ids (s : timer) : list Z :=
  flat_map push_ids (tm_clients s) ++ flat_map queue_ids (tm_containers s)
  ++ (task_id <$> tm_tasks s) ++ (task_id <$> hand s) ++ (task_id <$> (tm_log s).*1).

Section Invariants.
Context `{!StdHeap abs_time}.

(** The ids after a step: what was there, perhaps a new one, perhaps without
    some *)
Definition ids_grow (s s' : timer) : Prop :=
  (all_ids s' ⊆+ all_ids s /\ tm_timer_id s' = tm_timer_id s)
  \/ (all_ids s' ⊆+ tm_timer_id s :: all_ids s /\ tm_timer_id s' = u64 (tm_timer_id s + 1)).

Lemma queue_ids_insert (cs : list TaskContainer) k tc tc' :
  cs !! k = Some tc -> queue_ids tc = queue_ids tc' ->
  flat_map queue_ids (<[k := tc']> cs) ≡ₚ flat_map queue_ids cs.
Proof.
  intros Hk Heq. pose proof (flat_map_insert queue_ids cs k tc tc' Hk) as H. rewrite Heq in H.
  by apply Permutation_app_inv_r in H.
Qed.

Lemma notify_cases (b : bool) s :
  (if b then notify_one s else s) = s
  \/ exists n, tm_loop s = L_sleep n /\ (if b then notify_one s else s) = set_loop (L_check n) s.
Proof. destruct b; [|by left]. unfold notify_one. destruct (tm_loop s); eauto. Qed.

Lemma notify_fields (b : bool) s :
  let s' := if b then notify_one s else s in
  tm_clients s' = tm_clients s /\ tm_containers s' = tm_containers s /\ tm_timer_id s' = tm_timer_id s
  /\ tm_tasks s' = tm_tasks s /\ hand s' = hand s /\ tm_log s' = tm_log s.
Proof.
  destruct (notify_cases b s) as [Heq|(n & Hs & Heq)]; cbv zeta; rewrite Heq; [done|].
  unfold hand. cbn. by rewrite Hs.
Qed.

(** A client moves on and holds no id afterwards. *)
Lemma quiet_ids i c c' s s0 :
  tm_clients s !! i = Some c -> push_ids c' = [] -> tm_clients s0 = tm_clients s ->
  flat_map queue_ids (tm_containers s0) ≡ₚ flat_map queue_ids (tm_containers s) ->
  tm_tasks s0 = tm_tasks s -> hand s0 = hand s -> tm_log s0 = tm_log s ->
  all_ids (set_client i c' s0) ⊆+ all_ids s.
Proof.
  intros Hi Hc' Hcs Hq Ht Hh Hl. unfold all_ids. change (hand (set_client i c' s0)) with (hand s0).
  cbn [tm_clients tm_containers tm_tasks tm_log set_client]. rewrite Hcs, Hq, Ht, Hh, Hl.
  apply submseteq_skips_r. pose proof (flat_map_insert push_ids (tm_clients s) i c c' Hi) as Hp.
  rewrite Hc', app_nil_r in Hp. rewrite <- Hp. by apply submseteq_inserts_r.
Qed.

Lemma getLocal_cases local s k s' :
  getLocalTaskContainer local s = Some (k, s') ->
  (local = Some k /\ s' = s)
  \/ (k = length (tm_containers s) /\ s' = set_containers (tm_containers s ++ [mk_TaskContainer [] []]) s).
Proof. unfold getLocalTaskContainer. intros H. repeat case_match; simplify_eq; eauto. Qed.

Lemma getLocal_queues local s k s' :
  getLocalTaskContainer local s = Some (k, s') ->
  flat_map queue_ids (tm_containers s') = flat_map queue_ids (tm_containers s)
  /\ tm_clients s' = tm_clients s /\ tm_timer_id s' = tm_timer_id s
  /\ tm_tasks s' = tm_tasks s /\ hand s' = hand s /\ tm_log s' = tm_log s.
Proof.
  intros H. apply getLocal_cases in H as [[_ ->]|[_ ->]]; [done|]. cbn. by rewrite flat_map_app, app_nil_r.
Qed.

Lemma client_ids i r s s' : client_step i r s = Some s' -> ids_grow s s'.
Proof.
  unfold client_step. intros Hrun. destruct (tm_clients s !! i) as [c|] eqn:Ei; [|done].
  destruct r as [time|id|].
  - destruct (c_pc c) eqn:Epc; try done.
    destruct (getLocalTaskContainer (c_local c) s) as [[k s1]|] eqn:El; simplify_eq; [|by left].
    apply getLocal_queues in El as (Hq & Hc & Hid & Ht & Hh & Hl). right. rewrite <- Hid. split; [|done].
    unfold all_ids. change (hand (set_client _ _ _)) with (hand s1).
    cbn [tm_clients tm_containers tm_tasks tm_log set_client set_timer_id]. rewrite Hc, Hq, Ht, Hh, Hl.
    pose proof (flat_map_insert push_ids (tm_clients s) i c
      (mk_client (Some k) (C_push (mk_Task time (tm_timer_id s1)))) Ei) as Hp.
    assert (push_ids c = []) as Hn by (unfold push_ids; by rewrite Epc). rewrite Hn, app_nil_r in Hp.
    rewrite Hp. apply Permutation_submseteq. cbn [push_ids c_pc task_id]. solve_Permutation.
  - destruct (c_pc c) eqn:Epc; try done.
    destruct (getLocalTaskContainer (c_local c) s) as [[k s1]|] eqn:El; simplify_eq.
    apply getLocal_queues in El as (Hq & Hc & Hid & Ht & Hh & Hl). left. split; [|done].
    eapply quiet_ids; try done. by rewrite Hq.
  - left. destruct (c_local c) as [k|]; [|by destruct (c_pc c)].
    destruct (tm_containers s !! k) as [tc|] eqn:Ek; [|by destruct (c_pc c)].
    destruct (c_pc c) as [|t| | | | | |] eqn:Epc; try done.
    + case_match; simplify_eq; (split; [|done]); [|by eapply quiet_ids].
      unfold all_ids. change (hand (set_client _ _ _)) with (hand s).
      cbn [tm_clients tm_containers tm_tasks tm_log set_client set_containers].
      pose proof (flat_map_insert push_ids (tm_clients s) i c (mk_client (Some k) (C_load (abs_time t))) Ei) as Hp.
      pose proof (flat_map_insert queue_ids (tm_containers s) k tc
        (mk_TaskContainer (tc_tasks tc ++ [t]) (tc_abandon_tasks tc)) Ek) as Hq.
      unfold push_ids at 2 4 in Hp. rewrite Epc in Hp. cbn [c_pc] in Hp. rewrite app_nil_r in Hp.
      unfold queue_ids at 2 4 in Hq. cbn [tc_tasks] in Hq. rewrite fmap_app in Hq. cbn [fmap list_fmap] in Hq.
      rewrite app_assoc in Hq. rewrite (Permutation_app_comm _ [task_id t]) in Hq.
      rewrite (app_assoc [_]) in Hq. apply Permutation_app_inv_r in Hq. rewrite Hq, <- Hp.
      apply Permutation_submseteq. solve_Permutation.
    + simplify_eq. split; [|done]. by eapply quiet_ids.
    + repeat case_match; simplify_eq; (split; [|done]); by eapply quiet_ids.
    + simplify_eq. pose proof (notify_fields true s) as (?&Hq&?&?&?&?). split; [|done].
      eapply quiet_ids; try done. by rewrite Hq.
    + simplify_eq. pose proof (notify_fields (WARING_TASK_QUEUE_SIZE <=? Z.of_nat (length (tc_tasks tc))) s)
        as (?&Hq&?&?&?&?). split; [|done]. eapply quiet_ids; try done. by rewrite Hq.
    + case_match; simplify_eq; (split; [|done]); [|by eapply quiet_ids].
      eapply quiet_ids; try done. by eapply queue_ids_insert.
    + simplify_eq. pose proof (notify_fields (WARING_TASK_QUEUE_SIZE <=? Z.of_nat (length (tc_abandon_tasks tc))) s)
        as (?&Hq&?&?&?&?). split; [|done]. eapply quiet_ids; try done. by rewrite Hq.
Qed.

(** *** The timer thread *)

(** What collecting a queue does *)
Lemma collect_fold q : forall s, is_heap abs_time (tm_tasks s) ->
  exists h a, foldl collect_task s q = set_active a (set_tasks h s)
    /\ is_heap abs_time h /\ h ≡ₚ tm_tasks s ++ q
    /\ (forall id, id ∈ a <-> id ∈ tm_active_ids s \/ id ∈ task_id <$> q).
Proof.
  induction q as [|t q IH]; intros s Hh.
  - exists (tm_tasks s), (tm_active_ids s). cbn. rewrite app_nil_r. split_and!; try done; [by destruct s|]. intros id. rewrite elem_of_nil. tauto.
  - cbn [foldl]. destruct (push_heap_ok abs_time (tm_tasks s) t Hh) as [Hh1 Hp1].
    destruct (IH (collect_task s t)) as (h & a & -> & Hh2 & Hp2 & Ha); [done|].
    exists h, a. split_and!; [by destruct s|done| |].
    + rewrite Hp2. cbn [tm_tasks collect_task set_active set_tasks]. rewrite Hp1. solve_Permutation.
    + intros id. rewrite Ha. cbn. rewrite elem_of_union, elem_of_singleton, elem_of_cons. tauto.
Qed.

Lemma collectTasks_eq k s : is_heap abs_time (tm_tasks s) ->
  exists q h a cs, collectTasks k s = set_active a (set_tasks h (set_containers cs s))
    /\ is_heap abs_time h /\ h ≡ₚ tm_tasks s ++ q
    /\ (forall id, id ∈ a <-> id ∈ tm_active_ids s \/ id ∈ task_id <$> q)
    /\ flat_map queue_ids cs ++ (task_id <$> q) ≡ₚ flat_map queue_ids (tm_containers s)
    /\ length cs = length (tm_containers s)
    /\ (forall j tc, cs !! j = Some tc -> exists tc0, tm_containers s !! j = Some tc0
          /\ tc_abandon_tasks tc = tc_abandon_tasks tc0
          /\ tc_tasks tc = if decide (j = k) then [] else tc_tasks tc0)
    /\ (forall tc, tm_containers s !! k = Some tc -> q = tc_tasks tc).
Proof.
  intros Hh. unfold collectTasks. destruct (tm_containers s !! k) as [tc|] eqn:Ek.
  - destruct (collect_fold (tc_tasks tc) (set_containers (<[k := mk_TaskContainer [] (tc_abandon_tasks tc)]>
      (tm_containers s)) s) Hh) as (h & a & -> & Hh' & Hp & Ha).
    exists (tc_tasks tc), h, a, (<[k := mk_TaskContainer [] (tc_abandon_tasks tc)]> (tm_containers s)).
    split_and!; try done.
    + pose proof (flat_map_insert queue_ids _ k tc (mk_TaskContainer [] (tc_abandon_tasks tc)) Ek) as Hq.
      cbn in Hq. by rewrite app_nil_r in Hq.
    + apply length_insert.
    + intros j tc' Hj. apply list_lookup_insert_Some in Hj as [(-> & <- & _)|[Hne Hj]].
      * exists tc. by rewrite decide_True.
      * exists tc'. by rewrite decide_False by congruence.
    + intros tc' ?. by simplify_eq.
  - exists [], (tm_tasks s), (tm_active_ids s), (tm_containers s).
    rewrite !app_nil_r. split_and!; try done; [by destruct s|intros id; rewrite elem_of_nil; tauto|].
    intros j tc Hj. exists tc. rewrite decide_False by congruence. done.
Qed.

Lemma collectUnschedule_eq k s :
  exists a cs, collectUnschedule k s = set_active a (set_containers cs s)
    /\ a ⊆ tm_active_ids s /\ flat_map queue_ids cs ≡ₚ flat_map queue_ids (tm_containers s)
    /\ length cs = length (tm_containers s)
    /\ (forall j tc, cs !! j = Some tc -> exists tc0, tm_containers s !! j = Some tc0
          /\ tc_tasks tc = tc_tasks tc0
          /\ tc_abandon_tasks tc = if decide (j = k) then [] else tc_abandon_tasks tc0)
    /\ (forall tc id, tm_containers s !! k = Some tc -> id ∈ tc_abandon_tasks tc -> id ∉ a).
Proof.
  unfold collectUnschedule. destruct (tm_containers s !! k) as [tc|] eqn:Ek.
  - exists (tm_active_ids s ∖ list_to_set (tc_abandon_tasks tc)),
      (<[k := mk_TaskContainer (tc_tasks tc) []]> (tm_containers s)). split_and!; try done.
    + intros id. rewrite elem_of_difference. tauto.
    + by eapply queue_ids_insert.
    + apply length_insert.
    + intros j tc' Hj. apply list_lookup_insert_Some in Hj as [(-> & <- & _)|[Hne Hj]].
      * exists tc. by rewrite decide_True.
      * exists tc'. by rewrite decide_False by congruence.
    + intros tc' id ?. simplify_eq. rewrite elem_of_difference, elem_of_list_to_set. tauto.
  - exists (tm_active_ids s), (tm_containers s). split_and!; try done; [by destruct s|].
    intros j tc Hj. exists tc. rewrite decide_False by congruence. done.
Qed.

(** The front of the heap is taken out. *)
Lemma pop_eq t h : is_heap abs_time (t :: h) ->
  exists h', list.last (pop_heap (t :: h)) = Some t /\ removelast (pop_heap (t :: h)) = h'
    /\ is_heap abs_time h' /\ h' ≡ₚ h.
Proof.
  intros Hh. destruct (pop_heap_ok abs_time t h Hh) as (h' & -> & Hh' & Hp). exists h'.
  rewrite last_snoc, removelast_last. done.
Qed.

Lemma loop_ids now s s' :
  loop_step now s = Some s' -> is_heap abs_time (tm_tasks s) ->
  all_ids s' ⊆+ all_ids s /\ tm_timer_id s' = tm_timer_id s /\ is_heap abs_time (tm_tasks s').
Proof.
  intros Hrun Hh. unfold loop_step in Hrun.
  assert (forall l n, match l with L_cancel _ _ _ _ | L_exec _ _ => False | _ => True end ->
    all_ids (set_loop l (set_nearest n s)) ⊆+ all_ids s) as Hquiet.
  { intros l n Hl. unfold all_ids. assert (hand (set_loop l (set_nearest n s)) = []) as ->
      by (unfold hand; cbn; by destruct l). cbn [tm_clients tm_containers tm_tasks tm_log set_loop set_nearest].
    do 3 apply submseteq_skips_l. apply submseteq_inserts_l. done. }
  assert (forall l, match l with L_cancel _ _ _ _ | L_exec _ _ => False | _ => True end ->
    all_ids (set_loop l s) ⊆+ all_ids s) as Hquiet'.
  { intros l Hl. specialize (Hquiet l (tm_nearest_run_time s) Hl). by destruct s. }
  destruct (tm_loop s) as [| |near| |i size|i size| |t now0 i size|t now0| |near next|near|near|near|] eqn:El;
    try done.
  all: try (repeat case_match; simplify_eq; (split; [|done]); first [by apply Hquiet'|by apply Hquiet]).
  - case_match; simplify_eq; [|split; [by apply Hquiet'|done]].
    destruct (collectTasks_eq i s Hh) as (q & h & a & cs & -> & Hh' & Hp & _ & Hq & _).
    split; [|done]. unfold all_ids, hand. cbn [tm_clients tm_containers tm_tasks tm_log tm_loop set_loop
      set_active set_tasks set_containers]. rewrite El, Hp, fmap_app, <- Hq. apply Permutation_submseteq. solve_Permutation.
  - simplify_eq. destruct (collectUnschedule_eq i s) as (a & cs & -> & _ & Hq & _). split; [|done].
    unfold all_ids, hand. cbn [tm_clients tm_containers tm_tasks tm_log tm_loop set_loop
      set_active set_containers]. by rewrite El, Hq.
  - destruct (tm_tasks s) as [|task h] eqn:Et; [simplify_eq; split; [by apply Hquiet'|by cbn; rewrite Et]|].
    case_match; [simplify_eq; split; [by apply Hquiet'|by cbn; rewrite Et]|].
    case_match; [simplify_eq; split; [by apply Hquiet'|by cbn; rewrite Et]|].
    destruct (pop_eq task h Hh) as (h' & Hlast & Hrem & Hh' & Hp). rewrite Hlast in Hrun. simplify_eq.
    split; [|done]. unfold all_ids, hand. cbn [tm_clients tm_containers tm_tasks tm_log tm_loop set_loop set_tasks].
    rewrite El, Et, Hp. apply Permutation_submseteq. cbn [fmap list_fmap]. solve_Permutation.
  - case_match; simplify_eq.
    + destruct (collectUnschedule_eq i s) as (a & cs & -> & _ & Hq & _). split; [|done].
      unfold all_ids, hand. cbn [tm_clients tm_containers tm_tasks tm_log tm_loop set_loop
        set_active set_containers]. by rewrite El, Hq.
    + split; [|done]. unfold all_ids, hand. cbn [tm_clients tm_containers tm_tasks tm_log tm_loop set_loop]. by rewrite El.
  - simplify_eq. unfold run_task. case_bool_decide; [|split; [by apply Hquiet'|done]]. split; [|done].
    unfold all_ids, hand. cbn [tm_clients tm_containers tm_tasks tm_log tm_loop set_loop set_active add_log].
    rewrite El, !fmap_app. apply Permutation_submseteq. cbn. solve_Permutation.
  - simplify_eq. split; [by apply Hquiet'|done].
Qed.

(** *** Runs *)

(** No id is in two places, and none is handed out again; a task is taken from
    the heap, and run, when its time has come. *)
Record runs_ok (s : timer) : Prop := {
  ro_nodup : NoDup (all_ids s);
  ro_fresh : Forall (fun id => 0 < id < tm_timer_id s) (all_ids s);
  ro_id : 0 < tm_timer_id s;
  ro_heap : is_heap abs_time (tm_tasks s);
  ro_hand : match tm_loop s with
            | L_cancel t now _ _ | L_exec t now => abs_time t <= now
            | _ => True
            end;
  ro_log : Forall (fun e => abs_time e.1 <= e.2) (tm_log s)
}.

Lemma ids_grow_ok s s' :
  ids_grow s s' -> NoDup (all_ids s) -> Forall (fun id => 0 < id < tm_timer_id s) (all_ids s) ->
  0 < tm_timer_id s -> tm_timer_id s + 1 < 2 ^ 64 ->
  NoDup (all_ids s') /\ Forall (fun id => 0 < id < tm_timer_id s') (all_ids s') /\ 0 < tm_timer_id s'.
Proof.
  intros [[Hsub Hid]|[Hsub Hid]] Hnd Hf Hpos Hmax; rewrite Hid.
  - apply submseteq_Permutation in Hsub as [k Hp]. rewrite Hp in Hnd, Hf.
    apply list.NoDup_app in Hnd as (? & _ & _). apply Forall_app in Hf as [? _]. done.
  - rewrite u64_small by lia. apply submseteq_Permutation in Hsub as [k Hp].
    assert (NoDup (tm_timer_id s :: all_ids s)) as Hnd'.
    { apply list.NoDup_cons. split; [|done]. intros Hin. rewrite list.Forall_forall in Hf. apply Hf in Hin. lia. }
    assert (Forall (fun id => 0 < id < tm_timer_id s + 1) (tm_timer_id s :: all_ids s)) as Hf'.
    { apply list.Forall_cons. split; [lia|]. eapply Forall_impl; [|exact Hf]. cbn. lia. }
    rewrite Hp in Hnd', Hf'. apply list.NoDup_app in Hnd' as (? & _ & _). apply Forall_app in Hf' as [? _].
    split_and!; [done|done|lia].
Qed.

Lemma client_frame i r s s' : client_step i r s = Some s' ->
  tm_tasks s' = tm_tasks s /\ tm_log s' = tm_log s /\ tm_active_ids s' = tm_active_ids s /\ tm_exit s' = tm_exit s
  /\ (tm_loop s' = tm_loop s \/ exists n, tm_loop s = L_sleep n /\ tm_loop s' = L_check n).
Proof.
  unfold client_step. intros Hrun. destruct (tm_clients s !! i) as [c|]; [|done].
  destruct r; [..|destruct (c_local c) as [k|]; [|by destruct (c_pc c)];
    destruct (tm_containers s !! k) as [tc|]; [|by destruct (c_pc c)]]; destruct (c_pc c); try done.
  1, 2: destruct (getLocalTaskContainer _ _) as [[k s1]|] eqn:El; simplify_eq; try (split_and!; by try left);
    apply getLocal_cases in El as [[_ ->]|[_ ->]]; cbn; split_and!; by try left.
  all: repeat case_match; simplify_eq; cbn; try (split_and!; by try left).
  all: unfold notify_one; destruct (tm_loop s) eqn:El; cbn; rewrite ?El; split_and!; eauto.
Qed.

(** A step that only moves the timer thread to a place where it holds no task *)
Lemma quiet_loop s l :
  tm_loop s = L_sleep l -> forall l', match l' with L_check _ | L_top => True | _ => False end ->
  runs_ok s -> runs_ok (set_loop l' s).
Proof.
  intros Hl l' Hl' [H1 H2 H3 H4 _ H6].
  assert (all_ids (set_loop l' s) = all_ids s) as Heq.
  { unfold all_ids. do 3 f_equal. unfold hand. cbn. rewrite Hl. by destruct l'. }
  split; rewrite ?Heq; try done. cbn. by destruct l'.
Qed.

Lemma loop_hand now s s' :
  loop_step now s = Some s' -> runs_ok s ->
  match tm_loop s' with L_cancel t now _ _ | L_exec t now => abs_time t <= now | _ => True end
  /\ Forall (fun e => abs_time e.1 <= e.2) (tm_log s').
Proof.
  intros Hrun [_ _ _ Hh Hhand Hlog]. unfold loop_step in Hrun.
  destruct (tm_loop s) as [| |near| |i size|i size| |t now0 i size|t now0| |near next|near|near|near|] eqn:El; try done.
  all: try (repeat case_match; simplify_eq; done).
  - case_match; simplify_eq; [|done].
    by destruct (collectTasks_eq i s Hh) as (? & ? & ? & ? & -> & _).
  - simplify_eq. by destruct (collectUnschedule_eq i s) as (? & ? & -> & _).
  - destruct (tm_tasks s) as [|task h]; [by simplify_eq|]. case_match; [by simplify_eq|].
    case_match; [by simplify_eq|]. destruct (pop_eq task h Hh) as (h' & Hlast & _). rewrite Hlast in Hrun.
    simplify_eq. cbn. split; [lia|done].
  - case_match; simplify_eq; [|done]. by destruct (collectUnschedule_eq i s) as (? & ? & -> & _).
  - simplify_eq. unfold run_task. case_bool_decide; cbn; [|done]. split; [done|]. apply Forall_app. by split; [|constructor].
Qed.

Lemma runs_step s s' :
  timer_step s s' -> tm_timer_id s + 1 < 2 ^ 64 -> runs_ok s ->
  runs_ok s' /\ tm_timer_id s' <= tm_timer_id s + 1.
Proof.
  intros Hstep Hmax Hok. pose proof Hok as [Hnd Hf Hid Hh Hhand Hlog].
  destruct Hstep as [i r s s' Hrun|now s s' Hrun|timeout s s' Hrun|s|s].
  - pose proof (client_ids _ _ _ _ Hrun) as Hg.
    destruct (client_frame _ _ _ _ Hrun) as (Ht & Hl & _ & _ & Hloop).
    destruct (ids_grow_ok s s' Hg Hnd Hf Hid Hmax) as (? & ? & ?). split.
    + split; rewrite ?Ht, ?Hl; try done. destruct Hloop as [->|(n & _ & ->)]; done.
    + destruct Hg as [[_ ->]|[_ ->]]; [lia|]. rewrite u64_small; lia.
  - destruct (loop_ids _ _ _ Hrun Hh) as (Hsub & Heq & Hh').
    destruct (ids_grow_ok s s' ltac:(by left) Hnd Hf Hid Hmax) as (? & ? & ?).
    destruct (loop_hand _ _ _ Hrun Hok). split; [by split|lia].
  - unfold wake_step in Hrun. destruct (tm_loop s) eqn:El; simplify_eq.
    split; [|cbn; lia]. eapply quiet_loop; [done|by destruct timeout|done].
  - split; [by split|cbn; lia].
  - split; [|destruct (notify_fields true s) as (_ & _ & -> & _); lia].
    destruct (notify_cases true s) as [->|(n & Hs & ->)]; [done|]. by eapply quiet_loop.
Qed.

Lemma flat_map_replicate_nil {A B} (f : A -> list B) n x : f x = [] -> flat_map f (replicate n x) = [].
Proof. intros Hf. induction n as [|n IH]; [done|]. cbn. by rewrite Hf, IH. Qed.

Lemma new_timer_runs n : runs_ok (new_timer n).
Proof.
  assert (all_ids (new_timer n) = []) as Heq.
  { unfold all_ids. cbn. by rewrite flat_map_replicate_nil. }
  split; rewrite ?Heq; try done; constructor.
Qed.

Lemma runs_reachable clients n s :
  nsteps timer_step n (new_timer clients) s -> Z.of_nat n + 1 < 2 ^ 64 ->
  runs_ok s /\ tm_timer_id s <= Z.of_nat n + 1.
Proof.
  revert s. induction n as [|n IH]; intros s Hn Hmax.
  - inversion Hn; subst. split; [apply new_timer_runs|cbn; lia].
  - apply nsteps_inv_r in Hn as (s0 & Hn & Hstep). destruct (IH s0 Hn ltac:(lia)) as [Hok Hle].
    destruct (runs_step s0 s Hstep ltac:(lia) Hok) as [Hok' Hle']. split; [done|lia].
Qed.

(** *** Waking up *)

(** The timer thread will still empty the queue of container [k] in this
    round. *)
Definition collecting (k : nat) (s : timer) : Prop :=
  match tm_loop s with
  | L_size => True
  | L_tasks i size => (i <= k < size)%nat
  | L_abandon i size => (i < k < size)%nat
  | _ => False
  end.

(** A client of container [k] is about to lower the wake-up time to [time]. *)
Definition lowering (nearest : Z) (k : nat) (time : Z) (c : client) : Prop :=
  c_local c = Some k
  /\ match c_pc c with
     | C_load t => t = time
     | C_lower t near => t = time /\ nearest <= near
     | _ => False
     end.

Definition some_client (P : client -> Prop) (s : timer) : Prop :=
  exists j c, tm_clients s !! j = Some c /\ P c.

Definition covered (s : timer) (k : nat) (time : Z) : Prop :=
  tm_nearest_run_time s <= time \/ collecting k s \/ some_client (lowering (tm_nearest_run_time s) k time) s.

Record wakes_ok (s : timer) : Prop := {
  wo_queues : forall k tc t, tm_containers s !! k = Some tc -> t ∈ tc_tasks tc -> covered s k (abs_time t);
  wo_heap : match tm_loop s with
            | L_lower _ next => forall t, t ∈ tm_tasks s -> next <= abs_time t
            | L_deadline near | L_check near | L_sleep near => forall t, t ∈ tm_tasks s -> near <= abs_time t
            | _ => True
            end;
  wo_sleep : forall near, tm_loop s = L_sleep near ->
             tm_nearest_run_time s = near \/ some_client (fun c => c_pc c = C_notify) s
}.

Lemma some_client_set (P : client -> Prop) i c c' s s0 :
  tm_clients s !! i = Some c -> tm_clients s0 = tm_clients s -> some_client P s ->
  (P c -> P c') \/ ~ P c -> some_client P (set_client i c' s0).
Proof.
  intros Hi Hs (j & d & Hj & Hd) Hc. destruct (decide (j = i)) as [->|Hne].
  - simplify_eq. exists i, c'. cbn. rewrite Hs, list_lookup_insert_eq by (by eapply lookup_lt_Some).
    split; [done|]. destruct Hc; [auto|done].
  - exists j, d. cbn. rewrite Hs, list_lookup_insert_ne by done. done.
Qed.

(** A client step that leaves the wake-up time and the queued tasks alone *)
Lemma wakes_quiet i c c' s s0 :
  tm_clients s !! i = Some c -> tm_clients s0 = tm_clients s ->
  tm_nearest_run_time s0 = tm_nearest_run_time s -> tm_tasks s0 = tm_tasks s ->
  (tm_loop s0 = tm_loop s \/ exists n, tm_loop s = L_sleep n /\ tm_loop s0 = L_check n) ->
  (forall k tc, tm_containers s0 !! k = Some tc -> tc_tasks tc = []
     \/ exists tc0, tm_containers s !! k = Some tc0 /\ tc_tasks tc = tc_tasks tc0) ->
  (forall k time, lowering (tm_nearest_run_time s) k time c ->
     tm_nearest_run_time s <= time \/ lowering (tm_nearest_run_time s) k time c') ->
  (c_pc c = C_notify -> forall n, tm_loop s0 <> L_sleep n) ->
  wakes_ok s -> wakes_ok (set_client i c' s0).
Proof.
  intros Hi Hc Hn Ht Hl Hq Hlow Hnot [Hqs Hheap Hsleep]. split.
  - intros k tc t Hk Hin. destruct (Hq k tc Hk) as [Hnil|(tc0 & Hk0 & Heq)]; [by rewrite Hnil, elem_of_nil in Hin|].
    rewrite Heq in Hin. destruct (Hqs k tc0 t Hk0 Hin) as [Hle|[Hcol|Hsome]].
    + left. cbn. by rewrite Hn.
    + right; left. unfold collecting in *. cbn. destruct Hl as [->|(n & Hs & _)]; [done|by rewrite Hs in Hcol].
    + assert (tm_nearest_run_time (set_client i c' s0) = tm_nearest_run_time s) as Hn' by done.
      unfold covered. rewrite Hn'.
      destruct (decide (tm_nearest_run_time s <= abs_time t)) as [|Hgt]; [by left|]. right; right.
      apply (some_client_set _ i c c' s s0 Hi Hc Hsome). left. intros Hlo.
      by destruct (Hlow _ _ Hlo).
  - cbn. rewrite Ht. destruct Hl as [->|(n & Hs & ->)]; [done|]. by rewrite Hs in Hheap.
  - cbn. intros near Hnear. rewrite Hn. destruct Hl as [Hl|(n & _ & Hl)]; [|congruence].
    destruct (Hsleep near) as [|Hsome]; [congruence|by left|]. right.
    apply (some_client_set _ i c c' s s0 Hi Hc Hsome). right. intros Hpc. by apply (Hnot Hpc near).
Qed.

Lemma notify_wakes (b : bool) s :
  let s' := if b then notify_one s else s in
  tm_clients s' = tm_clients s /\ tm_nearest_run_time s' = tm_nearest_run_time s /\ tm_tasks s' = tm_tasks s
  /\ tm_containers s' = tm_containers s
  /\ (tm_loop s' = tm_loop s \/ exists n, tm_loop s = L_sleep n /\ tm_loop s' = L_check n)
  /\ (b = true -> forall n, tm_loop s' <> L_sleep n).
Proof.
  destruct b; cbv zeta; [|by split_and!; try left].
  unfold notify_one. destruct (tm_loop s) eqn:El; cbn; rewrite ?El; split_and!; eauto; congruence.
Qed.

Lemma client_wakes i r s s' : client_step i r s = Some s' -> wakes_ok s -> wakes_ok s'.
Proof.
  unfold client_step. intros Hrun Hok. destruct (tm_clients s !! i) as [c|] eqn:Ei; [|done].
  assert (forall k tc, tm_containers s !! k = Some tc -> tc_tasks tc = []
     \/ exists tc0, tm_containers s !! k = Some tc0 /\ tc_tasks tc = tc_tasks tc0) as Hsame by eauto.
  destruct r as [time|id|].
  1, 2: destruct (c_pc c) eqn:Epc; try done;
    destruct (getLocalTaskContainer (c_local c) s) as [[k s1]|] eqn:El; simplify_eq; try done;
    apply getLocal_cases in El as [[_ ->]|[_ ->]];
    (eapply (wakes_quiet i c); [done|done|done|done|by left| |by intros ? ? [_ Hl]; rewrite Epc in Hl|congruence|done]);
    [done|]; cbn; intros k0 tc; rewrite lookup_app; intros Hk0; case_match; simplify_eq; eauto;
    left; apply list_lookup_singleton_Some in Hk0 as [_ <-]; done.
  destruct (c_local c) as [k|] eqn:Ek; [|by destruct (c_pc c)].
  destruct (tm_containers s !! k) as [tc|] eqn:Etc; [|by destruct (c_pc c)].
  assert (forall s0 pc', tm_clients s0 = tm_clients s ->
    tm_nearest_run_time s0 = tm_nearest_run_time s -> tm_tasks s0 = tm_tasks s ->
    tm_containers s0 = tm_containers s ->
    (tm_loop s0 = tm_loop s \/ exists n, tm_loop s = L_sleep n /\ tm_loop s0 = L_check n) ->
    (forall k time, lowering (tm_nearest_run_time s) k time c ->
       tm_nearest_run_time s <= time \/ lowering (tm_nearest_run_time s) k time (mk_client (Some k) pc')) ->
    (c_pc c = C_notify -> forall n, tm_loop s0 <> L_sleep n) ->
    wakes_ok (set_client i (mk_client (Some k) pc') s0)) as Hgo.
  { intros s0 pc' H1 H2 H3 H4 H5 H6 H7. eapply (wakes_quiet i c); try done.
    - intros k0 tc0 Hk0. rewrite H4 in Hk0. eauto.
    - intros k0 time Hlo. assert (k0 = k) as -> by (destruct Hlo; congruence). by apply H6. }
  destruct (c_pc c) as [|t|time|time near| | |id|] eqn:Epc; try done.
  - case_match; simplify_eq.
    2:{ apply Hgo; [done|done|done|done|by left| |congruence]. intros k0 time0 [_ Hl]. by rewrite Epc in Hl. }
    destruct Hok as [Hqs Hheap Hsleep].
    assert (forall k0 time0, ~ lowering (tm_nearest_run_time s) k0 time0 c) as Hno
      by (intros k0 time0 [_ Hl]; by rewrite Epc in Hl).
    split; [|done|].
    + intros k0 tc0 t0 Hk0 Hin. cbn in Hk0.
      assert (t0 = t /\ k0 = k \/ exists tc1, tm_containers s !! k0 = Some tc1 /\ t0 ∈ tc_tasks tc1) as [[-> ->]|(tc1 & Hk1 & Hin1)].
      { apply list_lookup_insert_Some in Hk0 as [(<- & <- & _)|[_ Hk0]]; [|by eauto].
        cbn in Hin. apply elem_of_app in Hin as [Hin|Hin]; [by eauto|]. apply list_elem_of_singleton in Hin. by left. }
      * right; right. exists i, (mk_client (Some k) (C_load (abs_time t))). cbn.
        rewrite list_lookup_insert_eq by (by eapply lookup_lt_Some). by split_and!.
      * destruct (Hqs k0 tc1 t0 Hk1 Hin1) as [Hle|[Hcol|Hsome]]; [by left|by right; left|right; right].
        by eapply (some_client_set _ i c); [done|done|done|right].
    + intros near Hnear. destruct (Hsleep near Hnear) as [|Hsome]; [by left|right].
      eapply (some_client_set _ i c); [done|done|done|right]. congruence.
  - simplify_eq. apply Hgo; [done|done|done|done|by left| |congruence].
    intros k0 time0 [Hk0 Hl]. rewrite Epc in Hl. right. split; [done|]. cbn. lia.
  - case_match; [|case_match]; simplify_eq; breflect.
    + apply Hgo; [done|done|done|done|by left| |congruence].
      intros k0 time0 [Hk0 Hl]. rewrite Epc in Hl. left. lia.
    + subst near. destruct Hok as [Hqs Hheap Hsleep]. split; [|done|].
      * intros k0 tc0 t0 Hk0 Hin. destruct (Hqs k0 tc0 t0 Hk0 Hin) as [Hle|[Hcol|(j & d & Hj & Hlow)]].
        -- left. cbn. lia.
        -- by right; left.
        -- destruct (decide (j = i)) as [->|Hne].
           ++ simplify_eq. destruct Hlow as [_ Hl]. rewrite Epc in Hl. left. cbn. lia.
           ++ right; right. exists j, d. cbn. rewrite list_lookup_insert_ne by done. split; [done|].
              destruct Hlow as [Hk1 Hl]. split; [done|]. destruct (c_pc d); try done. cbn. lia.
      * intros near Hnear. right. exists i, (mk_client (Some k) C_notify). cbn.
        rewrite list_lookup_insert_eq by (by eapply lookup_lt_Some). done.
    + apply Hgo; [done|done|done|done|by left| |congruence].
      intros k0 time0 [Hk0 Hl]. rewrite Epc in Hl. right. split; [done|]. cbn. lia.
  - simplify_eq. destruct (notify_wakes true s) as (H1 & H2 & H3 & H4 & H5 & H6).
    apply Hgo; try done; [|by intros _; apply H6]. intros k0 time0 [_ Hl]. by rewrite Epc in Hl.
  - simplify_eq. destruct (notify_wakes (WARING_TASK_QUEUE_SIZE <=? Z.of_nat (length (tc_tasks tc))) s)
      as (H1 & H2 & H3 & H4 & H5 & H6).
    apply Hgo; try done. intros k0 time0 [_ Hl]. by rewrite Epc in Hl.
  - case_match; simplify_eq.
    2:{ apply Hgo; [done|done|done|done|by left| |congruence]. intros k0 time0 [_ Hl]. by rewrite Epc in Hl. }
    eapply (wakes_quiet i c); [done|done|done|done|by left| |by intros ? ? [_ Hl]; rewrite Epc in Hl|congruence|done].
    cbn. intros k0 tc0 Hk0. apply list_lookup_insert_Some in Hk0 as [(<- & <- & _)|[_ Hk0]]; eauto.
  - simplify_eq. destruct (notify_wakes (WARING_TASK_QUEUE_SIZE <=? Z.of_nat (length (tc_abandon_tasks tc))) s)
      as (H1 & H2 & H3 & H4 & H5 & H6).
    apply Hgo; try done. intros k0 time0 [_ Hl]. by rewrite Epc in Hl.
Qed.

Lemma some_client_mono (P Q : client -> Prop) s s' :
  tm_clients s' = tm_clients s -> (forall c, P c -> Q c) -> some_client P s -> some_client Q s'.
Proof. intros Hc HPQ (j & c & Hj & HP). exists j, c. rewrite Hc. auto. Qed.

Lemma run_task_frame now s t :
  tm_containers (run_task now s t) = tm_containers s /\ tm_clients (run_task now s t) = tm_clients s
  /\ tm_nearest_run_time (run_task now s t) = tm_nearest_run_time s /\ tm_tasks (run_task now s t) = tm_tasks s.
Proof. unfold run_task. by case_bool_decide. Qed.

(** A step of the timer thread that does not raise the wake-up time *)
Lemma wakes_loop s s' :
  tm_clients s' = tm_clients s -> tm_nearest_run_time s' <= tm_nearest_run_time s ->
  (forall k tc, tm_containers s' !! k = Some tc -> tc_tasks tc = []
     \/ exists tc0, tm_containers s !! k = Some tc0 /\ tc_tasks tc = tc_tasks tc0 /\ (collecting k s -> collecting k s')) ->
  match tm_loop s' with
  | L_lower _ next => forall t, t ∈ tm_tasks s' -> next <= abs_time t
  | L_deadline near | L_check near => forall t, t ∈ tm_tasks s' -> near <= abs_time t
  | L_sleep near => tm_nearest_run_time s' = near /\ forall t, t ∈ tm_tasks s' -> near <= abs_time t
  | _ => True
  end ->
  wakes_ok s -> wakes_ok s'.
Proof.
  intros Hc Hn Hq Hl [Hqs _ _]. split.
  - intros k tc t Hk Hin. destruct (Hq k tc Hk) as [Hnil|(tc0 & Hk0 & Heq & Hcol)];
      [by rewrite Hnil, elem_of_nil in Hin|]. rewrite Heq in Hin.
    destruct (Hqs k tc0 t Hk0 Hin) as [Hle|[Hco|Hsome]]; [left; lia|right; left; auto|right; right].
    eapply some_client_mono; [done| |done]. intros c [Hlo Hpc]. split; [done|].
    destruct (c_pc c); try done. lia.
  - destruct (tm_loop s'); try done. apply Hl.
  - intros near Hs. rewrite Hs in Hl. left. apply Hl.
Qed.

Lemma loop_wakes now s s' : loop_step now s = Some s' -> runs_ok s -> wakes_ok s -> wakes_ok s'.
Proof.
  intros Hrun Hruns Hok. pose proof (ro_heap _ Hruns) as Hh. pose proof (wo_heap _ Hok) as Hwh. unfold loop_step in Hrun.
  assert (forall l, (match l with L_lower _ next => forall t, t ∈ tm_tasks s -> next <= abs_time t
      | L_deadline near | L_check near => forall t, t ∈ tm_tasks s -> near <= abs_time t
      | L_sleep near => tm_nearest_run_time s = near /\ forall t, t ∈ tm_tasks s -> near <= abs_time t | _ => True end) ->
    (forall k, (k < length (tm_containers s))%nat -> collecting k s -> collecting k (set_loop l s)) ->
    wakes_ok (set_loop l s)) as Hmove.
  { intros l Hl Hcol. apply (wakes_loop s); cbn; [done|lia| |done|done].
    intros k tc Hk. right. exists tc. split_and!; try done. apply Hcol. by eapply lookup_lt_Some. }
  destruct (tm_loop s) as [| |near| |i size|i size| |t now0 i size|t now0| |near next|near|near|near|] eqn:El; try done.
  all: assert (forall k, collecting k s <-> match tm_loop s with L_size => True | L_tasks i n => (i <= k < n)%nat
    | L_abandon i n => (i < k < n)%nat | _ => False end) as Hcs by done; rewrite El in Hcs.
  - simplify_eq. apply Hmove; [by destruct (tm_exit s)|]. intros k _ Hk. by apply Hcs in Hk.
  - simplify_eq. apply Hmove; [done|]. intros k _ Hk. by apply Hcs in Hk.
  - case_match; simplify_eq; [|apply Hmove; [done|]; intros k _ Hk; by apply Hcs in Hk].
    split; [|done|done]. intros k tc t Hk Hin. by right; left.
  - simplify_eq. apply Hmove; [done|]. intros k Hlt _. cbn. lia.
  - case_match eqn:Eb; simplify_eq.
    + destruct (collectTasks_eq i s Hh) as (q & h & a & cs & -> & _ & _ & _ & _ & _ & Hcont & _).
      apply (wakes_loop s); [done|cbn; lia| |done|done]. cbn. intros k tc Hk.
      destruct (Hcont k tc Hk) as (tc0 & Hk0 & _ & ->). case_decide; [by left|]. right. exists tc0.
      split_and!; try done. rewrite Hcs. cbn. lia.
    + apply Hmove; [done|]. intros k _ Hk. apply Hcs in Hk. apply Nat.ltb_ge in Eb. lia.
  - simplify_eq. destruct (collectUnschedule_eq i s) as (a & cs & -> & _ & _ & _ & Hcont & _).
    apply (wakes_loop s); [done|cbn; lia| |done|done]. cbn. intros k tc Hk.
    destruct (Hcont k tc Hk) as (tc0 & Hk0 & Heq & _). right. exists tc0. split_and!; try done. rewrite Hcs. cbn. lia.
  - destruct (tm_tasks s) as [|task h] eqn:Et; [simplify_eq; apply Hmove; [done|]; intros k _ Hk; by apply Hcs in Hk|].
    case_match; [simplify_eq; apply Hmove; [done|]; intros k _ Hk; by apply Hcs in Hk|].
    case_match; [simplify_eq; apply Hmove; [done|]; intros k _ Hk; by apply Hcs in Hk|].
    destruct (pop_eq task h Hh) as (h' & Hlast & Hrem & _). rewrite Hlast in Hrun. simplify_eq.
    apply (wakes_loop s); [done|cbn; lia| |done|done]. cbn. intros k tc Hk. right. exists tc. split_and!; try done.
    by rewrite Hcs.
  - case_match; simplify_eq; [|apply Hmove; [done|]; intros k _ Hk; by apply Hcs in Hk].
    destruct (collectUnschedule_eq i s) as (a & cs & -> & _ & _ & _ & Hcont & _).
    apply (wakes_loop s); [done|cbn; lia| |done|done]. cbn. intros k tc Hk.
    destruct (Hcont k tc Hk) as (tc0 & Hk0 & Heq & _). right. exists tc0. split_and!; try done. by rewrite Hcs.
  - simplify_eq. destruct (run_task_frame now0 s t) as (Hc & Hcl & Hnr & Ht).
    apply (wakes_loop s); cbn; [done|lia| |done|done]. rewrite Hc.
    intros k tc Hk. right. exists tc. split_and!; try done. by rewrite Hcs.
  - simplify_eq. apply Hmove; [|intros k _ Hk; by apply Hcs in Hk].
    destruct (tm_tasks s) as [|t0 h]; [intros t Ht; by apply elem_of_nil in Ht|].
    intros t Ht. apply elem_of_cons in Ht as [->|Ht]; [done|].
    pose proof (heap_least abs_time t0 h Hh) as Hmin. rewrite list.Forall_forall in Hmin. by apply Hmin.
  - case_match; [case_match|]; simplify_eq; breflect.
    + apply (wakes_loop s); [done|cbn; lia| |done|done].
      cbn. intros k tc Hk. right. exists tc. split_and!; try done. by rewrite Hcs.
    + apply Hmove; [done|]. intros k _ Hk. by apply Hcs in Hk.
    + apply Hmove; [|intros k _ Hk; by apply Hcs in Hk]. intros t Ht. specialize (Hwh t Ht). lia.
  - simplify_eq. case_match; (apply Hmove; [|intros k _ Hk; by apply Hcs in Hk]); done.
  - simplify_eq. case_match eqn:Eb; (apply Hmove; [|intros k _ Hk; by apply Hcs in Hk]); [done|].
    breflect. split; [congruence|done].
Qed.

Lemma wakes_step s s' : timer_step s s' -> runs_ok s -> wakes_ok s -> wakes_ok s'.
Proof.
  intros Hstep Hruns Hok. destruct Hstep as [i r s s' Hrun|now s s' Hrun|timeout s s' Hrun|s|s].
  - by eapply client_wakes.
  - by eapply loop_wakes.
  - unfold wake_step in Hrun. destruct (tm_loop s) as [| | | | | | | | | | | | |near|] eqn:El; simplify_eq.
    pose proof (wo_heap _ Hok) as Hwh. rewrite El in Hwh.
    apply (wakes_loop s); [done|cbn; lia| |by destruct timeout|done].
    intros k tc Hk. right. exists tc. split_and!; try done. unfold collecting. by rewrite El.
  - destruct Hok as [Hqs Hheap Hsleep]. by split.
  - destruct (notify_cases true s) as [->|(n & Hs & ->)]; [done|]. pose proof (wo_heap _ Hok) as Hwh. rewrite Hs in Hwh.
    apply (wakes_loop s); [done|cbn; lia| |done|done].
    intros k tc Hk. right. exists tc. split_and!; try done. unfold collecting. by rewrite Hs.
Qed.

Lemma timer_reachable clients n s :
  nsteps timer_step n (new_timer clients) s -> Z.of_nat n + 1 < 2 ^ 64 -> runs_ok s /\ wakes_ok s.
Proof.
  revert s. induction n as [|n IH]; intros s Hn Hmax.
  - inversion Hn; subst. split; [apply new_timer_runs|by split].
  - pose proof (runs_reachable clients (S n) s Hn Hmax) as [Hruns _]. split; [done|].
    apply nsteps_inv_r in Hn as (s0 & Hn & Hstep). destruct (IH s0 Hn ltac:(lia)) as [Hok Hw].
    by eapply wakes_step.
Qed.

(** *** Cancelling *)

(** Task [id] has been collected, and will not run: it is no longer active, or
    its cancellation waits in container [k], which the timer thread reads
    before it runs the task. *)
Definition doomed (id : Z) (s : timer) : Prop :=
  id < tm_timer_id s
  /\ (id ∉ flat_map push_ids (tm_clients s) ++ flat_map queue_ids (tm_containers s))
  /\ ((id ∉ tm_active_ids s)
      \/ exists k tc, tm_containers s !! k = Some tc /\ id ∈ tc_abandon_tasks tc
          /\ match tm_loop s with
             | L_cancel t _ i size => task_id t = id -> (i <= k < size)%nat
             | L_exec t _ => task_id t <> id
             | _ => True
             end).

(** The abandoned ids of the containers only grow by the step. *)
Definition abandon_le (cs cs' : list TaskContainer) : Prop :=
  forall k tc, cs !! k = Some tc -> exists tc', cs' !! k = Some tc' /\ tc_abandon_tasks tc ⊆ tc_abandon_tasks tc'.

Lemma abandon_le_insert cs k tc tc' :
  cs !! k = Some tc -> tc_abandon_tasks tc ⊆ tc_abandon_tasks tc' -> abandon_le cs (<[k := tc']> cs).
Proof.
  intros Hk Hsub j tcj Hj. destruct (decide (j = k)) as [->|Hne].
  - simplify_eq. exists tc'. rewrite list_lookup_insert_eq by (by eapply lookup_lt_Some). done.
  - exists tcj. by rewrite list_lookup_insert_ne.
Qed.

Lemma client_abandon i r s s' : client_step i r s = Some s' -> abandon_le (tm_containers s) (tm_containers s').
Proof.
  assert (forall cs, abandon_le cs cs) as Hrefl by (intros cs k tc Hk; by exists tc).
  unfold client_step. intros Hrun. destruct (tm_clients s !! i) as [c|]; [|done].
  destruct r; [..|destruct (c_local c) as [k|]; [|by destruct (c_pc c)];
    destruct (tm_containers s !! k) as [tc|] eqn:Ek; [|by destruct (c_pc c)]]; destruct (c_pc c); try done.
  1, 2: destruct (getLocalTaskContainer _ _) as [[k s1]|] eqn:El; simplify_eq; try apply Hrefl;
    apply getLocal_cases in El as [[_ ->]|[_ ->]]; cbn; [apply Hrefl|]; intros j tc Hj; exists tc;
    (split; [by apply lookup_app_l_Some|done]).
  all: repeat case_match; simplify_eq; cbn; try apply Hrefl.
  - by eapply abandon_le_insert.
  - unfold notify_one. destruct (tm_loop s); apply Hrefl.
  - unfold notify_one. destruct (tm_loop s); apply Hrefl.
  - eapply abandon_le_insert; [done|]. cbn. intros x Hx. apply elem_of_app. by left.
  - unfold notify_one. destruct (tm_loop s); apply Hrefl.
Qed.

Lemma client_queued i r s s' : client_step i r s = Some s' ->
  flat_map push_ids (tm_clients s') ++ flat_map queue_ids (tm_containers s')
    ⊆+ flat_map push_ids (tm_clients s) ++ flat_map queue_ids (tm_containers s)
  \/ flat_map push_ids (tm_clients s') ++ flat_map queue_ids (tm_containers s')
    ⊆+ tm_timer_id s :: flat_map push_ids (tm_clients s) ++ flat_map queue_ids (tm_containers s).
Proof.
  intros Hrun. destruct (client_frame _ _ _ _ Hrun) as (Ht & Hl & _ & _ & Hloop).
  assert (hand s' = hand s) as Hh.
  { unfold hand. destruct Hloop as [->|(n & -> & ->)]; done. }
  destruct (client_ids _ _ _ _ Hrun) as [[Hsub _]|[Hsub _]]; [left|right];
    unfold all_ids in Hsub; rewrite Ht, Hl, Hh, !app_assoc in Hsub.
  - by do 3 apply submseteq_app_inv_r in Hsub.
  - rewrite !app_comm_cons in Hsub. by do 3 apply submseteq_app_inv_r in Hsub.
Qed.

Lemma client_doomed i r s s' id :
  client_step i r s = Some s' -> runs_ok s -> tm_timer_id s + 1 < 2 ^ 64 -> doomed id s -> doomed id s'.
Proof.
  intros Hrun Hruns Hmax (Hlt & Hno & Hd).
  destruct (runs_step s s' (by_client _ _ _ _ Hrun) Hmax Hruns) as [_ _].
  destruct (client_frame _ _ _ _ Hrun) as (_ & _ & Ha & _ & Hloop). split_and!.
  - destruct (client_ids _ _ _ _ Hrun) as [[_ ->]|[_ ->]]; [done|]. pose proof (ro_id _ Hruns).
    rewrite u64_small; lia.
  - intros Hin. destruct (client_queued _ _ _ _ Hrun) as [Hsub|Hsub]; eapply elem_of_submseteq in Hsub; try done.
    apply elem_of_cons in Hsub as [->|]; [lia|done].
  - rewrite Ha. destruct Hd as [?|(k & tc & Hk & Hin & Hl)]; [by left|right].
    destruct (client_abandon _ _ _ _ Hrun k tc Hk) as (tc' & Hk' & Hsub). exists k, tc'. split_and!; [done|auto|].
    destruct Hloop as [->|(n & _ & ->)]; done.
Qed.

Lemma loop_doomed now s s' id :
  loop_step now s = Some s' -> runs_ok s -> doomed id s ->
  doomed id s' /\ forall t now, (t, now) ∈ tm_log s' -> task_id t = id -> (t, now) ∈ tm_log s.
Proof.
  intros Hrun Hruns Hdoom. pose proof Hdoom as (Hlt & Hno & Hd). pose proof (ro_heap _ Hruns) as Hh.
  unfold loop_step in Hrun.
  assert (forall l n, match l with L_cancel _ _ _ _ | L_exec _ _ => False | _ => True end ->
    doomed id (set_loop l (set_nearest n s))) as Hquiet.
  { intros l n Hl. split_and!; [done|done|]. destruct Hd as [?|(k & tc & ? & ? & _)]; [by left|right].
    exists k, tc. split_and!; try done. cbn. by destruct l. }
  assert (forall l, match l with L_cancel _ _ _ _ | L_exec _ _ => False | _ => True end ->
    doomed id (set_loop l s)) as Hquiet'.
  { intros l Hl. specialize (Hquiet l (tm_nearest_run_time s) Hl). by destruct s. }
  (* reading the cancellations of container [i] *)
  assert (forall i l, match l with
      | L_cancel t _ j size => exists now0, tm_loop s = L_cancel t now0 i size /\ j = S i
      | L_exec _ _ => False | _ => True end ->
    doomed id (set_loop l (collectUnschedule i s)) /\ tm_log (set_loop l (collectUnschedule i s)) = tm_log s) as Hread.
  { intros i l Hl. destruct (collectUnschedule_eq i s) as (a & cs & -> & Hsub & Hq & Hlen & Hcont & Hgone).
    split; [|done]. split_and!; [done|cbn; by rewrite Hq|].
    destruct (decide (id ∈ a)) as [Hin|]; [|by left].
    destruct Hd as [Hn|(k & tc & Hk & Hab & Hpc)]; [left; cbn; set_solver|]. right.
    assert (k <> i) as Hki by (intros ->; by apply (Hgone tc id Hk Hab)).
    destruct (lookup_lt_is_Some_2 cs k) as [tc' Hk']; [rewrite Hlen; by eapply lookup_lt_Some|].
    destruct (Hcont k tc' Hk') as (tc0 & Hk0 & _ & Heq). rewrite decide_False in Heq by done. simplify_eq.
    exists k, tc'. split_and!; [done|by rewrite Heq|]. cbn. destruct l; try done.
    destruct Hl as (nw & Hs & ->). rewrite Hs in Hpc. intros Ht. specialize (Hpc Ht). lia. }
  destruct (tm_loop s) as [| |near| |i size|i size| |t now0 i size|t now0| |near next|near|near|near|] eqn:El; try done.
  all: try (repeat case_match; simplify_eq; (split; [|done]); first [by apply Hquiet'|by apply Hquiet]).
  - case_match; simplify_eq; [|split; [by apply Hquiet'|done]].
    destruct (collectTasks_eq i s Hh) as (q & h & a & cs & -> & _ & _ & Ha & Hq & Hlen & Hcont & _).
    split; [|done]. rewrite <- Hq in Hno. rewrite !elem_of_app in Hno. split_and!; [done|cbn; rewrite elem_of_app; tauto|].
    destruct Hd as [Hn|(k & tc & Hk & Hab & _)]; [left; cbn; rewrite Ha; tauto|right].
    destruct (lookup_lt_is_Some_2 cs k) as [tc' Hk']; [rewrite Hlen; by eapply lookup_lt_Some|].
    destruct (Hcont k tc' Hk') as (tc0 & Hk0 & Heq & _). simplify_eq.
    exists k, tc'. split_and!; [done|by rewrite Heq|done].
  - simplify_eq. destruct (Hread i (L_tasks (S i) size) I) as [? ->]. done.
  - destruct (tm_tasks s) as [|task h]; [simplify_eq; split; [by apply Hquiet'|done]|].
    case_match; [simplify_eq; split; [by apply Hquiet'|done]|].
    case_match; [simplify_eq; split; [by apply Hquiet'|done]|].
    destruct (pop_eq task h Hh) as (h' & Hlast & Hrem & _). rewrite Hlast in Hrun. simplify_eq.
    split; [|done]. split_and!; [done|done|]. destruct Hd as [?|(k & tc & Hk & Hab & _)]; [by left|right].
    exists k, tc. split_and!; try done. cbn. intros _. split; [lia|by eapply lookup_lt_Some].
  - case_match eqn:Eb; simplify_eq.
    + destruct (Hread i (L_cancel t now0 (S i) size)) as [? ->]; [by exists now0|done].
    + split; [|done]. split_and!; [done|done|]. destruct Hd as [?|(k & tc & Hk & Hab & Hpc)]; [by left|right].
      exists k, tc. split_and!; try done. cbn. intros Ht. specialize (Hpc Ht). apply Nat.ltb_ge in Eb. lia.
  - simplify_eq. unfold run_task. case_bool_decide as Hact; [|split; [by apply Hquiet'|done]]. split.
    + split_and!; [done|done|]. destruct Hd as [Hn|(k & tc & Hk & Hab & _)]; [left; cbn; rewrite elem_of_difference; tauto|right].
      exists k, tc. by split_and!.
    + cbn. intros t' now' Hin Ht'. apply elem_of_app in Hin as [|Hin]; [done|].
      apply list_elem_of_singleton in Hin. simplify_eq.
      destruct Hd as [Hn|(k & tc & Hk & Hab & Hpc)]; [done|done].
Qed.

Lemma doomed_run m id : forall s s',
  nsteps timer_step m s s' -> runs_ok s -> tm_timer_id s + Z.of_nat m < 2 ^ 64 -> doomed id s ->
  forall t now, (t, now) ∈ tm_log s' -> task_id t = id -> (t, now) ∈ tm_log s.
Proof.
  induction m as [|m IH]; intros s s' Hn Hruns Hmax Hd t now Hin Ht; inversion Hn as [|? ? s1 ? Hstep Hrest]; subst; [done|].
  destruct (runs_step s s1 Hstep ltac:(lia) Hruns) as [Hruns1 Hle1].
  assert (doomed (task_id t) s1 /\ ((t, now) ∈ tm_log s1 -> (t, now) ∈ tm_log s)) as [Hd1 Hlog].
  { destruct Hstep as [i r s s1 Hrun|now0 s s1 Hrun|timeout s s1 Hrun|s|s].
    - split; [eapply client_doomed; (done || lia)|]. by destruct (client_frame _ _ _ _ Hrun) as (_ & -> & _).
    - destruct (loop_doomed _ _ _ _ Hrun Hruns Hd) as [? Hl]. split; [done|]. intros Hi. by apply Hl.
    - unfold wake_step in Hrun. destruct (tm_loop s) eqn:El; simplify_eq. split; [|done].
      destruct Hd as (? & ? & Hd). split_and!; [done|done|]. destruct Hd as [?|(k & tc & ? & ? & _)]; [by left|right].
      exists k, tc. split_and!; try done. by destruct timeout.
    - done.
    - destruct (notify_cases true s) as [->|(nr & Hs & ->)]; [done|]. split; [|done].
      destruct Hd as (? & ? & Hd). split_and!; [done|done|]. destruct Hd as [?|(k & tc & ? & ? & _)]; [by left|right].
      by exists k, tc. }
  apply Hlog. by apply (IH s1 s' Hrest Hruns1 ltac:(lia) Hd1).
Qed.

Lemma cancelled_doomed s t k tc :
  runs_ok s -> t ∈ tm_tasks s -> tm_containers s !! k = Some tc -> task_id t ∈ tc_abandon_tasks tc ->
  doomed (task_id t) s /\ forall t' now, (t', now) ∈ tm_log s -> task_id t' <> task_id t.
Proof.
  intros [Hnd Hf _ _ _ _] Hin Hk Hab. unfold all_ids in Hnd, Hf. rewrite app_assoc in Hnd.
  apply list.NoDup_app in Hnd as (_ & Hdis & Hnd). apply list.NoDup_app in Hnd as (_ & Hdis2 & _).
  assert (task_id t ∈ task_id <$> tm_tasks s) as Hid by (apply list_elem_of_fmap; eauto).
  specialize (Hdis2 _ Hid). rewrite elem_of_app in Hdis2. split.
  - split_and!.
    + rewrite list.Forall_forall in Hf. apply Hf. rewrite !elem_of_app. tauto.
    + intros Hq. apply (Hdis _ Hq). rewrite !elem_of_app. tauto.
    + right. exists k, tc. split_and!; [done|done|]. unfold hand in Hdis2.
      destruct (tm_loop s); try done; cbn in Hdis2; rewrite list_elem_of_singleton in Hdis2;
        try (intros Heq; exfalso); apply Hdis2; left; congruence.
  - intros t' now Hlog Heq. apply Hdis2. right. apply list_elem_of_fmap. exists t'. split; [done|].
    apply list_elem_of_fmap. by exists (t', now).
Qed.
End Invariants.
