(* ===== verification/TimeThreadProps.v ===== *)
(** * What the timer thread promises

    Theorems on the runs of TimeThread: tasks run once and not early, the timer
    does not oversleep, cancelled tasks do not run, due tasks do, and nothing is
    lost when it shuts down; with a cancellation that is lost. *)

From stdpp Require Import gmap relations.
From S2P Require Import Prelude Heap TimeThread.

(** ** Theorems *)

(** C9: whatever the threads do and however they interleave, a task is run at
    most once, never before its time, and only when it was scheduled: it has
    an id the timer has handed out, and is in no queue and not in the heap any
    more. *)
Theorem timer_runs_once `{!StdHeap abs_time} (clients n : nat) (s : timer) :
  nsteps timer_step n (new_timer clients) s -> Z.of_nat n + 1 < 2 ^ 64 ->
  NoDup (task_id <$> (tm_log s).*1)
  /\ forall t now, (t, now) ∈ tm_log s ->
       abs_time t <= now /\ 0 < task_id t < tm_timer_id s
       /\ (task_id t ∉ task_id <$> tm_tasks s)
       /\ (task_id t ∉ flat_map queue_ids (tm_containers s)).
Proof.
  intros Hn Hmax. destruct (timer_reachable clients n s Hn Hmax) as [[Hnd Hf _ _ _ Hlog] _].
  unfold all_ids in Hnd, Hf. split; [by repeat apply list.NoDup_app in Hnd as (_ & _ & Hnd)|].
  intros t now Hin. assert (task_id t ∈ task_id <$> (tm_log s).*1) as Hid.
  { apply list_elem_of_fmap. exists t. split; [done|]. apply list_elem_of_fmap. by exists (t, now). }
  split_and!; try (rewrite list.Forall_forall in Hf; apply Hf; rewrite !elem_of_app; tauto).
  - rewrite list.Forall_forall in Hlog. exact (Hlog _ Hin).
  - do 2 apply list.NoDup_app in Hnd as (_ & _ & Hnd). apply list.NoDup_app in Hnd as (_ & Hdis & _).
    intros Hh. apply (Hdis _ Hh). rewrite elem_of_app. tauto.
  - apply list.NoDup_app in Hnd as (_ & _ & Hnd). apply list.NoDup_app in Hnd as (_ & Hdis & _).
    intros Hh. apply (Hdis _ Hh). rewrite !elem_of_app. tauto.
Qed.

(** A run given by its steps *)
Inductive event : Set :=
| E_client (i : nat) (r : request)
| E_loop (now : Z)
| E_wake (timeout : bool).

Definition event_step `{!StdHeap abs_time} (e : event) (s : timer) : option timer :=
  match e with
  | E_client i r => client_step i r s
  | E_loop now => loop_step now s
  | E_wake timeout => wake_step timeout s
  end.

Fixpoint run_events `{!StdHeap abs_time} (es : list event) (s : timer) : option timer :=
  match es with
  | [] => Some s
  | e :: es => s ← event_step e s; run_events es s
  end.

Lemma run_events_steps `{!StdHeap abs_time} es : forall s s',
  run_events es s = Some s' -> nsteps timer_step (length es) s s'.
Proof.
  induction es as [|e es IH]; intros s s' Hrun; cbn in Hrun; [simplify_eq; constructor|].
  destruct (event_step e s) as [s1|] eqn:Ee; [|done]. cbn in Hrun. econstructor; [|by apply IH].
  destruct e; [by eapply by_client|by eapply by_loop|by eapply by_wake].
Qed.

(** A client schedules a task, or cancels one. *)
Definition schedule_events (i : nat) (time : Z) (more : nat) : list event :=
  E_client i (Schedule time) :: replicate (4 + more) (E_client i Go_on).

(** Two clients schedule tasks for 50 and 20; at 30 the timer runs the second
    and sleeps until the time of the first. *)
Definition sample_events : list event :=
  schedule_events 0 50 1 ++ schedule_events 1 20 1 ++ replicate 20 (E_loop 30).

Definition sample_timer : timer :=
  default (new_timer 2) (run_events (StdHeap0 := sorted_std_heap abs_time) sample_events (new_timer 2)).

Lemma sample_timer_steps :
  nsteps (timer_step (StdHeap0 := sorted_std_heap abs_time)) (length sample_events) (new_timer 2) sample_timer.
Proof. apply run_events_steps. vm_compute. reflexivity. Qed.

Lemma timer_runs_once_witness :
  tm_log sample_timer = [(mk_Task 20 2, 30)] /\ NoDup (task_id <$> (tm_log sample_timer).*1).
Proof.
  split; [vm_compute; reflexivity|].
  apply (timer_runs_once (StdHeap0 := sorted_std_heap abs_time) 2 (length sample_events) sample_timer);
    [apply sample_timer_steps|vm_compute; reflexivity].
Defined.

(** C10: the timer does not oversleep. When the timer thread sleeps and no
    client is between queueing a task and waking it, the time it sleeps until
    is the shared wake-up time and not after the time of any task, in the heap
    or in a queue. *)
Theorem timer_no_lost_wakeup `{!StdHeap abs_time} (clients n : nat) (s : timer) (near : Z) :
  nsteps timer_step n (new_timer clients) s -> Z.of_nat n + 1 < 2 ^ 64 ->
  tm_loop s = L_sleep near ->
  Forall (fun c => match c_pc c with C_load _ | C_lower _ _ | C_notify => False | _ => True end) (tm_clients s) ->
  near = tm_nearest_run_time s
  /\ (forall t, t ∈ tm_tasks s -> near <= abs_time t)
  /\ (forall k tc t, tm_containers s !! k = Some tc -> t ∈ tc_tasks tc -> near <= abs_time t).
Proof.
  intros Hn Hmax Hl Hc. destruct (timer_reachable clients n s Hn Hmax) as [_ [Hq Hh Hs]].
  rewrite Hl in Hh. rewrite Forall_lookup in Hc.
  assert (near = tm_nearest_run_time s) as ->.
  { destruct (Hs near Hl) as [|(j & c & Hj & Hpc)]; [done|]. specialize (Hc j c Hj). by rewrite Hpc in Hc. }
  split_and!; [done|done|]. intros k tc t Hk Hin.
  destruct (Hq k tc t Hk Hin) as [?|[Hcol|(j & c & Hj & _ & Hpc)]]; [done| |].
  - unfold collecting in Hcol. by rewrite Hl in Hcol.
  - specialize (Hc j c Hj). by destruct (c_pc c).
Qed.

Lemma timer_no_lost_wakeup_witness :
  tm_loop sample_timer = L_sleep 50
  /\ (forall t, t ∈ tm_tasks sample_timer -> 50 <= abs_time t).
Proof.
  split; [vm_compute; reflexivity|].
  apply (timer_no_lost_wakeup (StdHeap0 := sorted_std_heap abs_time) 2 (length sample_events) sample_timer 50).
  - apply sample_timer_steps.
  - vm_compute. reflexivity.
  - vm_compute. reflexivity.
  - vm_compute. repeat constructor.
Defined.

(** Cancelling works for a task the timer thread knows: once the task is
    in the heap and its id in the cancellation queue of any client, the task is
    never run. *)
Theorem timer_cancel `{!StdHeap abs_time} (clients n m : nat) (s s' : timer) (t : Task) (k : nat)
    (tc : TaskContainer) :
  nsteps timer_step n (new_timer clients) s -> nsteps timer_step m s s' ->
  Z.of_nat n + Z.of_nat m + 1 < 2 ^ 64 ->
  t ∈ tm_tasks s -> tm_containers s !! k = Some tc -> task_id t ∈ tc_abandon_tasks tc ->
  forall t' now, (t', now) ∈ tm_log s' -> task_id t' <> task_id t.
Proof.
  intros Hn Hm Hmax Hin Hk Hab t' now Hlog Heq.
  destruct (runs_reachable clients n s Hn ltac:(lia)) as [Hruns Hle].
  destruct (cancelled_doomed s t k tc Hruns Hin Hk Hab) as [Hd Hno].
  apply (Hno t' now); [|done]. by apply (doomed_run m (task_id t) s s' Hm Hruns ltac:(lia) Hd).
Qed.

(** The first client cancels its task; the timer wakes up at 60. *)
Definition cancel_events : list event := [E_client 0 (Unschedule 1); E_client 0 Go_on; E_client 0 Go_on].
Definition late_events : list event := E_wake true :: replicate 18 (E_loop 60).

Definition cancelled_timer : timer :=
  default (new_timer 2) (run_events (StdHeap0 := sorted_std_heap abs_time) cancel_events sample_timer).
Definition late_timer : timer :=
  default (new_timer 2) (run_events (StdHeap0 := sorted_std_heap abs_time) late_events cancelled_timer).

Lemma timer_cancel_witness :
  tm_tasks cancelled_timer = [mk_Task 50 1] /\ tm_tasks late_timer = []
  /\ forall t' now, (t', now) ∈ tm_log late_timer -> task_id t' <> 1.
Proof.
  split; [vm_compute; reflexivity|]. split; [vm_compute; reflexivity|].
  apply (timer_cancel (StdHeap0 := sorted_std_heap abs_time) 2 (length sample_events + length cancel_events)
    (length late_events) cancelled_timer late_timer (mk_Task 50 1) 0 (mk_TaskContainer [] [1])).
  - eapply nsteps_trans; [apply sample_timer_steps|]. apply run_events_steps. vm_compute. reflexivity.
  - apply run_events_steps. vm_compute. reflexivity.
  - vm_compute. reflexivity.
  - vm_compute. constructor.
  - vm_compute. reflexivity.
  - vm_compute. constructor.
Defined.

(** A cancellation from another thread can be lost. The timer thread reads
    the containers in order, the tasks and cancellations of each: when the
    canceller's container comes before the scheduler's, the id is looked up
    before the task is known, and the task runs although it was cancelled
    before the timer thread took a step. *)
Theorem timer_cancel_lost :
  let step := timer_step (StdHeap0 := sorted_std_heap abs_time) in
  exists s s', rtc step (new_timer 2) s /\ rtc step s s'
    /\ tm_loop s = L_top /\ Forall (fun c => c_pc c = C_idle) (tm_clients s)
    /\ (1 ∈ flat_map tc_abandon_tasks (tm_containers s))
    /\ tm_log s' = [(mk_Task 20 1, 30)].
Proof.
  set (before := [E_client 0 (Unschedule 7); E_client 0 Go_on; E_client 0 Go_on] ++ schedule_events 1 20 1
     ++ [E_client 0 (Unschedule 1); E_client 0 Go_on; E_client 0 Go_on]).
  set (after := replicate 14 (E_loop 30)).
  exists (default (new_timer 2) (run_events (StdHeap0 := sorted_std_heap abs_time) before (new_timer 2))),
    (default (new_timer 2) (run_events (StdHeap0 := sorted_std_heap abs_time) (before ++ after) (new_timer 2))).
  split; [eapply rtc_nsteps_2, (run_events_steps before); vm_compute; reflexivity|].
  split; [eapply rtc_nsteps_2, (run_events_steps after); vm_compute; reflexivity|].
  split_and!; vm_compute; try reflexivity; repeat constructor.
Qed.

(** ** Progress *)

Lemma queue_ids_fmap cs : task_id <$> flat_map tc_tasks cs = flat_map queue_ids cs.
Proof. induction cs as [|tc cs IH]; [done|]. cbn. by rewrite fmap_app, IH. Qed.

Lemma queued_id t cs : t ∈ flat_map tc_tasks cs -> task_id t ∈ flat_map queue_ids cs.
Proof. intros Hin. rewrite <- queue_ids_fmap. apply list_elem_of_fmap. eauto. Qed.

Section Progress.
Context `{!StdHeap abs_time} (now : Z).

(** The timer thread gets from [s] to [s'] on its own, at time [now]. *)
Definition loops_to (s s' : timer) : Prop :=
  exists k, run_events (replicate k (E_loop now)) s = Some s'.

Lemma loops_refl s : loops_to s s.
Proof. by exists 0%nat. Qed.

Lemma loops_step s s1 s2 : loop_step now s = Some s1 -> loops_to s1 s2 -> loops_to s s2.
Proof. intros Hs (k & Hk). exists (S k). cbn. by rewrite Hs. Qed.

Lemma loops_trans s1 s2 s3 : loops_to s1 s2 -> loops_to s2 s3 -> loops_to s1 s3.
Proof.
  intros (k & Hk). revert s1 Hk. induction k as [|k IH]; intros s1 Hk H23; cbn in Hk; [by simplify_eq|].
  destruct (loop_step now s1) as [s|] eqn:E; [|done]. eapply loops_step; [done|]. by apply IH.
Qed.

(** Containers without cancellations *)
Definition no_abandon (s : timer) : Prop :=
  forall k tc, tm_containers s !! k = Some tc -> tc_abandon_tasks tc = [].

Lemma collectUnschedule_nothing k s : no_abandon s -> collectUnschedule k s = s.
Proof.
  intros Hn. unfold collectUnschedule. destruct (tm_containers s !! k) as [tc|] eqn:Ek; [|done].
  pose proof (Hn k tc Ek) as Ha. rewrite Ha. cbn. rewrite difference_empty_L.
  rewrite list_insert_id by (rewrite Ek; destruct tc; cbn in *; congruence). by destruct s.
Qed.

Lemma cancel_loops t now0 size : forall d i s, no_abandon s -> (i + d = size)%nat ->
  tm_loop s = L_cancel t now0 i size -> loops_to s (set_loop (L_exec t now0) s).
Proof.
  induction d as [|d IH]; intros i s Hn Hd Hl.
  - eapply loops_step; [|apply loops_refl]. unfold loop_step. rewrite Hl.
    by rewrite (proj2 (Nat.ltb_ge _ _)) by lia.
  - eapply loops_step.
    + unfold loop_step. rewrite Hl, (proj2 (Nat.ltb_lt _ _)), collectUnschedule_nothing by (done || lia). reflexivity.
    + apply (IH (S i) (set_loop (L_cancel t now0 (S i) size) s)); [done|lia|done].
Qed.

Lemma loops_runs s s' : loops_to s s' -> runs_ok s -> tm_timer_id s + 1 < 2 ^ 64 ->
  runs_ok s' /\ tm_timer_id s' = tm_timer_id s.
Proof.
  intros (k & Hk). revert s Hk. induction k as [|k IH]; intros s Hk Hok Hmax; cbn in Hk; [by simplify_eq|].
  destruct (loop_step now s) as [s1|] eqn:E; [|done].
  destruct (loop_ids _ _ _ E (ro_heap _ Hok)) as (_ & Hid & _).
  destruct (runs_step _ _ (by_loop _ _ _ E) Hmax Hok) as [Hok1 _].
  destruct (IH s1 Hk Hok1) as [? ?]; [lia|]. split; [done|lia].
Qed.

Lemma collect_fold_exit ts : forall s, tm_exit (foldl collect_task s ts) = tm_exit s.
Proof. induction ts as [|t ts IH]; intros s; [done|]. cbn. by rewrite IH. Qed.

Lemma loop_step_exit s s' : loop_step now s = Some s' -> tm_exit s' = tm_exit s.
Proof.
  unfold loop_step, collectTasks, collectUnschedule, run_task. intros Hs.
  repeat case_match; simplify_eq; cbn; rewrite ?collect_fold_exit; done.
Qed.

Lemma loops_exit s s' : loops_to s s' -> tm_exit s' = tm_exit s.
Proof.
  intros (k & Hk). revert s Hk. induction k as [|k IH]; intros s Hk; cbn in Hk; [by simplify_eq|].
  destruct (loop_step now s) as [s1|] eqn:E; [|done]. rewrite (IH _ Hk). by apply loop_step_exit.
Qed.

(** Running a task that is due *)
Lemma run_first u t h :
  tm_tasks u = t :: h -> tm_loop u = L_run -> tm_nearest_run_time u = SIZE_MAX -> no_abandon u ->
  runs_ok u -> abs_time t <= now -> abs_time t <= SIZE_MAX ->
  exists u2, loops_to u (set_loop L_run u2) /\ tm_containers u2 = tm_containers u /\ tm_tasks u2 ≡ₚ h
    /\ tm_nearest_run_time u2 = SIZE_MAX /\ (forall e, e ∈ tm_log u -> e ∈ tm_log u2)
    /\ (forall t', t' ∈ h -> task_id t' ∈ tm_active_ids u -> task_id t' ∈ tm_active_ids u2)
    /\ (task_id t ∈ tm_active_ids u -> (t, now) ∈ tm_log u2).
Proof.
  intros Et Hl Hnear Hn Hruns Hd1 Hd2. pose proof (ro_heap _ Hruns) as Hh. rewrite Et in Hh.
  destruct (pop_eq t h Hh) as (h' & Hlast & Hrem & _ & Hp).
  assert (loop_step now u = Some (set_loop (L_cancel t now 0 (length (tm_containers u))) (set_tasks h' u))) as Hpop.
  { unfold loop_step. rewrite Hl, Et, Hnear. rewrite (proj2 (Z.ltb_ge _ _)) by lia.
    rewrite (proj2 (Z.ltb_ge SIZE_MAX _)) by lia. by rewrite Hlast, Hrem. }
  set (u1 := set_loop (L_cancel t now 0 (length (tm_containers u))) (set_tasks h' u)) in *.
  pose proof (cancel_loops t now (length (tm_containers u)) _ 0%nat u1 Hn eq_refl eq_refl) as Hcan.
  exists (run_task now (set_tasks h' u) t). split.
  { eapply loops_step; [done|]. eapply loops_trans; [done|]. eapply loops_step; [|apply loops_refl].
    unfold u1, loop_step, run_task. cbn [tm_loop set_loop tm_active_ids set_tasks]. by case_bool_decide. }
  pose proof (ro_nodup _ Hruns) as Hnd. unfold all_ids in Hnd. rewrite Et in Hnd.
  do 2 apply list.NoDup_app in Hnd as (_ & _ & Hnd). apply list.NoDup_app in Hnd as (Hnd & _ & _).
  inversion_clear Hnd as [|? ? Hnot _]. unfold run_task. case_bool_decide as Hact; cbn; split_and!; try done.
  - intros e He. apply elem_of_app. by left.
  - intros t' Ht' Ha. apply elem_of_difference. split; [done|]. rewrite elem_of_singleton. intros Heq.
    apply Hnot. apply list_elem_of_fmap. eauto.
  - intros _. apply elem_of_app. right. left.
Qed.

(** Running what is due: the loop stops at the first task that is not. *)
Lemma run_loops : forall n u,
  length (tm_tasks u) = n -> tm_loop u = L_run -> tm_nearest_run_time u = SIZE_MAX -> no_abandon u ->
  runs_ok u -> tm_timer_id u + 1 < 2 ^ 64 -> (forall t, t ∈ tm_tasks u -> abs_time t <= SIZE_MAX) ->
  exists u', loops_to u u' /\ tm_loop u' = L_run /\ tm_nearest_run_time u' = SIZE_MAX
    /\ tm_containers u' = tm_containers u
    /\ (forall t, t ∈ tm_tasks u' -> now < abs_time t <= SIZE_MAX)
    /\ (forall e, e ∈ tm_log u -> e ∈ tm_log u')
    /\ (forall t, t ∈ tm_tasks u -> abs_time t <= now -> task_id t ∈ tm_active_ids u -> (t, now) ∈ tm_log u').
Proof.
  induction n as [|n IH]; intros u Hlen Hl Hnear Hn Hruns Hmax Hsize.
  { exists u. apply nil_length_inv in Hlen. rewrite Hlen. split_and!; try done; [apply loops_refl|..];
    intros t Ht; by apply elem_of_nil in Ht. }
  destruct (tm_tasks u) as [|t h] eqn:Et; [done|].
  destruct (Z.le_gt_cases (abs_time t) now) as [Hd|Hd].
  2:{ pose proof (ro_heap _ Hruns) as Hh. rewrite Et in Hh. apply heap_least in Hh.
      assert (forall t', t' ∈ t :: h -> now < abs_time t') as Hlate.
      { intros t' [->|Hin]%elem_of_cons; [done|]. rewrite list.Forall_forall in Hh. specialize (Hh t' Hin). cbn in Hh. lia. }
      exists u. rewrite Et. split_and!; try done; [apply loops_refl| |].
      - intros t' Ht'. split; [by apply Hlate|by apply Hsize].
      - intros t' Ht' Hle. specialize (Hlate t' Ht'). lia. }
  destruct (run_first u t h Et Hl Hnear Hn Hruns Hd ltac:(apply Hsize; left))
    as (u2 & Hto & Hc2 & Ht2 & Hn2 & Hl2 & Ha2 & Hx2).
  destruct (loops_runs _ _ Hto Hruns Hmax) as [Hruns2 Hid2].
  destruct (IH (set_loop L_run u2)) as (u' & Hto' & Hl' & Hn' & Hc' & Ht' & Hlog' & Hrun'); try done.
  - cbn. rewrite Ht2. cbn in Hlen. lia.
  - intros k tc Hk. cbn in Hk. rewrite Hc2 in Hk. by apply (Hn k).
  - cbn in *. lia.
  - cbn. intros t' Hin. apply Hsize. right. by rewrite <- Ht2.
  - exists u'. split_and!; try done; [by eapply loops_trans|by rewrite Hc'|auto|].
    intros t' Hin Hle Ha. apply elem_of_cons in Hin as [->|Hin]; [apply Hlog'; auto|].
    apply Hrun'; [cbn; by rewrite Ht2|done|]. cbn. auto.
Qed.

(** Going to sleep until the earliest task *)
Lemma sleep_loops u :
  tm_loop u = L_run -> tm_nearest_run_time u = SIZE_MAX -> tm_exit u = false -> now < SIZE_MAX ->
  is_heap abs_time (tm_tasks u) -> (forall t, t ∈ tm_tasks u -> now < abs_time t <= SIZE_MAX) ->
  exists u' near, loops_to u u' /\ tm_loop u' = L_sleep near /\ tm_nearest_run_time u' = near /\ now < near
    /\ tm_containers u' = tm_containers u /\ tm_tasks u' = tm_tasks u /\ tm_log u' = tm_log u
    /\ near = match tm_tasks u with [] => SIZE_MAX | t :: _ => abs_time t end
    /\ (forall t, t ∈ tm_tasks u -> near <= abs_time t).
Proof.
  intros Hl Hnear He Hnow Hh Hlate.
  set (next := match tm_tasks u with [] => SIZE_MAX | t :: _ => abs_time t end).
  assert (now < next <= SIZE_MAX) as Hnext.
  { subst next. destruct (tm_tasks u) as [|t h]; [lia|]. apply Hlate. left. }
  assert (forall t, t ∈ tm_tasks u -> next <= abs_time t) as Hmin.
  { subst next. destruct (tm_tasks u) as [|t0 h]; intros t Ht; [by apply elem_of_nil in Ht|].
    apply elem_of_cons in Ht as [->|Ht]; [done|]. apply heap_least in Hh. rewrite list.Forall_forall in Hh. by apply Hh. }
  exists (set_loop (L_sleep next) (set_nearest next u)), next. split_and!; try done; [|lia].
  eapply loops_step.
  { unfold loop_step. rewrite Hl. instantiate (1 := set_loop L_next u). destruct (tm_tasks u) as [|t h] eqn:Et; [done|].
    by rewrite (proj2 (Z.ltb_lt _ _)) by (apply Hlate; left). }
  eapply loops_step; [reflexivity|]. cbn [tm_tasks set_loop tm_nearest_run_time]. fold next. rewrite Hnear.
  assert (loops_to (set_loop (L_lower SIZE_MAX next) (set_loop L_next u)) (set_loop (L_deadline next) (set_nearest next u))) as Hlow.
  { destruct (Z.ltb_spec next SIZE_MAX) as [Hlt|Hge].
    - eapply loops_step.
      { unfold loop_step. cbn [tm_loop set_loop]. rewrite (proj2 (Z.ltb_lt _ _)) by done. cbn [tm_nearest_run_time set_loop].
        rewrite Hnear, Z.eqb_refl. reflexivity. }
      eapply loops_step; [|apply loops_refl]. unfold loop_step. cbn [tm_loop set_loop]. by rewrite Z.ltb_irrefl.
    - assert (next = SIZE_MAX) as -> by lia. eapply loops_step; [|apply loops_refl].
      unfold loop_step. cbn [tm_loop set_loop]. rewrite Z.ltb_irrefl. f_equal. destruct u. cbn in *. by subst. }
  eapply loops_trans; [exact Hlow|]. eapply loops_step.
  { unfold loop_step. cbn [tm_loop set_loop]. rewrite (proj2 (Z.leb_gt _ _)) by lia. reflexivity. }
  eapply loops_step; [|apply loops_refl]. unfold loop_step. cbn. by rewrite He, Z.eqb_refl.
Qed.

(** The tasks and then the cancellations of container [i] *)
Lemma collect_container i u tci :
  is_heap abs_time (tm_tasks u) -> tm_containers u !! i = Some tci ->
  exists h a, collectUnschedule i (collectTasks i u)
      = set_active a (set_tasks h (set_containers (<[i := mk_TaskContainer [] []]> (tm_containers u)) u))
    /\ is_heap abs_time h /\ h ≡ₚ tm_tasks u ++ tc_tasks tci
    /\ (forall id, id ∉ tc_abandon_tasks tci ->
          id ∈ tm_active_ids u \/ id ∈ task_id <$> tc_tasks tci -> id ∈ a).
Proof.
  intros Hh Hci. set (v := set_containers (<[i := mk_TaskContainer [] (tc_abandon_tasks tci)]> (tm_containers u)) u).
  destruct (collect_fold (tc_tasks tci) v Hh) as (h & a & Heq & Hh' & Hp & Ha).
  exists h, (a ∖ list_to_set (tc_abandon_tasks tci)). split_and!; try done.
  - unfold collectTasks. rewrite Hci. fold v. rewrite Heq. unfold collectUnschedule.
    cbn [tm_containers set_active set_tasks]. unfold v at 1. cbn [tm_containers set_containers].
    rewrite list_lookup_insert_eq by (by eapply lookup_lt_Some). cbn [tc_tasks tc_abandon_tasks].
    unfold v. cbn. by rewrite list_insert_insert_eq.
  - intros id Hno Hin. apply elem_of_difference. split; [by apply Ha|]. by rewrite elem_of_list_to_set.
Qed.

Lemma collectUnschedule_loop l i s : collectUnschedule i (set_loop l s) = set_loop l (collectUnschedule i s).
Proof. unfold collectUnschedule. cbn. by destruct (tm_containers s !! i). Qed.

(** Collecting container [i] *)
Lemma collect_one i size u tci :
  tm_loop u = L_tasks i size -> (i < size)%nat -> is_heap abs_time (tm_tasks u) -> tm_containers u !! i = Some tci ->
  exists u', loops_to u u' /\ tm_loop u' = L_tasks (S i) size /\ is_heap abs_time (tm_tasks u')
    /\ tm_nearest_run_time u' = tm_nearest_run_time u /\ tm_log u' = tm_log u
    /\ tm_containers u' = <[i := mk_TaskContainer [] []]> (tm_containers u)
    /\ tm_tasks u' ≡ₚ tm_tasks u ++ tc_tasks tci
    /\ (forall id, id ∉ tc_abandon_tasks tci ->
          id ∈ tm_active_ids u \/ id ∈ task_id <$> tc_tasks tci -> id ∈ tm_active_ids u').
Proof.
  intros Hl Hi Hh Hci. destruct (collect_container i u tci Hh Hci) as (h & a & Heq & Hh' & Hp & Ha).
  exists (set_loop (L_tasks (S i) size) (collectUnschedule i (collectTasks i u))). rewrite Heq.
  split_and!; try done. eapply loops_step.
  { unfold loop_step. rewrite Hl. rewrite (proj2 (Nat.ltb_lt _ _)) by lia. reflexivity. }
  eapply loops_step; [|apply loops_refl]. unfold loop_step. cbn [tm_loop set_loop].
  by rewrite collectUnschedule_loop, Heq.
Qed.

(** Collecting the containers from [i] on *)
Lemma collect_loops size : forall d i u,
  (i + d = size)%nat -> length (tm_containers u) = size -> tm_loop u = L_tasks i size ->
  is_heap abs_time (tm_tasks u) ->
  (forall k tc, (k < i)%nat -> tm_containers u !! k = Some tc -> tc = mk_TaskContainer [] []) ->
  exists u', loops_to u u' /\ tm_loop u' = L_run /\ tm_nearest_run_time u' = tm_nearest_run_time u
    /\ tm_log u' = tm_log u
    /\ (forall k tc, tm_containers u' !! k = Some tc -> tc = mk_TaskContainer [] [])
    /\ tm_tasks u' ≡ₚ tm_tasks u ++ flat_map tc_tasks (drop i (tm_containers u))
    /\ (forall id, id ∉ flat_map tc_abandon_tasks (drop i (tm_containers u)) ->
          id ∈ tm_active_ids u \/ id ∈ flat_map queue_ids (drop i (tm_containers u)) -> id ∈ tm_active_ids u').
Proof.
  induction d as [|d IH]; intros i u Hd Hlen Hl Hh Hdone.
  - exists (set_loop L_run u). rewrite drop_ge by lia. cbn. rewrite app_nil_r. split_and!; try done.
    + eapply loops_step; [|apply loops_refl]. unfold loop_step. rewrite Hl. by rewrite (proj2 (Nat.ltb_ge _ _)) by lia.
    + intros k tc Hk. apply (Hdone k); [|done]. apply lookup_lt_Some in Hk. lia.
    + intros id _ [|Hin]; [done|]. by apply elem_of_nil in Hin.
  - destruct (lookup_lt_is_Some_2 (tm_containers u) i) as [tci Hci]; [lia|].
    destruct (collect_one i size u tci Hl ltac:(lia) Hh Hci) as (u1 & Hto1 & Hl1 & Hh1 & Hn1 & Hlog1 & Hc1 & Ht1 & Ha1).
    assert (drop (S i) (tm_containers u1) = drop (S i) (tm_containers u)) as Hdrop
      by (rewrite Hc1, drop_insert_lt by lia; done).
    destruct (IH (S i) u1) as (u' & Hto & Hl' & Hn' & Hlog' & Hcs' & Ht' & Ha'); try done; [lia|by rewrite Hc1, length_insert| |].
    { intros k tc Hk. rewrite Hc1. intros Hk1.
      apply list_lookup_insert_Some in Hk1 as [(_ & <- & _)|[Hne Hk1]]; [done|]. apply (Hdone k); [lia|done]. }
    rewrite Hdrop in Ht', Ha'. rewrite (drop_S _ tci i Hci). cbn [flat_map].
    exists u'. split_and!; try done; [by eapply loops_trans|by rewrite Hn'|by rewrite Hlog'| |].
    + rewrite Ht', Ht1. by rewrite app_assoc.
    + intros id Hno Hin. rewrite elem_of_app in Hno, Hin. apply Ha'; [tauto|].
      destruct Hin as [Hin|[Hin|Hin]]; [left; apply Ha1; tauto|left; apply Ha1; tauto|by right].
Qed.

End Progress.

(** C11: a round of the timer thread runs what is due and then sleeps. Let the
    thread be at the top of its loop in any state that can be reached, not told
    to exit, and let it run on while the clients rest and the clock stands at
    [now], with times of at most SIZE_MAX. In finitely many steps it goes to
    sleep; then all queues are empty, every task left is due after [now], the
    sleep ends at the earliest of them, and every task due by [now] has been
    run: those that were queued, and those of the heap that were still active,
    apart from tasks whose cancellation was waiting. *)
Theorem timer_progress `{!StdHeap abs_time} (clients n : nat) (s : timer) (now : Z) :
  nsteps timer_step n (new_timer clients) s -> Z.of_nat n + 2 < 2 ^ 64 ->
  tm_loop s = L_top -> tm_exit s = false -> now < SIZE_MAX ->
  (forall t, t ∈ tm_tasks s ++ flat_map tc_tasks (tm_containers s) -> abs_time t <= SIZE_MAX) ->
  exists s' near, loops_to now s s' /\ tm_loop s' = L_sleep near
    /\ flat_map tc_tasks (tm_containers s') = []
    /\ now < near /\ near = match tm_tasks s' with [] => SIZE_MAX | t :: _ => abs_time t end
    /\ (forall t, t ∈ tm_tasks s' -> near <= abs_time t)
    /\ forall t, (task_id t ∉ flat_map tc_abandon_tasks (tm_containers s)) -> abs_time t <= now ->
         t ∈ flat_map tc_tasks (tm_containers s) \/ (t ∈ tm_tasks s /\ task_id t ∈ tm_active_ids s) ->
         (t, now) ∈ tm_log s'.
Proof.
  intros Hn Hmax Hl He Hnow Hsize. destruct (runs_reachable clients n s Hn ltac:(lia)) as [Hruns Hid].
  set (u := set_loop (L_tasks 0 (length (tm_containers s))) (set_nearest SIZE_MAX s)).
  assert (loops_to now s u) as Hto.
  { eapply loops_step; [unfold loop_step; rewrite Hl, He; reflexivity|].
    eapply loops_step; [reflexivity|].
    eapply loops_step; [unfold loop_step; cbn; rewrite Z.eqb_refl; reflexivity|].
    eapply loops_step; [reflexivity|]. apply loops_refl. }
  destruct (collect_loops now (length (tm_containers s)) (length (tm_containers s)) 0 u)
    as (v & Hto1 & Hl1 & Hn1 & Hlog1 & Hc1 & Ht1 & Ha1); try done; [apply Hruns|lia|].
  rewrite drop_0 in Ht1, Ha1. assert (loops_to now s v) as Hsv by (by eapply loops_trans).
  destruct (loops_runs now s v Hsv) as [Hruns1 Hid1]; [done|lia|].
  destruct (run_loops now (length (tm_tasks v)) v) as (w & Hto2 & Hl2 & Hn2 & Hc2 & Ht2 & _ & Hrun2); try done; [|lia| |].
  { intros k tc Hk. by rewrite (Hc1 k tc Hk). }
  { intros t Hin. apply Hsize. by rewrite Ht1 in Hin. }
  assert (loops_to now s w) as Hsw by (by eapply loops_trans).
  destruct (loops_runs now s w Hsw) as [Hruns2 _]; [done|lia|].
  destruct (sleep_loops now w) as (s' & near & Hto3 & Hl3 & _ & Hlt & Hc3 & Ht3 & Hlog3 & Hnear & Hmin); try done.
  { by rewrite (loops_exit now s w). }
  { apply Hruns2. }
  exists s', near. rewrite Hc3, Ht3, Hlog3. split_and!; try done; [by eapply loops_trans| |].
  - rewrite Hc2. clear -Hc1. induction (tm_containers v) as [|tc cs IH]; [done|]. cbn.
    rewrite (Hc1 0%nat tc eq_refl). cbn. apply IH. intros k tc' Hk. by apply (Hc1 (S k)).
  - intros t Hno Hdue Hin. apply Hrun2; [|done|].
    + rewrite Ht1, elem_of_app. cbn. tauto.
    + apply Ha1; [done|]. destruct Hin as [Hin|[_ Hin]]; [right; by apply queued_id|by left].
Qed.

(** Two tasks wait in queues, due at 50 and 20. *)
Definition queued_timer : timer :=
  default (new_timer 2) (run_events (StdHeap0 := sorted_std_heap abs_time)
    (schedule_events 0 50 1 ++ schedule_events 1 20 1) (new_timer 2)).

Lemma queued_timer_steps :
  nsteps (timer_step (StdHeap0 := sorted_std_heap abs_time)) 12 (new_timer 2) queued_timer.
Proof.
  apply (run_events_steps (StdHeap0 := sorted_std_heap abs_time) (schedule_events 0 50 1 ++ schedule_events 1 20 1)).
  vm_compute. reflexivity.
Qed.

(** At 30 one of them is due; the thread then sleeps until 50. *)
Lemma timer_progress_witness :
  exists s' near, loops_to (StdHeap0 := sorted_std_heap abs_time) 30 queued_timer s' /\ tm_loop s' = L_sleep near
    /\ 30 < near /\ (mk_Task 20 2, 30) ∈ tm_log s'.
Proof.
  destruct (timer_progress (StdHeap0 := sorted_std_heap abs_time) 2 12 queued_timer 30)
    as (s' & near & Hto & Hl & _ & Hlt & _ & _ & Hrun).
  - apply queued_timer_steps.
  - reflexivity.
  - vm_compute. reflexivity.
  - vm_compute. reflexivity.
  - reflexivity.
  - replace (tm_tasks queued_timer ++ _) with [mk_Task 50 1; mk_Task 20 2] by (vm_compute; reflexivity).
    apply list.Forall_forall. repeat (apply Forall_cons; [cbn; unfold SIZE_MAX; lia|]). constructor.
  - exists s', near. split; [exact Hto|]. split; [exact Hl|]. split; [exact Hlt|].
    replace (flat_map tc_abandon_tasks _) with (@nil Z) in Hrun by (vm_compute; reflexivity).
    replace (flat_map tc_tasks _) with [mk_Task 50 1; mk_Task 20 2] in Hrun by (vm_compute; reflexivity).
    apply Hrun; [apply not_elem_of_nil|cbn; lia|left; repeat constructor].
Defined.

(** ** Shutting down *)

Section Destroy.
Context `{!StdHeap abs_time} (now : Z).

Lemma destroy_collect : forall d i u,
  (i + d = length (tm_containers u))%nat -> is_heap abs_time (tm_tasks u) ->
  let u' := foldl (fun s k => collectUnschedule k (collectTasks k s)) u (seq i d) in
  tm_log u' = tm_log u
  /\ tm_tasks u' ≡ₚ tm_tasks u ++ flat_map tc_tasks (drop i (tm_containers u))
  /\ (forall id, id ∉ flat_map tc_abandon_tasks (drop i (tm_containers u)) ->
        id ∈ tm_active_ids u \/ id ∈ flat_map queue_ids (drop i (tm_containers u)) -> id ∈ tm_active_ids u').
Proof.
  induction d as [|d IH]; intros i u Hd Hh; cbn [seq foldl].
  - rewrite drop_ge by lia. cbn. rewrite app_nil_r. split_and!; try done.
    intros id _ [|Hin]; [done|]. by apply elem_of_nil in Hin.
  - destruct (lookup_lt_is_Some_2 (tm_containers u) i) as [tci Hci]; [lia|].
    destruct (collect_container i u tci Hh Hci) as (h & a & -> & Hh' & Hp & Ha).
    set (u1 := set_active _ _).
    assert (drop (S i) (tm_containers u1) = drop (S i) (tm_containers u)) as Hdrop
      by (unfold u1; cbn; rewrite drop_insert_lt by lia; done).
    destruct (IH (S i) u1) as (Hlog & Ht & Hac); [unfold u1; cbn; rewrite length_insert; lia|done|].
    rewrite Hdrop in Ht, Hac. rewrite (drop_S _ tci i Hci). cbn [flat_map]. split_and!; [done| |].
    + rewrite Ht. unfold u1. cbn [tm_tasks set_active set_tasks]. by rewrite Hp, app_assoc.
    + intros id Hno Hin. rewrite elem_of_app in Hno, Hin. apply Hac; [tauto|].
      destruct Hin as [Hin|[Hin|Hin]]; [left; apply Ha; tauto|left; apply Ha; tauto|by right].
Qed.

Lemma run_rest : forall ts u, NoDup (task_id <$> ts) ->
  let u' := foldl (run_task now) u ts in
  (forall e, e ∈ tm_log u -> e ∈ tm_log u')
  /\ (forall t, t ∈ ts -> task_id t ∈ tm_active_ids u -> (t, now) ∈ tm_log u').
Proof.
  induction ts as [|t ts IH]; intros u Hnd; cbn [foldl]; [split; [done|intros t Ht; by apply elem_of_nil in Ht]|].
  inversion_clear Hnd as [|? ? Hnot Hnd']. destruct (IH (run_task now u t) Hnd') as [Hmono Hrun].
  assert ((forall e, e ∈ tm_log u -> e ∈ tm_log (run_task now u t))
    /\ (task_id t ∈ tm_active_ids u -> (t, now) ∈ tm_log (run_task now u t))
    /\ (forall id, id <> task_id t -> id ∈ tm_active_ids u -> id ∈ tm_active_ids (run_task now u t))) as (H1 & H2 & H3).
  { unfold run_task. case_bool_decide; cbn; split_and!; try done.
    - intros e He. apply elem_of_app. by left.
    - intros _. apply elem_of_app. right. left.
    - intros id Hne Hin. rewrite elem_of_difference, elem_of_singleton. done. }
  split; [auto|]. intros t' Hin Ha. apply elem_of_cons in Hin as [->|Hin]; [auto|].
  apply Hrun; [done|]. apply H3; [|done]. intros Heq. apply Hnot. apply list_elem_of_fmap. eauto.
Qed.

End Destroy.

(** Shutting down loses no task: in any state that can be reached, and so
    when the timer thread has ended, [destroy] runs every task that waits in a queue and every active task of
    the heap, due or not, unless its cancellation was waiting. *)
Theorem destroy_runs_rest `{!StdHeap abs_time} (clients n : nat) (s : timer) (now : Z) (t : Task) :
  nsteps timer_step n (new_timer clients) s -> Z.of_nat n + 1 < 2 ^ 64 ->
  (task_id t ∉ flat_map tc_abandon_tasks (tm_containers s)) ->
  t ∈ flat_map tc_tasks (tm_containers s) \/ (t ∈ tm_tasks s /\ task_id t ∈ tm_active_ids s) ->
  (t, now) ∈ tm_log (destroy now s).
Proof.
  intros Hn Hmax Hno Hin. destruct (runs_reachable clients n s Hn Hmax) as [[Hnd _ _ Hh _ _] _].
  destruct (destroy_collect (length (tm_containers s)) 0 s eq_refl Hh) as (_ & Ht & Ha).
  rewrite drop_0 in Ht, Ha. unfold destroy. set (u := foldl _ s _) in *.
  assert (NoDup (task_id <$> tm_tasks u)) as Hnd'.
  { rewrite Ht, fmap_app, Permutation_app_comm. unfold all_ids in Hnd. rewrite (app_assoc (flat_map queue_ids _)) in Hnd.
    apply list.NoDup_app in Hnd as (_ & _ & Hnd). apply list.NoDup_app in Hnd as (Hnd & _ & _).
    by rewrite queue_ids_fmap. }
  destruct (run_rest now (tm_tasks u) u Hnd') as [_ Hrun]. apply Hrun.
  - rewrite Ht, elem_of_app. tauto.
  - apply Ha; [done|]. destruct Hin as [Hin|[_ Hin]]; [right; by apply queued_id|by left].
Qed.

Lemma destroy_runs_rest_witness :
  let s := default (new_timer 2) (run_events (StdHeap0 := sorted_std_heap abs_time)
             [E_loop 0] (exit_step queued_timer)) in
  tm_loop s = L_done /\ (mk_Task 50 1, 9) ∈ tm_log (destroy (StdHeap0 := sorted_std_heap abs_time) 9 s).
Proof.
  cbv zeta. set (s := default _ _). assert (tm_loop s = L_done) as Hl by (vm_compute; reflexivity).
  split; [exact Hl|].
  apply (destroy_runs_rest (StdHeap0 := sorted_std_heap abs_time) 2 (12 + (1 + 1)) s 9 (mk_Task 50 1)).
  - eapply nsteps_trans; [apply queued_timer_steps|]. eapply nsteps_trans.
    + apply nsteps_once. apply by_exit.
    + apply nsteps_once. apply (by_loop 0). vm_compute. reflexivity.
  - reflexivity.
  - replace (flat_map tc_abandon_tasks _) with (@nil Z) by (vm_compute; reflexivity). apply not_elem_of_nil.
  - left. replace (flat_map tc_tasks _) with [mk_Task 50 1; mk_Task 20 2] by (vm_compute; reflexivity). left.
Defined.
