(* ===== verification/Decimals.v ===== *)
(** * Decimal numbers

    How [std::ostream] and [sprintf] print integers, and the value of a run of
    digits; shared by the parsers and printers of addresses and requests. *)

From S2P Require Import Prelude.

(** The value of decimal digits *)
Definition dec_value (digits : list Z) : Z := foldl (fun v ch => 10 * v + (ch - "0"%c)) 0 digits.

Definition is_digit (ch : Z) : bool := ("0"%c <=? ch) && (ch <=? "9"%c).

(** An integer on an output stream, or as [%d] *)
Fixpoint digits (fuel : nat) (n : Z) : list Z :=
  match fuel with
  | O => []
  | S fuel => (if n <? 10 then [] else digits fuel (n / 10)) ++ ["0"%c + n mod 10]
  end.

Definition print_dec (n : Z) : list Z :=
  if n <? 0 then "-"%c :: digits (S (Z.to_nat (Z.log2 (- n)))) (- n)
  else digits (S (Z.to_nat (Z.log2 n))) n.

Lemma dec_value_snoc s ch : dec_value (s ++ [ch]) = 10 * dec_value s + (ch - "0"%c).
Proof. unfold dec_value. by rewrite foldl_app. Qed.

Lemma digits_ok fuel : forall n, 0 <= n < 2 ^ Z.of_nat fuel ->
  dec_value (digits fuel n) = n /\ Forall (fun c => is_digit c = true) (digits fuel n).
Proof.
  induction fuel as [|fuel IH]; intros n Hn.
  - cbn in *. split; [lia|done].
  - cbn [digits]. rewrite dec_value_snoc. pose proof (Z.mod_pos_bound n 10 ltac:(lia)) as Hm.
    pose proof (Z.div_mod n 10 ltac:(lia)) as Hd.
    assert (is_digit ("0"%c + n mod 10) = true) as Hdig.
    { unfold is_digit. rewrite (proj2 (Z.leb_le _ _)), (proj2 (Z.leb_le _ _)) by lia. done. }
    rewrite list.Forall_app. destruct (Z.ltb_spec n 10) as [Hlt|Hge].
    + rewrite Z.mod_small in * by lia. cbn. split; [lia|]. split; [done|by repeat constructor].
    + rewrite Nat2Z.inj_succ, Z.pow_succ_r in Hn by lia.
      destruct (IH (n / 10)) as [-> Hall]; [split; [apply Z.div_pos; lia|apply Z.div_lt_upper_bound; lia]|].
      split; [lia|]. split; [done|by repeat constructor].
Qed.

Lemma print_dec_ok n : 0 <= n -> dec_value (print_dec n) = n /\ Forall (fun c => is_digit c = true) (print_dec n).
Proof.
  intros Hn. unfold print_dec. rewrite (proj2 (Z.ltb_ge n 0)) by lia. apply digits_ok.
  destruct (Z.eq_dec n 0) as [->|Hne]; [by vm_compute|].
  pose proof (Z.log2_spec n ltac:(lia)). pose proof (Z.log2_nonneg n).
  rewrite Nat2Z.inj_succ, Z2Nat.id by lia. lia.
Qed.
