(* ===== verification/Diagnostics.v ===== *)
(** * Messages for people (src/common/log.cpp, log.h,
    src/common/common_defines.cpp, src/protocol/response_base.cpp)

    The log with its level and its handler, and the tables of texts that are
    indexed with an enumeration. What [fmt::format] makes of the arguments of a
    message is an argument. *)

From S2P Require Import Prelude CommonDefines BoltResponse Decimals.

(** ** Tables *)

(** A C array that is indexed; [None] is an access past its end. *)
Definition indexed {A} (table : list A) (i : Z) : option A :=
  if i <? 0 then None else nth_error table (Z.to_nat i).

Inductive LogLevel : Set :=
| LOG_LEVEL_DEBUG | LOG_LEVEL_INFO | LOG_LEVEL_WARNING | LOG_LEVEL_ERROR | LOG_LEVEL_FATAL.

Definition level_value (l : LogLevel) : Z :=
  match l with
  | LOG_LEVEL_DEBUG => 0 | LOG_LEVEL_INFO => 1 | LOG_LEVEL_WARNING => 2 | LOG_LEVEL_ERROR => 3 | LOG_LEVEL_FATAL => 4
  end.

Definition s_level_names : list string := ["DEBUG"; "INFO"; "WARNING"; "ERROR"; "FATAL"].

(** The numbers of [RPC_STATUS_MAP] *)
Definition status_value (s : ERpcStatus) : Z :=
  match s with
  | RPC_STATUS_OK => 0 | RPC_STATUS_INIT => 1 | RPC_STATUS_CHANNEL_INIT_FAIL => 2 | RPC_STATUS_SOCKET_CONNECT_FAIL => 3
  | RPC_STATUS_SOCKET_CONNECT_TIMEOUT => 4 | RPC_STATUS_SOCKET_WRITE_ERROR => 5 | RPC_STATUS_SOCKET_READ_ERROR => 6
  | RPC_STATUS_SOCKET_CLOSED_BY_SERVER => 7 | RPC_STATUS_SOCKET_HEARTBEAT_FAIL => 8 | RPC_STATUS_SOCKET_TO_RECLAIM => 9
  end.

Record RpcErrorInfo := mk_RpcErrorInfo { ri_name : string; ri_description : string }.

Definition s_rpc_status_str_tab : list RpcErrorInfo :=
  [mk_RpcErrorInfo "RPC_STATUS_OK" "Status ok";
   mk_RpcErrorInfo "RPC_STATUS_INIT" "Status init";
   mk_RpcErrorInfo "RPC_STATUS_CHANNEL_INIT_FAIL" "Channel init fail";
   mk_RpcErrorInfo "RPC_STATUS_SOCKET_CONNECT_FAIL" "Connect server fail";
   mk_RpcErrorInfo "RPC_STATUS_SOCKET_CONNECT_TIMEOUT" "Connect server timeout";
   mk_RpcErrorInfo "RPC_STATUS_SOCKET_WRITE_ERROR" "Write to server error";
   mk_RpcErrorInfo "RPC_STATUS_SOCKET_READ_ERROR" "Read from server error";
   mk_RpcErrorInfo "RPC_STATUS_SOCKET_CLOSED_BY_SERVER" "Remote server close the connection";
   mk_RpcErrorInfo "RPC_STATUS_SOCKET_HEARTBEAT_FAIL" "Heartbeat fail";
   mk_RpcErrorInfo "RPC_STATUS_SOCKET_TO_RECLAIM" "Socket is prepared to be reclaimed"].

Definition getRpcStatus (s : ERpcStatus) : option string :=
  ri_description <$> indexed s_rpc_status_str_tab (status_value s).

Definition parse_value (r : EResParseResult) : Z :=
  match r with PARSE_OK => 0 | PARSE_ERROR => 1 | PARSE_NOT_ENOUGH_DATA => 2 end.

Definition ParseResultToString (r : EResParseResult) : option string :=
  indexed ["ok"; "parse error"; "not enough data"] (parse_value r).

(** ** The log *)

(** The bytes of a string up to its first zero *)
Fixpoint c_str (l : list Z) : list Z :=
  match l with [] => [] | c :: l => if c =? 0 then [] else c :: c_str l end.

(** What [DefaultLogHandler] prints *)
Definition DefaultLogHandler (level : LogLevel) (filename : list Z) (line : Z) (message : list Z) : option (list Z) :=
  name ← indexed s_level_names (level_value level);
  Some (bytes_of_string "[bolt-rpc " ++ bytes_of_string name ++ [32] ++ c_str filename ++ [58] ++ print_dec line
        ++ bytes_of_string "] " ++ c_str message ++ [10]).

Section Log.
(** Function pointers to handlers; [None] is a null pointer. *)
Context {F : Type}.

(** [s_cur_log_handler] and [LogMessage::_s_min_level] *)
Record log := mk_log { s_cur_log_handler : option F; _s_min_level : LogLevel }.

(** [class LogMessage] *)
Record LogMessage := mk_LogMessage { lm_level : LogLevel; lm_filename : list Z; lm_line : Z; lm_message : list Z }.

(** A call of a handler *)
Definition log_call : Type := F * LogMessage.

Definition setLogHandler (handler : option F) (l : log) : option F * log :=
  (s_cur_log_handler l, mk_log handler (_s_min_level l)).

Definition setLogLevel (level : LogLevel) (l : log) : log := mk_log (s_cur_log_handler l) level.

Definition LogMessage_finish (m : LogMessage) (l : log) : list log_call :=
  if level_value (lm_level m) <? level_value (_s_min_level l) then []
  else match s_cur_log_handler l with Some f => [(f, m)] | None => [] end.

(** [LOG(LEVEL, FORMAT, ARGS...)]: the message is made, printed into and
    destroyed at the end of the statement, whatever its level is. *)
Definition LOG (level : LogLevel) (filename : list Z) (line : Z) (formatted : list Z) (l : log) : list log_call :=
  let m := mk_LogMessage level filename line [] in
  let m := mk_LogMessage (lm_level m) (lm_filename m) (lm_line m) formatted in
  LogMessage_finish m l.

Definition LOG_IF (condition : bool) (level : LogLevel) (filename : list Z) (line : Z) (formatted : list Z) (l : log)
    : list log_call :=
  if negb condition then [] else LOG level filename line formatted l.

End Log.
#[global] Arguments log : clear implicits.

(** ** What they promise *)

(** No table is read past its end, and different values have different texts. *)
Lemma texts_total :
  (forall l, exists t, indexed s_level_names (level_value l) = Some t)
  /\ (forall s, exists t, getRpcStatus s = Some t) /\ (forall r, exists t, ParseResultToString r = Some t).
Proof. split_and!; intros []; eexists; reflexivity. Qed.

Lemma texts_distinct :
  (forall s s', getRpcStatus s = getRpcStatus s' -> s = s')
  /\ (forall r r', ParseResultToString r = ParseResultToString r' -> r = r')
  /\ (forall e e', s_session_error_info e = s_session_error_info e' -> e = e').
Proof. split_and!; intros [] []; (reflexivity || discriminate). Qed.

Lemma default_handler_prints level filename line message :
  exists text, DefaultLogHandler level filename line message = Some (text ++ [10]).
Proof.
  destruct (proj1 texts_total level) as [name Hn]. unfold DefaultLogHandler. rewrite Hn. cbn [mbind option_bind].
  eexists (bytes_of_string "[bolt-rpc " ++ bytes_of_string name ++ [32] ++ c_str filename ++ [58] ++ print_dec line
           ++ bytes_of_string "] " ++ c_str message). by rewrite <- !app_assoc.
Qed.

Section History.
Context {F : Type}.
Implicit Types (l : log F).

Inductive log_op : Type := L_handler (h : option F) | L_level (level : LogLevel) | L_log (m : LogMessage).

Fixpoint log_run (ops : list log_op) l : list log_call :=
  match ops with
  | [] => []
  | L_handler h :: ops => log_run ops (snd (setLogHandler h l))
  | L_level level :: ops => log_run ops (setLogLevel level l)
  | L_log m :: ops => LOG (lm_level m) (lm_filename m) (lm_line m) (lm_message m) l ++ log_run ops l
  end.

Definition log_after (op : log_op) l : log F :=
  match op with L_handler h => snd (setLogHandler h l) | L_level level => setLogLevel level l | L_log _ => l end.

(** The handler and the level that were set last *)
Definition handler_after (ops : list log_op) l : option F :=
  foldl (fun h op => match op with L_handler h' => h' | _ => h end) (s_cur_log_handler l) ops.

Definition level_after (ops : list log_op) l : LogLevel :=
  foldl (fun v op => match op with L_level v' => v' | _ => v end) (_s_min_level l) ops.

Lemma LOG_calls m l f m' :
  In (f, m') (LOG (lm_level m) (lm_filename m) (lm_line m) (lm_message m) l)
  <-> m' = m /\ s_cur_log_handler l = Some f /\ level_value (_s_min_level l) <= level_value (lm_level m).
Proof.
  unfold LOG, LogMessage_finish. cbn [lm_level lm_filename lm_line].
  destruct (Z.ltb_spec (level_value (lm_level m)) (level_value (_s_min_level l))) as [Hlt|Hge].
  - split; [intros []|lia].
  - destruct (s_cur_log_handler l) as [f0|]; cbn [In]; [|split; [intros []|intros (_ & [=] & _)]].
    split.
    + intros [[= -> <-]|[]]. by destruct m.
    + intros (-> & [= ->] & _). left. by destruct m.
Qed.

(** The first operation is the message, or comes before it. *)
Lemma logged_cons op ops l f m :
  (exists before after, op :: ops = before ++ L_log m :: after
     /\ handler_after before l = Some f /\ level_value (level_after before l) <= level_value (lm_level m))
  <-> (op = L_log m /\ s_cur_log_handler l = Some f /\ level_value (_s_min_level l) <= level_value (lm_level m))
      \/ (exists before after, ops = before ++ L_log m :: after
            /\ handler_after before (log_after op l) = Some f
            /\ level_value (level_after before (log_after op l)) <= level_value (lm_level m)).
Proof.
  split.
  - intros ([|op' before] & after & Heq & Hh & Hv); injection Heq as -> ->; [by left|right].
    exists before, after. split; [done|]. by destruct op'.
  - intros [(-> & Hh & Hv)|(before & after & -> & Hh & Hv)]; [by exists [], ops|].
    exists (op :: before), after. split; [done|]. by destruct op.
Qed.

(** Whatever is set in between, a handler is called with a message exactly when
    it was the last one set before the message, and the level set last does not
    exceed the message's. *)
Theorem log_delivers (ops : list log_op) l f m :
  In (f, m) (log_run ops l)
  <-> exists before after, ops = before ++ L_log m :: after
        /\ handler_after before l = Some f /\ level_value (level_after before l) <= level_value (lm_level m).
Proof.
  revert l. induction ops as [|op ops IH]; intros l.
  { split; [intros []|]. intros (before & after & Heq & _). by destruct before. }
  rewrite logged_cons.
  destruct op as [h|level|m0]; cbn [log_run].
  1, 2: rewrite IH; split; [by right|]; by intros [[[=] _]|?].
  rewrite in_app_iff, LOG_calls, IH. split; (intros [H|?]; [left|by right]).
  - destruct H as (-> & ?). done.
  - destruct H as ([= ->] & ?). done.
Qed.

End History.

(** The handler that [setLogHandler] returns puts the log back. *)
Lemma handler_roundtrip {F} (h : option F) (l : log F) :
  let '(old, l') := setLogHandler h l in setLogHandler old l' = (h, l).
Proof. by destruct l. Qed.
