(* ===== verification/Uri.v ===== *)
(** * URIs (include/common/uri.h, src/common/uri.cpp)

    [URI::parseFromString] on a C string. A pointer [p] into the string is the
    rest of the string from [p] on, [*p] its first character or the terminating
    NUL; the characters between [begin] and [p] are kept beside it. [None] is
    undefined behaviour: a character above 127 indexes the table of 128 actions
    outside its bounds, and ten digits overflow the port. *)

From S2P Require Import Prelude Decimals.

Record URI := mk_URI {
  u_schema : list Z;
  u_host : list Z;
  u_path : list Z;
  u_user_info : list Z;
  u_query : list Z;
  u_fragment : list Z;
  u_port : Z;
  u_parse_ok : bool
}.

(** The default constructor; [_port] is not initialised, 0 stands for it. *)
Definition new_URI : URI := mk_URI [] [] [] [] [] [] 0 true.

(** [clear()] leaves [_query] and [_fragment]. *)
Definition clear_uri (u : URI) : URI := mk_URI [] [] [] [] (u_query u) (u_fragment u) (-1) true.

Inductive EParseAction : Set := URI_PARSE_CONTINUE | URI_PARSE_CHECK | URI_PARSE_BREAK.

(** [s_fast_parser_map.action_map[int( *p )]] *)
Definition action_map (ch : Z) : option EParseAction :=
  if (0 <=? ch) && (ch <? 128) then
    Some (if (ch =? 0) || (ch =? "#"%c) || (ch =? "/"%c) || (ch =? "?"%c) then URI_PARSE_BREAK
          else if (ch =? " "%c) || (ch =? ":"%c) || (ch =? "@"%c) then URI_PARSE_CHECK
          else URI_PARSE_CONTINUE)
  else None.

(** [*p] *)
Definition deref (p : list Z) : Z := match p with [] => 0 | ch :: _ => ch end.

Fixpoint skip_spaces (p : list Z) : list Z :=
  match p with
  | ch :: p' => if ch =? " "%c then skip_spaces p' else p
  | [] => []
  end.

Definition isAllSpace (p : list Z) : bool := deref (skip_spaces p) =? 0.

(** [splitHostAndPort]: the characters from [host_end - 1] down to, but not
    including, [host_begin]; the characters before the colon, or [None] when
    there is no port. *)
Definition INT_MAX : Z := 2 ^ 31 - 1.

Fixpoint split_loop (q : list Z) (port multiply : Z) : option (option (list Z * Z)) :=
  match q with
  | ch :: ((_ :: _) as q') =>
      if ("0"%c <=? ch) && (ch <=? "9"%c) then
        let port := port + (ch - "0"%c) * multiply in
        let multiply := multiply * 10 in
        if (INT_MAX <? port) || (INT_MAX <? multiply) then None
        else split_loop q' port multiply
      else if ch =? ":"%c then Some (Some (q', port))
      else Some None
  | _ => Some None
  end.

(** The host and the port of the characters of the authority *)
Definition splitHostAndPort (authority : list Z) : option (list Z * Z) :=
  match split_loop (rev authority) 0 1 with
  | None => None
  | Some (Some (before, port)) => Some (rev before, port)
  | Some None => Some (authority, -1)
  end.

(** The first loop: schema and user information are split off. [tok] are the
    characters from [begin] to [p]. *)
Inductive scan_result : Type :=
| Scan_stop (tok p : list Z) (u : URI)
| Scan_fail (u : URI).

Definition set_schema (s : list Z) (u : URI) : URI :=
  mk_URI s (u_host u) (u_path u) (u_user_info u) (u_query u) (u_fragment u) (u_port u) (u_parse_ok u).
Definition set_user_info (s : list Z) (u : URI) : URI :=
  mk_URI (u_schema u) (u_host u) (u_path u) s (u_query u) (u_fragment u) (u_port u) (u_parse_ok u).
Definition set_authority (h : list Z) (port : Z) (u : URI) : URI :=
  mk_URI (u_schema u) h (u_path u) (u_user_info u) (u_query u) (u_fragment u) port (u_parse_ok u).
Definition set_path (s : list Z) (u : URI) : URI :=
  mk_URI (u_schema u) (u_host u) s (u_user_info u) (u_query u) (u_fragment u) (u_port u) (u_parse_ok u).
Definition set_query (s : list Z) (u : URI) : URI :=
  mk_URI (u_schema u) (u_host u) (u_path u) (u_user_info u) s (u_fragment u) (u_port u) (u_parse_ok u).
Definition set_fragment (s : list Z) (u : URI) : URI :=
  mk_URI (u_schema u) (u_host u) (u_path u) (u_user_info u) (u_query u) s (u_port u) (u_parse_ok u).
Definition parse_fail (u : URI) : URI :=
  mk_URI (u_schema u) (u_host u) (u_path u) (u_user_info u) (u_query u) (u_fragment u) (u_port u) false.

Fixpoint scan (tok p : list Z) (need_schema need_user_info : bool) (u : URI) : option scan_result :=
  match p with
  | [] => Some (Scan_stop tok p u)
  | ch :: p' =>
      match action_map ch with
      | None => None
      | Some URI_PARSE_BREAK => Some (Scan_stop tok p u)
      | Some URI_PARSE_CONTINUE => scan (tok ++ [ch]) p' need_schema need_user_info u
      | Some URI_PARSE_CHECK =>
          if ch =? ":"%c then
            match p' with
            | c1 :: c2 :: p'' =>
                if (c1 =? "/"%c) && (c2 =? "/"%c) && need_schema
                then scan [] p'' false need_user_info (set_schema tok u)
                else scan (tok ++ [ch]) p' need_schema need_user_info u
            | _ => scan (tok ++ [ch]) p' need_schema need_user_info u
            end
          else if ch =? "@"%c then
            if need_user_info then scan [] p' need_schema false (set_user_info tok u)
            else scan (tok ++ [ch]) p' need_schema need_user_info u
          else if isAllSpace p then Some (Scan_fail (parse_fail u))
          else Some (Scan_stop tok p u)
      end
  end.

(** The loops over the path, the query and the fragment: the characters up to
    the first one that [stop] names or that ends the string; [bad] is the test
    made at a space. *)
Fixpoint take_part (stop : Z -> bool) (bad : list Z -> bool) (tok p : list Z) : option (list Z * list Z) :=
  match p with
  | [] => Some (tok, p)
  | ch :: p' =>
      if (ch =? 0) || stop ch then Some (tok, p)
      else if ch =? " "%c then if bad p then None else Some (tok, p)
      else take_part stop bad (tok ++ [ch]) p'
  end.

(** [if ( *p == mark ) { ... }]; [None] stops the parsing with [_parse_ok]
    false *)
Definition part (mark : Z) (keep_mark : bool) (stop : Z -> bool) (bad : list Z -> bool)
    (set : list Z -> URI -> URI) (p : list Z) (u : URI) : option (list Z * URI) :=
  match p with
  | ch :: p' =>
      if ch =? mark then
        match take_part stop bad (if keep_mark then [ch] else []) p' with
        | None => None
        | Some (tok, p) => Some (p, set tok u)
        end
      else Some (p, u)
  | [] => Some (p, u)
  end.

Definition after_space (p : list Z) : bool := negb (isAllSpace (tl p)).

Definition parse_parts (p : list Z) (u : URI) : URI :=
  match part "/"%c true (fun ch => (ch =? "?"%c) || (ch =? "#"%c)) isAllSpace set_path p u with
  | None => parse_fail u
  | Some (p, u) =>
      match part "?"%c false (fun ch => ch =? "#"%c) after_space set_query p u with
      | None => parse_fail u
      | Some (p, u) =>
          match part "#"%c false (fun _ => false) after_space set_fragment p u with
          | None => parse_fail u
          | Some (_, u) => u
          end
      end
  end.

Definition parseFromString (url : list Z) (u : URI) : option URI :=
  match scan [] (skip_spaces url) true true (clear_uri u) with
  | None => None
  | Some (Scan_fail u) => Some u
  | Some (Scan_stop tok p u) =>
      match splitHostAndPort tok with
      | None => None
      | Some (host, port) => Some (parse_parts p (set_authority host port u))
      end
  end.

(** ** Printing *)

(** A URI by its parts *)
Record uri_parts := mk_uri_parts {
  x_schema : option (list Z);
  x_user_info : option (list Z);
  x_host : list Z;
  x_port : option (list Z);
  x_path : list Z;
  x_query : option (list Z);
  x_fragment : option (list Z)
}.

Definition opt_part (before after : list Z) (o : option (list Z)) : list Z :=
  match o with Some s => before ++ s ++ after | None => [] end.

Definition print_uri (x : uri_parts) : list Z :=
  opt_part [] (bytes_of_string "://") (x_schema x) ++ opt_part [] ["@"%c] (x_user_info x)
  ++ x_host x ++ opt_part [":"%c] [] (x_port x)
  ++ x_path x ++ opt_part ["?"%c] [] (x_query x) ++ opt_part ["#"%c] [] (x_fragment x).

(** Characters without a meaning of their own in the authority *)
Definition plain (ch : Z) : Prop := action_map ch = Some URI_PARSE_CONTINUE.

(** The parts are made of the characters that may appear in them. *)
Record parts_ok (x : uri_parts) : Prop := {
  po_schema : forall s, x_schema x = Some s -> Forall plain s;
  po_user_info : forall s, x_user_info x = Some s -> Forall (fun ch => plain ch \/ ch = ":"%c) s;
  po_host : Forall plain (x_host x) /\ x_host x <> [];
  po_port : match x_port x with
            | Some s => Forall (fun ch => is_digit ch = true) s /\ s <> [] /\ (length s <= 9)%nat
            | None => exists a b, x_host x = a ++ b /\ Forall (fun ch => is_digit ch = true) b /\ (length b <= 9)%nat
                      /\ (a = [] \/ exists a' ch, a = a' ++ [ch] /\ is_digit ch = false)
            end;
  po_path : match x_path x with
            | [] => True
            | ch :: s => ch = "/"%c /\ Forall (fun ch => ch <> 0 /\ ch <> " "%c /\ ch <> "?"%c /\ ch <> "#"%c) s
            end;
  po_query : forall s, x_query x = Some s -> Forall (fun ch => ch <> 0 /\ ch <> " "%c /\ ch <> "#"%c) s;
  po_fragment : forall s, x_fragment x = Some s -> Forall (fun ch => ch <> 0 /\ ch <> " "%c) s
}.

(** ** Scanning *)

Lemma plain_cases ch : plain ch ->
  0 <= ch < 128 /\ ch <> 0 /\ ch <> "#"%c /\ ch <> "/"%c /\ ch <> "?"%c /\ ch <> " "%c /\ ch <> ":"%c /\ ch <> "@"%c.
Proof.
  unfold plain, action_map. intros H. destruct (_ && _) eqn:E1; [|done].
  destruct (_ || _) eqn:E2 in H; [done|]. destruct (_ || _) eqn:E3 in H; [done|]. breflect. lia.
Qed.

Lemma digit_plain ch : is_digit ch = true -> plain ch.
Proof.
  unfold is_digit, plain, action_map. intros H. breflect.
  rewrite (proj2 (Z.leb_le 0 _)), (proj2 (Z.ltb_lt _ 128)) by lia. cbn [andb].
  repeat (rewrite (proj2 (Z.eqb_neq ch _)) by lia). done.
Qed.

Lemma scan_plain s : forall tok p ns nu u,
  Forall plain s -> scan tok (s ++ p) ns nu u = scan (tok ++ s) p ns nu u.
Proof.
  induction s as [|ch s IH]; intros tok p ns nu u Hs; [by rewrite app_nil_r|].
  inversion_clear Hs as [|? ? Hch Hr]. cbn [app scan]. rewrite Hch, IH by done. by rewrite <- app_assoc.
Qed.

(** A colon that does not begin "://" is an ordinary character. *)
Lemma scan_colon tok p ns nu u :
  deref p <> "/"%c -> scan tok (":"%c :: p) ns nu u = scan (tok ++ [":"%c]) p ns nu u.
Proof.
  intros Hp. cbn. destruct p as [|c1 [|c2 p]]; try done.
  cbn in Hp. by rewrite (proj2 (Z.eqb_neq c1 47)) by done.
Qed.

Lemma scan_user s : forall tok p ns nu u,
  Forall (fun ch => plain ch \/ ch = ":"%c) s ->
  scan tok (s ++ "@"%c :: p) ns nu u = scan (tok ++ s) ("@"%c :: p) ns nu u.
Proof.
  induction s as [|ch s IH]; intros tok p ns nu u Hs; [by rewrite app_nil_r|].
  inversion_clear Hs as [|? ? Hch Hr]. cbn [app].
  assert (scan tok (ch :: s ++ "@"%c :: p) ns nu u = scan (tok ++ [ch]) (s ++ "@"%c :: p) ns nu u) as ->.
  { destruct Hch as [Hch| ->]; [by apply (scan_plain [ch]); repeat constructor|]. apply scan_colon.
    destruct Hr as [|c1 s [Hc1| ->]]; cbn; try done. apply plain_cases in Hc1. lia. }
  rewrite IH by done. by rewrite <- app_assoc.
Qed.

(** Where the authority ends *)
Definition at_end (p : list Z) : Prop := match p with [] => True | ch :: _ => ch = "/"%c \/ ch = "?"%c \/ ch = "#"%c end.

Lemma scan_end tok p ns nu u : at_end p -> scan tok p ns nu u = Some (Scan_stop tok p u).
Proof. destruct p as [|ch p]; [done|]. intros [->|[->| ->]]; done. Qed.

Lemma scan_schema s p u : Forall plain s ->
  scan [] (s ++ bytes_of_string "://" ++ p) true true u = scan [] p false true (set_schema s u).
Proof. intros Hs. by rewrite scan_plain. Qed.

Lemma scan_authority x p ns nu u : parts_ok x -> at_end p ->
  scan [] (x_host x ++ opt_part [":"%c] [] (x_port x) ++ p) ns nu u
  = Some (Scan_stop (x_host x ++ opt_part [":"%c] [] (x_port x)) p u).
Proof.
  intros Hok Hend. destruct (po_host _ Hok) as [Hh _]. rewrite scan_plain by done.
  pose proof (po_port _ Hok) as Hp. destruct (x_port x) as [digits|]; cbn [opt_part app].
  - destruct Hp as (Hd & Hne & _). rewrite app_nil_r, scan_colon.
    + rewrite scan_plain by (eapply Forall_impl; [|exact Hd]; apply digit_plain).
      rewrite scan_end by done. by rewrite <- app_assoc.
    + destruct digits as [|d digits]; [done|]. cbn. inversion_clear Hd as [|? ? Hdd _].
      apply digit_plain, plain_cases in Hdd. lia.
  - rewrite scan_end by done. by rewrite app_nil_r.
Qed.

(** ** The port *)

Lemma split_loop_digit ch q port multiply :
  is_digit ch = true -> q <> [] -> port + (ch - "0"%c) * multiply <= INT_MAX -> multiply * 10 <= INT_MAX ->
  split_loop (ch :: q) port multiply = split_loop q (port + (ch - "0"%c) * multiply) (multiply * 10).
Proof.
  intros Hch Hq Hp Hm. destruct q as [|c1 q]; [done|]. unfold is_digit in Hch. cbn [split_loop]. rewrite Hch.
  by rewrite (proj2 (Z.ltb_ge _ _) Hp), (proj2 (Z.ltb_ge _ _) Hm).
Qed.

Lemma split_digits r : forall k acc rest,
  Forall (fun ch => is_digit ch = true) r -> 0 <= k -> k + zlen r <= 9 -> 0 <= acc < 10 ^ k -> rest <> [] ->
  split_loop (r ++ rest) acc (10 ^ k) = split_loop rest (acc + 10 ^ k * dec_value (rev r)) (10 ^ (k + zlen r)).
Proof.
  induction r as [|ch r IH]; intros k acc rest Hr Hk Hlen Hacc Hne.
  - cbn [app rev]. change (dec_value []) with 0. change (zlen []) with 0. by rewrite Z.mul_0_r, !Z.add_0_r.
  - inversion_clear Hr as [|? ? Hch Hrs]. change (zlen (ch :: r)) with (Z.of_nat (S (length r))) in *.
    assert (0 <= ch - "0"%c <= 9) as Hd by (unfold is_digit in Hch; breflect; lia).
    assert (0 <= zlen r) as Hz by apply zlen_nonneg. unfold zlen in Hz, IH.
    assert (10 ^ (k + 1) = 10 * 10 ^ k) as Hpow by (rewrite Z.pow_add_r by lia; lia).
    assert (10 ^ (k + 1) <= 10 ^ 9) as Hmax by (apply Z.pow_le_mono_r; lia).
    cbn [app]. rewrite split_loop_digit; [|done|by destruct r|unfold INT_MAX; nia|unfold INT_MAX; lia].
    replace (10 ^ k * 10) with (10 ^ (k + 1)) by lia. rewrite IH by (done || lia || nia).
    cbn [rev]. rewrite dec_value_snoc. f_equal; [nia|f_equal; lia].
Qed.

(** [split_digits] from the end of the authority *)
Lemma split_suffix rest digits :
  rest <> [] -> Forall (fun ch => is_digit ch = true) digits -> (length digits <= 9)%nat ->
  split_loop (rev (rest ++ digits)) 0 1 = split_loop (rev rest) (dec_value digits) (10 ^ zlen digits).
Proof.
  intros Hne Hd Hlen. rewrite rev_app_distr. change 1 with (10 ^ 0) at 1.
  rewrite split_digits; [|by apply Forall_rev|lia|unfold zlen; rewrite length_rev; lia|lia|].
  - rewrite rev_involutive, Z.mul_1_l. unfold zlen. by rewrite length_rev.
  - intros E. apply (f_equal (@rev Z)) in E. by rewrite rev_involutive in E.
Qed.

Lemma split_with_port host digits :
  host <> [] -> Forall (fun ch => is_digit ch = true) digits -> (length digits <= 9)%nat ->
  splitHostAndPort (host ++ ":"%c :: digits) = Some (host, dec_value digits).
Proof.
  intros Hh Hd Hlen. unfold splitHostAndPort. change (":"%c :: digits) with ([":"%c] ++ digits).
  rewrite app_assoc, split_suffix by (done || by destruct host). rewrite rev_app_distr.
  destruct (rev host) as [|c1 r] eqn:Er.
  { apply (f_equal (@rev Z)) in Er. by rewrite rev_involutive in Er. }
  cbn. by rewrite <- (rev_involutive host), Er.
Qed.

Lemma split_no_port a b :
  Forall plain a -> Forall (fun ch => is_digit ch = true) b -> (length b <= 9)%nat ->
  (a = [] \/ exists a' ch, a = a' ++ [ch] /\ is_digit ch = false) ->
  splitHostAndPort (a ++ b) = Some (a ++ b, -1).
Proof.
  intros Ha Hb Hlen [->|(a' & ch & -> & Hch)]; unfold splitHostAndPort.
  - destruct b as [|c b]; [done|]. inversion_clear Hb as [|? ? Hc Hbs]. cbn [app length] in *.
    change (c :: b) with ([c] ++ b). by rewrite split_suffix by (done || lia).
  - rewrite split_suffix by (done || by destruct a'). rewrite rev_app_distr. cbn [rev app split_loop].
    destruct (rev a') as [|c1 r]; [done|]. unfold is_digit in Hch. rewrite Hch.
    apply list.Forall_app in Ha as [_ Ha]. inversion_clear Ha as [|? ? Hpl _]. apply plain_cases in Hpl.
    by rewrite (proj2 (Z.eqb_neq ch 58)) by lia.
Qed.

Lemma split_authority x : parts_ok x ->
  splitHostAndPort (x_host x ++ opt_part [":"%c] [] (x_port x))
  = Some (x_host x, match x_port x with Some s => dec_value s | None => -1 end).
Proof.
  intros Hok. destruct (po_host _ Hok) as [Hh Hne]. pose proof (po_port _ Hok) as Hp.
  destruct (x_port x) as [digits|]; cbn [opt_part app].
  - rewrite app_nil_r. destruct Hp as (Hd & _ & Hl). by apply split_with_port.
  - rewrite app_nil_r. destruct Hp as (a & b & E & Hb & Hl & Hor). rewrite E in *.
    apply list.Forall_app in Hh as [Ha _]. by apply split_no_port.
Qed.

(** ** Path, query and fragment *)

Lemma take_part_run stop bad s : forall tok p,
  Forall (fun ch => ch <> 0 /\ ch <> " "%c /\ stop ch = false) s ->
  (match p with [] => True | ch :: _ => stop ch = true end) ->
  take_part stop bad tok (s ++ p) = Some (tok ++ s, p).
Proof.
  induction s as [|ch s IH]; intros tok p Hs Hp.
  - rewrite app_nil_r. destruct p as [|ch p]; [done|]. cbn [app take_part]. by rewrite Hp, orb_true_r.
  - inversion_clear Hs as [|? ? (H0 & Hsp & Hst) Hr]. cbn [app take_part].
    rewrite (proj2 (Z.eqb_neq ch 0)), Hst, (proj2 (Z.eqb_neq ch 32)) by done. cbn [orb].
    rewrite IH by done. by rewrite <- app_assoc.
Qed.

(** The state a URI is left in *)
Definition parsed (x : uri_parts) (u : URI) : URI :=
  mk_URI (default [] (x_schema x)) (x_host x) (x_path x) (default [] (x_user_info x))
    (default (u_query u) (x_query x)) (default (u_fragment u) (x_fragment x))
    (match x_port x with Some s => dec_value s | None => -1 end) true.

Definition tail_parts (x : uri_parts) : list Z :=
  x_path x ++ opt_part ["?"%c] [] (x_query x) ++ opt_part ["#"%c] [] (x_fragment x).

Lemma part_present mark keep stop bad set s p u :
  Forall (fun ch => ch <> 0 /\ ch <> " "%c /\ stop ch = false) s ->
  (match p with [] => True | ch :: _ => stop ch = true end) ->
  part mark keep stop bad set (mark :: s ++ p) u = Some (p, set ((if keep then [mark] else []) ++ s) u).
Proof. intros Hs Hp. unfold part. by rewrite Z.eqb_refl, take_part_run. Qed.

Lemma part_absent mark keep stop bad set p u :
  (match p with [] => True | ch :: _ => ch <> mark end) -> part mark keep stop bad set p u = Some (p, u).
Proof. unfold part. destruct p as [|ch p]; [done|]. intros Hne. by rewrite (proj2 (Z.eqb_neq _ _) Hne). Qed.

Definition frag_part (x : uri_parts) : list Z := opt_part ["#"%c] [] (x_fragment x).
Definition query_part (x : uri_parts) : list Z := opt_part ["?"%c] [] (x_query x) ++ frag_part x.

Lemma parse_path x u : parts_ok x ->
  part "/"%c true (fun ch => (ch =? "?"%c) || (ch =? "#"%c)) isAllSpace set_path (tail_parts x) u
  = Some (query_part x, set_path (match x_path x with [] => u_path u | s => s end) u).
Proof.
  intros Hok. unfold tail_parts. fold (frag_part x). fold (query_part x). pose proof (po_path _ Hok) as Hp.
  assert (match query_part x with [] => True | ch :: _ => ch = "?"%c \/ ch = "#"%c end) as Hq.
  { unfold query_part, frag_part. destruct (x_query x); cbn; [by left|]. by destruct (x_fragment x); [right|]. }
  destruct (x_path x) as [|ch s]; cbn [app].
  - rewrite part_absent; [by destruct u|]. destruct (query_part x); [done|]. lia.
  - destruct Hp as [-> Hs]. rewrite part_present; [done| |].
    + eapply Forall_impl; [|exact Hs]. cbn. intros ch (? & ? & ? & ?). repeat split; try done.
      by rewrite (proj2 (Z.eqb_neq ch 63)), (proj2 (Z.eqb_neq ch 35)).
    + destruct (query_part x); [done|]. by destruct Hq as [->| ->].
Qed.

Lemma parse_query x u : parts_ok x ->
  part "?"%c false (fun ch => ch =? "#"%c) after_space set_query (query_part x) u
  = Some (frag_part x, set_query (default (u_query u) (x_query x)) u).
Proof.
  intros Hok. unfold query_part. pose proof (po_query _ Hok) as Hq.
  destruct (x_query x) as [s|]; cbn [opt_part app default].
  - rewrite app_nil_r, part_present; [done| |].
    + eapply Forall_impl; [|by apply Hq]. cbn. intros ch (? & ? & ?). repeat split; try done. by apply Z.eqb_neq.
    + unfold frag_part. by destruct (x_fragment x).
  - rewrite part_absent; [by destruct u|]. unfold frag_part. by destruct (x_fragment x).
Qed.

Lemma parse_fragment x u : parts_ok x ->
  part "#"%c false (fun _ => false) after_space set_fragment (frag_part x) u
  = Some ([], set_fragment (default (u_fragment u) (x_fragment x)) u).
Proof.
  intros Hok. unfold frag_part. pose proof (po_fragment _ Hok) as Hf.
  destruct (x_fragment x) as [s|]; cbn [opt_part app default]; [|by destruct u].
  rewrite (part_present _ _ _ _ _ s []); [done| |done].
  eapply Forall_impl; [|by apply Hf]. cbn. tauto.
Qed.

Lemma scan_prefix x u : parts_ok x ->
  scan [] (print_uri x) true true (clear_uri u)
  = Some (Scan_stop (x_host x ++ opt_part [":"%c] [] (x_port x)) (tail_parts x)
            (set_user_info (default [] (x_user_info x)) (set_schema (default [] (x_schema x)) (clear_uri u)))).
Proof.
  intros Hok. unfold print_uri. fold (tail_parts x).
  assert (at_end (tail_parts x)) as Hend.
  { unfold tail_parts. pose proof (po_path _ Hok) as Hp. destruct (x_path x) as [|ch s]; [|by destruct Hp as [-> _]; left].
    destruct (x_query x); [by right; left|]. destruct (x_fragment x); [by right; right|done]. }
  assert (forall ns v, u_user_info v = [] ->
    scan [] (opt_part [] ["@"%c] (x_user_info x) ++ x_host x ++ opt_part [":"%c] [] (x_port x) ++ tail_parts x) ns true v
    = Some (Scan_stop (x_host x ++ opt_part [":"%c] [] (x_port x)) (tail_parts x)
              (set_user_info (default [] (x_user_info x)) v))) as Huser.
  { intros ns v Hv. pose proof (po_user_info _ Hok) as Hu. destruct (x_user_info x) as [s|]; cbn [opt_part app].
    - rewrite <- app_assoc. cbn [app]. rewrite scan_user by auto. cbn [app]. transitivity (scan [] (x_host x ++ opt_part [":"%c] [] (x_port x) ++ tail_parts x) ns false (set_user_info s v)); [done|].
      by rewrite scan_authority.
    - rewrite scan_authority by done. unfold set_user_info. cbn. rewrite <- Hv. by destruct v. }
  pose proof (po_schema _ Hok) as Hs. destruct (x_schema x) as [s|]; cbn [opt_part app].
  - rewrite <- app_assoc, scan_schema by auto. by rewrite Huser.
  - by rewrite Huser.
Qed.

Lemma skip_spaces_pad n p : deref p <> " "%c -> skip_spaces (repeat " "%c n ++ p) = p.
Proof. intros Hp. induction n as [|n IH]; [|done]. destruct p as [|ch p]; [done|]. cbn in *. by rewrite (proj2 (Z.eqb_neq ch 32)). Qed.

Lemma print_head x : parts_ok x -> deref (print_uri x) <> " "%c.
Proof.
  intros Hok. unfold print_uri. destruct (po_host _ Hok) as [Hh Hne].
  pose proof (po_schema _ Hok) as Hs. pose proof (po_user_info _ Hok) as Hu.
  assert (forall ch, plain ch -> ch <> " "%c) as Hpl by (intros ch Hc; apply plain_cases in Hc; lia).
  destruct (x_schema x) as [[|c s]|]; cbn [opt_part app]; [done| |].
  { specialize (Hs _ eq_refl). inversion_clear Hs. cbn. auto. }
  destruct (x_user_info x) as [[|c s]|]; cbn [opt_part app]; [done| |].
  { specialize (Hu _ eq_refl). inversion_clear Hu as [|? ? [Hc| ->] _]; cbn; auto. }
  destruct (x_host x) as [|c s]; [done|]. inversion_clear Hh. cbn. auto.
Qed.

(** [parseFromString] on any object: an absent query or fragment keeps the
    value of the previous parse, because [clear()] does not reset them. *)
Lemma parse_print x n u :
  parts_ok x -> parseFromString (repeat " "%c n ++ print_uri x) u = Some (parsed x u).
Proof.
  intros Hok. unfold parseFromString.
  rewrite skip_spaces_pad, scan_prefix, split_authority by auto using print_head. unfold parse_parts.
  rewrite parse_path, parse_query, parse_fragment by done. unfold parsed. by destruct (x_path x).
Qed.

(** The parts, as the members of a URI: an absent part is the empty string, an
    absent port -1 *)
Definition given (x : uri_parts) : URI :=
  mk_URI (default [] (x_schema x)) (x_host x) (x_path x) (default [] (x_user_info x))
    (default [] (x_query x)) (default [] (x_fragment x))
    (match x_port x with Some s => dec_value s | None => -1 end) true.

(** C40: what [URI::parseFromString] reads off the text of a URI, after any
    spaces before it, is the parts the text was written from: schema, user
    information, host, port, path, query and fragment, each present or absent
    (an absent part is read as the empty string, an absent port as -1), on
    these conditions. The object is new, or was parsed before from a URI
    without a query and a fragment: [clear()] does not reset those two, so an
    absent one must be empty in the object (uri.h:49). Schema, user
    information and host have bytes from 1 to 127 only, no space and none of
    [/ ? # : @] (the user information may have colons); the host is not empty;
    a port is one to nine digits, and without a port the host does not end in
    more than nine digits; the path is empty or begins with a slash; path,
    query and fragment have no NUL, no space and none of the characters that
    begin the parts after them. *)
Theorem uri_roundtrip x n u :
  parts_ok x -> (x_query x = None -> u_query u = []) -> (x_fragment x = None -> u_fragment u = []) ->
  parseFromString (repeat " "%c n ++ print_uri x) u = Some (given x).
Proof.
  intros Hok Hq Hf. rewrite parse_print by done. unfold parsed, given. do 2 f_equal.
  - destruct (x_query x); [done|]. cbn. auto.
  - destruct (x_fragment x); [done|]. cbn. auto.
Qed.

Definition sample_parts : uri_parts :=
  mk_uri_parts (Some (bytes_of_string "http")) (Some (bytes_of_string "user:pw")) (bytes_of_string "10.0.0.1")
    (Some (bytes_of_string "8080")) (bytes_of_string "/a/b") (Some (bytes_of_string "k=v")) None.

Lemma uri_roundtrip_witness :
  print_uri sample_parts = bytes_of_string "http://user:pw@10.0.0.1:8080/a/b?k=v" /\
  parseFromString (repeat " "%c 2 ++ print_uri sample_parts) new_URI
  = Some (mk_URI (bytes_of_string "http") (bytes_of_string "10.0.0.1") (bytes_of_string "/a/b")
            (bytes_of_string "user:pw") (bytes_of_string "k=v") [] 8080 true).
Proof.
  split; [reflexivity|]. apply (uri_roundtrip sample_parts 2 new_URI); [|reflexivity..].
  split; cbn; try (intros s [= <-]); repeat split; try discriminate;
    repeat (apply List.Forall_cons || apply List.Forall_nil); try (by left); try (by right); try lia; repeat split; discriminate.
Defined.

(** ** Behaviour at the edges *)

(** The test for trailing spaces is inverted in the host and the path: spaces
    after the URI make the parse fail, text after the spaces does not; in the
    query and the fragment it is the other way round. *)
Lemma uri_space_tests :
  u_parse_ok <$> parseFromString (bytes_of_string "host ") new_URI = Some false /\
  u_parse_ok <$> parseFromString (bytes_of_string "host x") new_URI = Some true /\
  u_parse_ok <$> parseFromString (bytes_of_string "host/p ") new_URI = Some false /\
  u_parse_ok <$> parseFromString (bytes_of_string "host/p x") new_URI = Some true /\
  u_parse_ok <$> parseFromString (bytes_of_string "host?q ") new_URI = Some true /\
  u_parse_ok <$> parseFromString (bytes_of_string "host?q x") new_URI = Some false.
Proof. vm_compute. repeat split. Qed.

(** The query of the URI parsed before is still there. *)
Lemma uri_stale_query :
  (parseFromString (bytes_of_string "a?k=v") new_URI ≫= parseFromString (bytes_of_string "b"))
  = Some (mk_URI [] (bytes_of_string "b") [] [] (bytes_of_string "k=v") [] (-1) true).
Proof. reflexivity. Qed.

(** A byte of a multi-byte character is outside the table of actions, and a
    run of ten digits at the end of the authority overflows [multiply]. *)
Lemma uri_undefined :
  parseFromString [104; 195; 182] new_URI = None /\
  parseFromString (bytes_of_string "h:0000000080") new_URI = None.
Proof. split; reflexivity. Qed.
