(* ===== verification/HttpRequest.v ===== *)
(** * HTTP requests (src/protocol/http/http_protocol.cpp, http_request.cpp,
    http_header.cpp and their headers)

    [HttpRequest] and its setters, [HttpInternalRequest::serialize] and
    [assembleHttpRequest], on any buffer that keeps the laws of [ByteBuffer].
    The order in which an [unordered_map] is walked is a parameter; a reader
    of HTTP/1.1 messages written from the grammar is the reference. [None] is
    undefined behaviour. *)

From stdpp Require Import gmap.
From S2P Require Import Prelude Decimals ByteBuffer Bolt Uri.

(** ** Methods and header keys *)

Inductive EHttpMethod : Set := HTTP_METHOD_GET | HTTP_METHOD_POST | HTTP_METHOD_TOTAL.
Inductive EHttpHeaderKey : Set := LOG_ID | CONTENT_TYPE_JSON | CONNECTION | HTTP_HEADER_KEY_SIZE.

#[global] Instance EHttpMethod_eq_dec : EqDecision EHttpMethod.
Proof. solve_decision. Defined.

(** The key as the [size_t] of the header map, and back *)
Definition header_index (key : EHttpHeaderKey) : nat :=
  match key with LOG_ID => 0 | CONTENT_TYPE_JSON => 1 | CONNECTION => 2 | HTTP_HEADER_KEY_SIZE => 3 end.

Definition _s_method_name : list (list Z) := [bytes_of_string "GET"; bytes_of_string "POST"].
Definition _s_header_key : list (list Z) :=
  [bytes_of_string "log-id"; bytes_of_string "application/json"; bytes_of_string "connection"].

Definition getMethod (m : EHttpMethod) : option (list Z) :=
  _s_method_name !! match m with HTTP_METHOD_GET => 0 | HTTP_METHOD_POST => 1 | HTTP_METHOD_TOTAL => 2 end%nat.
Definition getHeaderKey (key : nat) : option (list Z) := _s_header_key !! key.

(** ** The request *)

(** [_method] is not initialised by the constructor: [None]. *)
Record HttpRequest (B : Type) : Type := mk_HttpRequest {
  hq_uri : URI;
  hq_method : option EHttpMethod;
  hq_attch_type : list Z;
  hq_data : option B
}.
Arguments mk_HttpRequest {B} _ _ _ _.
Arguments hq_uri {B} _.
Arguments hq_method {B} _.
Arguments hq_attch_type {B} _.
Arguments hq_data {B} _.

Section Request.
Context {St B : Type} `{ByteBuffer St B}.

Definition new_HttpRequest : HttpRequest B := mk_HttpRequest new_URI None [] None.

Definition uri (url : list Z) (r : HttpRequest B) : option (HttpRequest B) :=
  (fun u => mk_HttpRequest u (hq_method r) (hq_attch_type r) (hq_data r)) <$> parseFromString url (hq_uri r).

Definition method (m : EHttpMethod) (r : HttpRequest B) : HttpRequest B :=
  mk_HttpRequest (hq_uri r) (Some m) (hq_attch_type r) (hq_data r).

Definition attach (data : list Z) (st : St) (r : HttpRequest B) : St * HttpRequest B :=
  let '(st, b) := bb_append data st bb_empty in
  (st, mk_HttpRequest (hq_uri r) (hq_method r) (hq_attch_type r) (Some b)).

Definition attach_type (type : list Z) (r : HttpRequest B) : HttpRequest B :=
  mk_HttpRequest (hq_uri r) (hq_method r) type (hq_data r).

Definition attach_type_key (type : EHttpHeaderKey) (r : HttpRequest B) : option (HttpRequest B) :=
  (fun t => attach_type t r) <$> getHeaderKey (header_index type).

Definition attach_size (r : HttpRequest B) : Z :=
  match hq_data r with Some b => bb_size b | None => 0 end.

End Request.

(** ** [HttpInternalRequest] *)

(** [setHeader]: emplace, or replace the value *)
Definition setHeader (key : EHttpHeaderKey) (value : list Z) (m : gmap nat (list Z)) : gmap nat (list Z) :=
  <[header_index key := value]> m.

(** The constructor *)
Definition internal_header (request_id : Z) : gmap nat (list Z) :=
  setHeader CONNECTION (bytes_of_string "keep-alive") (setHeader LOG_ID (print_dec request_id) ∅).

Definition s_http_line_end : list Z := [13; 10].

Section Serialize.
Context {St B : Type} `{ByteBuffer St B}.
(** The order in which the elements of an [unordered_map] come *)
Context (walk : gmap nat (list Z) -> list (nat * list Z)).

(** [for (auto& p : _header._header_map)] *)
Fixpoint put_headers (l : list (nat * list Z)) (http_ss : list Z) : option (list Z) :=
  match l with
  | [] => Some http_ss
  | (key, value) :: l =>
      match getHeaderKey key with
      | None => None
      | Some name => put_headers l (http_ss ++ name ++ bytes_of_string ": " ++ value ++ s_http_line_end)
      end
  end.

(** The text before the body *)
Definition head_text (r : HttpRequest B) (header : gmap nat (list Z)) : option (list Z) :=
  match hq_method r with
  | None => None
  | Some m =>
      match getMethod m with
      | None => None
      | Some name =>
          let http_ss := name ++ bytes_of_string " " in
          let http_ss := http_ss ++ u_path (hq_uri r) in
          let http_ss := http_ss ++ bytes_of_string " HTTP/1.1" ++ s_http_line_end in
          let http_ss :=
            if decide (m = HTTP_METHOD_GET) then http_ss
            else http_ss ++ bytes_of_string "Content-Length: " ++ print_dec (attach_size r) ++ s_http_line_end in
          let http_ss :=
            match hq_attch_type r with
            | [] => http_ss
            | _ => http_ss ++ bytes_of_string "Content-Type: " ++ hq_attch_type r ++ s_http_line_end
            end in
          let http_ss :=
            http_ss ++ bytes_of_string "Host: " ++ u_host (hq_uri r)
            ++ bytes_of_string ":" ++ print_dec (u_port (hq_uri r)) ++ s_http_line_end in
          let http_ss := http_ss ++ bytes_of_string "Accept: */*" ++ s_http_line_end in
          let http_ss := http_ss ++ bytes_of_string "User-Agent: curl/7.0" ++ s_http_line_end in
          match put_headers (walk header) http_ss with
          | None => None
          | Some http_ss => Some (http_ss ++ s_http_line_end)
          end
      end
  end.

(** [HttpInternalRequest::serialize]: the data of the request is moved away *)
Definition http_serialize (r : HttpRequest B) (request_id : Z) (st : St) (buffer : B)
    : option (bool * HttpRequest B * St * B) :=
  match head_text r (internal_header request_id) with
  | None => None
  | Some text =>
      let '(st, buffer) := bb_append text st buffer in
      match hq_data r with
      | None => Some (true, r, st, buffer)
      | Some data =>
          Some (true, mk_HttpRequest (hq_uri r) (hq_method r) (hq_attch_type r) (Some bb_empty),
                st, bb_append_move data buffer)
      end
  end.

Definition assembleHttpRequest (r : HttpRequest B) (request_id : Z) (st : St) (buffer : B)
    : option (bool * HttpRequest B * St * B) :=
  if negb (u_parse_ok (hq_uri r)) then Some (false, r, st, buffer)
  else http_serialize r request_id st buffer.

End Serialize.

(** ** The reference: reading an HTTP/1.1 request *)

(** The characters of a token, of a request target and of a field value *)
Definition tchar (c : Z) : bool :=
  is_digit c || (("a"%c <=? c) && (c <=? "z"%c)) || (("A"%c <=? c) && (c <=? "Z"%c))
  || bool_decide (c ∈ bytes_of_string "!#$%&'*+-.^_`|~").
Definition vchar (c : Z) : bool := (33 <=? c) && (c <=? 126).
Definition is_space (c : Z) : bool := (c =? 32) || (c =? 9).
Definition field_char (c : Z) : bool := vchar c || is_space c || ((128 <=? c) && (c <=? 255)).

Definition lower (c : Z) : Z := if ("A"%c <=? c) && (c <=? "Z"%c) then c + 32 else c.

(** A line, without its CR LF; a CR or an LF alone is refused *)
Fixpoint read_line (l : list Z) : option (list Z * list Z) :=
  match l with
  | [] => None
  | a :: l' =>
      if a =? 13 then match l' with b :: l'' => if b =? 10 then Some ([], l'') else None | [] => None end
      else if a =? 10 then None
      else match read_line l' with Some (s, rest) => Some (a :: s, rest) | None => None end
  end.

(** The characters before the first [sep] and those after it *)
Fixpoint read_until (sep : Z) (l : list Z) : option (list Z * list Z) :=
  match l with
  | [] => None
  | a :: l' =>
      if a =? sep then Some ([], l')
      else match read_until sep l' with Some (s, rest) => Some (a :: s, rest) | None => None end
  end.

(** The optional white space around a field value *)
Fixpoint lstrip_ows (l : list Z) : list Z :=
  match l with c :: l' => if is_space c then lstrip_ows l' else l | [] => [] end.
Definition strip_ows (l : list Z) : list Z := rev (lstrip_ows (rev (lstrip_ows l))).

Definition token (l : list Z) : bool := negb (bool_decide (l = [])) && forallb tchar l.

(** [name ":" OWS value OWS], up to the empty line *)
Fixpoint read_headers (fuel : nat) (l : list Z) : option (list (list Z * list Z) * list Z) :=
  match fuel with
  | O => None
  | S fuel =>
      match read_line l with
      | None => None
      | Some ([], rest) => Some ([], rest)
      | Some (line, rest) =>
          match read_until ":"%c line with
          | Some (name, value) =>
              if token name && forallb field_char value then
                match read_headers fuel rest with
                | Some (hs, body) => Some ((name, strip_ows value) :: hs, body)
                | None => None
                end
              else None
          | None => None
          end
      end
  end.

(** The values of the fields of a name; names are compared without case *)
Definition is_field (name : list Z) (h : list Z * list Z) : bool :=
  bool_decide (map lower (fst h) = map lower name).
Definition field_values (name : list Z) (hs : list (list Z * list Z)) : list (list Z) :=
  map snd (List.filter (is_field name) hs).

(** How long the body is: as long as its one Content-Length says, empty when
    there is none. A message with a Transfer-Encoding, with two lengths or with
    a length that is not a number is refused. *)
Definition body_length (hs : list (list Z * list Z)) : option Z :=
  match field_values (bytes_of_string "Transfer-Encoding") hs, field_values (bytes_of_string "Content-Length") hs with
  | [], [] => Some 0
  | [], [v] => if negb (bool_decide (v = [])) && forallb is_digit v then Some (dec_value v) else None
  | _, _ => None
  end.

Record http_message := mk_message {
  msg_method : list Z;
  msg_target : list Z;
  msg_version : list Z;
  msg_headers : list (list Z * list Z);
  msg_body : list Z
}.

(** The target is a path (origin-form): a slash and visible characters *)
Definition origin_form (target : list Z) : bool :=
  match target with c :: _ => (c =? "/"%c) && forallb vchar target | [] => false end.

(** [method SP target SP version]; a reader of HTTP/1.1 serves that version *)
Definition read_request_line (line : list Z) : option (list Z * list Z * list Z) :=
  match read_until " "%c line with
  | None => None
  | Some (m, line) =>
      match read_until " "%c line with
      | None => None
      | Some (target, version) =>
          if token m && origin_form target && bool_decide (version = bytes_of_string "HTTP/1.1")
          then Some (m, target, version) else None
      end
  end.

(** [uri-host \[":" port\]], for a host without colons *)
Definition host_value (v : list Z) : bool :=
  match read_until ":"%c v with
  | Some (host, port) => forallb vchar host && forallb is_digit port
  | None => forallb vchar v
  end.

(** One request off a stream of bytes, and what is left of the stream; a
    request has exactly one Host field. [None]: refused, or not yet complete *)
Definition read_request (l : list Z) : option (http_message * list Z) :=
  match read_line l with
  | None => None
  | Some (line, rest) =>
      match read_request_line line, read_headers (length l) rest with
      | Some (m, target, version), Some (hs, rest) =>
          match body_length hs, field_values (bytes_of_string "Host") hs with
          | Some n, [host] =>
              if host_value host && (n <=? zlen rest)
              then Some (mk_message m target version hs (take (Z.to_nat n) rest), drop (Z.to_nat n) rest)
              else None
          | _, _ => None
          end
      | _, _ => None
      end
  end.

Lemma read_line_ok s rest :
  Forall (fun c => c <> 13 /\ c <> 10) s -> read_line (s ++ s_http_line_end ++ rest) = Some (s, rest).
Proof.
  induction 1 as [|a s [Hr Hn] Hs IH]; [done|]. cbn [app read_line].
  rewrite (proj2 (Z.eqb_neq _ _) Hr), (proj2 (Z.eqb_neq _ _) Hn). by rewrite IH.
Qed.

Lemma read_until_ok sep s rest : Forall (fun c => c <> sep) s -> read_until sep (s ++ sep :: rest) = Some (s, rest).
Proof.
  induction 1 as [|a s Ha Hs IH]; cbn [app read_until]; [by rewrite Z.eqb_refl|].
  rewrite (proj2 (Z.eqb_neq _ _) Ha). by rewrite IH.
Qed.

(** Characters of one class are of another, checked on the bytes *)
Lemma tchar_char c : tchar c = true -> c <> 13 /\ c <> 10 /\ c <> ":"%c /\ c <> " "%c.
Proof. intros H. repeat split; intros ->; vm_compute in H; discriminate. Qed.

Lemma field_char_line c : field_char c = true -> c <> 13 /\ c <> 10.
Proof. intros H. split; intros ->; vm_compute in H; discriminate. Qed.

Lemma vchar_field c : vchar c = true -> field_char c = true /\ is_space c = false /\ c <> " "%c.
Proof.
  intros H. unfold field_char. rewrite H. split; [done|]. unfold vchar in H. breflect. unfold is_space.
  rewrite (proj2 (Z.eqb_neq c 32)), (proj2 (Z.eqb_neq c 9)) by lia. split; [done|lia].
Qed.

Lemma digit_vchar c : is_digit c = true -> vchar c = true.
Proof. unfold is_digit, vchar. intros H. breflect. rewrite (proj2 (Z.leb_le _ _)), (proj2 (Z.leb_le _ _)) by lia. done. Qed.

(** White space around a value is what [strip_ows] removes. *)
Lemma lstrip_visible l : match l with [] => True | c :: _ => is_space c = false end -> lstrip_ows l = l.
Proof. destruct l as [|c l]; [done|]. cbn. by intros ->. Qed.

Lemma strip_visible l : Forall (fun c => is_space c = false) l -> strip_ows l = l.
Proof.
  intros Hl. unfold strip_ows. rewrite (lstrip_visible l) by (by destruct Hl).
  rewrite lstrip_visible; [apply rev_involutive|]. apply Forall_rev in Hl. by destruct Hl.
Qed.

(** Header lines *)
Definition header_line (h : list Z * list Z) : list Z := fst h ++ bytes_of_string ": " ++ snd h ++ s_http_line_end.

(** What the grammar asks of a field; the white space around a value is not
    part of it *)
Definition header_ok (h : list Z * list Z) : Prop :=
  token (fst h) = true /\ Forall (fun c => field_char c = true) (snd h) /\ strip_ows (snd h) = snd h.

Lemma token_chars l : token l = true -> l <> [] /\ Forall (fun c => tchar c = true) l.
Proof. unfold token. rewrite andb_true_iff, negb_true_iff, bool_decide_eq_false. intros [? ?]. split; [done|]. by apply List.Forall_forall, forallb_forall. Qed.

Lemma strip_space value : strip_ows (32 :: value) = strip_ows value.
Proof. done. Qed.

Lemma read_headers_ok hs rest : forall fuel,
  Forall header_ok hs -> (length hs < fuel)%nat ->
  read_headers fuel (flat_map header_line hs ++ s_http_line_end ++ rest) = Some (hs, rest).
Proof.
  induction hs as [|[name value] hs IH]; intros [|fuel] Hhs Hf; [cbn in Hf; lia|done|cbn in Hf; lia|].
  inversion_clear Hhs as [|? ? (Hn & Hv & Ht) Hr]. cbn [flat_map read_headers]. unfold header_line at 1. cbn [fst snd] in *.
  destruct (token_chars _ Hn) as [Hne Hchars].
  rewrite <- !app_assoc. rewrite (app_assoc name), (app_assoc (name ++ _)). rewrite read_line_ok.
  - destruct ((name ++ bytes_of_string ": ") ++ value) as [|c0 line] eqn:E; [by destruct name|].
    rewrite <- E, <- app_assoc. change (bytes_of_string ": " ++ value) with (":"%c :: 32 :: value).
    rewrite read_until_ok by (eapply Forall_impl; [|exact Hchars]; intros c Hc; apply tchar_char in Hc; cbn; tauto).
    assert (forallb field_char (32 :: value) = true) as ->.
    { cbn [forallb]. by apply forallb_forall, List.Forall_forall. }
    rewrite Hn, IH by (done || cbn in Hf; lia). cbn [andb]. by rewrite strip_space, Ht.
  - repeat (apply list.Forall_app; split); [|by repeat constructor|].
    + eapply Forall_impl; [|exact Hchars]. intros c Hc. apply tchar_char in Hc. cbn. tauto.
    + eapply Forall_impl; [|exact Hv]. apply field_char_line.
Qed.

(** Numbers as values *)
Lemma print_dec_visible n : Forall (fun c => vchar c = true) (print_dec n).
Proof.
  assert (forall m, 0 <= m -> Forall (fun c => vchar c = true) (print_dec m)) as Hpos.
  { intros m Hm. eapply Forall_impl; [|by apply print_dec_ok]. apply digit_vchar. }
  destruct (Z.ltb_spec n 0) as [Hlt|Hge]; [|auto].
  specialize (Hpos (- n) ltac:(lia)). unfold print_dec in *.
  rewrite (proj2 (Z.ltb_ge (- n) 0)) in Hpos by lia. rewrite (proj2 (Z.ltb_lt n 0)) by lia. by constructor.
Qed.

Lemma print_dec_nonempty n : print_dec n <> [].
Proof. unfold print_dec. destruct (n <? 0); [done|]. cbn [digits]. intros E. by apply app_eq_nil in E as [_ ?]. Qed.

(** ** What a request is serialised to *)

Section SerializeOk.
Context {St B : Type} `{ByteBufferLaws St B}.
Context (walk : gmap nat (list Z) -> list (nat * list Z)).

(** The headers, in the order of the code; those of the map come last *)
Definition own_headers (m : EHttpMethod) (r : HttpRequest B) : list (list Z * list Z) :=
  (if decide (m = HTTP_METHOD_GET) then [] else [(bytes_of_string "Content-Length", print_dec (attach_size r))])
  ++ match hq_attch_type r with [] => [] | type => [(bytes_of_string "Content-Type", type)] end
  ++ [(bytes_of_string "Host", u_host (hq_uri r) ++ bytes_of_string ":" ++ print_dec (u_port (hq_uri r)));
      (bytes_of_string "Accept", bytes_of_string "*/*");
      (bytes_of_string "User-Agent", bytes_of_string "curl/7.0")].

Definition map_headers (request_id : Z) : list (list Z * list Z) :=
  [(bytes_of_string "connection", bytes_of_string "keep-alive"); (bytes_of_string "log-id", print_dec request_id)].

Definition request_line (name : list Z) (r : HttpRequest B) : list Z :=
  name ++ bytes_of_string " " ++ u_path (hq_uri r) ++ bytes_of_string " " ++ bytes_of_string "HTTP/1.1".

Definition attached (st : St) (r : HttpRequest B) : list Z :=
  match hq_data r with Some d => bb_contents st d | None => [] end.

Lemma put_headers_ok l : forall ss,
  Forall (fun p => fst p = 0%nat \/ fst p = 2%nat) l ->
  put_headers l ss
  = Some (ss ++ flat_map header_line (map (fun p => (default [] (getHeaderKey (fst p)), snd p)) l)).
Proof.
  induction l as [|[k v] l IH]; intros ss Hl; [by rewrite app_nil_r|].
  inversion_clear Hl as [|? ? Hk Hr]. cbn [put_headers fst] in *.
  destruct Hk as [->| ->]; cbn [getHeaderKey _s_header_key lookup list_lookup]; rewrite IH by done;
    f_equal; cbn [map flat_map]; unfold header_line at 2; cbn [fst snd]; by rewrite <- !app_assoc.
Qed.

Lemma walk_internal request_id :
  (forall m, walk m ≡ₚ map_to_list m) ->
  walk (internal_header request_id) ≡ₚ [(2%nat, bytes_of_string "keep-alive"); (0%nat, print_dec request_id)].
Proof.
  intros Hwalk. rewrite Hwalk. unfold internal_header, setHeader, header_index.
  rewrite !map_to_list_insert by (by simplify_map_eq). by rewrite map_to_list_empty.
Qed.

Lemma head_text_ok r m name request_id :
  (forall h, walk h ≡ₚ map_to_list h) -> hq_method r = Some m -> getMethod m = Some name ->
  exists mh, mh ≡ₚ map_headers request_id /\
    head_text walk r (internal_header request_id)
    = Some (request_line name r ++ s_http_line_end ++ flat_map header_line (own_headers m r ++ mh) ++ s_http_line_end).
Proof.
  intros Hwalk Hm Hn. pose proof (walk_internal request_id Hwalk) as Hp. unfold head_text. rewrite Hm, Hn.
  exists (map (fun p => (default [] (getHeaderKey (fst p)), snd p)) (walk (internal_header request_id))).
  split; [by rewrite Hp|]. rewrite put_headers_ok by (rewrite Hp; repeat constructor; cbn; auto). f_equal.
  rewrite flat_map_app. generalize (flat_map header_line (map (fun p => (default [] (getHeaderKey (fst p)), snd p)) (walk (internal_header request_id)))).
  intros rest. unfold own_headers, request_line. cbv zeta.
  change (bytes_of_string " HTTP/1.1") with (bytes_of_string " " ++ bytes_of_string "HTTP/1.1").
  change (bytes_of_string "Content-Length: ") with (bytes_of_string "Content-Length" ++ bytes_of_string ": ").
  change (bytes_of_string "Content-Type: ") with (bytes_of_string "Content-Type" ++ bytes_of_string ": ").
  change (bytes_of_string "Host: ") with (bytes_of_string "Host" ++ bytes_of_string ": ").
  change (bytes_of_string "Accept: */*") with (bytes_of_string "Accept" ++ bytes_of_string ": " ++ bytes_of_string "*/*").
  change (bytes_of_string "User-Agent: curl/7.0")
    with (bytes_of_string "User-Agent" ++ bytes_of_string ": " ++ bytes_of_string "curl/7.0").
  destruct (decide _), (hq_attch_type r) as [|t ts]; cbn [flat_map app]; unfold header_line; cbn [fst snd];
    rewrite ?app_nil_r, <- ?app_assoc; cbn [app]; by rewrite <- ?app_assoc.
Qed.

(** What the parts of a request must be for its text to be a message: an
    absolute path of visible characters, a host of visible characters without
    a colon, the port of the URI present, a media type of the characters of a
    field without white space around it, and no data in a GET *)
Record request_ok (st : St) (r : HttpRequest B) : Prop := {
  ro_parse_ok : u_parse_ok (hq_uri r) = true;
  ro_path : origin_form (u_path (hq_uri r)) = true;
  ro_host : Forall (fun c => vchar c = true /\ c <> ":"%c) (u_host (hq_uri r));
  ro_port : 0 <= u_port (hq_uri r);
  ro_type : Forall (fun c => field_char c = true) (hq_attch_type r) /\ strip_ows (hq_attch_type r) = hq_attch_type r;
  ro_get : hq_method r = Some HTTP_METHOD_GET -> attached st r = []
}.

(** A value of visible characters *)
Lemma visible_value name v : token name = true -> Forall (fun c => vchar c = true) v -> header_ok (name, v).
Proof.
  intros Hn Hv. unfold header_ok. cbn [fst snd]. split_and!; [done|..].
  - eapply Forall_impl; [|exact Hv]. apply vchar_field.
  - apply strip_visible. eapply Forall_impl; [|exact Hv]. apply vchar_field.
Qed.

Lemma own_headers_ok st m r : request_ok st r -> Forall header_ok (own_headers m r).
Proof.
  intros Hr. destruct (ro_type _ _ Hr) as [Ht Hstrip]. unfold own_headers. rewrite !list.Forall_app. split_and!.
  - destruct (decide _); [done|]. constructor; [|done]. apply visible_value; [done|apply print_dec_visible].
  - destruct (hq_attch_type r); [done|]. constructor; [|done]. by split_and!.
  - repeat (apply List.Forall_cons); [..|done]; (apply visible_value; [done|]); try (by repeat constructor).
    repeat (apply list.Forall_app; split); [|by repeat constructor|apply print_dec_visible].
    eapply Forall_impl; [|by apply Hr]. cbn. tauto.
Qed.

Lemma map_headers_ok request_id : Forall header_ok (map_headers request_id).
Proof.
  unfold map_headers. repeat (apply List.Forall_cons); [..|done]; (apply visible_value; [done|]).
  - by repeat constructor.
  - apply print_dec_visible.
Qed.

(** The fields of a name among the headers of a request *)
Lemma request_fields name m r mh request_id :
  mh ≡ₚ map_headers request_id -> field_values name (map_headers request_id) = [] ->
  field_values name (own_headers m r ++ mh) = field_values name (own_headers m r).
Proof.
  intros Hmh Hnone. unfold field_values in *. rewrite List.filter_app, map_app.
  assert (map snd (List.filter (is_field name) mh) ≡ₚ []) as Hp.
  { rewrite <- Hnone. apply Permutation_map. clear Hnone. revert Hmh. generalize (map_headers request_id). intros l.
    induction 1 as [|h l1 l2 _ IH|h1 h2 l|l1 l2 l3 _ IH1 _ IH2]; cbn; [done|..].
    - destruct (is_field name h); by rewrite IH.
    - destruct (is_field name h1), (is_field name h2); try done. apply perm_swap.
    - by rewrite IH1. }
  apply Permutation_nil_r in Hp. by rewrite Hp, app_nil_r.
Qed.

Lemma attach_size_ok st r :
  (forall d, hq_data r = Some d -> bb_ok st d /\ bb_fresh d) -> attach_size r = zlen (attached st r).
Proof. intros Hd. unfold attach_size, attached. destruct (hq_data r) as [d|]; [|done]. by apply bb_size_ok, Hd. Qed.

Lemma own_lengths m r :
  field_values (bytes_of_string "Transfer-Encoding") (own_headers m r) = []
  /\ field_values (bytes_of_string "Content-Length") (own_headers m r)
     = if decide (m = HTTP_METHOD_GET) then [] else [print_dec (attach_size r)].
Proof. unfold own_headers. destruct (decide _), (hq_attch_type r); split; reflexivity. Qed.

(** The length a reader expects is the length of the data. *)
Lemma framing st m r mh request_id :
  request_ok st r -> hq_method r = Some m -> mh ≡ₚ map_headers request_id ->
  (forall d, hq_data r = Some d -> bb_ok st d /\ bb_fresh d) ->
  body_length (own_headers m r ++ mh) = Some (zlen (attached st r)).
Proof.
  intros Hr Hm Hmh Hd. unfold body_length. rewrite !(request_fields _ _ _ _ request_id Hmh) by done.
  destruct (own_lengths m r) as [-> ->]. destruct (decide (m = HTTP_METHOD_GET)) as [->|Hne].
  - by rewrite (ro_get _ _ Hr Hm).
  - rewrite (attach_size_ok st r Hd). destruct (print_dec_ok (zlen (attached st r)) ltac:(apply zlen_nonneg)) as [Hv Hdig].
    rewrite bool_decide_eq_false_2 by apply print_dec_nonempty.
    rewrite (proj2 (forallb_forall _ _)) by (by apply List.Forall_forall). by rewrite Hv.
Qed.

Lemma one_host st m r mh request_id :
  request_ok st r -> mh ≡ₚ map_headers request_id ->
  exists v, field_values (bytes_of_string "Host") (own_headers m r ++ mh) = [v] /\ host_value v = true.
Proof.
  intros Hr Hmh. rewrite (request_fields _ _ _ _ request_id Hmh) by done. unfold own_headers.
  exists (u_host (hq_uri r) ++ bytes_of_string ":" ++ print_dec (u_port (hq_uri r))). split.
  - destruct (decide _), (hq_attch_type r); reflexivity.
  - unfold host_value. change (bytes_of_string ":") with [":"%c]. cbn [app].
    rewrite read_until_ok by (eapply Forall_impl; [|by apply Hr]; cbn; tauto).
    rewrite !(proj2 (forallb_forall _ _)); [done|apply List.Forall_forall, print_dec_ok, Hr|].
    apply List.Forall_forall. eapply Forall_impl; [|by apply Hr]. cbn. tauto.
Qed.

(** The line of the request *)
Lemma method_token m name : getMethod m = Some name -> token name = true.
Proof. destruct m; intros [= <-]; reflexivity. Qed.

Lemma path_chars path : origin_form path = true -> Forall (fun c => c <> 13 /\ c <> 10 /\ c <> " "%c) path.
Proof.
  destruct path as [|c path]; [done|]. unfold origin_form. rewrite andb_true_iff. intros [_ Hv].
  rewrite forallb_forall, <- List.Forall_forall in Hv. eapply Forall_impl; [|exact Hv].
  intros d Hd. destruct (vchar_field d Hd) as (Hf & _ & ?). apply field_char_line in Hf. cbn. tauto.
Qed.

Lemma read_request_line_ok st m name r :
  request_ok st r -> getMethod m = Some name ->
  read_request_line (request_line name r) = Some (name, u_path (hq_uri r), bytes_of_string "HTTP/1.1").
Proof.
  intros Hr Hn. pose proof (method_token m name Hn) as Htok. destruct (token_chars _ Htok) as [_ Hname].
  unfold read_request_line, request_line. change (bytes_of_string " ") with [" "%c]. cbn [app].
  rewrite read_until_ok by (eapply Forall_impl; [|exact Hname]; intros c Hc; apply tchar_char in Hc; cbn; tauto).
  rewrite read_until_ok by (eapply Forall_impl; [|apply path_chars, Hr]; cbn; tauto).
  by rewrite Htok, (ro_path _ _ Hr).
Qed.

Lemma request_line_chars st m name r :
  request_ok st r -> getMethod m = Some name -> Forall (fun c => c <> 13 /\ c <> 10) (request_line name r).
Proof.
  intros Hr Hn. destruct (token_chars _ (method_token m name Hn)) as [_ Hname]. unfold request_line.
  repeat (apply list.Forall_app; split); try (by repeat constructor).
  - eapply Forall_impl; [|exact Hname]. intros c Hc. apply tchar_char in Hc. cbn. tauto.
  - eapply Forall_impl; [|apply path_chars, Hr]. cbn. tauto.
Qed.

Lemma header_lines_length hs : (length hs <= length (flat_map header_line hs))%nat.
Proof.
  induction hs as [|h hs IH]; [done|]. cbn [flat_map length]. unfold header_line at 1.
  rewrite !length_app. cbn [length s_http_line_end]. lia.
Qed.

(** A message of the code, and whatever follows it on the connection *)
Lemma read_request_ok st m name r mh request_id rest :
  request_ok st r -> hq_method r = Some m -> getMethod m = Some name -> mh ≡ₚ map_headers request_id ->
  (forall d, hq_data r = Some d -> bb_ok st d /\ bb_fresh d) ->
  read_request (request_line name r ++ s_http_line_end ++ flat_map header_line (own_headers m r ++ mh)
                ++ s_http_line_end ++ attached st r ++ rest)
  = Some (mk_message name (u_path (hq_uri r)) (bytes_of_string "HTTP/1.1") (own_headers m r ++ mh) (attached st r), rest).
Proof.
  intros Hr Hm Hn Hmh Hd. unfold read_request.
  rewrite read_line_ok, (read_request_line_ok st m) by eauto using request_line_chars. rewrite read_headers_ok.
  - rewrite (framing st m r mh request_id) by done. destruct (one_host st m r mh request_id Hr Hmh) as (v & -> & ->).
    rewrite zlen_app, (proj2 (Z.leb_le _ _)) by (pose proof (zlen_nonneg rest); lia). cbn [andb].
    unfold zlen. by rewrite Nat2Z.id, take_app_length, drop_app_length.
  - rewrite Hmh. apply list.Forall_app. split; [by eapply own_headers_ok|apply map_headers_ok].
  - rewrite !length_app. pose proof (header_lines_length (own_headers m r ++ mh)). cbn [length s_http_line_end].
    rewrite length_app in *. lia.
Qed.

(** C39: what [assembleHttpRequest] writes for a GET without data or for a
    POST is one well-formed HTTP/1.1 message after what the buffer held,
    whatever follows it on the connection: a reader of the grammar that takes
    the body by its Content-Length reads exactly the bytes written and leaves
    the rest, and finds the method, the path of the URI as the target (the
    query is not sent), the headers of the code in some order, and the
    attached data as the body; the Content-Length of a POST is the length of
    the data. The data of the request are moved into the buffer.
    Conditions ([request_ok] and the hypotheses): the URI was parsed, its path
    begins with a slash and has visible ASCII characters only, its host too
    and without a colon, its port is present; the content type has the
    characters of a field value and no white space around it; a GET has no
    data (nothing would frame them, see [http_get_body_unframed]); the data are
    in a buffer nothing was consumed from; there is memory for the text; the
    walk of the header map visits each entry once, in any order. *)
Theorem http_request_roundtrip r m name request_id st buffer :
  (forall h, walk h ≡ₚ map_to_list h) ->
  request_ok st r -> hq_method r = Some m -> getMethod m = Some name ->
  bb_ok st buffer -> (forall d, hq_data r = Some d -> bb_ok st d /\ bb_fresh d) ->
  (forall text, head_text walk r (internal_header request_id) = Some text -> zlen text <= bb_room st) ->
  exists r' st' buffer' bytes hs,
    assembleHttpRequest walk r request_id st buffer = Some (true, r', st', buffer')
    /\ bb_ok st' buffer' /\ bb_contents st' buffer' = bb_contents st buffer ++ bytes
    /\ (forall rest,
          read_request (bytes ++ rest)
          = Some (mk_message name (u_path (hq_uri r)) (bytes_of_string "HTTP/1.1") hs (attached st r), rest))
    /\ hs ≡ₚ own_headers m r ++ map_headers request_id
    /\ (m = HTTP_METHOD_POST -> exists v, (bytes_of_string "Content-Length", v) ∈ hs /\ dec_value v = zlen (attached st r))
    /\ (forall d, hq_data r = Some d -> hq_data r' = Some bb_empty).
Proof.
  intros Hwalk Hr Hm Hn Hbuf Hdata Hroom. destruct (head_text_ok r m name request_id Hwalk Hm Hn) as (mh & Hmh & Htext).
  unfold assembleHttpRequest, http_serialize. rewrite (ro_parse_ok _ _ Hr), Htext. cbn [negb].
  pose proof (append_appended st buffer _ Hbuf (Hroom _ Htext)) as Ha. set (text := request_line name r ++ _) in *.
  destruct (bb_append text st buffer) as [st' buf']. cbn [fst snd] in Ha.
  pose proof (fun rest => read_request_ok st m name r mh request_id rest Hr Hm Hn Hmh Hdata) as Hread.
  assert (own_headers m r ++ mh ≡ₚ own_headers m r ++ map_headers request_id) as Hperm by (by rewrite Hmh).
  assert (m = HTTP_METHOD_POST -> exists v,
    (bytes_of_string "Content-Length", v) ∈ own_headers m r ++ mh /\ dec_value v = zlen (attached st r)) as Hlen.
  { intros ->. exists (print_dec (attach_size r)). split; [unfold own_headers; left|].
    rewrite (attach_size_ok st r Hdata). apply print_dec_ok, zlen_nonneg. }
  unfold attached in *. destruct (hq_data r) as [d|] eqn:Ed.
  - destruct (Hdata d eq_refl) as [Hd Hfresh]. destruct (ap_framed _ _ _ _ _ Ha d Hd) as [Hd' Hdc].
    destruct (bb_append_move_ok st' d buf' Hd' (ap_ok _ _ _ _ _ Ha) Hfresh) as [Hok Hc].
    eexists _, _, _, (text ++ bb_contents st d), (own_headers m r ++ mh). split_and!; try done.
    + by rewrite Hc, (ap_contents _ _ _ _ _ Ha), Hdc, app_assoc.
    + intros rest. rewrite <- Hread. unfold text. by rewrite <- !app_assoc.
  - eexists _, _, _, text, (own_headers m r ++ mh). split_and!; try done; try (by apply Ha).
    intros rest. rewrite <- Hread. unfold text. cbn [app]. by rewrite <- !app_assoc.
Qed.
End SerializeOk.

(** A POST of five bytes, the map walked in the order of its keys *)
Definition sample_request : HttpRequest (list Z) :=
  match uri (bytes_of_string "http://example.com:80/upload") new_HttpRequest with
  | Some r => attach_type (bytes_of_string "text/plain") (snd (attach (bytes_of_string "hello") 1000 (method HTTP_METHOD_POST r)))
  | None => new_HttpRequest
  end.

Lemma http_request_roundtrip_witness :
  exists r' st' buffer' bytes hs,
    assembleHttpRequest map_to_list sample_request 7 1000 ([] : list Z) = Some (true, r', st', buffer')
    /\ buffer' = bytes
    /\ read_request (bytes ++ bytes_of_string "GET /")
       = Some (mk_message (bytes_of_string "POST") (bytes_of_string "/upload") (bytes_of_string "HTTP/1.1") hs (bytes_of_string "hello"),
               bytes_of_string "GET /")
    /\ exists v, (bytes_of_string "Content-Length", v) ∈ hs /\ dec_value v = 5.
Proof.
  destruct (http_request_roundtrip map_to_list sample_request HTTP_METHOD_POST (bytes_of_string "POST") 7 1000 ([] : list Z))
    as (r' & st' & b' & bytes & hs & Has & _ & Hc & Hread & _ & Hlen & _).
  - intros h. reflexivity.
  - split; try reflexivity; try (vm_compute; discriminate).
    + repeat (apply List.Forall_cons; [split; [reflexivity|vm_compute; discriminate]|]). apply List.Forall_nil.
    + split; [|reflexivity]. repeat (apply List.Forall_cons; [reflexivity|]). apply List.Forall_nil.
  - reflexivity.
  - reflexivity.
  - exact I.
  - intros d _. split; exact I.
  - intros text Ht. vm_compute in Ht. injection Ht as <-. vm_compute. discriminate.
  - exists r', st', b', bytes, hs. split_and!; [exact Has|exact Hc|exact (Hread _)|]. apply (Hlen eq_refl).
Defined.

(** ** Behaviour at the edges *)

(** A request sent again, as the retry of a session does, has lost its body. *)
Lemma http_retry_sends_no_body :
  match assembleHttpRequest map_to_list sample_request 7 1000 ([] : list Z) with
  | Some (_, r', _, first) =>
      match assembleHttpRequest map_to_list r' 8 1000 ([] : list Z) with
      | Some (true, _, _, second) =>
          msg_body ∘ fst <$> read_request first = Some (bytes_of_string "hello")
          /\ msg_body ∘ fst <$> read_request second = Some []
          /\ (m ← read_request second; head (msg_headers (fst m)))
             = Some (bytes_of_string "Content-Length", bytes_of_string "0")
      | _ => False
      end
  | None => False
  end.
Proof. vm_compute. repeat split. Qed.

(** The data of a GET follow its headers although no length announces them: a
    reader takes the message to end before them, and them for the beginning of
    the next request. *)
Lemma http_get_body_unframed :
  match assembleHttpRequest map_to_list (method HTTP_METHOD_GET sample_request) 7 1000 ([] : list Z) with
  | Some (true, _, _, bytes) =>
      (fun p => (msg_body (fst p), snd p)) <$> read_request bytes = Some ([], bytes_of_string "hello")
  | _ => False
  end.
Proof. vm_compute. reflexivity. Qed.

(** The request line has the path only: the query of the URI is not sent, and
    a URI without a path gives an empty target, which a reader refuses. *)
Lemma http_query_dropped :
  match (r ← uri (bytes_of_string "http://h:80?k=v") new_HttpRequest;
         assembleHttpRequest map_to_list (method HTTP_METHOD_GET r) 7 1000 ([] : list Z)) with
  | Some (true, _, _, bytes) =>
      fst <$> read_line bytes = Some (bytes_of_string "GET  HTTP/1.1") /\ read_request bytes = None
  | _ => False
  end.
Proof. vm_compute. split; reflexivity. Qed.

(** A URI without a port has the port -1, and the Host field says so: the
    request is refused. *)
Lemma http_no_port_refused :
  match (r ← uri (bytes_of_string "http://h/a") new_HttpRequest;
         assembleHttpRequest map_to_list (method HTTP_METHOD_GET r) 7 1000 ([] : list Z)) with
  | Some (true, _, _, bytes) =>
      (fun p => field_values (bytes_of_string "Host") (fst p))
        <$> (read_line bytes ≫= fun p => read_headers (length bytes) (snd p))
      = Some [bytes_of_string "h:-1"]
      /\ read_request bytes = None
  | _ => False
  end.
Proof. vm_compute. split; reflexivity. Qed.
