(* ===== verification/Utils.v ===== *)
(** * String utilities (include/common/utils.h)

    Splitting strings, trimming, and the hash function of [Utils]. A loop over
    positions keeps the code's [pos1] and [pos2]; [npos] is [None]. A call that
    does not return, or an access out of bounds, is [None] of the result. *)

From S2P Require Import Prelude.

(** ** [std::string::find] *)

Fixpoint find_char_from (d : Z) (l : list Z) : option nat :=
  match l with
  | [] => None
  | c :: l => if c =? d then Some O else S <$> find_char_from d l
  end.

Fixpoint has_prefix (d l : list Z) : bool :=
  match d, l with
  | [], _ => true
  | _, [] => false
  | a :: d, c :: l => (a =? c) && has_prefix d l
  end.

Fixpoint find_from (d l : list Z) : option nat :=
  if has_prefix d l then Some O
  else match l with [] => None | _ :: l => S <$> find_from d l end.

(** [src.find(delimiter, pos)] *)
Definition find_char (src : list Z) (d : Z) (pos : nat) : option nat :=
  Nat.add pos <$> find_char_from d (drop pos src).

Definition find_str (src d : list Z) (pos : nat) : option nat :=
  if (pos <=? length src)%nat then Nat.add pos <$> find_from d (drop pos src) else None.

(** [src.substr(pos, n)] *)
Definition substr (src : list Z) (pos n : nat) : list Z := take n (drop pos src).

(** ** [stringSplit] and [stringSlice] *)

Section Split.
Context {A : Type}.
(** What is put into the vector for a piece, how the delimiter is found, and
    its length *)
Context (emit : nat -> nat -> A) (find : nat -> option nat) (delimiter_length src_length : nat).

Fixpoint split_while (fuel : nat) (pos1 : nat) (pos2 : option nat) (vec : list A) : option (list A) :=
  match pos2 with
  | Some pos2 =>
      match fuel with
      | O => None
      | S fuel =>
          let vec := vec ++ [emit pos1 (pos2 - pos1)%nat] in
          let pos1 := (pos2 + delimiter_length)%nat in
          split_while fuel pos1 (find pos1) vec
      end
  | None =>
      Some (if negb (pos1 =? src_length)%nat then vec ++ [emit pos1 (src_length - pos1)%nat] else vec)
  end.

Definition split_run : option (list A) := split_while (S src_length) 0 (find 0%nat) [].

End Split.

Definition stringSplit (src : list Z) (delimiter : Z) : option (list (list Z)) :=
  split_run (substr src) (find_char src delimiter) 1 (length src).

Definition stringSplit_str (src delimiter : list Z) : option (list (list Z)) :=
  split_run (substr src) (find_str src delimiter) (length delimiter) (length src).

(** A [string_view] is an offset into [src] and a length. *)
Definition stringSlice (src : list Z) (delimiter : Z) : option (list (nat * nat)) :=
  split_run pair (find_char src delimiter) 1 (length src).

Definition stringSlice_str (src delimiter : list Z) : option (list (nat * nat)) :=
  split_run pair (find_str src delimiter) (length delimiter) (length src).

(** [splitNum] *)
Fixpoint split_num_while (find : nat -> option nat) (src_length : nat) (fuel : nat)
    (pos1 : nat) (pos2 : option nat) (num : Z) : option Z :=
  match pos2 with
  | Some pos2 =>
      match fuel with
      | O => None
      | S fuel =>
          let num := u64 (num + 1) in
          let pos1 := (pos2 + 1)%nat in
          split_num_while find src_length fuel pos1 (find pos1) num
      end
  | None => Some (if negb (pos1 =? src_length)%nat then u64 (num + 1) else num)
  end.

Definition splitNum (src : list Z) (delimiter : Z) : option Z :=
  split_num_while (find_char src delimiter) (length src) (S (length src)) 0 (find_char src delimiter 0) 0.

(** ** Finding *)

Lemma find_char_str d l : find_char_from d l = find_from [d] l.
Proof.
  induction l as [|c l IH]; [done|]. cbn. rewrite andb_true_r, (Z.eqb_sym d c), IH. done.
Qed.

Lemma has_prefix_app d l : has_prefix d l = true <-> exists k, l = d ++ k.
Proof.
  revert l. induction d as [|a d IH]; intros l; [by split; [exists l|]|].
  destruct l as [|c l]; cbn; [by split; [|intros [k ?]]|].
  rewrite andb_true_iff, Z.eqb_eq, IH. split.
  - intros [-> [k ->]]. by exists k.
  - intros [k [= -> ->]]. by split; [|exists k].
Qed.

Lemma has_prefix_shorten d a b c : has_prefix d (a ++ b) = true -> (length d <= length a)%nat -> has_prefix d (a ++ c) = true.
Proof.
  intros [k Hk]%has_prefix_app Hlen. apply has_prefix_app. exists (drop (length d) a ++ c).
  apply (f_equal (take (length d))) in Hk. rewrite take_app_le, take_app_length in Hk by done.
  rewrite app_assoc, <- Hk at 1. by rewrite take_drop.
Qed.

(** The first occurrence of the delimiter: what precedes it, and the rest *)
Lemma find_from_split d l i :
  find_from d l = Some i ->
  exists p rest, l = p ++ d ++ rest /\ length p = i /\ find_from d (p ++ d) = Some (length p).
Proof.
  revert i. induction l as [|c l IH]; intros i Hf.
  - cbn [find_from] in Hf. destruct (has_prefix d []) eqn:E; [|done]. simplify_eq. apply has_prefix_app in E as [k E].
    exists [], k. split_and!; [done|done|]. destruct d; [done|]. done.
  - cbn [find_from] in Hf. destruct (has_prefix d (c :: l)) eqn:E.
    + simplify_eq. apply has_prefix_app in E as [k E]. exists [], k. split_and!; [done|done|].
      cbn [app length]. destruct d; [done|]. cbn [find_from]. by rewrite (proj2 (has_prefix_app _ _) (ex_intro _ [] (eq_sym (app_nil_r _)))).
    + destruct (find_from d l) as [j|]; [|done]. cbn in Hf. simplify_eq.
      destruct (IH j eq_refl) as (p & rest & -> & <- & Hp). exists (c :: p), rest. split_and!; [done|done|].
      cbn [app find_from length]. rewrite Hp. destruct (has_prefix d (c :: p ++ d)) eqn:E2; [|done].
      exfalso. rewrite <- (app_nil_r (c :: p ++ d)) in E2. apply (has_prefix_shorten _ _ _ rest) in E2.
      * cbn [app] in E2. rewrite <- app_assoc in E2. congruence.
      * cbn. rewrite length_app. lia.
Qed.

(** ** Splitting *)

Section SplitOk.
Context {A : Type} (emit : nat -> nat -> A) (src d : list Z).
Hypothesis d_nonempty : d <> [].

(** The pieces from a position on: [(start, length)] *)
Definition pieces_ok (pos1 : nat) (ps : list (nat * nat)) (last : nat * nat) : Prop :=
  drop pos1 src = flat_map (fun p => substr src (fst p) (snd p) ++ d) ps ++ substr src (fst last) (snd last)
  /\ Forall (fun p => find_from d (substr src (fst p) (snd p) ++ d) = Some (length (substr src (fst p) (snd p)))) ps
  /\ find_from d (substr src (fst last) (snd last)) = None
  /\ (snd last = 0%nat <-> substr src (fst last) (snd last) = []).

Lemma split_while_ok : forall fuel pos1 vec,
  (pos1 <= length src)%nat -> (length src - pos1 < fuel)%nat ->
  exists ps last, pieces_ok pos1 ps last
    /\ split_while emit (find_str src d) (length d) (length src) fuel pos1 (find_str src d pos1) vec
       = Some (vec ++ map (fun p => emit (fst p) (snd p)) ps
                 ++ if (snd last =? 0)%nat then [] else [emit (fst last) (snd last)]).
Proof.
  intros fuel. induction fuel as [|fuel IH]; intros pos1 vec Hpos Hf; [lia|].
  assert (find_str src d pos1 = Nat.add pos1 <$> find_from d (drop pos1 src)) as Hfind
    by (unfold find_str; by rewrite (proj2 (Nat.leb_le _ _) Hpos)).
  destruct (find_from d (drop pos1 src)) as [i|] eqn:Ei; rewrite Hfind; cbn [fmap option_fmap option_map split_while].
  - apply find_from_split in Ei as (p & rest & Hd & <- & Hp).
    assert (length (drop pos1 src) = length p + length d + length rest)%nat as Hlen by (rewrite Hd, !length_app; lia).
    rewrite length_drop in Hlen. destruct d as [|a d'] eqn:Ed; [done|]. rewrite <- Ed in *.
    assert (0 < length d)%nat by (rewrite Ed; cbn; lia).
    destruct (IH (pos1 + length p + length d)%nat (vec ++ [emit pos1 (pos1 + length p - pos1)%nat]) ltac:(lia) ltac:(lia))
      as (ps & last & (Hdrop & Hps & Hlast & Hz) & Hrun).
    assert (substr src pos1 (length p) = p) as Hsub by (unfold substr; rewrite Hd; by rewrite take_app_length).
    exists ((pos1, length p) :: ps), last. split.
    + split_and!; [| |done|done].
      * cbn [flat_map fst snd]. rewrite Hsub, <- app_assoc, <- Hdrop, Hd, <- app_assoc. do 2 f_equal.
        rewrite <- Nat.add_assoc, <- drop_drop, Hd, app_assoc, <- length_app. by rewrite drop_app_length.
      * constructor; [|done]. cbn [fst snd]. by rewrite Hsub.
    + rewrite Hrun. f_equal. rewrite <- app_assoc. cbn [map fst snd app]. by replace (pos1 + length p - pos1)%nat with (length p) by lia.
  - exists [], (pos1, length src - pos1)%nat. cbn [fst snd map app].
    assert (substr src pos1 (length src - pos1) = drop pos1 src) as Hsub
      by (unfold substr; apply take_ge; by rewrite length_drop).
    split.
    + split_and!; cbn [fst snd flat_map app]; rewrite ?Hsub; [done|done|done|].
      rewrite <- length_zero_iff_nil, length_drop. done.
    + destruct (Nat.eqb_spec pos1 (length src)) as [->|Hne].
      * rewrite Nat.sub_diag. cbn. by rewrite app_nil_r.
      * by rewrite (proj2 (Nat.eqb_neq _ _)) by lia.
Qed.

End SplitOk.

(** Every variant puts the same pieces into its vector. *)
Lemma split_while_map {A} (emit : nat -> nat -> A) find dl sl : forall fuel pos1 pos2 vec,
  split_while emit find dl sl fuel pos1 pos2 (map (fun p => emit (fst p) (snd p)) vec)
  = map (fun p => emit (fst p) (snd p)) <$> split_while pair find dl sl fuel pos1 pos2 vec.
Proof.
  induction fuel as [|fuel IH]; intros pos1 [pos2|] vec; cbn [split_while]; try done.
  1,3: case_match; cbn; by rewrite ?map_app.
  by rewrite <- IH, map_app.
Qed.

Lemma split_while_char {A} (emit : nat -> nat -> A) src d dl sl : forall fuel pos1 pos2 vec,
  (pos1 <= length src)%nat -> (forall p, pos2 = Some p -> (p + dl <= length src)%nat) ->
  (forall p q, (p <= length src)%nat -> find_str src [d] p = Some q -> (q + dl <= length src)%nat) ->
  split_while emit (find_char src d) dl sl fuel pos1 pos2 vec = split_while emit (find_str src [d]) dl sl fuel pos1 pos2 vec.
Proof.
  induction fuel as [|fuel IH]; intros pos1 [pos2|] vec Hpos Hp2 Hin; cbn [split_while]; try done.
  specialize (Hp2 _ eq_refl).
  assert (find_char src d (pos2 + dl) = find_str src [d] (pos2 + dl)) as ->.
  { unfold find_char, find_str. by rewrite (proj2 (Nat.leb_le _ _) Hp2), find_char_str. }
  apply IH; [done| |done]. intros p Hp. by apply (Hin (pos2 + dl)%nat).
Qed.

Lemma find_str_in src d p q : find_str src d p = Some q -> (p <= q /\ q + length d <= length src)%nat.
Proof.
  unfold find_str. destruct (Nat.leb_spec p (length src)); [|done].
  destruct (find_from d (drop p src)) as [i|] eqn:E; [|done]. cbn. intros [= <-].
  apply find_from_split in E as (a & rest & Hd & <- & _). apply (f_equal length) in Hd.
  rewrite length_drop, !length_app in Hd. lia.
Qed.

Lemma find_char_0 src d : find_char src d 0 = find_str src [d] 0.
Proof. unfold find_char, find_str. by rewrite find_char_str. Qed.

Lemma split_run_char {A} (emit : nat -> nat -> A) src d :
  split_run emit (find_char src d) 1 (length src) = split_run emit (find_str src [d]) 1 (length src).
Proof.
  unfold split_run. rewrite find_char_0. apply split_while_char; [lia| |].
  - intros p Hp%find_str_in. cbn in Hp. lia.
  - intros p q _ Hq%find_str_in. cbn in Hq. lia.
Qed.

Lemma split_num_length find sl : forall fuel pos1 pos2 (vec : list (nat * nat)),
  zlen vec + Z.of_nat fuel < 2 ^ 64 - 1 ->
  split_num_while find sl fuel pos1 pos2 (zlen vec) = zlen <$> split_while pair find 1 sl fuel pos1 pos2 vec.
Proof.
  assert (forall (vec : list (nat * nat)) x, zlen vec < 2 ^ 64 - 1 -> u64 (zlen vec + 1) = zlen (vec ++ [x])) as Hsnoc.
  { intros vec x Hlt. pose proof (zlen_nonneg vec). rewrite zlen_app. change (zlen [x]) with 1. apply u64_small. lia. }
  induction fuel as [|fuel IH]; intros pos1 [pos2|] vec Hlt; cbn [split_num_while split_while]; try done.
  1,3: case_match; cbn; [by rewrite <- Hsnoc by lia|done].
  rewrite (Hsnoc _ (pos1, pos2 - pos1)%nat) by lia. apply IH. rewrite zlen_app. change (zlen [_]) with 1. lia.
Qed.

(** [stringSplit] and [stringSlice] return for a non-empty delimiter, and
    cut the string at the leftmost occurrences of it: the pieces joined with
    the delimiter are the string, no piece holds it, and only an empty last
    piece is left out. The slices are views of the same pieces, the variants
    for a character are those for a string of it, and [splitNum] counts them. *)
Theorem split_variants_agree (src delimiter : list Z) :
  delimiter <> [] ->
  exists ps last,
    src = flat_map (fun p => p ++ delimiter) ps ++ last
    /\ Forall (fun p => find_from delimiter (p ++ delimiter) = Some (length p)) ps
    /\ find_from delimiter last = None
    /\ (let all := ps ++ match last with [] => [] | _ => [last] end in
        stringSplit_str src delimiter = Some all
        /\ map (fun v => substr src (fst v) (snd v)) <$> stringSlice_str src delimiter = Some all
        /\ forall d, delimiter = [d] ->
             stringSplit src d = Some all
             /\ map (fun v => substr src (fst v) (snd v)) <$> stringSlice src d = Some all
             /\ (zlen src < 2 ^ 64 - 2 -> splitNum src d = Some (zlen all))).
Proof.
  intros Hd. destruct (split_while_ok pair src delimiter Hd (S (length src)) 0 [] ltac:(lia) ltac:(lia))
    as (ps & last & (Hsrc & Hps & Hlast & Hz) & Hrun).
  cbn [app] in Hrun. rewrite drop_0 in Hsrc.
  exists (map (fun p => substr src (fst p) (snd p)) ps), (substr src (fst last) (snd last)).
  set (views := map (fun p => (fst p, snd p)) ps ++ _) in Hrun.
  assert (map (fun v => substr src (fst v) (snd v)) views
    = map (fun p => substr src (fst p) (snd p)) ps
      ++ match substr src (fst last) (snd last) with [] => [] | _ => [substr src (fst last) (snd last)] end) as Hviews.
  { unfold views. rewrite map_app, map_map. f_equal. destruct (Nat.eqb_spec (snd last) 0) as [E|E].
    - by rewrite (proj1 Hz E).
    - cbn [map fst snd]. destruct (substr src (fst last) (snd last)); [by destruct (E (proj2 Hz eq_refl))|done]. }
  assert (stringSlice_str src delimiter = Some views) as Hslice by exact Hrun.
  assert (stringSplit_str src delimiter = Some (map (fun v => substr src (fst v) (snd v)) views)) as Hsplit.
  { unfold stringSplit_str, split_run. change (@nil (list Z)) with (map (fun p : nat * nat => substr src (fst p) (snd p)) []).
    rewrite split_while_map. by rewrite Hrun. }
  split_and!; [by rewrite flat_map_concat_map, map_map, <- flat_map_concat_map| |done|].
  - apply list.Forall_forall. intros p (q & -> & Hq)%list_elem_of_fmap. by apply (proj1 (list.Forall_forall _ _) Hps).
  - cbv zeta. rewrite <- Hviews. split_and!; [done|by rewrite Hslice|]. intros d ->.
    assert (split_run pair (find_char src d) 1 (length src) = Some views) as Hc by (rewrite split_run_char; exact Hrun).
    unfold stringSplit, stringSlice. rewrite Hc, split_run_char. split_and!; [exact Hsplit|done|].
    intros Hlen. unfold splitNum. rewrite (split_num_length _ _ _ _ _ []); [|unfold zlen in *; cbn [length]; lia].
    unfold split_run in Hc. rewrite Hc. cbn. f_equal. unfold zlen. by rewrite length_map.
Qed.

Lemma split_variants_agree_witness :
  exists ps last, bytes_of_string "a,,b," = flat_map (fun p => p ++ [","%c]) ps ++ last
    /\ stringSplit (bytes_of_string "a,,b,") ","%c = Some (ps ++ match last with [] => [] | _ => [last] end)
    /\ splitNum (bytes_of_string "a,,b,") ","%c = Some 3.
Proof.
  destruct (split_variants_agree (bytes_of_string "a,,b,") [","%c]) as (ps & last & Hs & _ & _ & _ & _ & Hc); [discriminate|].
  exists ps, last. destruct (Hc ","%c eq_refl) as (H1 & _ & H2). split_and!; [exact Hs|exact H1|reflexivity].
Defined.

(** With an empty delimiter [find] answers the same position for ever. *)
Lemma split_empty_delimiter_loops (src : list Z) fuel vec :
  split_while (substr src) (find_str src []) 0 (length src) fuel 0 (find_str src [] 0) vec = None.
Proof.
  assert (find_str src [] 0 = Some 0%nat) as E by (unfold find_str; cbn; by destruct src).
  rewrite E. revert vec. induction fuel as [|fuel IH]; intros vec; [done|]. cbn [split_while Nat.add]. by rewrite E, IH.
Qed.

(** ** Trimming *)

(** [std::isspace] in the "C" locale *)
Definition isspace (c : Z) : bool := (c =? 32) || ((9 <=? c) && (c <=? 13)).

(** The number of leading spaces of a C string: [while ( *p && isspace( *p ))] *)
Fixpoint lead_spaces (l : list Z) : nat :=
  match l with
  | c :: l => if negb (c =? 0) && isspace c then S (lead_spaces l) else O
  | [] => O
  end.

(** [strlen] of what an array holds; [None] without a terminator *)
Fixpoint strlen (l : list Z) : option nat :=
  match l with
  | [] => None
  | c :: l => if c =? 0 then Some O else S <$> strlen l
  end.

Definition c_string (arr : list Z) : list Z := match strlen arr with Some n => take n arr | None => arr end.

Definition leftTrim (arr : list Z) : option (list Z) :=
  let p := lead_spaces arr in
  if (p =? 0)%nat then Some arr
  else match strlen (drop p arr) with
       | None => None
       | Some len => Some (take len (drop p arr) ++ [0] ++ drop (S len) arr)
       end.

(** The loop of [rightTrim], with [p] an index *)
Fixpoint right_loop (p : nat) (arr : list Z) : list Z :=
  match p with
  | O => arr
  | S p' => match arr !! p with
            | Some c => if isspace c then right_loop p' (<[p := 0]> arr) else arr
            | None => arr
            end
  end.

Definition rightTrim (arr : list Z) : option (list Z) :=
  match strlen arr with
  | None => None
  | Some O => Some arr
  | Some (S p) => Some (right_loop p arr)
  end.

Definition trim (arr : list Z) : option (list Z) := leftTrim arr ≫= rightTrim.

(** The reference *)
Fixpoint strip_left (s : list Z) : list Z :=
  match s with c :: s' => if isspace c then strip_left s' else s | [] => [] end.
Definition strip (s : list Z) : list Z := rev (strip_left (rev (strip_left s))).

Definition no_nul (s : list Z) : Prop := Forall (fun c => c <> 0) s.

Lemma strlen_nul s junk : no_nul s -> strlen (s ++ 0 :: junk) = Some (length s).
Proof. induction 1 as [|c s Hc _ IH]; [done|]. cbn. by rewrite (proj2 (Z.eqb_neq _ _) Hc), IH. Qed.

Lemma c_string_nul s junk : no_nul s -> c_string (s ++ 0 :: junk) = s.
Proof. intros Hs. unfold c_string. by rewrite strlen_nul, take_app_length. Qed.

Lemma lead_spaces_ok s junk : no_nul s ->
  drop (lead_spaces (s ++ 0 :: junk)) s = strip_left s /\ (lead_spaces (s ++ 0%Z :: junk) <= length s)%nat
  /\ lead_spaces (s ++ 0 :: junk) = (length s - length (strip_left s))%nat.
Proof.
  induction 1 as [|c s Hc Hs IH]; [done|]. cbn [app lead_spaces strip_left]. rewrite (proj2 (Z.eqb_neq _ _) Hc). cbn [negb andb].
  destruct (isspace c); cbn [drop length]; [|split_and!; [done|lia|lia]].
  destruct IH as (-> & Hle & Heq). split_and!; [done|lia|].
  assert (length (strip_left s) <= length s)%nat; [|lia]. clear. induction s as [|c s IH]; cbn [strip_left]; [done|]. destruct (isspace c); cbn [length]; lia.
Qed.

Lemma strip_left_no_nul s : no_nul s -> no_nul (strip_left s).
Proof. induction 1 as [|c s Hc Hs IH]; cbn [strip_left]; [constructor|]. destruct (isspace c); [done|by constructor]. Qed.

Lemma leftTrim_ok s junk : no_nul s ->
  exists junk', leftTrim (s ++ 0 :: junk) = Some (strip_left s ++ 0 :: junk')
                /\ length (strip_left s ++ 0 :: junk') = length (s ++ 0 :: junk).
Proof.
  intros Hs. destruct (lead_spaces_ok s junk Hs) as (Hd & Hle & Heq). unfold leftTrim.
  destruct (Nat.eqb_spec (lead_spaces (s ++ 0 :: junk)) 0) as [E|E].
  - rewrite E, drop_0 in Hd. rewrite <- Hd. by exists junk.
  - rewrite drop_app_le, Hd, strlen_nul, take_app_length by (done || by apply strip_left_no_nul).
    eexists. split; [done|]. cbn [app]. rewrite !length_app. cbn [length].
    rewrite length_drop, length_app. cbn [length]. lia.
Qed.

(** From the last character down to the second *)
Lemma right_loop_ok a : forall s junk, no_nul (a :: s) ->
  exists junk', right_loop (length s) (a :: s ++ 0 :: junk) = a :: rev (strip_left (rev s)) ++ 0 :: junk'
                /\ length (rev (strip_left (rev s)) ++ 0 :: junk') = length (s ++ 0 :: junk).
Proof.
  intros s. induction s as [|c s IH] using rev_ind; intros junk Hn; [by exists junk|].
  rewrite length_app, Nat.add_comm, rev_unit. cbn [length Nat.add right_loop strip_left].
  rewrite <- app_assoc. cbn [app].
  assert ((a :: s ++ c :: 0 :: junk) !! S (length s) = Some c) as -> by (cbn; by apply list_lookup_middle).
  destruct (isspace c).
  - assert (<[S (length s) := 0]> (a :: s ++ c :: 0 :: junk) = a :: s ++ 0 :: 0 :: junk) as ->.
    { change (<[S (length s) := 0]> (a :: ?l)) with (a :: <[length s := 0]> l). by rewrite insert_app_r_alt, Nat.sub_diag by lia. }
    destruct (IH (0 :: junk)) as (junk' & -> & Hl).
    { inversion_clear Hn as [|? ? Ha Hr]. apply list.Forall_app in Hr as [Hr _]. by constructor. }
    exists junk'. split; [done|]. rewrite Hl, !length_app. cbn. lia.
  - exists junk. cbn [rev]. rewrite rev_involutive, <- app_assoc. split; [done|]. rewrite !length_app. cbn. lia.
Qed.

Lemma strip_left_snoc s a : isspace a = false -> strip_left (s ++ [a]) = strip_left s ++ [a].
Proof. intros Ha. induction s as [|c s IH]; cbn [app strip_left]; [by rewrite Ha|]. by destruct (isspace c). Qed.

Lemma strip_left_head s : match strip_left s with [] => True | a :: _ => isspace a = false end.
Proof. induction s as [|c s IH]; cbn [strip_left]; [done|]. by destruct (isspace c) eqn:E. Qed.

(** [trim] on a character array leaves the string without the spaces at its
    ends, inside the same array. *)
Lemma trim_strips s junk : no_nul s ->
  exists arr, trim (s ++ 0 :: junk) = Some arr /\ c_string arr = strip s /\ length arr = length (s ++ 0 :: junk).
Proof.
  intros Hs. destruct (leftTrim_ok s junk Hs) as (j1 & Hl & Hlen1). unfold trim. rewrite Hl. cbn [mbind option_bind].
  pose proof (strip_left_no_nul s Hs) as Hn. pose proof (strip_left_head s) as Hh. unfold rightTrim, strip.
  rewrite strlen_nul by done. destruct (strip_left s) as [|a t] eqn:E; cbn [length].
  - exists ([] ++ 0 :: j1). by split_and!.
  - destruct (right_loop_ok a t j1 Hn) as (j2 & Hr & Hlen2). cbn [app]. rewrite Hr.
    eexists. split; [done|]. cbn [rev app] in *. rewrite strip_left_snoc, rev_unit by done. split.
    + change (a :: rev (strip_left (rev t)) ++ 0 :: j2) with ((a :: rev (strip_left (rev t))) ++ 0 :: j2).
      apply c_string_nul. inversion_clear Hn as [|? ? Ha Ht]. constructor; [done|].
      apply Forall_rev, strip_left_no_nul, Forall_rev, Ht.
    + cbn [length] in *. lia.
Qed.

(** [trim] of a [string_view] into the characters [mem]: the first loop reads on
    as long as there are spaces, past the end of the view too; a pointer that
    leaves [mem] is undefined. *)
Fixpoint view_left (rest : list Z) (data : nat) (length_ : Z) : option (nat * Z) :=
  match rest with
  | [] => None
  | c :: rest => if isspace c then view_left rest (S data) (u64 (length_ - 1)) else Some (data, length_)
  end.

Fixpoint view_right (mem : list Z) (data n : nat) : nat :=
  match n with
  | O => O
  | S n' => match mem !! (data + n')%nat with
            | Some c => if isspace c then view_right mem data n' else n
            | None => n
            end
  end.

Definition trim_view (mem : list Z) (data : nat) (length_ : Z) : option (nat * nat) :=
  match view_left (drop data mem) data length_ with
  | None => None
  | Some (data, length_) =>
      if zlen mem <? Z.of_nat data + length_ then None
      else Some (data, view_right mem data (Z.to_nat length_))
  end.

Lemma view_left_ok s c t rest : forall data n,
  Forall (fun c => isspace c = true) s -> isspace c = false -> zlen s <= n < 2 ^ 64 ->
  view_left (s ++ c :: t ++ rest) data n = Some ((data + length s)%nat, n - zlen s).
Proof.
  induction s as [|a s IH]; intros data n Hs Hc Hn.
  - cbn [app view_left]. rewrite Hc. change (zlen []) with 0. by rewrite Nat.add_0_r, Z.sub_0_r.
  - inversion_clear Hs as [|? ? Ha Hr]. cbn [app view_left]. rewrite Ha.
    change (zlen (a :: s)) with (Z.of_nat (S (length s))) in *. unfold zlen in IH.
    rewrite u64_small by lia. rewrite IH by (done || lia). cbn [length]. do 2 f_equal; lia.
Qed.

Lemma view_right_ok mem data s rest :
  drop data mem = s ++ rest -> take (view_right mem data (length s)) s = rev (strip_left (rev s)).
Proof.
  revert rest. induction s as [|c s IH] using rev_ind; intros rest Hd; [done|].
  rewrite length_app, Nat.add_comm, rev_unit. cbn [length Nat.add view_right strip_left].
  assert (mem !! (data + length s)%nat = Some c) as ->.
  { rewrite <- lookup_drop, Hd, <- app_assoc. cbn [app]. by apply list_lookup_middle. }
  destruct (isspace c).
  - rewrite <- app_assoc in Hd. rewrite <- (IH _ Hd). apply take_app_le.
    clear. induction (length s) as [|n IH]; cbn [view_right]; [done|]. repeat case_match; lia.
  - cbn [rev]. rewrite rev_involutive. apply take_ge. rewrite length_app. cbn. lia.
Qed.

Lemma strip_left_spaces s t : Forall (fun c => isspace c = true) s -> strip_left (s ++ t) = strip_left t.
Proof. induction 1 as [|c s Hc Hs IH]; [done|]. cbn [app strip_left]. by rewrite Hc. Qed.

(** A view that holds a character other than a space is trimmed. *)
Lemma trim_view_strips mem data s c t rest :
  drop data mem = s ++ (c :: t) ++ rest -> Forall (fun c => isspace c = true) s -> isspace c = false ->
  zlen mem < 2 ^ 64 -> (data <= length mem)%nat ->
  exists d n, trim_view mem data (zlen (s ++ c :: t)) = Some (d, n) /\ substr mem d n = strip (s ++ c :: t).
Proof.
  intros Hd Hs Hc Hmem Hdata. pose proof (f_equal length Hd) as Hlen. rewrite length_drop, !length_app in Hlen.
  cbn [length] in Hlen. unfold trim_view. rewrite Hd. cbn [app].
  rewrite view_left_ok by (done || unfold zlen in *; rewrite ?length_app; cbn [length]; lia).
  rewrite zlen_app. replace (zlen s + zlen (c :: t) - zlen s) with (zlen (c :: t)) by lia.
  rewrite (proj2 (Z.ltb_ge _ _)) by (unfold zlen; cbn [length]; lia). eexists _, _. split; [done|].
  unfold zlen. rewrite Nat2Z.id. unfold strip. rewrite strip_left_spaces by done. cbn [strip_left]. rewrite Hc.
  assert (drop (data + length s) mem = (c :: t) ++ rest) as Hd2 by (by rewrite <- drop_drop, Hd, drop_app_length).
  rewrite <- (view_right_ok _ _ _ _ Hd2). unfold substr. rewrite Hd2. apply take_app_le.
  clear. induction (length (c :: t)) as [|n IH]; cbn [view_right]; [done|]. repeat case_match; lia.
Qed.

(** A view of spaces only is read past its end: the length wraps. *)
Lemma trim_view_blank : trim_view (bytes_of_string "  x") 0 1 = None /\ trim_view (bytes_of_string " ") 0 1 = None.
Proof. split; reflexivity. Qed.

(** ** [MurmurHash2] *)

Definition murmur_m : Z := 0x5bd1e995.

Definition le32 (a b c d : Z) : Z := a + 2 ^ 8 * b + 2 ^ 16 * c + 2 ^ 24 * d.

(** [int8_t] *)
Definition i8 (b : Z) : Z := if b <? 128 then b else b - 256.

Definition murmur_mix (h k : Z) : Z :=
  let k := u32 (k * murmur_m) in
  let k := Z.lxor k (Z.shiftr k 24) in
  let k := u32 (k * murmur_m) in
  let h := u32 (h * murmur_m) in
  Z.lxor h k.

(** [h ^= idata[i] << n]: the byte is promoted to [int] with its sign *)
Definition xor_tail (byte : Z -> Z) (h b n : Z) : Z := Z.lxor h (u32 (Z.shiftl (byte b) n)).

(** The rest of the key; [byte] is the type its last bytes are read with *)
Fixpoint murmur_loop (byte : Z -> Z) (data : list Z) (h : Z) : Z :=
  match data with
  | a :: b :: c :: d :: data => murmur_loop byte data (murmur_mix h (le32 a b c d))
  | [a; b; c] => u32 (xor_tail byte (xor_tail byte (xor_tail byte h c 16) b 8) a 0 * murmur_m)
  | [a; b] => u32 (xor_tail byte (xor_tail byte h b 8) a 0 * murmur_m)
  | [a] => u32 (xor_tail byte h a 0 * murmur_m)
  | [] => h
  end.

Definition murmur_finish (h : Z) : Z :=
  let h := Z.lxor h (Z.shiftr h 13) in
  let h := u32 (h * murmur_m) in
  Z.lxor h (Z.shiftr h 15).

Definition MurmurHash2 (key : list Z) (seed : Z) : Z :=
  murmur_finish (murmur_loop i8 key (Z.lxor seed (u32 (zlen key)))).

(** The published function reads the last bytes as unsigned. *)
Definition murmur2_published (key : list Z) (seed : Z) : Z :=
  murmur_finish (murmur_loop (fun b => b) key (Z.lxor seed (u32 (zlen key)))).

(** The bytes after the last whole word *)
Fixpoint tail_bytes (data : list Z) : list Z :=
  match data with
  | _ :: _ :: _ :: _ :: data => tail_bytes data
  | data => data
  end.

Lemma murmur_loop_ascii : forall data h,
  Forall (fun b => b < 128) (tail_bytes data) -> murmur_loop i8 data h = murmur_loop (fun b => b) data h.
Proof.
  assert (forall h b n, b < 128 -> xor_tail i8 h b n = xor_tail (fun b => b) h b n) as Hx.
  { intros h b n Hb. unfold xor_tail, i8. by rewrite (proj2 (Z.ltb_lt _ _) Hb). }
  fix IH 1. intros [|a [|b [|c [|d data]]]] h Ht; cbn [tail_bytes murmur_loop] in *; [done|..|by apply IH];
    repeat match goal with H : Forall _ (_ :: _) |- _ => inversion_clear H end; by rewrite !Hx.
Qed.

(** The hash is the published one when the bytes after the last whole word are
    ASCII. *)
Lemma murmur_ascii key seed :
  Forall (fun b => b < 128) (tail_bytes key) -> MurmurHash2 key seed = murmur2_published key seed.
Proof. intros Ht. unfold MurmurHash2, murmur2_published. by rewrite murmur_loop_ascii. Qed.

Lemma murmur_high_byte : MurmurHash2 [128] 97 <> murmur2_published [128] 97.
Proof. vm_compute. discriminate. Qed.
