(* ===== verification/EndPoint.v ===== *)
(** * Endpoints (include/tcp/endpoint.h, src/tcp/endpoint.cpp)

    The address of a server, read from "host:port" and printed. What
    [inet_pton], [inet_ntop] and the resolver answer are parameters; an IPv4
    address is its 32-bit word. *)

From S2P Require Import Prelude Decimals Utils.

Record EndPoint := mk_EndPoint { ip : Z; port : Z }.

Definition IP_ANY : Z := 0.
Definition new_EndPoint : EndPoint := mk_EndPoint IP_ANY 0.

Definition STR_MAX_SIZE : nat := 64.

(** The copy loop: the characters before the colon and the string from the
    colon on; [None] is [return false]. *)
Fixpoint copy_host (p inner_str : list Z) : option (list Z * list Z) :=
  match p with
  | [] => None
  | ch :: p' =>
      if ch =? ":"%c then Some (inner_str, p)
      else
        let inner_str := inner_str ++ [ch] in
        if (STR_MAX_SIZE <=? length inner_str)%nat || (ch =? 0) then None
        else copy_host p' inner_str
  end.

(** ** [std::strtol(p, &end, 10)]: the value and the string from [end] on, or
    [None] when there is nothing to convert and [end] is [p] *)

Definition LONG_MAX : Z := 2 ^ 63 - 1.
Definition LONG_MIN : Z := - 2 ^ 63.

Fixpoint take_digits (l : list Z) : list Z * list Z :=
  match l with
  | c :: l' => if is_digit c then let '(ds, rest) := take_digits l' in (c :: ds, rest) else ([], l)
  | [] => ([], [])
  end.

Definition take_sign (l : list Z) : bool * list Z :=
  match l with
  | c :: l' => if c =? "-"%c then (true, l') else if c =? "+"%c then (false, l') else (false, l)
  | [] => (false, [])
  end.

Definition strtol (p : list Z) : option (Z * list Z) :=
  let '(neg, l) := take_sign (strip_left p) in
  match take_digits l with
  | ([], _) => None
  | (ds, rest) =>
      let v := if neg then - dec_value ds else dec_value ds in
      Some (Z.max LONG_MIN (Z.min LONG_MAX v), rest)
  end.

Section Resolver.
(** [inet_pton] with a positive answer, and the resolver's first address *)
Context (inet_pton : list Z -> option Z) (gethostbyname_r : list Z -> option Z).
(** The dotted form of an address *)
Context (inet_ntop : Z -> list Z).

Definition resolve (inner_str : list Z) : option Z :=
  match inet_pton inner_str with
  | Some a => Some a
  | None => gethostbyname_r inner_str
  end.

(** [*end] is a character of the string *)
Definition at_nul (l : list Z) : bool := match l with [] => true | c :: _ => c =? 0 end.

(** [EndPoint::parseFromString]: the answer and the endpoint it leaves; the
    [long] of [strtol] is stored in the [int] port before it is tested. *)
Definition parseFromString (str : list Z) (e : EndPoint) : bool * EndPoint :=
  match copy_host str [] with
  | None => (false, e)
  | Some (inner_str, p) =>
      match resolve inner_str with
      | None => (false, e)
      | Some a =>
          match strtol (tl p) with
          | None => (false, mk_EndPoint a 0)
          | Some (v, end_) =>
              let e := mk_EndPoint a (s32 v) in
              if negb (at_nul end_) then (false, e)
              else if (port e <? 0) || (65535 <? port e) then (false, e)
              else (true, e)
          end
      end
  end.

(** [EndPoint::ipToStr] *)
Definition ipToStr (e : EndPoint) : list Z := inet_ntop (ip e) ++ ":"%c :: print_dec (port e).

(** ** Parsing *)

Lemma copy_host_ok host : forall inner rest,
  Forall (fun c => c <> 0 /\ c <> ":"%c) host -> (length inner + length host < STR_MAX_SIZE)%nat ->
  copy_host (host ++ ":"%c :: rest) inner = Some (inner ++ host, ":"%c :: rest).
Proof.
  induction host as [|c host IH]; intros inner rest Hh Hl; [by rewrite app_nil_r|].
  inversion_clear Hh as [|? ? [H0 Hcol] Hr]. cbn [app copy_host]. rewrite (proj2 (Z.eqb_neq _ _) Hcol).
  cbn [length] in Hl. rewrite (proj2 (Nat.leb_gt _ _)) by (rewrite length_app; cbn; lia).
  rewrite (proj2 (Z.eqb_neq _ _) H0). cbn [orb]. rewrite IH; [by rewrite <- app_assoc|done|rewrite length_app; cbn; lia].
Qed.

Lemma take_digits_ok ds : Forall (fun c => is_digit c = true) ds -> take_digits ds = (ds, []).
Proof. induction 1 as [|c ds Hc _ IH]; [done|]. cbn [take_digits]. by rewrite Hc, IH. Qed.

Lemma dec_value_nonneg ds : Forall (fun c => is_digit c = true) ds -> 0 <= dec_value ds.
Proof.
  induction ds as [|c ds IH] using rev_ind; [done|]. intros [Hds Hc]%list.Forall_app.
  rewrite dec_value_snoc. inversion_clear Hc as [|? ? Hd _]. unfold is_digit in Hd. breflect. specialize (IH Hds). lia.
Qed.

Lemma strtol_digits ds : Forall (fun c => is_digit c = true) ds -> ds <> [] ->
  strtol ds = Some (Z.min LONG_MAX (dec_value ds), []).
Proof.
  intros Hds Hne. unfold strtol. pose proof (dec_value_nonneg _ Hds) as Hv.
  assert (strip_left ds = ds /\ take_sign ds = (false, ds)) as [-> ->].
  { destruct Hds as [|c ds Hc Hr]; [done|]. unfold is_digit in Hc. breflect.
    assert (isspace c = false) as Hsp.
    { unfold isspace. apply orb_false_iff. split; [apply Z.eqb_neq; lia|]. apply andb_false_iff. right. apply Z.leb_gt. lia. }
    cbn [strip_left take_sign]. rewrite Hsp, (proj2 (Z.eqb_neq c 45)), (proj2 (Z.eqb_neq c 43)) by lia. done. }
  rewrite take_digits_ok by done. destruct ds; [done|]. do 2 f_equal. unfold LONG_MIN, LONG_MAX in *. lia.
Qed.

(** The parse of "host:digits", on every outcome *)
Lemma parse_host_port host ds e :
  Forall (fun c => c <> 0 /\ c <> ":"%c) host -> (length host < STR_MAX_SIZE)%nat ->
  Forall (fun c => is_digit c = true) ds -> ds <> [] ->
  parseFromString (host ++ ":"%c :: ds) e
  = match resolve host with
    | None => (false, e)
    | Some a => let p := s32 (Z.min LONG_MAX (dec_value ds)) in
                ((0 <=? p) && (p <=? 65535), mk_EndPoint a p)
    end.
Proof.
  intros Hh Hl Hds Hne. unfold parseFromString. rewrite copy_host_ok by done. cbn [app tl].
  destruct (resolve host) as [a|]; [|done]. rewrite strtol_digits by done. cbn [at_nul negb port].
  cbv zeta. set (p := s32 _). destruct (Z.ltb_spec p 0), (Z.leb_spec 0 p), (Z.ltb_spec 65535 p), (Z.leb_spec p 65535);
    first [lia|done].
Qed.

(** An endpoint with a valid port, printed and parsed, is the endpoint
    again, when [inet_pton] reads the dotted form [inet_ntop] writes of its
    address: fewer than 16 characters, without a colon. *)
Theorem endpoint_roundtrip (e e0 : EndPoint) :
  inet_pton (inet_ntop (ip e)) = Some (ip e) ->
  (length (inet_ntop (ip e)) < 16)%nat -> Forall (fun c => c <> 0 /\ c <> ":"%c) (inet_ntop (ip e)) ->
  0 <= port e <= 65535 ->
  parseFromString (ipToStr e) e0 = (true, e).
Proof.
  intros Hpton Hl Hh Hport. destruct (print_dec_ok (port e) ltac:(lia)) as [Hv Hd].
  unfold ipToStr. rewrite parse_host_port; [|done|unfold STR_MAX_SIZE; lia|done|].
  - unfold resolve. rewrite Hpton, Hv. cbv zeta. rewrite Z.min_r by (unfold LONG_MAX; lia). rewrite s32_small by lia.
    rewrite (proj2 (Z.leb_le 0 _)), (proj2 (Z.leb_le _ 65535)) by lia. by destruct e.
  - intros E. unfold print_dec in E. rewrite (proj2 (Z.ltb_ge _ _)) in E by lia. cbn [digits] in E. by destruct (if _ <? _ then _ else _) in E.
Qed.

End Resolver.

(** The loopback address, the only one these read and write *)
Definition loopback : list Z := bytes_of_string "127.0.0.1".
Definition loopback_ip : Z := 16777343.
Definition loopback_pton (s : list Z) : option Z := if decide (s = loopback) then Some loopback_ip else None.
Definition loopback_ntop (a : Z) : list Z := loopback.

Lemma endpoint_roundtrip_witness :
  ipToStr loopback_ntop (mk_EndPoint loopback_ip 12200) = bytes_of_string "127.0.0.1:12200"
  /\ parseFromString loopback_pton (fun _ => None) (bytes_of_string "127.0.0.1:12200") new_EndPoint
     = (true, mk_EndPoint loopback_ip 12200).
Proof.
  split; [reflexivity|].
  apply (endpoint_roundtrip loopback_pton (fun _ => None) loopback_ntop (mk_EndPoint loopback_ip 12200) new_EndPoint).
  - reflexivity.
  - apply Nat.ltb_lt. reflexivity.
  - repeat constructor; discriminate.
  - cbn. lia.
Defined.

(** ** Behaviour at the edges *)

(** 4294967376 is 2^32 + 80: the test sees the truncated port. *)
Lemma endpoint_port_wraps :
  parseFromString loopback_pton (fun _ => None) (bytes_of_string "127.0.0.1:4294967376") new_EndPoint
  = (true, mk_EndPoint loopback_ip 80).
Proof. vm_compute. reflexivity. Qed.

(** A failed parse has overwritten the endpoint. *)
Lemma endpoint_failure_overwrites e :
  parseFromString loopback_pton (fun _ => None) (bytes_of_string "127.0.0.1:80x") e
  = (false, mk_EndPoint loopback_ip 80).
Proof. reflexivity. Qed.
