(* ===== verification/SocketPosix.v ===== *)
(** * The wrappers of system calls (src/tcp/socket_posix.cpp)

    What the wrappers do to a descriptor, against what the manual pages of
    [fcntl], [setsockopt] and [getsockopt] say. The system is an interface with
    laws; a table of descriptors is one that keeps to them. *)

From stdpp Require Import gmap.
From S2P Require Import Prelude Bolt EndPoint.

Definition O_NONBLOCK : Z := 2 ^ 11.
Definition FD_CLOEXEC : Z := 1.
Definition AF_INET : Z := 2.

(** ** The system *)

(** What there is to know of a descriptor: its status flags, its descriptor
    flags, and for a socket [TCP_NODELAY] and the pending error *)
Record fd_state := mk_fd { fd_status_flags : Z; fd_flags : Z; fd_socket : option (Z * Z) }.

(** [struct sockaddr_in]: the port in network order *)
Record sockaddr_in := mk_sockaddr { sin_family : Z; sin_addr : Z; sin_port : list Z }.

(** [fcntl] with [F_GETFL], [F_SETFL] and [F_SETFD], [setsockopt] with
    [TCP_NODELAY], [getsockopt] with [SO_ERROR] (the answer and [err]),
    [socket] and [connect] *)
Class Posix (K : Type) := {
  fcntl_GETFL : Z -> K -> Z;
  fcntl_SETFL : Z -> Z -> K -> Z * K;
  fcntl_SETFD : Z -> Z -> K -> Z * K;
  setsockopt_NODELAY : Z -> Z -> K -> Z * K;
  getsockopt_ERROR : Z -> K -> Z * Z * K;
  sys_socket : K -> Z * K;
  sys_connect : Z -> sockaddr_in -> K -> Z * K;
  fd_table : K -> gmap Z fd_state
}.

(** [F_SETFL] cannot change the access mode: the law is for values that differ
    from the present flags in [O_NONBLOCK] only. *)
Class PosixLaws (K : Type) `{Posix K} : Prop := {
  getfl_open k fd s : fd_table k !! fd = Some s -> fcntl_GETFL fd k = fd_status_flags s;
  getfl_closed k fd : fd_table k !! fd = None -> fcntl_GETFL fd k = -1;
  setfl_open k fd s flags : fd_table k !! fd = Some s ->
    Z.lor flags O_NONBLOCK = Z.lor (fd_status_flags s) O_NONBLOCK ->
    exists k', fcntl_SETFL fd flags k = (0, k')
      /\ fd_table k' = <[fd := mk_fd flags (fd_flags s) (fd_socket s)]> (fd_table k);
  setfd_open k fd s flags : fd_table k !! fd = Some s ->
    exists k', fcntl_SETFD fd flags k = (0, k')
      /\ fd_table k' = <[fd := mk_fd (fd_status_flags s) flags (fd_socket s)]> (fd_table k);
  setfd_closed k fd flags : fd_table k !! fd = None -> fcntl_SETFD fd flags k = (-1, k);
  nodelay_socket k fd s d e v : fd_table k !! fd = Some s -> fd_socket s = Some (d, e) ->
    exists k', setsockopt_NODELAY fd v k = (0, k')
      /\ fd_table k' = <[fd := mk_fd (fd_status_flags s) (fd_flags s) (Some (v, e))]> (fd_table k);
  nodelay_other k fd v : fd_table k !! fd ≫= fd_socket = None -> setsockopt_NODELAY fd v k = (-1, k);
  error_socket k fd s d e : fd_table k !! fd = Some s -> fd_socket s = Some (d, e) ->
    exists k', getsockopt_ERROR fd k = (0, e, k')
      /\ fd_table k' = <[fd := mk_fd (fd_status_flags s) (fd_flags s) (Some (d, 0))]> (fd_table k);
  error_other k fd : fd_table k !! fd ≫= fd_socket = None -> exists e, getsockopt_ERROR fd k = (-1, e, k)
}.

(** ** The wrappers *)

Section Wrappers.
Context {K : Type} `{Posix K}.
Implicit Types (k : K) (fd : Z).

Definition set_non_blocking fd k : bool * K :=
  let flags := fcntl_GETFL fd k in
  if flags <? 0 then (false, k)
  else if has_bit flags O_NONBLOCK then (true, k)
  else let '(r, k) := fcntl_SETFL fd (Z.lor flags O_NONBLOCK) k in (0 =? r, k).

Definition set_blocking fd k : bool * K :=
  let flags := fcntl_GETFL fd k in
  if flags <? 0 then (false, k)
  else if has_bit flags O_NONBLOCK
  then let '(r, k) := fcntl_SETFL fd (Z.land flags (Z.lnot O_NONBLOCK)) k in (0 =? r, k)
  else (true, k).

Definition set_close_on_exec fd k : bool * K :=
  let '(r, k) := fcntl_SETFD fd FD_CLOEXEC k in (0 =? r, k).

Definition set_no_delay fd k : bool * K :=
  let '(r, k) := setsockopt_NODELAY fd 1 k in (0 =? r, k).

(** The descriptor the new guard holds *)
Definition create_socket k : Z * K := sys_socket k.

(** The conjunction stops at the first wrapper that fails. *)
Definition prepare_socket fd k : bool * K :=
  let '(ok, k) := set_non_blocking fd k in
  if ok then
    let '(ok, k) := set_close_on_exec fd k in
    if ok then set_no_delay fd k else (false, k)
  else (false, k).

(** [base::connect]; [htons] takes the low 16 bits of the [int]. *)
Definition posix_connect fd (remote : EndPoint) k : Z * K :=
  sys_connect fd (mk_sockaddr AF_INET (ip remote) (be16 (port remote))) k.

Definition connected fd k : bool * K :=
  if fd <? 0 then (false, k)
  else
    let '(r, err, k) := getsockopt_ERROR fd k in
    if r <? 0 then (false, k)
    else if negb (err =? 0) then (false, k)
    else (true, k).

End Wrappers.

(** ** A table of descriptors *)

Definition update_fd (fd : Z) (f : fd_state -> option fd_state) (k : gmap Z fd_state) : Z * gmap Z fd_state :=
  match k !! fd ≫= f with Some s => (0, <[fd := s]> k) | None => (-1, k) end.

#[global] Instance table_posix : Posix (gmap Z fd_state) := {
  fcntl_GETFL fd k := match k !! fd with Some s => fd_status_flags s | None => -1 end;
  fcntl_SETFL fd flags k := update_fd fd (fun s => Some (mk_fd flags (fd_flags s) (fd_socket s))) k;
  fcntl_SETFD fd flags k := update_fd fd (fun s => Some (mk_fd (fd_status_flags s) flags (fd_socket s))) k;
  setsockopt_NODELAY fd v k :=
    update_fd fd (fun s => (fun '(_, e) => mk_fd (fd_status_flags s) (fd_flags s) (Some (v, e))) <$> fd_socket s) k;
  getsockopt_ERROR fd k :=
    match k !! fd ≫= fd_socket with
    | Some (d, e) =>
        (0, e, snd (update_fd fd (fun s => Some (mk_fd (fd_status_flags s) (fd_flags s) (Some (d, 0)))) k))
    | None => (-1, 0, k)
    end;
  sys_socket k := let fd := fresh (dom k) in (fd, <[fd := mk_fd 2 0 (Some (0, 0))]> k);
  sys_connect fd _ k := (if bool_decide (is_Some (k !! fd ≫= fd_socket)) then 0 else -1, k);
  fd_table k := k
}.

#[global] Instance table_posix_laws : PosixLaws (gmap Z fd_state).
Proof.
  split; intros k fd; cbn [fcntl_GETFL fcntl_SETFL fcntl_SETFD setsockopt_NODELAY getsockopt_ERROR fd_table table_posix];
    unfold update_fd.
  - by intros s ->.
  - by intros ->.
  - intros s flags -> _. by eexists.
  - intros s flags ->. by eexists.
  - by intros flags ->.
  - intros s d e v -> Hs. cbn. rewrite Hs. by eexists.
  - intros v Hn. destruct (k !! fd) as [s|]; cbn in *; [by rewrite Hn|done].
  - intros s d e -> Hs. cbn. rewrite Hs. by eexists.
  - intros Hn. rewrite Hn. by eexists.
Qed.

(** ** Bits *)

Lemma nonblock_bit flags : has_bit flags O_NONBLOCK = Z.testbit flags 11.
Proof. by apply has_bit_testbit. Qed.

Lemma lor_nonblock_has flags : has_bit (Z.lor flags O_NONBLOCK) O_NONBLOCK = true.
Proof. rewrite nonblock_bit, Z.lor_spec. by rewrite orb_true_r. Qed.

Lemma lor_nonblock_id flags : has_bit flags O_NONBLOCK = true -> Z.lor flags O_NONBLOCK = flags.
Proof.
  rewrite nonblock_bit. intros Hb. apply Z.bits_inj'. intros n Hn. unfold O_NONBLOCK.
  rewrite Z.lor_spec, Z.pow2_bits_eqb by lia. destruct (Z.eqb_spec 11 n) as [<-|]; [by rewrite Hb|apply orb_false_r].
Qed.

Lemma land_nonblock_id flags : has_bit flags O_NONBLOCK = false -> Z.land flags (Z.lnot O_NONBLOCK) = flags.
Proof.
  rewrite nonblock_bit. intros Hb. apply Z.bits_inj'. intros n Hn. unfold O_NONBLOCK.
  rewrite Z.land_spec, Z.lnot_spec, Z.pow2_bits_eqb by lia.
  destruct (Z.eqb_spec 11 n) as [<-|]; [by rewrite Hb|apply andb_true_r].
Qed.

Lemma clear_nonblock flags :
  has_bit flags O_NONBLOCK = false -> Z.land (Z.lor flags O_NONBLOCK) (Z.lnot O_NONBLOCK) = flags.
Proof.
  rewrite nonblock_bit. intros Hb. apply Z.bits_inj'. intros n Hn. unfold O_NONBLOCK.
  rewrite Z.land_spec, Z.lor_spec, Z.lnot_spec, Z.pow2_bits_eqb by lia.
  destruct (Z.eqb_spec 11 n) as [<-|]; [by rewrite Hb|by rewrite orb_false_r, andb_true_r].
Qed.

Lemma set_clear_nonblock flags :
  Z.lor (Z.land flags (Z.lnot O_NONBLOCK)) O_NONBLOCK = Z.lor flags O_NONBLOCK.
Proof.
  apply Z.bits_inj'. intros n Hn. unfold O_NONBLOCK.
  rewrite !Z.lor_spec, Z.land_spec, Z.lnot_spec, Z.pow2_bits_eqb by lia.
  destruct (11 =? n); [by rewrite !orb_true_r|by rewrite !orb_false_r, andb_true_r].
Qed.

(** ** What the wrappers promise *)

Section Promises.
Context {K : Type} `{PosixLaws K}.
Implicit Types (k : K) (fd : Z) (s : fd_state).

Definition with_flags (flags : Z) s : fd_state := mk_fd flags (fd_flags s) (fd_socket s).

Lemma with_same_flags s : with_flags (fd_status_flags s) s = s.
Proof. by destruct s. Qed.

Lemma set_non_blocking_open k fd s :
  fd_table k !! fd = Some s -> 0 <= fd_status_flags s ->
  exists k', set_non_blocking fd k = (true, k')
    /\ fd_table k' = <[fd := with_flags (Z.lor (fd_status_flags s) O_NONBLOCK) s]> (fd_table k).
Proof.
  intros Hs Hf. unfold set_non_blocking. rewrite (getfl_open k fd s Hs), (proj2 (Z.ltb_ge _ _)) by done.
  destruct (has_bit _ _) eqn:Eb.
  - exists k. split; [done|]. rewrite (lor_nonblock_id _ Eb), with_same_flags. symmetry. by apply insert_id.
  - destruct (setfl_open k fd s (Z.lor (fd_status_flags s) O_NONBLOCK) Hs) as (k' & -> & Ht).
    { by rewrite <- Z.lor_assoc, Z.lor_diag. }
    by exists k'.
Qed.

Lemma set_blocking_open k fd s :
  fd_table k !! fd = Some s -> 0 <= fd_status_flags s ->
  exists k', set_blocking fd k = (true, k')
    /\ fd_table k' = <[fd := with_flags (Z.land (fd_status_flags s) (Z.lnot O_NONBLOCK)) s]> (fd_table k).
Proof.
  intros Hs Hf. unfold set_blocking. rewrite (getfl_open k fd s Hs), (proj2 (Z.ltb_ge _ _)) by done.
  destruct (has_bit _ _) eqn:Eb.
  - destruct (setfl_open k fd s (Z.land (fd_status_flags s) (Z.lnot O_NONBLOCK)) Hs) as (k' & -> & Ht);
      [apply set_clear_nonblock|by exists k'].
  - exists k. split; [done|].
    rewrite (land_nonblock_id _ Eb), with_same_flags. symmetry. by apply insert_id.
Qed.

Lemma blocking_closed k fd :
  fd_table k !! fd = None -> set_non_blocking fd k = (false, k) /\ set_blocking fd k = (false, k).
Proof. intros Hn. unfold set_non_blocking, set_blocking. by rewrite (getfl_closed k fd Hn). Qed.

(** A socket [connect] may wait for with [POLLOUT]: it does not block, is not
    inherited and does not delay small writes *)
Definition prepared (s : fd_state) (e : Z) : fd_state :=
  mk_fd (Z.lor (fd_status_flags s) O_NONBLOCK) FD_CLOEXEC (Some (1, e)).

(** [prepare_socket] prepares an open socket, and only that descriptor changes;
    for anything that is not a socket it answers [false]. *)
Lemma prepare_socket_ok k fd s d e :
  fd_table k !! fd = Some s -> 0 <= fd_status_flags s -> fd_socket s = Some (d, e) ->
  exists k', prepare_socket fd k = (true, k') /\ fd_table k' = <[fd := prepared s e]> (fd_table k).
Proof.
  intros Hs Hf Hsock. unfold prepare_socket.
  destruct (set_non_blocking_open k fd s Hs Hf) as (k1 & -> & Ht1). unfold set_close_on_exec.
  destruct (setfd_open k1 fd _ FD_CLOEXEC ltac:(rewrite Ht1; apply lookup_insert_eq)) as (k2 & -> & Ht2).
  rewrite Z.eqb_refl. unfold set_no_delay. cbn [with_flags fd_status_flags fd_flags fd_socket] in Ht2. rewrite Hsock in Ht2.
  destruct (nodelay_socket k2 fd _ d e 1 ltac:(rewrite Ht2; apply lookup_insert_eq) eq_refl) as (k3 & -> & Ht3).
  exists k3. split; [done|]. by rewrite Ht3, Ht2, Ht1, !insert_insert_eq.
Qed.

Lemma prepare_closed k fd : fd_table k !! fd = None -> prepare_socket fd k = (false, k).
Proof. intros Hn. unfold prepare_socket. by rewrite (proj1 (blocking_closed k fd Hn)). Qed.

Lemma prepare_not_socket k fd : fd_table k !! fd ≫= fd_socket = None -> fst (prepare_socket fd k) = false.
Proof.
  destruct (fd_table k !! fd) as [s|] eqn:Hs; [|intros _; by rewrite (prepare_closed k fd Hs)].
  cbn. intros Hn. unfold prepare_socket. destruct (Z.ltb_spec (fd_status_flags s) 0) as [Hneg|Hf].
  - unfold set_non_blocking. by rewrite (getfl_open k fd s Hs), (proj2 (Z.ltb_lt _ _)).
  - destruct (set_non_blocking_open k fd s Hs Hf) as (k1 & -> & Ht1). unfold set_close_on_exec.
    destruct (setfd_open k1 fd _ FD_CLOEXEC ltac:(rewrite Ht1; apply lookup_insert_eq)) as (k2 & -> & Ht2).
    rewrite Z.eqb_refl. unfold set_no_delay. rewrite (nodelay_other k2 fd); [done|].
    by rewrite Ht2, lookup_insert_eq.
Qed.

(** [connected] tells whether the connection has no pending error. *)
Lemma connected_ok k fd s d e :
  0 <= fd -> fd_table k !! fd = Some s -> fd_socket s = Some (d, e) -> fst (connected fd k) = bool_decide (e = 0).
Proof.
  intros Hfd Hs Hsock. unfold connected. rewrite (proj2 (Z.ltb_ge _ _)) by done.
  destruct (error_socket k fd s d e Hs Hsock) as (k' & -> & _). cbn [Z.ltb Z.compare].
  case_bool_decide as He; [by rewrite He|]. by rewrite (proj2 (Z.eqb_neq _ _)).
Qed.

Lemma connected_other k fd : fd_table k !! fd ≫= fd_socket = None -> connected fd k = (false, k).
Proof.
  intros Hn. unfold connected. destruct (fd <? 0); [done|]. by destruct (error_other k fd Hn) as (e & ->).
Qed.

(** Asking takes the error: the second answer is [true]. *)
Lemma connected_twice k fd s d e :
  0 <= fd -> fd_table k !! fd = Some s -> fd_socket s = Some (d, e) -> e <> 0 ->
  let '(first, k) := connected fd k in first = false /\ fst (connected fd k) = true.
Proof.
  intros Hfd Hs Hsock He. pose proof (connected_ok k fd s d e Hfd Hs Hsock) as Hfirst.
  unfold connected at 1 in Hfirst. unfold connected at 1. rewrite (proj2 (Z.ltb_ge _ _)) in * by done.
  destruct (error_socket k fd s d e Hs Hsock) as (k' & -> & Ht). cbn [Z.ltb Z.compare] in *.
  rewrite (proj2 (Z.eqb_neq _ _)) by done. split; [done|].
  rewrite (connected_ok k' fd _ d 0 Hfd ltac:(rewrite Ht; apply lookup_insert_eq) eq_refl). done.
Qed.

End Promises.

(** Switching a descriptor to non-blocking mode and back: on an open
    descriptor both calls answer [true], in between [O_NONBLOCK] is set, and
    afterwards every descriptor is as it was when it was blocking at first;
    the other flags never change. *)
Theorem nonblocking_roundtrip {K : Type} `{PosixLaws K} (k : K) (fd : Z) (s : fd_state) :
  fd_table k !! fd = Some s -> 0 <= fd_status_flags s -> has_bit (fd_status_flags s) O_NONBLOCK = false ->
  exists k1 k2, set_non_blocking fd k = (true, k1)
    /\ fd_table k1 = <[fd := with_flags (Z.lor (fd_status_flags s) O_NONBLOCK) s]> (fd_table k)
    /\ set_non_blocking fd k1 = (true, k1)
    /\ set_blocking fd k1 = (true, k2) /\ fd_table k2 = fd_table k.
Proof.
  intros Hs Hf Hb. destruct (set_non_blocking_open k fd s Hs Hf) as (k1 & H1 & Ht1).
  assert (fd_table k1 !! fd = Some (with_flags (Z.lor (fd_status_flags s) O_NONBLOCK) s)) as Hs1
    by (rewrite Ht1; apply lookup_insert_eq).
  assert (0 <= Z.lor (fd_status_flags s) O_NONBLOCK) as Hf1 by (apply Z.lor_nonneg; split; [done|by vm_compute]).
  destruct (set_blocking_open k1 fd _ Hs1 Hf1) as (k2 & H2 & Ht2).
  exists k1, k2. split_and!; [done|done| |done|].
  - unfold set_non_blocking. rewrite (getfl_open k1 fd _ Hs1). cbn [with_flags fd_status_flags].
    by rewrite (proj2 (Z.ltb_ge _ _)), lor_nonblock_has.
  - rewrite Ht2, Ht1, insert_insert_eq. cbn [with_flags fd_status_flags]. rewrite (clear_nonblock _ Hb).
    apply insert_id. rewrite Hs. f_equal. by destruct s.
Qed.

Lemma nonblocking_roundtrip_witness :
  let k : gmap Z fd_state := {[ 5 := mk_fd 2 0 (Some (0, 0)) ]} in
  exists k1, set_non_blocking 5 k = (true, k1) /\ fst (set_blocking 5 k1) = true /\ snd (set_blocking 5 k1) = k.
Proof.
  intros k. assert (fd_table k !! 5 = Some (mk_fd 2 0 (Some (0, 0)))) as Hk by (vm_compute; reflexivity).
  destruct (nonblocking_roundtrip k 5 (mk_fd 2 0 (Some (0, 0))) Hk ltac:(vm_compute; discriminate) eq_refl)
    as (k1 & k2 & H1 & _ & _ & H2 & Ht).
  exists k1. rewrite H2. split_and!; [exact H1|reflexivity|exact Ht].
Defined.
