(* ===== verification/SocketManager.v ===== *)
(** * Event loops and the socket manager (src/schedule/schedule.cpp,
    loop_thread.cpp, epoll_loop.cpp, src/tcp/socket_manager.cpp)

    The loop threads wait for events and call the handlers registered with
    them; [Schedule] distributes descriptors over the threads; [SocketManager]
    takes sockets no channel owns any more out of the loops and drops their
    handlers once the loops have let go of them. The threads are interleaved,
    one step per access to what they share. Heartbeats, the third part of
    [watchConnections], are left out: they do not touch the lists. *)

From stdpp Require Import gmap relations.
From S2P Require Import Prelude LifeCycleLock.

(** ** The parts *)

(** A registered handler: [Socket::_on_read] of a socket, or
    [SocketManager::_on_reclaim[i]] *)
Inductive handler : Set := On_read (k : nat) | On_reclaim (i : nat).

#[global] Instance handler_eq_dec : EqDecision handler.
Proof. solve_decision. Defined.

(** Where a loop thread is: at the next event of [loop_once], or inside
    [_on_reclaim[i]] *)
Inductive handler_pc : Set := H_next | H_remove (i : nat) | H_notify (i : nat).

#[global] Instance handler_pc_eq_dec : EqDecision handler_pc.
Proof. solve_decision. Defined.

(** [Loop]: the descriptors of the epoll instance with their handlers, the
    events [epoll_wait] has returned and that are still to be handled *)
Record Loop := mk_Loop { lp_events : gmap nat handler; lp_actives : list handler; lp_pc : handler_pc }.

Definition MAX_POLL_EVENT : nat := 32.

(** A connected [Socket]: its descriptor, its life-cycle lock, whether
    [_on_read] holds a function, whether it was given to [addWatch], and whether
    the channel still owns it *)
Record watched := mk_watched {
  w_fd : nat;
  w_sharers : Z;
  w_on_read : bool;
  w_added : bool;
  w_owned : bool
}.

(** Where the manager's thread is in [watchConnections] *)
Inductive manager_pc : Set :=
| M_idle
| M_collect (j : nat)
| M_disconnect (j k : nat)
| M_reclaim
| M_schedule (cur_idx : nat)
| M_wait (cur_idx : nat)
| M_release (cur_idx j : nat).

(** The loops, [SocketManager], and whether an empty handler was called *)
Record manager := mk_manager {
  sm_loops : list Loop;
  sm_sockets : list watched;
  sm_list : list nat;
  sm_reclaim_list : list nat;
  sm_reclaim_notify_flag : list bool;
  sm_reclaim_counter : Z;
  sm_pc : manager_pc;
  sm_crashed : bool
}.

Definition set_loops (l : list Loop) (s : manager) : manager :=
  mk_manager l (sm_sockets s) (sm_list s) (sm_reclaim_list s) (sm_reclaim_notify_flag s) (sm_reclaim_counter s) (sm_pc s) (sm_crashed s).
Definition set_sockets (l : list watched) (s : manager) : manager :=
  mk_manager (sm_loops s) l (sm_list s) (sm_reclaim_list s) (sm_reclaim_notify_flag s) (sm_reclaim_counter s) (sm_pc s) (sm_crashed s).
Definition set_list (l : list nat) (s : manager) : manager :=
  mk_manager (sm_loops s) (sm_sockets s) l (sm_reclaim_list s) (sm_reclaim_notify_flag s) (sm_reclaim_counter s) (sm_pc s) (sm_crashed s).
Definition set_reclaim_list (l : list nat) (s : manager) : manager :=
  mk_manager (sm_loops s) (sm_sockets s) (sm_list s) l (sm_reclaim_notify_flag s) (sm_reclaim_counter s) (sm_pc s) (sm_crashed s).
Definition set_flags (l : list bool) (s : manager) : manager :=
  mk_manager (sm_loops s) (sm_sockets s) (sm_list s) (sm_reclaim_list s) l (sm_reclaim_counter s) (sm_pc s) (sm_crashed s).
Definition set_counter (n : Z) (s : manager) : manager :=
  mk_manager (sm_loops s) (sm_sockets s) (sm_list s) (sm_reclaim_list s) (sm_reclaim_notify_flag s) n (sm_pc s) (sm_crashed s).
Definition set_pc (pc : manager_pc) (s : manager) : manager :=
  mk_manager (sm_loops s) (sm_sockets s) (sm_list s) (sm_reclaim_list s) (sm_reclaim_notify_flag s) (sm_reclaim_counter s) pc (sm_crashed s).
Definition crash (s : manager) : manager :=
  mk_manager (sm_loops s) (sm_sockets s) (sm_list s) (sm_reclaim_list s) (sm_reclaim_notify_flag s) (sm_reclaim_counter s) (sm_pc s) true.

(** ** [Schedule] *)

(** The thread of a descriptor: [idx > 0 ? idx % size : fd % size] *)
Definition thread_of (n fd : nat) (idx : Z) : nat :=
  if 0 <? idx then (Z.to_nat idx mod n)%nat else (fd mod n)%nat.

Definition scheduleThreadSize (s : manager) : nat := length (sm_loops s).

(** [Loop::add_event]: [EPOLL_CTL_ADD] fails for a descriptor that is there. *)
Definition add_event (fd : nat) (h : handler) (l : Loop) : bool * Loop :=
  match lp_events l !! fd with
  | Some _ => (false, l)
  | None => (true, mk_Loop (<[fd := h]> (lp_events l)) (lp_actives l) (lp_pc l))
  end.

Definition remove_event (fd : nat) (l : Loop) : Loop :=
  mk_Loop (delete fd (lp_events l)) (lp_actives l) (lp_pc l).

Definition addSchedule (fd : nat) (h : handler) (idx : Z) (s : manager) : bool * manager :=
  let t := thread_of (scheduleThreadSize s) fd idx in
  match sm_loops s !! t with
  | None => (false, s)
  | Some l => let '(ret, l) := add_event fd h l in (ret, set_loops (<[t := l]> (sm_loops s)) s)
  end.

Definition removeSchedule (fd : nat) (idx : Z) (s : manager) : manager :=
  let t := thread_of (scheduleThreadSize s) fd idx in
  match sm_loops s !! t with
  | None => s
  | Some l => set_loops (<[t := remove_event fd l]> (sm_loops s)) s
  end.

(** ** The loop threads *)

(** [epoll_wait]: some of the registered descriptors, each once *)
Definition wait_step (t : nat) (fds : list nat) (s : manager) : option manager :=
  match sm_loops s !! t with
  | Some (mk_Loop events [] H_next) =>
      if bool_decide (NoDup fds) && bool_decide (Forall (fun fd => is_Some (events !! fd)) fds)
         && (length fds <=? MAX_POLL_EVENT)%nat
      then Some (set_loops (<[t := mk_Loop events (omap (fun fd => events !! fd) fds) H_next]> (sm_loops s)) s)
      else None
  | _ => None
  end.

Section Manager.
(** The descriptor of [_reclaim_fd[1]] *)
Context (reclaim_fd : nat).

(** The next access of [loop_once]: a handler is called, or [_on_reclaim[i]]
    goes on. Calling an empty function is the crash. *)
Definition loop_run (t : nat) (s : manager) : option manager :=
  match sm_loops s !! t with
  | None => None
  | Some l =>
      match lp_pc l with
      | H_next =>
          match lp_actives l with
          | [] => None
          | On_read k :: rest =>
              let s' := set_loops (<[t := mk_Loop (lp_events l) rest H_next]> (sm_loops s)) s in
              match sm_sockets s !! k with
              | Some w => Some (if w_on_read w then s' else crash s')
              | None => None
              end
          | On_reclaim i :: rest =>
              Some (set_flags (<[i := true]> (sm_reclaim_notify_flag s))
                     (set_loops (<[t := mk_Loop (lp_events l) rest (H_remove i)]> (sm_loops s)) s))
          end
      | H_remove i =>
          let s := removeSchedule reclaim_fd (Z.of_nat i) s in
          match sm_loops s !! t with
          | Some l => Some (set_loops (<[t := mk_Loop (lp_events l) (lp_actives l) (H_notify i)]> (sm_loops s)) s)
          | None => None
          end
      | H_notify i =>
          Some (set_loops (<[t := mk_Loop (lp_events l) (lp_actives l) H_next]> (sm_loops s)) s)
      end
  end.

(** ** Channels *)

(** [Socket::connect] has succeeded: the socket, which its channel owns
    exclusively, is registered for reading. *)
Definition connect_step (fd : nat) (s : manager) : option manager :=
  if bool_decide (fd = reclaim_fd) then None
  else
    match addSchedule fd (On_read (length (sm_sockets s))) (-1) s with
    | (true, s) => Some (set_sockets (sm_sockets s ++ [mk_watched fd EXCLUSIVE true false true]) s)
    | (false, _) => None
    end.

(** [addWatch], which waits for [_mtx] *)
Definition watch_step (k : nat) (s : manager) : option manager :=
  match sm_pc s, sm_sockets s !! k with
  | M_collect _, _ | M_disconnect _ _, _ => None
  | _, Some (mk_watched fd sh on false owned) =>
      Some (set_list (sm_list s ++ [k]) (set_sockets (<[k := mk_watched fd sh on true owned]> (sm_sockets s)) s))
  | _, _ => None
  end.

(** The channel surrenders the socket. *)
Definition release_step (k : nat) (s : manager) : option manager :=
  match sm_sockets s !! k with
  | Some (mk_watched fd sh on true true) =>
      Some (set_sockets (<[k := mk_watched fd (releaseExclusive sh) on true false]> (sm_sockets s)) s)
  | _ => None
  end.

(** ** The manager's thread *)

(** [Socket::tryExclusive] *)
Definition socket_tryExclusive (sh : Z) : bool * Z :=
  let '(ok, sh) := tryUpgrade sh in if ok then tryExclusive sh else (false, sh).

(** One access of [watchConnections]; [timed_out]: the 500 ms of the wait have
    passed *)
Definition manager_step (timed_out : bool) (s : manager) : option manager :=
  match sm_pc s with
  | M_idle => Some (set_pc (M_collect 0) s)
  | M_collect j =>
      match sm_list s !! j with
      | None => Some (set_pc M_reclaim s)
      | Some k =>
          match sm_sockets s !! k with
          | None => None
          | Some w =>
              let '(ok, sh) := socket_tryExclusive (w_sharers w) in
              let s := set_sockets (<[k := mk_watched (w_fd w) sh (w_on_read w) (w_added w) (w_owned w)]> (sm_sockets s)) s in
              Some (set_pc (if ok then M_disconnect j k else M_collect (S j)) s)
          end
      end
  | M_disconnect j k =>
      match sm_sockets s !! k with
      | None => None
      | Some w =>
          let s := removeSchedule (w_fd w) (-1) s in
          Some (set_pc (M_collect j) (set_reclaim_list (sm_reclaim_list s ++ [k]) (set_list (delete j (sm_list s)) s)))
      end
  | M_reclaim =>
      match sm_reclaim_list s with
      | [] => Some (set_pc M_idle s)
      | _ =>
          let schedule_size := scheduleThreadSize s in
          if (schedule_size =? 0)%nat then None
          else
            let cur_idx := Z.to_nat (sm_reclaim_counter s mod Z.of_nat schedule_size) in
            Some (set_pc (M_schedule cur_idx)
                   (set_flags (<[cur_idx := false]> (sm_reclaim_notify_flag s))
                     (set_counter (u64 (sm_reclaim_counter s + 1)) s)))
      end
  | M_schedule cur_idx =>
      Some (set_pc (M_wait cur_idx) (snd (addSchedule reclaim_fd (On_reclaim cur_idx) (Z.of_nat cur_idx) s)))
  | M_wait cur_idx =>
      match sm_reclaim_notify_flag s !! cur_idx with
      | Some true => Some (set_pc (M_release cur_idx 0) s)
      | _ => if timed_out then Some (set_pc M_idle s) else None
      end
  | M_release cur_idx j =>
      match sm_reclaim_list s !! j with
      | None => Some (set_pc M_idle s)
      | Some k =>
          match sm_sockets s !! k with
          | None => None
          | Some w =>
              if bool_decide ((w_fd w mod scheduleThreadSize s)%nat = cur_idx) then
                Some (set_reclaim_list (delete j (sm_reclaim_list s))
                       (set_sockets (<[k := mk_watched (w_fd w) (w_sharers w) false (w_added w) (w_owned w)]> (sm_sockets s)) s))
              else Some (set_pc (M_release cur_idx (S j)) s)
          end
      end
  end.

(** [timeouts]: whether waits may time out *)
Inductive system_step (timeouts : bool) : manager -> manager -> Prop :=
| by_wait t fds s s' : wait_step t fds s = Some s' -> system_step timeouts s s'
| by_handler t s s' : loop_run t s = Some s' -> system_step timeouts s s'
| by_connect fd s s' : connect_step fd s = Some s' -> system_step timeouts s s'
| by_watch k s s' : watch_step k s = Some s' -> system_step timeouts s s'
| by_release k s s' : release_step k s = Some s' -> system_step timeouts s s'
| by_manager b s s' : (b = true -> timeouts = true) -> manager_step b s = Some s' -> system_step timeouts s s'.

(** [SocketManager::init] after [Schedule::init] of [n] threads *)
Definition manager_init (n : nat) : manager :=
  mk_manager (replicate n (mk_Loop ∅ [] H_next)) [] [] [] (replicate n false) 0 M_idle false.

End Manager.

(** ** The invariant *)

Section Safety.
Context (reclaim_fd n : nat).
Hypothesis n_pos : (0 < n)%nat.
Hypothesis reclaim_fd_first : (reclaim_fd mod n = 0)%nat.

(** A socket whose handler is set, with the descriptor [fd] *)
Definition live (s : manager) (k fd : nat) : Prop :=
  exists w, sm_sockets s !! k = Some w /\ w_fd w = fd /\ w_on_read w = true.

(** Descriptors are registered with their own thread; a socket that is being
    reclaimed is not registered any more; the notification is registered for the
    round the manager is in, or its handler is just removing it. *)
Definition event_ok (s : manager) (t : nat) (l : Loop) (fd : nat) (h : handler) : Prop :=
  match h with
  | On_read k => t = (fd mod n)%nat /\ live s k fd /\ k ∉ sm_reclaim_list s
  | On_reclaim i => fd = reclaim_fd /\ t = i
      /\ (lp_pc l = H_remove i \/ (sm_pc s = M_wait i /\ sm_reclaim_notify_flag s !! i = Some false))
  end.

(** None of the events still to be handled is for a socket being reclaimed. *)
Definition let_go (s : manager) (l : Loop) : Prop :=
  forall k, On_read k ∈ lp_actives l -> k ∉ sm_reclaim_list s.

Definition active_ok (s : manager) (t : nat) (l : Loop) (h : handler) : Prop :=
  match h with
  | On_read k => exists fd, t = (fd mod n)%nat /\ live s k fd
  | On_reclaim i => t = i /\ lp_pc l = H_next /\ sm_pc s = M_wait i
      /\ sm_reclaim_notify_flag s !! i = Some false /\ let_go s l
  end.

Record loop_ok (s : manager) (t : nat) (l : Loop) : Prop := {
  lo_events : forall fd h, lp_events l !! fd = Some h -> event_ok s t l fd h;
  lo_actives : forall h, h ∈ lp_actives l -> active_ok s t l h;
  lo_nodup : NoDup (lp_actives l);
  lo_pc : forall i, lp_pc l = H_remove i \/ lp_pc l = H_notify i -> t = i
}.

Definition round (s : manager) : option nat :=
  match sm_pc s with M_schedule c | M_wait c | M_release c _ => Some c | _ => None end.

Record manager_ok (s : manager) : Prop := {
  mo_loops : length (sm_loops s) = n;
  mo_flags : length (sm_reclaim_notify_flag s) = n;
  mo_loop : forall t l, sm_loops s !! t = Some l -> loop_ok s t l;
  mo_reclaim : forall k, k ∈ sm_reclaim_list s -> (k < length (sm_sockets s))%nat;
  mo_round : forall c, round s = Some c -> (c < n)%nat;
  mo_schedule : forall c, sm_pc s = M_schedule c -> sm_reclaim_notify_flag s !! c = Some false;
  mo_notified : forall c l, round s = Some c -> sm_reclaim_notify_flag s !! c = Some true ->
    sm_loops s !! c = Some l -> let_go s l;
  mo_release : forall c j, sm_pc s = M_release c j -> sm_reclaim_notify_flag s !! c = Some true;
  mo_crashed : sm_crashed s = false
}.

Lemma init_ok : manager_ok (manager_init n).
Proof.
  split; cbn; try done; try (by rewrite length_replicate).
  - intros t l Hl. apply lookup_replicate in Hl as [-> _]. split; cbn; try done.
    + intros h Hh. by apply not_elem_of_nil in Hh.
    + constructor.
    + by intros i [?|?].
  - intros k Hk. by apply not_elem_of_nil in Hk.
Qed.

Lemma thread_of_reclaim i : (i < n)%nat -> thread_of n reclaim_fd (Z.of_nat i) = i.
Proof.
  intros Hi. unfold thread_of. destruct (Z.ltb_spec 0 (Z.of_nat i)).
  - rewrite Nat2Z.id. by apply Nat.mod_small.
  - rewrite reclaim_fd_first. lia.
Qed.

(** What [loop_ok] depends on *)
Lemma loop_ok_mono s s' t l :
  loop_ok s t l ->
  (forall k fd, live s k fd -> live s' k fd) ->
  (forall k, k ∈ sm_reclaim_list s' -> k ∈ sm_reclaim_list s) ->
  (sm_pc s = M_wait t -> sm_reclaim_notify_flag s !! t = Some false ->
     sm_pc s' = M_wait t /\ sm_reclaim_notify_flag s' !! t = Some false) ->
  loop_ok s' t l.
Proof.
  intros [He Ha Hnd Hpc] Hlive Hrec Hw. split; [| |done|done].
  - intros fd [k|i] Hfd; pose proof (He _ _ Hfd) as Hok; cbn in *.
    + destruct Hok as (? & ? & Hn). split_and!; eauto.
    + destruct Hok as (-> & -> & [?|[H1 H2]]); auto.
  - intros [k|i] Hh; pose proof (Ha _ Hh) as Hok; cbn in *.
    + destruct Hok as (fd & ? & ?). eauto.
    + destruct Hok as (-> & ? & H1 & H2 & Hlet). destruct (Hw H1 H2) as [H3 H4].
      split_and!; try done. intros k Hk Hin. by apply (Hlet k Hk), Hrec.
Qed.

(** A loop is replaced, and nothing else. *)
Lemma replace_loop s t l l' :
  manager_ok s -> sm_loops s !! t = Some l -> loop_ok s t l' ->
  (round s = Some t -> sm_reclaim_notify_flag s !! t = Some true -> let_go s l') ->
  manager_ok (set_loops (<[t := l']> (sm_loops s)) s).
Proof.
  intros [] Hl Hl' Hlet. split; cbn; try done.
  - by rewrite length_insert.
  - intros t0 l0 H0. destruct (decide (t = t0)) as [<-|Hne].
    + rewrite list_lookup_insert_eq in H0 by (by eapply lookup_lt_Some). simplify_eq.
      eapply loop_ok_mono; [exact Hl'|done|done|done].
    + rewrite list_lookup_insert_ne in H0 by done. eapply loop_ok_mono; [by apply mo_loop0|done|done|done].
  - intros c l0 Hc Hf H0. destruct (decide (t = c)) as [<-|Hne].
    + rewrite list_lookup_insert_eq in H0 by (by eapply lookup_lt_Some). simplify_eq. by apply Hlet.
    + rewrite list_lookup_insert_ne in H0 by done. by apply (mo_notified0 c l0).
Qed.

Lemma wait_ok t fds s s' : manager_ok s -> wait_step t fds s = Some s' -> manager_ok s'.
Proof.
  intros Hok Hstep. unfold wait_step in Hstep. destruct (sm_loops s !! t) as [[ev [|] []]|] eqn:Hl; try done.
  destruct (_ && _) eqn:Ec in Hstep; [|done]. simplify_eq. breflect.
  match goal with H : bool_decide (NoDup fds) = true |- _ => apply bool_decide_eq_true in H as Hnd end.
  pose proof (mo_loop _ Hok _ _ Hl) as [He _ _ _]. cbn in He.
  assert (forall h, h ∈ omap (fun fd => ev !! fd) fds -> exists fd, ev !! fd = Some h) as Hin.
  { intros h (fd & _ & ?)%list_elem_of_omap. by exists fd. }
  assert (let_go s (mk_Loop ev (omap (fun fd => ev !! fd) fds) H_next)) as Hlet.
  { intros k (fd & Hfd)%Hin. by destruct (He _ _ Hfd) as (_ & _ & ?). }
  eapply replace_loop; [done|done| |done]. split; cbn.
  - intros fd h Hfd. exact (He _ _ Hfd).
  - intros [k|i] (fd & Hfd)%Hin; pose proof (He _ _ Hfd) as Hev; cbn in Hev.
    + destruct Hev as (? & ? & _). by exists fd.
    + destruct Hev as (-> & -> & [?|[? ?]]); [done|]. by split_and!.
  - clear -Hnd He. induction Hnd as [|fd fds Hni Hnd IH]; cbn; [constructor|].
    destruct (ev !! fd) as [h|] eqn:Eh; [|done]. constructor; [|done].
    intros (fd' & Hfd' & Eh')%list_elem_of_omap. assert (fd = fd') as ->; [|done].
    pose proof (He _ _ Eh) as H1. pose proof (He _ _ Eh') as H2. destruct h as [k|i]; cbn in *.
    + destruct H1 as (_ & (w & Hw & <- & _) & _), H2 as (_ & (w' & Hw' & <- & _) & _). congruence.
    + destruct H1 as (-> & _), H2 as (-> & _). done.
  - by intros i [?|?].
Qed.

(** The first of the events is handled. *)
Lemma read_handled t s l k rest :
  manager_ok s -> sm_loops s !! t = Some l -> lp_pc l = H_next -> lp_actives l = On_read k :: rest ->
  manager_ok (set_loops (<[t := mk_Loop (lp_events l) rest H_next]> (sm_loops s)) s).
Proof.
  intros Hok Hl Hpc Hact. pose proof (mo_loop _ Hok _ _ Hl) as [He Ha Hnd _].
  assert (forall h, h ∈ rest -> h ∈ lp_actives l) as Hsub by (intros h Hh; rewrite Hact; by right).
  eapply replace_loop; [done|done| |].
  - split; cbn.
    + intros fd h Hfd. specialize (He _ _ Hfd). destruct h; [done|]. cbn in *. by rewrite Hpc in He.
    + intros h Hh. specialize (Ha _ (Hsub _ Hh)). destruct h; [done|]. cbn in *.
      destruct Ha as (? & ? & ? & ? & Hlet). split_and!; try done. intros k' Hk'. by apply Hlet, Hsub.
    + rewrite Hact in Hnd. by apply list.NoDup_cons in Hnd as [_ ?].
    + by intros i [?|?].
  - intros Hr Hf k' Hk'. by apply (mo_notified _ Hok t l Hr Hf Hl), Hsub.
Qed.

Lemma reclaim_handled t s l i rest :
  manager_ok s -> sm_loops s !! t = Some l -> lp_pc l = H_next -> lp_actives l = On_reclaim i :: rest ->
  manager_ok (set_flags (<[i := true]> (sm_reclaim_notify_flag s))
                (set_loops (<[t := mk_Loop (lp_events l) rest (H_remove i)]> (sm_loops s)) s)).
Proof.
  intros Hok Hl Hpc Hact. pose proof (mo_loop _ Hok _ _ Hl) as [He Ha Hnd _].
  destruct (Ha (On_reclaim i)) as (-> & _ & Hwait & Hflag & Hlet); [rewrite Hact; by left|].
  assert (forall h, h ∈ rest -> h ∈ lp_actives l) as Hsub by (intros h Hh; rewrite Hact; by right).
  assert (let_go s (mk_Loop (lp_events l) rest (H_remove i))) as Hlet' by (intros k Hk; by apply Hlet, Hsub).
  assert (i < length (sm_loops s))%nat as Hi by (by eapply lookup_lt_Some).
  destruct Hok. split; unfold round in *; cbn; rewrite ?Hwait in *; try done.
  - by rewrite length_insert.
  - by rewrite length_insert.
  - intros t0 l0 H0. destruct (decide (i = t0)) as [<-|Hne].
    + rewrite list_lookup_insert_eq in H0 by done. simplify_eq. split; cbn.
      * intros fd [k|j] Hfd; specialize (He _ _ Hfd); cbn in *; [done|]. destruct He as (-> & <- & _). by split_and!; [..|left].
      * intros [k|j] Hh; pose proof (Ha _ (Hsub _ Hh)) as Hok; cbn in *; [done|].
        destruct Hok as (<- & _). rewrite Hact in Hnd. by apply list.NoDup_cons in Hnd as [? _].
      * rewrite Hact in Hnd. by apply list.NoDup_cons in Hnd as [_ ?].
      * intros j [[= ->]|?]; done.
    + rewrite list_lookup_insert_ne in H0 by done. eapply loop_ok_mono; [by apply mo_loop0|done|done|]. cbn.
      rewrite Hwait. intros [= ->]. done.
  - intros c l0 [= <-] _ H0. rewrite list_lookup_insert_eq in H0 by done. by simplify_eq.
Qed.

Lemma remove_handled s l i :
  manager_ok s -> sm_loops s !! i = Some l -> lp_pc l = H_remove i ->
  manager_ok (set_loops (<[i := mk_Loop (delete reclaim_fd (lp_events l)) (lp_actives l) (H_notify i)]> (sm_loops s)) s).
Proof.
  intros Hok Hl Hpc. pose proof (mo_loop _ Hok _ _ Hl) as [He Ha Hnd _]. eapply replace_loop; [done|done| |].
  - split; cbn; [| |done|].
    + intros fd h [Hne Hfd]%lookup_delete_Some. specialize (He _ _ Hfd). destruct h; [done|]. cbn in *. by destruct He as (-> & _).
    + intros h Hh. specialize (Ha _ Hh). destruct h; [done|]. cbn in *. destruct Ha as (_ & ? & _). congruence.
    + intros j [?|[= ->]]; done.
  - intros Hr Hf k Hk. by apply (mo_notified _ Hok i l Hr Hf Hl).
Qed.

Lemma loop_run_ok t s s' : manager_ok s -> loop_run reclaim_fd t s = Some s' -> manager_ok s'.
Proof.
  intros Hok Hstep. unfold loop_run in Hstep. destruct (sm_loops s !! t) as [l|] eqn:Hl; [|done].
  pose proof (mo_loop _ Hok _ _ Hl) as Hlo. destruct (lp_pc l) as [|i|i] eqn:Hpc.
  - destruct (lp_actives l) as [|[k|i] rest] eqn:Hact; [done| |].
    + destruct (lo_actives _ _ _ Hlo (On_read k)) as (fd & _ & w & Hw & _ & Hon); [rewrite Hact; by left|].
      rewrite Hw, Hon in Hstep. simplify_eq. by eapply read_handled.
    + simplify_eq. by apply reclaim_handled.
  - assert (t = i) as -> by (apply (lo_pc _ _ _ Hlo); by left).
    assert (i < n)%nat as Hi by (rewrite <- (mo_loops _ Hok); by eapply lookup_lt_Some).
    unfold removeSchedule, scheduleThreadSize in Hstep. rewrite (mo_loops _ Hok), thread_of_reclaim, Hl in Hstep by done.
    cbn in Hstep. rewrite list_lookup_insert_eq in Hstep by (by eapply lookup_lt_Some).
    rewrite list_insert_insert_eq in Hstep. injection Hstep as <-. exact (remove_handled s l i Hok Hl Hpc).
  - simplify_eq. destruct Hlo as [He Ha Hnd Hp]. eapply replace_loop; [done|done| |].
    + split; cbn; [| |done|by intros j [?|?]].
      * intros fd h Hfd. specialize (He _ _ Hfd). destruct h; [done|]. cbn in *. rewrite Hpc in He.
        destruct He as (-> & -> & [?|?]); [done|]. by split_and!; [..|right].
      * intros h Hh. specialize (Ha _ Hh). destruct h; [done|]. cbn in *. destruct Ha as (_ & ? & _). congruence.
    + intros Hr Hf k Hk. by apply (mo_notified _ Hok t l Hr Hf Hl).
Qed.

(** Sockets are added, or change in other fields than those the loops rely on. *)
Lemma sockets_changed s l :
  manager_ok s -> (forall k fd, live s k fd -> live (set_sockets l s) k fd) ->
  (length (sm_sockets s) <= length l)%nat -> manager_ok (set_sockets l s).
Proof.
  intros [] Hlive Hlen. split; try done; cbn.
  - intros t l0 H0. eapply loop_ok_mono; [by apply mo_loop0|done|done|done].
  - intros k Hk. specialize (mo_reclaim0 k Hk). lia.
Qed.

Lemma live_insert s k w w' : sm_sockets s !! k = Some w -> w_fd w' = w_fd w -> w_on_read w' = w_on_read w ->
  forall k' fd, live s k' fd -> live (set_sockets (<[k := w']> (sm_sockets s)) s) k' fd.
Proof.
  intros Hk Hfd Hon k' fd (w0 & Hw & <- & H0). unfold live. cbn. destruct (decide (k = k')) as [<-|Hne].
  - rewrite list_lookup_insert_eq by (by eapply lookup_lt_Some). simplify_eq. exists w'. split_and!; congruence.
  - rewrite list_lookup_insert_ne by done. eauto.
Qed.

Lemma socket_updated s k w w' :
  manager_ok s -> sm_sockets s !! k = Some w -> w_fd w' = w_fd w -> w_on_read w' = w_on_read w ->
  manager_ok (set_sockets (<[k := w']> (sm_sockets s)) s).
Proof. intros Hok Hk Hfd Hon. apply sockets_changed; [done|by eapply live_insert|by rewrite length_insert]. Qed.

Lemma list_changed s l : manager_ok s -> manager_ok (set_list l s).
Proof. intros []. split; try done; cbn. intros t l0 H0. eapply loop_ok_mono; [by apply mo_loop0|done|done|done]. Qed.

(** The manager moves on between rounds. *)
Lemma pc_changed s pc :
  manager_ok s -> (forall c, sm_pc s <> M_wait c) -> round (set_pc pc s) = None -> manager_ok (set_pc pc s).
Proof.
  intros [] Hnw Hr. split; try done; cbn.
  - intros t l0 H0. eapply loop_ok_mono; [by apply mo_loop0|done|done|]. intros Hw. by destruct (Hnw t).
  - intros c Hc. by rewrite Hr in Hc.
  - intros c ->. done.
  - intros c l0 Hc. by rewrite Hr in Hc.
  - intros c j ->. done.
Qed.

Lemma connect_ok fd s s' : manager_ok s -> connect_step reclaim_fd fd s = Some s' -> manager_ok s'.
Proof.
  intros Hok Hstep. unfold connect_step, addSchedule, scheduleThreadSize in Hstep. case_bool_decide as Hne; [done|].
  rewrite (mo_loops _ Hok) in Hstep. change (thread_of n fd (-1)) with (fd mod n)%nat in Hstep.
  destruct (sm_loops s !! (fd mod n)%nat) as [l|] eqn:Hl; [|done]. unfold add_event in Hstep.
  destruct (lp_events l !! fd) eqn:Efd; [done|]. simplify_eq. cbn.
  set (w := mk_watched fd EXCLUSIVE true false true). set (k := length (sm_sockets s)).
  assert (manager_ok (set_sockets (sm_sockets s ++ [w]) s)) as Hok'.
  { apply sockets_changed; [done| |rewrite length_app; lia]. intros k' fd' (w0 & Hw & ? & ?). exists w0.
    split_and!; try done. cbn. by apply lookup_app_l_Some. }
  pose proof (mo_loop _ Hok' _ _ Hl) as [He Ha Hnd Hpc].
  apply (replace_loop (set_sockets (sm_sockets s ++ [w]) s) (fd mod n)%nat l _ Hok' Hl).
  - split; cbn; [| |done|done].
    + intros fd' h [[<- <-]|[Hne' Hfd']]%lookup_insert_Some; [|exact (He _ _ Hfd')]. cbn. split_and!; [done| |].
      * exists w. split_and!; try done. cbn. by apply list_lookup_middle.
      * intros Hk. apply (mo_reclaim _ Hok) in Hk. unfold k in Hk. lia.
    + intros h Hh. specialize (Ha _ Hh). by destruct h.
  - intros Hr Hf k' Hk'. by apply (mo_notified _ Hok' _ l Hr Hf Hl).
Qed.

Lemma watch_ok k s s' : manager_ok s -> watch_step k s = Some s' -> manager_ok s'.
Proof.
  intros Hok Hstep. unfold watch_step in Hstep.
  destruct (sm_sockets s !! k) as [[fd sh on [] owned]|] eqn:Hk; destruct (sm_pc s); try done; simplify_eq;
    apply list_changed; by eapply socket_updated.
Qed.

Lemma release_ok k s s' : manager_ok s -> release_step k s = Some s' -> manager_ok s'.
Proof.
  intros Hok Hstep. unfold release_step in Hstep. destruct (sm_sockets s !! k) as [[fd sh on [] []]|] eqn:Hk; try done.
  simplify_eq. by eapply socket_updated.
Qed.

(** A socket goes from the watched ones to those to be reclaimed. *)
Lemma disconnect_ok s j k w :
  manager_ok s -> sm_pc s = M_disconnect j k -> sm_sockets s !! k = Some w ->
  let s1 := removeSchedule (w_fd w) (-1) s in
  manager_ok (set_pc (M_collect j) (set_reclaim_list (sm_reclaim_list s1 ++ [k]) (set_list (delete j (sm_list s1)) s1))).
Proof.
  intros Hok Hpc Hk s1. set (t := (w_fd w mod n)%nat).
  assert (exists l, sm_loops s !! t = Some l) as [l Hl].
  { apply lookup_lt_is_Some_2. rewrite (mo_loops _ Hok). unfold t. apply Nat.mod_upper_bound. lia. }
  assert (s1 = set_loops (<[t := remove_event (w_fd w) l]> (sm_loops s)) s) as ->.
  { unfold s1, removeSchedule, scheduleThreadSize. rewrite (mo_loops _ Hok). change (thread_of n (w_fd w) (-1)) with t. by rewrite Hl. }
  destruct Hok. split; cbn; try done.
  - by rewrite length_insert.
  - intros t0 l0 H0.
    assert (exists l1, sm_loops s !! t0 = Some l1 /\ lp_actives l0 = lp_actives l1 /\ lp_pc l0 = lp_pc l1
      /\ forall fd h, lp_events l0 !! fd = Some h -> lp_events l1 !! fd = Some h /\ ~ (t0 = t /\ fd = w_fd w)) as (l1 & H1 & Hact & Hp & Hev).
    { destruct (decide (t = t0)) as [<-|Hne].
      - rewrite list_lookup_insert_eq in H0 by (by eapply lookup_lt_Some). simplify_eq. exists l. split_and!; try done. cbn.
        intros fd h [? ?]%lookup_delete_Some. split; [done|]. by intros [_ ?].
      - rewrite list_lookup_insert_ne in H0 by done. exists l0. split_and!; try done. intros fd h ?. split; [done|]. by intros [? _]. }
    destruct (mo_loop0 _ _ H1) as [He Ha Hnd Hlp]. split; rewrite ?Hact, ?Hp; try done.
    + intros fd h (Hfd & Hnot)%Hev. specialize (He _ _ Hfd). destruct h as [k'|i]; cbn in *.
      * destruct He as (-> & Hlive & Hni). split_and!; [done|done|]. rewrite elem_of_app, list_elem_of_singleton.
        intros [?| ->]; [done|]. destruct Hlive as (w' & Hw' & <- & _). simplify_eq. by apply Hnot.
      * destruct He as (-> & -> & [Hr|[? _]]); [|congruence]. rewrite Hp. by split_and!; [..|left].
    + intros h Hh. specialize (Ha _ Hh). destruct h; [done|]. cbn in *. destruct Ha as (_ & _ & ? & _). congruence.
  - intros k' [?| ->%list_elem_of_singleton]%elem_of_app; [auto|]. by eapply lookup_lt_Some.
Qed.

(** The handler of a socket that the loops have let go of is dropped. *)
Lemma drop_handler_ok s c j k w :
  manager_ok s -> sm_pc s = M_release c j -> sm_reclaim_list s !! j = Some k -> sm_sockets s !! k = Some w ->
  (w_fd w mod n)%nat = c ->
  manager_ok (set_reclaim_list (delete j (sm_reclaim_list s))
    (set_sockets (<[k := mk_watched (w_fd w) (w_sharers w) false (w_added w) (w_owned w)]> (sm_sockets s)) s)).
Proof.
  intros Hok Hpc Hj Hk Hc. set (w' := mk_watched _ _ false _ _). set (s' := set_reclaim_list _ _).
  assert (k ∈ sm_reclaim_list s) as Hin by (by eapply list_elem_of_lookup_2).
  assert (forall k', k' ∈ delete j (sm_reclaim_list s) -> k' ∈ sm_reclaim_list s) as Hsub.
  { intros k' (i & Hi)%list_elem_of_lookup. destruct (decide (i < j)%nat).
    - rewrite list_lookup_delete_lt in Hi by done. by eapply list_elem_of_lookup_2.
    - rewrite list_lookup_delete_ge in Hi by lia. by eapply list_elem_of_lookup_2. }
  assert (forall k' fd, k' <> k -> live s k' fd -> live s' k' fd) as Hlive.
  { intros k' fd Hne (w0 & Hw & ? & ?). exists w0. split_and!; try done. cbn. by rewrite list_lookup_insert_ne. }
  pose proof (mo_release _ Hok _ _ Hpc) as Hflag.
  assert (forall l, sm_loops s !! c = Some l -> let_go s l) as Hlet.
  { intros l Hl. eapply (mo_notified _ Hok); [unfold round; by rewrite Hpc|done|done]. }
  destruct Hok. unfold s'. split; cbn; try done.
  - intros t l Hl. destruct (mo_loop0 _ _ Hl) as [He Ha Hnd Hlp]. split; try done.
    + intros fd [k'|i] Hfd; specialize (He _ _ Hfd); cbn in *; [|done]. destruct He as (? & ? & Hni).
      split_and!; [done| |by intros ?%Hsub]. apply Hlive; [|done]. by intros ->.
    + intros [k'|i] Hh; specialize (Ha _ Hh); cbn in *; [|destruct Ha as (_ & _ & ? & _); congruence].
      destruct Ha as (fd & Ht & Hl'). exists fd. split; [done|]. apply Hlive; [|done]. intros ->.
      destruct Hl' as (w0 & Hw0 & <- & _). simplify_eq. by apply (Hlet l Hl k).
  - intros k' Hk'. rewrite length_insert. auto.
  - intros c' l Hr Hf Hl k' Hk' Hin'. unfold round in Hr. cbn in Hr. rewrite Hpc in Hr. simplify_eq.
    by apply (Hlet l Hl k' Hk'), Hsub.
Qed.

(** A round begins. *)
Lemma begin_round_ok s c counter :
  manager_ok s -> sm_pc s = M_reclaim -> (c < n)%nat ->
  manager_ok (set_pc (M_schedule c) (set_flags (<[c := false]> (sm_reclaim_notify_flag s)) (set_counter counter s))).
Proof.
  intros [] Hpc Hc.
  assert (<[c := false]> (sm_reclaim_notify_flag s) !! c = Some false) as Hf by (apply list_lookup_insert_eq; lia).
  split; unfold round; cbn; try done.
  - by rewrite length_insert.
  - intros t l Hl. eapply loop_ok_mono; [by apply mo_loop0|done|done|]. by rewrite Hpc.
  - by intros c' [= <-].
  - by intros c' [= <-].
  - intros c' l [= <-]. by rewrite Hf.
Qed.

Lemma schedule_ok s c :
  manager_ok s -> sm_pc s = M_schedule c ->
  manager_ok (set_pc (M_wait c) (snd (addSchedule reclaim_fd (On_reclaim c) (Z.of_nat c) s))).
Proof.
  intros Hok Hpc. assert (round s = Some c) as Hr by (unfold round; by rewrite Hpc).
  pose proof (mo_round _ Hok _ Hr) as Hc. pose proof (mo_schedule _ Hok _ Hpc) as Hf.
  assert (manager_ok (set_pc (M_wait c) s)) as Hok'.
  { destruct Hok. split; unfold round; cbn; try done.
    - intros t l Hl. eapply loop_ok_mono; [by apply mo_loop0|done|done|]. by rewrite Hpc.
    - by intros c' [= <-].
    - intros c' l [= <-]. by rewrite Hf. }
  unfold addSchedule, scheduleThreadSize. rewrite (mo_loops _ Hok), thread_of_reclaim by done.
  destruct (sm_loops s !! c) as [l|] eqn:Hl; [|done]. unfold add_event.
  destruct (lp_events l !! reclaim_fd) eqn:Ee; cbn.
  - exact (replace_loop (set_pc (M_wait c) s) c l l Hok' Hl (mo_loop _ Hok' _ _ Hl) (fun H1 H2 => mo_notified _ Hok' _ _ H1 H2 Hl)).
  - pose proof (mo_loop _ Hok' _ _ Hl) as [He Ha Hnd Hlp].
    apply (replace_loop (set_pc (M_wait c) s) c l _ Hok' Hl).
    + split; cbn; [| |done|done].
      * intros fd h [[<- <-]|[_ Hfd]]%lookup_insert_Some; [|exact (He _ _ Hfd)]. cbn. by split_and!; [..|right].
      * intros h Hh. specialize (Ha _ Hh). by destruct h.
    + intros _ Hf'. cbn in Hf'. congruence.
Qed.

Lemma manager_step_ok s s' : manager_ok s -> manager_step reclaim_fd false s = Some s' -> manager_ok s'.
Proof.
  intros Hok Hstep. unfold manager_step in Hstep. destruct (sm_pc s) as [|j|j k| |c|c|c j] eqn:Hpc.
  - simplify_eq. apply pc_changed; [done|by rewrite Hpc|done].
  - destruct (sm_list s !! j) as [k|]; [|simplify_eq; apply pc_changed; [done|by rewrite Hpc|done]].
    destruct (sm_sockets s !! k) as [w|] eqn:Hk; [|done]. destruct (socket_tryExclusive _) as [ok sh]. simplify_eq.
    apply pc_changed; [|cbn; by rewrite Hpc|by destruct ok]. by eapply socket_updated.
  - destruct (sm_sockets s !! k) as [w|] eqn:Hk; [|done]. simplify_eq. by apply disconnect_ok.
  - destruct (sm_reclaim_list s) eqn:Er; [simplify_eq; apply pc_changed; [done|by rewrite Hpc|done]|].
    unfold scheduleThreadSize in Hstep. rewrite (mo_loops _ Hok) in Hstep. rewrite (proj2 (Nat.eqb_neq n 0)) in Hstep by lia.
    simplify_eq. apply begin_round_ok; [done|done|].
    pose proof (Z.mod_pos_bound (sm_reclaim_counter s) (Z.of_nat n) ltac:(lia)). lia.
  - simplify_eq. by apply schedule_ok.
  - destruct (sm_reclaim_notify_flag s !! c) as [[]|] eqn:Hf; simplify_eq. destruct Hok.
    assert (round s = Some c) as Hr by (unfold round; by rewrite Hpc). split; unfold round; cbn; try done.
    + intros t l Hl. eapply loop_ok_mono; [by apply mo_loop0|done|done|]. rewrite Hpc. intros [= ->]. congruence.
    + intros c' [= <-]. by apply mo_round0.
    + intros c' l [= <-] Hf' Hl. by apply (mo_notified0 c l).
    + by intros c' j [= <- <-].
  - destruct (sm_reclaim_list s !! j) as [k|] eqn:Hj; [|simplify_eq; apply pc_changed; [done|by rewrite Hpc|done]].
    destruct (sm_sockets s !! k) as [w|] eqn:Hk; [|done]. unfold scheduleThreadSize in Hstep.
    rewrite (mo_loops _ Hok) in Hstep. case_bool_decide as Hm; simplify_eq.
    + by eapply drop_handler_ok.
    + destruct Hok. assert (round s = Some c) as Hr by (unfold round; by rewrite Hpc). split; unfold round; cbn; try done.
      * intros t l Hl. eapply loop_ok_mono; [by apply mo_loop0|done|done|]. by rewrite Hpc.
      * intros c' [= <-]. by apply mo_round0.
      * intros c' l [= <-] Hf' Hl. by apply (mo_notified0 c l).
      * intros c' j' [= <- <-]. by eapply mo_release0.
Qed.

Lemma system_ok s s' : manager_ok s -> system_step reclaim_fd false s s' -> manager_ok s'.
Proof.
  intros Hok Hstep. revert Hok. destruct Hstep; intros Hok; [by eapply wait_ok|by eapply loop_run_ok|by eapply connect_ok|by eapply watch_ok|by eapply release_ok|].
  destruct b; [|by eapply manager_step_ok]. match goal with H : true = true -> _ |- _ => by specialize (H eq_refl) end.
Qed.
End Safety.

(** C12: sockets are reclaimed safely. When the reclaiming descriptor belongs
    to the first loop thread and every wait of the manager ends with the
    notification, no loop thread ever calls the handler of a socket after the
    manager has dropped it, however the loop threads, the channels and the
    manager are interleaved: the events a loop still has to handle are never
    for such a socket, and neither are its registered descriptors. *)
Theorem reclaim_safe (reclaim_fd n : nat) (s : manager) :
  (0 < n)%nat -> (reclaim_fd mod n = 0)%nat ->
  rtc (system_step reclaim_fd false) (manager_init n) s ->
  sm_crashed s = false
  /\ (forall t l k w, sm_loops s !! t = Some l -> sm_sockets s !! k = Some w -> w_on_read w = false ->
        (On_read k ∉ lp_actives l) /\ (forall fd, lp_events l !! fd <> Some (On_read k))).
Proof.
  intros Hn Hfd Hrun. assert (manager_ok reclaim_fd n s) as Hok.
  { revert s Hrun. apply rtc_ind_r; [by apply init_ok|]. intros s1 s2 _ Hstep Hok. by eapply system_ok. }
  split; [by apply Hok|]. intros t l k w Hl Hk Hoff. destruct (mo_loop _ _ _ Hok _ _ Hl) as [He Ha _ _]. split.
  - intros Hin. destruct (Ha _ Hin) as (fd & _ & w' & Hw' & _ & Hon). congruence.
  - intros fd Hev. destruct (He _ _ Hev) as (_ & (w' & Hw' & _ & Hon) & _). congruence.
Qed.

(** ** Runs *)

Inductive action : Set :=
| Do_wait (t : nat) (fds : list nat)
| Do_handler (t : nat)
| Do_connect (fd : nat)
| Do_watch (k : nat)
| Do_release (k : nat)
| Do_manager (timed_out : bool).

Definition do_action (reclaim_fd : nat) (a : action) (s : manager) : option manager :=
  match a with
  | Do_wait t fds => wait_step t fds s
  | Do_handler t => loop_run reclaim_fd t s
  | Do_connect fd => connect_step reclaim_fd fd s
  | Do_watch k => watch_step k s
  | Do_release k => release_step k s
  | Do_manager b => manager_step reclaim_fd b s
  end.

Fixpoint do_actions (reclaim_fd : nat) (l : list action) (s : manager) : option manager :=
  match l with
  | [] => Some s
  | a :: l => match do_action reclaim_fd a s with Some s => do_actions reclaim_fd l s | None => None end
  end.

Definition may_time_out (a : action) : bool := match a with Do_manager true => true | _ => false end.

Lemma do_actions_run reclaim_fd timeouts l : forall s s',
  (existsb may_time_out l = true -> timeouts = true) ->
  do_actions reclaim_fd l s = Some s' -> rtc (system_step reclaim_fd timeouts) s s'.
Proof.
  induction l as [|a l IH]; intros s s' Ht Hrun; cbn in *; [simplify_eq; constructor|].
  destruct (do_action reclaim_fd a s) as [s1|] eqn:Ea; [|done].
  eapply rtc_l; [|apply IH; [intros H; apply Ht; rewrite H; apply orb_true_r|exact Hrun]].
  destruct a; cbn in Ea; [by eapply by_wait|by eapply by_handler|by eapply by_connect|by eapply by_watch|by eapply by_release|].
  eapply by_manager; [|exact Ea]. intros ->. by apply Ht.
Qed.

(** The manager's thread from the start of [watchConnections] to its wait, with
    one socket to be reclaimed *)
Definition to_the_wait : list action := replicate 6 (Do_manager false).

(** A socket is connected, used, surrendered and reclaimed. *)
Definition reclaim_run : list action :=
  [Do_connect 7; Do_watch 0; Do_wait 1 [7%nat]; Do_handler 1; Do_release 0] ++ to_the_wait
  ++ [Do_wait 0 [4%nat]; Do_handler 0; Do_manager false; Do_manager false; Do_manager false; Do_handler 0; Do_handler 0]
  ++ [Do_manager false; Do_manager false; Do_manager false; Do_manager false; Do_wait 1 [4%nat]; Do_handler 1; Do_manager false; Do_manager false].

Definition reclaimed : manager := default (manager_init 2) (do_actions 4 reclaim_run (manager_init 2)).

Lemma reclaim_safe_witness :
  w_on_read <$> sm_sockets reclaimed = [false] /\ sm_crashed reclaimed = false.
Proof.
  split; [vm_compute; reflexivity|]. apply (reclaim_safe 4 2 reclaimed).
  - lia.
  - reflexivity.
  - apply (do_actions_run _ _ reclaim_run); [discriminate|vm_compute; reflexivity].
Defined.

(** The index 0 is taken for no index: the notification of the first thread is
    scheduled with the thread of the reclaiming descriptor. With two threads and
    an odd descriptor the second thread notifies the manager while the first
    one still has to handle an event of the socket, whose handler is dropped. *)
Definition wrong_thread_run : list action :=
  [Do_connect 6; Do_watch 0; Do_wait 0 [6%nat]; Do_release 0] ++ to_the_wait
  ++ [Do_wait 1 [5%nat]; Do_handler 1; Do_manager false; Do_manager false; Do_handler 0].

Theorem reclaim_wrong_thread :
  exists s, rtc (system_step 5 false) (manager_init 2) s /\ sm_crashed s = true.
Proof.
  exists (default (manager_init 2) (do_actions 5 wrong_thread_run (manager_init 2))). split; [|vm_compute; reflexivity].
  apply (do_actions_run _ _ wrong_thread_run); [discriminate|vm_compute; reflexivity].
Qed.

(** A wait that times out leaves its notification registered. It can be among
    the events the thread is handling when the next socket is disconnected, is
    taken for the notification of the next round, and the handler of that
    socket is dropped while an event for it is still to be handled. One thread
    is enough. *)
Definition stale_run : list action :=
  [Do_connect 6; Do_watch 0; Do_connect 7; Do_watch 1; Do_release 0]
  ++ replicate 7 (Do_manager false) ++ [Do_manager true]
  ++ [Do_wait 0 [5%nat; 7%nat]; Do_release 1]
  ++ to_the_wait ++ [Do_handler 0; Do_manager false; Do_manager false; Do_manager false; Do_handler 0; Do_handler 0; Do_handler 0].

Theorem reclaim_stale_notification :
  exists s, rtc (system_step 5 true) (manager_init 1) s /\ sm_crashed s = true.
Proof.
  exists (default (manager_init 1) (do_actions 5 stale_run (manager_init 1))). split; [|vm_compute; reflexivity].
  apply (do_actions_run _ _ stale_run); [done|vm_compute; reflexivity].
Qed.
