(* ===== verification/Channel.v ===== *)
(** * Channels (src/channel/channel.cpp, include/channel/channel.h)

    A [Channel] owns the socket it has connected and gives it to the sessions.
    [Connection]: [getSocketInternal] and [tryConnect], one step per access to
    what the threads of a channel share; the life-cycle lock is the one of
    LifeCycleLock, whose mutual exclusion carries over because every thread
    here uses it as the threads there do. [Pool]: the pooled connection type,
    [getSubSocketInternal], which spreads the threads over sub-channels.
    [Owned]: [init], the sockets of short connections and the destructor. *)

From stdpp Require Import relations.
From S2P Require Import Prelude CommonDefines LifeCycleLock.

Module Connection.

(** A socket of the channel: whether the channel owns it exclusively (it is
    [tryExclusive] when created), and whether it is [active()] *)
Record held_socket := mk_held_socket { so_owned : bool; so_active : bool }.

(** Where a thread is in [getSocketInternal]; [P_idle] carries the answer of
    the last call *)
Inductive get_pc : Set :=
| P_idle (answer : option nat)
| P_untry
| P_read
| P_leave (k : nat)
| P_upgrade
| P_leave_busy
| P_leave_upgraded
| P_exclusive
| P_surrender
| P_connect
| P_finish (answer : option nat).

#[global] Instance get_pc_eq_dec : EqDecision get_pc.
Proof. solve_decision. Defined.

(** [class Channel]: the lock, [_socket], [_status], every socket it has
    created, and the threads; [ch_twice]: a socket was surrendered twice *)
Record channel := mk_channel {
  ch_lock : Z;
  ch_socket : option nat;
  ch_status : ERpcStatus;
  ch_sockets : list held_socket;
  ch_threads : list get_pc;
  ch_twice : bool
}.

Definition goto (i : nat) (p : get_pc) (s : channel) : channel :=
  mk_channel (ch_lock s) (ch_socket s) (ch_status s) (ch_sockets s) (<[i := p]> (ch_threads s)) (ch_twice s).
Definition set_lock (w : Z) (s : channel) : channel :=
  mk_channel w (ch_socket s) (ch_status s) (ch_sockets s) (ch_threads s) (ch_twice s).

(** [_socket->releaseExclusive()] *)
Definition surrender (k : nat) (s : channel) : channel :=
  match ch_sockets s !! k with
  | None => s
  | Some so =>
      mk_channel (ch_lock s) (ch_socket s) (ch_status s)
        (<[k := mk_held_socket false (so_active so)]> (ch_sockets s)) (ch_threads s) (ch_twice s || negb (so_owned so))
  end.

(** [tryConnect(_socket)]: the new socket replaces the old pointer; when it does
    not connect it is surrendered and the pointer is reset. *)
Definition tryConnect (connected : bool) (s : channel) : option nat * channel :=
  let k := length (ch_sockets s) in
  let s := mk_channel (ch_lock s) (Some k) (ch_status s) (ch_sockets s ++ [mk_held_socket true connected])
             (ch_threads s) (ch_twice s) in
  if connected then (Some k, s)
  else
    let s := surrender k s in
    (None, mk_channel (ch_lock s) None (ch_status s) (ch_sockets s) (ch_threads s) (ch_twice s)).

(** The next access of thread [i]; [connected] is the answer of
    [Socket::connect] *)
Definition thread_run (i : nat) (connected : bool) (s : channel) : option channel :=
  match ch_threads s !! i with
  | None => None
  | Some (P_idle _) =>
      let '(ok, w) := tryShared (ch_lock s) in Some (goto i (if ok then P_read else P_untry) (set_lock w s))
  | Some P_untry => Some (goto i (P_idle None) (set_lock (releaseShared (ch_lock s)) s))
  | Some P_read =>
      match ch_socket s with
      | Some k =>
          match ch_sockets s !! k with
          | Some so => Some (goto i (if so_active so then P_leave k else P_upgrade) s)
          | None => None
          end
      | None => Some (goto i P_upgrade s)
      end
  | Some (P_leave k) => Some (goto i (P_idle (Some k)) (set_lock (releaseShared (ch_lock s)) s))
  | Some P_upgrade =>
      let '(ok, w) := tryUpgradeNonReEntrant (ch_lock s) in
      Some (goto i (if ok then P_leave_upgraded else P_leave_busy) (set_lock w s))
  | Some P_leave_busy => Some (goto i (P_idle None) (set_lock (releaseShared (ch_lock s)) s))
  | Some P_leave_upgraded => Some (goto i P_exclusive (set_lock (releaseShared (ch_lock s)) s))
  | Some P_exclusive =>
      let '(ok, w) := tryExclusive (ch_lock s) in
      Some (goto i (if ok then P_surrender else P_exclusive) (set_lock w s))
  | Some P_surrender =>
      Some (goto i P_connect (match ch_socket s with Some k => surrender k s | None => s end))
  | Some P_connect =>
      let '(answer, s) := tryConnect connected s in
      let status := match answer with Some _ => ch_status s | None => RPC_STATUS_SOCKET_CONNECT_FAIL end in
      Some (goto i (P_finish answer)
             (mk_channel (ch_lock s) (ch_socket s) status (ch_sockets s) (ch_threads s) (ch_twice s)))
  | Some (P_finish answer) => Some (goto i (P_idle answer) (set_lock (releaseExclusive (ch_lock s)) s))
  end.

(** The socket's thread or a writer sets an error status. *)
Definition fail_step (k : nat) (s : channel) : option channel :=
  match ch_sockets s !! k with
  | None => None
  | Some so =>
      Some (mk_channel (ch_lock s) (ch_socket s) (ch_status s)
              (<[k := mk_held_socket (so_owned so) false]> (ch_sockets s)) (ch_threads s) (ch_twice s))
  end.

Inductive channel_step : channel -> channel -> Prop :=
| by_thread i b s s' : thread_run i b s = Some s' -> channel_step s s'
| by_failure k s s' : fail_step k s = Some s' -> channel_step s s'.

(** [Channel::init] for a single connection, used by [n] threads *)
Definition channel_init (connected : bool) (n : nat) : channel :=
  let '(answer, s) := tryConnect connected (mk_channel 0 None RPC_STATUS_INIT [] (replicate n (P_idle None)) false) in
  mk_channel (ch_lock s) (ch_socket s)
    (match answer with Some _ => RPC_STATUS_OK | None => RPC_STATUS_SOCKET_CONNECT_FAIL end)
    (ch_sockets s) (ch_threads s) (ch_twice s).

(** ** The lock *)

Definition lock_view (p : get_pc) : thread :=
  match p with
  | P_idle _ => T_idle
  | P_untry => T_trying
  | P_read | P_leave _ | P_upgrade | P_leave_busy => T_shared
  | P_leave_upgraded => T_shared_upgraded
  | P_exclusive => T_upgraded
  | P_surrender | P_connect | P_finish _ => T_exclusive
  end.

Definition lock_of (s : channel) : lock_system := mk_lock_system (ch_lock s) (lock_view <$> ch_threads s).

Lemma view_insert i p (l : list get_pc) : lock_view <$> <[i := p]> l = <[i := lock_view p]> (lock_view <$> l).
Proof. apply list_fmap_insert. Qed.

(** A step that does not touch the lock *)
Lemma same_lock i p p' s s' :
  ch_threads s !! i = Some p -> lock_view p' = lock_view p -> ch_lock s' = ch_lock s ->
  ch_threads s' = ch_threads s -> lock_of (goto i p' s') = lock_of s.
Proof.
  intros Hi Hv Hl Ht. unfold lock_of. cbn. rewrite Hl, Ht, view_insert, Hv. f_equal.
  apply list_insert_id. by rewrite list_lookup_fmap, Hi.
Qed.

(** The accesses [getSocketInternal] makes: only a sharer upgrades, and it does
    not give up *)
Definition proper (a : access) (t : thread) : Prop :=
  match a with A_upgrade | A_give_up => False | A_upgrade_once => t = T_shared | _ => True end.

Inductive proper_step : lock_system -> lock_system -> Prop :=
| proper_access i a t t' bits bits' ts :
    ts !! i = Some t -> proper a t -> thread_step a t bits = Some (t', bits') ->
    proper_step (mk_lock_system bits ts) (mk_lock_system bits' (<[i := t']> ts)).

(** A step that does touch it is such an access. *)
Lemma lock_access_step i p p' a w s :
  ch_threads s !! i = Some p -> proper a (lock_view p) ->
  thread_step a (lock_view p) (ch_lock s) = Some (lock_view p', w) ->
  proper_step (lock_of s) (lock_of (goto i p' (set_lock w s))).
Proof.
  intros Hi Hp Hs. unfold lock_of. cbn. rewrite view_insert.
  eapply proper_access; [by rewrite list_lookup_fmap, Hi|done|done].
Qed.

(** ** How the lock is used *)

Definition upgrades (t : thread) : Z := match t with T_shared_upgraded | T_upgraded => 1 | _ => 0 end.

(** Besides the sharers, the word says exactly whether a thread has upgraded or
    is exclusive; there is at most one such thread. *)
Record use_ok (l : lock_system) : Prop := {
  us_word : ls_bits l = word (zsum attempts (ls_threads l)) (0 <? zsum upgrades (ls_threads l)) (0 <? zsum excludes (ls_threads l));
  us_one : zsum upgrades (ls_threads l) + zsum excludes (ls_threads l) <= 1;
  us_none : 0 < zsum excludes (ls_threads l) -> zsum shares (ls_threads l) = 0
}.

Lemma upgrades_range t : 0 <= upgrades t.
Proof. destruct t; cbn; lia. Qed.

Lemma word_eq3 n n' u u' e e' : n = n' -> u = u' -> e = e' -> word n u e = word n' u' e'.
Proof. by intros -> -> ->. Qed.

Lemma proper_step_ok a t t' n h u e bits' :
  proper a t -> attempts t <= n < 2 ^ 28 - 1 -> shares t <= h <= n -> upgrades t <= u -> excludes t <= e -> u + e <= 1 ->
  (0 < e -> h = 0) ->
  thread_step a t (word n (0 <? u) (0 <? e)) = Some (t', bits') ->
  bits' = word (n - attempts t + attempts t') (0 <? u - upgrades t + upgrades t') (0 <? e - excludes t + excludes t')
  /\ u - upgrades t + upgrades t' + (e - excludes t + excludes t') <= 1
  /\ (0 < e - excludes t + excludes t' -> h - shares t + shares t' = 0).
Proof.
  intros Hp Hn Hh Hu He Hue Hnone Hs. pose proof (attempts_range t). pose proof (excludes_range t). pose proof (upgrades_range t).
  destruct t, a; try discriminate Hs; try done; cbn [thread_step attempts shares excludes upgrades] in *;
    rewrite ?tryShared_word, ?releaseShared_word, ?tryUpgradeNonReEntrant_word,
      ?tryExclusive_word, ?releaseExclusive_word in Hs by lia;
    destruct (Z.ltb_spec 0 e), (Z.ltb_spec 0 u); try lia; cbn [orb andb negb] in Hs;
    rewrite ?andb_false_r, ?andb_true_r in Hs; repeat case_match; breflect; simplify_eq;
    cbn [attempts shares excludes upgrades];
    (split_and!; [apply word_eq3; [lia| |]|lia|lia]);
    first [symmetry; apply Z.ltb_lt; lia|symmetry; apply Z.ltb_ge; lia].
Qed.

Lemma use_step_ok l l' :
  proper_step l l' -> use_ok l -> zlen (ls_threads l) < 2 ^ 28 - 1 ->
  use_ok l' /\ zlen (ls_threads l') = zlen (ls_threads l).
Proof.
  intros Hstep [Hbits Hone Hnone] Hlen. destruct Hstep as [i a t t' bits bits' ts Hi Hp Hs].
  cbn [ls_bits ls_threads] in *. split; [|unfold zlen; by rewrite length_insert].
  pose proof (zsum_ge attempts ts i t ltac:(apply attempts_range) Hi) as Ha.
  pose proof (zsum_ge shares ts i t shares_range Hi) as Hsh.
  pose proof (zsum_ge upgrades ts i t upgrades_range Hi) as Hu.
  pose proof (zsum_ge excludes ts i t excludes_range Hi) as He.
  pose proof (zsum_le_length attempts ts ltac:(apply attempts_range)) as Hal.
  assert (zsum shares ts <= zsum attempts ts) as Hsa.
  { clear. induction ts as [|t ts IH]; cbn; [lia|]. unfold zsum in *. destruct t; cbn; lia. }
  rewrite Hbits in Hs. apply (proper_step_ok _ _ _ _ (zsum shares ts)) in Hs as (Hb & Ho & Hn); try done; try lia.
  split; cbn [ls_bits ls_threads]; rewrite !(zsum_insert _ _ _ _ _ Hi); done.
Qed.

Lemma use_lock_ok l : use_ok l -> lock_ok l.
Proof.
  intros [Hw Ho Hn]. pose proof (zsum_nonneg upgrades (ls_threads l) upgrades_range).
  split; [by eexists|lia|done].
Qed.

Lemma surrender_fields k s : ch_lock (surrender k s) = ch_lock s /\ ch_threads (surrender k s) = ch_threads s
  /\ ch_socket (surrender k s) = ch_socket s.
Proof. unfold surrender. by destruct (ch_sockets s !! k). Qed.

Lemma tryConnect_fields b s : ch_lock (snd (tryConnect b s)) = ch_lock s /\ ch_threads (snd (tryConnect b s)) = ch_threads s.
Proof.
  unfold tryConnect. destruct b; [done|]. cbn.
  match goal with |- context [surrender ?k ?s1] => by destruct (surrender_fields k s1) as (-> & -> & _) end.
Qed.

Lemma thread_lock i b s s' : thread_run i b s = Some s' -> lock_of s' = lock_of s \/ proper_step (lock_of s) (lock_of s').
Proof.
  unfold thread_run. intros Hrun. destruct (ch_threads s !! i) as [p|] eqn:Hi; [|done].
  destruct p; cbv zeta in Hrun.
  - destruct (tryShared (ch_lock s)) as [ok w] eqn:E. simplify_eq. right.
    eapply (lock_access_step _ _ _ A_share); [done|done|]. cbn [lock_view thread_step]. rewrite E. by destruct ok.
  - simplify_eq. right. by eapply (lock_access_step _ _ _ A_release_shared).
  - left. destruct (ch_socket s) as [k|]; [destruct (ch_sockets s !! k) as [so|]; [|done]|]; simplify_eq;
      eapply same_lock; try done. by destruct (so_active so).
  - simplify_eq. right. by eapply (lock_access_step _ _ _ A_release_shared).
  - destruct (tryUpgradeNonReEntrant (ch_lock s)) as [ok w] eqn:E. simplify_eq. right.
    eapply (lock_access_step _ _ _ A_upgrade_once); [done|done|]. cbn [lock_view thread_step]. rewrite E. by destruct ok.
  - simplify_eq. right. by eapply (lock_access_step _ _ _ A_release_shared).
  - simplify_eq. right. by eapply (lock_access_step _ _ _ A_release_shared).
  - destruct (tryExclusive (ch_lock s)) as [ok w] eqn:E. simplify_eq. right.
    eapply (lock_access_step _ _ _ A_exclusive); [done|done|]. cbn [lock_view thread_step]. rewrite E. by destruct ok.
  - simplify_eq. left. eapply same_lock; try done; destruct (ch_socket s); try done; apply surrender_fields.
  - pose proof (tryConnect_fields b s) as [Hl Ht]. destruct (tryConnect b s) as [ans s1]. cbn in Hl, Ht. simplify_eq.
    left. eapply same_lock; done.
  - simplify_eq. right. by eapply (lock_access_step _ _ _ A_release_exclusive).
Qed.


(** ** Ownership *)

(** Outside of the reconnection the channel owns exactly its current socket; in
    the middle of it, none. *)
Record owner_ok (s : channel) : Prop := {
  ow_use : use_ok (lock_of s);
  ow_none : forall i k so, ch_threads s !! i = Some P_connect -> ch_sockets s !! k = Some so -> so_owned so = false;
  ow_one : (forall i, ch_threads s !! i <> Some P_connect) ->
    forall k so, ch_sockets s !! k = Some so -> (so_owned so = true <-> ch_socket s = Some k);
  ow_valid : forall k, ch_socket s = Some k -> (k < length (ch_sockets s))%nat;
  ow_twice : ch_twice s = false
}.

Lemma alone s i j p q :
  lock_ok (lock_of s) -> ch_threads s !! i = Some p -> lock_view p = T_exclusive -> i <> j ->
  ch_threads s !! j = Some q -> lock_view q <> T_exclusive /\ lock_view q <> T_shared.
Proof.
  intros Hok Hi Hp Hij Hj. destruct (exclusive_alone (lock_of s) i j (lock_view q)) as (? & ? & _); try done; cbn.
  - by rewrite list_lookup_fmap, Hi; cbn; rewrite Hp.
  - by rewrite list_lookup_fmap, Hj.
Qed.

(** A step that leaves the sockets alone, and is not in the reconnection *)
Lemma quiet_ok s i p p' w :
  owner_ok s -> ch_threads s !! i = Some p -> p <> P_connect -> p' <> P_connect ->
  use_ok (lock_of (goto i p' (set_lock w s))) -> owner_ok (goto i p' (set_lock w s)).
Proof.
  intros [] Hi Hp Hp' Hl. split; cbn; try done.
  - intros j k so Hj. destruct (decide (i = j)) as [<-|Hne].
    + rewrite list_lookup_insert_eq in Hj by (by eapply lookup_lt_Some). congruence.
    + rewrite list_lookup_insert_ne in Hj by done. by eapply ow_none0.
  - intros Hno. apply ow_one0. intros j Hj. apply (Hno j). destruct (decide (i = j)) as [<-|Hne]; [congruence|].
    by rewrite list_lookup_insert_ne.
Qed.

Lemma set_lock_same s i p : goto i p (set_lock (ch_lock s) s) = goto i p s.
Proof. done. Qed.

Lemma surrender_ok s i :
  owner_ok s -> ch_threads s !! i = Some P_surrender ->
  use_ok (lock_of (goto i P_connect (match ch_socket s with Some k => surrender k s | None => s end))) ->
  owner_ok (goto i P_connect (match ch_socket s with Some k => surrender k s | None => s end)).
Proof.
  intros Hok Hi Hl.
  assert (forall j, ch_threads s !! j <> Some P_connect) as Hno.
  { intros j Hj. destruct (decide (i = j)) as [<-|Hne]; [congruence|].
    by destruct (alone s i j _ _ (use_lock_ok _ (ow_use _ Hok)) Hi eq_refl Hne Hj). }
  pose proof (ow_one _ Hok Hno) as Hone. destruct Hok as [_ _ _ Hvalid Htw].
  assert (<[i:=P_connect]> (ch_threads s) !! i = Some P_connect) as Hself by (apply list_lookup_insert_eq; by eapply lookup_lt_Some).
  destruct (ch_socket s) as [k|] eqn:Ek.
  - destruct (lookup_lt_is_Some_2 (ch_sockets s) k (Hvalid _ eq_refl)) as [so Hk].
    assert (so_owned so = true) as Hown by (by apply (Hone k)). unfold surrender in *. rewrite Hk in *.
    split; cbn in *; [done| | | |by rewrite Htw, Hown].
    + intros _ k' so' _ Hk'. destruct (decide (k = k')) as [<-|Hne].
      * rewrite list_lookup_insert_eq in Hk' by (by eapply lookup_lt_Some). by simplify_eq.
      * rewrite list_lookup_insert_ne in Hk' by done. specialize (Hone _ _ Hk'). apply not_true_is_false. intros Ht.
        apply Hone in Ht. congruence.
    + intros Hno'. by destruct (Hno' i).
    + intros k' Hk'. rewrite length_insert. apply Hvalid. congruence.
  - split; cbn in *; [done| | |by rewrite Ek|done].
    + intros _ k' so' _ Hk'. apply not_true_is_false. intros Ht. by apply (Hone _ _ Hk') in Ht.
    + intros Hno'. by destruct (Hno' i).
Qed.

Lemma reconnect_ok s i b :
  owner_ok s -> ch_threads s !! i = Some P_connect ->
  let '(answer, s1) := tryConnect b s in
  forall status, let s' := goto i (P_finish answer) (mk_channel (ch_lock s1) (ch_socket s1) status (ch_sockets s1) (ch_threads s1) (ch_twice s1)) in
  use_ok (lock_of s') -> owner_ok s'.
Proof.
  intros Hok Hi. pose proof (ow_none _ Hok i) as Hnone.
  assert (forall j q, i <> j -> ch_threads s !! j = Some q -> q <> P_connect) as Hother.
  { intros j q Hne Hj ->. by destruct (alone s i j _ _ (use_lock_ok _ (ow_use _ Hok)) Hi eq_refl Hne Hj). }
  set (k := length (ch_sockets s)). set (sos := ch_sockets s ++ [mk_held_socket true b]).
  assert (sos !! k = Some (mk_held_socket true b)) as Hk by (by apply list_lookup_middle).
  assert (forall k' so, sos !! k' = Some so -> (k' = k /\ so = mk_held_socket true b) \/ (k' <> k /\ so_owned so = false)) as Hsos.
  { intros k' so [Hk'|[Hk' Hlast]]%lookup_app_Some.
    - right. split; [apply lookup_lt_Some in Hk'; unfold k; lia|]. by eapply Hnone.
    - left. apply list_lookup_singleton_Some in Hlast as [? ->]. unfold k. split; [lia|done]. }
  assert (forall answer j, <[i := P_finish answer]> (ch_threads s) !! j <> Some P_connect) as Hnoc.
  { intros answer j Hj. destruct (decide (i = j)) as [<-|Hne].
    - by rewrite list_lookup_insert_eq in Hj by (by eapply lookup_lt_Some).
    - rewrite list_lookup_insert_ne in Hj by done. by apply (Hother j _ Hne Hj). }
  destruct Hok as [_ _ _ _ Htw]. unfold tryConnect. fold k sos. destruct b.
  - cbv beta iota zeta. intros status Hl. split; cbn in *; [done| | | |done].
    + intros j k' so Hj. by apply Hnoc in Hj.
    + intros _ k' so Hk'. destruct (Hsos _ _ Hk') as [[-> ->]|[Hne Hf]]; [done|]. rewrite Hf. split; [done|congruence].
    + intros k' [= <-]. by eapply lookup_lt_Some.
  - cbv beta iota zeta. unfold surrender. cbn [ch_sockets]. rewrite Hk. cbv beta iota zeta. intros status Hl. split; cbn in *; [done| | |done|by rewrite Htw].
    + intros j k' so Hj. by apply Hnoc in Hj.
    + intros _ k' so Hk'. destruct (decide (k = k')) as [<-|Hne].
      * rewrite list_lookup_insert_eq in Hk' by (by eapply lookup_lt_Some). by simplify_eq.
      * rewrite list_lookup_insert_ne in Hk' by done. destruct (Hsos _ _ Hk') as [[-> _]|[_ Hf]]; [done|]. by rewrite Hf.
Qed.

Lemma thread_ok i b s s' :
  owner_ok s -> thread_run i b s = Some s' -> use_ok (lock_of s') -> owner_ok s'.
Proof.
  intros Hok Hrun Hu. unfold thread_run in Hrun. destruct (ch_threads s !! i) as [p|] eqn:Hi; [|done].
  destruct p; cbv zeta in Hrun.
  - destruct (tryShared (ch_lock s)) as [ok w]. simplify_eq. eapply quiet_ok; try done. by destruct ok.
  - simplify_eq. by eapply quiet_ok.
  - destruct (ch_socket s) as [k|]; [destruct (ch_sockets s !! k) as [so|]; [|done]|]; simplify_eq;
      rewrite <- set_lock_same in *; eapply quiet_ok; try done. by destruct (so_active so).
  - simplify_eq. by eapply quiet_ok.
  - destruct (tryUpgradeNonReEntrant (ch_lock s)) as [ok w]. simplify_eq. eapply quiet_ok; try done. by destruct ok.
  - simplify_eq. by eapply quiet_ok.
  - simplify_eq. by eapply quiet_ok.
  - destruct (tryExclusive (ch_lock s)) as [ok w]. simplify_eq. eapply quiet_ok; try done. by destruct ok.
  - simplify_eq. by apply surrender_ok.
  - pose proof (reconnect_ok s i b Hok Hi) as Hc. destruct (tryConnect b s) as [answer s1]. simplify_eq. by apply Hc.
  - simplify_eq. by eapply quiet_ok.
Qed.

Lemma fail_ok k s s' : owner_ok s -> fail_step k s = Some s' -> owner_ok s'.
Proof.
  intros [] Hf. unfold fail_step in Hf. destruct (ch_sockets s !! k) as [so|] eqn:Hk; [|done]. simplify_eq.
  assert (forall k' so', <[k := mk_held_socket (so_owned so) false]> (ch_sockets s) !! k' = Some so' ->
    exists so0, ch_sockets s !! k' = Some so0 /\ so_owned so0 = so_owned so') as Hsame.
  { intros k' so' Hk'. destruct (decide (k = k')) as [<-|Hne].
    - rewrite list_lookup_insert_eq in Hk' by (by eapply lookup_lt_Some). simplify_eq. eauto.
    - rewrite list_lookup_insert_ne in Hk' by done. eauto. }
  split; cbn; try done.
  - intros i k' so' Hi (so0 & H0 & <-)%Hsame. by eapply ow_none0.
  - intros Hno k' so' (so0 & H0 & <-)%Hsame. by apply ow_one0.
  - intros k' Hk'. rewrite length_insert. auto.
Qed.

Definition channel_ok (n : Z) (s : channel) : Prop := owner_ok s /\ zlen (ch_threads s) = n.

Lemma lock_threads s : zlen (ls_threads (lock_of s)) = zlen (ch_threads s).
Proof. unfold zlen. cbn. by rewrite length_fmap. Qed.

Lemma channel_step_ok n s s' : n < 2 ^ 28 - 1 -> channel_ok n s -> channel_step s s' -> channel_ok n s'.
Proof.
  intros Hn [Hok Hlen] Hstep. revert Hok Hlen. destruct Hstep as [i b s s' Hrun|k s s' Hf]; intros Hok Hlen.
  - destruct (thread_lock i b s s' Hrun) as [Heq|Hps].
    + split; [eapply thread_ok; [done|done|]; rewrite Heq; apply Hok|]. by rewrite <- lock_threads, Heq, lock_threads.
    + destruct (use_step_ok _ _ Hps (ow_use _ Hok)) as [Hu Hl]; [rewrite lock_threads; lia|].
      split; [by eapply thread_ok|]. rewrite !lock_threads in Hl. lia.
  - split; [by eapply fail_ok|]. unfold fail_step in Hf. by destruct (ch_sockets s !! k); simplify_eq.
Qed.

Lemma single_init_ok connected n : channel_ok (Z.of_nat n) (channel_init connected n).
Proof.
  assert (use_ok (mk_lock_system 0 (lock_view <$> replicate n (P_idle None)))) as Hu.
  { rewrite fmap_replicate. split; cbn [ls_bits ls_threads]; rewrite !zsum_replicate by done; [done|lia|lia]. }
  unfold channel_init. destruct connected; split; cbn; try (unfold zlen; by rewrite length_replicate); split; cbn; try done.
  - intros i k so Hi. by apply lookup_replicate in Hi as [? _].
  - by intros _ k so [-> <-]%list_lookup_singleton_Some.
  - intros k [= <-]. lia.
  - intros i k so Hi. by apply lookup_replicate in Hi as [? _].
  - by intros _ k so [-> <-]%list_lookup_singleton_Some.
Qed.

Lemma reach_ok connected n s :
  Z.of_nat n < 2 ^ 28 - 1 -> rtc channel_step (channel_init connected n) s -> channel_ok (Z.of_nat n) s.
Proof.
  intros Hn. revert s. apply rtc_ind_r; [apply single_init_ok|]. intros s1 s2 _ Hstep Hok. by eapply channel_step_ok.
Qed.

(** Where a thread is in the part that replaces the socket *)
Definition reconnecting (p : get_pc) : Prop := lock_view p = T_exclusive.

(** C18: ownership of sockets. Under every interleaving of the threads of a
    channel with failing connections, no socket is surrendered twice; the
    channel owns no socket but the current one, and owns that one whenever no
    thread is replacing it; and while a thread replaces it no other thread does,
    and none reads [_socket]. *)
Theorem channel_ownership (connected : bool) (n : nat) (s : channel) :
  Z.of_nat n < 2 ^ 28 - 1 -> rtc channel_step (channel_init connected n) s ->
  ch_twice s = false
  /\ (forall k so, ch_sockets s !! k = Some so -> so_owned so = true -> ch_socket s = Some k)
  /\ ((forall i p, ch_threads s !! i = Some p -> ~ reconnecting p) ->
      forall k, ch_socket s = Some k -> exists so, ch_sockets s !! k = Some so /\ so_owned so = true)
  /\ (forall i j p q, ch_threads s !! i = Some p -> reconnecting p -> i <> j -> ch_threads s !! j = Some q ->
      ~ reconnecting q /\ q <> P_read).
Proof.
  intros Hn Hrun. destruct (reach_ok connected n s Hn Hrun) as [Hok _].
  assert ((exists i, ch_threads s !! i = Some P_connect) \/ forall i, ch_threads s !! i <> Some P_connect) as Hcase.
  { destruct (decide (Exists (fun p => p = P_connect) (ch_threads s))) as [Hex|Hnot].
    - left. apply list.Exists_exists in Hex as (p & Hin & ->). by apply list_elem_of_lookup in Hin.
    - right. intros i Hi. apply Hnot, list.Exists_exists. eexists. split; [by eapply list_elem_of_lookup_2|done]. }
  split_and!.
  - apply Hok.
  - intros k so Hk Hown. destruct Hcase as [[i Hi]|Hno]; [|by apply (ow_one _ Hok Hno k so)].
    pose proof (ow_none _ Hok i k so Hi Hk). congruence.
  - intros Hnone k Hk. destruct (lookup_lt_is_Some_2 (ch_sockets s) k (ow_valid _ Hok _ Hk)) as [so Hso].
    exists so. split; [done|]. apply (ow_one _ Hok) with k; try done. intros i Hi. by apply (Hnone i _ Hi).
  - intros i j p q Hi Hp Hij Hj. destruct (alone s i j p q (use_lock_ok _ (ow_use _ Hok)) Hi Hp Hij Hj) as [H1 H2].
    split; [done|]. by intros ->.
Qed.

(** The channel is never blocked for good. A thread is refused only while
    another one is replacing the socket or waiting to: when none is, the next
    call shares the channel and reads [_socket]. *)
Theorem channel_unblocked (connected : bool) (n : nat) (s : channel) (i : nat) (a : option nat) (b : bool) :
  Z.of_nat n < 2 ^ 28 - 1 -> rtc channel_step (channel_init connected n) s ->
  (forall j p, ch_threads s !! j = Some p -> upgrades (lock_view p) + excludes (lock_view p) = 0) ->
  ch_threads s !! i = Some (P_idle a) ->
  exists s', thread_run i b s = Some s' /\ ch_threads s' !! i = Some P_read.
Proof.
  intros Hn Hrun Hfree Hi. destruct (reach_ok connected n s Hn Hrun) as [Hok Hlen]. destruct (ow_use _ Hok) as [Hw _ _].
  cbn [ls_bits ls_threads lock_of] in Hw.
  assert (zsum upgrades (lock_view <$> ch_threads s) = 0 /\ zsum excludes (lock_view <$> ch_threads s) = 0) as [Hu He].
  { clear -Hfree. induction (ch_threads s) as [|p l IH]; [done|]. specialize (IH (fun j q Hj => Hfree (S j) q Hj)).
    pose proof (Hfree 0%nat p eq_refl). pose proof (upgrades_range (lock_view p)). pose proof (excludes_range (lock_view p)).
    cbn in *. unfold zsum in *. lia. }
  rewrite Hu, He in Hw. cbn in Hw. unfold thread_run. rewrite Hi, Hw.
  pose proof (zsum_nonneg attempts (lock_view <$> ch_threads s) ltac:(apply attempts_range)) as Ha0.
  pose proof (zsum_le_length attempts (lock_view <$> ch_threads s) ltac:(apply attempts_range)) as Ha1.
  unfold zlen in Ha1, Hlen. rewrite length_fmap in Ha1.
  rewrite tryShared_word by lia. eexists. split; [done|]. cbn. apply list_lookup_insert_eq. by eapply lookup_lt_Some.
Qed.

(** A run: the threads and the answers of [connect], [None] for a failure of
    the current socket *)
Fixpoint run_trace (l : list (option (nat * bool))) (s : channel) : option channel :=
  match l with
  | [] => Some s
  | a :: l =>
      match (match a with
             | Some (i, b) => thread_run i b s
             | None => match ch_socket s with Some k => fail_step k s | None => None end
             end) with
      | Some s => run_trace l s
      | None => None
      end
  end.

Lemma run_trace_steps l : forall s s', run_trace l s = Some s' -> rtc channel_step s s'.
Proof.
  induction l as [|[[i b]|] l IH]; intros s s' Hrun; cbn in Hrun; [simplify_eq; constructor|..].
  - destruct (thread_run i b s) as [s1|] eqn:E; [|done]. eapply rtc_l; [by eapply by_thread|auto].
  - destruct (ch_socket s) as [k|]; [|done]. destruct (fail_step k s) as [s1|] eqn:E; [|done].
    eapply rtc_l; [by eapply by_failure|auto].
Qed.

(** The socket fails, one thread replaces it and the other one is refused *)
Definition replace_run : list (option (nat * bool)) :=
  [None; Some (0%nat, true); Some (0%nat, true); Some (0%nat, true); Some (1%nat, true); Some (0%nat, true);
   Some (1%nat, true); Some (0%nat, true); Some (0%nat, true); Some (0%nat, true); Some (0%nat, true)].

Definition replaced : channel := default (channel_init true 2) (run_trace replace_run (channel_init true 2)).

Lemma replaced_reachable : rtc channel_step (channel_init true 2) replaced.
Proof. apply (run_trace_steps replace_run). vm_compute. reflexivity. Qed.

Lemma channel_ownership_witness :
  ch_threads replaced = [P_idle (Some 1%nat); P_idle None]
  /\ ch_sockets replaced = [mk_held_socket false false; mk_held_socket true true] /\ ch_twice replaced = false.
Proof.
  split_and!; [vm_compute; reflexivity|vm_compute; reflexivity|].
  apply (channel_ownership true 2 replaced ltac:(lia) replaced_reachable).
Defined.

Lemma channel_unblocked_witness :
  exists s', thread_run 1 true replaced = Some s' /\ ch_threads s' !! 1%nat = Some P_read.
Proof.
  apply (channel_unblocked true 2 replaced 1 None true ltac:(lia) replaced_reachable).
  - intros [|[|j]] p Hp; vm_compute in Hp; [injection Hp as <-; reflexivity|injection Hp as <-; reflexivity|discriminate].
  - vm_compute. reflexivity.
Defined.

End Connection.

Module Pool.

(** [struct SubChannel]; what its [channel] answers is an argument of the
    steps. *)
Record SubChannel := mk_SubChannel { shared_num : Z; is_active : bool }.

Definition size_t_max : Z := 2 ^ 64 - 1.

(** Where a thread is in [getSubSocketInternal]. [G_get] is the first call of
    [getSocketInternal], [G_off] and [G_dec] what follows when it fails;
    [G_scan] and [G_load] are the search for the most idle sub-channel;
    [G_get2], [G_on], [G_off2], [G_dec2] use the one that was found. [G_gone]:
    the thread has ended. *)
Inductive sub_pc : Set :=
| G_idle
| G_get
| G_off
| G_dec
| G_scan (i most : nat) (minus : Z)
| G_load (i most : nat) (minus : Z)
| G_random
| G_cas (most : nat) (minus : Z)
| G_get2
| G_on
| G_off2
| G_dec2
| G_gone.

#[global] Instance sub_pc_eq_dec : EqDecision sub_pc.
Proof. solve_decision. Defined.

(** [struct ThreadLocalSubChannel] and the thread's position; the index -1 is
    [None]. *)
Record ThreadLocalSubChannel := mk_ThreadLocalSubChannel { idx : option nat; t_pc : sub_pc }.

Record pool := mk_pool { po_subs : list SubChannel; po_threads : list ThreadLocalSubChannel }.

Definition set_thread (i : nat) (t : ThreadLocalSubChannel) (s : pool) : pool := mk_pool (po_subs s) (<[i := t]> (po_threads s)).

(** An access to the sub-channel of the thread *)
Definition on_sub (k : option nat) (f : SubChannel -> SubChannel) (s : pool) : option pool :=
  match k with
  | None => None
  | Some k => match po_subs s !! k with
              | Some b => Some (mk_pool (<[k := f b]> (po_subs s)) (po_threads s))
              | None => None
              end
  end.

Definition store_active (a : bool) (b : SubChannel) : SubChannel := mk_SubChannel (shared_num b) a.
Definition fetch_sub (b : SubChannel) : SubChannel := mk_SubChannel (u64 (shared_num b - 1)) (is_active b).

(** The next access of thread [i]. [ok] is what [getSocketInternal] answers,
    [rd] the random number, [leave] that the thread ends instead of calling
    again ([deleteThreadLocalSubChannel]). *)
Definition pool_run (i : nat) (ok : bool) (rd : nat) (leave : bool) (s : pool) : option pool :=
  match po_threads s !! i with
  | None => None
  | Some t =>
      let goto sub_pc s := set_thread i (mk_ThreadLocalSubChannel (idx t) sub_pc) s in
      match t_pc t with
      | G_idle =>
          if leave then
            match idx t with
            | Some _ => set_thread i (mk_ThreadLocalSubChannel None G_gone) <$> on_sub (idx t) fetch_sub s
            | None => Some (goto G_gone s)
            end
          else Some (goto (match idx t with Some _ => G_get | None => G_scan 0 0 size_t_max end) s)
      | G_get => Some (goto (if ok then G_idle else G_off) s)
      | G_off => goto G_dec <$> on_sub (idx t) (store_active false) s
      | G_dec => goto (G_scan 0 0 size_t_max) <$> on_sub (idx t) fetch_sub s
      | G_scan k most minus =>
          if (k <? length (po_subs s))%nat then
            if bool_decide (idx t = Some k) then Some (goto (G_scan (S k) most minus) s)
            else match po_subs s !! k with
                 | Some b => Some (goto (if is_active b then G_load k most minus else G_scan (S k) most minus) s)
                 | None => None
                 end
          else Some (goto (if minus =? size_t_max then G_random else G_cas most minus) s)
      | G_load k most minus =>
          match po_subs s !! k with
          | Some b =>
              Some (goto (if shared_num b <? minus then G_scan (S k) k (shared_num b) else G_scan (S k) most minus) s)
          | None => None
          end
      | G_random =>
          if (length (po_subs s) =? 0)%nat then None
          else
            let most := (rd mod length (po_subs s))%nat in
            match po_subs s !! most with
            | Some b => Some (goto (G_cas most (shared_num b)) s)
            | None => None
            end
      | G_cas most minus =>
          match po_subs s !! most with
          | None => None
          | Some b =>
              if shared_num b =? minus then
                Some (set_thread i (mk_ThreadLocalSubChannel (Some most) G_get2)
                        (mk_pool (<[most := mk_SubChannel (u64 (minus + 1)) (is_active b)]> (po_subs s)) (po_threads s)))
              else Some (set_thread i (mk_ThreadLocalSubChannel (Some most) (G_scan 0 0 size_t_max)) s)
          end
      | G_get2 => Some (goto (if ok then G_on else G_off2) s)
      | G_on => goto G_idle <$> on_sub (idx t) (store_active true) s
      | G_off2 => goto G_dec2 <$> on_sub (idx t) (store_active false) s
      | G_dec2 => set_thread i (mk_ThreadLocalSubChannel None G_idle) <$> on_sub (idx t) fetch_sub s
      | G_gone => None
      end
  end.

Inductive pool_step : pool -> pool -> Prop :=
| by_thread i ok rd leave s s' : pool_run i ok rd leave s = Some s' -> pool_step s s'.

(** [Channel::init] of a pool whose sub-channels have connected *)
Definition pool_init (pool_size threads : nat) : pool :=
  mk_pool (replicate pool_size (mk_SubChannel 0 true)) (replicate threads (mk_ThreadLocalSubChannel None G_idle)).

(** ** The counts *)

(** The sub-channel a thread is counted in *)
Definition counted (t : ThreadLocalSubChannel) : option nat :=
  match t_pc t with
  | G_idle | G_get | G_off | G_dec | G_get2 | G_on | G_off2 | G_dec2 => idx t
  | _ => None
  end.

Definition holds (k : nat) (t : ThreadLocalSubChannel) : Z := if bool_decide (counted t = Some k) then 1 else 0.

Definition candidate (p : sub_pc) : option nat :=
  match p with G_scan _ most _ | G_load _ most _ | G_cas most _ => Some most | _ => None end.

(** The indices are valid where they are used. *)
Record local_ok (size : nat) (t : ThreadLocalSubChannel) : Prop := {
  th_idx : forall k, idx t = Some k -> (k < size)%nat;
  th_most : forall k, candidate (t_pc t) = Some k -> (k < size)%nat;
  th_load : forall k most minus, t_pc t = G_load k most minus -> (k < size)%nat;
  th_has : (t_pc t = G_get \/ t_pc t = G_off \/ t_pc t = G_dec \/ t_pc t = G_get2 \/ t_pc t = G_on
            \/ t_pc t = G_off2 \/ t_pc t = G_dec2) -> is_Some (idx t)
}.

Record pool_ok (size : nat) (s : pool) : Prop := {
  pk_size : length (po_subs s) = size;
  pk_threads : Forall (local_ok size) (po_threads s);
  pk_counts : forall k b, po_subs s !! k = Some b -> shared_num b = zsum (holds k) (po_threads s)
}.

Lemma holds_range k t : 0 <= holds k t <= 1.
Proof. unfold holds. case_bool_decide; lia. Qed.

(** A thread moves without touching a count. *)
Lemma move_ok size s i t t' :
  pool_ok size s -> po_threads s !! i = Some t -> counted t' = counted t -> local_ok size t' ->
  pool_ok size (set_thread i t' s).
Proof.
  intros [] Hi Hc Ht. split; cbn [po_subs po_threads set_thread]; [done|by apply Forall_insert|].
  intros k b Hk. rewrite (zsum_insert _ _ _ _ _ Hi). unfold holds. rewrite Hc. rewrite (pk_counts0 _ _ Hk). unfold holds. lia.
Qed.

(** A thread touches the flag of its sub-channel. *)
Lemma flag_ok size s s' k a :
  pool_ok size s -> on_sub (Some k) (store_active a) s = Some s' ->
  pool_ok size s' /\ po_threads s' = po_threads s.
Proof.
  intros [] Hs. cbn in Hs. destruct (po_subs s !! k) as [b|] eqn:Hk; [|done]. simplify_eq. split; [|done].
  split; cbn [po_subs po_threads set_thread]; [by rewrite length_insert|done|]. intros k' b' Hk'. destruct (decide (k = k')) as [<-|Hne].
  - rewrite list_lookup_insert_eq in Hk' by (by eapply lookup_lt_Some). simplify_eq. cbn [shared_num store_active]. by apply pk_counts0.
  - rewrite list_lookup_insert_ne in Hk' by done. by apply pk_counts0.
Qed.

(** A thread enters or leaves a sub-channel, and the count follows. *)
Lemma count_ok size s i t t' k b x a :
  pool_ok size s -> po_threads s !! i = Some t -> po_subs s !! k = Some b -> local_ok size t' ->
  x = shared_num b - holds k t + holds k t' -> (forall k', k' <> k -> holds k' t' = holds k' t) ->
  pool_ok size (set_thread i t' (mk_pool (<[k := mk_SubChannel x a]> (po_subs s)) (po_threads s))).
Proof.
  intros [] Hi Hk Ht Hx Hother. split; cbn [po_subs po_threads set_thread]; [by rewrite length_insert|by apply Forall_insert|].
  intros k' b' Hk'. rewrite (zsum_insert _ _ _ _ _ Hi). destruct (decide (k = k')) as [<-|Hne].
  - rewrite list_lookup_insert_eq in Hk' by (by eapply lookup_lt_Some). simplify_eq. cbn [shared_num]. by rewrite (pk_counts0 _ _ Hk).
  - rewrite list_lookup_insert_ne in Hk' by done. rewrite (pk_counts0 _ _ Hk'), Hother by done. lia.
Qed.

(** Invariants of the next position of a thread *)
Ltac thread_tac :=
  split; cbn in *; intros; simplify_eq; cbn in *;
  repeat match goal with H : _ \/ _ |- _ => destruct H end; simplify_eq; eauto; try done; try lia.

Lemma leave_count s i t k b :
  zlen (po_threads s) < 2 ^ 64 -> po_threads s !! i = Some t -> counted t = Some k ->
  shared_num b = zsum (holds k) (po_threads s) -> u64 (shared_num b - 1) = shared_num b - holds k t + 0.
Proof.
  intros Hlen Hi Hc Hb. assert (holds k t = 1) as Hh by (unfold holds; by rewrite bool_decide_true).
  pose proof (zsum_ge (holds k) _ _ _ ltac:(apply holds_range) Hi) as Hge.
  pose proof (zsum_le_length (holds k) (po_threads s) ltac:(apply holds_range)) as Hle.
  rewrite Hh, u64_small by lia. lia.
Qed.

Lemma holds_uncounted k t : counted t = None -> holds k t = 0.
Proof. intros Hc. unfold holds. by rewrite bool_decide_false by congruence. Qed.

Lemma holds_other k k' t : counted t = Some k -> k' <> k -> holds k' t = 0.
Proof. intros Hc Hne. unfold holds. by rewrite bool_decide_false by congruence. Qed.

(** The thread is taken out of the count of its sub-channel. *)
Lemma drop_ok size s s' i t t' k :
  pool_ok size s -> zlen (po_threads s) < 2 ^ 64 -> po_threads s !! i = Some t -> counted t = Some k ->
  counted t' = None -> local_ok size t' -> on_sub (Some k) fetch_sub s = Some s' -> pool_ok size (set_thread i t' s').
Proof.
  intros Hok Hlen Hi Hc Hc' Ht Hs. cbn in Hs. destruct (po_subs s !! k) as [b|] eqn:Hk; [|done]. simplify_eq.
  eapply count_ok; try done.
  - rewrite (leave_count s i t k b); try done; [by rewrite (holds_uncounted k t')|by apply Hok].
  - intros k' Hne. rewrite (holds_uncounted _ t'), (holds_other k k' t); done.
Qed.

Lemma local_ok_at size s i t : pool_ok size s -> po_threads s !! i = Some t -> local_ok size t.
Proof. intros Hok Hi. eapply (Forall_lookup_1 (local_ok size)); [apply Hok|done]. Qed.

Lemma pool_run_ok size i ok rd leave s s' :
  (0 < size)%nat -> pool_ok size s -> zlen (po_threads s) < 2 ^ 64 - 1 -> pool_run i ok rd leave s = Some s' -> pool_ok size s'.
Proof.
  intros Hsz Hok Hlen Hrun. unfold pool_run in Hrun. destruct (po_threads s !! i) as [[k p]|] eqn:Hi; [|done].
  pose proof (local_ok_at _ _ _ _ Hok Hi) as [Hidx Hmost Hload Hhas]. cbv zeta in Hrun. cbn [idx t_pc] in *.
  destruct p as [| | | |j most minus|j most minus| |most minus| | | | |].
  - destruct leave, k as [k|]; simplify_eq; try (eapply move_ok; [done|done|done|thread_tac]).
    destruct (on_sub (Some k) fetch_sub s) as [s1|] eqn:Es; [|done]. cbn in Hrun. simplify_eq.
    eapply drop_ok; try done; [lia|thread_tac].
  - simplify_eq. destruct (Hhas ltac:(auto)) as [k' ->]. destruct ok; (eapply move_ok; [done|done|done|thread_tac]).
  - destruct (Hhas ltac:(auto)) as [k' ->]. destruct (on_sub (Some k') (store_active false) s) as [s1|] eqn:Es; [|done]. cbn in Hrun. simplify_eq.
    destruct (flag_ok size s s1 k' false Hok Es) as [Hok1 Ht1]. eapply move_ok; [done|by rewrite Ht1|done|thread_tac].
  - destruct (Hhas ltac:(auto)) as [k' ->]. destruct (on_sub (Some k') fetch_sub s) as [s1|] eqn:Es; [|done]. cbn in Hrun. simplify_eq.
    eapply drop_ok; try done; [lia|thread_tac].
  - pose proof (pk_size _ _ Hok) as Hs. destruct (j <? length (po_subs s))%nat eqn:Ej.
    + apply Nat.ltb_lt in Ej. case_bool_decide; [simplify_eq; eapply move_ok; [done|done|done|thread_tac]|].
      destruct (po_subs s !! j) as [b|]; [|done]. simplify_eq. destruct (is_active b); (eapply move_ok; [done|done|done|thread_tac]).
    + simplify_eq. destruct (minus =? size_t_max); (eapply move_ok; [done|done|done|thread_tac]).
  - destruct (po_subs s !! j) as [b|] eqn:Hj; [|done]. simplify_eq. specialize (Hload _ _ _ eq_refl).
    destruct (shared_num b <? minus); (eapply move_ok; [done|done|done|thread_tac]).
  - destruct (length (po_subs s) =? 0)%nat eqn:E0; [done|]. apply Nat.eqb_neq in E0.
    destruct (po_subs s !! (rd mod length (po_subs s))%nat) as [b|] eqn:Hb; [|done]. simplify_eq.
    assert (rd mod length (po_subs s) < size)%nat by (rewrite <- (pk_size _ _ Hok); by apply Nat.mod_upper_bound).
    eapply move_ok; [done|done|done|thread_tac].
  - destruct (po_subs s !! most) as [b|] eqn:Hb; [|done]. specialize (Hmost _ eq_refl).
    destruct (Z.eqb_spec (shared_num b) minus) as [<-|]; simplify_eq; [|eapply move_ok; [done|done|done|thread_tac]].
    pose proof (pk_counts _ _ Hok _ _ Hb) as Hcount.
    pose proof (zsum_nonneg (holds most) (po_threads s) ltac:(apply holds_range)).
    pose proof (zsum_le_length (holds most) (po_threads s) ltac:(apply holds_range)).
    eapply count_ok; try done; [thread_tac| |].
    + rewrite (holds_uncounted most (mk_ThreadLocalSubChannel k _)) by done. unfold holds at 1. rewrite bool_decide_true by done.
      rewrite u64_small by lia. lia.
    + intros k' Hne. rewrite (holds_uncounted k' (mk_ThreadLocalSubChannel k _)) by done. by eapply holds_other.
  - simplify_eq. destruct (Hhas ltac:(auto)) as [k' ->]. destruct ok; (eapply move_ok; [done|done|done|thread_tac]).
  - destruct (Hhas ltac:(tauto)) as [k' ->]. destruct (on_sub (Some k') (store_active true) s) as [s1|] eqn:Es; [|done]. cbn in Hrun. simplify_eq.
    destruct (flag_ok size s s1 k' true Hok Es) as [Hok1 Ht1]. eapply move_ok; [done|by rewrite Ht1|done|thread_tac].
  - destruct (Hhas ltac:(tauto)) as [k' ->]. destruct (on_sub (Some k') (store_active false) s) as [s1|] eqn:Es; [|done]. cbn in Hrun. simplify_eq.
    destruct (flag_ok size s s1 k' false Hok Es) as [Hok1 Ht1]. eapply move_ok; [done|by rewrite Ht1|done|thread_tac].
  - destruct (Hhas ltac:(tauto)) as [k' ->]. destruct (on_sub (Some k') fetch_sub s) as [s1|] eqn:Es; [|done]. cbn in Hrun. simplify_eq.
    eapply drop_ok; try done; [lia|thread_tac].
  - done.
Qed.

Lemma on_sub_threads k f s s' : on_sub k f s = Some s' -> po_threads s' = po_threads s.
Proof. unfold on_sub. intros H. repeat case_match; by simplify_eq. Qed.

Lemma pool_run_threads i ok rd leave s s' :
  pool_run i ok rd leave s = Some s' -> length (po_threads s') = length (po_threads s).
Proof.
  assert (forall k f t s1, set_thread i t <$> on_sub k f s = Some s1 -> length (po_threads s1) = length (po_threads s)) as Hsub.
  { intros k f t s1 H. destruct (on_sub k f s) as [s2|] eqn:E; [|done]. cbn in H. simplify_eq. cbn.
    by rewrite length_insert, (on_sub_threads _ _ _ _ E). }
  unfold pool_run. intros H. destruct (po_threads s !! i) as [[k p]|]; [|done]. cbv zeta in H. cbn [idx t_pc] in H.
  destruct p; repeat case_match; simplify_eq; try (by eapply Hsub); cbn; by rewrite length_insert.
Qed.

(** The accesses are all defined. *)
Lemma pool_run_defined size i ok rd leave s t :
  (0 < size)%nat -> pool_ok size s -> po_threads s !! i = Some t -> t_pc t <> G_gone ->
  is_Some (pool_run i ok rd leave s).
Proof.
  intros Hsz Hok Hi Hg. pose proof (local_ok_at _ _ _ _ Hok Hi) as [Hidx Hmost Hload Hhas].
  assert (forall k, (k < size)%nat -> is_Some (po_subs s !! k)) as Hsub
    by (intros k Hk; apply lookup_lt_is_Some_2; by rewrite (pk_size _ _ Hok)).
  assert (forall k f t', idx t = Some k -> is_Some (set_thread i t' <$> on_sub (Some k) f s)) as Hon.
  { intros k f t' Hk. cbn. destruct (Hsub k (Hidx _ Hk)) as [b ->]. by eexists. }
  unfold pool_run. rewrite Hi. cbv zeta. destruct t as [k p]. cbn [idx t_pc] in *.
  destruct p; try done; try (destruct (Hhas ltac:(tauto)) as [k' ->]; by apply Hon).
  - destruct leave; [|by eexists]. destruct k as [k|]; [by apply Hon|by eexists].
  - destruct (_ <? _)%nat eqn:E; [|by eexists]. apply Nat.ltb_lt in E. case_bool_decide; [by eexists|].
    destruct (lookup_lt_is_Some_2 _ _ E) as [b ->]. by eexists.
  - destruct (Hsub _ (Hload _ _ _ eq_refl)) as [b ->]. by eexists.
  - rewrite (proj2 (Nat.eqb_neq _ 0)) by (rewrite (pk_size _ _ Hok); lia).
    destruct (Hsub (rd mod length (po_subs s))%nat) as [b ->]; [|by eexists].
    rewrite (pk_size _ _ Hok). apply Nat.mod_upper_bound. lia.
  - destruct (Hsub _ (Hmost _ eq_refl)) as [b ->]. case_match; by eexists.
Qed.

Lemma pool_init_ok size n : (0 < size)%nat -> pool_ok size (pool_init size n).
Proof.
  intros Hsz. split; cbn [po_subs po_threads pool_init].
  - apply length_replicate.
  - apply Forall_replicate. thread_tac.
  - intros k b [-> _]%lookup_replicate. cbn [shared_num]. by rewrite zsum_replicate.
Qed.

(** The pool keeps its counts. However the threads of a pooled channel are
    interleaved, and whatever their sub-channels answer, [shared_num] of a
    sub-channel is the number of threads that hold it, so between calls the
    number of threads whose local index is that sub-channel, and no count
    underflows; every index a thread uses is one of the pool, and its next
    access is defined. *)
Theorem pool_counts (size n : nat) (s : pool) :
  (0 < size)%nat -> Z.of_nat n < 2 ^ 64 - 1 -> rtc pool_step (pool_init size n) s ->
  (forall k b, po_subs s !! k = Some b ->
     shared_num b = zsum (holds k) (po_threads s) /\ 0 <= shared_num b <= Z.of_nat n)
  /\ ((forall t, t ∈ po_threads s -> t_pc t = G_idle \/ t_pc t = G_gone) ->
     forall k b, po_subs s !! k = Some b ->
       shared_num b = zsum (fun t => if bool_decide (idx t = Some k /\ t_pc t = G_idle) then 1 else 0) (po_threads s))
  /\ (forall i t ok rd leave, po_threads s !! i = Some t -> t_pc t <> G_gone -> is_Some (pool_run i ok rd leave s)).
Proof.
  intros Hsz Hn Hrun. assert (pool_ok size s /\ length (po_threads s) = n) as [Hok Hlen].
  { revert s Hrun. apply rtc_ind_r.
    - split; [by apply pool_init_ok|]. cbn. apply length_replicate.
    - intros s1 s2 _ [i ok rd leave s1' s2' Hr] [Hok Hl]. split.
      + eapply pool_run_ok; [done|done|unfold zlen; lia|done].
      + by rewrite (pool_run_threads _ _ _ _ _ _ Hr). }
  split_and!.
  - intros k b Hk. rewrite (pk_counts _ _ Hok _ _ Hk). split; [done|].
    pose proof (zsum_nonneg (holds k) (po_threads s) ltac:(apply holds_range)).
    pose proof (zsum_le_length (holds k) (po_threads s) ltac:(apply holds_range)). unfold zlen in *. lia.
  - intros Hidle k b Hk. rewrite (pk_counts _ _ Hok _ _ Hk). clear -Hidle. unfold zsum.
    induction (po_threads s) as [|t l IH]; [done|]. cbn [foldr]. rewrite IH by (intros t' Ht'; apply Hidle; by right). f_equal.
    unfold holds, counted. destruct (Hidle t ltac:(by left)) as [-> | ->]; repeat case_bool_decide; intuition congruence.
  - intros i t ok rd leave Hi Hg. by eapply pool_run_defined.
Qed.

(** Two threads, two sub-channels: each thread gets its own. *)
Definition pool_round (i : nat) : list nat := replicate 9 i.

Fixpoint pool_runs (l : list nat) (s : pool) : option pool :=
  match l with
  | [] => Some s
  | i :: l => match pool_run i true 0 false s with Some s => pool_runs l s | None => None end
  end.

Lemma pool_runs_steps l : forall s s', pool_runs l s = Some s' -> rtc pool_step s s'.
Proof.
  induction l as [|i l IH]; intros s s' Hrun; cbn [pool_runs] in Hrun; [simplify_eq; constructor|].
  destruct (pool_run i true 0 false s) as [s1|] eqn:E; [|done]. eapply rtc_l; [by eapply by_thread|auto].
Qed.

Definition pooled : pool := default (pool_init 2 2) (pool_runs (pool_round 0 ++ pool_round 1) (pool_init 2 2)).

Lemma pool_counts_witness :
  pooled = mk_pool [mk_SubChannel 1 true; mk_SubChannel 1 true] [mk_ThreadLocalSubChannel (Some 0%nat) G_idle; mk_ThreadLocalSubChannel (Some 1%nat) G_idle]
  /\ 1 = zsum (holds 1) (po_threads pooled).
Proof.
  split; [vm_compute; reflexivity|]. destruct (pool_counts 2 2 pooled) as [Hc _]; [lia|lia| |].
  - apply (pool_runs_steps (pool_round 0 ++ pool_round 1)). vm_compute. reflexivity.
  - apply (Hc 1%nat (mk_SubChannel 1 true)). vm_compute. reflexivity.
Defined.

End Pool.

(** What [Channel::init] sets up, [getSocket] gives out and the destructor
    surrenders, for the three connection types. *)
Module Owned.

Import Connection.

Inductive EConnectionType : Set :=
| CONNECTION_TYPE_SINGLE
| CONNECTION_TYPE_POOLED
| CONNECTION_TYPE_SHORT.

(** [Channel()] *)
Definition new_channel : channel := mk_channel 0 None RPC_STATUS_INIT [] [] false.

(** A channel with its sub-channels; [c_gone]: the sub-channels that were
    destroyed, whose sockets live on. *)
Record typed_channel := mk_typed {
  c_type : EConnectionType;
  c_own : channel;
  c_subs : list channel;
  c_gone : list channel
}.

Definition set_status (st : ERpcStatus) (s : channel) : channel :=
  mk_channel (ch_lock s) (ch_socket s) st (ch_sockets s) (ch_threads s) (ch_twice s).

(** [~Channel] of a channel that is not pooled *)
Definition release_socket (s : channel) : channel :=
  match ch_socket s with Some k => surrender k s | None => s end.

(** The loop over [_sub_channels]: it stops at the first one that does not
    connect; [answers] are those of [Socket::connect]. *)
Fixpoint connect_subs (answers : list bool) : bool * list channel :=
  match answers with
  | [] => (true, [])
  | b :: answers =>
      match tryConnect b new_channel with
      | (None, sub) => (false, [sub])
      | (Some _, sub) => let '(ret, subs) := connect_subs answers in (ret, sub :: subs)
      end
  end.

Definition finish_init (ret : bool) (c : typed_channel) : bool * typed_channel :=
  (ret, mk_typed (c_type c)
          (set_status (if ret then RPC_STATUS_OK else RPC_STATUS_SOCKET_CONNECT_FAIL) (c_own c)) (c_subs c) (c_gone c)).

(** [Channel::init]; [connected] answers the [i]-th connection. *)
Definition init (type : EConnectionType) (pool_size : Z) (connected : nat -> bool) : bool * typed_channel :=
  match type with
  | CONNECTION_TYPE_POOLED =>
      if pool_size <=? 0 then (false, mk_typed type new_channel [] [])
      else
        let '(ret, subs) := connect_subs (connected <$> seq 0 (Z.to_nat pool_size)) in
        if ret then finish_init true (mk_typed type new_channel subs [])
        else finish_init false (mk_typed type new_channel [] (release_socket <$> subs))
  | CONNECTION_TYPE_SHORT => finish_init true (mk_typed type new_channel [] [])
  | CONNECTION_TYPE_SINGLE =>
      let '(answer, s) := tryConnect (connected 0%nat) new_channel in
      finish_init (match answer with Some _ => true | None => false end) (mk_typed type s [] [])
  end.

(** [getSocket] of a short connection: [tryConnect] on the session's pointer,
    so [_socket] is not the new socket. *)
Definition getSocket_short (connected : bool) (c : typed_channel) : option nat * typed_channel :=
  let '(answer, s) := tryConnect connected (c_own c) in
  (answer, mk_typed (c_type c)
             (mk_channel (ch_lock s) (ch_socket (c_own c)) (ch_status s) (ch_sockets s) (ch_threads s) (ch_twice s))
             (c_subs c) (c_gone c)).

(** [~Channel], the destructors of the sub-channels included *)
Definition destroy_channel (c : typed_channel) : typed_channel :=
  mk_typed (c_type c)
    (match c_type c with CONNECTION_TYPE_POOLED => c_own c | _ => release_socket (c_own c) end)
    [] (c_gone c ++ (release_socket <$> c_subs c)).

(** The sockets that are still owned, so that the socket manager does not
    reclaim them *)
Definition owned_by (s : channel) : Z := zsum (fun so => if so_owned so then 1 else 0) (ch_sockets s).
Definition owned_sockets (c : typed_channel) : Z :=
  owned_by (c_own c) + zsum owned_by (c_subs c) + zsum owned_by (c_gone c).

(** A channel whose only socket is its current one *)
Definition fresh_channel (connected : bool) : channel := snd (tryConnect connected new_channel).

Lemma connect_subs_spec answers :
  connect_subs answers =
    match list_find (fun b => b = false) answers with
    | None => (true, replicate (length answers) (fresh_channel true))
    | Some (k, _) => (false, replicate k (fresh_channel true) ++ [fresh_channel false])
    end.
Proof.
  induction answers as [|[] l IH]; [done| |done]. cbn [connect_subs list_find]. rewrite decide_False by done.
  cbn [tryConnect new_channel ch_sockets length]. rewrite IH.
  by destruct (list_find _ l) as [[k b]|].
Qed.

Lemma released_fresh k : zsum owned_by (release_socket <$> replicate k (fresh_channel true)) = 0.
Proof. rewrite fmap_replicate. by apply zsum_replicate. Qed.

(** The sockets of a channel over its life. [init] succeeds exactly when
    every connection it makes succeeds, none for a short connection, one for a
    single one and one per sub-channel for a pool of positive size; it then owns
    one active socket per connection, and none when it fails, although some
    sub-channels may have been connected. Destroying the channel surrenders
    every socket. *)
Theorem init_owns (type : EConnectionType) (pool_size : Z) (connected : nat -> bool) :
  let '(ret, c) := init type pool_size connected in
  let connections := match type with
                     | CONNECTION_TYPE_SHORT => 0%nat
                     | CONNECTION_TYPE_SINGLE => 1%nat
                     | CONNECTION_TYPE_POOLED => Z.to_nat pool_size
                     end in
  (ret = true <-> (type = CONNECTION_TYPE_POOLED -> 0 < pool_size) /\ forall i, (i < connections)%nat -> connected i = true)
  /\ owned_sockets c = (if ret then Z.of_nat connections else 0)
  /\ (ret = true -> ch_status (c_own c) = RPC_STATUS_OK
      /\ (type = CONNECTION_TYPE_POOLED -> length (c_subs c) = connections)
      /\ forall s k, s ∈ c_own c :: c_subs c -> ch_socket s = Some k -> ch_sockets s !! k = Some (mk_held_socket true true))
  /\ owned_sockets (destroy_channel c) = 0.
Proof.
  unfold init. destruct type.
  - destruct (connected 0%nat) eqn:E0; cbn; split_and!; try done.
    + split; [|done]. intros _. split; [done|]. intros i Hi. by replace i with 0%nat by lia.
    + intros _. split_and!; [done..|]. by intros s k [->|[]%not_elem_of_nil]%elem_of_cons [= <-].
    + split; [done|]. intros [_ Hall]. rewrite Hall in E0 by lia. done.
  - destruct (Z.leb_spec pool_size 0); cbn [owned_sockets].
    { cbn. split_and!; try done. split; [done|]. intros [Hpos _]. specialize (Hpos eq_refl). lia. }
    rewrite connect_subs_spec. set (n := Z.to_nat pool_size).
    destruct (list_find _ _) as [[k b]|] eqn:Hf.
    + apply list_find_Some in Hf as (Hk & -> & _). rewrite list_lookup_fmap in Hk.
      cbn [finish_init c_type c_own c_subs c_gone]. split_and!; try done.
      * split; [done|]. intros [_ Hall]. apply fmap_Some in Hk as (i & [-> Hi]%lookup_seq & Hb). rewrite Hall in Hb by lia. done.
      * unfold owned_sockets. cbn [c_own c_subs c_gone]. rewrite fmap_app, zsum_app, released_fresh. done.
      * unfold owned_sockets, destroy_channel. cbn [c_own c_subs c_gone c_type]. rewrite app_nil_r, fmap_app, zsum_app, released_fresh. done.
    + apply list_find_None in Hf. rewrite length_fmap, length_seq.
      cbn [finish_init c_type c_own c_subs c_gone]. split_and!.
      * split; [|done]. intros _. split; [done|]. intros i Hi. rewrite list.Forall_forall in Hf.
        apply not_false_is_true, Hf, list_elem_of_fmap. exists i. split; [done|]. apply elem_of_seq. lia.
      * unfold owned_sockets. cbn [c_own c_subs c_gone]. rewrite zsum_replicate_mul. cbn. lia.
      * intros _. split_and!; [done|intros _; apply length_replicate|].
        intros s k [->|[-> _]%elem_of_replicate]%elem_of_cons; [done|]. by intros [= <-].
      * unfold owned_sockets, destroy_channel. cbn [c_own c_subs c_gone c_type]. rewrite app_nil_l, released_fresh. done.
  - cbn. split_and!; try done; [split; [|done]; intros _; split; [done|]; lia|].
    intros _. split_and!; try done. intros s k [->|[]%not_elem_of_nil]%elem_of_cons; done.
Qed.

(** A short channel, with [n] sockets that are still owned *)
Definition short_owning (n : nat) (c : typed_channel) : Prop :=
  c_type c = CONNECTION_TYPE_SHORT /\ ch_socket (c_own c) = None /\ c_subs c = [] /\ c_gone c = []
  /\ owned_by (c_own c) = Z.of_nat n.

Lemma getSocket_short_owning n c : short_owning n c -> short_owning (S n) (snd (getSocket_short true c)).
Proof.
  intros (Ht & Hs & Hu & Hg & Ho). split_and!; try done. unfold owned_by in *.
  cbn [getSocket_short tryConnect snd c_own ch_sockets]. rewrite zsum_app, Ho. cbn. lia.
Qed.

(** The sockets of a short channel are owned for ever: every session that
    connected leaves one that neither the session nor the destructor
    surrenders. *)
Lemma short_sockets_leak (n : nat) (pool_size : Z) (connected : nat -> bool) :
  let c := snd (init CONNECTION_TYPE_SHORT pool_size connected) in
  owned_sockets (destroy_channel (Nat.iter n (fun c => snd (getSocket_short true c)) c)) = Z.of_nat n.
Proof.
  cbv zeta. assert (short_owning n (Nat.iter n (fun c => snd (getSocket_short true c)) (snd (init CONNECTION_TYPE_SHORT pool_size connected))))
    as (Ht & Hs & Hu & Hg & Ho).
  { induction n as [|n IH]; [done|]. rewrite Nat.iter_succ. by apply getSocket_short_owning. }
  unfold owned_sockets, destroy_channel. cbn [c_own c_subs c_gone].
  rewrite Ht, Hu, Hg. unfold release_socket. rewrite Hs, Ho. cbn. lia.
Qed.

(** A pool whose [init] failed has no sub-channel; a session that uses it
    nevertheless divides by zero. *)
Lemma empty_pool_undefined (ok : bool) (rd : nat) :
  Pool.pool_runs [0%nat; 0%nat] (Pool.pool_init 0 1)
    = Some (Pool.mk_pool [] [Pool.mk_ThreadLocalSubChannel None Pool.G_random])
  /\ Pool.pool_run 0 ok rd false (Pool.mk_pool [] [Pool.mk_ThreadLocalSubChannel None Pool.G_random]) = None.
Proof. split; vm_compute; reflexivity. Qed.

End Owned.
