(* ===== verification/SendSession.v ===== *)
(** * Sending sessions (src/session/session.cpp, include/session/session.h)

    [Session]: one call of a remote procedure. [sendInternal] takes a socket
    from the channel, assembles the request, hands a [SocketReadSession] to the
    socket, arms the timer, writes, and in the synchronous case waits; it is
    repeated by [sendInternalWithRetry]. What the channel, the protocol, the
    timer and the socket answer is the argument [attempt]; the life of the read
    session after the request has been written is the subject of Session. *)

From stdpp Require Import gmap.
From S2P Require Import Prelude CommonDefines LifeCycleLock Session BoltResponse Socket IoBuffer.

(** [struct Protocol], as far as sending needs it: whether the request is
    assembled under a session id, and how the id is converted *)
Record SendProtocol := mk_SendProtocol {
  assemble_request_fn : Z -> bool;
  converse_request_fn : option (Z -> Z)
}.

(** The options of a channel a session takes over *)
Record SessionOptions := mk_SessionOptions { timeout_ms : Z; max_retry : Z; bound_protocol : option SendProtocol }.

(** [class Session]; of its pointers, whether they are set *)
Record Session := mk_Session {
  _timeout : Z;
  _retry : Z;
  _begin_time_us : Z;
  _protocol : option SendProtocol;
  _request : bool;
  _response : bool;
  _error_code : ESessionError;
  _channel : bool;
  _socket : bool
}.

Definition new_Session : Session := mk_Session (-1) (-1) 0 None false false SESSION_OK false false.

Definition send (s : Session) : Session :=
  mk_Session (_timeout s) (_retry s) (_begin_time_us s) (_protocol s) true (_response s) (_error_code s) (_channel s) (_socket s).
Definition receiveTo (s : Session) : Session :=
  mk_Session (_timeout s) (_retry s) (_begin_time_us s) (_protocol s) (_request s) true (_error_code s) (_channel s) (_socket s).

(** [to(Channel&)]: what the session has not set is taken from the channel. *)
Definition to_channel (c : SessionOptions) (s : Session) : Session :=
  mk_Session (if _timeout s <? 0 then timeout_ms c else _timeout s) (if _retry s <? 0 then max_retry c else _retry s)
    (_begin_time_us s) (bound_protocol c) (_request s) (_response s) (_error_code s) true (_socket s).

(** [to(std::shared_ptr<Socket>&)], used for heartbeats *)
Definition to_socket (p : option SendProtocol) (s : Session) : Session :=
  mk_Session (_timeout s) (_retry s) (_begin_time_us s) p (_request s) (_response s) (_error_code s) (_channel s) true.

Definition set_timeout (t : Z) (s : Session) : Session :=
  mk_Session t (_retry s) (_begin_time_us s) (_protocol s) (_request s) (_response s) (_error_code s) (_channel s) (_socket s).
Definition maxRetry (r : Z) (s : Session) : Session :=
  mk_Session (_timeout s) r (_begin_time_us s) (_protocol s) (_request s) (_response s) (_error_code s) (_channel s) (_socket s).

Definition reset_session (s : Session) : Session :=
  mk_Session (_timeout s) (_retry s) (_begin_time_us s) (_protocol s) false false SESSION_OK false false.

Definition set_error (e : ESessionError) (s : Session) : Session :=
  mk_Session (_timeout s) (_retry s) (_begin_time_us s) (_protocol s) (_request s) (_response s) e (_channel s) (_socket s).
Definition set_socket (b : bool) (s : Session) : Session :=
  mk_Session (_timeout s) (_retry s) (_begin_time_us s) (_protocol s) (_request s) (_response s) (_error_code s) (_channel s) b.
Definition set_begin (t : Z) (s : Session) : Session :=
  mk_Session (_timeout s) (_retry s) t (_protocol s) (_request s) (_response s) (_error_code s) (_channel s) (_socket s).

Definition failed (s : Session) : bool := negb (bool_decide (_error_code s = SESSION_OK)).

(** What the other components answer to one attempt: [getSocket], the clock,
    [prepareRead], [addTimeschdule] (0: refused), the milliseconds until
    [write], [write] with its timeout, the value of the promise, and what
    parsing the response gives *)
Record attempt := mk_attempt {
  a_socket : bool;
  a_now : Z;
  a_pushed : bool;
  a_timer_id : Z;
  a_elapsed : Z;
  a_written : Z -> bool;
  a_result : ESessionError;
  a_parsed : EResParseResult
}.

(** A [SocketReadSession] that was created: its id, its times, whether it has
    a callback, and its life, [None] once it is deleted again *)
Record sent_session := mk_sent {
  sd_request_id : Z;
  sd_request_time : Z;
  sd_expire_time : Z;
  sd_callback : bool;
  sd_life : option session
}.

(** [s_session_id] and the read sessions created so far *)
Record world := mk_world { w_session_id : Z; w_sent : list sent_session }.

(** The read session when the timer or the write fails: the timer's share is
    released and its task, unless it is already running, removed. *)
Definition abandon_session (s : session) : session :=
  let s := match se_timer s with T_armed => set_timer T_done s | _ => s end in
  set_sender S_done (set_owners (releaseShared (se_owners s)) s).

(** [_timeout * 1000] in [int32_t], then added to a [size_t]; [None]: the
    multiplication overflows *)
Definition expire_time (timeout request_time : Z) : option Z :=
  if 0 <? timeout then
    if timeout * 1000 <? 2 ^ 31 then Some (u64 (request_time + timeout * 1000)) else None
  else Some (2 ^ 64 - 1).

(** [sendInternal]; [callback] is the pointer, with whether the function it
    points to is not empty. Moving the function into the read session leaves
    an empty one. *)
Definition sendInternal (a : attempt) (callback : option bool) (s : Session) (w : world)
    : option (option bool * Session * world) :=
  match _protocol s with
  | None => Some (callback, set_error PROTOCOL_NOT_FOUND s, w)
  | Some protocol =>
      let s := if _channel s then set_socket (a_socket a) s else s in
      if negb (_socket s) then Some (callback, set_error SOCKET_LOST s, w)
      else
        let s := set_begin (a_now a) s in
        let session_id := w_session_id w in
        let w := mk_world (u64 (session_id + 1)) (w_sent w) in
        if negb (_request s) || negb (assemble_request_fn protocol session_id)
        then Some (callback, set_error ASSEMBLE_REQUEST_FAIL s, w)
        else
          let request_id := match converse_request_fn protocol with Some f => f session_id | None => session_id end in
          match expire_time (_timeout s) (_begin_time_us s) with
          | None => None
          | Some expire =>
              let info_callback := match callback with Some b => b | None => false end in
              let callback := match callback with Some _ => Some false | None => None end in
              let push life := mk_world (w_session_id w)
                (w_sent w ++ [mk_sent request_id (_begin_time_us s) expire info_callback life]) in
              if negb (a_pushed a) then Some (callback, set_error SOCKET_BUSY s, push None)
              else if a_timer_id a =? 0 then Some (callback, set_error TIMER_BUSY s, push (Some (abandon_session new_session)))
              else if negb (a_written a (i32 (u64 (_timeout s - a_elapsed a))))
              then Some (callback, set_error WRITE_FAIL s, push (Some (abandon_session new_session)))
              else if info_callback then Some (callback, s, push (Some new_session))
              else
                let parsed := if _response s then Some (a_parsed a) else None in
                Some (callback, set_error (postProcess parsed (a_result a)) s, push (Some new_session))
          end
  end.

(** An error that ends [sendInternalWithRetry] *)
Definition final (e : ESessionError) : bool := bool_decide (e = SESSION_OK \/ e = READ_TIMEOUT).

Fixpoint retry_loop (n i : nat) (answers : nat -> attempt) (callback : option bool) (s : Session) (w : world)
    : option (option bool * Session * world) :=
  match n with
  | O => Some (callback, s, w)
  | S n =>
      match sendInternal (answers i) callback (set_error SESSION_OK s) w with
      | None => None
      | Some (callback, s, w) =>
          if final (_error_code s) then Some (callback, s, w) else retry_loop n (S i) answers callback s w
      end
  end.

Definition retries (s : Session) : nat := if 0 <? _retry s then Z.to_nat (_retry s) else 1%nat.

Definition sendInternalWithRetry (answers : nat -> attempt) (callback : option bool) (s : Session) (w : world) :=
  retry_loop (retries s) 0 answers callback s w.

Definition sync (answers : nat -> attempt) (s : Session) (w : world) : option (Session * world) :=
  match sendInternalWithRetry answers None s w with
  | Some (_, s, w) => Some (s, w)
  | None => None
  end.

(** What [async] does with the callback itself: nothing, a call, or the
    exception a call of an empty function throws *)
Inductive callback_use : Set := Not_called | Called (e : ESessionError) | Bad_function_call.

Definition async (answers : nat -> attempt) (s : Session) (w : world) : option (callback_use * Session * world) :=
  match sendInternalWithRetry answers (Some true) s w with
  | None => None
  | Some (callback, s, w) =>
      Some (if failed s then
              match callback with Some true => Called (_error_code s) | _ => Bad_function_call end
            else Not_called, s, w)
  end.

(** ** What one attempt comes to *)

(** The attempt gets a session id *)
Definition takes_id (s : Session) (a : attempt) : bool :=
  match _protocol s with Some _ => if _channel s then a_socket a else _socket s | None => false end.

Definition assembled (s : Session) (id : Z) : bool :=
  match _protocol s with Some p => _request s && assemble_request_fn p id | None => false end.

(** ... and creates a read session *)
Definition reaches (s : Session) (id : Z) (a : attempt) : bool := takes_id s a && assembled s id.

Definition write_ok (s : Session) (a : attempt) : bool := a_written a (i32 (u64 (_timeout s - a_elapsed a))).

(** The first thing that goes wrong, or what the waiting gives; [cb]: there is
    a callback *)
Definition attempt_error (cb : bool) (s : Session) (id : Z) (a : attempt) : ESessionError :=
  match _protocol s with
  | None => PROTOCOL_NOT_FOUND
  | Some _ =>
      if negb (takes_id s a) then SOCKET_LOST
      else if negb (assembled s id) then ASSEMBLE_REQUEST_FAIL
      else if negb (a_pushed a) then SOCKET_BUSY
      else if a_timer_id a =? 0 then TIMER_BUSY
      else if negb (write_ok s a) then WRITE_FAIL
      else if cb then SESSION_OK
      else postProcess (if _response s then Some (a_parsed a) else None) (a_result a)
  end.

(** The read session of an attempt: deleted when the socket refuses it, given
    up when the timer or the write fails, else waiting *)
Definition attempt_life (s : Session) (a : attempt) : option session :=
  if negb (a_pushed a) then None
  else if (a_timer_id a =? 0) || negb (write_ok s a) then Some (abandon_session new_session)
  else Some new_session.

Definition attempt_sent (cb : bool) (s : Session) (id : Z) (a : attempt) : option sent_session :=
  match _protocol s, expire_time (_timeout s) (a_now a) with
  | Some p, Some expire =>
      if reaches s id a then
        Some (mk_sent (match converse_request_fn p with Some f => f id | None => id end) (a_now a) expire cb
                (attempt_life s a))
      else None
  | _, _ => None
  end.

(** The sessions [send], [to] and [receiveTo] set up alike *)
Definition same_call (s s' : Session) : Prop :=
  _timeout s' = _timeout s /\ _retry s' = _retry s /\ _protocol s' = _protocol s /\ _request s' = _request s
  /\ _response s' = _response s /\ _channel s' = _channel s /\ (_channel s = false -> _socket s' = _socket s).

#[global] Instance same_call_preorder : PreOrder same_call.
Proof.
  split; [by intros s; unfold same_call|].
  intros s1 s2 s3 (?&?&?&?&?&?&Hs1) (?&?&?&?&?&?&Hs2). unfold same_call. split_and!; try congruence.
  intros Hc. rewrite Hs2; [by apply Hs1|congruence].
Qed.

(** All that an attempt looks at is in [same_call]. *)
Section SameCall.
Context (s s' : Session) (a : attempt).
Hypothesis Hsame : same_call s s'.

Lemma same_takes_id : takes_id s' a = takes_id s a.
Proof.
  destruct Hsame as (_&_&Hp&_&_&Hc&Hs). unfold takes_id. rewrite Hp, Hc.
  destruct (_protocol s); [|done]. by destruct (_channel s); [|rewrite Hs].
Qed.

Lemma same_reaches id : reaches s' id a = reaches s id a.
Proof.
  unfold reaches. rewrite same_takes_id. destruct Hsame as (_&_&Hp&Hr&_). unfold assembled. by rewrite Hp, Hr.
Qed.

Lemma same_write_ok : write_ok s' a = write_ok s a.
Proof. destruct Hsame as (Ht&_). unfold write_ok. by rewrite Ht. Qed.

Lemma same_error cb id : attempt_error cb s' id a = attempt_error cb s id a.
Proof.
  unfold attempt_error. rewrite same_takes_id, same_write_ok. destruct Hsame as (_&_&Hp&Hr&Hrs&_). unfold assembled.
  by rewrite Hp, Hr, Hrs.
Qed.

Lemma same_sent cb id : attempt_sent cb s' id a = attempt_sent cb s id a.
Proof.
  unfold attempt_sent, attempt_life. rewrite same_reaches, same_write_ok. destruct Hsame as (Ht&_&Hp&_). by rewrite Hp, Ht.
Qed.

End SameCall.

Definition next_id (s : Session) (a : attempt) (id : Z) : Z := if takes_id s a then u64 (id + 1) else id.

Definition fits (s : Session) : Prop := _timeout s * 1000 < 2 ^ 31.

Definition is_callback (callback : option bool) : bool := match callback with Some b => b | None => false end.

Lemma expire_fits s t : fits s -> exists e, expire_time (_timeout s) t = Some e.
Proof. unfold fits, expire_time. intros H. repeat case_match; eauto; breflect; lia. Qed.

(** One attempt, on every branch *)
Lemma sendInternal_spec a callback s w :
  fits s ->
  exists s', sendInternal a callback s w =
      Some (if reaches s (w_session_id w) a then (match callback with Some _ => Some false | None => None end) else callback, s',
            mk_world (next_id s a (w_session_id w))
              (w_sent w ++ option_list (attempt_sent (is_callback callback) s (w_session_id w) a)))
    /\ same_call s s'
    /\ (_error_code s = SESSION_OK ->
        _error_code s' = attempt_error (is_callback callback) s (w_session_id w) a).
Proof.
  intros Hfit. unfold sendInternal, attempt_error, attempt_sent, attempt_life, reaches, next_id, takes_id, assembled.
  destruct w as [id sent]. cbn [w_session_id w_sent]. destruct (_protocol s) as [p|]; [|by eexists; rewrite app_nil_r; split_and!].
  destruct (expire_fits s (a_now a) Hfit) as [e He]. cbv zeta.
  set (s1 := if _channel s then set_socket (a_socket a) s else s).
  assert (same_call s s1 /\ _socket s1 = (if _channel s then a_socket a else _socket s) /\ _error_code s1 = _error_code s)
    as (Hs1 & Hsock & Herr) by (unfold s1, same_call; destruct (_channel s) eqn:Hc; cbn; split_and!; congruence).
  rewrite Hsock, He. pose proof Hs1 as (Ht & _ & _ & Hr & Hrs & _).
  destruct (if _channel s then a_socket a else _socket s); cbn [negb andb];
    [|eexists; rewrite app_nil_r; split_and!; done].
  cbn [set_begin _request _timeout _begin_time_us _response]. rewrite Ht, Hr, Hrs, He. unfold write_ok.
  destruct (_request s); cbn [negb andb orb]; [|eexists; rewrite app_nil_r; split_and!; done].
  destruct (assemble_request_fn p id); cbn [negb]; [|eexists; rewrite app_nil_r; split_and!; done].
  destruct (a_pushed a); cbn [negb]; [|eexists; split_and!; done].
  destruct (a_timer_id a =? 0); cbn [orb]; [eexists; split_and!; done|].
  destruct (a_written a _); cbn [negb]; [|eexists; split_and!; done].
  change (match callback with Some b => b | None => false end) with (is_callback callback).
  destruct (is_callback callback); eexists; split_and!; try done. intros Hok. cbn. congruence.
Qed.

(** ** The retries *)

Section Retries.
Context (answers : nat -> attempt) (s0 : Session) (id : Z).

(** The session id at attempt [i] *)
Fixpoint id_at (i : nat) : Z := match i with O => id | S i => next_id s0 (answers i) (id_at i) end.

Definition error_at (cb : bool) (i : nat) : ESessionError := attempt_error cb s0 (id_at i) (answers i).
Definition sent_at (cb : bool) (i : nat) : option sent_session := attempt_sent cb s0 (id_at i) (answers i).
Definition reaches_at (i : nat) : bool := reaches s0 (id_at i) (answers i).

(** What the loop has done: [m] attempts from the [i]-th on, the last one
    final or the last one allowed *)
Record retried (n i m : nat) (cb : bool) (s : Session) (w w' : world) : Prop := {
  rt_range : (1 <= m <= n)%nat;
  rt_before : forall j, (i <= j)%nat -> (S j < i + m)%nat -> final (error_at cb j) = false;
  rt_error : _error_code s = error_at cb (i + m - 1);
  rt_last : final (error_at cb (i + m - 1)) = true \/ m = n;
  rt_sent : w_sent w' = w_sent w ++ omap (sent_at cb) (seq i m)
}.

(** As long as there is no callback, or none is moved away *)
Lemma retry_loop_spec n : forall i callback s w,
  fits s0 -> same_call s0 s -> w_session_id w = id_at i -> (0 < n)%nat ->
  is_callback callback = false \/ (forall j, (i <= j < i + n)%nat -> reaches_at j = false) ->
  exists s' w' m, retry_loop n i answers callback s w = Some (callback, s', w')
    /\ same_call s0 s' /\ retried n i m (is_callback callback) s' w w'.
Proof.
  induction n as [|n IH]; intros i callback s w Hfit Hsame Hid Hn Hkeep; [lia|]. cbn [retry_loop].
  assert (same_call s0 (set_error SESSION_OK s)) as Hsame1 by done.
  destruct (sendInternal_spec (answers i) callback (set_error SESSION_OK s) w) as (s1 & -> & Hs1 & He1).
  { destruct Hsame as [Ht _]. unfold fits in *. cbn. by rewrite Ht. }
  specialize (He1 eq_refl). rewrite (same_error _ _ _ Hsame1), Hid in He1.
  rewrite (same_reaches _ _ _ Hsame1), (same_sent _ _ _ Hsame1), Hid. unfold next_id. rewrite (same_takes_id _ _ _ Hsame1).
  change (if takes_id s0 (answers i) then _ else _) with (id_at (S i)).
  change (attempt_sent _ s0 (id_at i) (answers i)) with (sent_at (is_callback callback) i).
  change (attempt_error _ s0 (id_at i) (answers i)) with (error_at (is_callback callback) i) in He1.
  change (reaches s0 (id_at i) (answers i)) with (reaches_at i).
  replace (if reaches_at i then _ else callback) with callback; cycle 1.
  { destruct Hkeep as [Hk|Hk]; [by destruct (reaches_at i), callback as [[]|]|]. by rewrite Hk by lia. }
  assert (same_call s0 s1) as Hsame2 by (by etrans).
  destruct (final (_error_code s1)) eqn:Hf; [|destruct n as [|n]].
  - exists s1. eexists _, 1%nat. split_and!; [done|done|]. split; try lia; cbn [w_sent].
    + by replace (i + 1 - 1)%nat with i by lia.
    + replace (i + 1 - 1)%nat with i by lia. left. congruence.
    + cbn. by destruct (sent_at _ i).
  - exists s1. eexists _, 1%nat. split_and!; [done|done|]. split; try lia; cbn [w_sent].
    + by replace (i + 1 - 1)%nat with i by lia.
    + cbn. by destruct (sent_at _ i).
  - destruct (IH (S i) callback s1 (mk_world (id_at (S i)) (w_sent w ++ option_list (sent_at (is_callback callback) i))))
      as (s' & w' & m & Hrun & Hs' & [Hr Hb He Hl Hst]); try done; [lia| |].
    { destruct Hkeep as [Hk|Hk]; [by left|right]. intros j Hj. apply Hk. lia. }
    exists s', w', (S m). split_and!; [done|done|]. replace (S i + m - 1)%nat with (i + S m - 1)%nat in * by lia. split.
    + lia.
    + intros j Hij Hj. destruct (decide (j = i)) as [->|Hne]; [congruence|]. apply Hb; lia.
    + done.
    + destruct Hl; [by left|right; lia].
    + rewrite Hst. cbn [w_sent seq omap list_omap]. rewrite <- app_assoc. f_equal. by destruct (sent_at _ i).
Qed.

End Retries.

Lemma retries_pos s : (0 < retries s)%nat.
Proof. unfold retries. case_match; breflect; lia. Qed.

(** C32: a synchronous call. Whatever the other components answer, [sync]
    returns after at most the allowed number of attempts ([_retry], at least
    one); every attempt but the last ended with an error other than a timeout:
    the code retries each such error, also those that come before anything is
    written or read (no protocol, no socket, no request text), which the
    comment on [max_retry] (channel.h:50) does not say, see [retries_early_errors];
    the error code is that of the last attempt, which succeeded, timed out or
    was the last one allowed; and the read sessions it has created are those of
    its attempts, in order, each under its own session id.
    Condition: the timeout in microseconds fits an [int]. *)
Theorem sync_outcome (answers : nat -> attempt) (s : Session) (w : world) :
  fits s ->
  exists s' w' m, sync answers s w = Some (s', w')
    /\ (1 <= m <= retries s)%nat
    /\ (forall j, (S j < m)%nat -> final (error_at answers s (w_session_id w) false j) = false)
    /\ _error_code s' = error_at answers s (w_session_id w) false (m - 1)
    /\ (final (_error_code s') = true \/ m = retries s)
    /\ w_sent w' = w_sent w ++ omap (sent_at answers s (w_session_id w) false) (seq 0 m).
Proof.
  intros Hfit. unfold sync, sendInternalWithRetry.
  destruct (retry_loop_spec answers s (w_session_id w) (retries s) 0 None s w) as (s' & w' & m & -> & _ & [Hr Hb He Hl Hs]);
    try done; [apply retries_pos|by left|].
  exists s', w', m. split_and!; try done; [lia|lia| |by rewrite He].
  intros j Hj. apply Hb; lia.
Qed.

(** An attempt that fails before it has a read session *)
Lemma early_error cb s id a :
  reaches s id a = false -> attempt_error cb s id a <> SESSION_OK /\ final (attempt_error cb s id a) = false.
Proof.
  unfold reaches, attempt_error. intros Hr. destruct (_protocol s); [|done].
  destruct (takes_id s a); cbn in *; [|done]. by rewrite Hr.
Qed.

Lemma early_sent cb s id a : reaches s id a = false -> attempt_sent cb s id a = None.
Proof. unfold attempt_sent. intros ->. repeat case_match; done. Qed.

(** C33: an asynchronous call. When its first attempt is written, [async]
    returns without calling the callback, which the read session now holds; when
    no attempt gets as far as a read session, the code makes all the allowed
    attempts although nothing was written or read (unlike the comment on
    [max_retry], channel.h:50, see [retries_early_errors]), then [async] calls the
    callback itself with the error of the last one, and nothing is left behind.
    Condition: the timeout in microseconds fits an [int]. The remaining case, an
    attempt that fails after its read session was made, loses the callback
    ([async_failure_throws], [async_retry_forgets]). *)
Theorem async_outcome (answers : nat -> attempt) (s : Session) (w : world) :
  fits s ->
  (error_at answers s (w_session_id w) true 0 = SESSION_OK ->
   exists s' w' x, async answers s w = Some (Not_called, s', w') /\ _error_code s' = SESSION_OK
     /\ w_sent w' = w_sent w ++ [x] /\ sd_callback x = true /\ sd_life x = Some new_session)
  /\ ((forall j, (j < retries s)%nat -> reaches_at answers s (w_session_id w) j = false) ->
   exists s' w', async answers s w
       = Some (Called (error_at answers s (w_session_id w) true (retries s - 1)), s', w')
     /\ w_sent w' = w_sent w).
Proof.
  intros Hfit. unfold async, sendInternalWithRetry. split.
  - intros Hok. pose proof (retries_pos s) as Hpos. destruct (retries s) as [|n]; [lia|]. cbn [retry_loop].
    assert (same_call s (set_error SESSION_OK s)) as Hsame by done.
    destruct (sendInternal_spec (answers 0%nat) (Some true) (set_error SESSION_OK s) w) as (s1 & -> & _ & He1); [done|].
    specialize (He1 eq_refl). rewrite (same_error _ _ _ Hsame) in He1. cbn [is_callback] in *.
    unfold error_at in Hok. cbn [id_at] in Hok. rewrite Hok in He1. rewrite He1. cbn [final].
    rewrite (same_sent _ _ _ Hsame). unfold final, failed. rewrite bool_decide_true by auto. rewrite He1. cbn.
    revert Hok. unfold attempt_error, attempt_sent, attempt_life, reaches.
    destruct (_protocol s) as [p|]; [|done]. destruct (takes_id s _); [|done]. destruct (assembled s _); [|done].
    destruct (a_pushed _); [|done]. destruct (_ =? 0); [done|]. destruct (write_ok s _); [|done]. intros _.
    destruct (expire_fits s (a_now (answers 0%nat)) Hfit) as [e ->]. cbn. by eexists _, _, _.
  - intros Hno. destruct (retry_loop_spec answers s (w_session_id w) (retries s) 0 (Some true) s w)
      as (s' & w' & m & -> & _ & [Hr Hb He Hl Hs]); try done; [apply retries_pos|right; intros j Hj; apply Hno; lia|].
    cbn [is_callback] in *. destruct (early_error true s (id_at answers s (w_session_id w) (0 + m - 1)) (answers (0 + m - 1)%nat)) as [Hne Hnf];
      [apply Hno; lia|]. fold (error_at answers s (w_session_id w) true (0 + m - 1)) in Hne, Hnf.
    destruct Hl as [Hl|Hl]; [congruence|]. exists s', w'. unfold failed. rewrite He, bool_decide_false by done. cbn [negb].
    split; [by rewrite Hl|]. rewrite Hs. replace (omap _ _) with (@nil sent_session); [by rewrite app_nil_r|].
    symmetry. apply elem_of_nil_inv. intros x (j & Hj & Hx)%list_elem_of_omap. apply elem_of_seq in Hj.
    unfold sent_at in Hx. rewrite early_sent in Hx; [done|]. apply Hno. lia.
Qed.

(** ** Examples *)

Definition sample_protocol : SendProtocol := mk_SendProtocol (fun _ => true) (Some u32).

Definition sample_session : Session :=
  to_channel (mk_SessionOptions SOCKET_TIMEOUT_MS SOCKET_MAX_RETRY (Some sample_protocol)) (receiveTo (send new_Session)).

(** The write fails at the first attempt, the second one is answered. *)
Definition write_fails_once (i : nat) : attempt :=
  mk_attempt true 1000 true 5 0 (fun _ => match i with O => false | _ => true end) SESSION_OK PARSE_OK.

Definition no_socket (i : nat) : attempt := mk_attempt false 1000 true 5 0 (fun _ => true) SESSION_OK PARSE_OK.

Definition first_world : world := mk_world 1 [].

Lemma sync_outcome_witness :
  exists s' w' m, sync write_fails_once sample_session first_world = Some (s', w') /\ (1 <= m <= 3)%nat
    /\ sync write_fails_once sample_session first_world
       = Some (set_begin 1000 (set_socket true sample_session),
               mk_world 3 [mk_sent 1 1000 501000 false (Some (abandon_session new_session));
                           mk_sent 2 1000 501000 false (Some new_session)]).
Proof.
  destruct (sync_outcome write_fails_once sample_session first_world ltac:(vm_compute; reflexivity))
    as (s' & w' & m & Hrun & [Hm1 Hm2] & _).
  replace (retries sample_session) with 3%nat in Hm2 by (vm_compute; reflexivity).
  exists s', w', m. split; [exact Hrun|split; [lia|reflexivity]].
Defined.

Lemma async_outcome_witness :
  exists s' w', async no_socket sample_session first_world = Some (Called SOCKET_LOST, s', w') /\ w_sent w' = [].
Proof.
  destruct (async_outcome no_socket sample_session first_world ltac:(vm_compute; reflexivity)) as [_ H].
  apply H. intros [|[|[|j]]] Hj; [vm_compute; reflexivity..|]. vm_compute in Hj. lia.
Defined.

(** ** What is retried *)

(** A request without a text ([send] was given no request) fails before anything
    is written, and is tried again as often as allowed: each attempt takes a
    session id. A call without a protocol makes its attempts as well. *)
Definition no_request_session : Session :=
  to_channel (mk_SessionOptions SOCKET_TIMEOUT_MS SOCKET_MAX_RETRY (Some sample_protocol)) new_Session.

Lemma no_protocol_loop answers n w : forall i s, _protocol s = None -> exists s',
  retry_loop (S n) i answers None s w = Some (None, s', w) /\ _error_code s' = PROTOCOL_NOT_FOUND.
Proof.
  induction n as [|n IH]; intros i s Hp.
  all: assert (sendInternal (answers i) None (set_error SESSION_OK s) w
    = Some (None, set_error PROTOCOL_NOT_FOUND (set_error SESSION_OK s), w)) as Hs
    by (unfold sendInternal; cbn [set_error _protocol]; by rewrite Hp).
  all: cbn [retry_loop]; rewrite Hs; cbn [set_error _error_code]; change (final PROTOCOL_NOT_FOUND) with false; cbv iota.
  - by eexists.
  - exact (IH (S i) (set_error PROTOCOL_NOT_FOUND (set_error SESSION_OK s)) Hp).
Qed.

Lemma retries_early_errors :
  (fun p => (_error_code (fst p), snd p)) <$> sync write_fails_once no_request_session first_world
  = Some (ASSEMBLE_REQUEST_FAIL, mk_world 4 [])
  /\ (forall answers s w, _protocol s = None ->
        (fun p => (_error_code (fst p), snd p)) <$> sync answers s w = Some (PROTOCOL_NOT_FOUND, w)).
Proof.
  split; [vm_compute; reflexivity|]. intros answers s w Hp. unfold sync, sendInternalWithRetry.
  pose proof (retries_pos s) as Hn. destruct (retries s) as [|n]; [lia|].
  destruct (no_protocol_loop answers n w 0%nat s Hp) as (s' & -> & He). cbn. by rewrite He.
Qed.

(** ** Where the callback is lost *)

(** The callback has been moved into the read session when the socket, the
    timer or the write fails: [async] then calls an empty function, which
    throws. *)
Lemma async_failure_throws (answers : nat -> attempt) (s : Session) (w : world) :
  fits s -> retries s = 1%nat -> reaches_at answers s (w_session_id w) 0 = true ->
  error_at answers s (w_session_id w) true 0 <> SESSION_OK ->
  exists s' w', async answers s w = Some (Bad_function_call, s', w').
Proof.
  intros Hfit H1 Hr Hne. unfold async, sendInternalWithRetry. rewrite H1. cbn [retry_loop].
  assert (same_call s (set_error SESSION_OK s)) as Hsame by done.
  destruct (sendInternal_spec (answers 0%nat) (Some true) (set_error SESSION_OK s) w) as (s1 & -> & _ & He1); [done|].
  specialize (He1 eq_refl). rewrite (same_error _ _ _ Hsame) in He1. rewrite (same_reaches _ _ _ Hsame).
  change (reaches s _ _) with (reaches_at answers s (w_session_id w) 0). rewrite Hr.
  change (_error_code s1 = error_at answers s (w_session_id w) true 0) in He1. unfold failed.
  destruct (final (_error_code s1)); rewrite He1, bool_decide_false by done; cbn; by eexists _, _.
Qed.

(** With a retry the second attempt has no callback and waits for the response;
    the call succeeds and nobody calls the callback. *)
Lemma async_retry_forgets :
  async write_fails_once sample_session first_world
  = Some (Not_called, set_begin 1000 (set_socket true sample_session),
          mk_world 3 [mk_sent 1 1000 501000 true (Some (abandon_session new_session));
                      mk_sent 2 1000 501000 false (Some new_session)]).
Proof. reflexivity. Qed.

(** A timeout of more than 2147483 ms overflows [_timeout * 1000]. *)
Lemma long_timeout_undefined (a : attempt) (s : Session) (w : world) (callback : option bool) :
  2 ^ 31 <= _timeout s * 1000 -> reaches s (w_session_id w) a = true -> sendInternal a callback s w = None.
Proof.
  intros Ht. assert (forall t, expire_time (_timeout s) t = None) as He.
  { intros t. unfold expire_time. destruct (Z.ltb_spec 0 (_timeout s)); [|lia]. destruct (Z.ltb_spec (_timeout s * 1000) (2 ^ 31)); [lia|done]. }
  unfold reaches, takes_id, assembled, sendInternal. destruct (_protocol s) as [p|]; [|done]. cbv zeta.
  intros [Hs [Hreq Hasm]%andb_true_iff]%andb_true_iff.
  destruct (_channel s); cbn [set_socket set_begin _socket _request _timeout]; rewrite Hs, Hreq, Hasm, He; done.
Qed.

(** ** A request that was not written *)

(** [~Socket]: what is left of the queue goes into the map, then the map is
    reclaimed until it is empty; at most [n] rounds here *)
Fixpoint reclaim_all {D R} (n : nat) (sk : socket D R) : socket D R :=
  match n with
  | O => sk
  | S n => if bool_decide (sk_session_map sk = ∅) then sk else reclaim_all n (tryReclaimSessionMap sk)
  end.

(** A read session that was given up has no sharer, but nobody has upgraded it
    either, so [tryExclusive] fails and it stays in the map. *)
Lemma given_up_stays {D R} (r : read_session D R) :
  r_life r = abandon_session new_session -> exists r', reclaim r = Some r' /\ r_life r' = abandon_session new_session.
Proof. intros Hr. unfold reclaim. rewrite Hr. by eexists. Qed.

(** The destructor of the socket then never ends. *)
Lemma destructor_never_ends {D R} (n : nat) (sk : socket D R) (id : Z) (r : read_session D R) :
  sk_session_map sk !! id = Some r -> r_life r = abandon_session new_session ->
  sk_session_map (reclaim_all n sk) <> ∅.
Proof.
  revert sk r. induction n as [|n IH]; intros sk r Hr Hl; cbn [reclaim_all].
  - intros He. rewrite He in Hr. done.
  - case_bool_decide as He; [rewrite He in Hr; done|]. destruct (given_up_stays r Hl) as (r' & Hr' & Hl').
    apply (IH _ r'); [|done]. cbn. by rewrite lookup_omap, Hr.
Qed.

(** The timer task may have started when the write fails: removing it has no
    effect and the share is released twice. For an asynchronous session the
    notification then leaves no sharer, the session is reclaimed, and the timer
    thread releases a session that is gone. *)
Definition fired : option session := timer_step false new_session.

Fixpoint timer_steps (n : nat) (s : session) : option session :=
  match n with
  | O => Some s
  | S n => match timer_step false s with Some s => timer_steps n s | None => None end
  end.

Lemma write_failure_race :
  match fired with
  | Some s =>
      match timer_steps 5 (abandon_session s) with
      | Some s =>
          match reclaim_step s with
          | Some s => se_alive s = false /\ exists s', timer_step false s = Some s' /\ se_fault s' = true
          | None => False
          end
      | None => False
      end
  | None => False
  end.
Proof. vm_compute. split; [reflexivity|]. eexists. split; reflexivity. Qed.
