(* ===== verification/PipelineSession.v ===== *)
(** * Pipelined sessions (src/session/session.cpp, [PipelineSession::sync])

    A pipeline sends its requests one after the other with [Session::async]
    and waits until all of them have been answered. The callbacks write their
    results into a [ParallelAsyncInfo] and count; the last one sets the
    promise. The callbacks run on the threads of the sockets, on the timer
    thread, and, for a request that fails at once, on the sending thread. *)

From stdpp Require Import relations.
From S2P Require Import Prelude CommonDefines Decimals.

(** Where the callback of a request is: not yet called; about to load, or to
    store, the counter of [++info->received_size]; about to set the promise;
    returned *)
Inductive callback_pc : Set := B_wait | B_load | B_store (n : Z) | B_set | B_done.

#[global] Instance callback_pc_eq_dec : EqDecision callback_pc.
Proof. solve_decision. Defined.

(** [struct ParallelAsyncInfo]; [pa_promise] counts how often the promise was
    set *)
Record ParallelAsyncInfo := mk_info {
  pa_status : list ESessionError;
  pa_received_size : Z;
  pa_total_size : Z;
  pa_promise : nat;
  pa_callbacks : list callback_pc
}.

Definition new_parallel_info (n : nat) : ParallelAsyncInfo :=
  mk_info (replicate n SESSION_OK) 0 (Z.of_nat n) 0 (replicate n B_wait).

Definition set_callback (i : nat) (p : callback_pc) (s : ParallelAsyncInfo) : ParallelAsyncInfo :=
  mk_info (pa_status s) (pa_received_size s) (pa_total_size s) (pa_promise s) (<[i := p]> (pa_callbacks s)).

(** The next access of the callback of request [i], called with [err] *)
Definition callback_step (i : nat) (err : ESessionError) (s : ParallelAsyncInfo) : option ParallelAsyncInfo :=
  match pa_callbacks s !! i with
  | Some B_wait =>
      Some (set_callback i B_load
              (mk_info (<[i := err]> (pa_status s)) (pa_received_size s) (pa_total_size s) (pa_promise s) (pa_callbacks s)))
  | Some B_load => Some (set_callback i (B_store (u64 (pa_received_size s + 1))) s)
  | Some (B_store n) =>
      Some (set_callback i (if n =? pa_total_size s then B_set else B_done)
              (mk_info (pa_status s) n (pa_total_size s) (pa_promise s) (pa_callbacks s)))
  | Some B_set =>
      Some (set_callback i B_done
              (mk_info (pa_status s) (pa_received_size s) (pa_total_size s) (S (pa_promise s)) (pa_callbacks s)))
  | _ => None
  end.

(** The callback, run without the others stepping in *)
Fixpoint callback_run (fuel : nat) (i : nat) (err : ESessionError) (s : ParallelAsyncInfo) : ParallelAsyncInfo :=
  match fuel with
  | O => s
  | S fuel => match callback_step i err s with Some s => callback_run fuel i err s | None => s end
  end.

Definition callback (i : nat) (err : ESessionError) (s : ParallelAsyncInfo) : ParallelAsyncInfo := callback_run 4 i err s.

Definition completions (l : list (nat * ESessionError)) (s : ParallelAsyncInfo) : ParallelAsyncInfo :=
  foldl (fun s c => callback c.1 c.2 s) s l.

(** What [async] does with a request: it is pending, has failed and called the
    callback, or an exception left [async] *)
Inductive sending : Set := Pending | Failed (e : ESessionError) | Thrown.

#[global] Instance sending_eq_dec : EqDecision sending.
Proof. solve_decision. Defined.

(** The loop over the requests; [last] is [_error_code] after it *)
Fixpoint send_all (i : nat) (l : list sending) (last : ESessionError) (s : ParallelAsyncInfo)
    : option (ESessionError * ParallelAsyncInfo) :=
  match l with
  | [] => Some (last, s)
  | Pending :: l => send_all (S i) l SESSION_OK s
  | Failed e :: l => send_all (S i) l e (callback i e s)
  | Thrown :: _ => None
  end.

(** The loop over the results: the text and the error code *)
Fixpoint collect_status (i : nat) (l : list ESessionError) (error : ESessionError) (text : list Z) : ESessionError * list Z :=
  match l with
  | [] => (error, text)
  | e :: l =>
      if bool_decide (e = SESSION_OK) then collect_status (S i) l error text
      else collect_status (S i) l READ_FAIL
             (text ++ bytes_of_string "request[" ++ print_dec (Z.of_nat i) ++ bytes_of_string "] error["
                ++ bytes_of_string (s_session_error_info e) ++ bytes_of_string "] ")
  end.

(** How [PipelineSession::sync] ends *)
Inductive pipeline_end : Type :=
| Returns (error : ESessionError) (text : option (list Z))
| Throws
| Blocks.

(** [PipelineSession::sync]. [later] are the callbacks that run on other
    threads, one at a time; those that run while later requests are still being
    sent are placed after the sending, which makes no difference to what the
    wait finds ([completions_order]); when the promise has not been set then, a timeout ends the wait if there is
    one. The text stays as it was, [None], on the early exits. *)
Definition pipeline_sync (channel : bool) (timeout : Z) (sent : list sending) (later : list (nat * ESessionError))
    : pipeline_end :=
  match sent with
  | [] => Returns SESSION_OK None
  | _ :: _ =>
      if negb channel then Returns PROTOCOL_NOT_FOUND None
      else match send_all 0 sent SESSION_OK (new_parallel_info (length sent)) with
           | None => Throws
           | Some (error, info) =>
               let info := completions later info in
               match pa_promise info with
               | O => if 0 <? timeout then Returns READ_FAIL None else Blocks
               | S _ => let '(error, text) := collect_status 0 (pa_status info) error [] in Returns error (Some text)
               end
           end
  end.

(** ** The callbacks, one at a time *)

(** The callbacks that run while the requests are sent *)
Fixpoint failures (i : nat) (l : list sending) : list (nat * ESessionError) :=
  match l with
  | [] => []
  | Failed e :: l => (i, e) :: failures (S i) l
  | _ :: l => failures (S i) l
  end.

Lemma callback_waiting i err s :
  pa_callbacks s !! i = Some B_wait ->
  let n := u64 (pa_received_size s + 1) in
  callback i err s = mk_info (<[i := err]> (pa_status s)) n (pa_total_size s)
    (if n =? pa_total_size s then S (pa_promise s) else pa_promise s) (<[i := B_done]> (pa_callbacks s)).
Proof.
  intros Hi n. assert (i < length (pa_callbacks s))%nat as Hlt by (by eapply lookup_lt_Some).
  unfold callback. cbn [callback_run]. unfold callback_step at 1. rewrite Hi.
  unfold callback_step at 1. cbn. rewrite list_lookup_insert_eq by done.
  unfold callback_step at 1. cbn. rewrite list_lookup_insert_eq by (by rewrite length_insert).
  fold n. unfold set_callback. cbn. destruct (n =? pa_total_size s).
  - unfold callback_step. cbn. rewrite list_lookup_insert_eq by (by rewrite !length_insert).
    unfold set_callback. cbn. by rewrite !list_insert_insert_eq.
  - unfold callback_step. cbn. rewrite list_lookup_insert_eq by (by rewrite !length_insert).
    by rewrite !list_insert_insert_eq.
Qed.

Definition statuses (st : list ESessionError) (l : list (nat * ESessionError)) : list ESessionError :=
  foldl (fun st c => <[c.1 := c.2]> st) st l.
Definition positions (l : list (nat * ESessionError)) (ps : list callback_pc) : list callback_pc :=
  foldl (fun ps c => <[c.1 := B_done]> ps) ps l.

Lemma positions_waiting l : forall ps i,
  i ∉ l.*1 -> positions l ps !! i = ps !! i.
Proof.
  induction l as [|[j e] l IH]; intros ps i Hi; [done|]. cbn in *. apply not_elem_of_cons in Hi as [Hij Hi].
  change (positions l (<[j := B_done]> ps) !! i = ps !! i). rewrite IH by done. by rewrite list_lookup_insert_ne.
Qed.

Lemma distinct_below n (l : list nat) : NoDup l -> Forall (fun i => i < n)%nat l -> (length l <= n)%nat.
Proof.
  intros Hnd Hlt. rewrite <- (length_seq n 0). apply submseteq_length, NoDup_submseteq; [done|].
  intros x Hx. apply elem_of_seq. rewrite list.Forall_forall in Hlt. specialize (Hlt x Hx). lia.
Qed.

(** After distinct requests have been answered *)
Lemma completions_spec n l :
  NoDup l.*1 -> Forall (fun i => i < n)%nat l.*1 -> (0 < n)%nat -> Z.of_nat n < 2 ^ 64 ->
  completions l (new_parallel_info n) =
    mk_info (statuses (replicate n SESSION_OK) l) (zlen l) (Z.of_nat n) (if zlen l =? Z.of_nat n then 1 else 0)
      (positions l (replicate n B_wait)).
Proof.
  intros Hnd Hlt Hpos Hn. induction l as [|[i e] l IH] using rev_ind.
  - cbn. rewrite (proj2 (Z.eqb_neq _ _)); [done|]. unfold zlen. cbn. lia.
  - pose proof (distinct_below n _ Hnd Hlt) as Hlen. rewrite length_fmap, length_app in Hlen. cbn in Hlen.
    rewrite fmap_app in Hnd, Hlt. apply list.NoDup_app in Hnd as (Hnd & Hni & _). apply Forall_app in Hlt as [Hl Hi].
    cbn in Hni, Hi. apply list.Forall_cons in Hi as [Hi _].
    unfold completions. rewrite foldl_app. cbn [foldl fst snd]. fold (completions l (new_parallel_info n)). rewrite IH by done.
    rewrite callback_waiting; cbn [pa_callbacks pa_status pa_received_size pa_total_size pa_promise].
    2:{ rewrite positions_waiting; [apply lookup_replicate_2; lia|]. intros Hin. apply (Hni i Hin). by left. }
    unfold u64. rewrite Z.mod_small by (unfold zlen; lia).
    unfold statuses, positions. rewrite !foldl_app. cbn [foldl fst snd].
    replace (zlen (l ++ [(i, e)])) with (zlen l + 1) by (unfold zlen; rewrite length_app; cbn; lia).
    f_equal. unfold zlen. destruct (Z.eqb_spec (Z.of_nat (length l)) (Z.of_nat n)); [lia|done].
Qed.

(** The order in which the callbacks run, one at a time, does not matter. *)
Lemma stores_order {A B} (f : A -> B) (l l' : list (nat * A)) :
  l ≡ₚ l' -> NoDup l.*1 ->
  forall st : list B, foldl (fun st c => <[c.1 := f c.2]> st) st l = foldl (fun st c => <[c.1 := f c.2]> st) st l'.
Proof.
  induction 1 as [|c l l' _ IH|c1 c2 l|l1 l2 l3 H12 IH1 _ IH2]; intros Hnd st; cbn in *; [done|..].
  - apply list.NoDup_cons in Hnd as [_ Hnd]. by apply IH.
  - rewrite list_insert_insert_ne; [done|]. apply list.NoDup_cons in Hnd as [Hni _]. intros E. apply Hni. rewrite E. by left.
  - rewrite IH1 by done. apply IH2. by rewrite <- H12.
Qed.

Lemma completions_order n l l' :
  l ≡ₚ l' -> NoDup l.*1 -> Forall (fun i => i < n)%nat l.*1 -> (0 < n)%nat -> Z.of_nat n < 2 ^ 64 ->
  completions l (new_parallel_info n) = completions l' (new_parallel_info n).
Proof.
  intros Hp Hnd Hlt Hpos Hn. rewrite !completions_spec; try done; [|by rewrite <- Hp..].
  unfold zlen. rewrite (Permutation_length Hp). f_equal.
  - by apply (stores_order (fun e => e)).
  - by apply (stores_order (fun _ => B_done)).
Qed.

Lemma statuses_lookup r l : forall st j,
  Forall (fun c => r !! c.1 = Some c.2) l -> length st = length r ->
  statuses st l !! j = if bool_decide (j ∈ l.*1) then r !! j else st !! j.
Proof.
  induction l as [|[i e] l IH]; intros st j Hl Hlen; [done|]. apply list.Forall_cons in Hl as [Hi Hl]. cbn in Hi.
  change (statuses st ((i, e) :: l)) with (statuses (<[i := e]> st) l). rewrite IH by (rewrite ?length_insert; done).
  assert (i < length st)%nat by (rewrite Hlen; by eapply lookup_lt_Some).
  destruct (decide (j ∈ l.*1)) as [Hj|Hj].
  - rewrite !bool_decide_true; [done|by right|done].
  - rewrite (bool_decide_false (j ∈ l.*1)) by done. destruct (decide (i = j)) as [<-|Hne].
    + rewrite list_lookup_insert_eq by done. rewrite bool_decide_true; [done|by left].
    + rewrite list_lookup_insert_ne by done. rewrite bool_decide_false; [done|]. by intros [->|]%elem_of_cons.
Qed.

(** The callbacks of the requests, each once, in any order *)
Definition answers_of (r : list ESessionError) (l : list (nat * ESessionError)) : Prop := l ≡ₚ imap pair r.

Lemma answers_facts r l :
  answers_of r l ->
  NoDup l.*1 /\ Forall (fun i => i < length r)%nat l.*1 /\ Forall (fun c => r !! c.1 = Some c.2) l /\ length l = length r
  /\ forall j, (j < length r)%nat -> j ∈ l.*1.
Proof.
  intros Hp. assert (l.*1 ≡ₚ seq 0 (length r)) as Hseq.
  { rewrite Hp, fmap_imap. trans (imap (fun j _ => id j) r); [done|]. by rewrite imap_seq_0, list_fmap_id. }
  split_and!.
  - rewrite Hseq. apply NoDup_seq.
  - rewrite Hseq. apply list.Forall_forall. intros i Hi%elem_of_seq. lia.
  - rewrite Hp. apply list.Forall_forall. intros [i e] Hin. apply elem_of_lookup_imap in Hin as (j & x & [= -> ->] & Hx). done.
  - rewrite Hp. apply length_imap.
  - intros j Hj. rewrite Hseq. apply elem_of_seq. lia.
Qed.

Lemma all_answered r l :
  answers_of r l -> r <> [] -> Z.of_nat (length r) < 2 ^ 64 ->
  pa_status (completions l (new_parallel_info (length r))) = r /\ pa_promise (completions l (new_parallel_info (length r))) = 1%nat.
Proof.
  intros Hr Hne Hlen. destruct (answers_facts r l Hr) as (Hnd & Hlt & Hval & Hl & Hall).
  assert (0 < length r)%nat by (destruct r; cbn; [done|lia]).
  rewrite completions_spec by done. cbn [pa_status pa_promise]. unfold zlen. rewrite Hl, Z.eqb_refl. split; [|done].
  apply list_eq. intros j. rewrite (statuses_lookup r) by (rewrite ?length_replicate; done). case_bool_decide as Hj; [done|].
  assert (length r <= j)%nat by (apply Nat.nlt_ge; intros Hjl; by apply Hj, Hall).
  by rewrite !lookup_ge_None_2 by (rewrite ?length_replicate; lia).
Qed.

(** ... and before the last one the promise is not set. *)
Lemma not_all_answered r l l' :
  answers_of r (l ++ l') -> l' <> [] -> Z.of_nat (length r) < 2 ^ 64 ->
  pa_promise (completions l (new_parallel_info (length r))) = 0%nat.
Proof.
  intros Hr Hne Hlen. destruct (answers_facts r _ Hr) as (Hnd & Hlt & _ & Hl & _).
  rewrite fmap_app in Hnd, Hlt. apply list.NoDup_app in Hnd as (Hnd & _). apply Forall_app in Hlt as [Hlt _].
  rewrite length_app in Hl. assert (0 < length l')%nat by (destruct l'; cbn; [done|lia]).
  rewrite completions_spec; [cbn|done|done|lia|done].
  unfold zlen. rewrite (proj2 (Z.eqb_neq _ _)) by lia. done.
Qed.

(** ** The pipeline *)

Lemma send_all_spec l : forall i last s,
  Thrown ∉ l ->
  exists last', send_all i l last s = Some (last', completions (failures i l) s)
    /\ (last' = last \/ last' = SESSION_OK \/ exists j, (j, last') ∈ failures i l).
Proof.
  induction l as [|x l IH]; intros i last s Hno; [by eexists; split; [|left]|].
  apply not_elem_of_cons in Hno as [Hx Hno]. destruct x as [|e|]; [| |done]; cbn [send_all failures].
  - destruct (IH (S i) SESSION_OK s Hno) as (last' & -> & Hl). exists last'. split; [done|]. intuition.
  - destruct (IH (S i) e (callback i e s) Hno) as (last' & -> & Hl). exists last'. split; [done|].
    destruct Hl as [->|[->|[j Hj]]]; [|by right; left|]; right; right; [exists i; by left|exists j; by right].
Qed.

(** What the text says of one request *)
Definition request_text (i : nat) (e : ESessionError) : list Z :=
  if bool_decide (e = SESSION_OK) then []
  else bytes_of_string "request[" ++ print_dec (Z.of_nat i) ++ bytes_of_string "] error["
         ++ bytes_of_string (s_session_error_info e) ++ bytes_of_string "] ".

Definition pipeline_error (r : list ESessionError) : ESessionError :=
  if bool_decide (Forall (fun e => e = SESSION_OK) r) then SESSION_OK else READ_FAIL.

Lemma collect_status_spec l : forall i error text,
  (Forall (fun e => e = SESSION_OK) l -> error = SESSION_OK) \/ error = READ_FAIL ->
  collect_status i l error text =
    (if bool_decide (Forall (fun e => e = SESSION_OK) l) then error else READ_FAIL,
     text ++ concat (imap (fun j e => request_text (i + j) e) l)).
Proof.
  induction l as [|e l IH]; intros i error text Herr; cbn [collect_status imap concat].
  - by rewrite app_nil_r.
  - rewrite Nat.add_0_r. unfold request_text at 1.
    assert (imap ((fun j e => request_text (i + j) e) ∘ S) l = imap (fun j e => request_text (S i + j) e) l) as Hshift.
    { apply imap_ext. intros j x _. cbn. by rewrite Nat.add_succ_r. }
    rewrite Hshift. destruct (decide (e = SESSION_OK)) as [He|He];
      [rewrite !(bool_decide_true (e = SESSION_OK)) by done|rewrite !(bool_decide_false (e = SESSION_OK)) by done].
    + rewrite IH by (destruct Herr as [Herr|]; [left; intros Hl; apply Herr, list.Forall_cons; by split|by right]). cbn [app]. f_equal.
      rewrite (bool_decide_ext (Forall (fun e => e = SESSION_OK) (e :: l)) (Forall (fun e => e = SESSION_OK) l)); [done|].
      rewrite list.Forall_cons. tauto.
    + rewrite IH by (by right). rewrite <- !app_assoc. f_equal.
      rewrite (bool_decide_false (Forall _ (e :: l))) by (by intros [? _]%list.Forall_cons). by case_bool_decide.
Qed.

(** C34: a pipeline collects the results of its requests. When every request is
    answered once, while the requests are sent or later, in any order, one
    callback at a time, [sync] returns, with the error [READ_FAIL] exactly when
    some request failed, and a text that names the failed requests with their
    errors, in the order of the requests. While a request is not answered it
    waits: the timeout ends it with [READ_FAIL], and without one it blocks. *)
Theorem pipeline_collects (timeout : Z) (r : list ESessionError) (sent : list sending)
    (later : list (nat * ESessionError)) :
  r <> [] -> Z.of_nat (length r) < 2 ^ 64 -> length sent = length r -> Thrown ∉ sent ->
  answers_of r (failures 0 sent ++ later) ->
  pipeline_sync true timeout sent later = Returns (pipeline_error r) (Some (concat (imap request_text r)))
  /\ (forall l l', later = l ++ l' -> l' <> [] ->
        pipeline_sync true timeout sent l = if 0 <? timeout then Returns READ_FAIL None else Blocks).
Proof.
  intros Hne Hlen Hsent Hno Hr.
  destruct (send_all_spec sent 0 SESSION_OK (new_parallel_info (length sent)) Hno) as (last & Hsend & Hlast).
  assert (forall l, completions l (completions (failures 0 sent) (new_parallel_info (length sent)))
            = completions (failures 0 sent ++ l) (new_parallel_info (length r))) as Happ
    by (intros l; unfold completions; by rewrite foldl_app, Hsent).
  assert (forall l, pipeline_sync true timeout sent l =
            match pa_promise (completions (failures 0 sent ++ l) (new_parallel_info (length r))) with
            | O => if 0 <? timeout then Returns READ_FAIL None else Blocks
            | S _ => let '(error, text) := collect_status 0 (pa_status (completions (failures 0 sent ++ l) (new_parallel_info (length r)))) last [] in
                     Returns error (Some text)
            end) as Hsync.
  { intros l. unfold pipeline_sync. rewrite Hsend. cbv zeta. rewrite Happ. destruct sent; [by destruct r|done]. }
  split.
  - rewrite Hsync. destruct (all_answered _ _ Hr Hne Hlen) as [-> ->].
    assert (Forall (fun e => e = SESSION_OK) r -> last = SESSION_OK) as Hok.
    { intros Hall. destruct Hlast as [->|[->|[j Hj]]]; [done|done|].
      destruct (answers_facts _ _ Hr) as (_ & _ & Hval & _). apply Forall_app in Hval as [Hval _].
      rewrite list.Forall_forall in Hval. specialize (Hval _ Hj). cbn in Hval.
      rewrite list.Forall_forall in Hall. apply Hall. by eapply list_elem_of_lookup_2. }
    rewrite collect_status_spec by (by left). cbn [app]. unfold pipeline_error. f_equal. case_bool_decide; auto.
  - intros l l' -> Hl'. rewrite Hsync. rewrite app_assoc in Hr. by rewrite (not_all_answered _ _ _ Hr Hl' Hlen).
Qed.

(** Three requests: the second cannot be sent, the third is answered before the
    first and has timed out. *)
Lemma pipeline_collects_witness :
  pipeline_sync true 500 [Pending; Failed SOCKET_LOST; Pending] [(2%nat, READ_TIMEOUT); (0%nat, SESSION_OK)]
  = Returns READ_FAIL (Some (bytes_of_string "request[1] error[socket object lost] request[2] error[read data timeout] ")).
Proof.
  refine (proj1 (pipeline_collects 500 [SESSION_OK; SOCKET_LOST; READ_TIMEOUT] _ _ _ _ _ _ _)).
  - discriminate.
  - reflexivity.
  - reflexivity.
  - apply (bool_decide_unpack _). vm_compute. exact I.
  - unfold answers_of. cbn. apply perm_trans with [(1%nat, SOCKET_LOST); (0%nat, SESSION_OK); (2%nat, READ_TIMEOUT)].
    + apply perm_skip, perm_swap.
    + apply perm_swap.
Defined.

(** ** Callbacks that interleave *)

Definition interleaved (l : list (nat * ESessionError)) (s : ParallelAsyncInfo) : option ParallelAsyncInfo :=
  foldl (fun s c => match s with Some s => callback_step c.1 c.2 s | None => None end) (Some s) l.

(** [received_size] is not atomic: two callbacks on two threads count as one,
    and the promise is never set although both requests were answered. *)
Lemma pipeline_lost_update :
  interleaved [(0%nat, SESSION_OK); (1%nat, SESSION_OK); (0%nat, SESSION_OK); (1%nat, SESSION_OK);
               (0%nat, SESSION_OK); (1%nat, SESSION_OK)] (new_parallel_info 2)
  = Some (mk_info [SESSION_OK; SESSION_OK] 1 2 0 [B_done; B_done]).
Proof. reflexivity. Qed.
