(* ===== verification/Pipeline.v ===== *)
(** * The object of a pipeline (include/session/session.h, [PipelineSession])

    The class around [PipelineSession::sync]: its setters, the lists of
    requests and responses, and the text of its errors. *)

From stdpp Require Import relations.
From S2P Require Import Prelude CommonDefines SendSession PipelineSession.

(** ** The object *)

Section Pipeline_object.
(** Pointers to requests and responses *)
Context {R P : Type}.

(** [class PipelineSession]; [ps_channel] are the options of [_channel]. *)
Record PipelineSession := mk_PipelineSession {
  ps_requests : list R;
  ps_responses : list P;
  ps_session : Session;
  ps_channel : option SessionOptions;
  ps_additional_err_text : list Z
}.

Definition new_PipelineSession : PipelineSession := mk_PipelineSession [] [] new_Session None [].

Definition pipeline_to (c : SessionOptions) (p : PipelineSession) : PipelineSession :=
  mk_PipelineSession (ps_requests p) (ps_responses p) (ps_session p) (Some c) (ps_additional_err_text p).

Definition pipeline_timeout (t : Z) (p : PipelineSession) : PipelineSession :=
  mk_PipelineSession (ps_requests p) (ps_responses p) (set_timeout t (ps_session p)) (ps_channel p) (ps_additional_err_text p).

(** [reserve]: only the capacity of the vectors changes. *)
Definition pipeline_reserve (size : Z) (p : PipelineSession) : PipelineSession := p.

Definition pipe (req : R) (rsp : P) (p : PipelineSession) : PipelineSession :=
  mk_PipelineSession (ps_requests p ++ [req]) (ps_responses p ++ [rsp]) (ps_session p) (ps_channel p) (ps_additional_err_text p).

Definition pipeline_failed (p : PipelineSession) : bool := failed (ps_session p).

Definition pipeline_getErrText (p : PipelineSession) : list Z :=
  bytes_of_string (s_session_error_info (_error_code (ps_session p))) ++ ps_additional_err_text p.

(** [_session] before each request: [reset], [send], [to], [receiveTo] *)
Definition pipeline_request (c : SessionOptions) (s : Session) : Session :=
  receiveTo (to_channel c (send (reset_session s))).

(** [sync] of the object: [sent] is how the sending of each request went. Of
    what [async] leaves in [_session] only the error matters, which [sync]
    sets. *)
Definition pipeline_call (sent : list sending) (later : list (nat * ESessionError)) (p : PipelineSession)
    : option PipelineSession :=
  let s := match ps_channel p with Some c => foldl (fun s _ => pipeline_request c s) (ps_session p) (ps_requests p)
           | None => ps_session p end in
  match pipeline_sync (bool_decide (is_Some (ps_channel p))) (_timeout s) sent later with
  | Returns e text =>
      Some (mk_PipelineSession (ps_requests p) (ps_responses p) (set_error e s) (ps_channel p)
              (default (ps_additional_err_text p) text))
  | _ => None
  end.

(** What a client may do to the object *)
Inductive pipeline_use : PipelineSession -> PipelineSession -> Prop :=
| Use_to c p : pipeline_use p (pipeline_to c p)
| Use_timeout t p : pipeline_use p (pipeline_timeout t p)
| Use_reserve n p : pipeline_use p (pipeline_reserve n p)
| Use_pipe req rsp p : pipeline_use p (pipe req rsp p)
| Use_sync sent later p p' : length sent = length (ps_requests p) -> pipeline_call sent later p = Some p' -> pipeline_use p p'.

(** [_responses[i]] is there for every request, so the loop of [sync] stays
    within the vector. *)
Lemma pipeline_paired p : rtc pipeline_use new_PipelineSession p -> length (ps_requests p) = length (ps_responses p).
Proof.
  intros Hr. remember new_PipelineSession as p0 eqn:H0. assert (length (ps_requests p0) = length (ps_responses p0)) as Hl
    by by rewrite H0. clear H0. induction Hr as [p|p p1 p2 Hu _ IH]; [done|]. apply IH.
  destruct Hu as [c p|t p|n p|req rsp p|sent later p p' _ Hc]; cbn; [done..| |].
  - by rewrite !length_app, Hl.
  - unfold pipeline_call in Hc. destruct (pipeline_sync _ _ _ _); [|done..]. by injection Hc as <-.
Qed.

End Pipeline_object.

(** A text that is left over: when a second [sync] times out, [getErrText]
    still tells which requests failed in the first one. *)
Lemma pipeline_stale_text :
  let c := mk_SessionOptions 500 3 None in
  let p := pipeline_to c (pipe tt tt new_PipelineSession) in
  match pipeline_call [Failed SOCKET_LOST] [] p with
  | Some p =>
      match pipeline_call [Pending] [] p with
      | Some p => pipeline_getErrText p
                  = bytes_of_string "read data from remote failrequest[0] error[socket object lost] "
      | None => False
      end
  | None => False
  end.
Proof. vm_compute. reflexivity. Qed.
