(* ===== verification/IntrusiveList.v ===== *)
(** * The intrusive list (include/common/intrusive_list.h)

    [IntrusiveList]: a doubly linked list of nodes the caller owns, between a
    header and a tail node, with lock-free [push_front], [push_back], [remove],
    [pop_front] and [pop_back]. An operation is a sequence of accesses to the
    pointers of the nodes, one step each. Run alone, each operation does what it
    does on a list ([call_spec]); interleaved, a node that is pushed once is
    handed out at most once. *)

From stdpp Require Import gmap relations.
From S2P Require Import Prelude.

(** ** Nodes *)

(** Nodes are addresses; a null pointer is a missing entry. *)
Definition _header : nat := 0.
Definition _tail : nat := 1.

Record links := mk_links { l_prev : gmap nat nat; l_next : gmap nat nat; l_size : Z }.

Definition set_prev (k : nat) (v : option nat) (l : links) : links :=
  mk_links (partial_alter (fun _ => v) k (l_prev l)) (l_next l) (l_size l).
Definition set_next (k : nat) (v : option nat) (l : links) : links :=
  mk_links (l_prev l) (partial_alter (fun _ => v) k (l_next l)) (l_size l).
Definition set_size (n : Z) (l : links) : links := mk_links (l_prev l) (l_next l) (u64 n).

(** [compare_exchange_strong] on [k->prev] and [k->next] *)
Definition cas_prev (k : nat) (expect value : option nat) (l : links) : bool * links :=
  if decide (l_prev l !! k = expect) then (true, set_prev k value l) else (false, l).
Definition cas_next (k : nat) (expect value : option nat) (l : links) : bool * links :=
  if decide (l_next l !! k = expect) then (true, set_next k value l) else (false, l).

(** [IntrusiveList()] *)
Definition new_list : links := mk_links {[ _tail := _header ]} {[ _header := _tail ]} 0.

(** ** Operations *)

Inductive list_op : Set :=
| Push_front (cur : option nat)
| Push_back (cur : option nat)
| Remove (p : nat)
| Pop_front
| Pop_back.

Inductive list_answer : Set :=
| Done
| Removed (ret : bool)
| Popped (p : option nat).

(** Where an operation is: the loops of [push_front] and [push_back], the steps
    of [insert_once], the loads of [remove], [pop_front] and [pop_back], and the
    steps of [remove_once] with the accesses that undo them *)
Inductive list_pc : Set :=
| L_push (cur : nat)
| L_load (cur : nat)
| L_is1 (prev next cur : nat)
| L_claim (prev next cur : nat)
| L_store (prev next cur : nat)
| L_is2 (prev next cur : nat)
| L_undo_next (prev next cur : nat)
| L_undo_prev (prev next cur : nat)
| L_is3 (prev next cur : nat)
| L_inserted
| L_prev (p : nat)
| L_next (p : nat) (prev : option nat)
| L_front
| L_front_next (cur : nat)
| L_back
| L_back_prev (cur : nat)
| L_rs1 (prev next cur : nat)
| L_rs2 (prev next cur : nat)
| L_rs3 (prev next cur : nat)
| L_rs4 (prev next cur : nat)
| L_rs4_undo (prev next cur : nat)
| L_rs5 (prev next cur : nat)
| L_rs5_undo_prev (prev next cur : nat)
| L_rs5_undo_next (prev next cur : nat)
| L_rs6 (prev next cur : nat)
| L_removed (cur : nat).

(** The head of the operation's [while (true)] *)
Definition retry (op : list_op) (cur : nat) : list_pc :=
  match op with
  | Push_front _ | Push_back _ => L_push cur
  | Remove p => L_prev p
  | Pop_front => L_front
  | Pop_back => L_back
  end.

Definition start (op : list_op) : list_pc + list_answer :=
  match op with
  | Push_front None | Push_back None => inr Done
  | Push_front (Some cur) | Push_back (Some cur) => inl (L_push cur)
  | Remove p => inl (L_prev p)
  | Pop_front => inl L_front
  | Pop_back => inl L_back
  end.

(** The next access; a pointer that is null where the code follows it is
    [None]. *)
Definition list_step (op : list_op) (pc : list_pc) (l : links) : option (links * (list_pc + list_answer)) :=
  let goto l pc := Some (l, inl pc) in
  match pc with
  | L_push cur => match l_prev l !! cur with Some _ => Some (l, inr Done) | None => goto l (L_load cur) end
  | L_load cur =>
      match op with
      | Push_back _ => match l_prev l !! _tail with Some prev => goto l (L_is1 prev _tail cur) | None => None end
      | _ => match l_next l !! _header with Some next => goto l (L_is1 _header next cur) | None => None end
      end
  | L_is1 prev next cur =>
      goto l (if decide (l_prev l !! next = Some prev) then L_claim prev next cur else retry op cur)
  | L_claim prev next cur =>
      let '(ok, l) := cas_prev cur None (Some prev) l in
      goto l (if ok then L_store prev next cur else retry op cur)
  | L_store prev next cur => goto (set_next cur (Some next) l) (L_is2 prev next cur)
  | L_is2 prev next cur =>
      let '(ok, l) := cas_next prev (Some next) (Some cur) l in
      goto l (if ok then L_is3 prev next cur else L_undo_next prev next cur)
  | L_undo_next prev next cur =>
      let '(_, l) := cas_next cur (Some next) None l in goto l (L_undo_prev prev next cur)
  | L_undo_prev prev next cur =>
      let '(_, l) := cas_prev cur (Some prev) None l in goto l (retry op cur)
  | L_is3 prev next cur =>
      let '(ok, l) := cas_prev next (Some prev) (Some cur) l in
      goto l (if ok then L_inserted else L_is3 prev next cur)
  | L_inserted => Some (set_size (l_size l + 1) l, inr Done)
  | L_prev p => goto l (L_next p (l_prev l !! p))
  | L_next p prev =>
      match prev, l_next l !! p with
      | Some prev, Some next => goto l (L_rs1 prev next p)
      | _, _ => Some (l, inr (Removed false))
      end
  | L_front =>
      match l_next l !! _header with
      | Some cur => if decide (cur = _tail) then Some (l, inr (Popped None)) else goto l (L_front_next cur)
      | None => None
      end
  | L_front_next cur =>
      goto l (match l_next l !! cur with Some next => L_rs1 _header next cur | None => L_front end)
  | L_back =>
      match l_prev l !! _tail with
      | Some cur => if decide (cur = _header) then Some (l, inr (Popped None)) else goto l (L_back_prev cur)
      | None => None
      end
  | L_back_prev cur =>
      goto l (match l_prev l !! cur with Some prev => L_rs1 prev _tail cur | None => L_back end)
  | L_rs1 prev next cur =>
      goto l (if decide (l_prev l !! next = Some cur) then L_rs2 prev next cur else retry op cur)
  | L_rs2 prev next cur =>
      goto l (if decide (l_next l !! prev = Some cur) then L_rs3 prev next cur else retry op cur)
  | L_rs3 prev next cur =>
      let '(ok, l) := cas_prev cur (Some prev) None l in
      goto l (if ok then L_rs4 prev next cur else retry op cur)
  | L_rs4 prev next cur =>
      let '(ok, l) := cas_next cur (Some next) None l in
      goto l (if ok then L_rs5 prev next cur else L_rs4_undo prev next cur)
  | L_rs4_undo prev next cur =>
      let '(_, l) := cas_prev cur None (Some prev) l in goto l (retry op cur)
  | L_rs5 prev next cur =>
      let '(ok, l) := cas_next prev (Some cur) (Some next) l in
      goto l (if ok then L_rs6 prev next cur else L_rs5_undo_prev prev next cur)
  | L_rs5_undo_prev prev next cur =>
      let '(_, l) := cas_prev cur None (Some prev) l in goto l (L_rs5_undo_next prev next cur)
  | L_rs5_undo_next prev next cur =>
      let '(_, l) := cas_next cur None (Some next) l in goto l (retry op cur)
  | L_rs6 prev next cur =>
      let '(ok, l) := cas_prev next (Some cur) (Some prev) l in
      goto l (if ok then L_removed cur else L_rs6 prev next cur)
  | L_removed cur =>
      Some (set_size (l_size l - 1) l,
            inr (match op with Remove _ => Removed true | _ => Popped (Some cur) end))
  end.

(** ** An operation run alone *)

Fixpoint list_run (fuel : nat) (op : list_op) (pc : list_pc) (l : links) : option (links * list_answer) :=
  match fuel with
  | O => None
  | S fuel =>
      match list_step op pc l with
      | Some (l, inl pc) => list_run fuel op pc l
      | Some (l, inr a) => Some (l, a)
      | None => None
      end
  end.

Lemma list_run_S fuel op pc l :
  list_run (S fuel) op pc l =
    match list_step op pc l with
    | Some (l, inl pc) => list_run fuel op pc l
    | Some (l, inr a) => Some (l, a)
    | None => None
    end.
Proof. done. Qed.

(** No operation has more than nine accesses when nothing else happens. *)
Definition list_call (op : list_op) (l : links) : option (links * list_answer) :=
  match start op with
  | inr a => Some (l, a)
  | inl pc => list_run 9 op pc l
  end.

(** [clear()]: the list is emptied from the front; the nodes keep their
    pointers. *)
Fixpoint clear_loop (fuel : nat) (cur : nat) (l : links) : option links :=
  match fuel with
  | O => None
  | S fuel =>
      if decide (cur = _tail) then Some (set_size 0 l)
      else match l_next l !! cur with
           | None => None
           | Some next => clear_loop fuel next (set_prev next (Some _header) (set_next _header (Some next) l))
           end
  end.

Definition clear_list (fuel : nat) (l : links) : option links :=
  match l_next l !! _header with Some cur => clear_loop fuel cur l | None => None end.

(** ** Lists and links *)

(** Neighbours point to each other. *)
Fixpoint chained (l : links) (ys : list nat) : Prop :=
  match ys with
  | a :: (b :: _) as ys' => l_next l !! a = Some b /\ l_prev l !! b = Some a /\ chained l ys'
  | _ => True
  end.

Lemma chained_cons l a b ys :
  chained l (a :: b :: ys) <-> l_next l !! a = Some b /\ l_prev l !! b = Some a /\ chained l (b :: ys).
Proof. done. Qed.

Lemma linked_app l A p B : chained l (A ++ p :: B) <-> chained l (A ++ [p]) /\ chained l (p :: B).
Proof.
  induction A as [|a A IH]; [cbn; tauto|]. destruct A as [|b A]; [cbn; tauto|].
  cbn [app] in *. rewrite !chained_cons. tauto.
Qed.

(** Only the first of two neighbours' [next] and the second's [prev] matter. *)
Lemma linked_frame l l' ys :
  (forall A a b B, ys = A ++ a :: b :: B -> l_next l' !! a = l_next l !! a /\ l_prev l' !! b = l_prev l !! b) ->
  chained l ys -> chained l' ys.
Proof.
  induction ys as [|a ys IH]; [done|]. destruct ys as [|b ys]; [done|]. intros Hf. rewrite !chained_cons.
  intros (Hn & Hp & Hl). destruct (Hf [] a b ys eq_refl) as [-> ->]. split_and!; [done|done|].
  apply IH; [|done]. intros A c d B Heq. apply (Hf (a :: A) c d B). cbn. by rewrite Heq.
Qed.

(** The list a header and a tail enclose, every other pointer null *)
Record list_ok (l : links) (xs : list nat) : Prop := {
  lk_nodup : NoDup (_header :: xs ++ [_tail]);
  lk_linked : chained l (_header :: xs ++ [_tail]);
  lk_prev : forall k, k ∉ xs ++ [_tail] -> l_prev l !! k = None;
  lk_next : forall k, k ∉ _header :: xs -> l_next l !! k = None;
  lk_size : l_size l = u64 (zlen xs)
}.

Lemma new_list_ok : list_ok new_list [].
Proof.
  split; try done.
  - apply (bool_decide_unpack _). exact I.
  - intros k Hk. apply lookup_singleton_None. intros <-. apply Hk. by left.
  - intros k Hk. apply lookup_singleton_None. intros <-. apply Hk. by left.
Qed.

Lemma lookup_set_prev k v l j : l_prev (set_prev k v l) !! j = if decide (j = k) then v else l_prev l !! j.
Proof. cbn. case_decide; [subst; apply lookup_partial_alter_eq|by apply lookup_partial_alter_ne]. Qed.
Lemma lookup_set_next k v l j : l_next (set_next k v l) !! j = if decide (j = k) then v else l_next l !! j.
Proof. cbn. case_decide; [subst; apply lookup_partial_alter_eq|by apply lookup_partial_alter_ne]. Qed.
Lemma next_set_prev k v l : l_next (set_prev k v l) = l_next l. Proof. done. Qed.
Lemma prev_set_next k v l : l_prev (set_next k v l) = l_prev l. Proof. done. Qed.
Lemma next_set_size n l : l_next (set_size n l) = l_next l. Proof. done. Qed.
Lemma prev_set_size n l : l_prev (set_size n l) = l_prev l. Proof. done. Qed.

Lemma cas_prev_ok k e v l : l_prev l !! k = e -> cas_prev k e v l = (true, set_prev k v l).
Proof. unfold cas_prev. intros. by rewrite decide_True. Qed.
Lemma cas_next_ok k e v l : l_next l !! k = e -> cas_next k e v l = (true, set_next k v l).
Proof. unfold cas_next. intros. by rewrite decide_True. Qed.

Create Rewrite HintDb links.
#[global] Hint Rewrite lookup_set_prev lookup_set_next next_set_prev prev_set_next next_set_size prev_set_size : links.

(** ** [insert_once] and [remove_once] *)

Definition inserted (prev next cur : nat) (l : links) : links :=
  set_size (l_size l + 1)
    (set_prev next (Some cur) (set_next prev (Some cur) (set_next cur (Some next) (set_prev cur (Some prev) l)))).

Definition unlinked (prev next cur : nat) (l : links) : links :=
  set_size (l_size l - 1)
    (set_prev next (Some prev) (set_next prev (Some next) (set_next cur None (set_prev cur None l)))).

Lemma insert_once op prev next cur l fuel :
  l_prev l !! next = Some prev -> l_next l !! prev = Some next -> l_prev l !! cur = None -> prev <> cur -> next <> cur ->
  list_run (6 + fuel) op (L_is1 prev next cur) l = Some (inserted prev next cur l, Done).
Proof.
  intros Hp Hn Hc Hpc Hnc. cbn [list_run Nat.add list_step]. rewrite decide_True by done. cbn [list_run list_step].
  rewrite cas_prev_ok by done. cbn [list_run list_step].
  rewrite cas_next_ok by (autorewrite with links; by rewrite decide_False). cbn [list_run list_step].
  rewrite cas_prev_ok by (autorewrite with links; by rewrite decide_False). done.
Qed.

Lemma remove_once op prev next cur l fuel :
  l_prev l !! next = Some cur -> l_next l !! prev = Some cur -> l_prev l !! cur = Some prev -> l_next l !! cur = Some next ->
  prev <> cur -> next <> cur ->
  list_run (7 + fuel) op (L_rs1 prev next cur) l
  = Some (unlinked prev next cur l, match op with Remove _ => Removed true | _ => Popped (Some cur) end).
Proof.
  intros Hp Hn Hcp Hcn Hpc Hnc. cbn [list_run Nat.add list_step]. rewrite decide_True by done. cbn [list_run list_step].
  rewrite decide_True by done. cbn [list_run list_step].
  rewrite cas_prev_ok by done. cbn [list_run list_step]. rewrite cas_next_ok by done. cbn [list_run list_step].
  rewrite cas_next_ok by (autorewrite with links; by rewrite decide_False). cbn [list_run list_step].
  rewrite cas_prev_ok by (autorewrite with links; by rewrite decide_False). done.
Qed.

(** ** What they do to the list *)

(** The neighbours of the gap between [A] and [B] *)
Definition before_node (A : list nat) : nat := List.last A _header.
Definition after (B : list nat) : nat := List.hd _tail B.

Lemma before_split A : exists C, _header :: A = C ++ [before_node A].
Proof.
  unfold before_node. destruct A as [|x A _] using rev_ind; [by exists []|]. exists (_header :: A). by rewrite List.last_last.
Qed.

Lemma after_split B : exists D, B ++ [_tail] = after B :: D.
Proof. destruct B as [|x B]; [by exists []|by exists (B ++ [_tail])]. Qed.

(** The whole chain, cut at the gap *)
Lemma gap A B : exists C D, _header :: (A ++ B) ++ [_tail] = C ++ before_node A :: after B :: D
  /\ _header :: A = C ++ [before_node A] /\ B ++ [_tail] = after B :: D.
Proof.
  destruct (before_split A) as [C HC], (after_split B) as [D HD]. exists C, D. split_and!; [|done|done].
  rewrite <- app_assoc, HD. change (_header :: A ++ after B :: D) with ((_header :: A) ++ after B :: D).
  by rewrite HC, <- app_assoc.
Qed.

Lemma gap_linked l A B :
  list_ok l (A ++ B) -> l_next l !! before_node A = Some (after B) /\ l_prev l !! after B = Some (before_node A).
Proof.
  intros [_ Hl _ _ _]. destruct (gap A B) as (C & D & Heq & _ & _). rewrite Heq, linked_app, chained_cons in Hl. tauto.
Qed.

(** No pair of neighbours inside [C ++ [p]] or [n :: D] is the pair at the gap. *)
Lemma NoDup_cut (C : list nat) p n D :
  NoDup (C ++ p :: n :: D) ->
  (forall A a b B, C ++ [p] = A ++ a :: b :: B -> a <> p /\ a <> n /\ b <> n)
  /\ (forall A a b B, n :: D = A ++ a :: b :: B -> a <> p /\ b <> n /\ b <> p).
Proof.
  intros Hnd. split; intros A a b B Heq.
  - assert (C ++ p :: n :: D = A ++ a :: b :: B ++ n :: D) as Hall.
    { change (p :: n :: D) with ([p] ++ n :: D). rewrite app_assoc, Heq. by rewrite <- app_assoc. }
    rewrite Hall in Hnd. apply list.NoDup_app in Hnd as (_ & _ & Hnd). apply list.NoDup_cons in Hnd as [Ha Hnd].
    apply list.NoDup_cons in Hnd as [Hb _].
    split_and!; [|intros ->; apply Ha; right; apply elem_of_app; right; by left|intros ->; apply Hb, elem_of_app; right; by left].
    intros ->. assert (p ∈ b :: B) as Hin.
    { destruct (exists_last (l := b :: B)) as (B' & y & HB); [done|]. rewrite HB in *.
      rewrite app_comm_cons, app_assoc in Heq. apply app_inj_tail in Heq as [_ ->]. apply elem_of_app. right. by left. }
    apply Ha. apply elem_of_cons in Hin as [->|Hin]; [by left|]. right. apply elem_of_app. by left.
  - apply list.NoDup_app in Hnd as (_ & _ & Hnd). apply list.NoDup_cons in Hnd as [Hp Hnd]. rewrite Heq in Hp.
    destruct A as [|n' A]; cbn in Heq; injection Heq as <- ->.
    + apply list.NoDup_cons in Hnd as [Hn Hnd]. split_and!.
      * intros ->. apply Hp. by left.
      * intros ->. apply Hn. by left.
      * intros ->. apply Hp. right. by left.
    + apply list.NoDup_cons in Hnd as [Hn Hnd]. split_and!.
      * intros ->. apply Hp. right. apply elem_of_app. right. by left.
      * intros ->. apply Hn. apply elem_of_app. right. right. by left.
      * intros ->. apply Hp. right. apply elem_of_app. right. right. by left.
Qed.

(** Membership in lists given by their parts *)
Ltac list_mem :=
  repeat (rewrite ?not_elem_of_app, ?not_elem_of_cons, ?elem_of_app, ?elem_of_cons, ?elem_of_nil in * );
  intuition congruence.

Lemma before_in A : before_node A ∈ _header :: A.
Proof. destruct (before_split A) as [C ->]. list_mem. Qed.
Lemma after_in B : after B ∈ B ++ [_tail].
Proof. destruct (after_split B) as [D ->]. list_mem. Qed.

Lemma insert_ok l A B cur :
  list_ok l (A ++ B) -> cur ∉ _header :: (A ++ B) ++ [_tail] -> list_ok (inserted (before_node A) (after B) cur l) (A ++ cur :: B).
Proof.
  intros Hok Hcur. pose proof (gap_linked l A B Hok) as [Hn Hp]. destruct Hok as [Hnd Hl Hprev Hnext Hsize].
  destruct (gap A B) as (C & D & Heq & HC & HD). pose proof (before_in A) as HbA. pose proof (after_in B) as HaB.
  assert (_header :: (A ++ cur :: B) ++ [_tail] = C ++ before_node A :: cur :: after B :: D) as Heq'.
  { rewrite <- app_assoc. cbn [app]. rewrite HD. change (_header :: A ++ cur :: after B :: D) with ((_header :: A) ++ cur :: after B :: D).
    by rewrite HC, <- app_assoc. }
  rewrite Heq in Hnd, Hl, Hcur. destruct (NoDup_cut _ _ _ _ Hnd) as [Hcut1 Hcut2].
  assert (cur <> before_node A /\ cur <> after B) as [Hca Hcb] by (clear -Hcur; list_mem).
  split; try rewrite Heq'.
  - assert (C ++ before_node A :: cur :: after B :: D ≡ₚ cur :: C ++ before_node A :: after B :: D) as -> by solve_Permutation.
    by apply list.NoDup_cons.
  - apply linked_app in Hl as [Hl1 Hl2]. apply linked_app. unfold inserted. split.
    + eapply linked_frame; [|exact Hl1]. intros A' a b B' Hab. destruct (Hcut1 _ _ _ _ Hab) as (H1 & _ & H2).
      assert (a ∈ C ++ [before_node A] /\ b ∈ C ++ [before_node A]) as [Ha Hb] by (rewrite Hab; clear; list_mem).
      autorewrite with links. by rewrite !decide_False by (clear -Hcur Ha Hb H1 H2; list_mem).
    + apply chained_cons in Hl2 as (_ & _ & Hl2). rewrite !chained_cons. autorewrite with links.
      split_and!; [repeat case_decide; congruence..|].
      eapply linked_frame; [|exact Hl2]. intros A' a b B' Hab. destruct (Hcut2 _ _ _ _ Hab) as (H1 & H2 & _).
      assert (a ∈ after B :: D /\ b ∈ after B :: D) as [Ha Hb] by (rewrite Hab; clear; list_mem).
      autorewrite with links. by rewrite !decide_False by (clear -Hcur Ha Hb H1 H2; list_mem).
  - intros k Hk. unfold inserted. autorewrite with links. rewrite !decide_False by (clear -Hk HaB; list_mem). apply Hprev. clear -Hk. list_mem.
  - intros k Hk. unfold inserted. autorewrite with links. rewrite !decide_False by (clear -Hk HbA; list_mem). apply Hnext. clear -Hk. list_mem.
  - cbn. rewrite Hsize. unfold zlen, u64. rewrite !length_app, Zplus_mod_idemp_l. cbn. f_equal. lia.
Qed.

(** The pointers of a node in the list *)
Lemma node_linked l A cur B :
  list_ok l (A ++ cur :: B) ->
  l_next l !! before_node A = Some cur /\ l_prev l !! cur = Some (before_node A)
  /\ l_next l !! cur = Some (after B) /\ l_prev l !! after B = Some cur
  /\ before_node A <> cur /\ after B <> cur.
Proof.
  intros Hok. destruct (gap_linked l A (cur :: B) Hok) as [H1 H2].
  replace (A ++ cur :: B) with ((A ++ [cur]) ++ B) in Hok by (by rewrite <- app_assoc).
  destruct (gap_linked l (A ++ [cur]) B Hok) as [H3 H4]. unfold before_node in H3, H4 |- *. rewrite List.last_last in H3, H4.
  split_and!; try done; pose proof (lk_nodup _ _ Hok) as Hnd.
  - intros Heq. pose proof (before_in A) as Hb. unfold before_node in Hb. rewrite Heq in Hb.
    rewrite <- !app_assoc in Hnd. change (NoDup ((_header :: A) ++ cur :: B ++ [_tail])) in Hnd.
    apply list.NoDup_app in Hnd as (_ & Hnd & _). apply (Hnd _ Hb). by left.
  - intros Heq. pose proof (after_in B) as Ha. rewrite Heq in Ha. rewrite <- !app_assoc in Hnd.
    change (NoDup ((_header :: A) ++ cur :: B ++ [_tail])) in Hnd. apply list.NoDup_app in Hnd as (_ & _ & Hnd).
    by apply list.NoDup_cons in Hnd as [? _].
Qed.

Lemma remove_ok l A B cur :
  list_ok l (A ++ cur :: B) -> list_ok (unlinked (before_node A) (after B) cur l) (A ++ B).
Proof.
  intros Hok. destruct (node_linked l A cur B Hok) as (_ & _ & _ & _ & Hba & Haf).
  destruct Hok as [Hnd Hl Hprev Hnext Hsize].
  destruct (gap A B) as (C & D & Heq & HC & HD). pose proof (before_in A) as HbA. pose proof (after_in B) as HaB.
  assert (_header :: (A ++ cur :: B) ++ [_tail] = C ++ before_node A :: cur :: after B :: D) as Heq'.
  { rewrite <- app_assoc. cbn [app]. rewrite HD. change (_header :: A ++ cur :: after B :: D) with ((_header :: A) ++ cur :: after B :: D).
    by rewrite HC, <- app_assoc. }
  rewrite Heq' in Hnd, Hl.
  assert (C ++ before_node A :: cur :: after B :: D ≡ₚ cur :: C ++ before_node A :: after B :: D) as Hperm by solve_Permutation.
  rewrite Hperm in Hnd. apply list.NoDup_cons in Hnd as [Hcur Hnd]. destruct (NoDup_cut _ _ _ _ Hnd) as [Hcut1 Hcut2].
  split; try rewrite Heq.
  - done.
  - apply linked_app in Hl as [Hl1 Hl2]. apply linked_app. unfold unlinked. split.
    + eapply linked_frame; [|exact Hl1]. intros A' a b B' Hab. destruct (Hcut1 _ _ _ _ Hab) as (H1 & _ & H2).
      assert (a ∈ C ++ [before_node A] /\ b ∈ C ++ [before_node A]) as [Ha Hb] by (rewrite Hab; clear; list_mem).
      autorewrite with links. by rewrite !decide_False by (clear -Hcur Ha Hb H1 H2; list_mem).
    + rewrite !chained_cons in Hl2. destruct Hl2 as (_ & _ & _ & _ & Hl2). rewrite !chained_cons. autorewrite with links.
      split_and!; [repeat case_decide; congruence..|].
      eapply linked_frame; [|exact Hl2]. intros A' a b B' Hab. destruct (Hcut2 _ _ _ _ Hab) as (H1 & H2 & _).
      assert (a ∈ after B :: D /\ b ∈ after B :: D) as [Ha Hb] by (rewrite Hab; clear; list_mem).
      autorewrite with links. by rewrite !decide_False by (clear -Hcur Ha Hb H1 H2; list_mem).
  - intros k Hk. unfold unlinked. autorewrite with links. destruct (decide (k = cur)) as [->|Hne].
    + by rewrite decide_False by congruence.
    + rewrite decide_False by (clear -Hk HaB; list_mem). apply Hprev. clear -Hk Hne. list_mem.
  - intros k Hk. unfold unlinked. autorewrite with links. destruct (decide (k = cur)) as [->|Hne].
    + by rewrite decide_False by congruence.
    + rewrite decide_False by (clear -Hk HbA; list_mem). apply Hnext. clear -Hk Hne. list_mem.
  - cbn. rewrite Hsize. unfold zlen, u64. rewrite !length_app. cbn. rewrite Zminus_mod_idemp_l. f_equal. lia.
Qed.

(** ** The operations run alone *)

Lemma filter_all {X} (P : X -> Prop) `{!forall x, Decision (P x)} (l : list X) : (forall x, x ∈ l -> P x) -> filter P l = l.
Proof.
  induction l as [|x l IH]; intros Hl; [done|]. rewrite filter_cons_True by (apply Hl; by left). f_equal.
  apply IH. intros y Hy. apply Hl. by right.
Qed.

Section Alone.
Context (l : links) (xs : list nat).
Hypothesis Hok : list_ok l xs.

Lemma tail_header : _tail <> _header.
Proof. done. Qed.

Lemma present_prev k : k ∈ xs -> exists A B, xs = A ++ k :: B /\ l_prev l !! k = Some (before_node A) /\ l_next l !! k = Some (after B).
Proof.
  intros Hk. apply list_elem_of_split in Hk as (A & B & Hx). exists A, B. split; [done|]. rewrite Hx in Hok.
  by destruct (node_linked l A k B Hok) as (_ & ? & ? & _).
Qed.

Lemma push_front_spec k :
  k <> _header -> k <> _tail ->
  exists l', list_call (Push_front (Some k)) l = Some (l', Done)
    /\ list_ok l' (if decide (k ∈ xs) then xs else k :: xs).
Proof.
  intros Hh Ht. unfold list_call. cbn [start]. case_decide as Hk.
  - destruct (present_prev k Hk) as (A & B & _ & Hp & _). exists l. split; [|done]. cbn [list_run list_step]. by rewrite Hp.
  - destruct (gap_linked l [] xs Hok) as [Hn Hp]. exists (inserted _header (after xs) k l).
    assert (l_prev l !! k = None) as Hnone by (apply (lk_prev _ _ Hok); list_mem).
    pose proof (after_in xs) as Ha. split.
    + rewrite list_run_S. cbn [list_step]. rewrite Hnone, list_run_S. cbn [list_step]. unfold before_node in Hn. cbn in Hn. rewrite Hn.
      apply (insert_once _ _ _ _ _ 1); try done. intros Heq. rewrite Heq in Ha. list_mem.
    + apply (insert_ok l [] xs k Hok). list_mem.
Qed.

Lemma push_back_spec k :
  k <> _header -> k <> _tail ->
  exists l', list_call (Push_back (Some k)) l = Some (l', Done)
    /\ list_ok l' (if decide (k ∈ xs) then xs else xs ++ [k]).
Proof.
  intros Hh Ht. unfold list_call. cbn [start]. case_decide as Hk.
  - destruct (present_prev k Hk) as (A & B & _ & Hp & _). exists l. split; [|done]. cbn [list_run list_step]. by rewrite Hp.
  - assert (list_ok l (xs ++ [])) as Hok' by (by rewrite app_nil_r).
    destruct (gap_linked l xs [] Hok') as [Hn Hp]. exists (inserted (before_node xs) _tail k l).
    assert (l_prev l !! k = None) as Hnone by (apply (lk_prev _ _ Hok); list_mem).
    pose proof (before_in xs) as Ha. split.
    + rewrite list_run_S. cbn [list_step]. rewrite Hnone, list_run_S. cbn [list_step]. unfold after in Hp. cbn in Hp. rewrite Hp.
      apply (insert_once _ _ _ _ _ 1); try done. intros Heq. rewrite Heq in Ha. list_mem.
    + apply (insert_ok l xs [] k Hok'). rewrite app_nil_r. list_mem.
Qed.

Lemma remove_spec k :
  k <> _header -> k <> _tail ->
  exists l', list_call (Remove k) l = Some (l', Removed (bool_decide (k ∈ xs)))
    /\ list_ok l' (filter (fun x => x <> k) xs).
Proof.
  intros Hh Ht. unfold list_call. cbn [start]. rewrite list_run_S. cbn [list_step]. rewrite list_run_S. cbn [list_step].
  case_bool_decide as Hk.
  - destruct (present_prev k Hk) as (A & B & Hx & Hp & Hn). rewrite Hp, Hn. pose proof Hok as Hok'. rewrite Hx in Hok'.
    destruct (node_linked l A k B Hok') as (H1 & _ & _ & H4 & H5 & H6).
    exists (unlinked (before_node A) (after B) k l). split; [by apply (remove_once (Remove k) _ _ _ _ 0)|].
    apply (remove_ok l A B k) in Hok'. replace (filter _ xs) with (A ++ B); [done|]. rewrite Hx, list.filter_app, list.filter_cons_False by auto.
    pose proof (lk_nodup _ _ Hok) as Hnd. rewrite Hx in Hnd. apply list.NoDup_cons in Hnd as [_ Hnd].
    rewrite <- app_assoc in Hnd. apply list.NoDup_app in Hnd as (_ & Hd & Hnd). cbn in Hnd. apply list.NoDup_cons in Hnd as [HkB _].
    f_equal; symmetry; apply filter_all; intros x Hin ->; [apply (Hd _ Hin); by left|apply HkB; list_mem].
  - rewrite (lk_prev _ _ Hok) by list_mem. exists l. split; [done|].
    replace (filter _ xs) with xs; [done|]. symmetry. apply filter_all. by intros x Hin ->.
Qed.

Lemma pop_front_spec :
  exists l', list_call Pop_front l = Some (l', Popped (List.hd_error xs)) /\ list_ok l' (tail xs).
Proof.
  unfold list_call. cbn [start]. rewrite list_run_S. cbn [list_step].
  destruct xs as [|x xs']; cbn [List.hd_error tail].
  - destruct (gap_linked l [] [] Hok) as [Hn _]. unfold before_node, after in Hn. cbn in Hn. rewrite Hn. by exists l.
  - destruct (node_linked l [] x xs' Hok) as (H1 & H2 & H3 & H4 & H5 & H6). unfold before_node in *. cbn [List.last] in *. rewrite H1.
    assert (x <> _tail) as Hne.
    { intros ->. pose proof (lk_nodup _ _ Hok) as Hnd. apply list.NoDup_cons in Hnd as [_ Hnd].
      cbn in Hnd. apply list.NoDup_cons in Hnd as [Hnd _]. apply Hnd. list_mem. }
    rewrite decide_False by done. rewrite list_run_S. cbn [list_step]. rewrite H3.
    exists (unlinked _header (after xs') x l). split; [by apply (remove_once Pop_front _ _ _ _ 0)|]. by apply (remove_ok l [] xs' x).
Qed.

Lemma pop_back_spec :
  exists l', list_call Pop_back l = Some (l', Popped (list.last xs)) /\ list_ok l' (removelast xs).
Proof.
  unfold list_call. cbn [start]. rewrite list_run_S. cbn [list_step].
  destruct xs as [|x xs' _] using rev_ind.
  - destruct (gap_linked l [] [] Hok) as [_ Hp]. unfold before_node, after in Hp. cbn in Hp. rewrite Hp. by exists l.
  - destruct (node_linked l xs' x [] Hok) as (H1 & H2 & H3 & H4 & H5 & H6). unfold after in *. cbn [List.hd] in *. rewrite H4.
    assert (x <> _header) as Hne.
    { intros ->. pose proof (lk_nodup _ _ Hok) as Hnd. apply list.NoDup_cons in Hnd as [Hnd _]. apply Hnd. list_mem. }
    rewrite decide_False by done. rewrite list_run_S. cbn [list_step]. rewrite H2, list.last_snoc, removelast_last.
    exists (unlinked (before_node xs') _tail x l). split; [by apply (remove_once Pop_back _ _ _ _ 0)|].
    rewrite <- (app_nil_r xs'). pose proof (remove_ok l xs' [] x Hok) as Hrm. by rewrite app_nil_r in *.
Qed.

End Alone.

(** [clear] ends, and leaves header and tail neighbours; only the [next]
    pointers matter to it. *)
Fixpoint nexts (l : links) (ys : list nat) : Prop :=
  match ys with
  | a :: (b :: _) as ys' => l_next l !! a = Some b /\ nexts l ys'
  | _ => True
  end.

Lemma clear_loop_spec xs : forall l cur,
  nexts l (cur :: xs ++ [_tail]) -> _header ∉ cur :: xs -> _tail ∉ cur :: xs ->
  exists l', clear_loop (S (S (length xs))) cur l = Some l'
    /\ l_next l' !! _header = Some _tail /\ l_prev l' !! _tail = Some _header /\ l_size l' = 0.
Proof.
  assert (forall l h p, h <> _header -> forall ys, _header ∉ ys -> nexts l ys ->
            nexts (set_prev h p (set_next _header (Some h) l)) ys) as Hframe.
  { intros l h p Hh ys. induction ys as [|a ys IH]; intros Hys Hn; [done|]. destruct ys as [|b ys]; [done|].
    destruct Hn as [Ha Hn]. split; [|apply IH; [list_mem|done]]. autorewrite with links. rewrite decide_False by list_mem. done. }
  induction xs as [|x xs IH]; intros l cur Hn Hh Ht; cbn [clear_loop length app] in *.
  - rewrite decide_False by list_mem. destruct Hn as [-> _]. rewrite decide_True by done. eexists. split; [done|].
    autorewrite with links. by rewrite !decide_True.
  - rewrite decide_False by list_mem. destruct Hn as [Hc Hn]. rewrite Hc.
    apply (IH (set_prev x (Some _header) (set_next _header (Some x) l)) x); [|list_mem..].
    pose proof tail_header. apply Hframe; [list_mem| |done]. list_mem.
Qed.

(** The operations on a list *)
Definition spec_call (op : list_op) (xs : list nat) : list nat * list_answer :=
  match op with
  | Push_front None | Push_back None => (xs, Done)
  | Push_front (Some k) => (if decide (k ∈ xs) then xs else k :: xs, Done)
  | Push_back (Some k) => (if decide (k ∈ xs) then xs else xs ++ [k], Done)
  | Remove k => (filter (fun x => x <> k) xs, Removed (bool_decide (k ∈ xs)))
  | Pop_front => (tail xs, Popped (List.hd_error xs))
  | Pop_back => (removelast xs, Popped (list.last xs))
  end.

(** The node of an operation is not the header or the tail. *)
Definition op_ok (op : list_op) : Prop :=
  match op with
  | Push_front (Some k) | Push_back (Some k) | Remove k => k <> _header /\ k <> _tail
  | _ => True
  end.

#[global] Instance op_ok_dec op : Decision (op_ok op).
Proof. destruct op as [[]|[]| | |]; apply _. Defined.

Lemma call_spec op l xs :
  list_ok l xs -> op_ok op ->
  exists l', list_call op l = Some (l', snd (spec_call op xs)) /\ list_ok l' (fst (spec_call op xs)).
Proof.
  intros Hok Hop. destruct op as [[k|]|[k|]|k| |]; cbn [spec_call fst snd].
  - destruct Hop. by apply push_front_spec.
  - by exists l.
  - destruct Hop. by apply push_back_spec.
  - by exists l.
  - destruct Hop. by apply remove_spec.
  - by apply pop_front_spec.
  - by apply pop_back_spec.
Qed.

Fixpoint list_calls (ops : list list_op) (l : links) : option (links * list list_answer) :=
  match ops with
  | [] => Some (l, [])
  | op :: ops =>
      match list_call op l with
      | Some (l, a) => match list_calls ops l with Some (l, r) => Some (l, a :: r) | None => None end
      | None => None
      end
  end.

Fixpoint spec_calls (ops : list list_op) (xs : list nat) : list nat * list list_answer :=
  match ops with
  | [] => (xs, [])
  | op :: ops => let '(xs, a) := spec_call op xs in let '(xs, r) := spec_calls ops xs in (xs, a :: r)
  end.

(** C26: the intrusive list is a list. Any sequence of operations, one after the
    other, each of which returns, answers as the same sequence on a list of
    nodes; afterwards the pointers between header and tail are those of that
    list in both directions, every other pointer is null, and [size] is its
    length. *)
Theorem intrusive_list_refines (ops : list list_op) :
  Forall op_ok ops ->
  exists l, list_calls ops new_list = Some (l, snd (spec_calls ops [])) /\ list_ok l (fst (spec_calls ops [])).
Proof.
  generalize new_list_ok. generalize new_list, (@nil nat).
  induction ops as [|op ops IH]; intros l xs Hok Hops; [by exists l|]. apply list.Forall_cons in Hops as [Hop Hops].
  destruct (call_spec op l xs Hok Hop) as (l1 & Hcall & Hok1). cbn [list_calls spec_calls]. rewrite Hcall.
  destruct (spec_call op xs) as [xs1 a]. cbn [fst snd] in *. destruct (IH l1 xs1 Hok1 Hops) as (l2 & -> & Hok2).
  destruct (spec_calls ops xs1) as [xs2 r]. by exists l2.
Qed.

Definition sample_calls : list list_op :=
  [Push_front (Some 5%nat); Push_back (Some 6%nat); Push_front (Some 7%nat); Remove 5; Remove 5; Pop_back; Push_front (Some 7%nat)].

Lemma intrusive_list_refines_witness :
  exists l, list_calls sample_calls new_list
      = Some (l, [Done; Done; Done; Removed true; Removed false; Popped (Some 6%nat); Done])
    /\ list_ok l [7%nat].
Proof. apply (intrusive_list_refines sample_calls). apply (bool_decide_unpack _). vm_compute. exact I. Defined.

(** ** Operations that interleave *)

(** The nodes a thread has pushed, and those an operation has handed out *)
Record list_system := mk_list_system {
  ls_links : links;
  ls_calls : list (option (list_op * list_pc));
  ls_pushed : list nat;
  ls_taken : list nat
}.

Definition pushes (op : list_op) : option nat :=
  match op with Push_front k | Push_back k => k | _ => None end.

(** The node a removal hands out *)
Definition takes (pc : list_pc) : option nat := match pc with L_removed cur => Some cur | _ => None end.

Inductive list_sys_step : list_system -> list_system -> Prop :=
| list_begin i op pc l ts pushed taken :
    ts !! i = Some None -> start op = inl pc ->
    (forall k, pushes op = Some k -> k ∉ pushed) ->
    list_sys_step (mk_list_system l ts pushed taken)
      (mk_list_system l (<[i := Some (op, pc)]> ts) (option_list (pushes op) ++ pushed) taken)
| list_go i op pc pc' l l' ts pushed taken :
    ts !! i = Some (Some (op, pc)) -> list_step op pc l = Some (l', inl pc') ->
    list_sys_step (mk_list_system l ts pushed taken)
      (mk_list_system l' (<[i := Some (op, pc')]> ts) pushed taken)
| list_end i op pc a l l' ts pushed taken :
    ts !! i = Some (Some (op, pc)) -> list_step op pc l = Some (l', inr a) ->
    list_sys_step (mk_list_system l ts pushed taken)
      (mk_list_system l' (<[i := None]> ts) pushed (option_list (takes pc) ++ taken)).

(** [n] threads; the header and the tail count as pushed. *)
Definition list_system_init (n : nat) : list_system :=
  mk_list_system new_list (replicate n None) [_header; _tail] [].

(** *** Who has a node *)

Definition list_thread : Type := option (list_op * list_pc).

(** The node an insertion has not claimed yet, ... *)
Definition unclaimed (t : list_thread) : option nat :=
  match t with
  | Some (_, (L_push cur | L_load cur | L_is1 _ _ cur | L_claim _ _ cur)) => Some cur
  | _ => None
  end.

(** ... the one it has claimed but not linked, with the [prev] it gave it, ... *)
Definition claimed (t : list_thread) : option (nat * nat) :=
  match t with
  | Some (_, (L_store prev _ cur | L_is2 prev _ cur | L_undo_next prev _ cur | L_undo_prev prev _ cur)) => Some (prev, cur)
  | _ => None
  end.

(** ... and the one a removal has unhooked. *)
Definition held (t : list_thread) : option nat :=
  match t with
  | Some (_, (L_rs4 _ _ cur | L_rs4_undo _ _ cur | L_rs5 _ _ cur | L_rs5_undo_prev _ _ cur | L_rs6 _ _ cur | L_removed cur)) => Some cur
  | _ => None
  end.

(** The nodes a thread found in a [next] pointer: the [next] of its step, and
    once it has seen [prev->next == cur] the node it removes *)
Definition seen (t : list_thread) : list nat :=
  match t with
  | Some (_, (L_is1 _ next _ | L_claim _ next _ | L_store _ next _ | L_is2 _ next _ | L_undo_next _ next _
              | L_undo_prev _ next _ | L_is3 _ next _ | L_rs1 _ next _ | L_rs2 _ next _ | L_rs5_undo_next _ next _)) => [next]
  | Some (_, (L_rs3 _ next cur | L_rs4 _ next cur | L_rs4_undo _ next cur | L_rs5 _ next cur
              | L_rs5_undo_prev _ next cur | L_rs6 _ next cur)) => [next; cur]
  | _ => []
  end.

Definition removes (op : list_op) : Prop := match op with Push_front _ | Push_back _ => False | _ => True end.

(** The steps of an insertion belong to a push of their node, the others to
    other operations. *)
Definition fits_op (t : list_thread) : Prop :=
  match t with
  | None => True
  | Some (op, pc) =>
      match pc with
      | L_push cur | L_load cur | L_is1 _ _ cur | L_claim _ _ cur | L_store _ _ cur | L_is2 _ _ cur
      | L_undo_next _ _ cur | L_undo_prev _ _ cur | L_is3 _ _ cur => pushes op = Some cur
      | L_inserted => is_Some (pushes op)
      | _ => removes op
      end
  end.

Definition is_node (c : nat) (x : option nat) : Z := if bool_decide (x = Some c) then 1 else 0.
Definition count (f : list_thread -> option nat) (c : nat) (ts : list list_thread) : Z := zsum (fun t => is_node c (f t)) ts.
Definition claimed_node (t : list_thread) : option nat := snd <$> claimed t.
Definition present (c : nat) (l : links) : Z := match l_prev l !! c with Some _ => 1 | None => 0 end.
Definition times (c : nat) (l : list nat) : Z := zsum (fun x => is_node c (Some x)) l.

(** A node whose insertion is over *)
Definition settled (s : list_system) (c : nat) : Prop :=
  c ∈ ls_pushed s /\ count unclaimed c (ls_calls s) + count claimed_node c (ls_calls s) = 0.

Record list_inv (s : list_system) : Prop := {
  iv_once : forall c, present c (ls_links s) + count held c (ls_calls s) + count unclaimed c (ls_calls s) + times c (ls_taken s)
                      <= if bool_decide (c ∈ ls_pushed s) then 1 else 0;
  iv_push : forall c, count unclaimed c (ls_calls s) + count claimed_node c (ls_calls s)
                      <= if bool_decide (c ∈ ls_pushed s) then 1 else 0;
  iv_claim : forall i t prev cur, ls_calls s !! i = Some t -> claimed t = Some (prev, cur) ->
               l_prev (ls_links s) !! cur = Some prev;
  iv_next : forall k c, l_next (ls_links s) !! k = Some c -> settled s c;
  iv_seen : forall i t c, ls_calls s !! i = Some t -> c ∈ seen t -> settled s c;
  iv_op : forall i t, ls_calls s !! i = Some t -> fits_op t;
  iv_tail : settled s _tail
}.

Lemma is_node_range c x : 0 <= is_node c x <= 1.
Proof. unfold is_node. case_bool_decide; lia. Qed.

Lemma count_nonneg f c ts : 0 <= count f c ts.
Proof. apply zsum_nonneg. intros t. apply is_node_range. Qed.

Lemma count_insert f c ts i t t' : ts !! i = Some t -> count f c (<[i := t']> ts) = count f c ts - is_node c (f t) + is_node c (f t').
Proof. apply (zsum_insert (fun t => is_node c (f t))). Qed.

Lemma count_ge f c ts i t : ts !! i = Some t -> is_node c (f t) <= count f c ts.
Proof. apply (zsum_ge (fun t => is_node c (f t))). intros x. apply is_node_range. Qed.

Lemma is_node_eq c : is_node c (Some c) = 1.
Proof. unfold is_node. by rewrite bool_decide_true. Qed.

Lemma is_node_Some c k : is_node c (Some k) = if decide (k = c) then 1 else 0.
Proof. unfold is_node. repeat case_decide; case_bool_decide; congruence. Qed.
Lemma is_node_None c : is_node c None = 0.
Proof. done. Qed.

Lemma present_set_prev c k v l :
  present c (set_prev k v l) = if decide (k = c) then match v with Some _ => 1 | None => 0 end else present c l.
Proof. unfold present. rewrite lookup_set_prev. repeat case_decide; congruence. Qed.
Lemma present_set_next c k v l : present c (set_next k v l) = present c l.
Proof. done. Qed.
Lemma present_set_size c n l : present c (set_size n l) = present c l.
Proof. done. Qed.

(** [retry] goes back to where the operation's kind begins. *)
Lemma retry_push op cur : pushes op = Some cur -> retry op cur = L_push cur.
Proof. by destruct op. Qed.
(** One step: what the thread adds to the counts of a node, its pointer has
    lost. *)
Lemma go_balance op pc l l' pc' :
  list_step op pc l = Some (l', inl pc') -> fits_op (Some (op, pc)) ->
  (forall prev cur, claimed (Some (op, pc)) = Some (prev, cur) -> l_prev l !! cur = Some prev) ->
  let t := Some (op, pc) in let t' := Some (op, pc') in
  (forall c, present c l' + is_node c (held t') + is_node c (unclaimed t')
             <= present c l + is_node c (held t) + is_node c (unclaimed t))
  /\ (forall c, is_node c (unclaimed t') + is_node c (claimed_node t')
                <= is_node c (unclaimed t) + is_node c (claimed_node t))
  /\ fits_op t'.
Proof.
  intros Hs Hfit Hcl. destruct pc; cbn [list_step] in Hs; unfold cas_prev, cas_next in Hs; repeat case_match; simplify_eq;
    cbn in Hfit; try (erewrite retry_push by done); try (destruct op; try done; cbn [retry]);
    cbn [unclaimed claimed claimed_node held fits_op fmap option_fmap option_map snd removes pushes];
    (split; [intros c|split; [intros c|by eauto]]); rewrite ?present_set_prev, ?present_set_next, ?is_node_Some, ?is_node_None;
    try lia; repeat case_decide; subst; try lia; unfold present;
    repeat match goal with H : l_prev _ !! _ = _ |- _ => rewrite H end; try lia;
    specialize (Hcl _ _ eq_refl); congruence.
Qed.

Ltac list_step_cases Hs :=
  match type of Hs with list_step ?op ?pc _ = _ =>
    destruct pc; cbn [list_step] in Hs; unfold cas_prev, cas_next in Hs; repeat case_match; simplify_eq end.

(** The only [prev] pointers a step changes are null, of the node it has
    claimed, or of a node it has seen. *)
Lemma go_prev op pc l l' r k :
  list_step op pc l = Some (l', r) ->
  l_prev l' !! k = l_prev l !! k \/ l_prev l !! k = None \/ claimed_node (Some (op, pc)) = Some k \/ k ∈ seen (Some (op, pc)).
Proof.
  intros Hs. list_step_cases Hs; try (by left); rewrite ?lookup_set_prev;
    try match goal with |- context [decide (k = ?x)] => destruct (decide (k = x)) as [->|] end; try (by left); right;
    try (by left); right; cbn; try (by left); right; rewrite !elem_of_cons; auto.
Qed.

(** What it writes into a [next] pointer it has seen, or is the node it links. *)
Lemma go_next op pc l l' r k c :
  list_step op pc l = Some (l', r) -> l_next l' !! k = Some c ->
  l_next l !! k = Some c \/ c ∈ seen (Some (op, pc))
  \/ (claimed_node (Some (op, pc)) = Some c /\ exists pc', r = inl pc' /\ unclaimed (Some (op, pc')) = None /\ claimed (Some (op, pc')) = None).
Proof.
  intros Hs Hc. list_step_cases Hs; try (by left); rewrite ?lookup_set_next in Hc;
    try match type of Hc with context [decide (k = ?x)] => destruct (decide (k = x)) as [->|] end; simplify_eq; try (by left);
    right; cbn; rewrite ?elem_of_cons; eauto 10.
Qed.

Lemma go_seen op pc l l' pc' c :
  list_step op pc l = Some (l', inl pc') -> fits_op (Some (op, pc)) -> c ∈ seen (Some (op, pc')) ->
  c ∈ seen (Some (op, pc)) \/ c = _tail \/ exists k, l_next l !! k = Some c.
Proof.
  intros Hs Hfit Hc. list_step_cases Hs; cbn in Hfit; try (erewrite retry_push in Hc by done);
    try (destruct op; try done; cbn [retry] in Hc); cbn in Hc |- *;
    rewrite ?elem_of_cons in Hc; rewrite ?elem_of_cons; decompose [or] Hc; subst; eauto 10;
    match goal with H : _ ∈ [] |- _ => by apply elem_of_nil in H end.
Qed.

Lemma go_claim op pc l l' pc' prev cur :
  list_step op pc l = Some (l', inl pc') -> fits_op (Some (op, pc)) -> claimed (Some (op, pc')) = Some (prev, cur) ->
  (claimed (Some (op, pc)) = Some (prev, cur) /\ l_prev l' !! cur = l_prev l !! cur) \/ l_prev l' !! cur = Some prev.
Proof.
  intros Hs Hfit Hc. list_step_cases Hs; cbn in Hfit; try (erewrite retry_push in Hc by done);
    try (destruct op; try done; cbn [retry] in Hc); cbn in Hc |- *; simplify_eq; try done; try (by left).
  all: right; by rewrite lookup_partial_alter_eq.
Qed.

(** A thread's step from [t] to [t'], with the pointers and the nodes handed
    out changed as allowed, keeps the invariant. *)
Lemma step_inv l l' ts pushed taken taken' i t t' :
  list_inv (mk_list_system l ts pushed taken) -> ts !! i = Some t -> fits_op t' ->
  (forall c, present c l' + is_node c (held t') + is_node c (unclaimed t') + times c taken'
             <= present c l + is_node c (held t) + is_node c (unclaimed t) + times c taken) ->
  (forall c, is_node c (unclaimed t') + is_node c (claimed_node t') <= is_node c (unclaimed t) + is_node c (claimed_node t)) ->
  (forall k, l_prev l' !! k = l_prev l !! k \/ l_prev l !! k = None \/ claimed_node t = Some k \/ k ∈ seen t) ->
  (forall prev cur, claimed t' = Some (prev, cur) ->
     (claimed t = Some (prev, cur) /\ l_prev l' !! cur = l_prev l !! cur) \/ l_prev l' !! cur = Some prev) ->
  (forall k c, l_next l' !! k = Some c -> l_next l !! k = Some c \/ c ∈ seen t
     \/ (claimed_node t = Some c /\ unclaimed t' = None /\ claimed t' = None)) ->
  (forall c, c ∈ seen t' -> c ∈ seen t \/ c = _tail \/ exists k, l_next l !! k = Some c) ->
  list_inv (mk_list_system l' (<[i := t']> ts) pushed taken').
Proof.
  intros [Honce Hpush Hclaim Hnext Hseen Hop Htail] Hi Hfit Hbal Hcnt Hprev Hcl Hnx Hsn. cbn [ls_links ls_calls ls_pushed ls_taken] in *.
  assert (forall f c, count f c (<[i := t']> ts) = count f c ts - is_node c (f t) + is_node c (f t')) as Hci
    by (intros f c; by apply count_insert).
  assert (forall c, settled (mk_list_system l ts pushed taken) c -> settled (mk_list_system l' (<[i := t']> ts) pushed taken') c) as Hset.
  { intros c [Hin Hz]. split; [done|]. cbn [ls_calls] in *. rewrite !Hci. specialize (Hcnt c).
    pose proof (count_nonneg unclaimed c ts). pose proof (count_nonneg claimed_node c ts).
    pose proof (count_ge unclaimed c ts i t Hi). pose proof (count_ge claimed_node c ts i t Hi).
    pose proof (is_node_range c (unclaimed t')). pose proof (is_node_range c (claimed_node t')). lia. }
  split; cbn [ls_links ls_calls ls_pushed ls_taken].
  - intros c. rewrite !Hci. specialize (Honce c). specialize (Hbal c). lia.
  - intros c. rewrite !Hci. specialize (Hpush c). specialize (Hcnt c). lia.
  - intros j u prev cur Hj Hu. apply list_lookup_insert_Some in Hj as [(<- & <- & _)|[Hne Hj]].
    + destruct (Hcl _ _ Hu) as [[Hc Heq]|Hp]; [|done]. rewrite Heq. by eapply Hclaim.
    + pose proof (Hclaim _ _ _ _ Hj Hu) as Hp. destruct (Hprev cur) as [->|[Hn|[Hc|Hs]]]; [done|congruence| |].
      * exfalso. specialize (Hpush cur). pose proof (count_nonneg unclaimed cur ts).
        assert (claimed_node u = Some cur) as Hu' by (unfold claimed_node; by rewrite Hu).
        pose proof (zsum_two (fun t => is_node cur (claimed_node t)) ts i j t u) as H2.
        cbn beta in H2. rewrite Hc, Hu', is_node_eq in H2. unfold count in Hpush, H.
        specialize (H2 ltac:(intros; apply is_node_range) Hne Hi Hj). case_bool_decide; lia.
      * exfalso. destruct (Hseen _ _ _ Hi Hs) as [_ Hz]. cbn [ls_calls] in Hz.
        assert (claimed_node u = Some cur) as Hu' by (unfold claimed_node; by rewrite Hu).
        pose proof (count_ge claimed_node cur ts j u Hj) as Hge. rewrite Hu', is_node_eq in Hge.
        pose proof (count_nonneg unclaimed cur ts). lia.
  - intros k c Hk. destruct (Hnx _ _ Hk) as [Hk'|[Hs|(Hc & Hu' & Hc')]]; [by eapply Hset, Hnext|by eapply Hset, Hseen|].
    pose proof (count_ge claimed_node c ts i t Hi) as Hge. rewrite Hc, is_node_eq in Hge. specialize (Hpush c).
    pose proof (count_nonneg unclaimed c ts). pose proof (count_ge unclaimed c ts i t Hi). pose proof (is_node_range c (unclaimed t)).
    split; cbn [ls_pushed ls_calls].
    + case_bool_decide; [done|lia].
    + assert (claimed_node t' = None) as Hn' by (unfold claimed_node; by rewrite Hc').
      rewrite !Hci, Hc, Hn', Hu', is_node_eq, is_node_None. pose proof (count_nonneg claimed_node c ts).
      case_bool_decide; lia.
  - intros j u c Hj Hc. apply list_lookup_insert_Some in Hj as [(<- & <- & _)|[Hne Hj]]; [|by eapply Hset, Hseen].
    destruct (Hsn _ Hc) as [Hs|[->|[k Hk]]]; [by eapply Hset, Hseen|by apply Hset|by eapply Hset, Hnext].
  - intros j u Hj. apply list_lookup_insert_Some in Hj as [(<- & <- & _)|[Hne Hj]]; [done|by eapply Hop].
  - by apply Hset.
Qed.

(** A thread begins an operation; a node it pushes is new. *)
Lemma begin_inv i op pc l ts pushed taken :
  ts !! i = Some None -> start op = inl pc -> (forall k, pushes op = Some k -> k ∉ pushed) ->
  list_inv (mk_list_system l ts pushed taken) ->
  list_inv (mk_list_system l (<[i := Some (op, pc)]> ts) (option_list (pushes op) ++ pushed) taken).
Proof.
  intros Hi Hst Hnew [Honce Hpush Hclaim Hnext Hseen Hop Htail]. cbn [ls_links ls_calls ls_pushed ls_taken] in *.
  set (t := Some (op, pc)).
  assert (unclaimed t = pushes op /\ claimed t = None /\ held t = None /\ seen t = [] /\ fits_op t) as (Hu & Hc & Hh & Hs & Hf)
    by (destruct op as [[]|[]| | |]; cbn in Hst; simplify_eq; done).
  assert (forall f c, f None = None -> count f c (<[i := t]> ts) = count f c ts + is_node c (f t)) as Hci.
  { intros f c Hn. etrans; [apply (count_insert f c ts i None t Hi)|]. rewrite Hn, is_node_None. lia. }
  assert (forall c, c ∈ pushed -> is_node c (pushes op) = 0) as Hold.
  { intros c Hin. unfold is_node. case_bool_decide as He; [|done]. by destruct (Hnew _ He). }
  assert (claimed_node t = None) as Hc' by (unfold claimed_node; by rewrite Hc).
  assert (forall c, settled (mk_list_system l ts pushed taken) c ->
    settled (mk_list_system l (<[i := t]> ts) (option_list (pushes op) ++ pushed) taken) c) as Hset.
  { intros c [Hin Hz]. cbn in Hin. split; cbn [ls_pushed ls_calls] in *; [apply elem_of_app; by right|].
    rewrite !Hci by done. rewrite Hu, Hc', is_node_None, Hold by done. lia. }
  assert (forall c, (if bool_decide (c ∈ pushed) then 1 else 0) + is_node c (pushes op)
                    <= if bool_decide (c ∈ option_list (pushes op) ++ pushed) then 1 else 0) as Hp.
  { intros c. destruct (decide (c ∈ pushed)) as [Hin|Hno].
    - rewrite !bool_decide_true by (rewrite ?elem_of_app; auto). rewrite Hold by done. lia.
    - rewrite (bool_decide_false (c ∈ pushed)) by done. unfold is_node. case_bool_decide as He; [|case_bool_decide; lia].
      rewrite He. cbn. rewrite bool_decide_true by (by left). lia. }
  split; cbn [ls_links ls_calls ls_pushed ls_taken].
  - intros c. rewrite !Hci by done. rewrite Hh, Hu, is_node_None. specialize (Honce c). specialize (Hp c). lia.
  - intros c. rewrite !Hci by done. rewrite Hc', Hu, is_node_None. specialize (Hpush c). specialize (Hp c). lia.
  - intros j u prev cur Hj Hcl. apply list_lookup_insert_Some in Hj as [(<- & <- & _)|[Hne Hj]]; [congruence|by eapply Hclaim].
  - intros k c Hk. by eapply Hset, Hnext.
  - intros j u c Hj Hin. apply list_lookup_insert_Some in Hj as [(<- & <- & _)|[Hne Hj]]; [|by eapply Hset, Hseen].
    rewrite Hs in Hin. by apply elem_of_nil in Hin.
  - intros j u Hj. apply list_lookup_insert_Some in Hj as [(<- & <- & _)|[Hne Hj]]; [done|by eapply Hop].
  - by apply Hset.
Qed.

Lemma times_cons c k l : times c (k :: l) = is_node c (Some k) + times c l.
Proof. done. Qed.

(** The end of an operation: what it hands out, it held. *)
Lemma end_balance op pc l l' a c taken :
  list_step op pc l = Some (l', inr a) ->
  present c l' + times c (option_list (takes pc) ++ taken)
  <= present c l + is_node c (held (Some (op, pc))) + is_node c (unclaimed (Some (op, pc))) + times c taken.
Proof.
  intros Hs. pose proof (is_node_range c (unclaimed (Some (op, pc)))). list_step_cases Hs;
    cbn [takes option_list option_rect app held unclaimed] in *; rewrite ?present_set_size, ?times_cons, ?is_node_None in *; lia.
Qed.

Lemma list_sys_step_inv s s' : list_sys_step s s' -> list_inv s -> list_inv s'.
Proof.
  intros Hstep. destruct Hstep as [i op pc l ts pushed taken Hi Hst Hnew|i op pc pc' l l' ts pushed taken Hi Hs
    |i op pc a l l' ts pushed taken Hi Hs]; intros Hinv.
  - by apply begin_inv.
  - pose proof (iv_op _ Hinv _ _ Hi) as Hfit. cbn in Hi.
    destruct (go_balance op pc l l' pc' Hs Hfit) as (Hb & Hc & Hf).
    { intros prev cur Hcl. by eapply (iv_claim _ Hinv). }
    eapply step_inv; try done.
    + intros c. specialize (Hb c). lia.
    + intros k. by eapply go_prev.
    + intros prev cur Hcl. by eapply go_claim.
    + intros k c Hk. destruct (go_next _ _ _ _ _ _ _ Hs Hk) as [?|[?|(? & pc1 & [= <-] & ? & ?)]]; auto.
    + intros c Hc'. by eapply go_seen.
  - pose proof (iv_op _ Hinv _ _ Hi) as Hfit. eapply step_inv; try done.
    + intros c. pose proof (end_balance op pc l l' a c taken Hs). rewrite !is_node_None. lia.
    + intros c. change (0 + 0 <= is_node c (unclaimed (Some (op, pc))) + is_node c (claimed_node (Some (op, pc)))).
      pose proof (is_node_range c (unclaimed (Some (op, pc)))).
      pose proof (is_node_range c (claimed_node (Some (op, pc)))). lia.
    + intros k. by eapply go_prev.
    + intros k c Hk. destruct (go_next _ _ _ _ _ _ _ Hs Hk) as [?|[?|(? & pc1 & [=] & _)]]; auto.
    + by intros c ?%elem_of_nil.
Qed.

Lemma list_init_inv n : list_inv (list_system_init n).
Proof.
  assert (forall f c, f None = None -> count f c (replicate n None) = 0) as Hc.
  { intros f c Hf. apply zsum_replicate. by rewrite Hf. }
  assert (forall c, c = _header \/ c = _tail -> settled (list_system_init n) c) as Hset.
  { intros c Hin. split; cbn [ls_pushed ls_calls list_system_init]; [rewrite !elem_of_cons; tauto|by rewrite !Hc]. }
  split; cbn [ls_links ls_calls ls_pushed ls_taken list_system_init].
  - intros c. rewrite !Hc by done. unfold present, new_list. cbn [l_prev]. rewrite lookup_singleton.
    case_decide; case_bool_decide as Hin; cbn; try lia. exfalso. apply Hin. subst. rewrite !elem_of_cons. auto.
  - intros c. rewrite !Hc by done. case_bool_decide; lia.
  - intros i t prev cur Hi. apply lookup_replicate in Hi as [-> _]. done.
  - intros k c Hk. apply Hset. right. unfold new_list in Hk. cbn in Hk. by apply lookup_singleton_Some in Hk as [_ <-].
  - intros i t c Hi. apply lookup_replicate in Hi as [-> _]. by intros ?%elem_of_nil.
  - intros i t Hi. by apply lookup_replicate in Hi as [-> _].
  - apply Hset. by right.
Qed.

Lemma times_NoDup l : (forall c, times c l <= 1) -> NoDup l.
Proof.
  induction l as [|k l IH]; intros Hl; [constructor|]. apply list.NoDup_cons.
  assert (forall c l, 0 <= times c l) as Hnn by (intros; apply zsum_nonneg; intros; apply is_node_range). split.
  - intros Hk. specialize (Hl k). rewrite times_cons, is_node_eq in Hl.
    apply list_elem_of_lookup in Hk as [i Hi]. pose proof (zsum_ge (fun x => is_node k (Some x)) l i k) as Hge.
    cbn beta in Hge. rewrite is_node_eq in Hge. specialize (Hge ltac:(intros; apply is_node_range) Hi). unfold times in Hl. lia.
  - apply IH. intros c. specialize (Hl c). rewrite times_cons in Hl. pose proof (is_node_range c (Some k)). lia.
Qed.

(** C27: a node is handed out once. However the operations of any number of
    threads interleave, as long as no node is pushed twice no node is handed
    out twice by [remove], [pop_front] and [pop_back], and only pushed nodes
    are. *)
Theorem taken_once (n : nat) (s : list_system) :
  rtc list_sys_step (list_system_init n) s -> NoDup (ls_taken s) /\ (forall k, k ∈ ls_taken s -> k ∈ ls_pushed s).
Proof.
  intros Hrun. assert (list_inv s) as Hinv.
  { revert s Hrun. apply rtc_ind_r; [apply list_init_inv|]. intros s1 s2 _ Hstep. by apply list_sys_step_inv. }
  assert (forall c, times c (ls_taken s) <= if bool_decide (c ∈ ls_pushed s) then 1 else 0) as Ht.
  { intros c. pose proof (iv_once _ Hinv c). pose proof (count_nonneg held c (ls_calls s)).
    pose proof (count_nonneg unclaimed c (ls_calls s)). unfold present in *. case_match; lia. }
  split.
  - apply times_NoDup. intros c. specialize (Ht c). case_bool_decide; lia.
  - intros k Hk. specialize (Ht k). case_bool_decide as Hp; [done|]. exfalso.
    apply list_elem_of_lookup in Hk as [i Hi]. pose proof (zsum_ge (fun x => is_node k (Some x)) (ls_taken s) i k) as Hge.
    cbn beta in Hge. rewrite is_node_eq in Hge. specialize (Hge ltac:(intros; apply is_node_range) Hi). unfold times in Ht. lia.
Qed.

(** *** A run of the system *)

(** [Some op]: the thread begins [op]; [None]: its next access *)
Definition sys_act (a : nat * option list_op) (s : list_system) : option list_system :=
  let '(i, op) := a in
  match ls_calls s !! i, op with
  | Some None, Some op =>
      match start op with
      | inl pc => Some (mk_list_system (ls_links s) (<[i := Some (op, pc)]> (ls_calls s)) (option_list (pushes op) ++ ls_pushed s) (ls_taken s))
      | inr _ => None
      end
  | Some (Some (op, pc)), None =>
      match list_step op pc (ls_links s) with
      | Some (l, inl pc') => Some (mk_list_system l (<[i := Some (op, pc')]> (ls_calls s)) (ls_pushed s) (ls_taken s))
      | Some (l, inr _) => Some (mk_list_system l (<[i := None]> (ls_calls s)) (ls_pushed s) (option_list (takes pc) ++ ls_taken s))
      | None => None
      end
  | _, _ => None
  end.

Fixpoint sys_acts (l : list (nat * option list_op)) (s : list_system) : option list_system :=
  match l with
  | [] => Some s
  | a :: l => match sys_act a s with Some s => sys_acts l s | None => None end
  end.

(** Every push of the run is of a new node. *)
Fixpoint fresh_pushes (l : list (nat * option list_op)) (pushed : list nat) : bool :=
  match l with
  | [] => true
  | (_, Some op) :: l =>
      match pushes op with
      | Some k => negb (bool_decide (k ∈ pushed)) && fresh_pushes l (k :: pushed)
      | None => fresh_pushes l pushed
      end
  | (_, None) :: l => fresh_pushes l pushed
  end.

Lemma sys_acts_steps l : forall s s',
  fresh_pushes l (ls_pushed s) = true -> sys_acts l s = Some s' -> rtc list_sys_step s s'.
Proof.
  induction l as [|[i [op|]] l IH]; intros [lk ts pushed taken] s' Hf Hrun; cbn in Hf, Hrun; [simplify_eq; constructor|..].
  - destruct (ts !! i) as [[[? ?]|]|] eqn:Hi; try done. destruct (start op) as [pc|] eqn:Hs; [|done].
    eapply rtc_l; [apply (list_begin _ _ _ _ _ _ _ Hi Hs)|apply IH; [|done]].
    + intros k Hk. rewrite Hk in Hf. apply andb_true_iff in Hf as [Hf _]. by apply negb_true_iff, bool_decide_eq_false in Hf.
    + cbn. destruct (pushes op); [by apply andb_true_iff in Hf as [_ ?]|done].
  - destruct (ts !! i) as [[[op pc]|]|] eqn:Hi; try done. destruct (list_step op pc lk) as [[l' [pc'|a]]|] eqn:Hs; [| |done].
    + eapply rtc_l; [by eapply list_go|by apply IH].
    + eapply rtc_l; [by eapply list_end|by apply IH].
Qed.

Definition steps_of (i n : nat) : list (nat * option list_op) := replicate n (i, None).

(** Two threads pop the only node from both ends. *)
Definition pop_race : list (nat * option list_op) :=
  [(0%nat, Some (Push_front (Some 5%nat)))] ++ steps_of 0 8 ++
  [(0%nat, Some Pop_front); (1%nat, Some Pop_back)] ++
  steps_of 0 4 ++ steps_of 1 4 ++ steps_of 0 1 ++ steps_of 1 2 ++ steps_of 0 4 ++ steps_of 1 2.

Definition popped : list_system := default (list_system_init 2) (sys_acts pop_race (list_system_init 2)).

Lemma taken_once_witness : ls_taken popped = [5%nat] /\ ls_calls popped = [None; None] /\ NoDup (ls_taken popped).
Proof.
  split; [vm_compute; reflexivity|]. split; [vm_compute; reflexivity|].
  apply (taken_once 2 popped). apply (sys_acts_steps pop_race); vm_compute; reflexivity.
Defined.

(** A node that is pushed again while a removal of it has stalled, as
    [LRUCache::get] does with a node two threads ask for, breaks the list: with
    a third thread that pushes a node, the stalled removal spins for ever in its
    last loop and the header points to the tail. *)
Definition get_race : list (nat * option list_op) :=
  [(0%nat, Some (Push_front (Some 5%nat)))] ++ steps_of 0 8 ++
  [(0%nat, Some (Remove 5)); (1%nat, Some (Remove 5)); (2%nat, Some (Push_front (Some 6%nat)))] ++
  steps_of 0 4 ++ steps_of 1 1 ++ steps_of 0 1 ++ steps_of 1 1 ++ steps_of 0 1 ++ steps_of 1 2 ++ steps_of 0 3 ++
  [(0%nat, Some (Push_front (Some 5%nat)))] ++ steps_of 0 5 ++ steps_of 1 2 ++ steps_of 2 6 ++
  steps_of 0 11 ++ steps_of 1 1 ++ steps_of 2 2.

Lemma readded_node_breaks_list :
  exists s, sys_acts get_race (list_system_init 3) = Some s
    /\ ls_calls s = [None; Some (Remove 5, L_rs6 _header _tail 5); None]
    /\ l_next (ls_links s) !! _header = Some _tail /\ l_prev (ls_links s) !! _tail = Some 6%nat
    /\ list_step (Remove 5) (L_rs6 _header _tail 5) (ls_links s) = Some (ls_links s, inl (L_rs6 _header _tail 5)).
Proof. eexists. split; [vm_compute; reflexivity|]. split_and!; vm_compute; reflexivity. Qed.
