(* ===== verification/LruCache.v ===== *)
(** * The LRU cache (include/common/lru_cache.h, concurrent_hash_map.h)

    [LRUCache] is a [ConcurrentHashMap] of nodes it owns, which are at the same
    time linked in an [IntrusiveList] in the order of their last use; the hooks
    of the hash map keep the list and the memory account. Here an operation runs
    to its end before the next one begins. Nodes are addresses; a node that was
    deleted is not in [c_nodes] any more, and following a pointer to it is
    [None]. The list is used through the class [NodeList], which the intrusive
    list implements. *)

From stdpp Require Import gmap.
From S2P Require Import Prelude HashMap IntrusiveList.

(** ** The list the cache relies on *)

Class NodeList (L : Type) := {
  nl_new : L;
  nl_push_front : nat -> L -> option L;
  nl_remove : nat -> L -> option (L * bool);
  nl_pop_back : L -> option (L * option nat)
}.

(** It holds distinct nodes, of addresses that are not its own two. *)
Class NodeListLaws (L : Type) `{NodeList L} := {
  nl_rep : L -> list nat -> Prop;
  nl_new_rep : nl_rep nl_new [];
  nl_push_rep l xs p : nl_rep l xs -> (2 <= p)%nat -> p ∉ xs ->
    exists l', nl_push_front p l = Some l' /\ nl_rep l' (p :: xs);
  nl_remove_rep l xs p : nl_rep l xs -> (2 <= p)%nat ->
    exists l', nl_remove p l = Some (l', bool_decide (p ∈ xs)) /\ nl_rep l' (filter (fun x => x <> p) xs);
  nl_pop_rep l xs : nl_rep l xs ->
    exists l', nl_pop_back l = Some (l', list.last xs) /\ nl_rep l' (removelast xs)
}.

#[global] Instance intrusive_node_list : NodeList links := {
  nl_new := new_list;
  nl_push_front p l := match list_call (Push_front (Some p)) l with Some (l, _) => Some l | None => None end;
  nl_remove p l := match list_call (Remove p) l with Some (l, Removed b) => Some (l, b) | _ => None end;
  nl_pop_back l := match list_call Pop_back l with Some (l, Popped p) => Some (l, p) | _ => None end
}.

Lemma not_ends p : (2 <= p)%nat -> p <> _header /\ p <> _tail.
Proof. unfold _header, _tail. lia. Qed.

#[global] Program Instance intrusive_node_list_laws : NodeListLaws links := {
  nl_rep := list_ok;
  nl_new_rep := new_list_ok
}.
Next Obligation.
  intros l xs p Hok [Hh Ht]%not_ends Hp. destruct (push_front_spec l xs Hok p Hh Ht) as (l' & E & Hok').
  rewrite decide_False in Hok' by done. exists l'. unfold nl_push_front, intrusive_node_list. by rewrite E.
Qed.
Next Obligation.
  intros l xs p Hok [Hh Ht]%not_ends. destruct (remove_spec l xs Hok p Hh Ht) as (l' & E & Hok').
  exists l'. unfold nl_remove, intrusive_node_list. by rewrite E.
Qed.
Next Obligation.
  intros l xs Hok. destruct (pop_back_spec l xs Hok) as (l' & E & Hok').
  exists l'. unfold nl_pop_back, intrusive_node_list. by rewrite E.
Qed.

(** ** The cache *)

Section Cache.
Context {K : Type} `{Countable K} {V : Type} (hasher : K -> Z).
Context {L : Type} `{NodeList L}.

(** [struct LRUNode] *)
Record LRUNode := mk_LRUNode { n_key : K; n_value : V; n_used_mem : Z }.

Record lru_cache := mk_lru {
  c_map : hash_map (K := K) (V := nat);
  c_nodes : gmap nat LRUNode;
  c_list : L;
  c_mem_size : Z;
  c_mem_size_used : Z;
  c_hit_query_times : Z;
  c_total_query_times : Z;
  c_fresh : nat
}.

Definition lru_set_map (m : hash_map) (c : lru_cache) : lru_cache :=
  mk_lru m (c_nodes c) (c_list c) (c_mem_size c) (c_mem_size_used c) (c_hit_query_times c) (c_total_query_times c) (c_fresh c).
Definition lru_set_nodes (n : gmap nat LRUNode) (c : lru_cache) : lru_cache :=
  mk_lru (c_map c) n (c_list c) (c_mem_size c) (c_mem_size_used c) (c_hit_query_times c) (c_total_query_times c) (c_fresh c).
Definition lru_set_list (l : L) (c : lru_cache) : lru_cache :=
  mk_lru (c_map c) (c_nodes c) l (c_mem_size c) (c_mem_size_used c) (c_hit_query_times c) (c_total_query_times c) (c_fresh c).
Definition lru_set_used (u : Z) (c : lru_cache) : lru_cache :=
  mk_lru (c_map c) (c_nodes c) (c_list c) (c_mem_size c) (u64 u) (c_hit_query_times c) (c_total_query_times c) (c_fresh c).
Definition lru_set_times (hit total : Z) (c : lru_cache) : lru_cache :=
  mk_lru (c_map c) (c_nodes c) (c_list c) (c_mem_size c) (c_mem_size_used c) hit total (c_fresh c).

(** [LRUCache(bucket_hint, max_mem_bytes)]; addresses 0 and 1 are the list's
    own nodes. *)
Definition new_lru (bucket_hint max_mem_bytes : Z) : lru_cache :=
  mk_lru (new_hash_map bucket_hint) ∅ nl_new max_mem_bytes 0 0 0 2.

(** [new LRUNode], [delete] *)
Definition new_node (n : LRUNode) (c : lru_cache) : nat * lru_cache :=
  (c_fresh c, mk_lru (c_map c) (<[c_fresh c := n]> (c_nodes c)) (c_list c) (c_mem_size c) (c_mem_size_used c)
                (c_hit_query_times c) (c_total_query_times c) (S (c_fresh c))).
Definition delete_node (p : nat) (c : lru_cache) : option lru_cache :=
  match c_nodes c !! p with Some _ => Some (lru_set_nodes (delete p (c_nodes c)) c) | None => None end.

Definition get_bucket_idx (key : K) (c : lru_cache) : nat := get_entry hasher key (c_map c).

(** Walking the bucket of [key] reads the keys of its nodes, up to the one that
    is found. *)
Fixpoint chain_alive (n : chain K nat) (key : K) (nodes : gmap nat LRUNode) : bool :=
  match n with
  | [] => true
  | (k, p) :: n => bool_decide (is_Some (nodes !! p)) && (if decide (k = key) then true else chain_alive n key nodes)
  end.

Definition walk (key : K) (c : lru_cache) : option (chain K nat) :=
  let n := bucket hasher key (c_map c) in if chain_alive n key (c_nodes c) then Some n else None.

(** [_list.remove], [_list.push_front] of a live node *)
Definition list_remove (p : nat) (c : lru_cache) : option (bool * lru_cache) :=
  match c_nodes c !! p, nl_remove p (c_list c) with
  | Some _, Some (l, ret) => Some (ret, lru_set_list l c)
  | _, _ => None
  end.
Definition list_push_front (p : nat) (c : lru_cache) : option lru_cache :=
  match c_nodes c !! p, nl_push_front p (c_list c) with
  | Some _, Some l => Some (lru_set_list l c)
  | _, _ => None
  end.

(** The hook of [intrusive_get] *)
Definition get_postprocess (p : nat) (c : lru_cache) : option lru_cache :=
  let c := lru_set_times (u64 (c_hit_query_times c + 1)) (c_total_query_times c) c in
  match list_remove p c with
  | Some (true, c) => list_push_front p c
  | Some (false, c) => Some c
  | None => None
  end.

(** [intrusive_get] *)
Definition intrusive_get (key : K) (c : lru_cache) : option (option V * lru_cache) :=
  match walk key c with
  | None => None
  | Some n =>
      match intrusive_get_nolock n key with
      | None => Some (None, c)
      | Some (_, p) =>
          match get_postprocess p c with
          | None => None
          | Some c => match c_nodes c !! p with Some n => Some (Some (n_value n), c) | None => None end
          end
      end
  end.

(** [get] *)
Definition lru_get (key : K) (c : lru_cache) : option (option V * lru_cache) :=
  intrusive_get key (lru_set_times (c_hit_query_times c) (u64 (c_total_query_times c + 1)) c).

(** The hook of [intrusive_erase]: the node is deleted when it was in the list,
    and its [used_mem] is read afterwards. *)
Definition erase_postprocess (p : nat) (c : lru_cache) : option lru_cache :=
  match list_remove p c with
  | None => None
  | Some (ret, c) =>
      match (if ret then delete_node p c else Some c) with
      | None => None
      | Some c =>
          match c_nodes c !! p with
          | Some n => Some (lru_set_used (c_mem_size_used c - n_used_mem n) c)
          | None => None
          end
      end
  end.

(** [intrusive_erase] *)
Definition intrusive_erase (key : K) (c : lru_cache) : option lru_cache :=
  match walk key c with
  | None => None
  | Some n =>
      match intrusive_erase_nolock n key with
      | (_, None) => Some c
      | (n, Some (_, p)) =>
          erase_postprocess p (lru_set_map (set_bucket hasher key n (u64 (hm_element_size (c_map c) - 1)) (c_map c)) c)
      end
  end.

(** [erase] *)
Definition lru_erase (key : K) (c : lru_cache) : option lru_cache := intrusive_erase key c.

(** [erase_nolock(key)] of the hash map *)
Definition map_erase_nolock (key : K) (c : lru_cache) : option lru_cache :=
  match walk key c with
  | None => None
  | Some n =>
      let '(n, ret) := erase_nolock n key in
      Some (lru_set_map (set_bucket hasher key n
                       (if ret then u64 (hm_element_size (c_map c) - 1) else hm_element_size (c_map c)) (c_map c)) c)
  end.

(** [release_nodes]; [mem] is a [size_t]. *)
Fixpoint release_nodes (fuel : nat) (mem : Z) (locked_bucket_key : K) (c : lru_cache) : option lru_cache :=
  if 0 <? mem then
    match fuel with
    | O => None
    | S fuel =>
        match nl_pop_back (c_list c) with
        | None => None
        | Some (l, None) => Some (lru_set_list l c)
        | Some (l, Some p) =>
            let c := lru_set_list l c in
            match c_nodes c !! p with
            | None => None
            | Some n =>
                match (if decide (get_bucket_idx locked_bucket_key c = get_bucket_idx (n_key n) c) then
                         match map_erase_nolock (n_key n) c with
                         | Some c => Some (lru_set_used (c_mem_size_used c - n_used_mem n) c)
                         | None => None
                         end
                       else
                         match lru_erase (n_key n) c with
                         | Some c => match list_remove p c with Some (_, c) => Some c | None => None end
                         | None => None
                         end) with
                | None => None
                | Some c =>
                    match delete_node p c with
                    | Some c => release_nodes fuel (u64 (mem - n_used_mem n)) locked_bucket_key c
                    | None => None
                    end
                end
            end
        end
    end
  else Some c.

(** Every round deletes a node. *)
Definition release (mem : Z) (key : K) (c : lru_cache) : option lru_cache :=
  release_nodes (S (size (c_nodes c))) mem key c.

(** The hooks of [intrusive_put] *)
Definition put_preprocess (p : nat) (c : lru_cache) : option bool :=
  match c_nodes c !! p with Some n => Some (negb (c_mem_size c <? n_used_mem n)) | None => None end.

Definition put_postprocess (p : nat) (c : lru_cache) : option lru_cache :=
  match c_nodes c !! p with
  | None => None
  | Some n =>
      match (if c_mem_size c <? u64 (n_used_mem n + c_mem_size_used c) then release (n_used_mem n) (n_key n) c
             else Some c) with
      | Some c => Some (lru_set_used (c_mem_size_used c + n_used_mem n) c)
      | None => None
      end
  end.

(** [intrusive_put] *)
Definition intrusive_put (key : K) (val : nat) (c : lru_cache) : option (bool * lru_cache) :=
  match put_preprocess val c with
  | None => None
  | Some false => Some (false, c)
  | Some true =>
      match walk key c with
      | None => None
      | Some n =>
          match intrusive_put_nolock n key (key, val) with
          | (_, false) => Some (false, c)
          | (n, true) =>
              let c := lru_set_map (set_bucket hasher key n (u64 (hm_element_size (c_map c) + 1)) (c_map c)) c in
              match put_postprocess val c with Some c => Some (true, c) | None => None end
          end
      end
  end.

(** [put] *)
Definition lru_put (key : K) (mem : Z) (value : V) (c : lru_cache) : option (bool * lru_cache) :=
  let '(p, c) := new_node (mk_LRUNode key value mem) c in
  match intrusive_put key p c with
  | None => None
  | Some (false, c) => match delete_node p c with Some c => Some (false, c) | None => None end
  | Some (true, c) => match list_push_front p c with Some c => Some (true, c) | None => None end
  end.

(** The hook of [intrusive_exchange] *)
Definition exchange_postprocess (cur ori : nat) (ret : bool) (c : lru_cache) : option lru_cache :=
  match c_nodes c !! cur with
  | None => None
  | Some n =>
      match (if ret then
               match c_nodes c !! ori with
               | Some o => Some (lru_set_used (c_mem_size_used c + (n_used_mem n - n_used_mem o)) c)
               | None => None
               end
             else Some (lru_set_used (c_mem_size_used c + n_used_mem n) c)) with
      | None => None
      | Some c =>
          if c_mem_size c <? c_mem_size_used c then release (c_mem_size_used c - c_mem_size c) (n_key n) c else Some c
      end
  end.

(** [intrusive_exchange]; with the node that is left in the caller's [val] *)
Definition intrusive_exchange (key : K) (val : nat) (c : lru_cache) : option (bool * nat * lru_cache) :=
  match walk key c with
  | None => None
  | Some n =>
      let to_exchange := val in
      let '(n, ret, (_, val)) := intrusive_exchange_nolock n key (key, val) in
      let c := lru_set_map (set_bucket hasher key n
                          (if ret then hm_element_size (c_map c) else u64 (hm_element_size (c_map c) + 1)) (c_map c)) c in
      match exchange_postprocess to_exchange val ret c with Some c => Some (ret, val, c) | None => None end
  end.

(** [exchange] *)
Definition lru_exchange (key : K) (mem : Z) (value : V) (c : lru_cache) : option (bool * lru_cache) :=
  let '(ori, c) := new_node (mk_LRUNode key value mem) c in
  match intrusive_exchange key ori c with
  | None => None
  | Some (ret, p, c) =>
      match (if ret then
               match list_remove p c with
               | Some (true, c) => delete_node p c
               | Some (false, c) => Some c
               | None => None
               end
             else Some c) with
      | Some c => match list_push_front ori c with Some c => Some (ret, c) | None => None end
      | None => None
      end
  end.

(** [delete p] of a [LRUNode] through a [Node<V>*]: without a virtual destructor
    of [Node] it is undefined. *)
Definition delete_base (virtual_destructor : bool) (p : nat) (c : lru_cache) : option lru_cache :=
  if virtual_destructor then delete_node p c else None.

(** [Node] declares no destructor. *)
Definition Node_virtual_destructor : bool := false.

(** The loop of [~LRUCache] *)
Fixpoint destroy_loop (virtual_destructor : bool) (fuel : nat) (c : lru_cache) : option lru_cache :=
  match fuel with
  | O => None
  | S fuel =>
      match nl_pop_back (c_list c) with
      | None => None
      | Some (l, None) => Some (lru_set_list l c)
      | Some (l, Some p) =>
          match delete_base virtual_destructor p (lru_set_list l c) with
          | Some c => destroy_loop virtual_destructor fuel c
          | None => None
          end
      end
  end.

(** [deallocate_buckets] deletes no intrusive node, but follows [hash_next] of
    every one: whether each is live *)
Definition deallocate_buckets (c : lru_cache) : bool :=
  forallb (fun kp => bool_decide (is_Some (c_nodes c !! kp.2))) (concat (hm_buckets (c_map c))).

(** [destroy] of the hash map *)
Definition map_destroy (c : lru_cache) : option lru_cache :=
  if deallocate_buckets c then
    Some (lru_set_map (mk_hash_map [] 0 (hm_element_size (c_map c))) c)
  else None.

(** [~LRUCache] *)
Definition destroy_lru (virtual_destructor : bool) (c : lru_cache) : option lru_cache :=
  match map_destroy c with
  | Some c => destroy_loop virtual_destructor (S (size (c_nodes c))) c
  | None => None
  end.

End Cache.

(** ** What the cache promises *)

Section Spec.
Context {K : Type} `{Countable K} {V : Type}.
Abbreviation LRUNode := (LRUNode (K := K) (V := V)).

Inductive lru_op : Type :=
| Get (key : K)
| Put (key : K) (mem : Z) (value : V)
| Exchange (key : K) (mem : Z) (value : V)
| Erase (key : K).

Inductive lru_answer : Type :=
| Got (value : option V)
| Stored (ret : bool)
| Erased.

(** The entries from the most to the least recently used one, and the counts of
    queries *)
Record lru_spec := mk_spec { s_entries : list LRUNode; s_hits : Z; s_total : Z }.

Fixpoint mems (l : list LRUNode) : Z :=
  match l with [] => 0 | n :: l => n_used_mem n + mems l end.

Definition find_entry (key : K) (l : list LRUNode) : option LRUNode := head (filter (fun n => n_key n = key) l).

(** From the oldest on, entries go until their memory is [need] to the byte:
    when it never is, all of them. *)
Fixpoint evict (need : Z) (oldest_first : list LRUNode) : list LRUNode :=
  if need =? 0 then oldest_first
  else match oldest_first with [] => [] | n :: l => evict (need - n_used_mem n) l end.

Definition evicted (need : Z) (l : list LRUNode) : list LRUNode := rev (evict need (rev l)).

Definition lru_spec_op (cap : Z) (op : lru_op) (s : lru_spec) : lru_answer * lru_spec :=
  let '(mk_spec l hits total) := s in
  match op with
  | Get key =>
      match find_entry key l with
      | Some n => (Got (Some (n_value n)), mk_spec (n :: filter (fun m => n_key m <> key) l) (u64 (hits + 1)) (u64 (total + 1)))
      | None => (Got None, mk_spec l hits (u64 (total + 1)))
      end
  | Put key mem value =>
      if (cap <? mem) || bool_decide (is_Some (find_entry key l)) then (Stored false, s)
      else (Stored true,
            mk_spec (mk_LRUNode key value mem :: if cap <? mem + mems l then evicted mem l else l) hits total)
  | Exchange key mem value =>
      (Stored false,
       mk_spec (mk_LRUNode key value mem :: if cap <? mem + mems l then evicted (mem + mems l - cap) l else l) hits total)
  | Erase key => (Erased, s)
  end.

(** Sizes are [size_t]; [exchange] is given a key that is not there and a size
    that fits, [erase] a key that is not there. *)
Definition lru_op_ok (cap : Z) (op : lru_op) (s : lru_spec) : Prop :=
  match op with
  | Get _ => True
  | Put _ mem _ => 0 <= mem < 2 ^ 64
  | Exchange key mem _ => 0 <= mem <= cap /\ find_entry key (s_entries s) = None
  | Erase key => find_entry key (s_entries s) = None
  end.

End Spec.

Section Run.
Context {K : Type} `{Countable K} {V : Type} (hasher : K -> Z) {L : Type} `{NodeList L}.

Definition lru_call (op : lru_op (K := K) (V := V)) (c : lru_cache (K := K) (V := V) (L := L)) :
    option (lru_answer (V := V) * lru_cache) :=
  match op with
  | Get key => match lru_get hasher key c with Some (v, c) => Some (Got v, c) | None => None end
  | Put key mem value => match lru_put hasher key mem value c with Some (b, c) => Some (Stored b, c) | None => None end
  | Exchange key mem value =>
      match lru_exchange hasher key mem value c with Some (b, c) => Some (Stored b, c) | None => None end
  | Erase key => match lru_erase hasher key c with Some c => Some (Erased, c) | None => None end
  end.

Fixpoint lru_calls (ops : list lru_op) (c : lru_cache) : option (list (lru_answer (V := V)) * lru_cache) :=
  match ops with
  | [] => Some ([], c)
  | op :: ops =>
      match lru_call op c with
      | Some (a, c) => match lru_calls ops c with Some (r, c) => Some (a :: r, c) | None => None end
      | None => None
      end
  end.

Fixpoint lru_spec_ops (cap : Z) (ops : list (lru_op (K := K) (V := V))) (s : lru_spec) : list (lru_answer (V := V)) * lru_spec :=
  match ops with
  | [] => ([], s)
  | op :: ops => let '(a, s) := lru_spec_op cap op s in let '(r, s) := lru_spec_ops cap ops s in (a :: r, s)
  end.

Fixpoint lru_ops_ok (cap : Z) (ops : list (lru_op (K := K) (V := V))) (s : lru_spec) : Prop :=
  match ops with
  | [] => True
  | op :: ops => lru_op_ok cap op s /\ lru_ops_ok cap ops (lru_spec_op cap op s).2
  end.

End Run.

(** ** The state between operations and inside them *)

Section Proofs.
Context {K : Type} `{Countable K} {V : Type} (hasher : K -> Z) {L : Type} `{NodeListLaws L}.
Abbreviation node := (nat * LRUNode (K := K) (V := V))%type.
Abbreviation cache := (lru_cache (K := K) (V := V) (L := L)).

Definition key_of (x : node) : K := n_key x.2.
Definition map_entry (x : node) : K * nat := (n_key x.2, x.1).

(** Live nodes are of three sorts: [fs] are in no container, [es] only in the
    hash map, [ns] in the map and the list. *)
Record lru_inv (c : cache) (fs es ns : list node) : Prop := {
  li_list : nl_rep (c_list c) ns.*1;
  li_nodes : c_nodes c = list_to_map (fs ++ es ++ ns);
  li_addr : NoDup (fs ++ es ++ ns).*1;
  li_fresh : Forall (fun p => 2 <= p < c_fresh c)%nat (fs ++ es ++ ns).*1;
  li_two : (2 <= c_fresh c)%nat;
  li_hash : hm_ok hasher (c_map c);
  li_keys : NoDup (key_of <$> es ++ ns);
  li_map : hm_map (c_map c) = list_to_map (map_entry <$> es ++ ns)
}.

(** What only [get] and the constructor change *)
Definition params (c : cache) : Z * Z * Z := (c_mem_size c, c_hit_query_times c, c_total_query_times c).

(** *** Lists of nodes *)

Ltac mem_solver := repeat first [rewrite elem_of_app in * | rewrite elem_of_cons in *]; tauto.

Lemma delete_mid {A B : Type} `{Countable A} (l1 l2 : list (A * B)) a b :
  NoDup (l1 ++ (a, b) :: l2).*1 -> delete a (list_to_map (l1 ++ (a, b) :: l2) : gmap A B) = list_to_map (l1 ++ l2).
Proof.
  intros Hnd. rewrite fmap_app in Hnd. cbn in Hnd. apply list.NoDup_app in Hnd as (_ & Hdis & Hl2%list.NoDup_cons).
  destruct Hl2 as [Ha _]. rewrite list_to_map_app, list_to_map_cons, list_to_map_app.
  rewrite delete_union, delete_insert_eq, !delete_id; [done|..].
  - by apply not_elem_of_list_to_map_1.
  - apply not_elem_of_list_to_map_1. intros Hin. apply (Hdis a Hin). by left.
Qed.

Lemma entries_keys (l : list node) : (map_entry <$> l).*1 = key_of <$> l.
Proof. rewrite <- list_fmap_compose. by apply list_fmap_ext. Qed.

Section Inv.
Context {c : cache} {fs es ns : list node} (Hi : lru_inv c fs es ns).

Lemma inv_live p n : c_nodes c !! p = Some n <-> (p, n) ∈ fs ++ es ++ ns.
Proof. rewrite (li_nodes _ _ _ _ Hi). symmetry. apply elem_of_list_to_map, (li_addr _ _ _ _ Hi). Qed.

Lemma inv_lookup k p : hm_map (c_map c) !! k = Some p <-> exists n, (p, n) ∈ es ++ ns /\ n_key n = k.
Proof.
  rewrite (li_map _ _ _ _ Hi). rewrite <- elem_of_list_to_map by (rewrite entries_keys; apply (li_keys _ _ _ _ Hi)).
  rewrite list_elem_of_fmap. unfold map_entry. split.
  - intros ([q n] & Heq & Hin). cbn in Heq. simplify_eq. by exists n.
  - intros (n & Hin & <-). by exists (p, n).
Qed.

Lemma inv_addr p n : (p, n) ∈ fs ++ es ++ ns -> (2 <= p < c_fresh c)%nat.
Proof.
  intros Hin. pose proof (li_fresh _ _ _ _ Hi) as Hf. rewrite list.Forall_forall in Hf. apply Hf.
  apply list_elem_of_fmap. by exists (p, n).
Qed.

(** Nodes change their sort when the list changes. *)
Lemma inv_move l fs' es' ns' :
  fs ++ es ++ ns ≡ₚ fs' ++ es' ++ ns' -> es ++ ns ≡ₚ es' ++ ns' -> nl_rep l ns'.*1 ->
  lru_inv (lru_set_list l c) fs' es' ns'.
Proof.
  intros Hp Hq Hl. destruct Hi. split; cbn; try done.
  - rewrite li_nodes0. by apply list_to_map_proper.
  - by rewrite <- Hp.
  - by rewrite <- Hp.
  - by rewrite <- Hq.
  - rewrite li_map0. apply list_to_map_proper; [by rewrite entries_keys|by rewrite Hq].
Qed.

Lemma inv_set_used u : lru_inv (lru_set_used u c) fs es ns.
Proof. by destruct Hi. Qed.

Lemma inv_set_times h t : lru_inv (lru_set_times h t c) fs es ns.
Proof. by destruct Hi. Qed.

(** [new] and [delete] *)
Lemma inv_new n : lru_inv (new_node n c).2 ((c_fresh c, n) :: fs) es ns.
Proof.
  destruct Hi. split; cbn; try done; [by rewrite li_nodes0| |constructor|lia].
  - apply list.NoDup_cons. split; [|done]. intros Hin. rewrite list.Forall_forall in li_fresh0.
    specialize (li_fresh0 _ Hin). lia.
  - lia.
  - apply (list.Forall_impl _ _ _ li_fresh0). cbn. lia.
Qed.

(** Walking a bucket meets only live nodes. *)
Lemma bucket_In key k p : (k, p) ∈ bucket hasher key (c_map c) -> hm_map (c_map c) !! k = Some p.
Proof.
  intros Hin. destruct (bucket_ok hasher key _ (li_hash _ _ _ _ Hi)) as [Hnd Hen].
  rewrite (lookup_same_entry hasher _ k key).
  - rewrite <- list_to_map_get. by apply elem_of_list_to_map.
  - apply (li_hash _ _ _ _ Hi).
  - apply Hen. apply list_elem_of_fmap. by exists (k, p).
Qed.

Lemma map_live k p : hm_map (c_map c) !! k = Some p -> is_Some (c_nodes c !! p).
Proof. intros (n & Hin & _)%inv_lookup. exists n. apply inv_live. mem_solver. Qed.

Lemma walk_ok key : walk hasher key c = Some (bucket hasher key (c_map c)).
Proof.
  unfold walk. pose proof (bucket_In key) as Hb. induction (bucket hasher key (c_map c)) as [|[k p] b IH]; [done|].
  cbn [chain_alive]. rewrite bool_decide_eq_true_2 by (eapply map_live, Hb; by left). cbn [andb].
  case_decide; [done|].
  assert (forall k p, (k, p) ∈ b -> hm_map (c_map c) !! k = Some p) as Hb' by (intros; apply Hb; by right).
  specialize (IH Hb'). by destruct (chain_alive b key (c_nodes c)).
Qed.

Lemma get_chain key : hm_map (c_map c) !! key = get_nolock (bucket hasher key (c_map c)) key.
Proof. apply hm_lookup, (li_hash _ _ _ _ Hi). Qed.

End Inv.

(** [_list.remove] *)
Lemma remove_absent c fs es ns p n :
  lru_inv c fs es ns -> (p, n) ∈ fs ++ es -> exists l, list_remove p c = Some (false, lru_set_list l c) /\ lru_inv (lru_set_list l c) fs es ns.
Proof.
  intros Hi Hin. assert ((p, n) ∈ fs ++ es ++ ns) as Hin' by mem_solver.
  destruct (nl_remove_rep _ _ p (li_list _ _ _ _ Hi)) as (l & E & Hl); [apply (inv_addr Hi) in Hin'; lia|].
  assert (p ∉ ns.*1) as Hp.
  { pose proof (li_addr _ _ _ _ Hi) as Hnd. rewrite app_assoc, fmap_app in Hnd.
    apply list.NoDup_app in Hnd as (_ & Hdis & _). apply Hdis, list_elem_of_fmap. by exists (p, n). }
  exists l. unfold list_remove. apply (inv_live Hi) in Hin' as ->. rewrite E, bool_decide_eq_false_2 by done. split; [done|].
  apply (inv_move Hi); [done|done|]. rewrite filter_all in Hl; [done|]. by intros x Hx ->.
Qed.

(** Taking a node out of the middle of the list *)
Lemma remove_present c fs es a p n b :
  lru_inv c fs es (a ++ (p, n) :: b) ->
  exists l, list_remove p c = Some (true, lru_set_list l c) /\ lru_inv (lru_set_list l c) fs ((p, n) :: es) (a ++ b).
Proof.
  intros Hi. assert ((p, n) ∈ fs ++ es ++ a ++ (p, n) :: b) as Hin by mem_solver.
  destruct (nl_remove_rep _ _ p (li_list _ _ _ _ Hi)) as (l & E & Hl); [apply (inv_addr Hi) in Hin; lia|].
  assert (p ∈ (a ++ (p, n) :: b).*1) as Hp by (apply list_elem_of_fmap; exists (p, n); mem_solver).
  exists l. unfold list_remove. apply (inv_live Hi) in Hin as ->. rewrite E, bool_decide_eq_true_2 by done. split; [done|].
  apply (inv_move Hi).
  - f_equiv. cbn. rewrite <- Permutation_middle. by rewrite <- Permutation_middle.
  - cbn. rewrite <- Permutation_middle. by rewrite <- Permutation_middle.
  - pose proof (li_addr _ _ _ _ Hi) as Hnd. rewrite !fmap_app in Hnd. apply list.NoDup_app in Hnd as (_ & _ & Hnd).
    apply list.NoDup_app in Hnd as (_ & _ & Hnd). cbn in Hnd.
    rewrite fmap_app in Hl. cbn in Hl. rewrite list.filter_app in Hl. rewrite filter_cons_False in Hl by (by intros []).
    assert ((p ∉ a.*1) /\ (p ∉ b.*1)) as [Ha Hb].
    { apply list.NoDup_app in Hnd as (_ & Hdis & Hnd%list.NoDup_cons). split; [|by destruct Hnd].
      intros Hin. apply (Hdis p Hin). by left. }
    rewrite !filter_all in Hl by (by intros x Hx ->). by rewrite fmap_app.
Qed.

Lemma push_front_inv c fs es p n ns :
  lru_inv c fs ((p, n) :: es) ns ->
  exists l, list_push_front p c = Some (lru_set_list l c) /\ lru_inv (lru_set_list l c) fs es ((p, n) :: ns).
Proof.
  intros Hi. assert ((p, n) ∈ fs ++ ((p, n) :: es) ++ ns) as Hin by mem_solver.
  assert (p ∉ ns.*1) as Hp.
  { pose proof (li_addr _ _ _ _ Hi) as Hnd. rewrite app_assoc, fmap_app in Hnd.
    apply list.NoDup_app in Hnd as (_ & Hdis & _). apply Hdis, list_elem_of_fmap. exists (p, n). mem_solver. }
  destruct (nl_push_rep _ _ p (li_list _ _ _ _ Hi)) as (l & E & Hl); [apply (inv_addr Hi) in Hin; lia|done|].
  exists l. unfold list_push_front. apply (inv_live Hi) in Hin as ->. rewrite E. split; [done|].
  apply (inv_move Hi); [|by rewrite <- Permutation_middle|done]. f_equiv. cbn. by rewrite <- Permutation_middle.
Qed.

Lemma pop_back_inv c fs es ns x :
  lru_inv c fs es (ns ++ [x]) ->
  exists l, nl_pop_back (c_list c) = Some (l, Some x.1) /\ lru_inv (lru_set_list l c) fs (x :: es) ns.
Proof.
  intros Hi. destruct (nl_pop_rep _ _ (li_list _ _ _ _ Hi)) as (l & E & Hl). exists l.
  rewrite fmap_app in E, Hl. cbn in E, Hl. rewrite last_snoc in E. rewrite removelast_last in Hl. split; [done|].
  apply (inv_move Hi); [f_equiv| |done]; cbn; rewrite Permutation_middle, (Permutation_app_comm ns), <- app_comm_cons; done.
Qed.

Lemma delete_inv c fs es ns p n :
  lru_inv c ((p, n) :: fs) es ns -> exists c', delete_node p c = Some c' /\ lru_inv c' fs es ns
    /\ c' = lru_set_nodes (delete p (c_nodes c)) c.
Proof.
  intros Hi. assert ((p, n) ∈ ((p, n) :: fs) ++ es ++ ns) as Hin by mem_solver. unfold delete_node.
  apply (inv_live Hi) in Hin as ->. eexists. split_and!; [done| |done]. destruct Hi. split; cbn in *; try done.
  - rewrite li_nodes0. by apply (delete_mid []).
  - by apply list.NoDup_cons in li_addr0 as [_ ?].
  - by inversion li_fresh0.
Qed.

(** *** The hash map *)

Lemma intrusive_put_plain (n : chain K nat) key p : intrusive_put_nolock n key (key, p) = put_nolock n key p.
Proof. induction n as [|[k v] n IH]; [done|]. cbn. by rewrite IH. Qed.

Lemma intrusive_get_plain (n : chain K nat) key : intrusive_get_nolock n key = (key,.) <$> get_nolock n key.
Proof. induction n as [|[k v] n IH]; [done|]. cbn. case_decide; [by subst|done]. Qed.

Lemma intrusive_erase_plain (n : chain K nat) key :
  intrusive_erase_nolock n key = ((erase_nolock n key).1, (key,.) <$> get_nolock n key).
Proof.
  induction n as [|[k v] n IH]; [done|]. cbn. case_decide; [by subst|]. rewrite IH. by destruct (erase_nolock n key).
Qed.

Lemma inv_set_map c fs es ns m fs' es' :
  lru_inv c fs es ns -> fs ++ es ≡ₚ fs' ++ es' -> hm_ok hasher m -> NoDup (key_of <$> es' ++ ns) ->
  hm_map m = list_to_map (map_entry <$> es' ++ ns) -> lru_inv (lru_set_map m c) fs' es' ns.
Proof.
  intros Hi Hp Hm Hk Hmap. assert (fs ++ es ++ ns ≡ₚ fs' ++ es' ++ ns) as Hq by (rewrite !app_assoc; by f_equiv).
  destruct Hi. split; cbn; try done.
  - rewrite li_nodes0. by apply list_to_map_proper.
  - by rewrite <- Hq.
  - by rewrite <- Hq.
Qed.

(** A node with a new key goes into the map. *)
Lemma put_inv c fs es ns p n m :
  lru_inv c ((p, n) :: fs) es ns -> hm_put hasher (n_key n) p (c_map c) = (m, true) ->
  lru_inv (lru_set_map m c) fs ((p, n) :: es) ns.
Proof.
  intros Hi E. destruct (hm_put_ok hasher _ _ _ _ _ (li_hash _ _ _ _ Hi) E) as [Hm Hcase].
  destruct (hm_map (c_map c) !! n_key n) eqn:Ek; destruct Hcase as [Hmap Hr]; [done|].
  apply (inv_set_map _ _ _ _ _ _ _ Hi); [apply Permutation_middle|done|..]; cbn.
  - apply list.NoDup_cons. split; [|apply (li_keys _ _ _ _ Hi)]. intros ([q n'] & Hk & Hin)%list_elem_of_fmap.
    assert (hm_map (c_map c) !! n_key n = Some q) as Hq by (apply (inv_lookup Hi); by exists n'). congruence.
  - rewrite Hmap. by rewrite (li_map _ _ _ _ Hi).
Qed.

(** A node leaves the map. *)
Lemma erase_inv c fs es ns p n m r :
  lru_inv c fs ((p, n) :: es) ns -> hm_erase hasher (n_key n) (c_map c) = (m, r) ->
  r = true /\ lru_inv (lru_set_map m c) ((p, n) :: fs) es ns.
Proof.
  intros Hi E. destruct (hm_erase_ok hasher _ _ _ _ (li_hash _ _ _ _ Hi) E) as (Hm & Hmap & ->).
  pose proof (li_keys _ _ _ _ Hi) as Hk. cbn in Hk. split.
  - apply bool_decide_eq_true_2. exists p. apply (inv_lookup Hi). exists n. split; [mem_solver|done].
  - apply (inv_set_map _ _ _ _ _ _ _ Hi); [symmetry; apply Permutation_middle|done|..].
    + by apply list.NoDup_cons in Hk as [_ ?].
    + rewrite Hmap, (li_map _ _ _ _ Hi). cbn. apply (delete_mid []). cbn. by rewrite entries_keys.
Qed.

Lemma erase_parts key (m : hash_map (V := nat)) :
  hm_erase hasher key m
  = (set_bucket hasher key (erase_nolock (bucket hasher key m) key).1
       (if (erase_nolock (bucket hasher key m) key).2 then u64 (hm_element_size m - 1) else hm_element_size m) m,
     (erase_nolock (bucket hasher key m) key).2).
Proof. unfold hm_erase. by destruct (erase_nolock _ _). Qed.

(** *** Eviction *)

(** [erase] of an entry that has left the list already deletes nothing. *)
Lemma erase_unlisted c fs es ns p n :
  lru_inv c fs ((p, n) :: es) ns ->
  exists c', lru_erase hasher (n_key n) c = Some c' /\ lru_inv c' ((p, n) :: fs) es ns
    /\ c_mem_size_used c' = u64 (c_mem_size_used c - n_used_mem n)
    /\ params c' = params c.
Proof.
  intros Hi. unfold lru_erase, intrusive_erase. rewrite (walk_ok Hi), intrusive_erase_plain.
  assert (hm_map (c_map c) !! n_key n = Some p) as Hp by (apply (inv_lookup Hi); exists n; split; [mem_solver|done]).
  rewrite (get_chain Hi) in Hp. pose proof (erase_parts (n_key n) (c_map c)) as E. rewrite Hp. cbn.
  destruct (erase_inv _ _ _ _ _ _ _ _ Hi E) as [Hr Hi']. rewrite Hr in Hi'.
  destruct (remove_absent _ _ _ _ p n Hi') as (l & El & Hi''); [mem_solver|].
  unfold erase_postprocess. rewrite El.
  assert (c_nodes (lru_set_list l (lru_set_map (set_bucket hasher (n_key n)
    (erase_nolock (bucket hasher (n_key n) (c_map c)) (n_key n)).1 (u64 (hm_element_size (c_map c) - 1)) (c_map c)) c)) !! p
    = Some n) as Hn by (apply (inv_live Hi''); mem_solver).
  rewrite Hn. eexists. split; [done|]. split; [by apply inv_set_used|done].
Qed.

(** One round of [release_nodes] *)
Lemma evict_one key c fs es ns p n :
  lru_inv c fs ((p, n) :: es) ns ->
  exists c', (if decide (get_bucket_idx hasher key c = get_bucket_idx hasher (n_key n) c) then
                match map_erase_nolock hasher (n_key n) c with
                | Some c => Some (lru_set_used (c_mem_size_used c - n_used_mem n) c)
                | None => None
                end
              else
                match lru_erase hasher (n_key n) c with
                | Some c => match list_remove p c with Some (_, c) => Some c | None => None end
                | None => None
                end) = Some c'
    /\ lru_inv c' ((p, n) :: fs) es ns /\ c_mem_size_used c' = u64 (c_mem_size_used c - n_used_mem n)
    /\ params c' = params c.
Proof.
  intros Hi. case_decide as Hb.
  - unfold map_erase_nolock. rewrite (walk_ok Hi).
    pose proof (erase_inv _ _ _ _ _ _ _ _ Hi (erase_parts (n_key n) (c_map c))) as [Hr Hi'].
    destruct (erase_nolock (bucket hasher (n_key n) (c_map c)) (n_key n)) as [b r]. cbn in Hr, Hi'. subst r.
    eexists. split; [done|]. split; [by apply inv_set_used|done].
  - destruct (erase_unlisted _ _ _ _ _ _ Hi) as (c1 & -> & Hi1 & Hu & Hp).
    destruct (remove_absent _ _ _ _ p n Hi1) as (l & -> & Hi2); [mem_solver|].
    exists (lru_set_list l c1). by split_and!.
Qed.

Lemma u64_nonzero need : -(2 ^ 64) < need < 2 ^ 64 -> (0 <? u64 need) = negb (need =? 0).
Proof.
  unfold u64. intros Hn. apply eq_true_iff_eq. rewrite Z.ltb_lt, negb_true_iff, Z.eqb_neq.
  Z.to_euclidean_division_equations. lia.
Qed.

Definition sizes_ok (l : list (LRUNode (K := K) (V := V))) : Prop := Forall (fun n => 0 <= n_used_mem n) l.

Lemma mems_nonneg (l : list (LRUNode (K := K) (V := V))) : sizes_ok l -> 0 <= mems l.
Proof. induction 1; cbn; lia. Qed.

Lemma mems_app (l l' : list (LRUNode (K := K) (V := V))) : mems (l ++ l') = mems l + mems l'.
Proof. induction l as [|n l IH]; cbn; [done|]. rewrite IH. lia. Qed.

Lemma release_nodes_ok key extra fuel : forall ns c fs es need,
  lru_inv c fs es ns -> (length ns < fuel)%nat -> sizes_ok ns.*2 -> 0 <= extra ->
  c_mem_size_used c = extra + mems ns.*2 -> c_mem_size_used c < 2 ^ 64 ->
  -(2 ^ 64) < need - mems ns.*2 -> need < 2 ^ 64 ->
  exists c' ns', release_nodes hasher fuel (u64 need) key c = Some c' /\ lru_inv c' fs es ns'
    /\ ns'.*2 = evicted need ns.*2 /\ c_mem_size_used c' = extra + mems ns'.*2 /\ params c' = params c.
Proof.
  induction fuel as [|fuel IH]; intros ns c fs es need Hi Hf Hs He Hu Hu64 Hlo Hhi; [lia|].
  pose proof (mems_nonneg _ Hs) as Hm. cbn [release_nodes]. rewrite u64_nonzero by lia.
  destruct ns as [|[p n] ns _] using rev_ind.
  { destruct (nl_pop_rep _ _ (li_list _ _ _ _ Hi)) as (l & -> & Hl). unfold evicted.
    destruct (Z.eqb_spec need 0); cbn [negb]; [exists c|exists (lru_set_list l c)]; exists []; split_and!; try done.
    - cbn. by destruct (Z.eqb_spec need 0).
    - by apply (inv_move Hi).
    - cbn. by destruct (Z.eqb_spec need 0). }
  rewrite fmap_app in *. cbn [fmap list_fmap snd] in *. unfold evicted. rewrite rev_unit. cbn [evict].
  destruct (Z.eqb_spec need 0) as [->|Hn0]; cbn [negb].
  { exists c, (ns ++ [(p, n)]). rewrite fmap_app. split_and!; try done. cbn. by rewrite rev_involutive. }
  destruct (pop_back_inv _ _ _ _ _ Hi) as (l & -> & Hi1). cbn [fst].
  assert (c_nodes (lru_set_list l c) !! p = Some n) as -> by (apply (inv_live Hi1); mem_solver).
  destruct (evict_one key _ _ _ _ _ _ Hi1) as (c2 & -> & Hi2 & Hu2 & Hp2).
  destruct (delete_inv _ _ _ _ _ _ Hi2) as (c3 & -> & Hi3 & E3).
  apply list.Forall_app in Hs as [Hs Hsn]. inversion_clear Hsn. rewrite mems_app in *. cbn [mems] in *.
  pose proof (mems_nonneg _ Hs). rewrite length_app in Hf. cbn in Hf.
  assert (c_mem_size_used c3 = extra + mems ns.*2) as Hu3.
  { rewrite E3. cbn. rewrite Hu2. cbn. rewrite u64_small; lia. }
  replace (u64 (u64 need - n_used_mem n)) with (u64 (need - n_used_mem n)) by (unfold u64; by rewrite Zminus_mod_idemp_l).
  destruct (IH ns c3 fs es (need - n_used_mem n)) as (c4 & ns' & E4 & Hi4 & Hns & Hu4 & Hp4); try done; try lia.
  exists c4, ns'. split_and!; try done. rewrite Hp4, E3. done.
Qed.

(** *** The cache implements the specification *)

Record lru_ok (cap : Z) (c : cache) (s : lru_spec) : Prop := {
  lo_inv : exists ns, lru_inv c [] [] ns /\ ns.*2 = s_entries s;
  lo_used : c_mem_size_used c = mems (s_entries s);
  lo_fits : mems (s_entries s) <= cap;
  lo_sizes : sizes_ok (s_entries s);
  lo_params : params c = (cap, s_hits s, s_total s)
}.

Lemma filter_none {X} (P : X -> Prop) `{!forall x, Decision (P x)} (l : list X) :
  (forall x, x ∈ l -> ~ P x) -> filter P l = [].
Proof.
  induction l as [|x l IH]; intros Hl; [done|]. rewrite filter_cons_False by (apply Hl; by left).
  apply IH. intros y Hy. apply Hl. by right.
Qed.

Lemma find_absent (key : K) (l : list (LRUNode (V := V))) : find_entry key l = None <-> key ∉ n_key <$> l.
Proof.
  unfold find_entry. induction l as [|n l IH]; [split; [intros _ []%elem_of_nil|done]|].
  rewrite fmap_cons, not_elem_of_cons. destruct (decide (n_key n = key)) as [Hk|Hk].
  - rewrite filter_cons_True by done. split; [done|]. by intros [[] _].
  - rewrite filter_cons_False by done. rewrite IH. split; [split; congruence|by intros [_ ?]].
Qed.

Lemma map_absent c es ns key : lru_inv c [] es ns -> hm_map (c_map c) !! key = None <-> find_entry key (es ++ ns).*2 = None.
Proof.
  intros Hi. rewrite find_absent, (li_map _ _ _ _ Hi), <- not_elem_of_list_to_map, entries_keys.
  by rewrite <- list_fmap_compose.
Qed.

(** Where the entry of a key is *)
Lemma map_present c ns key p :
  lru_inv c [] [] ns -> hm_map (c_map c) !! key = Some p ->
  exists a n b, ns = a ++ (p, n) :: b /\ find_entry key ns.*2 = Some n
    /\ filter (fun m => n_key m <> key) ns.*2 = (a ++ b).*2.
Proof.
  intros Hi Hl. apply (inv_lookup Hi) in Hl as (n & Hin & <-). cbn in Hin. apply list_elem_of_split in Hin as (a & b & ->). exists a, n, b.
  pose proof (li_keys _ _ _ _ Hi) as Hk. cbn in Hk. rewrite fmap_app in Hk. cbn in Hk.
  apply list.NoDup_app in Hk as (_ & Hdis & Hb%list.NoDup_cons). destruct Hb as [Hb _].
  assert (forall m, m ∈ a.*2 -> n_key m <> n_key n) as Ha'.
  { intros m ([q m'] & -> & Hq)%list_elem_of_fmap Heq. apply (Hdis (n_key n)); [|by left].
    apply list_elem_of_fmap. by exists (q, m'). }
  assert (forall m, m ∈ b.*2 -> n_key m <> n_key n) as Hb'.
  { intros m ([q m'] & -> & Hq)%list_elem_of_fmap Heq. apply Hb, list_elem_of_fmap. by exists (q, m'). }
  split; [done|]. rewrite fmap_app. cbn. unfold find_entry. rewrite !list.filter_app. split.
  - rewrite filter_cons_True by done.
    replace (filter (fun m => n_key m = n_key n) a.*2) with (@nil (LRUNode (K := K) (V := V))); [done|].
    symmetry. by apply filter_none.
  - rewrite filter_cons_False by (by intros []). rewrite fmap_app, !filter_all; [done|exact Hb'|exact Ha'].
Qed.

Lemma get_ok cap c s key :
  lru_ok cap c s -> exists c', lru_call hasher (Get key) c = Some ((lru_spec_op cap (Get key) s).1, c')
    /\ lru_ok cap c' (lru_spec_op cap (Get key) s).2.
Proof.
  intros [(ns & Hi & Hns) Hu Hf Hs Hp]. destruct s as [l hits total]. cbn in Hns, Hu, Hf, Hs, Hp. subst l.
  unfold params in Hp. simplify_eq. unfold lru_call, lru_get, intrusive_get.
  pose proof (inv_set_times Hi (c_hit_query_times c) (u64 (c_total_query_times c + 1))) as Hi0.
  rewrite (walk_ok Hi0), intrusive_get_plain, <- (get_chain Hi0). cbn [lru_set_times c_map]. cbn [lru_spec_op].
  destruct (hm_map (c_map c) !! key) as [p|] eqn:Em; cbn.
  - destruct (map_present _ _ _ _ Hi Em) as (a & n & b & -> & -> & Hfil). unfold get_postprocess.
    pose proof (inv_set_times Hi0 (u64 (c_hit_query_times c + 1)) (u64 (c_total_query_times c + 1))) as Hi1.
    destruct (remove_present _ _ _ _ _ _ _ Hi1) as (l1 & E1 & Hi2). cbn in E1 |- *. rewrite E1.
    destruct (push_front_inv _ _ _ _ _ _ Hi2) as (l2 & E2 & Hi3). rewrite E2.
    assert (c_nodes (lru_set_list l2 (lru_set_list l1 (lru_set_times (u64 (c_hit_query_times c + 1))
      (u64 (c_total_query_times c + 1)) (lru_set_times (c_hit_query_times c) (u64 (c_total_query_times c + 1)) c)))) !! p = Some n)
      as Hn by (apply (inv_live Hi3); mem_solver).
    eexists. cbn in Hn |- *. rewrite Hn. split; [done|]. rewrite Hfil. rewrite fmap_app in Hu, Hf, Hs. cbn in Hu, Hf, Hs.
    rewrite mems_app in Hu, Hf. cbn in Hu, Hf. apply list.Forall_app in Hs as [Hsa Hsb]. inversion_clear Hsb.
    split; cbn; rewrite ?fmap_app, ?mems_app; try lia.
    + exists ((p, n) :: a ++ b). split; [exact Hi3|]. cbn. by rewrite fmap_app.
    + constructor; [done|]. by apply list.Forall_app.
    + done.
  - assert (find_entry key ns.*2 = None) as -> by (by apply (map_absent _ [] _ _ Hi)).
    eexists. split; [done|]. split; cbn; try done. by exists ns.
Qed.

Lemma spec_eta (s : lru_spec (K := K) (V := V)) : s = mk_spec (s_entries s) (s_hits s) (s_total s).
Proof. by destruct s. Qed.

(** A new node that is deleted again leaves everything as it was. *)
Lemma reject_ok cap c s n :
  lru_ok cap c s ->
  exists c', delete_node (c_fresh c) (new_node n c).2 = Some c' /\ lru_ok cap c' s.
Proof.
  intros [(ns & Hi & Hns) Hu Hf Hs Hp]. destruct (delete_inv _ _ _ _ _ _ (inv_new Hi n)) as (c' & E & Hi' & ->).
  eexists. split; [exact E|]. split; try done. by exists ns.
Qed.

(** The end of [put] and [exchange]: room is made for the node that is in the
    map, and the node is put into the list. *)
Lemma make_room cap c ns n p key need extra s :
  lru_inv c [] [(p, n)] ns -> ns.*2 = s_entries s -> sizes_ok (s_entries s) -> 0 <= extra ->
  c_mem_size_used c = extra + mems (s_entries s) -> c_mem_size_used c < 2 ^ 64 -> 0 <= need < 2 ^ 64 ->
  params c = (cap, s_hits s, s_total s) -> mems (s_entries s) <= cap < 2 ^ 63 ->
  exists c', release hasher need key c = Some c' /\ params c' = (cap, s_hits s, s_total s)
    /\ (exists ns', lru_inv c' [] [(p, n)] ns' /\ ns'.*2 = evicted need (s_entries s)
    /\ c_mem_size_used c' = extra + mems (evicted need (s_entries s))).
Proof.
  intros Hi Hns Hs He Hu Hlt Hn Hp Hcap. pose proof (mems_nonneg _ Hs). unfold release. rewrite <- Hns in *.
  destruct (release_nodes_ok key extra (S (size (c_nodes c))) ns c [] [(p, n)] need) as (c' & ns' & E & Hi' & Hns' & Hu' & Hp');
    try done; try lia.
  - rewrite (li_nodes _ _ _ _ Hi), map_size_list_to_map by apply (li_addr _ _ _ _ Hi). cbn. lia.
  - rewrite (u64_small need) in E by done. exists c'. split; [done|]. split; [by rewrite Hp'|]. exists ns'. rewrite <- Hns'. by split_and!.
Qed.

Lemma evict_mems (l : list (LRUNode (K := K) (V := V))) : forall need, sizes_ok l ->
  sizes_ok (evict need l) /\ (evict need l = [] \/ mems (evict need l) = mems l - need).
Proof.
  induction l as [|n l IH]; intros need Hs; cbn.
  { destruct (need =? 0); by split; [|left]. }
  destruct (Z.eqb_spec need 0) as [->|]; [split; [done|right; cbn; lia]|]. inversion_clear Hs.
  destruct (IH (need - n_used_mem n)) as [Hs' [He|He]]; [done| |]; (split; [done|]); [by left|right; lia].
Qed.

Lemma mems_rev (l : list (LRUNode (K := K) (V := V))) : mems (rev l) = mems l.
Proof. induction l as [|n l IH]; cbn; [done|]. rewrite mems_app, IH. cbn. lia. Qed.

Lemma sizes_rev (l : list (LRUNode (K := K) (V := V))) : sizes_ok l -> sizes_ok (rev l).
Proof. apply Forall_rev. Qed.

Lemma evicted_mems (l : list (LRUNode (K := K) (V := V))) need : sizes_ok l ->
  sizes_ok (evicted need l) /\ (evicted need l = [] \/ mems (evicted need l) = mems l - need).
Proof.
  intros Hs. unfold evicted. pose proof (sizes_rev _ Hs) as Hr.
  destruct (evict_mems (rev l) need Hr) as [Hs' He]. rewrite mems_rev in *. split.
  - by apply sizes_rev.
  - destruct He as [->|He]; [by left|by right].
Qed.

(** A new entry that is accounted for *)
Lemma added_ok cap c es' p n hits total :
  (exists ns', lru_inv c [] [(p, n)] ns' /\ ns'.*2 = es') -> c_mem_size_used c = n_used_mem n + mems es' ->
  n_used_mem n + mems es' <= cap -> sizes_ok es' -> 0 <= n_used_mem n -> params c = (cap, hits, total) ->
  exists c', list_push_front p c = Some c' /\ lru_ok cap c' (mk_spec (n :: es') hits total).
Proof.
  intros (ns' & Hi & Hns) Hu Hf Hs Hn Hp. destruct (push_front_inv _ _ _ _ _ _ Hi) as (l & E & Hi').
  eexists. split; [exact E|]. split; cbn; try done.
  - exists ((p, n) :: ns'). cbn. by rewrite Hns.
  - by constructor.
Qed.

(** The room that is made is enough. *)
Lemma room_fits cap n need l :
  0 <= n <= cap -> sizes_ok l -> n + mems l - cap <= need ->
  sizes_ok (evicted need l) /\ n + mems (evicted need l) <= cap.
Proof.
  intros Hn Hs Hneed. destruct (evicted_mems l need Hs) as [Hs' [He|He]]; (split; [done|]); rewrite He; cbn; lia.
Qed.

Lemma put_parts key p (m : hash_map (V := nat)) :
  hm_put hasher key p m
  = (set_bucket hasher key (put_nolock (bucket hasher key m) key p).1
       (if (put_nolock (bucket hasher key m) key p).2 then u64 (hm_element_size m + 1) else hm_element_size m) m,
     (put_nolock (bucket hasher key m) key p).2).
Proof. unfold hm_put. by destruct (put_nolock _ _ _). Qed.

(** [put] and [exchange] begin alike: a new node goes to the end of the bucket
    of its key, when the key is not there. *)
Definition hooked (n : LRUNode (K := K) (V := V)) (c : cache) : cache :=
  let c1 := (new_node n c).2 in
  lru_set_map (set_bucket hasher (n_key n) (bucket hasher (n_key n) (c_map c1) ++ [(n_key n, c_fresh c)])
                 (u64 (hm_element_size (c_map c1) + 1)) (c_map c1)) c1.

Lemma hook_ok cap c s n :
  lru_ok cap c s ->
  let b := bucket hasher (n_key n) (c_map c) in
  walk hasher (n_key n) (new_node n c).2 = Some b
  /\ match find_entry (n_key n) (s_entries s) with
     | Some _ => (put_nolock b (n_key n) (c_fresh c)).2 = false
     | None => get_nolock b (n_key n) = None
         /\ exists ns, lru_inv (hooked n c) [] [(c_fresh c, n)] ns /\ ns.*2 = s_entries s
     end.
Proof.
  intros [(ns & Hi & Hns) Hu Hf Hs Hp]. cbn zeta. pose proof (inv_new Hi n) as Hi1.
  split; [by rewrite (walk_ok Hi1)|].
  pose proof (map_absent c [] ns (n_key n) Hi) as Habs. cbn [app] in Habs. rewrite Hns, (get_chain Hi) in Habs.
  pose proof (put_nolock_ok (bucket hasher (n_key n) (c_map c)) (n_key n) (c_fresh c) _ _ (surjective_pairing _)) as Hput.
  destruct (find_entry (n_key n) (s_entries s)).
  - destruct (get_nolock (bucket hasher (n_key n) (c_map c)) (n_key n)); [by destruct Hput|].
    by destruct Habs as [Hx _]; specialize (Hx eq_refl).
  - destruct Habs as [_ Hx]. rewrite (Hx eq_refl) in Hput |- *. split; [done|]. exists ns. split; [|done].
    apply (put_inv _ _ _ _ _ _ _ Hi1). rewrite put_parts. cbn [new_node snd c_map]. by destruct Hput as [-> ->].
Qed.

Lemma hooked_params cap c s n : lru_ok cap c s ->
  c_mem_size_used (hooked n c) = mems (s_entries s) /\ params (hooked n c) = (cap, s_hits s, s_total s).
Proof. by intros [_ Hu _ _ Hp]. Qed.

(** The hook of [put], with the push after it *)
Lemma put_hook cap c s n ns :
  cap < 2 ^ 63 -> lru_ok cap c s -> 0 <= n_used_mem n <= cap ->
  lru_inv (hooked n c) [] [(c_fresh c, n)] ns -> ns.*2 = s_entries s ->
  exists c3, put_postprocess hasher (c_fresh c) (hooked n c) = Some c3 /\ exists c4, list_push_front (c_fresh c) c3 = Some c4
    /\ lru_ok cap c4 (mk_spec (n :: if cap <? n_used_mem n + mems (s_entries s) then evicted (n_used_mem n) (s_entries s)
                                    else s_entries s) (s_hits s) (s_total s)).
Proof.
  intros Hcap Hok Hn Hi Hns. destruct (hooked_params cap c s n Hok) as [Hu Hp]. destruct Hok as [_ _ Hf Hs _].
  pose proof (mems_nonneg _ Hs) as Hm. unfold put_postprocess.
  assert (c_nodes (hooked n c) !! c_fresh c = Some n) as -> by (apply (inv_live Hi); mem_solver).
  assert (c_mem_size (hooked n c) = cap) as Hpc by (by injection Hp). rewrite Hpc, Hu, u64_small by lia.
  destruct (Z.ltb_spec cap (n_used_mem n + mems (s_entries s))) as [Hroom|Hroom].
  - destruct (make_room cap _ ns n (c_fresh c) (n_key n) (n_used_mem n) 0 s Hi Hns Hs)
      as (c3 & -> & Hp3 & ns3 & Hi3 & Hns3 & Hu3); try done; try lia.
    destruct (room_fits cap (n_used_mem n) (n_used_mem n) (s_entries s)) as [Hs3 Hf3]; [lia|done|lia|].
    pose proof (mems_nonneg _ Hs3). eexists. split; [done|].
    apply added_ok; try done; try lia.
    + exists ns3. split; [by apply inv_set_used|done].
    + cbn. rewrite Hu3, u64_small; lia.
  - eexists. split; [done|]. apply added_ok; try done; try lia.
    + exists ns. split; [by apply inv_set_used|done].
    + cbn [lru_set_used c_mem_size_used]. rewrite Hu, u64_small; lia.
Qed.

(** The same for [exchange] *)
Lemma exchange_hook cap c s n ns q :
  cap < 2 ^ 63 -> lru_ok cap c s -> 0 <= n_used_mem n <= cap ->
  lru_inv (hooked n c) [] [(c_fresh c, n)] ns -> ns.*2 = s_entries s ->
  exists c3, exchange_postprocess hasher (c_fresh c) q false (hooked n c) = Some c3
    /\ exists c4, list_push_front (c_fresh c) c3 = Some c4
    /\ lru_ok cap c4 (mk_spec (n :: if cap <? n_used_mem n + mems (s_entries s)
                                    then evicted (n_used_mem n + mems (s_entries s) - cap) (s_entries s)
                                    else s_entries s) (s_hits s) (s_total s)).
Proof.
  intros Hcap Hok Hn Hi Hns. destruct (hooked_params cap c s n Hok) as [Hu Hp]. destruct Hok as [_ _ Hf Hs _].
  pose proof (mems_nonneg _ Hs) as Hm. unfold exchange_postprocess.
  assert (c_nodes (hooked n c) !! c_fresh c = Some n) as -> by (apply (inv_live Hi); mem_solver).
  pose proof (inv_set_used Hi (c_mem_size_used (hooked n c) + n_used_mem n)) as Hi2.
  set (c2 := lru_set_used _ _) in *.
  assert (c_mem_size_used c2 = n_used_mem n + mems (s_entries s)) as Hu2.
  { cbn [c2 lru_set_used c_mem_size_used]. rewrite Hu, u64_small; lia. }
  assert (params c2 = (cap, s_hits s, s_total s)) as Hp2 by done. assert (c_mem_size c2 = cap) as Hpc by (by injection Hp2).
  rewrite Hpc, Hu2. destruct (Z.ltb_spec cap (n_used_mem n + mems (s_entries s))) as [Hroom|Hroom].
  - destruct (make_room cap _ ns n (c_fresh c) (n_key n) (n_used_mem n + mems (s_entries s) - cap) (n_used_mem n) s Hi2 Hns Hs)
      as (c3 & -> & Hp3 & ns3 & Hi3 & Hns3 & Hu3); try done; try lia.
    destruct (room_fits cap (n_used_mem n) (n_used_mem n + mems (s_entries s) - cap) (s_entries s)) as [Hs3 Hf3];
      [lia|done|lia|].
    eexists. split; [done|]. apply added_ok; try done; try lia. by exists ns3.
  - eexists. split; [done|]. apply added_ok; try done; try lia. by exists ns.
Qed.

Lemma put_ok cap c s key mem value :
  cap < 2 ^ 63 -> lru_ok cap c s -> 0 <= mem < 2 ^ 64 ->
  exists c', lru_call hasher (Put key mem value) c = Some ((lru_spec_op cap (Put key mem value) s).1, c')
    /\ lru_ok cap c' (lru_spec_op cap (Put key mem value) s).2.
Proof.
  intros Hcap Hok Hmem. set (n := mk_LRUNode key value mem).
  destruct (reject_ok cap c s n Hok) as (cr & Er & Hr). destruct (hook_ok cap c s n Hok) as [Hw Hcase].
  destruct (hooked_params cap c s n Hok) as [_ Hp]. injection Hp as Hpc _ _.
  unfold lru_call, lru_put, intrusive_put, put_preprocess. fold n. rewrite (surjective_pairing (new_node n c)).
  change (new_node n c).1 with (c_fresh c). change (c_mem_size (new_node n c).2) with (c_mem_size c).
  change (c_nodes (new_node n c).2) with (<[c_fresh c := n]> (c_nodes c)). rewrite lookup_insert_eq, Hpc.
  change (n_used_mem n) with mem. rewrite (spec_eta s). cbn [lru_spec_op]. fold n.
  destruct (Z.ltb_spec cap mem) as [|Hle]; cbn [orb negb]; rewrite ?Er.
  { exists cr. split; [done|]. by rewrite <- spec_eta. }
  change key with (n_key n). rewrite Hw, intrusive_put_plain. destruct (find_entry (n_key n) (s_entries s)) as [n'|].
  { rewrite bool_decide_eq_true_2 by (by eexists). rewrite (surjective_pairing (put_nolock _ _ _)), Hcase, Er.
    exists cr. split; [done|]. by rewrite <- spec_eta. }
  rewrite bool_decide_eq_false_2 by (by intros []). destruct Hcase as (Hg & ns & Hi & Hns).
  pose proof (put_nolock_ok (bucket hasher (n_key n) (c_map c)) (n_key n) (c_fresh c) _ _ (surjective_pairing _)) as Hput.
  rewrite Hg in Hput. rewrite (surjective_pairing (put_nolock _ _ _)). destruct Hput as [-> ->].
  change (lru_set_map _ _) with (hooked n c).
  destruct (put_hook cap c s n ns) as (c3 & -> & c4 & -> & Hok4); try done; [cbn; lia|]. by exists c4.
Qed.

Lemma exchange_absent (b : chain K nat) key p :
  get_nolock b key = None -> intrusive_exchange_nolock b key (key, p) = (b ++ [(key, p)], false, (key, p)).
Proof.
  induction b as [|[k v] b IH]; [done|]. cbn. case_decide; [done|]. intros Hb. by rewrite IH.
Qed.

Lemma exchange_ok cap c s key mem value :
  cap < 2 ^ 63 -> lru_ok cap c s -> lru_op_ok cap (Exchange key mem value) s ->
  exists c', lru_call hasher (Exchange key mem value) c = Some ((lru_spec_op cap (Exchange key mem value) s).1, c')
    /\ lru_ok cap c' (lru_spec_op cap (Exchange key mem value) s).2.
Proof.
  intros Hcap Hok [Hmem Hk]. set (n := mk_LRUNode key value mem). destruct (hook_ok cap c s n Hok) as [Hw Hcase].
  change key with (n_key n) in Hk. rewrite Hk in Hcase. destruct Hcase as (Hg & ns & Hi & Hns).
  unfold lru_call, lru_exchange, intrusive_exchange. fold n. rewrite (surjective_pairing (new_node n c)).
  change (new_node n c).1 with (c_fresh c). change key with (n_key n). rewrite Hw, (exchange_absent _ _ _ Hg).
  change (lru_set_map _ _) with (hooked n c). rewrite (spec_eta s). cbn [lru_spec_op]. fold n.
  destruct (exchange_hook cap c s n ns (c_fresh c)) as (c3 & -> & c4 & -> & Hok4); try done. by exists c4.
Qed.

Lemma erase_ok cap c s key :
  lru_ok cap c s -> find_entry key (s_entries s) = None -> lru_erase hasher key c = Some c.
Proof.
  intros [(ns & Hi & Hns) _ _ _ _] Hk. unfold lru_erase, intrusive_erase. rewrite (walk_ok Hi), intrusive_erase_plain, <- (get_chain Hi).
  rewrite <- Hns in Hk. apply (map_absent c [] ns key Hi) in Hk as ->. done.
Qed.

Lemma lru_call_ok cap op c s :
  cap < 2 ^ 63 -> lru_ok cap c s -> lru_op_ok cap op s ->
  exists c', lru_call hasher op c = Some ((lru_spec_op cap op s).1, c') /\ lru_ok cap c' (lru_spec_op cap op s).2.
Proof.
  intros Hcap Hok Hop. destruct op as [key|key mem value|key mem value|key].
  - by apply get_ok.
  - by apply put_ok.
  - by apply exchange_ok.
  - exists c. cbn. rewrite (erase_ok cap c s) by done. by destruct s.
Qed.

Lemma lru_calls_ok cap ops : forall c s,
  cap < 2 ^ 63 -> lru_ok cap c s -> lru_ops_ok cap ops s ->
  exists c', lru_calls hasher ops c = Some ((lru_spec_ops cap ops s).1, c') /\ lru_ok cap c' (lru_spec_ops cap ops s).2.
Proof.
  induction ops as [|op ops IH]; intros c s Hcap Hok Hops; [by exists c|]. destruct Hops as [Hop Hops].
  destruct (lru_call_ok cap op c s Hcap Hok Hop) as (c1 & E1 & Hok1). cbn. rewrite E1.
  destruct (lru_spec_op cap op s) as [a s1]. destruct (IH c1 s1 Hcap Hok1 Hops) as (c2 & E2 & Hok2). rewrite E2.
  cbn in *. destruct (lru_spec_ops cap ops s1) as [r s2]. by exists c2.
Qed.

Lemma new_lru_ok hint cap : 0 <= cap -> lru_ok cap (new_lru hint cap) (mk_spec [] 0 0).
Proof.
  intros Hcap. destruct (new_hash_map_ok (V := nat) hasher hint) as [Hm Hmap]. split; cbn; try done; [|constructor].
  exists []. split; [|done]. split; cbn; try done; try by apply list.NoDup_nil. apply nl_new_rep.
Qed.

(** *** The destructor *)

Lemma destroy_loop_ok : forall fuel ns c, lru_inv c [] [] ns -> (length ns < fuel)%nat ->
  forall m, exists c', destroy_loop true fuel (lru_set_map m c) = Some c' /\ c_nodes c' = ∅ /\ nl_rep (c_list c') [].
Proof.
  induction fuel as [|fuel IH]; intros ns c Hi Hf m; [lia|]. cbn [destroy_loop].
  change (c_list (lru_set_map m c)) with (c_list c). destruct ns as [|x ns _] using rev_ind.
  - destruct (nl_pop_rep _ _ (li_list _ _ _ _ Hi)) as (l & -> & Hl). eexists. split; [done|]. split; [|exact Hl].
    cbn. by rewrite (li_nodes _ _ _ _ Hi).
  - destruct (pop_back_inv _ _ _ _ _ Hi) as (l & -> & Hi1). unfold delete_base, delete_node. cbn [c_nodes lru_set_list lru_set_map].
    assert (c_nodes c !! x.1 = Some x.2) as -> by (apply (inv_live Hi1); destruct x; mem_solver).
    rewrite length_app in Hf. cbn in Hf.
    destruct (erase_inv _ [] [] ns x.1 x.2 _ _ ltac:(by destruct x) (erase_parts (n_key x.2) (c_map c))) as [_ Hi2].
    destruct (delete_inv _ _ _ _ _ _ Hi2) as (c3 & _ & Hi3 & ->).
    destruct (IH ns _ Hi3 ltac:(lia) m) as (c' & E & Hc'). exists c'. split; [exact E|done].
Qed.

Lemma destroy_map_ok c ns :
  lru_inv c [] [] ns -> map_destroy c = Some (lru_set_map (mk_hash_map [] 0 (hm_element_size (c_map c))) c).
Proof.
  intros Hi. unfold map_destroy, deallocate_buckets. replace (forallb _ _) with true; [done|].
  symmetry. apply forallb_forall. intros [k p] Hin. apply bool_decide_eq_true_2.
  apply in_concat in Hin as (b & Hb%list_elem_of_In & Hin%list_elem_of_In). apply list_elem_of_lookup in Hb as [i Hb].
  apply (map_live Hi k). apply (bucket_In Hi k). unfold bucket.
  pose proof (li_hash _ _ _ _ Hi) as Hh. destruct (hk_chain hasher _ Hh i b Hb) as [_ Hen].
  assert (k ∈ b.*1) as Hk by (apply list_elem_of_fmap; by exists (k, p)).
  specialize (Hen k Hk). unfold chain in *. rewrite Hen, Hb. done.
Qed.

Lemma destroy_ok cap c s :
  lru_ok cap c s -> exists c', destroy_lru true c = Some c' /\ c_nodes c' = ∅.
Proof.
  intros [(ns & Hi & Hns) _ _ _ _]. unfold destroy_lru. rewrite (destroy_map_ok c ns Hi).
  destruct (destroy_loop_ok (S (size (c_nodes c))) ns c Hi) with (m := mk_hash_map (K := K) (V := nat) [] 0 (hm_element_size (c_map c)))
    as (c' & Hd & Hn & _); [|by exists c'].
  rewrite (li_nodes _ _ _ _ Hi), map_size_list_to_map by apply (li_addr _ _ _ _ Hi). cbn. lia.
Qed.

(** Without the virtual destructor only an empty cache can be destroyed. *)
Lemma destroy_as_written cap c s :
  lru_ok cap c s ->
  match s_entries s with
  | [] => exists c', destroy_lru false c = Some c' /\ c_nodes c' = ∅
  | _ => destroy_lru false c = None
  end.
Proof.
  intros [(ns & Hi & Hns) _ _ _ _]. unfold destroy_lru. rewrite (destroy_map_ok c ns Hi). cbn [destroy_loop c_list lru_set_map].
  rewrite <- Hns. destruct ns as [|x ns _] using rev_ind.
  - destruct (nl_pop_rep _ _ (li_list _ _ _ _ Hi)) as (l & -> & Hl). cbn. eexists. split; [done|]. cbn.
    by rewrite (li_nodes _ _ _ _ Hi).
  - destruct (pop_back_inv _ _ _ _ _ Hi) as (l & -> & Hi1). rewrite fmap_app. by destruct (ns.*2).
Qed.

(** *** What eviction does *)

(** When every entry has the same size, exactly the least recently used one
    goes. *)
Lemma evicted_uniform (l : list (LRUNode (K := K) (V := V))) m :
  0 < m -> Forall (fun n => n_used_mem n = m) l -> evicted m l = removelast l.
Proof.
  intros Hm Hl. destruct l as [|n l _] using rev_ind; [unfold evicted; cbn; by destruct (m =? 0)|].
  apply list.Forall_app in Hl as [_ Hn]. inversion_clear Hn. rewrite removelast_last. unfold evicted. rewrite rev_unit. cbn.
  destruct (Z.eqb_spec m 0); [lia|]. replace (m - n_used_mem n) with 0 by lia.
  destruct (rev l) eqn:E; cbn; rewrite <- (rev_involutive l), E; done.
Qed.

Lemma evict_negative (l : list (LRUNode (K := K) (V := V))) : forall need, need < 0 -> sizes_ok l -> evict need l = [].
Proof.
  induction l as [|n l IH]; intros need Hneed Hs; cbn; destruct (Z.eqb_spec need 0); [lia|done|lia|].
  inversion_clear Hs. apply IH; [lia|done].
Qed.

(** A victim larger than what is needed: [mem -= p->used_mem] wraps around and
    the whole cache is emptied. *)
Lemma larger_victim_empties (l : list (LRUNode (K := K) (V := V))) n need :
  sizes_ok l -> 0 < need < n_used_mem n -> evicted need (l ++ [n]) = [].
Proof.
  intros Hs Hneed. unfold evicted. rewrite rev_unit. cbn. destruct (Z.eqb_spec need 0); [lia|].
  rewrite evict_negative; [done|lia|by apply sizes_rev].
Qed.

(** *** Where it breaks *)

(** Erasing a key that is there reads the node that was just deleted. *)
Lemma erase_reads_deleted cap c s key n :
  lru_ok cap c s -> find_entry key (s_entries s) = Some n -> lru_erase hasher key c = None.
Proof.
  intros [(ns & Hi & Hns) _ _ _ _] Hk. unfold lru_erase, intrusive_erase. rewrite (walk_ok Hi), intrusive_erase_plain, <- (get_chain Hi).
  destruct (hm_map (c_map c) !! key) as [p|] eqn:Em.
  - destruct (map_present _ _ _ _ Hi Em) as (a & n' & b & -> & _ & _). cbn. set (c1 := lru_set_map _ c).
    unfold erase_postprocess, list_remove. change (c_nodes c1) with (c_nodes c). change (c_list c1) with (c_list c).
    assert (c_nodes c !! p = Some n') as Hn by (apply (inv_live Hi); mem_solver). rewrite Hn.
    destruct (nl_remove_rep _ _ p (li_list _ _ _ _ Hi)) as (l & -> & _).
    { apply (inv_live Hi) in Hn. apply (inv_addr Hi) in Hn. lia. }
    rewrite bool_decide_eq_true_2 by (apply list_elem_of_fmap; exists (p, n'); mem_solver).
    unfold delete_node. cbn [c_nodes lru_set_list c1 lru_set_map lru_set_nodes]. rewrite Hn. cbn. by rewrite lookup_delete_eq.
  - apply (map_absent c [] ns key Hi) in Em. cbn in Em. congruence.
Qed.

End Proofs.

(** [get_hit_query_times], [get_total_query_times], [get_mem_size_used] *)
Definition get_hit_query_times {K : Type} `{Countable K} {V L : Type} (c : lru_cache (K := K) (V := V) (L := L)) : Z :=
  c_hit_query_times c.
Definition get_total_query_times {K : Type} `{Countable K} {V L : Type} (c : lru_cache (K := K) (V := V) (L := L)) : Z :=
  c_total_query_times c.
Definition get_mem_size_used {K : Type} `{Countable K} {V L : Type} (c : lru_cache (K := K) (V := V) (L := L)) : Z :=
  c_mem_size_used c.

(** C25: A cache of at most [cap] bytes on the intrusive list, whatever the hash
    function and the bucket hint, used by one thread with [get], [put] of any
    size, [exchange] of keys that are not there with a size of at most [cap]
    ([exchange_exceeds_capacity], [exchange_uses_deleted]) and [erase] of keys
    that are not there ([erase_reads_deleted]): no operation follows a pointer to
    a deleted node, every answer is the specification's — a list of entries from
    the most to the least recently used — the counts of queries are, and the
    memory account is the sum of the entries' sizes and at most [cap]. *)
Theorem lru_cache_refines {K : Type} `{Countable K} {V : Type} (hasher : K -> Z) (hint cap : Z)
    (ops : list (lru_op (K := K) (V := V))) :
  0 <= cap < 2 ^ 63 -> lru_ops_ok cap ops (mk_spec [] 0 0) ->
  let '(answers, s) := lru_spec_ops cap ops (mk_spec [] 0 0) in
  exists c : lru_cache (L := links), lru_calls hasher ops (new_lru hint cap) = Some (answers, c)
    /\ get_mem_size_used c = mems (s_entries s) /\ mems (s_entries s) <= cap
    /\ get_hit_query_times c = s_hits s /\ get_total_query_times c = s_total s.
Proof.
  intros Hcap Hops. destruct (lru_calls_ok hasher cap ops (L := links) (new_lru hint cap) (mk_spec [] 0 0))
    as (c & E & Hok); [lia|apply new_lru_ok; lia|done|].
  destruct (lru_spec_ops cap ops (mk_spec [] 0 0)) as [answers s]. exists c. split; [exact E|].
  destruct Hok as [_ Hu Hf _ Hp]. injection Hp as _ Hh Ht. by split_and!.
Qed.

(** A run on a cache of ten bytes, in which the entry that was asked for
    survives the eviction of the other one *)
Definition lru_example : list (lru_op (K := Z) (V := Z)) :=
  [Put 1 4 11; Put 2 4 22; Get 1; Put 3 4 33; Get 2; Get 1; Exchange 4 2 44; Put 5 11 55; Erase 2; Put 1 1 0].

Lemma lru_cache_refines_witness :
  exists c : lru_cache (L := links),
    lru_calls (fun k => k) lru_example (new_lru 5 10)
    = Some ([Stored true; Stored true; Got (Some 11); Stored true; Got None; Got (Some 11); Stored false; Stored false;
             Erased; Stored false], c)
    /\ get_mem_size_used c = 10 /\ get_hit_query_times c = 2 /\ get_total_query_times c = 3.
Proof.
  destruct (lru_cache_refines (fun k => k) 5 10 lru_example) as (c & E & Hu & _ & Hh & Ht).
  - split; reflexivity || discriminate.
  - repeat split; discriminate.
  - exists c. exact (conj E (conj Hu (conj Hh Ht))).
Defined.

(** C28: The destructor after any sequence of operations as in [lru_cache_refines]
    ([exchange] and [erase] of absent keys only, exchanged sizes of at most
    [cap]). As the code is written, [Node] having no virtual destructor, it is
    defined exactly when the cache is empty: deleting a node through its base
    class is undefined. With a virtual destructor it would end, follow no
    pointer to a deleted node, and delete every node, each once. *)
Theorem lru_destroy_outcome {K : Type} `{Countable K} {V : Type} (hasher : K -> Z) (hint cap : Z)
    (ops : list (lru_op (K := K) (V := V))) :
  0 <= cap < 2 ^ 63 -> lru_ops_ok cap ops (mk_spec [] 0 0) ->
  exists answers (c : lru_cache (L := links)), lru_calls hasher ops (new_lru hint cap) = Some (answers, c)
    /\ match s_entries (lru_spec_ops cap ops (mk_spec [] 0 0)).2 with
       | [] => exists c', destroy_lru Node_virtual_destructor c = Some c' /\ c_nodes c' = ∅
       | _ => destroy_lru Node_virtual_destructor c = None
       end
    /\ (exists c', destroy_lru true c = Some c' /\ c_nodes c' = ∅).
Proof.
  intros Hcap Hops. destruct (lru_calls_ok hasher cap ops (L := links) (new_lru hint cap) (mk_spec [] 0 0))
    as (c & E & Hok); [lia|apply new_lru_ok; lia|done|].
  eexists _, c. split; [exact E|]. split; [by eapply destroy_as_written|by eapply destroy_ok].
Qed.

Lemma lru_destroy_outcome_witness :
  exists answers (c : lru_cache (L := links)),
    lru_calls (fun k => k) lru_example (new_lru 5 10) = Some (answers, c)
    /\ destroy_lru Node_virtual_destructor c = None /\ (exists c', destroy_lru true c = Some c' /\ c_nodes c' = ∅).
Proof.
  destruct (lru_destroy_outcome (fun k => k) 5 10 lru_example) as (answers & c & E & Hw & Hv).
  - split; reflexivity || discriminate.
  - repeat split; discriminate.
  - exists answers, c. split; [exact E|]. split; [|exact Hv]. vm_compute (lru_spec_ops _ _ _) in Hw. exact Hw.
Defined.

(** [exchange] of a key whose entry is the oldest, when the new size does not
    fit: making room pops the old node, takes the new one out of the map by its
    key, and deletes the old one, which [exchange] then hands to the list. *)
Lemma exchange_uses_deleted :
  lru_calls (L := links) (fun k => k) [Put 1 4 11; Put 2 4 22; Exchange 1 7 33] (new_lru 5 10) = None
  /\ lru_calls (L := links) (fun k => k) [Put 1 4 11; Put 2 4 22; Exchange 1 6 33; Get 1] (new_lru 5 10) <> None.
Proof. split; [vm_compute; reflexivity|vm_compute; discriminate]. Qed.

(** [exchange] takes an entry that is larger than the cache. *)
Lemma exchange_exceeds_capacity :
  (fun r => get_mem_size_used r.2) <$> lru_calls (L := links) (fun k => k) [Exchange 1 12 11] (new_lru 5 10) = Some 12.
Proof. vm_compute. reflexivity. Qed.
