(* ===== verification/ThreadPool.v ===== *)
(** * The thread pool (include/common/thread_pool.h)

    Workers, submitting threads and the thread that destroys the pool, at the
    granularity of their accesses to shared variables. [_td_wakeup_mtx],
    [_td_mtx] and the condition variable are modelled as such; [push] and [pop]
    of a thread's queue are single steps, which is what Queues.v shows of a
    queue with one producer ([single_producer] below). Tasks are values; running
    one adds it to [p_ran]. *)

From stdpp Require Import gmap.
From S2P Require Import Prelude.

(** ** Data *)

Inductive EThreadStatus : Type := ACTIVE | STANDBY | INACTIVE | RECLAIMED.

#[global] Instance EThreadStatus_eq_dec : EqDecision EThreadStatus.
Proof. solve_decision. Defined.

Section Model.
Context {T : Type}.

(** [struct SingleThread]; [tasks] is a [unique_ptr] *)
Record SingleThread := mk_thread { td_status : EThreadStatus; td_tasks : option (list T) }.

(** Where the thread function of [init] is; [s] is its local [status] *)
Inductive worker_pc : Type :=
| W_loop                                          (* while (!_exit) *)
| W_status
| W_consume (s : EThreadStatus)                   (* tryConsumeOne( *td ): _exit *)
| W_pop (s : EThreadStatus)
| W_run_own (s : EThreadStatus) (t : T)
| W_standby                                       (* status.store(STANDBY) *)
| W_sub_active
| W_steal (s : EThreadStatus)                     (* tryStealOne: _exit *)
| W_active (s : EThreadStatus)
| W_scan (s : EThreadStatus) (j n : nat)
| W_scan_exit (s : EThreadStatus) (j n : nat)
| W_scan_pop (s : EThreadStatus) (j n : nat)
| W_lock (s : EThreadStatus)                      (* unique_lock guard(_td_wakeup_mtx) *)
| W_add (s : EThreadStatus)
| W_pred (s : EThreadStatus)                      (* the predicate: _exit *)
| W_pred_own (s : EThreadStatus)
| W_pred_active (s : EThreadStatus)
| W_pred_scan (s : EThreadStatus) (j n : nat)
| W_pred_pop (s : EThreadStatus) (j n : nat)
| W_waiting (s : EThreadStatus)                   (* asleep *)
| W_woken (s : EThreadStatus)                     (* getting the mutex back *)
| W_sub (task : option T)
| W_unlock (task : option T)
| W_run (t : T)
| W_final                                         (* tryConsume( *td ) after the loop *)
| W_final_pop
| W_run_final (t : T)
| W_done.

(** Where [submit] is, or [deleteThreadLocalPairThread] when the thread ends *)
Inductive submit_pc : Type :=
| S_idle
| S_exit (t : T)                                  (* getActiveThread: _exit *)
| S_full (t : T)
| S_lock_td (t : T)
| S_scan (t : T) (i : nat)
| S_make (t : T) (i : nat)
| S_store (t : T) (i : nat)
| S_inc (t : T) (i : nat)
| S_pair (t : T) (i : nat)
| S_unlock_td (t : T)
| S_push (t : T) (i : nat)
| S_early (t : T) (i : nat) (need : Z)            (* _need_wakeup was read before the push *)
| S_inline (t : T)
| S_check                                         (* _need_wakeup *)
| S_lock
| S_notify
| S_leave (i : nat)
| S_cas (i : nat) (s : EThreadStatus)
| S_gone.

(** [s_paired] is the thread's value of the key [_paired_thread]. *)
Record submitter := mk_sub { s_pc : submit_pc; s_paired : option nat }.

(** Where the destructor is *)
Inductive destroy_pc : Type :=
| D_idle
| D_lock
| D_notify
| D_join (i : nat)
| D_delete (i : nat)
| D_done.

Inductive holder : Type := By_worker (i : nat) | By_submitter (k : nat) | By_destructor.

Record thread_pool := mk_pool {
  p_tds : list SingleThread;
  p_active : Z;
  p_capacity : nat;
  p_queue_size : Z;
  p_exit : bool;
  p_need_wakeup : Z;
  p_td_mtx : option nat;
  p_wake_mtx : option holder;
  p_workers : list worker_pc;
  p_subs : list submitter;
  p_destroy : destroy_pc;
  p_deleted : list nat;
  p_sent : list T;
  p_ran : list T
}.

(** An access is made, has to wait for a mutex or a thread, or goes through a
    null pointer or past the end of [_tds]. *)
Inductive step_outcome : Type := Next (p : thread_pool) | Blocked | Fault.

(** The pool after [init], used by [m] threads *)
Definition new_pool (capacity : nat) (queue_size : Z) (m : nat) : thread_pool :=
  mk_pool (replicate capacity (mk_thread STANDBY None)) 0 capacity queue_size false 0 None None
    (replicate capacity W_loop) (replicate m (mk_sub S_idle None)) D_idle [] [] [].

(** ** Writes *)

Definition set_worker (i : nat) (w : worker_pc) (p : thread_pool) : thread_pool :=
  mk_pool (p_tds p) (p_active p) (p_capacity p) (p_queue_size p) (p_exit p) (p_need_wakeup p) (p_td_mtx p) (p_wake_mtx p)
    (<[i := w]> (p_workers p)) (p_subs p) (p_destroy p) (p_deleted p) (p_sent p) (p_ran p).
Definition set_workers (ws : list worker_pc) (p : thread_pool) : thread_pool :=
  mk_pool (p_tds p) (p_active p) (p_capacity p) (p_queue_size p) (p_exit p) (p_need_wakeup p) (p_td_mtx p) (p_wake_mtx p)
    ws (p_subs p) (p_destroy p) (p_deleted p) (p_sent p) (p_ran p).
Definition set_sub (k : nat) (s : submitter) (p : thread_pool) : thread_pool :=
  mk_pool (p_tds p) (p_active p) (p_capacity p) (p_queue_size p) (p_exit p) (p_need_wakeup p) (p_td_mtx p) (p_wake_mtx p)
    (p_workers p) (<[k := s]> (p_subs p)) (p_destroy p) (p_deleted p) (p_sent p) (p_ran p).
Definition set_td (j : nat) (td : SingleThread) (p : thread_pool) : thread_pool :=
  mk_pool (<[j := td]> (p_tds p)) (p_active p) (p_capacity p) (p_queue_size p) (p_exit p) (p_need_wakeup p) (p_td_mtx p)
    (p_wake_mtx p) (p_workers p) (p_subs p) (p_destroy p) (p_deleted p) (p_sent p) (p_ran p).
Definition set_active_td_size (a : Z) (p : thread_pool) : thread_pool :=
  mk_pool (p_tds p) (u64 a) (p_capacity p) (p_queue_size p) (p_exit p) (p_need_wakeup p) (p_td_mtx p) (p_wake_mtx p)
    (p_workers p) (p_subs p) (p_destroy p) (p_deleted p) (p_sent p) (p_ran p).
Definition set_need (n : Z) (p : thread_pool) : thread_pool :=
  mk_pool (p_tds p) (p_active p) (p_capacity p) (p_queue_size p) (p_exit p) (u64 n) (p_td_mtx p) (p_wake_mtx p)
    (p_workers p) (p_subs p) (p_destroy p) (p_deleted p) (p_sent p) (p_ran p).
Definition set_td_mtx (m : option nat) (p : thread_pool) : thread_pool :=
  mk_pool (p_tds p) (p_active p) (p_capacity p) (p_queue_size p) (p_exit p) (p_need_wakeup p) m (p_wake_mtx p)
    (p_workers p) (p_subs p) (p_destroy p) (p_deleted p) (p_sent p) (p_ran p).
Definition set_wake_mtx (m : option holder) (p : thread_pool) : thread_pool :=
  mk_pool (p_tds p) (p_active p) (p_capacity p) (p_queue_size p) (p_exit p) (p_need_wakeup p) (p_td_mtx p) m
    (p_workers p) (p_subs p) (p_destroy p) (p_deleted p) (p_sent p) (p_ran p).
Definition set_destroy (exit : bool) (d : destroy_pc) (p : thread_pool) : thread_pool :=
  mk_pool (p_tds p) (p_active p) (p_capacity p) (p_queue_size p) exit (p_need_wakeup p) (p_td_mtx p) (p_wake_mtx p)
    (p_workers p) (p_subs p) d (p_deleted p) (p_sent p) (p_ran p).
Definition set_deleted (d : list nat) (p : thread_pool) : thread_pool :=
  mk_pool (p_tds p) (p_active p) (p_capacity p) (p_queue_size p) (p_exit p) (p_need_wakeup p) (p_td_mtx p) (p_wake_mtx p)
    (p_workers p) (p_subs p) (p_destroy p) d (p_sent p) (p_ran p).
Definition note_sent (t : T) (p : thread_pool) : thread_pool :=
  mk_pool (p_tds p) (p_active p) (p_capacity p) (p_queue_size p) (p_exit p) (p_need_wakeup p) (p_td_mtx p) (p_wake_mtx p)
    (p_workers p) (p_subs p) (p_destroy p) (p_deleted p) (t :: p_sent p) (p_ran p).
(** [( *task )(); delete task;] *)
Definition run_and_delete (t : T) (p : thread_pool) : thread_pool :=
  mk_pool (p_tds p) (p_active p) (p_capacity p) (p_queue_size p) (p_exit p) (p_need_wakeup p) (p_td_mtx p) (p_wake_mtx p)
    (p_workers p) (p_subs p) (p_destroy p) (p_deleted p) (p_sent p) (t :: p_ran p).

(** [_td_wakeup.notify_all()] *)
Definition wake (w : worker_pc) : worker_pc := match w with W_waiting s => W_woken s | w => w end.
Definition notify_all (p : thread_pool) : thread_pool := set_workers (wake <$> p_workers p) p.

(** [td->tasks->pop(task)] of [_tds[j]], and what follows it *)
Definition pop_task (j : nat) (p : thread_pool) (got : T -> thread_pool -> thread_pool) (empty : thread_pool -> thread_pool) : step_outcome :=
  match p_tds p !! j with
  | Some (mk_thread s (Some (t :: q))) => Next (got t (set_td j (mk_thread s (Some q)) p))
  | Some (mk_thread s (Some [])) => Next (empty p)
  | _ => Fault
  end.

(** [_tds[j]->status.load()] *)
Definition load_status (j : nat) (p : thread_pool) (k : EThreadStatus -> thread_pool) : step_outcome :=
  match p_tds p !! j with Some td => Next (k (td_status td)) | None => Fault end.

Definition lock_wake (h : holder) (p : thread_pool) (k : thread_pool -> thread_pool) : step_outcome :=
  match p_wake_mtx p with None => Next (k (set_wake_mtx (Some h) p)) | Some _ => Blocked end.

(** ** The worker threads *)

(** [tryConsume( *td )]; [status] decides what the thread function does next. *)
Definition tryConsume_step (i : nat) (w : worker_pc) (p : thread_pool) : step_outcome :=
  let goto w p := set_worker i w p in
  let next s := match s with INACTIVE => W_standby | _ => W_steal s end in
  match w with
  | W_consume s => Next (goto (if p_exit p then next s else W_pop s) p)
  | W_pop s => pop_task i p (fun t => goto (W_run_own s t)) (goto (next s))
  | W_run_own s t => Next (goto (W_consume s) (run_and_delete t p))
  | _ => Blocked
  end.

(** [tryStealOne()], with [tryConsumeOne] of the thread it is at *)
Definition tryStealOne_step (i : nat) (w : worker_pc) (p : thread_pool) : step_outcome :=
  let goto w p := set_worker i w p in
  match w with
  | W_steal s => Next (goto (if p_exit p then W_lock s else W_active s) p)
  | W_active s => Next (goto (W_scan s 0 (Z.to_nat (p_active p))) p)
  | W_scan s j n =>
      if decide (j < n)%nat then
        load_status j p (fun st => goto (if decide (st = STANDBY) then W_scan s (S j) n else W_scan_exit s j n) p)
      else Next (goto (W_lock s) p)
  | W_scan_exit s j n => Next (goto (if p_exit p then W_scan s (S j) n else W_scan_pop s j n) p)
  | W_scan_pop s j n => pop_task j p (fun t => goto (W_run t)) (goto (W_scan s (S j) n))
  | _ => Blocked
  end.

(** [tryGetOne(task)] and [tryGetOne( *td, task)] in the predicate of the wait,
    which gives the mutex back when they find nothing *)
Definition tryGetOne_step (i : nat) (w : worker_pc) (p : thread_pool) : step_outcome :=
  let goto w p := set_worker i w p in
  match w with
  | W_pred_own s =>
      pop_task i p (fun t => goto (W_sub (Some t))) (fun p => goto (W_waiting s) (set_wake_mtx None p))
  | W_pred_active s => Next (goto (W_pred_scan s 0 (Z.to_nat (p_active p))) p)
  | W_pred_scan s j n =>
      if decide (j < n)%nat then
        load_status j p (fun st => goto (if decide (st = STANDBY) then W_pred_scan s (S j) n else W_pred_pop s j n) p)
      else Next (goto (W_waiting s) (set_wake_mtx None p))
  | W_pred_pop s j n => pop_task j p (fun t => goto (W_sub (Some t))) (goto (W_pred_scan s (S j) n))
  | _ => Blocked
  end.

(** The thread function *)
Definition worker_step (i : nat) (p : thread_pool) : step_outcome :=
  let goto w p := set_worker i w p in
  match p_workers p !! i with
  | None | Some W_done | Some (W_waiting _) => Blocked
  | Some W_loop => Next (goto (if p_exit p then W_final else W_status) p)
  | Some W_status => load_status i p (fun s => goto (match s with ACTIVE | INACTIVE => W_consume s | _ => W_steal s end) p)
  | Some ((W_consume _ | W_pop _ | W_run_own _ _) as w) => tryConsume_step i w p
  | Some W_standby =>
      match p_tds p !! i with
      | Some td => Next (goto W_sub_active (set_td i (mk_thread STANDBY (td_tasks td)) p))
      | None => Fault
      end
  | Some W_sub_active => Next (goto (W_steal INACTIVE) (set_active_td_size (p_active p - 1) p))
  | Some ((W_steal _ | W_active _ | W_scan _ _ _ | W_scan_exit _ _ _ | W_scan_pop _ _ _) as w) => tryStealOne_step i w p
  | Some (W_lock s) => lock_wake (By_worker i) p (goto (W_add s))
  | Some (W_add s) => Next (goto (W_pred s) (set_need (p_need_wakeup p + 1) p))
  | Some (W_pred s) =>
      Next (goto (if p_exit p then W_sub None else if decide (s = STANDBY) then W_pred_active s else W_pred_own s) p)
  | Some ((W_pred_own _ | W_pred_active _ | W_pred_scan _ _ _ | W_pred_pop _ _ _) as w) => tryGetOne_step i w p
  | Some (W_woken s) => lock_wake (By_worker i) p (goto (W_pred s))
  | Some (W_sub task) => Next (goto (W_unlock task) (set_need (p_need_wakeup p - 1) p))
  | Some (W_unlock task) =>
      Next (goto (match task with Some t => W_run t | None => W_loop end) (set_wake_mtx None p))
  | Some (W_run t) => Next (goto W_loop (run_and_delete t p))
  | Some W_final => Next (goto (if p_exit p then W_done else W_final_pop) p)
  | Some W_final_pop => pop_task i p (fun t => goto (W_run_final t)) (goto W_done)
  | Some (W_run_final t) => Next (goto W_final (run_and_delete t p))
  end.

(** A wait may end without a notification. *)
Definition spurious_step (i : nat) (p : thread_pool) : step_outcome :=
  match p_workers p !! i with Some (W_waiting s) => Next (set_worker i (W_woken s) p) | _ => Blocked end.

(** ** The submitting threads *)

(** [submit(task)] is called. *)
Definition submit_call (k : nat) (t : T) (p : thread_pool) : step_outcome :=
  match p_subs p !! k with
  | Some (mk_sub S_idle m) => Next (set_sub k (mk_sub (S_exit t) m) (note_sent t p))
  | _ => Blocked
  end.

(** [getActiveThread(td)] *)
Definition getActiveThread_step (k : nat) (pc : submit_pc) (m : option nat) (p : thread_pool) : step_outcome :=
  let goto pc p := set_sub k (mk_sub pc m) p in
  match pc with
  | S_exit t => Next (goto (if p_exit p then S_inline t else S_full t) p)
  | S_full t =>
      Next (goto (if p_active p =? Z.of_nat (p_capacity p) then S_inline t
                  else match m with Some i => S_push t i | None => S_lock_td t end) p)
  | S_lock_td t =>
      match p_td_mtx p with None => Next (goto (S_scan t 0) (set_td_mtx (Some k) p)) | Some _ => Blocked end
  | S_scan t i =>
      if decide (i < p_capacity p)%nat then
        load_status i p (fun s => goto (if decide (s = STANDBY) then S_make t i else S_scan t (S i)) p)
      else Next (goto (S_unlock_td t) p)
  | S_make t i =>
      match p_tds p !! i with
      | Some td => Next (goto (S_store t i) (set_td i (mk_thread (td_status td) (Some (default [] (td_tasks td)))) p))
      | None => Fault
      end
  | S_store t i =>
      match p_tds p !! i with
      | Some td => Next (goto (S_inc t i) (set_td i (mk_thread ACTIVE (td_tasks td)) p))
      | None => Fault
      end
  | S_inc t i => Next (goto (S_pair t i) (set_active_td_size (p_active p + 1) p))
  | S_pair t i => Next (set_sub k (mk_sub (S_push t i) (Some i)) (set_td_mtx None p))
  | S_unlock_td t => Next (goto (S_inline t) (set_td_mtx None p))
  | _ => Blocked
  end.

(** [deleteThreadLocalPairThread(arg)] *)
Definition leave_step (k : nat) (pc : submit_pc) (m : option nat) (p : thread_pool) : step_outcome :=
  let goto pc p := set_sub k (mk_sub pc m) p in
  match pc with
  | S_leave i => load_status i p (fun s => goto (S_cas i s) p)
  | S_cas i s =>
      match s, p_tds p !! i with
      | RECLAIMED, _ => Next (goto S_gone (set_deleted (i :: p_deleted p) p))
      | _, None => Fault
      | _, Some td =>
          if decide (td_status td = s) then Next (goto (S_cas i s) (set_td i (mk_thread INACTIVE (td_tasks td)) p))
          else Next (goto S_gone p)
      end
  | _ => Blocked
  end.

(** [submit(task)] *)
Definition submit_step (k : nat) (p : thread_pool) : step_outcome :=
  match p_subs p !! k with
  | None => Blocked
  | Some (mk_sub pc m) =>
      let goto pc p := set_sub k (mk_sub pc m) p in
      match pc with
      | S_idle | S_gone => Blocked
      | S_exit _ | S_full _ | S_lock_td _ | S_scan _ _ | S_make _ _ | S_store _ _ | S_inc _ _ | S_pair _ _ | S_unlock_td _ =>
          getActiveThread_step k pc m p
      | S_push t i =>
          match p_tds p !! i with
          | Some (mk_thread s (Some q)) =>
              if zlen q <? p_queue_size p then Next (goto S_check (set_td i (mk_thread s (Some (q ++ [t]))) p))
              else Next (goto (S_inline t) p)
          | _ => Fault
          end
      | S_inline t => Next (goto S_check (run_and_delete t p))
      | S_check => Next (goto (if 0 <? p_need_wakeup p then S_lock else S_idle) p)
      | S_lock => lock_wake (By_submitter k) p (goto S_notify)
      | S_notify => Next (goto S_idle (set_wake_mtx None (notify_all p)))
      | S_leave _ | S_cas _ _ => leave_step k pc m p
      | S_early _ _ _ => Blocked
      end
  end.

(** The load of [_need_wakeup] is relaxed, and nothing orders it after the store
    of the push: it may take effect first, and the push then goes on with the
    value it read. *)
Definition early_step (k : nat) (p : thread_pool) : step_outcome :=
  match p_subs p !! k with
  | Some (mk_sub (S_push t i) m) => Next (set_sub k (mk_sub (S_early t i (p_need_wakeup p)) m) p)
  | Some (mk_sub (S_early t i need) m) =>
      match p_tds p !! i with
      | Some (mk_thread s (Some q)) =>
          if zlen q <? p_queue_size p
          then Next (set_sub k (mk_sub (if 0 <? need then S_lock else S_idle) m) (set_td i (mk_thread s (Some (q ++ [t]))) p))
          else Next (set_sub k (mk_sub (S_inline t) m) p)
      | _ => Fault
      end
  | _ => Blocked
  end.

(** The thread ends: the key's destructor runs when the key has a value. *)
Definition leave_call (k : nat) (p : thread_pool) : step_outcome :=
  match p_subs p !! k with
  | Some (mk_sub S_idle m) => Next (set_sub k (mk_sub (match m with Some i => S_leave i | None => S_gone end) m) p)
  | _ => Blocked
  end.

(** ** The destructor *)

Definition destroy_step (p : thread_pool) : step_outcome :=
  match p_destroy p with
  | D_idle => Next (set_destroy true D_lock p)
  | D_lock => lock_wake By_destructor p (set_destroy (p_exit p) D_notify)
  | D_notify => Next (set_destroy (p_exit p) (D_join 0) (set_wake_mtx None (notify_all p)))
  | D_join i =>
      if decide (i < length (p_tds p))%nat then
        match p_workers p !! i with
        | Some W_done => Next (set_destroy (p_exit p) (D_delete i) p)
        | _ => Blocked
        end
      else Next (set_destroy (p_exit p) D_done p)
  | D_delete i =>
      load_status i p (fun s =>
        set_destroy (p_exit p) (D_join (S i)) (if decide (s = STANDBY) then set_deleted (i :: p_deleted p) p else p))
  | D_done => Blocked
  end.

(** ** The system *)

(** The threads while no submitting thread ends; [ordered]: the load of
    [_need_wakeup] in [submit] takes effect after the push. *)
Inductive thread_pool_step (ordered : bool) : thread_pool -> thread_pool -> Prop :=
| Step_worker i p p' : worker_step i p = Next p' -> thread_pool_step ordered p p'
| Step_spurious i p p' : spurious_step i p = Next p' -> thread_pool_step ordered p p'
| Step_submit k t p p' : submit_call k t p = Next p' -> thread_pool_step ordered p p'
| Step_submitter k p p' : submit_step k p = Next p' -> thread_pool_step ordered p p'
| Step_early k p p' : ordered = false -> early_step k p = Next p' -> thread_pool_step ordered p p'
| Step_destroy p p' : destroy_step p = Next p' -> thread_pool_step ordered p p'.

(** The tasks in a thread's hands, and in the queue of a [SingleThread] *)
Definition worker_hand (w : worker_pc) : list T :=
  match w with
  | W_run_own _ t | W_run t | W_run_final t | W_sub (Some t) | W_unlock (Some t) => [t]
  | _ => []
  end.
Definition submit_hand (s : submitter) : list T :=
  match s_pc s with
  | S_exit t | S_full t | S_lock_td t | S_scan t _ | S_make t _ | S_store t _ | S_inc t _ | S_pair t _ | S_unlock_td t
  | S_push t _ | S_early t _ _ | S_inline t => [t]
  | _ => []
  end.
Definition queued (td : SingleThread) : list T := default [] (td_tasks td).

(** ** Proofs: tactics *)

End Model.

(** Destructs the step in hypothesis [H] along its program counters and its
    tests. *)
Ltac step_cases H :=
  unfold worker_step, tryConsume_step, tryStealOne_step, tryGetOne_step, spurious_step, submit_call, submit_step, early_step, leave_step,
    getActiveThread_step, destroy_step, pop_task, load_status, lock_wake in H;
  try discriminate H; repeat (case_match; cbn beta iota in H; try discriminate H); injection H as <-; simplify_eq; cbn in *.

(** ** No task is lost, none runs twice *)

#[local] Arguments zsum : simpl never.

Section Tasks.
Context {T : Type} `{EqDecision T}.
Abbreviation thread_pool := (thread_pool (T := T)).

Definition occ (t : T) (l : list T) : Z := zsum (fun x => if decide (x = t) then 1 else 0) l.

#[local] Arguments occ : simpl never.

(** How often [t] is in the pool and was run *)
Definition in_pool (t : T) (p : thread_pool) : Z :=
  occ t (p_ran p) + zsum (fun w => occ t (worker_hand w)) (p_workers p)
  + zsum (fun s => occ t (submit_hand s)) (p_subs p) + zsum (fun td => occ t (queued td)) (p_tds p).

Lemma occ_nil t : occ t [] = 0.
Proof. done. Qed.

Lemma occ_cons t x l : occ t (x :: l) = (if decide (x = t) then 1 else 0) + occ t l.
Proof. done. Qed.

Lemma occ_app t l l' : occ t (l ++ l') = occ t l + occ t l'.
Proof. apply zsum_app. Qed.

Lemma zsum_fmap {A B} (f : B -> Z) (g : A -> B) l : zsum f (g <$> l) = zsum (fun x => f (g x)) l.
Proof. unfold zsum. induction l as [|x l IH]; [done|]. cbn. by rewrite IH. Qed.

Lemma zsum_ext {A} (f g : A -> Z) l : (forall x, f x = g x) -> zsum f l = zsum g l.
Proof. intros Hfg. unfold zsum. induction l as [|x l IH]; [done|]. cbn. by rewrite IH, Hfg. Qed.

Lemma woken_hands t (ws : list (worker_pc (T := T))) :
  zsum (fun w => occ t (worker_hand w)) (wake <$> ws) = zsum (fun w => occ t (worker_hand w)) ws.
Proof. rewrite zsum_fmap. apply zsum_ext. by intros []. Qed.

Ltac sums :=
  repeat match goal with
         | Hl : ?l !! ?i = Some ?x |- context [zsum ?f (<[?i := ?y]> ?l)] => rewrite (zsum_insert f l i x y Hl)
         end.

Lemma pool_step_tasks o p p' t :
  thread_pool_step o p p' -> occ t (p_sent p) = in_pool t p -> occ t (p_sent p') = in_pool t p'.
Proof.
  intros Hs. unfold in_pool.
  destruct Hs as [i p p' Hs|i p p' Hs|k u p p' Hs|k p p' Hs|k p p' Ho Hs|p p' Hs]; intros Hin; step_cases Hs;
    sums; rewrite ?woken_hands; unfold queued in *; cbn in *; rewrite ?occ_app, ?occ_cons, ?occ_nil; lia.
Qed.

End Tasks.

(** ** Which threads are paired with whom *)

Section Shape.
Context {T : Type}.
Abbreviation thread_pool := (thread_pool (T := T)).

(** The thread a submitter puts its tasks into, or is about to *)
Definition claim (s : submitter (T := T)) : option nat :=
  match s_paired s, s_pc s with
  | Some j, _ => Some j
  | None, (S_inc _ i | S_pair _ i) => Some i
  | None, _ => None
  end.

(** What holds of a submitter while nobody leaves; the first [n] threads are
    the paired ones. *)
Definition submit_ok (n : nat) (p : thread_pool) (k : nat) (s : submitter (T := T)) : Prop :=
  (forall j, s_paired s = Some j -> (j < n)%nat)
  /\ match s_pc s with
     | S_lock_td _ => s_paired s = None
     | S_scan _ i => p_td_mtx p = Some k /\ s_paired s = None /\ (i <= n)%nat
     | S_make _ i => p_td_mtx p = Some k /\ s_paired s = None /\ i = n /\ (i < p_capacity p)%nat
     | S_store _ i => p_td_mtx p = Some k /\ s_paired s = None /\ i = n /\ (i < p_capacity p)%nat
                      /\ forall td, p_tds p !! i = Some td -> is_Some (td_tasks td)
     | S_inc _ i => p_td_mtx p = Some k /\ s_paired s = None /\ S i = n /\ p_active p = Z.of_nat i
     | S_pair _ i => p_td_mtx p = Some k /\ s_paired s = None /\ S i = n
     | S_unlock_td _ => p_td_mtx p = Some k
     | S_push _ i | S_early _ i _ => s_paired s = Some i
     | S_leave _ | S_cas _ _ | S_gone => False
     | _ => True
     end.

Record shape (n : nat) (p : thread_pool) : Prop := {
  sh_tds : length (p_tds p) = p_capacity p;
  sh_workers : length (p_workers p) = p_capacity p;
  sh_cap : Z.of_nat (p_capacity p) < 2 ^ 64;
  sh_n : (n <= p_capacity p)%nat;
  sh_status : forall j td, p_tds p !! j = Some td ->
    td_status td = (if decide (j < n)%nat then ACTIVE else STANDBY) /\ ((j < n)%nat -> is_Some (td_tasks td));
  sh_active : p_active p = Z.of_nat n \/ exists k t, p_subs p !! k = Some (mk_sub (S_inc t (pred n)) None);
  sh_queue : forall j td, p_tds p !! j = Some td -> queued td <> [] -> Z.of_nat j < p_active p;
  sh_subs : forall k s, p_subs p !! k = Some s -> submit_ok n p k s;
  sh_claims : forall k k' s s' j, p_subs p !! k = Some s -> p_subs p !! k' = Some s' ->
    claim s = Some j -> claim s' = Some j -> k = k'
}.

(** What holds of a worker while nobody leaves *)
Definition worker_ok (n : nat) (exit : bool) (i : nat) (w : worker_pc (T := T)) : Prop :=
  match w with
  | W_consume s | W_pop s | W_run_own s _ | W_pred_own s => s = ACTIVE /\ (i < n)%nat
  | W_steal s | W_active s | W_lock s | W_add s | W_pred s | W_waiting s | W_woken s =>
      s = STANDBY \/ (s = ACTIVE /\ (i < n)%nat)
  | W_scan s j m => (s = STANDBY \/ (s = ACTIVE /\ (i < n)%nat)) /\ (m <= n)%nat
  | W_scan_exit s j m | W_scan_pop s j m => (s = STANDBY \/ (s = ACTIVE /\ (i < n)%nat)) /\ (j < m <= n)%nat
  | W_pred_active s => s = STANDBY
  | W_pred_scan s j m => s = STANDBY /\ (m <= n)%nat
  | W_pred_pop s j m => s = STANDBY /\ (j < m <= n)%nat
  | W_final => exit = true
  | W_standby | W_sub_active | W_final_pop | W_run_final _ => False
  | _ => True
  end.

Definition workers_ok (n : nat) (p : thread_pool) : Prop :=
  forall i w, p_workers p !! i = Some w -> worker_ok n (p_exit p) i w.

Lemma shape_active n p : shape n p -> p_active p = Z.of_nat n \/ (p_active p + 1 = Z.of_nat n).
Proof.
  intros Hsh. destruct (sh_active n p Hsh) as [Ha|(k & t & Hk)]; [by left|]. right.
  destruct (sh_subs n p Hsh k _ Hk) as (_ & _ & _ & Hn & Ha). cbn in *. lia.
Qed.

Lemma worker_ok_mono n n' e e' i w : (n <= n')%nat -> (e = true -> e' = true) -> worker_ok n e i w -> worker_ok n' e' i w.
Proof. intros Hn He. destruct w; cbn; intuition lia. Qed.

(** A worker's step that only moves or pops keeps the shape. *)
Lemma shape_worker n p p' :
  shape n p -> length (p_workers p') = length (p_workers p) -> length (p_tds p') = length (p_tds p) ->
  p_active p' = p_active p -> p_capacity p' = p_capacity p -> p_td_mtx p' = p_td_mtx p -> p_subs p' = p_subs p ->
  (forall j td', p_tds p' !! j = Some td' -> exists td, p_tds p !! j = Some td /\ td_status td' = td_status td
     /\ (is_Some (td_tasks td) -> is_Some (td_tasks td')) /\ (queued td' <> [] -> queued td <> [])) ->
  shape n p'.
Proof.
  intros Hsh Hlw Hlt Ha Hc Hm Hsub Htd. pose proof Hsh as [H1 H2 H2' H3 H4 H5 H6 H7 H8].
  split; rewrite ?Ha, ?Hc, ?Hsub; try congruence; try done.
  - intros j td' Hj. destruct (Htd j td' Hj) as (td & Hj0 & -> & Ht & _). destruct (H4 j td Hj0). auto.
  - intros j td' Hj Hq. destruct (Htd j td' Hj) as (td & Hj0 & _ & _ & Hq'). eauto.
  - intros k s Hk. destruct (H7 k s Hk) as [Hp Hpc]. split; [done|]. rewrite Hm, Hc, Ha.
    destruct (s_pc s); try done. destruct_and!. split_and!; try done.
    intros td' Hj. destruct (Htd _ td' Hj) as (td & Hj0 & _ & Ht & _). eauto.
Qed.

(** What a pop leaves of the threads *)
Definition shrunk (tds tds' : list (SingleThread (T := T))) : Prop :=
  forall j td', tds' !! j = Some td' -> exists td, tds !! j = Some td /\ td_status td' = td_status td
     /\ (is_Some (td_tasks td) -> is_Some (td_tasks td')) /\ (queued td' <> [] -> queued td <> []).

Lemma shrunk_refl tds : shrunk tds tds.
Proof. intros j td Hj. by exists td. Qed.

Lemma shrunk_pop (tds : list (SingleThread (T := T))) i s t q :
  tds !! i = Some (mk_thread s (Some (t :: q))) -> shrunk tds (<[i := mk_thread s (Some q)]> tds).
Proof.
  intros Hi j td' Hj. apply list_lookup_insert_Some in Hj as [(<- & <- & _)|[_ Hj]]; [|by exists td'].
  eexists. split_and!; [exact Hi|done|by eexists|done].
Qed.

Lemma worker_step_shape n i p p' :
  shape n p -> workers_ok n p -> worker_step i p = Next p' -> shape n p'.
Proof.
  intros Hsh Hw Hs. destruct (p_workers p !! i) as [w|] eqn:Ei; [|unfold worker_step in Hs; by rewrite Ei in Hs].
  specialize (Hw i w Ei). apply (shape_worker n p); try done; step_cases Hs;
    rewrite ?length_insert; try done; try (by apply shrunk_refl); try (by eapply shrunk_pop).
Qed.

Lemma workers_ok_insert n p i w :
  workers_ok n p -> worker_ok n (p_exit p) i w -> forall j w', <[i := w]> (p_workers p) !! j = Some w' -> worker_ok n (p_exit p) j w'.
Proof. intros Hw Hi j w' Hj. apply list_lookup_insert_Some in Hj as [(<- & <- & _)|[_ Hj]]; [done|by apply Hw]. Qed.

Lemma worker_step_ok n i p p' :
  shape n p -> workers_ok n p -> worker_step i p = Next p' -> workers_ok n p'.
Proof.
  intros Hsh Hw Hs. destruct (p_workers p !! i) as [w|] eqn:Ei; [|unfold worker_step in Hs; by rewrite Ei in Hs].
  pose proof (Hw i w Ei) as Hwi. pose proof (shape_active n p Hsh) as Ha. pose proof (sh_status n p Hsh i) as Hst.
  step_cases Hs; unfold workers_ok; cbn; apply workers_ok_insert; try done; cbn;
    try destruct (Hst _ eq_refl) as [Hst' _]; intuition (congruence || lia).
Qed.

(** A notification *)
Lemma notify_ok n e (ws : list (worker_pc (T := T))) :
  (forall i w, ws !! i = Some w -> worker_ok n e i w) -> forall i w, (wake <$> ws) !! i = Some w -> worker_ok n e i w.
Proof. intros Hw i w Hi. apply list_lookup_fmap_Some in Hi as (w0 & -> & Hi). specialize (Hw i w0 Hi). by destruct w0. Qed.

Lemma submit_frame k (p p' : thread_pool) :
  submit_step k p = Next p' ->
  p_exit p' = p_exit p /\ p_need_wakeup p' = p_need_wakeup p /\ p_destroy p' = p_destroy p
  /\ (p_workers p' = p_workers p \/ p_workers p' = wake <$> p_workers p).
Proof. intros Hs. step_cases Hs; split_and!; try done; by (left + right). Qed.

Lemma destroy_frame (p p' : thread_pool) :
  destroy_step p = Next p' ->
  (p_exit p = true -> p_exit p' = true) /\ p_need_wakeup p' = p_need_wakeup p /\ p_subs p' = p_subs p
  /\ p_tds p' = p_tds p /\ p_active p' = p_active p /\ p_capacity p' = p_capacity p /\ p_td_mtx p' = p_td_mtx p
  /\ (p_workers p' = p_workers p \/ p_workers p' = wake <$> p_workers p).
Proof. intros Hs. step_cases Hs; split_and!; try done; by (left + right). Qed.

Lemma woken_ok n n' (p p' : thread_pool) :
  (n <= n')%nat -> (p_exit p = true -> p_exit p' = true) ->
  p_workers p' = p_workers p \/ p_workers p' = wake <$> p_workers p -> workers_ok n p -> workers_ok n' p'.
Proof.
  intros Hn He Hws Hw i w Hi. apply (worker_ok_mono n n' (p_exit p)); [done|done|].
  destruct Hws as [Hws|Hws]; rewrite Hws in Hi; [by apply Hw|]. by apply (notify_ok n (p_exit p) (p_workers p)).
Qed.

(** *** The submitters *)

(** A submitter that moves on without touching the threads *)
Lemma shape_move n (p p' : thread_pool) k s s' :
  shape n p -> p_subs p !! k = Some s -> submit_ok n p' k s' -> (forall t i, s_pc s <> S_inc t i) ->
  claim s' = claim s ->
  p_tds p' = p_tds p -> length (p_workers p') = length (p_workers p) -> p_active p' = p_active p ->
  p_capacity p' = p_capacity p -> p_subs p' = <[k := s']> (p_subs p) ->
  (p_td_mtx p' = p_td_mtx p \/ p_td_mtx p = None \/ p_td_mtx p = Some k) ->
  shape n p'.
Proof.
  intros [H1 H2 H2' H3 H4 H5 H6 H7 H8] Hk Hok Hinc Hcl Ht Hw Ha Hc Hs Hm.
  split; rewrite ?Ht, ?Ha, ?Hc, ?Hs; try done; try congruence.
  - destruct H5 as [H5|(k' & t & Hk')]; [by left|right]. exists k', t. rewrite list_lookup_insert_ne; [done|].
    intros <-. rewrite Hk in Hk'. simplify_eq. by eapply Hinc.
  - intros k' s0 Hk'. apply list_lookup_insert_Some in Hk' as [(<- & <- & _)|[Hne Hk']]; [done|].
    destruct (H7 k' s0 Hk') as [Hp Hpc]. split; [done|]. rewrite Ht, Ha, Hc.
    destruct Hm as [->|[Hm|Hm]]; [done| |]; destruct (s_pc s0); try done; destruct_and?; congruence.
  - intros k1 k2 s1 s2 j Hk1 Hk2 Hc1 Hc2. apply list_lookup_insert_Some in Hk1, Hk2.
    destruct Hk1 as [(<- & <- & _)|[Hne1 Hk1]], Hk2 as [(<- & <- & _)|[Hne2 Hk2]]; [done|..].
    + rewrite Hcl in Hc1. eauto.
    + rewrite Hcl in Hc2. eauto.
    + eauto.
Qed.

(** A submitter puts a task into its queue. *)
Lemma pushed_shape n k (p : thread_pool) pc pc' t i s q :
  shape n p -> p_subs p !! k = Some (mk_sub pc (Some i)) -> (forall t i, pc <> S_inc t i) ->
  p_tds p !! i = Some (mk_thread s (Some q)) ->
  match pc' with S_check | S_lock | S_idle => True | _ => False end ->
  shape n (set_sub k (mk_sub pc' (Some i)) (set_td i (mk_thread s (Some (q ++ [t]))) p)).
Proof.
  intros Hsh Hk Hinc Etd Hpc'. destruct (sh_subs n p Hsh k _ Hk) as (Hpn & _).
  pose proof Hsh as [H1 H2 H2' H3 H4 H5 H6 H7 H8]. specialize (Hpn i eq_refl).
  assert (Z.of_nat i < p_active p) as Hi.
  { destruct H5 as [H5|(k' & t' & Hk')]; [lia|]. destruct (H7 k' _ Hk') as (_ & _ & _ & Hn & Ha). cbn in Hn, Ha.
    destruct (decide (i = pred n)) as [->|]; [|lia].
    assert (k = k') by (by apply (H8 _ _ _ _ (pred n) Hk Hk')). subst k'. congruence. }
  apply (shape_move n (set_td i (mk_thread s (Some (q ++ [t]))) p) _ k (mk_sub pc (Some i)) (mk_sub pc' (Some i)));
    try done; [|split; [by intros j [= <-]|by destruct pc']|by left].
  split; cbn; rewrite ?length_insert; try done.
  - intros j td' Hj. apply list_lookup_insert_Some in Hj as [(<- & <- & _)|[_ Hj]]; [|by apply H4].
    destruct (H4 i _ Etd) as [Hst _]. split; [done|]. by eexists.
  - intros j td' Hj Hq. apply list_lookup_insert_Some in Hj as [(<- & <- & _)|[_ Hj]]; [done|by eapply H6].
  - intros k' s' Hk'. destruct (H7 k' s' Hk') as [Hp Hpc]. split; [done|]. destruct (s_pc s'); try done. cbn.
    destruct_and!. split_and!; try done. intros td' Hj.
    apply list_lookup_insert_Some in Hj as [(<- & <- & _)|[_ Hj]]; [by eexists|eauto].
Qed.

(** ... after it has read [_need_wakeup] *)
Lemma early_step_shape n k (p p' : thread_pool) : shape n p -> early_step k p = Next p' -> shape n p'.
Proof.
  intros Hsh Hs. unfold early_step in Hs. destruct (p_subs p !! k) as [[[] m]|] eqn:Hk; try discriminate Hs;
    destruct (sh_subs n p Hsh k _ Hk) as (Hpn & Hpaired); cbn in Hpaired; subst m.
  - injection Hs as <-.
    apply (shape_move n p _ k (mk_sub (S_push t i) (Some i)) (mk_sub (S_early t i (p_need_wakeup p)) (Some i))); try done; by left.
  - destruct (p_tds p !! i) as [[s [q|]]|] eqn:Etd; [|done..].
    destruct (zlen q <? p_queue_size p); injection Hs as <-.
    + apply (pushed_shape n k p (S_early t i need) _ t i s q); try done. by destruct (0 <? need).
    + apply (shape_move n p _ k (mk_sub (S_early t i need) (Some i)) (mk_sub (S_inline t) (Some i))); try done; by left.
Qed.

Lemma early_frame k (p p' : thread_pool) :
  early_step k p = Next p' ->
  p_exit p' = p_exit p /\ p_need_wakeup p' = p_need_wakeup p /\ p_destroy p' = p_destroy p /\ p_workers p' = p_workers p
  /\ p_wake_mtx p' = p_wake_mtx p /\ exists s s', p_subs p !! k = Some s /\ p_subs p' = <[k := s']> (p_subs p)
       /\ s_pc s <> S_notify /\ s_pc s' <> S_notify.
Proof. intros Hs. step_cases Hs; split_and!; try done; eexists _, _; (split; [done|]); (split; [done|]); split; try done; by case_match. Qed.

Section One.
Context (n k : nat) (p p' : thread_pool) (m : option nat).
Hypothesis Hsh : shape n p.
Hypothesis Hstep : submit_step k p = Next p'.

(** [tasks.reset] *)
Lemma make_shape t i : p_subs p !! k = Some (mk_sub (S_make t i) m) -> shape n p'.
Proof.
  intros Hk. destruct (sh_subs n p Hsh k _ Hk) as (_ & Hm & Hpaired & -> & Hn). cbn in Hpaired. subst m.
  pose proof Hsh as [H1 H2 H2' H3 H4 H5 H6 H7 H8]. unfold submit_step, getActiveThread_step in Hstep. rewrite Hk in Hstep.
  destruct (p_tds p !! n) as [td|] eqn:Etd; [|done]. injection Hstep as <-.
  apply (shape_move n (set_td n (mk_thread (td_status td) (Some (queued td))) p) _ k (mk_sub (S_make t n) None)
    (mk_sub (S_store t n) None)); try done; [| |by left].
  { split; cbn; rewrite ?length_insert; try done.
    - intros j td' Hj. apply list_lookup_insert_Some in Hj as [(<- & <- & _)|[_ Hj]]; [|by apply H4].
      destruct (H4 n td Etd) as [Hst _]. split; [done|]. by eexists.
    - intros j td' Hj Hq. apply list_lookup_insert_Some in Hj as [(<- & <- & _)|[_ Hj]]; [|by eapply H6]. by apply (H6 n td).
    - intros k' s Hk'. destruct (H7 k' s Hk') as [Hp Hpc]. split; [done|]. destruct (s_pc s); try done. cbn.
      destruct_and!. split_and!; try done. intros td' Hj.
      apply list_lookup_insert_Some in Hj as [(<- & <- & _)|[_ Hj]]; [by eexists|eauto]. }
  split; cbn; [done|]. split_and!; try done. intros td' Hj.
  rewrite list_lookup_insert_eq in Hj by (by apply lookup_lt_Some in Etd). simplify_eq. by eexists.
Qed.

(** [status.store(ACTIVE)]: one more thread is paired. *)
Lemma store_shape t i : p_subs p !! k = Some (mk_sub (S_store t i) m) -> shape (S n) p'.
Proof.
  intros Hk. destruct (sh_subs n p Hsh k _ Hk) as (_ & Hm & Hpaired & -> & Hn & Htk). cbn in Hpaired. subst m.
  pose proof (shape_active n p Hsh) as Hact. pose proof Hsh as [H1 H2 H2' H3 H4 H5 H6 H7 H8].
  unfold submit_step, getActiveThread_step in Hstep. rewrite Hk in Hstep.
  destruct (p_tds p !! n) as [td|] eqn:Etd; [|done]. injection Hstep as <-. specialize (Htk td eq_refl).
  assert (p_active p = Z.of_nat n) as Ha.
  { destruct H5 as [H5|(k' & t' & Hk')]; [done|]. destruct (H7 k' _ Hk') as (_ & Hm' & _). cbn in Hm'. congruence. }
  assert (forall k' s j, p_subs p !! k' = Some s -> claim s = Some j -> (j < n)%nat) as Hclaims.
  { intros k' s j Hk' Hj. destruct (H7 k' s Hk') as [Hp Hpc]. unfold claim in Hj.
    destruct (s_paired s) eqn:Ep; [by apply Hp; rewrite <- Hj|].
    destruct (s_pc s); simplify_eq; destruct_and!; lia. }
  pose proof (lookup_lt_Some _ _ _ Hk) as Hlt.
  split; cbn; rewrite ?length_insert; try done.
  - intros j td' Hj. apply list_lookup_insert_Some in Hj as [(<- & <- & _)|[Hne Hj]].
    + rewrite decide_True by lia. done.
    + destruct (H4 j td' Hj) as [-> Hs]. split; [repeat case_decide; done || lia|]. intros ?. apply Hs. lia.
  - right. exists k, t. by rewrite list_lookup_insert_eq.
  - intros j td' Hj Hq. apply list_lookup_insert_Some in Hj as [(<- & <- & _)|[_ Hj]]; [|by eapply H6]. by apply (H6 n td).
  - intros k' s Hk'. apply list_lookup_insert_Some in Hk' as [(<- & <- & _)|[Hne Hk']].
    + split; cbn; [done|]. by split_and!.
    + destruct (H7 k' s Hk') as [Hp Hpc]. split; [intros j Hj; specialize (Hp j Hj); lia|].
      destruct (s_pc s); try done; cbn; destruct_and?; congruence.
  - intros k1 k2 s1 s2 j Hk1 Hk2 Hc1 Hc2. apply list_lookup_insert_Some in Hk1, Hk2.
    destruct Hk1 as [(<- & <- & _)|[Hne1 Hk1]], Hk2 as [(<- & <- & _)|[Hne2 Hk2]]; [done|..|eauto].
    + cbn in Hc1. simplify_eq. specialize (Hclaims _ _ _ Hk2 Hc2). lia.
    + cbn in Hc2. simplify_eq. specialize (Hclaims _ _ _ Hk1 Hc1). lia.
Qed.

(** [_active_td_size.fetch_add] *)
Lemma inc_shape t i : p_subs p !! k = Some (mk_sub (S_inc t i) m) -> shape n p'.
Proof.
  intros Hk. destruct (sh_subs n p Hsh k _ Hk) as (_ & Hm & Hpaired & Hn & Ha). cbn in Hpaired. subst m.
  pose proof Hsh as [H1 H2 H2' H3 H4 H5 H6 H7 H8]. unfold submit_step, getActiveThread_step in Hstep. rewrite Hk in Hstep. injection Hstep as <-.
  assert (u64 (p_active p + 1) = Z.of_nat n) as Hu by (rewrite u64_small; lia).
  split; cbn [p_tds p_workers p_capacity p_active p_subs set_sub set_active_td_size]; rewrite ?Hu; try done.
  - by left.
  - intros j td' Hj Hq. specialize (H6 j td' Hj Hq). lia.
  - intros k' s Hk'. apply list_lookup_insert_Some in Hk' as [(<- & <- & _)|[Hne Hk']].
    + split; cbn; [done|]. by split_and!.
    + destruct (H7 k' s Hk') as [Hp Hpc]. split; [done|]. destruct (s_pc s); try done; cbn; destruct_and?; congruence.
  - intros k1 k2 s1 s2 j Hk1 Hk2 Hc1 Hc2. apply list_lookup_insert_Some in Hk1, Hk2.
    destruct Hk1 as [(<- & <- & _)|[Hne1 Hk1]], Hk2 as [(<- & <- & _)|[Hne2 Hk2]]; [done|..|eauto].
    + by apply (H8 _ _ _ _ j Hk Hk2).
    + by apply (H8 _ _ _ _ j Hk1 Hk).
Qed.

(** [tasks->push]: the counter covers the thread. *)
Lemma push_shape t i : p_subs p !! k = Some (mk_sub (S_push t i) m) -> shape n p'.
Proof.
  intros Hk. destruct (sh_subs n p Hsh k _ Hk) as (Hpn & Hpaired). cbn in Hpaired. subst m.
  unfold submit_step in Hstep. rewrite Hk in Hstep.
  destruct (p_tds p !! i) as [[s [q|]]|] eqn:Etd; [|done..].
  destruct (zlen q <? p_queue_size p); injection Hstep as <-.
  - by apply (pushed_shape n k p (S_push t i) S_check t i s q).
  - apply (shape_move n p _ k (mk_sub (S_push t i) (Some i)) (mk_sub (S_inline t) (Some i))); try done; by left.
Qed.

End One.

(** Every step of a submitter keeps the shape, with as many paired threads or
    one more. *)
Lemma submit_step_shape n k p p' :
  shape n p -> submit_step k p = Next p' -> exists n', (n <= n')%nat /\ shape n' p'.
Proof.
  intros Hsh Hs. destruct (p_subs p !! k) as [[pc m]|] eqn:Hk; [|unfold submit_step in Hs; by rewrite Hk in Hs].
  pose proof (sh_subs n p Hsh k _ Hk) as [Hpn Hpc]. cbn in Hpn, Hpc.
  destruct pc.
  7: { exists (S n). split; [lia|]. by eapply store_shape. }
  7: { exists n. split; [done|]. by eapply inc_shape. }
  6: { exists n. split; [done|]. by eapply make_shape. }
  8: { exists n. split; [done|]. by eapply push_shape. }
  all: exists n; split; [done|]; step_cases Hs.
  all: match goal with Hl : _ !! _ = Some ?s |- shape _ (set_sub _ ?s' _) => apply (shape_move n p _ k s s' Hsh Hl) end; cbn;
    rewrite ?length_fmap; try done; try (by left).
  - split; cbn; [done|]. split_and!; [done|done|lia].
  - by right; left.
  - destruct Hpc as (Hm & -> & Hi). split; [done|]. split_and!; try done.
    match goal with Hl : p_tds p !! i = Some ?td |- _ => destruct (sh_status n p Hsh i td Hl) as [Hst _] end.
    case_decide; [congruence|lia].
  - destruct Hpc as (Hm & -> & Hi). split; [done|]. split_and!; try done.
    match goal with Hl : p_tds p !! i = Some ?td |- _ => destruct (sh_status n p Hsh i td Hl) as [Hst _] end.
    cbn. case_decide; [lia|congruence].
  - split; [done|]. by destruct Hpc.
  - split; [|done]. intros j [= <-]. destruct Hpc as (_ & _ & <-). lia.
  - by destruct Hpc as (_ & -> & _).
  - right; right. by destruct Hpc.
  - by right; right.
Qed.

Lemma submit_call_shape n k t p p' : shape n p -> submit_call k t p = Next p' -> shape n p'.
Proof.
  intros Hsh Hs. step_cases Hs.
  match goal with Hl : _ !! _ = Some ?s |- shape _ (set_sub _ ?s' _) => apply (shape_move n p _ k s s' Hsh Hl) end; try done.
  - split; [|done]. by destruct (sh_subs n p Hsh k _ ltac:(eassumption)).
  - by left.
Qed.

(** *** All steps *)

Record paired_ok (p : thread_pool) : Prop := { pk_shape : exists n, shape n p /\ workers_ok n p }.

Lemma pool_step_paired o p p' : thread_pool_step o p p' -> paired_ok p -> paired_ok p'.
Proof.
  intros Hs [(n & Hsh & Hw)]. split. destruct Hs as [i p p' Hs|i p p' Hs|k u p p' Hs|k p p' Hs|k p p' Ho Hs|p p' Hs].
  - exists n. split; [by eapply worker_step_shape|by eapply worker_step_ok].
  - exists n. unfold spurious_step in Hs. destruct (p_workers p !! i) as [[]|] eqn:Hi; try discriminate Hs. injection Hs as <-.
    split; [apply (shape_worker n p); try done; [by cbn; rewrite length_insert|apply shrunk_refl]|].
    refine (workers_ok_insert n p i _ Hw _). exact (Hw i _ Hi).
  - exists n. split; [by eapply submit_call_shape|]. step_cases Hs. exact Hw.
  - destruct (submit_step_shape n k p p' Hsh Hs) as (n' & Hn & Hsh'). exists n'. split; [done|].
    apply submit_frame in Hs as (He & _ & _ & Hws). apply (woken_ok n n' p); try done. by rewrite He.
  - exists n. split; [by eapply early_step_shape|]. apply early_frame in Hs as (He & _ & _ & Hws & _).
    apply (woken_ok n n p); [done|by rewrite He|by left|done].
  - exists n. apply destroy_frame in Hs as (He & _ & Hsub & Ht & Ha & Hc & Hm & Hws). split.
    + apply (shape_worker n p); try done; [|by rewrite Ht|rewrite Ht; apply shrunk_refl].
      destruct Hws as [-> | ->]; [done|by rewrite length_fmap].
    + by apply (woken_ok n n p).
Qed.

Lemma new_pool_paired capacity queue_size m :
  Z.of_nat capacity < 2 ^ 64 -> paired_ok (new_pool capacity queue_size m).
Proof.
  intros Hc. split. exists 0%nat. split.
  - split; cbn; rewrite ?length_replicate; try done; try lia.
    + intros j td [-> _]%lookup_replicate. cbn. split; [|lia]. case_decide; [lia|done].
    + intros j td [-> _]%lookup_replicate. done.
    + intros k s [-> _]%lookup_replicate. done.
    + intros k k' s s' j [-> _]%lookup_replicate. done.
  - intros i w [-> _]%lookup_replicate. done.
Qed.

(** No step of a thread goes through a null [tasks] or past the end of [_tds]. *)
Lemma worker_no_fault n i p : shape n p -> workers_ok n p -> worker_step i p <> Fault.
Proof.
  intros Hsh Hw. destruct (p_workers p !! i) as [w|] eqn:Ei; [|unfold worker_step; by rewrite Ei].
  assert (forall j, (j < p_capacity p)%nat -> is_Some (p_tds p !! j)) as Htd.
  { intros j Hj. apply lookup_lt_is_Some. by rewrite (sh_tds n p Hsh). }
  assert (forall j, (j < n)%nat -> exists s q, p_tds p !! j = Some (mk_thread s (Some q))) as Hq.
  { intros j Hj. destruct (Htd j) as [[s o] E]; [pose proof (sh_n n p Hsh); lia|].
    destruct (sh_status n p Hsh j _ E) as [_ Ho]. destruct (Ho Hj) as [q Eq]. cbn in Eq. subst o. eauto. }
  pose proof (lookup_lt_Some _ _ _ Ei) as Hi. rewrite (sh_workers n p Hsh) in Hi. pose proof (sh_n n p Hsh) as Hn.
  pose proof (Hw i w Ei) as Hwi. unfold worker_step, tryConsume_step, tryStealOne_step, tryGetOne_step. rewrite Ei.
  destruct w; cbn in Hwi; try done; unfold load_status, pop_task, lock_wake;
    try (destruct (Htd i Hi) as [td ->]; done); try (by destruct (p_wake_mtx p));
    try (destruct (Hq i) as (s' & [|t' q] & ->); [by destruct_and!|done|done]);
    try (destruct (Hq j) as (s' & [|t' q] & ->); [destruct_and!; lia|done|done]);
    (case_decide; [|done]); (destruct (Htd j) as [td ->]; [destruct_and!; lia|done]).
Qed.

Lemma submitter_no_fault n k p : shape n p -> submit_step k p <> Fault.
Proof.
  intros Hsh. unfold submit_step, getActiveThread_step. destruct (p_subs p !! k) as [[pc m]|] eqn:Ek; [|done].
  destruct (sh_subs n p Hsh k _ Ek) as [Hpn Hpc]. cbn in Hpn, Hpc.
  assert (forall j, (j < p_capacity p)%nat -> is_Some (p_tds p !! j)) as Htd.
  { intros j Hj. apply lookup_lt_is_Some. by rewrite (sh_tds n p Hsh). }
  destruct pc; try done; unfold load_status, lock_wake.
  - by destruct (p_td_mtx p).
  - case_decide; [|done]. by destruct (Htd i) as [td ->].
  - destruct Hpc as (_ & _ & _ & Hi). by destruct (Htd i Hi) as [td ->].
  - destruct Hpc as (_ & _ & _ & Hi & _). by destruct (Htd i Hi) as [td ->].
  - specialize (Hpn i Hpc). destruct (Htd i) as [[s o] E]; [pose proof (sh_n n p Hsh); lia|].
    destruct (sh_status n p Hsh i _ E) as [_ Ho]. destruct (Ho Hpn) as [q Eq]. cbn in Eq. subst o. rewrite E. by case_match.
  - by destruct (p_wake_mtx p).
Qed.

End Shape.

(** ** The mutex of the condition variable *)

Section Locks.
Context {T : Type}.
Abbreviation thread_pool := (thread_pool (T := T)).

(** The worker has [_td_wakeup_mtx]; it is counted in [_need_wakeup]; it is in
    the predicate, after it found the pool in use, or asleep. *)
Definition locked (w : worker_pc (T := T)) : bool :=
  match w with
  | W_add _ | W_pred _ | W_pred_own _ | W_pred_active _ | W_pred_scan _ _ _ | W_pred_pop _ _ _ | W_sub _ | W_unlock _ => true
  | _ => false
  end.
Definition in_wait (w : worker_pc (T := T)) : Z :=
  match w with
  | W_pred _ | W_pred_own _ | W_pred_active _ | W_pred_scan _ _ _ | W_pred_pop _ _ _ | W_waiting _ | W_woken _ | W_sub _ => 1
  | _ => 0
  end.
Definition drowsy (w : worker_pc (T := T)) : bool :=
  match w with
  | W_pred_own _ | W_pred_active _ | W_pred_scan _ _ _ | W_pred_pop _ _ _ | W_waiting _ => true
  | _ => false
  end.

(** The destructor has notified the workers. *)
Definition told (d : destroy_pc) : bool := match d with D_join _ | D_delete _ | D_done => true | _ => false end.

Record locks_ok (p : thread_pool) : Prop := {
  lk_size : zlen (p_workers p) < 2 ^ 64;
  lk_worker : forall i w, p_workers p !! i = Some w -> locked w = true -> p_wake_mtx p = Some (By_worker i);
  lk_sub : forall k s, p_subs p !! k = Some s -> s_pc s = S_notify -> p_wake_mtx p = Some (By_submitter k);
  lk_destroy : p_destroy p = D_notify -> p_wake_mtx p = Some By_destructor;
  lk_need : p_need_wakeup p = zsum in_wait (p_workers p);
  lk_exit : p_destroy p <> D_idle -> p_exit p = true;
  lk_awake : told (p_destroy p) = true -> forall i w, p_workers p !! i = Some w -> drowsy w = false
}.

Lemma counted_range (w : worker_pc (T := T)) : 0 <= in_wait w <= 1.
Proof. destruct w; cbn; lia. Qed.

Lemma need_range p : locks_ok p -> 0 <= p_need_wakeup p < 2 ^ 64.
Proof.
  intros Hl. rewrite (lk_need p Hl). pose proof (lk_size p Hl).
  pose proof (zsum_nonneg in_wait (p_workers p) ltac:(apply counted_range)).
  pose proof (zsum_le_length in_wait (p_workers p) ltac:(apply counted_range)). lia.
Qed.

(** A worker's step *)
Lemma locks_worker (p p' : thread_pool) i w w' :
  locks_ok p -> p_workers p !! i = Some w -> p_workers p' = <[i := w']> (p_workers p) ->
  p_subs p' = p_subs p -> p_destroy p' = p_destroy p -> p_exit p' = p_exit p ->
  (locked w' = true -> p_wake_mtx p' = Some (By_worker i)) ->
  (p_wake_mtx p' = p_wake_mtx p \/ p_wake_mtx p = None \/ p_wake_mtx p = Some (By_worker i)) ->
  p_need_wakeup p' = p_need_wakeup p - in_wait w + in_wait w' ->
  (drowsy w' = true -> drowsy w = true \/ p_exit p = false) ->
  locks_ok p'.
Proof.
  intros [H1 H2 H3 H4 H5 H6 H7] Hi Hw Hs Hd He Hl Hm Hn Hdr.
  split; rewrite ?Hw, ?Hs, ?Hd, ?He; try done.
  - unfold zlen in *. by rewrite length_insert.
  - intros j v Hj Hv. apply list_lookup_insert_Some in Hj as [(<- & <- & _)|[Hne Hj]]; [by apply Hl|].
    specialize (H2 j v Hj Hv). destruct Hm as [Hm|[Hm|Hm]]; congruence.
  - intros k s Hk Hpc. specialize (H3 k s Hk Hpc). destruct Hm as [Hm|[Hm|Hm]]; congruence.
  - intros Hdn. specialize (H4 Hdn). destruct Hm as [Hm|[Hm|Hm]]; congruence.
  - rewrite (zsum_insert _ _ _ _ _ Hi). lia.
  - intros Hno j v Hj. apply list_lookup_insert_Some in Hj as [(<- & <- & _)|[Hne Hj]]; [|by eapply H7].
    destruct (drowsy w') eqn:E; [|done]. destruct (Hdr eq_refl) as [Hw'|Hx]; [by rewrite (H7 Hno i w Hi) in Hw'|].
    rewrite H6 in Hx; [done|]. by destruct (p_destroy p).
Qed.

Lemma worker_step_locks i p p' : locks_ok p -> worker_step i p = Next p' -> locks_ok p'.
Proof.
  intros Hl Hs. pose proof (need_range p Hl) as Hn.
  destruct (p_workers p !! i) as [w|] eqn:Ei; [|unfold worker_step in Hs; by rewrite Ei in Hs].
  pose proof (lk_worker p Hl i w Ei) as Hlw.
  assert (in_wait w = 0 -> p_need_wakeup p + 1 < 2 ^ 64) as Hup.
  { intros Hc. rewrite (lk_need p Hl). pose proof (lk_size p Hl).
    pose proof (zsum_le_length in_wait (<[i := W_pred ACTIVE]> (p_workers p)) ltac:(apply counted_range)) as Hle.
    rewrite (zsum_insert _ _ _ _ _ Ei) in Hle. unfold zlen in *. rewrite length_insert in Hle. cbn in Hle. lia. }
  assert (in_wait w <= p_need_wakeup p) as Hdown.
  { rewrite (lk_need p Hl). apply (zsum_ge in_wait _ i); [apply counted_range|done]. }
  step_cases Hs;
  match goal with Hi : p_workers p !! i = Some ?v |- locks_ok (set_worker _ ?v' _) => apply (locks_worker p _ i v v' Hl Hi) end;
    cbn; try done; try lia; try (by left); try (by right; left); try (right; right; by apply Hlw);
    try (rewrite u64_small; lia); try (intros _; by left); try (intros _; by right); try (intros _; by apply Hlw).
Qed.

Lemma counted_wake (ws : list (worker_pc (T := T))) : zsum in_wait (wake <$> ws) = zsum in_wait ws.
Proof. rewrite zsum_fmap. apply zsum_ext. by intros []. Qed.

(** The workers as they were or notified *)
Lemma locks_woken (p p' : thread_pool) :
  locks_ok p -> p_workers p' = p_workers p \/ p_workers p' = wake <$> p_workers p ->
  p_need_wakeup p' = p_need_wakeup p ->
  (forall i w, p_workers p !! i = Some w -> locked w = true -> p_wake_mtx p' = Some (By_worker i)) ->
  (forall k s, p_subs p' !! k = Some s -> s_pc s = S_notify -> p_wake_mtx p' = Some (By_submitter k)) ->
  (p_destroy p' = D_notify -> p_wake_mtx p' = Some By_destructor) ->
  (p_destroy p' <> D_idle -> p_exit p' = true) ->
  (told (p_destroy p') = true -> forall i w, p_workers p' !! i = Some w -> drowsy w = false) ->
  locks_ok p'.
Proof.
  intros [H1 H2 H3 H4 H5 H6 H7] Hws Hn Hw Hs Hd He Ha. split; try done.
  - destruct Hws as [-> | ->]; [done|]. unfold zlen in *. by rewrite length_fmap.
  - intros i w Hi Hlw. destruct Hws as [Hws|Hws]; rewrite Hws in Hi; [by eapply Hw|].
    apply list_lookup_fmap_Some in Hi as (w0 & -> & Hi). apply (Hw i w0 Hi). by destruct w0.
  - rewrite Hn. destruct Hws as [-> | ->]; [done|by rewrite counted_wake].
Qed.

Lemma woken_undrowsy (ws : list (worker_pc (T := T))) i w :
  (wake <$> ws) !! i = Some w -> drowsy w = true -> exists w0, ws !! i = Some w0 /\ locked w0 = true.
Proof. intros (w0 & -> & Hi)%list_lookup_fmap_Some Hw. exists w0. split; [done|]. by destruct w0. Qed.

Lemma submit_step_locks k p p' : locks_ok p -> submit_step k p = Next p' -> locks_ok p'.
Proof.
  intros Hl Hs. destruct (submit_frame k p p' Hs) as (He & Hn & Hd & Hws).
  pose proof Hl as [H1 H2 H3 H4 H5 H6 H7]. apply (locks_woken p); try done; rewrite ?He, ?Hd; try done.
  - intros i w Hi Hlw. specialize (H2 i w Hi Hlw). step_cases Hs; try done; try congruence.
    specialize (H3 k _ ltac:(eassumption) eq_refl). congruence.
  - intros k' s Hk' Hpc. destruct (decide (k' = k)) as [->|Hne].
    + step_cases Hs; apply list_lookup_insert_Some in Hk' as [(_ & <- & _)|[? _]]; done || (cbn in Hpc; by repeat case_match).
    + assert (p_subs p !! k' = Some s) as Hk0.
      { step_cases Hs; by rewrite list_lookup_insert_ne in Hk' by done. }
      specialize (H3 k' s Hk0 Hpc) as Hm. step_cases Hs; try done; try congruence.
      specialize (H3 k _ ltac:(eassumption) eq_refl). congruence.
  - intros Hdn. specialize (H4 Hdn). step_cases Hs; try done; try congruence.
    specialize (H3 k _ ltac:(eassumption) eq_refl). congruence.
  - intros Hno i w Hi. specialize (H7 Hno). destruct Hws as [Hws|Hws]; rewrite Hws in Hi; [by eapply H7|].
    apply list_lookup_fmap_Some in Hi as (w0 & -> & Hi). specialize (H7 i w0 Hi). by destruct w0.
Qed.

Lemma destroy_step_locks p p' : locks_ok p -> destroy_step p = Next p' -> locks_ok p'.
Proof.
  intros Hl Hs. destruct (destroy_frame p p' Hs) as (He & Hn & Hsub & _ & _ & _ & _ & Hws).
  pose proof Hl as [H1 H2 H3 H4 H5 H6 H7]. apply (locks_woken p); try done; rewrite ?Hsub; try done.
  - intros i w Hi Hlw. specialize (H2 i w Hi Hlw). step_cases Hs; try done; try congruence. specialize (H4 ltac:(done)). congruence.
  - intros k s Hk Hpc. specialize (H3 k s Hk Hpc). step_cases Hs; try done; try congruence. specialize (H4 ltac:(done)). congruence.
  - intros Hd. step_cases Hs; done.
  - intros _. step_cases Hs; try done; apply H6; congruence.
  - intros Hno i w Hi. unfold destroy_step in Hs.
    destruct (p_destroy p) eqn:Ed; step_cases Hs; try done; try (by eapply H7).
    destruct (drowsy w) eqn:Edr; [|done]. destruct (woken_undrowsy _ _ _ Hi Edr) as (w0 & Hi0 & Hl0).
    specialize (H2 i w0 Hi0 Hl0). rewrite (H4 eq_refl) in H2. done.
Qed.

Lemma pool_step_locks o p p' : thread_pool_step o p p' -> locks_ok p -> locks_ok p'.
Proof.
  intros Hs Hl. destruct Hs as [i p p' Hs|i p p' Hs|k u p p' Hs|k p p' Hs|k p p' Ho Hs|p p' Hs].
  - by eapply worker_step_locks.
  - unfold spurious_step in Hs. destruct (p_workers p !! i) as [[]|] eqn:Hi; try discriminate Hs. injection Hs as <-.
    apply (locks_worker p _ i _ (W_woken s) Hl Hi); cbn; try done; [by left|lia].
  - assert (forall k' s, p_subs p' !! k' = Some s -> s_pc s = S_notify -> p_subs p !! k' = Some s) as Hsub.
    { intros k' s Hk' Hpc. step_cases Hs. apply list_lookup_insert_Some in Hk' as [(<- & <- & _)|[_ Hk']]; done. }
    pose proof Hl as [H1 H2 H3 H4 H5 H6 H7]. step_cases Hs. apply (locks_woken p); cbn; try done; [by left|].
    intros k' s Hk' Hpc. apply (H3 k' s); [|done]. by apply Hsub.
  - by eapply submit_step_locks.
  - destruct (early_frame k p p' Hs) as (He & Hn & Hd & Hws & Hm & s & s' & Hk & Hsub & Hpc & Hpc').
    pose proof Hl as [H1 H2 H3 H4 H5 H6 H7]. apply (locks_woken p); rewrite ?He, ?Hd, ?Hm, ?Hws; try done; [by left|].
    intros k' s0 Hk' Hs0. rewrite Hsub in Hk'. apply list_lookup_insert_Some in Hk' as [(<- & <- & _)|[_ Hk']]; [done|].
    by apply (H3 k' s0).
  - by eapply destroy_step_locks.
Qed.

Lemma new_pool_locks capacity queue_size m :
  Z.of_nat capacity < 2 ^ 64 -> locks_ok (new_pool capacity queue_size m).
Proof.
  intros Hc. split; cbn; try done.
  - unfold zlen. by rewrite length_replicate.
  - by intros i w [-> _]%lookup_replicate.
  - by intros k s [-> _]%lookup_replicate.
  - by rewrite zsum_replicate.
Qed.

End Locks.

(** ** Sleeping workers *)

Section Sleep.
Context {T : Type}.
Abbreviation thread_pool := (thread_pool (T := T)).

Definition queue_of (p : thread_pool) (l : nat) : list T := match p_tds p !! l with Some td => queued td | None => [] end.

(** A submitter is between its push and its notification. *)
Definition notifies (s : submitter (T := T)) : bool :=
  match s_pc s with S_check | S_lock | S_notify => true | _ => false end.
Definition notifying (p : thread_pool) : Prop := exists k s, p_subs p !! k = Some s /\ notifies s = true.

Definition quiet (p : thread_pool) (l : nat) : Prop := queue_of p l = [] \/ notifying p.

(** What a worker knows of the queues it has looked at in the predicate *)
Definition watch (p : thread_pool) (i : nat) (w : worker_pc (T := T)) : Prop :=
  match w with
  | W_pred_scan _ j m | W_pred_pop _ j m => forall l, (l < j \/ m <= l)%nat -> quiet p l
  | W_waiting s => if decide (s = STANDBY) then forall l, quiet p l else quiet p i
  | _ => True
  end.

Definition sleep_ok (p : thread_pool) : Prop := forall i w, p_workers p !! i = Some w -> watch p i w.

Definition watches (w : worker_pc (T := T)) : bool :=
  match w with W_pred_scan _ _ _ | W_pred_pop _ _ _ | W_waiting _ => true | _ => false end.

Lemma watch_mono (p p' : thread_pool) i w : (forall l, quiet p l -> quiet p' l) -> watch p i w -> watch p' i w.
Proof. intros Hq. destruct w; cbn; try done; [auto..|]. case_decide; auto. Qed.

Lemma watch_trivial (p : thread_pool) i w : watches w = false -> watch p i w.
Proof. by destruct w. Qed.

Lemma beyond_quiet n p l : shape n p -> (n <= l)%nat -> quiet p l.
Proof.
  intros Hsh Hl. left. unfold queue_of. destruct (p_tds p !! l) as [td|] eqn:E; [|done].
  destruct (queued td) eqn:Eq; [done|]. pose proof (sh_queue n p Hsh l td E) as Hq. rewrite Eq in Hq.
  specialize (Hq ltac:(done)). pose proof (shape_active n p Hsh). lia.
Qed.

Lemma beyond_active n p l : shape n p -> (Z.to_nat (p_active p) <= l)%nat -> quiet p l.
Proof.
  intros Hsh Hl. left. unfold queue_of. destruct (p_tds p !! l) as [td|] eqn:E; [|done].
  destruct (queued td) eqn:Eq; [done|]. pose proof (sh_queue n p Hsh l td E) as Hq. rewrite Eq in Hq.
  specialize (Hq ltac:(done)). lia.
Qed.

(** A step that makes the queues no longer and leaves the submitters alone *)
Lemma quiet_shrunk (p p' : thread_pool) l : shrunk (p_tds p) (p_tds p') -> p_subs p' = p_subs p -> quiet p l -> quiet p' l.
Proof.
  intros Ht Hs [Hq|(k & s & Hk & Hn)]; [left|right; exists k, s; by rewrite Hs]. unfold queue_of in *.
  destruct (p_tds p' !! l) as [td'|] eqn:E; [|done]. destruct (Ht l td' E) as (td & Htd & _ & _ & Hq').
  rewrite Htd in Hq. destruct (queued td'); [done|]. by destruct Hq'.
Qed.

Lemma worker_step_frame i (p p' : thread_pool) n :
  worker_step i p = Next p' -> workers_ok n p ->
  shrunk (p_tds p) (p_tds p') /\ p_subs p' = p_subs p.
Proof.
  intros Hs Hw. destruct (p_workers p !! i) as [w|] eqn:Ei; [|unfold worker_step in Hs; by rewrite Ei in Hs].
  specialize (Hw i w Ei). split; step_cases Hs; try done; try (by apply shrunk_refl); by eapply shrunk_pop.
Qed.

Lemma worker_step_sleep n i p p' :
  shape n p -> workers_ok n p -> sleep_ok p -> worker_step i p = Next p' -> sleep_ok p'.
Proof.
  intros Hsh Hw Hsl Hs. destruct (worker_step_frame i p p' n Hs Hw) as [Ht Hsub].
  destruct (p_workers p !! i) as [w|] eqn:Ei; [|unfold worker_step in Hs; by rewrite Ei in Hs].
  assert (forall w', p_workers p' = <[i := w']> (p_workers p) -> watch p i w' -> sleep_ok p') as Hset.
  { intros w' Hws Hwa j v Hj. rewrite Hws in Hj. apply (watch_mono p); [intros l; by apply quiet_shrunk|].
    apply list_lookup_insert_Some in Hj as [(<- & <- & _)|[_ Hj]]; [done|by apply Hsl]. }
  pose proof (Hsl i w Ei) as Hwi. pose proof (Hw i w Ei) as Hok.
  clear Ht Hsub. step_cases Hs; (eapply Hset; [reflexivity|]); try done; cbn.
  - destruct Hok as [-> _]. cbn. left. unfold queue_of. by rewrite H1.
  - intros l [?|Hl]; [lia|]. by eapply beyond_active.
  - intros l' Hl. destruct (decide (l' = j)) as [->|]; [|apply Hwi; lia].
    apply (beyond_quiet n); [done|].
    match goal with E : p_tds p !! j = Some ?td |- _ => destruct (sh_status n p Hsh j td E) as [Hst _] end.
    case_decide; [congruence|lia].
  - destruct Hok as [-> _]. cbn. intros l. apply Hwi. lia.
  - intros l Hl. destruct (decide (l = j)) as [->|]; [|apply Hwi; lia]. left. unfold queue_of.
    match goal with E : p_tds p !! j = Some _ |- _ => by rewrite E end.
Qed.

(** *** Submitters *)

Lemma nobody_watches (p p' : thread_pool) :
  (forall i w, p_workers p' !! i = Some w -> watches w = false) -> sleep_ok p'.
Proof. intros Hn i w Hi. apply watch_trivial. by eapply Hn. Qed.

Lemma queue_same (tds : list (SingleThread (T := T))) i l td td' :
  tds !! i = Some td -> queued td' = queued td ->
  match <[i := td']> tds !! l with Some td => queued td | None => [] end
  = match tds !! l with Some td => queued td | None => [] end.
Proof.
  intros Hi Hq. destruct (decide (i = l)) as [->|]; [|by rewrite list_lookup_insert_ne].
  rewrite list_lookup_insert_eq by (by eapply lookup_lt_Some). by rewrite Hi.
Qed.

(** A submitter that does not notify, before its step, leaves what is quiet
    quiet. *)
Lemma quiet_submit k (p p' : thread_pool) s l :
  p_subs p !! k = Some s -> notifies s = false -> submit_step k p = Next p' -> quiet p l -> quiet p' l.
Proof.
  intros Hk Hn Hs [Hq|(k' & s' & Hk' & Hn')].
  - assert (notifying p' \/ queue_of p' l = queue_of p l) as [Hx|Hx]; [|by right|left; by rewrite Hx].
    destruct (decide (k < length (p_subs p))%nat) as [Hlt|]; [|by apply lookup_lt_Some in Hk].
    step_cases Hs; unfold queue_of; cbn; try (by right); try (by right; eapply queue_same).
    left. exists k. eexists. cbn. by rewrite list_lookup_insert_eq.
  - right. exists k', s'. split; [|done]. assert (k' <> k) by congruence. step_cases Hs; by rewrite list_lookup_insert_ne.
Qed.

Lemma submit_step_sleep k p p' :
  locks_ok p -> sleep_ok p -> submit_step k p = Next p' -> sleep_ok p'.
Proof.
  intros Hl Hsl Hs. destruct (p_subs p !! k) as [[pc m]|] eqn:Hk; [|unfold submit_step in Hs; by rewrite Hk in Hs].
  pose proof (lookup_lt_Some _ _ _ Hk) as Hlt.
  destruct (notifies (mk_sub pc m)) eqn:Hn.
  2: { intros i w Hi. assert (p_workers p !! i = Some w) as Hi0.
       { unfold submit_step in Hs. rewrite Hk in Hs. destruct pc; try done; step_cases Hs; done. }
       apply (watch_mono p); [intros l; by eapply quiet_submit|by apply Hsl]. }
  unfold submit_step in Hs. rewrite Hk in Hs. destruct pc; try done; unfold lock_wake in Hs.
  - injection Hs as <-. destruct (Z.ltb_spec 0 (p_need_wakeup p)) as [Hneed|Hneed].
    + intros i w Hi. apply (watch_mono p); [|by apply Hsl]. intros l _. right. exists k. eexists. cbn.
      by rewrite list_lookup_insert_eq.
    + apply (nobody_watches p). intros i w Hi. cbn in Hi. rewrite (lk_need p Hl) in Hneed.
      pose proof (zsum_ge in_wait _ i w ltac:(apply counted_range) Hi). destruct w; try done; cbn in *; lia.
  - destruct (p_wake_mtx p); [done|]. injection Hs as <-.
    intros i w Hi. apply (watch_mono p); [|by apply Hsl]. intros l _. right. exists k. eexists. cbn.
    by rewrite list_lookup_insert_eq.
  - injection Hs as <-. apply (nobody_watches p). intros i w Hi. cbn in Hi.
    pose proof (lk_sub p Hl k _ Hk eq_refl) as Hm. apply list_lookup_fmap_Some in Hi as (w0 & -> & Hi).
    pose proof (lk_worker p Hl i w0 Hi) as Hw. destruct w0; try done; by rewrite Hm in Hw; specialize (Hw eq_refl).
Qed.

Lemma pool_step_sleep p p' :
  thread_pool_step true p p' -> paired_ok p -> locks_ok p -> sleep_ok p -> sleep_ok p'.
Proof.
  intros Hs [(n & Hsh & Hw)] Hl Hsl. destruct Hs as [i p p' Hs|i p p' Hs|k u p p' Hs|k p p' Hs|k p p' Ho Hs|p p' Hs].
  - by eapply worker_step_sleep.
  - unfold spurious_step in Hs. destruct (p_workers p !! i) as [[]|] eqn:Hi; try discriminate Hs. injection Hs as <-.
    intros j v Hj. apply (watch_mono p); [done|]. cbn in Hj.
    apply list_lookup_insert_Some in Hj as [(<- & <- & _)|[_ Hj]]; [done|by apply Hsl].
  - unfold submit_call in Hs. destruct (p_subs p !! k) as [[[] m]|] eqn:Hk; try discriminate Hs. injection Hs as <-.
    intros j v Hj. apply (watch_mono p); [|by apply Hsl]. intros l [Hq|(k' & s' & Hk' & Hn')]; [by left|right].
    exists k', s'. split; [|done]. cbn. rewrite list_lookup_insert_ne; [done|]. intros <-. rewrite Hk in Hk'. by simplify_eq.
  - by eapply submit_step_sleep.
  - discriminate Ho.
  - destruct (destroy_frame p p' Hs) as (_ & _ & Hsub & Ht & _ & _ & _ & Hws). intros i w Hi.
    assert (forall l, quiet p l -> quiet p' l) as Hq.
    { intros l. apply quiet_shrunk; [rewrite Ht; apply shrunk_refl|done]. }
    apply (watch_mono p _ _ _ Hq). destruct Hws as [Hws|Hws]; rewrite Hws in Hi; [by apply Hsl|].
    apply list_lookup_fmap_Some in Hi as (w0 & -> & Hi). specialize (Hsl i w0 Hi). by destruct w0.
Qed.

(** *** All together *)

Lemma reachable_ok o capacity queue_size m (p : thread_pool) :
  Z.of_nat capacity < 2 ^ 64 -> rtc (thread_pool_step o) (new_pool capacity queue_size m) p -> paired_ok p /\ locks_ok p.
Proof.
  intros Hc. revert p. apply rtc_ind_r.
  - split; [by apply new_pool_paired|by apply new_pool_locks].
  - intros q q' _ Hs [Hp Hl]. split; [by eapply pool_step_paired|by eapply pool_step_locks].
Qed.

Lemma reachable_sleep capacity queue_size m (p : thread_pool) :
  Z.of_nat capacity < 2 ^ 64 -> rtc (thread_pool_step true) (new_pool capacity queue_size m) p -> sleep_ok p.
Proof.
  intros Hc. revert p. apply rtc_ind_r.
  - intros i w [-> _]%lookup_replicate. done.
  - intros q q' Hr Hs Hsl. destruct (reachable_ok _ _ _ _ _ Hc Hr). by eapply pool_step_sleep.
Qed.

End Sleep.

(** ** The end of the workers *)

Section Finish.
Context {T : Type}.
Abbreviation thread_pool := (thread_pool (T := T)).

(** Whoever has the mutex is where it can give it back. *)
Definition held_ok (p : thread_pool) : Prop :=
  match p_wake_mtx p with
  | None => True
  | Some (By_worker i) => exists w, p_workers p !! i = Some w /\ locked w = true
  | Some (By_submitter k) => exists m, p_subs p !! k = Some (mk_sub S_notify m)
  | Some By_destructor => p_destroy p = D_notify
  end.

#[local] Arguments held_ok : simpl never.

Lemma held_worker (p p' : thread_pool) i w w' :
  held_ok p -> p_workers p !! i = Some w -> p_workers p' = <[i := w']> (p_workers p) ->
  p_subs p' = p_subs p -> p_destroy p' = p_destroy p ->
  (p_wake_mtx p' = None \/ (p_wake_mtx p' = Some (By_worker i) /\ locked w' = true)
   \/ (p_wake_mtx p' = p_wake_mtx p /\ (locked w = true -> locked w' = true))) ->
  held_ok p'.
Proof.
  unfold held_ok. intros Hh Hi Hw Hs Hd [->|[[-> Hl]|[-> Hl]]]; [done| |]; rewrite ?Hw, ?Hs, ?Hd.
  - exists w'. split; [|done]. apply list_lookup_insert_eq. by eapply lookup_lt_Some.
  - destruct (p_wake_mtx p) as [[j|k|]|]; try done. destruct Hh as (v & Hj & Hv).
    destruct (decide (i = j)) as [->|Hne]; [|exists v; by rewrite list_lookup_insert_ne].
    rewrite Hi in Hj. simplify_eq. exists w'. split; [|by apply Hl]. apply list_lookup_insert_eq. by eapply lookup_lt_Some.
Qed.

Lemma worker_step_held i p p' : held_ok p -> worker_step i p = Next p' -> held_ok p'.
Proof.
  intros Hh Hs. step_cases Hs;
  match goal with Hi : p_workers p !! i = Some ?v |- held_ok (set_worker _ ?v' _) => apply (held_worker p _ i v v' Hh Hi) end;
    cbn; try done; first [by left|by right; left|by right; right].
Qed.

Lemma woken_held (ws : list (worker_pc (T := T))) i :
  (exists w, ws !! i = Some w /\ locked w = true) -> exists w, (wake <$> ws) !! i = Some w /\ locked w = true.
Proof. intros (w & Hi & Hw). exists (wake w). rewrite list_lookup_fmap, Hi. split; [done|]. by destruct w. Qed.

Lemma held_sub (p p' : thread_pool) k s s' :
  held_ok p -> p_subs p !! k = Some s -> p_subs p' = <[k := s']> (p_subs p) -> p_destroy p' = p_destroy p ->
  p_workers p' = p_workers p \/ p_workers p' = wake <$> p_workers p ->
  (p_wake_mtx p' = None \/ (p_wake_mtx p' = Some (By_submitter k) /\ s_pc s' = S_notify)
   \/ (p_wake_mtx p' = p_wake_mtx p /\ s_pc s <> S_notify)) ->
  held_ok p'.
Proof.
  unfold held_ok. intros Hh Hk Hs Hd Hw [->|[[-> Hl]|[-> Hl]]]; [done| |]; rewrite ?Hs, ?Hd.
  - destruct s' as [pc m']. cbn in Hl. subst pc. exists m'. apply list_lookup_insert_eq. by eapply lookup_lt_Some.
  - destruct (p_wake_mtx p) as [[j|k'|]|]; try done.
    + destruct Hw as [-> | ->]; [done|by apply woken_held].
    + destruct Hh as (m' & Hk'). exists m'. rewrite list_lookup_insert_ne; [done|]. intros <-. rewrite Hk in Hk'. by simplify_eq.
Qed.

Lemma submit_step_held k p p' : held_ok p -> submit_step k p = Next p' -> held_ok p'.
Proof.
  intros Hh Hs. step_cases Hs;
  match goal with Hk : p_subs p !! k = Some ?v |- held_ok (set_sub _ ?v' _) => apply (held_sub p _ k v v' Hh Hk) end;
    cbn; try done; first [by left|by right|by right; left|by right; right].
Qed.

Lemma pool_step_held o p p' : thread_pool_step o p p' -> held_ok p -> held_ok p'.
Proof.
  intros Hs Hh. destruct Hs as [i p p' Hs|i p p' Hs|k u p p' Hs|k p p' Hs|k p p' Ho Hs|p p' Hs].
  - by eapply worker_step_held.
  - unfold spurious_step in Hs. destruct (p_workers p !! i) as [[]|] eqn:Hi; try discriminate Hs. injection Hs as <-.
    apply (held_worker p _ i _ (W_woken s) Hh Hi); cbn; try done. by right; right.
  - unfold submit_call in Hs. destruct (p_subs p !! k) as [[[] m]|] eqn:Hk; try discriminate Hs. injection Hs as <-.
    apply (held_sub p _ k _ (mk_sub (S_exit u) m) Hh Hk); cbn; try done; [by left|by right; right].
  - by eapply submit_step_held.
  - destruct (early_frame k p p' Hs) as (_ & _ & Hd & Hws & Hm & s & s' & Hk & Hsub & Hpc & _).
    apply (held_sub p p' k s s' Hh Hk); try done; [by left|]. by right; right.
  - step_cases Hs; unfold held_ok in *; cbn; try done; destruct (p_wake_mtx p) as [[j|k'|]|]; try done; congruence.
Qed.

(** How many steps a worker has left once [_exit] is set, with a pool of [c]
    threads *)
Definition steps_left (c : nat) (w : worker_pc (T := T)) : nat :=
  match w with
  | W_done => 0
  | W_final => 1
  | W_loop | W_run_final _ => 2
  | W_run _ | W_final_pop => 3
  | W_unlock _ => 4
  | W_sub _ => 5
  | W_pred _ => 6
  | W_add _ | W_woken _ => 7
  | W_lock _ => 8
  | W_scan _ j m => 9 + 3 * (m - j)
  | W_scan_exit _ j m => 8 + 3 * (m - j)
  | W_scan_pop _ j m => 7 + 3 * (m - j)
  | W_steal _ => 9
  | W_active _ => 10 + 3 * c
  | W_sub_active => 10
  | W_standby => 11
  | W_consume _ => 12
  | W_run_own _ _ => 13
  | W_pop _ => 14
  | W_status => 15
  | W_pred_own _ | W_pred_active _ | W_pred_scan _ _ _ | W_pred_pop _ _ _ | W_waiting _ => 0
  end%nat.

Lemma exit_decreases n i p p' w :
  shape n p -> workers_ok n p -> p_exit p = true -> p_workers p !! i = Some w -> drowsy w = false ->
  worker_step i p = Next p' ->
  exists w', p_workers p' = <[i := w']> (p_workers p) /\ (steps_left (p_capacity p) w' < steps_left (p_capacity p) w)%nat.
Proof.
  intros Hsh Hw He Hi Hd Hs. pose proof (Hw i w Hi) as Hwi. pose proof (shape_active n p Hsh) as Ha.
  pose proof (sh_n n p Hsh) as Hn. step_cases Hs; try congruence; eexists; (split; [reflexivity|]); cbn; try lia.
Qed.

(** The thread that has the mutex makes a step. *)
Definition holder_step (h : holder) (p : thread_pool) : step_outcome :=
  match h with By_worker i => worker_step i p | By_submitter k => submit_step k p | By_destructor => destroy_step p end.

(** Whoever has the mutex can go on. *)
Lemma holder_moves (p : thread_pool) h :
  paired_ok p -> held_ok p -> p_wake_mtx p = Some h -> exists p', holder_step h p = Next p'.
Proof.
  intros [(n & Hsh & Hw)] Hh Hm. unfold held_ok in Hh. rewrite Hm in Hh. unfold holder_step. destruct h as [i|k|].
  - destruct Hh as (w & Hi & Hl). destruct (worker_step i p) as [p'| |] eqn:E; [by exists p'| |].
    + unfold worker_step, tryConsume_step, tryStealOne_step, tryGetOne_step in E. rewrite Hi in E. destruct w; try done; unfold pop_task, load_status in E; by repeat case_match.
    + exfalso. by eapply worker_no_fault.
  - destruct Hh as (m & Hk). eexists. unfold submit_step. by rewrite Hk.
  - eexists. unfold destroy_step. by rewrite Hh.
Qed.

(** A worker that is not done can go on, or waits for the mutex. *)
Lemma worker_moves n i p (w : worker_pc (T := T)) :
  shape n p -> workers_ok n p -> p_workers p !! i = Some w -> drowsy w = false -> w <> W_done ->
  (exists p', worker_step i p = Next p') \/ is_Some (p_wake_mtx p).
Proof.
  intros Hsh Hw Hi Hd Hdone. destruct (worker_step i p) as [p'| |] eqn:E; [left; eauto| |exfalso; by eapply worker_no_fault].
  right. unfold worker_step, tryConsume_step, tryStealOne_step, tryGetOne_step in E. rewrite Hi in E.
  destruct w; try done; unfold pop_task, load_status, lock_wake in E; repeat case_match; try done; by eexists.
Qed.

End Finish.

(** ** Properties *)

(** C22: While no submitting thread ends, whatever the number of threads, the size
    of the queues, the interleaving of workers, submitters and the destructor,
    and the order of a push and the load after it, every task is, as often as it
    was submitted, either run or in exactly one place: a thread's queue, a
    worker's or a submitter's hands. So none is lost on the way and none runs
    more often than it was submitted. Not every task is run in the end: what is
    in a queue when the pool is destroyed stays there ([queued_task_dropped]). *)
Theorem tasks_conserved {T : Type} `{EqDecision T} (ordered : bool) (capacity m : nat) (queue_size : Z)
    (p : thread_pool (T := T)) (t : T) :
  rtc (thread_pool_step ordered) (new_pool capacity queue_size m) p ->
  occ t (p_sent p) = in_pool t p /\ occ t (p_ran p) <= occ t (p_sent p).
Proof.
  intros Hr. assert (occ t (p_sent p) = in_pool t p) as Hin.
  { revert p Hr. apply rtc_ind_r; [|intros q q' _ Hs Hq; by eapply pool_step_tasks].
    unfold in_pool. cbn. by rewrite !zsum_replicate. }
  split; [done|]. rewrite Hin. unfold in_pool.
  assert (forall l, 0 <= occ t l) as Hocc by (intros l; apply zsum_nonneg; intros x; by case_decide).
  pose proof (zsum_nonneg (fun w => occ t (worker_hand w)) (p_workers p) ltac:(intros; apply Hocc)).
  pose proof (zsum_nonneg (fun s => occ t (submit_hand s)) (p_subs p) ltac:(intros; apply Hocc)).
  pose proof (zsum_nonneg (fun td => occ t (queued td)) (p_tds p) ltac:(intros; apply Hocc)). lia.
Qed.

(** The load of [submit] comes after its push: then a sleeper's queue holds a
    task only while a submitter is on its way to notify, and the count it will
    read is positive. *)
Lemma ordered_wakes {T : Type} (capacity m : nat) (queue_size : Z) (p : thread_pool (T := T)) (i l : nat) (s : EThreadStatus) :
  Z.of_nat capacity < 2 ^ 64 -> rtc (thread_pool_step true) (new_pool capacity queue_size m) p ->
  p_workers p !! i = Some (W_waiting s) -> (l = i \/ s = STANDBY) -> queue_of p l <> [] ->
  notifying p /\ 0 < p_need_wakeup p.
Proof.
  intros Hc Hr Hi Hl Hq. destruct (reachable_ok _ _ _ _ _ Hc Hr) as [_ Hlk].
  pose proof (reachable_sleep _ _ _ _ Hc Hr) as Hsl. split.
  - specialize (Hsl i _ Hi). cbn in Hsl. case_decide; [by destruct (Hsl l)|]. destruct Hl as [->|]; [by destruct Hsl|done].
  - rewrite (lk_need p Hlk). pose proof (zsum_ge in_wait _ i _ ltac:(apply counted_range) Hi) as Hge. cbn in Hge. lia.
Qed.

(** While no submitting thread ends, no thread follows a null queue or
    reads past the end of [_tds], the count of paired threads is at most the
    capacity, and no two submitters are paired with the same thread: every queue
    has the single producer it needs. *)
Theorem single_producer {T : Type} (ordered : bool) (capacity m : nat) (queue_size : Z) (p : thread_pool (T := T)) :
  Z.of_nat capacity < 2 ^ 64 -> rtc (thread_pool_step ordered) (new_pool capacity queue_size m) p ->
  (forall i, worker_step i p <> Fault) /\ (forall k, submit_step k p <> Fault)
  /\ p_active p <= Z.of_nat (p_capacity p)
  /\ (forall k k' s s' j, p_subs p !! k = Some s -> p_subs p !! k' = Some s' ->
        s_paired s = Some j -> s_paired s' = Some j -> k = k').
Proof.
  intros Hc Hr. destruct (reachable_ok _ _ _ _ _ Hc Hr) as [[(n & Hsh & Hw)] _]. split_and!.
  - intros i. by eapply worker_no_fault.
  - intros k. by eapply submitter_no_fault.
  - pose proof (shape_active n p Hsh). pose proof (sh_n n p Hsh). lia.
  - intros k k' s s' j Hk Hk' Hj Hj'. apply (sh_claims n p Hsh k k' s s' j Hk Hk'); unfold claim; by rewrite ?Hj, ?Hj'.
Qed.

(** C23: The destructor's joins can end, while no submitting thread ends (a
    worker may otherwise read past the end of [_tds]: [active_exceeds_capacity])
    and a task's own run returns. Once the destructor has notified the workers
    none is asleep or goes to sleep, every step of a worker leaves it with fewer
    steps to its end, and as long as a worker is not at its end it can make a
    step, or the very thread that has the mutex can. *)
Theorem workers_finish {T : Type} (ordered : bool) (capacity m : nat) (queue_size : Z) (p : thread_pool (T := T)) (i : nat)
    (w : worker_pc) :
  Z.of_nat capacity < 2 ^ 64 -> rtc (thread_pool_step ordered) (new_pool capacity queue_size m) p ->
  told (p_destroy p) = true -> p_workers p !! i = Some w ->
  (forall s, w <> W_waiting s)
  /\ (forall p', worker_step i p = Next p' -> exists w', p_workers p' !! i = Some w'
        /\ (steps_left (p_capacity p) w' < steps_left (p_capacity p) w)%nat)
  /\ (w <> W_done -> (exists p', worker_step i p = Next p')
        \/ (exists h p', p_wake_mtx p = Some h /\ holder_step h p = Next p')).
Proof.
  intros Hc Hr Hn Hi. destruct (reachable_ok _ _ _ _ _ Hc Hr) as [Hpk Hlk].
  assert (held_ok p) as Hh.
  { clear -Hr. revert p Hr. apply rtc_ind_r; [done|]. intros q q' _ Hs Hq. by eapply pool_step_held. }
  pose proof (lk_awake p Hlk Hn i w Hi) as Hd. assert (p_exit p = true) as He.
  { apply (lk_exit p Hlk). intros E. by rewrite E in Hn. }
  pose proof Hpk as [(n & Hsh & Hw)]. split_and!.
  - by intros s ->.
  - intros p' Hs. destruct (exit_decreases n i p p' w Hsh Hw He Hi Hd Hs) as (w' & -> & Hlt). exists w'.
    split; [|done]. apply list_lookup_insert_eq. by eapply lookup_lt_Some.
  - intros Hdone. destruct (worker_moves n i p w Hsh Hw Hi Hd Hdone) as [Hx|[h Hm]]; [by left|right].
    destruct (holder_moves p h Hpk Hh Hm) as [p' Hp']. by exists h, p'.
Qed.

(** ** Runs *)

Inductive thread_pool_act (T : Type) : Type :=
| A_worker (i : nat)
| A_spurious (i : nat)
| A_submit (k : nat) (t : T)
| A_sub (k : nat)
| A_early (k : nat)
| A_leave (k : nat)
| A_destroy.
#[global] Arguments A_worker {T} i.
#[global] Arguments A_spurious {T} i.
#[global] Arguments A_submit {T} k t.
#[global] Arguments A_sub {T} k.
#[global] Arguments A_early {T} k.
#[global] Arguments A_leave {T} k.
#[global] Arguments A_destroy {T}.

Definition thread_pool_do {T : Type} (a : thread_pool_act T) (p : thread_pool) : step_outcome :=
  match a with
  | A_worker i => worker_step i p
  | A_spurious i => spurious_step i p
  | A_submit k t => submit_call k t p
  | A_sub k => submit_step k p
  | A_early k => early_step k p
  | A_leave k => leave_call k p
  | A_destroy => destroy_step p
  end.

(** Each act the given number of times *)
Fixpoint thread_pool_run {T : Type} (l : list (nat * thread_pool_act T)) (p : thread_pool) : step_outcome :=
  match l with
  | [] => Next p
  | (c, a) :: l =>
      let fix times c p := match c with O => Next p | S c => match thread_pool_do a p with Next p => times c p | o => o end end in
      match times c p with Next p => thread_pool_run l p | o => o end
  end.

(** The acts of [thread_pool_step] *)
Definition stays {T : Type} (ordered : bool) (a : nat * thread_pool_act T) : bool :=
  match a.2 with A_leave _ => false | A_early _ => negb ordered | _ => true end.

Lemma pool_do_step {T : Type} o c (a : thread_pool_act T) p p' :
  stays o (c, a) = true -> thread_pool_do a p = Next p' -> thread_pool_step o p p'.
Proof.
  intros Ha Hd. destruct a; cbn in Ha, Hd; [by eapply Step_worker|by eapply Step_spurious|by eapply Step_submit|
    by eapply Step_submitter|eapply Step_early; [by destruct o|done]|done|by eapply Step_destroy].
Qed.

Lemma pool_run_steps {T : Type} o (l : list (nat * thread_pool_act T)) : forall p p',
  forallb (stays o) l = true -> thread_pool_run l p = Next p' -> rtc (thread_pool_step o) p p'.
Proof.
  induction l as [|[c a] l IH]; intros p p' Hl Hr; [by simplify_eq/=|].
  cbn [forallb thread_pool_run] in *. apply andb_prop in Hl as [Ha Hl]. revert p Hr.
  induction c as [|c IHc]; intros p Hr; [by apply IH|]. cbn in Hr.
  destruct (thread_pool_do a p) as [q| |] eqn:E; [|done..]. eapply rtc_l; [by eapply (pool_do_step o (S c))|by apply IHc].
Qed.

Definition get_pool {T : Type} (o : step_outcome (T := T)) : thread_pool := match o with Next p => p | _ => new_pool 0 0 0 end.

(** A pool of one worker, asleep, with a task in its queue, whose submitter has
    not yet looked at [_need_wakeup] *)
Definition nap : list (nat * thread_pool_act Z) := [(10%nat, A_worker 0); (1%nat, A_submit 0 7); (9%nat, A_sub 0)].
Definition napping : thread_pool := Eval vm_compute in get_pool (thread_pool_run nap (new_pool 1 8 1)).

Lemma napping_reachable o : rtc (thread_pool_step o) (new_pool 1 8 1) napping.
Proof. apply (pool_run_steps o nap); destruct o; vm_compute; reflexivity. Qed.

(** The submitter reads [_need_wakeup] before its push, and before the worker
    announces itself: the worker sleeps, its task is queued, and the submitter
    has gone. *)
Definition miss : list (nat * thread_pool_act Z) :=
  [(1%nat, A_submit 0 7); (8%nat, A_sub 0); (1%nat, A_early 0); (14%nat, A_worker 0); (1%nat, A_early 0)].

(** C21: Wake-ups depend on the order of a push and the load after it, while no
    submitting thread ends. When the load of [_need_wakeup] in [submit] takes
    effect after the push, none is lost: a worker asleep while its own queue
    holds a task — or any queue does, for a worker that went to sleep unpaired —
    has a submitter between its push and its notification, and the count of
    sleepers it will read is positive. As written the load is relaxed and may
    come first; then a state can be reached in which a worker sleeps on a queued
    task and nobody is on the way to wake it. *)
Theorem wakeups_need_order :
  (forall (T : Type) (capacity m : nat) (queue_size : Z) (p : thread_pool (T := T)) (i l : nat) (s : EThreadStatus),
     Z.of_nat capacity < 2 ^ 64 -> rtc (thread_pool_step true) (new_pool capacity queue_size m) p ->
     p_workers p !! i = Some (W_waiting s) -> (l = i \/ s = STANDBY) -> queue_of p l <> [] ->
     notifying p /\ 0 < p_need_wakeup p)
  /\ (exists p : thread_pool (T := Z), rtc (thread_pool_step false) (new_pool 1 8 1) p
        /\ (exists s, p_workers p = [W_waiting s]) /\ queue_of p 0 = [7] /\ p_subs p = [mk_sub S_idle (Some 0%nat)]
        /\ 0 < p_need_wakeup p).
Proof.
  split; [intros T; exact ordered_wakes|].
  destruct (thread_pool_run miss (new_pool 1 8 1)) as [p| |] eqn:E; [|vm_compute in E; discriminate E..].
  exists p. split; [apply (pool_run_steps false miss); [reflexivity|exact E]|].
  vm_compute in E. injection E as <-. split; [by eexists|]. by split_and!.
Qed.

Lemma wakeups_need_order_witness :
  p_workers napping !! 0%nat = Some (W_waiting STANDBY) /\ queue_of napping 0 = [7] /\ notifying napping.
Proof.
  split; [reflexivity|]. split; [reflexivity|].
  apply (proj1 wakeups_need_order Z 1%nat 1%nat 8 napping 0%nat 0%nat STANDBY);
    [reflexivity|exact (napping_reachable true)|reflexivity|by left|discriminate].
Defined.

Lemma tasks_conserved_witness :
  in_pool 7 napping = 1 /\ occ 7 (p_sent napping) = in_pool 7 napping.
Proof. split; [reflexivity|]. apply (tasks_conserved false 1 1 8 napping 7). exact (napping_reachable false). Defined.

(** Two submitters, each paired with a thread of its own *)
Definition pair_up : list (nat * thread_pool_act Z) :=
  [(1%nat, A_submit 0 7); (9%nat, A_sub 0); (1%nat, A_submit 1 8); (9%nat, A_sub 1)].
Definition paired_up : thread_pool := Eval vm_compute in get_pool (thread_pool_run pair_up (new_pool 3 8 2)).

Lemma single_producer_witness :
  s_paired <$> p_subs paired_up = [Some 0%nat; Some 1%nat] /\ worker_step 2 paired_up <> Fault /\ p_active paired_up <= 3.
Proof.
  split; [reflexivity|].
  destruct (single_producer true 3 2 8 paired_up) as (Hw & _ & Ha & _); [reflexivity|apply (pool_run_steps true pair_up); vm_compute; reflexivity|].
  split; [apply Hw|exact Ha].
Defined.

(** The destructor has notified the worker while it was asleep. *)
Definition wake_up : list (nat * thread_pool_act Z) := nap ++ [(3%nat, A_destroy)].
Definition woken_up : thread_pool := Eval vm_compute in get_pool (thread_pool_run wake_up (new_pool 1 8 1)).

Lemma workers_finish_witness :
  p_workers woken_up !! 0%nat = Some (W_woken STANDBY)
  /\ ((exists p', worker_step 0 woken_up = Next p')
      \/ (exists h p', p_wake_mtx woken_up = Some h /\ holder_step h woken_up = Next p')).
Proof.
  split; [reflexivity|].
  apply (workers_finish true 1 1 8 woken_up 0 (W_woken STANDBY));
    [reflexivity|apply (pool_run_steps true wake_up); vm_compute; reflexivity|reflexivity|reflexivity|discriminate].
Defined.

(** ** Where it breaks *)

(** Once as many threads are paired as there are, every task is run by the thread
    that submits it, also by one that has a worker, idle and with an empty queue. *)
Lemma full_pool_runs_inline :
  exists p : thread_pool, thread_pool_run [(1%nat, A_submit 0 7); (10%nat, A_sub 0); (1%nat, A_submit 0 8); (3%nat, A_sub 0)] (new_pool 1 8 1)
            = Next p
    /\ p_ran p = [8] /\ queue_of p 0 = [7] /\ p_subs p = [mk_sub S_check (Some 0%nat)].
Proof. eexists. split; [vm_compute; reflexivity|]. by split_and!. Qed.

(** A task that [submit] put into a queue is dropped when the pool is destroyed,
    although the worker calls [tryConsume] at its end, and its [SingleThread] is
    leaked. *)
Lemma queued_task_dropped :
  exists p : thread_pool, thread_pool_run [(1%nat, A_submit 0 7); (10%nat, A_sub 0); (3%nat, A_destroy); (2%nat, A_worker 0); (3%nat, A_destroy)]
              (new_pool 1 8 1) = Next p
    /\ p_destroy p = D_done /\ p_workers p = [W_done] /\ p_ran p = [] /\ queue_of p 0 = [7] /\ p_deleted p = [].
Proof. eexists. split; [vm_compute; reflexivity|]. by split_and!. Qed.

(** A submitter that leaves does not wake its worker, which looks at its own
    queue only: it stays asleep for good, its thread is never paired again, and
    in a pool of one every later task is run by its submitter. *)
Lemma left_thread_sleeps :
  exists p : thread_pool, thread_pool_run [(1%nat, A_submit 0 7); (10%nat, A_sub 0); (17%nat, A_worker 0); (1%nat, A_leave 0); (3%nat, A_sub 0);
                      (1%nat, A_submit 1 8); (6%nat, A_sub 1); (3%nat, A_worker 0)] (new_pool 1 8 2) = Next p
    /\ p_workers p = [W_waiting ACTIVE] /\ td_status <$> p_tds p = [INACTIVE] /\ p_active p = 1
    /\ p_ran p = [8; 7] /\ p_subs p = [mk_sub S_gone (Some 0%nat); mk_sub S_idle None].
Proof. eexists. split; [vm_compute; reflexivity|]. by split_and!. Qed.

(** The loop of [deleteThreadLocalPairThread] goes on as long as its
    [compare_exchange] succeeds: when the thread has been given to another
    submitter in between, it is taken away from it, and given to a third one
    while the second still puts tasks into its queue. *)
Lemma leaving_unpairs_another :
  exists p : thread_pool, thread_pool_run [(1%nat, A_submit 0 7); (10%nat, A_sub 0); (1%nat, A_leave 0); (2%nat, A_sub 0); (9%nat, A_worker 0);
                      (1%nat, A_submit 1 8); (10%nat, A_sub 1); (2%nat, A_sub 0); (12%nat, A_worker 0); (1%nat, A_submit 2 9);
                      (8%nat, A_sub 2); (1%nat, A_submit 1 10); (2%nat, A_sub 1)] (new_pool 2 8 3) = Next p
    /\ p_subs p = [mk_sub S_gone (Some 0%nat); mk_sub (S_push 10 0) (Some 0%nat); mk_sub (S_push 9 0) (Some 0%nat)].
Proof. eexists. split; [vm_compute; reflexivity|reflexivity]. Qed.

(** Between a worker's [STANDBY] and its decrement of [_active_td_size] its thread
    can be paired again: the count exceeds the capacity, and [tryStealOne] reads
    past the end of [_tds]. *)
Lemma active_exceeds_capacity :
  thread_pool_run [(1%nat, A_submit 0 7); (10%nat, A_sub 0); (1%nat, A_leave 0); (3%nat, A_sub 0); (8%nat, A_worker 0);
            (1%nat, A_submit 1 8); (2%nat, A_sub 1); (1%nat, A_submit 2 9); (2%nat, A_sub 2);
            (6%nat, A_sub 1); (7%nat, A_sub 2); (13%nat, A_worker 1)] (new_pool 2 8 3) = @Fault Z.
Proof. vm_compute. reflexivity. Qed.
