(* ===== verification/Connect.v ===== *)
(** * Connecting a socket (src/tcp/socket.cpp, socket_base.h)

    [Socket::connect] in the thread of a channel, interleaved with the loop
    thread of the descriptor, which calls the handlers it registers. A handler
    that holds a function holds a reference to its own socket: such a socket is
    never destroyed before the function is cleared. *)

From stdpp Require Import gmap relations.
From S2P Require Import Prelude CommonDefines.

(** ** [FdGuard] *)

(** The descriptors that are open, and a guard: its [_fd] *)
Definition descriptors : Type := gset Z.

(** [FdGuard(int fd)] *)
Definition new_guard (fd : Z) : Z := fd.

(** [FdGuard(FdGuard&& right)]: the new guard, and [right] *)
Definition move_guard (right : Z) : Z * Z := (right, -1).

(** [operator=(FdGuard&& right)] of another guard: this guard, and [right] *)
Definition assign_guard (this right : Z) : Z * Z := (right, -1).

(** [operator=(int fd)] *)
Definition assign_fd (this fd : Z) : Z := fd.

(** [release()], which is also the destructor *)
Definition release_guard (this : Z) (open : descriptors) : Z * descriptors :=
  (-1, if 0 <=? this then open ∖ {[ this ]} else open).

(** [handover()] *)
Definition handover (this : Z) : Z * Z := (this, -1).

(** Neither assignment closes the descriptor the guard had. *)
Lemma assignment_leaks (old new : Z) (open : descriptors) :
  0 <= old -> old <> new -> old ∈ open ->
  let '(this, other) := assign_guard old new in
  let '(_, open) := release_guard this open in
  let '(_, open) := release_guard other open in old ∈ open.
Proof. intros Ho Hne Hin. cbn -[Z.leb]. destruct (0 <=? new), (0 <=? -1); set_solver. Qed.

(** A descriptor that is moved to a new guard is closed once both are gone. *)
Lemma moved_closed (fd : Z) (open : descriptors) :
  0 <= fd ->
  let '(this, other) := move_guard (new_guard fd) in
  let '(_, open') := release_guard other open in
  let '(_, open') := release_guard this open' in open' = open ∖ {[ fd ]}.
Proof. intros Hfd. unfold new_guard. cbn -[Z.leb]. change (0 <=? -1) with false. by destruct (Z.leb_spec 0 fd); [|lia]. Qed.

(** ** [Socket::connect] *)

(** The handlers of the socket: [_connection.on_connection], [_on_read] *)
Inductive socket_handler : Set := On_connection | On_input.

#[global] Instance socket_handler_eq_dec : EqDecision socket_handler.
Proof. solve_decision. Defined.

Inductive cn_pc_t : Set :=
| K_start                            (* create_socket, prepare_socket *)
| K_connect                          (* base::connect *)
| K_schedule                         (* addSchedule(POLLOUT) *)
| K_wait                             (* get_future().wait_for(span), wait() *)
| K_clear                            (* on_connection = std::function<void()>() *)
| K_connected                        (* base::connected *)
| K_schedule_read                    (* addSchedule(POLLIN) *)
| K_watch                            (* addWatch *)
| K_ok
| K_end (ret : bool).

(** The loop thread is between handlers, or in [on_connection] after it removed
    its event. *)
Inductive cn_loop_t : Set := N_next | N_set.

(** The socket as the two threads see it; the event epoll has for its
    descriptor, and the one it has returned; whether the promise has a value *)
Record connecting := mk_cn {
  cn_pc : cn_pc_t;
  cn_status : ERpcStatus;
  cn_on_connection : bool;
  cn_on_read : bool;
  cn_watched : bool;
  cn_event : option socket_handler;
  cn_active : option socket_handler;
  cn_loop : cn_loop_t;
  cn_promise : bool;
  cn_crashed : bool;
  cn_blocking : bool
}.

Definition new_connecting : connecting :=
  mk_cn K_start RPC_STATUS_INIT false false false None None N_next false false false.

(** What the system answers: whether [prepare_socket] made the descriptor
    non-blocking; whether [base::connect] of a descriptor that blocks is still
    waiting for the peer, and whether it succeeded or is in progress;
    [epoll_ctl]; whether the time is up; [base::connected] *)
Record cn_answers := mk_answers {
  an_nonblocking : bool; an_waiting : bool; an_connect : bool; an_add : bool; an_late : bool; an_connected : bool }.

(** [addSchedule] of a handler of this socket *)
Definition schedule_handler (a : cn_answers) (h : socket_handler) (s : connecting) : bool * connecting :=
  match cn_event s with
  | None =>
      if an_add a then
        (true, mk_cn (cn_pc s) (cn_status s) (cn_on_connection s) (cn_on_read s) (cn_watched s) (Some h) (cn_active s)
                 (cn_loop s) (cn_promise s) (cn_crashed s) (cn_blocking s))
      else (false, s)
  | Some _ => (false, s)
  end.

Definition cn_goto (pc : cn_pc_t) (s : connecting) : connecting :=
  mk_cn pc (cn_status s) (cn_on_connection s) (cn_on_read s) (cn_watched s) (cn_event s) (cn_active s) (cn_loop s)
    (cn_promise s) (cn_crashed s) (cn_blocking s).
Definition cn_set (on_connection on_read watched : bool) (s : connecting) : connecting :=
  mk_cn (cn_pc s) (cn_status s) on_connection on_read watched (cn_event s) (cn_active s) (cn_loop s) (cn_promise s)
    (cn_crashed s) (cn_blocking s).

(** [setStatus(status); return ret;] *)
Definition cn_return (status : ERpcStatus) (ret : bool) (s : connecting) : connecting :=
  mk_cn (K_end ret) status (cn_on_connection s) (cn_on_read s) (cn_watched s) (cn_event s) (cn_active s) (cn_loop s)
    (cn_promise s) (cn_crashed s) (cn_blocking s).

(** [prepare_socket(_fd)], whose answer is not used: a descriptor that could not
    be made non-blocking blocks. *)
Definition cn_prepared (nonblocking : bool) (s : connecting) : connecting :=
  mk_cn (cn_pc s) (cn_status s) (cn_on_connection s) (cn_on_read s) (cn_watched s) (cn_event s) (cn_active s) (cn_loop s)
    (cn_promise s) (cn_crashed s) (negb nonblocking).

(** The next access of [connect(connect_timeout_ms)]; [None]: it waits or has
    returned *)
Definition connect_access (connect_timeout_ms : Z) (a : cn_answers) (s : connecting) : option connecting :=
  match cn_pc s with
  | K_start => Some (cn_goto K_connect (cn_prepared (an_nonblocking a) s))
  | K_connect =>
      if cn_blocking s && an_waiting a then None
      else Some (if an_connect a then cn_goto K_schedule (cn_set true (cn_on_read s) (cn_watched s) s)
                 else cn_return RPC_STATUS_SOCKET_CONNECT_FAIL false s)
  | K_schedule =>
      match schedule_handler a On_connection s with
      | (true, s) => Some (cn_goto K_wait s)
      | (false, s) => Some (cn_return RPC_STATUS_SOCKET_CONNECT_FAIL false s)
      end
  | K_wait =>
      if cn_promise s then Some (cn_goto K_clear s)
      else if (0 <? connect_timeout_ms) && an_late a then Some (cn_return RPC_STATUS_SOCKET_CONNECT_TIMEOUT false s)
      else None
  | K_clear => Some (cn_goto K_connected (cn_set false (cn_on_read s) (cn_watched s) s))
  | K_connected =>
      Some (if an_connected a then cn_goto K_schedule_read (cn_set (cn_on_connection s) true (cn_watched s) s)
            else cn_return RPC_STATUS_SOCKET_CONNECT_FAIL false s)
  | K_schedule_read =>
      match schedule_handler a On_input s with
      | (true, s) => Some (cn_goto K_watch s)
      | (false, s) =>
          Some (cn_return RPC_STATUS_SOCKET_CONNECT_FAIL false (cn_set (cn_on_connection s) false (cn_watched s) s))
      end
  | K_watch => Some (cn_goto K_ok (cn_set (cn_on_connection s) (cn_on_read s) true s))
  | K_ok => Some (cn_return RPC_STATUS_OK true s)
  | K_end _ => None
  end.

(** ** The loop thread *)

(** [epoll_wait] returns the event. *)
Definition cn_ready (s : connecting) : option connecting :=
  match cn_active s, cn_loop s, cn_event s with
  | None, N_next, Some h =>
      Some (mk_cn (cn_pc s) (cn_status s) (cn_on_connection s) (cn_on_read s) (cn_watched s) (cn_event s) (Some h) N_next
              (cn_promise s) (cn_crashed s) (cn_blocking s))
  | _, _, _ => None
  end.

(** What [onRead] finds: no protocol is bound, there is data or none, the peer
    has closed, or reading or parsing failed *)
Inductive read_outcome : Set := Read_no_protocol | Read_some | Read_closed | Read_failed.

(** The status [onRead] leaves: a socket that is not active is not read. *)
Definition onRead_status (r : read_outcome) (status : ERpcStatus) : ERpcStatus :=
  match r with
  | Read_no_protocol => RPC_STATUS_SOCKET_READ_ERROR
  | Read_some => status
  | Read_closed => if bool_decide (status = RPC_STATUS_OK) then RPC_STATUS_SOCKET_CLOSED_BY_SERVER else status
  | Read_failed => if bool_decide (status = RPC_STATUS_OK) then RPC_STATUS_SOCKET_READ_ERROR else status
  end.

(** The next access of a handler: [on_connection] removes its event and sets the
    promise, [_on_read] calls [onRead]. Calling an empty function is the
    crash. *)
Definition cn_handle (r : read_outcome) (s : connecting) : option connecting :=
  match cn_loop s, cn_active s with
  | N_set, _ =>
      Some (mk_cn (cn_pc s) (cn_status s) (cn_on_connection s) (cn_on_read s) (cn_watched s) (cn_event s) (cn_active s) N_next
              true (cn_crashed s) (cn_blocking s))
  | N_next, Some On_connection =>
      Some (if cn_on_connection s then
              mk_cn (cn_pc s) (cn_status s) true (cn_on_read s) (cn_watched s) None None N_set (cn_promise s) (cn_crashed s)
                (cn_blocking s)
            else
              mk_cn (cn_pc s) (cn_status s) false (cn_on_read s) (cn_watched s) (cn_event s) None N_next (cn_promise s) true
                (cn_blocking s))
  | N_next, Some On_input =>
      Some (if cn_on_read s then
              mk_cn (cn_pc s) (onRead_status r (cn_status s)) (cn_on_connection s) true (cn_watched s) (cn_event s) None N_next
                (cn_promise s) (cn_crashed s) (cn_blocking s)
            else
              mk_cn (cn_pc s) (cn_status s) (cn_on_connection s) false (cn_watched s) (cn_event s) None N_next (cn_promise s) true
                (cn_blocking s))
  | N_next, None => None
  end.

Inductive cn_step (timeout : Z) : connecting -> connecting -> Prop :=
| Cn_connect a s s' : connect_access timeout a s = Some s' -> cn_step timeout s s'
| Cn_ready s s' : cn_ready s = Some s' -> cn_step timeout s s'
| Cn_handle r s s' : cn_handle r s = Some s' -> cn_step timeout s s'.

(** ** The invariant *)

(** The connection event is registered; its handler is running; it is done. *)
Definition conn_phase (s : connecting) : Prop :=
  (cn_event s = Some On_connection /\ (cn_active s = None \/ cn_active s = Some On_connection) /\ cn_loop s = N_next
   /\ cn_promise s = false)
  \/ (cn_event s = None /\ cn_active s = None /\ cn_loop s = N_set /\ cn_promise s = false)
  \/ (cn_event s = None /\ cn_active s = None /\ cn_loop s = N_next /\ cn_promise s = true).

(** Nothing of the loop refers to the socket. *)
Definition cn_idle (s : connecting) : Prop := cn_event s = None /\ cn_active s = None /\ cn_loop s = N_next.

Definition cn_reading (s : connecting) : Prop :=
  cn_event s = Some On_input /\ (cn_active s = None \/ cn_active s = Some On_input) /\ cn_loop s = N_next
  /\ cn_on_connection s = false /\ cn_on_read s = true.

(** What the read handler can make of the status [connect] sets, and the statuses
    of an attempt that failed *)
Definition read_status (st : ERpcStatus) : Prop :=
  st = RPC_STATUS_OK \/ st = RPC_STATUS_SOCKET_READ_ERROR \/ st = RPC_STATUS_SOCKET_CLOSED_BY_SERVER.
Definition failed_status (st : ERpcStatus) : Prop :=
  st = RPC_STATUS_SOCKET_CONNECT_FAIL \/ st = RPC_STATUS_SOCKET_CONNECT_TIMEOUT.

Definition cn_inv (s : connecting) : Prop :=
  cn_crashed s = false /\
  match cn_pc s with
  | K_start | K_connect => cn_idle s /\ cn_on_connection s = false /\ cn_on_read s = false /\ cn_watched s = false /\ cn_promise s = false
  | K_schedule => cn_idle s /\ cn_on_connection s = true /\ cn_on_read s = false /\ cn_watched s = false /\ cn_promise s = false
  | K_wait => conn_phase s /\ cn_on_connection s = true /\ cn_on_read s = false /\ cn_watched s = false
  | K_clear => cn_idle s /\ cn_on_connection s = true /\ cn_on_read s = false /\ cn_watched s = false
  | K_connected => cn_idle s /\ cn_on_connection s = false /\ cn_on_read s = false /\ cn_watched s = false
  | K_schedule_read => cn_idle s /\ cn_on_connection s = false /\ cn_on_read s = true /\ cn_watched s = false
  | K_watch => cn_reading s /\ cn_watched s = false
  | K_ok => cn_reading s /\ cn_watched s = true
  | K_end true => cn_reading s /\ cn_watched s = true /\ read_status (cn_status s)
  | K_end false => failed_status (cn_status s) /\ cn_on_read s = false /\ cn_watched s = false
      /\ (if cn_on_connection s then (conn_phase s \/ cn_idle s) else cn_idle s)
  end.

Ltac cn_solve := cbn in *; repeat (case_match; cbn in *); simplify_eq;
  unfold conn_phase, cn_idle, cn_reading, failed_status in *; cbn in *; intuition congruence.

Lemma onRead_status_read r st : read_status st -> read_status (onRead_status r st).
Proof. unfold read_status. intros Hs. destruct r; cbn; try case_bool_decide; tauto. Qed.

Lemma cn_step_inv timeout s s' : cn_step timeout s s' -> cn_inv s -> cn_inv s'.
Proof.
  intros Hs Hi. unfold cn_inv in *.
  destruct Hs as [a [pc st oc on w ev ac lp pr cr bl] s' Hs|[pc st oc on w ev ac lp pr cr bl] s' Hs
                 |r [pc st oc on w ev ac lp pr cr bl] s' Hs].
  - unfold connect_access, schedule_handler in Hs. destruct pc as [| | | | | | | | |b]; try cn_solve.
    cbn in Hs. simplify_eq. cbn in *. split; [tauto|]. split_and!; try tauto. by left.
  - unfold cn_ready in Hs. destruct pc as [| | | | | | | | |[]]; cn_solve.
  - unfold cn_handle in Hs. pose proof (onRead_status_read r st).
    destruct on, cr, pc as [| | | | | | | | |[]]; cn_solve.
Qed.

Lemma reachable_inv timeout s : rtc (cn_step timeout) new_connecting s -> cn_inv s.
Proof.
  revert s. apply rtc_ind_r; [done|]. intros s s' _ Hs Hi. by eapply cn_step_inv.
Qed.

(** ** Properties *)

(** C13: A connection attempt, whatever the system answers and however its thread
    is interleaved with the loop thread and its reads. No empty handler is ever
    called. [connect] returns true only by setting the status OK; then the socket
    is watched and registered for reading with a handler that is set, the
    connection handler is cleared, and only the read handler changes the status,
    to one of its two errors. When it returns false, the status is and stays that
    of a failed or late connection, the socket is not watched and has no reading
    handler, and unless the connection handler was left set no thread refers to
    it any more. With a timeout the calling thread goes on once the time is up,
    provided that the descriptor was made non-blocking: the answer of
    [prepare_socket] is not used. *)
Theorem connect_outcome (timeout : Z) (s : connecting) :
  rtc (cn_step timeout) new_connecting s ->
  cn_crashed s = false
  /\ (forall a s', connect_access timeout a s = Some s' -> cn_pc s' = K_end true -> cn_status s' = RPC_STATUS_OK)
  /\ (cn_pc s = K_end true -> cn_watched s = true /\ cn_on_read s = true /\ cn_event s = Some On_input
      /\ cn_on_connection s = false
      /\ (cn_status s = RPC_STATUS_OK \/ cn_status s = RPC_STATUS_SOCKET_READ_ERROR
          \/ cn_status s = RPC_STATUS_SOCKET_CLOSED_BY_SERVER))
  /\ (cn_pc s = K_end false ->
      (cn_status s = RPC_STATUS_SOCKET_CONNECT_FAIL \/ cn_status s = RPC_STATUS_SOCKET_CONNECT_TIMEOUT)
      /\ cn_watched s = false /\ cn_on_read s = false
      /\ (cn_on_connection s = false -> cn_event s = None /\ cn_active s = None /\ cn_loop s = N_next))
  /\ (forall a, 0 < timeout -> an_late a = true -> cn_blocking s = false -> (forall ret, cn_pc s <> K_end ret) ->
      exists s', connect_access timeout a s = Some s').
Proof.
  intros Hr. apply reachable_inv in Hr as [Hc Hi]. split; [done|]. split_and!.
  - intros a s' Hs Hpc. unfold connect_access, schedule_handler in Hs. repeat case_match; simplify_eq; cbn in *; done.
  - intros Hpc. rewrite Hpc in Hi. destruct Hi as ((He & _ & _ & Hoc & Hor) & Hw & Hst). done.
  - intros Hpc. rewrite Hpc in Hi. destruct Hi as (Hst & Hor & Hw & Hrest). split_and!; try done.
    intros Hoc. by rewrite Hoc in Hrest.
  - intros a Ht Hlate Hb Hend. unfold connect_access, schedule_handler.
    rewrite (proj2 (Z.ltb_lt 0 timeout) Ht), Hlate, Hb. cbn.
    destruct (cn_pc s) eqn:Hpc; try (repeat case_match; by eexists). by destruct (Hend ret).
Qed.

(** The loop reports the descriptor, and the peer has accepted; then the peer
    closes. *)
Definition accepting : cn_answers := mk_answers true false true true false true.
Definition accepted : connecting :=
  mk_cn (K_end true) RPC_STATUS_SOCKET_CLOSED_BY_SERVER false true true (Some On_input) None N_next true false false.

Lemma accepted_reachable : rtc (cn_step 200) new_connecting accepted.
Proof.
  do 3 (eapply rtc_l; [apply (Cn_connect 200 accepting); reflexivity|cbn]).
  eapply rtc_l; [apply Cn_ready; reflexivity|cbn]. do 2 (eapply rtc_l; [apply (Cn_handle 200 Read_some); reflexivity|cbn]).
  do 6 (eapply rtc_l; [apply (Cn_connect 200 accepting); reflexivity|cbn]).
  eapply rtc_l; [apply Cn_ready; reflexivity|cbn]. eapply rtc_l; [apply (Cn_handle 200 Read_closed); reflexivity|cbn].
  apply rtc_refl.
Qed.

Lemma connect_outcome_witness :
  cn_watched accepted = true /\ cn_on_read accepted = true /\ cn_event accepted = Some On_input
  /\ cn_on_connection accepted = false
  /\ (cn_status accepted = RPC_STATUS_OK \/ cn_status accepted = RPC_STATUS_SOCKET_READ_ERROR
      \/ cn_status accepted = RPC_STATUS_SOCKET_CLOSED_BY_SERVER).
Proof. apply (connect_outcome 200 accepted); [exact accepted_reachable|reflexivity]. Defined.

(** When the descriptor could not be made non-blocking, a peer that does not
    answer keeps the caller in [base::connect] after the time is up. *)
Lemma blocking_connect_waits :
  exists s, connect_access 200 (mk_answers false true true true true true) new_connecting = Some s
    /\ connect_access 200 (mk_answers false true true true true true) s = None.
Proof. eexists. split; reflexivity. Qed.

(** A connection handler that is set when [connect] returns false stays set for
    good: the socket, which it refers to, is never destroyed. *)
Lemma connection_handler_stays timeout s s' :
  cn_pc s = K_end false -> cn_on_connection s = true -> rtc (cn_step timeout) s s' ->
  cn_pc s' = K_end false /\ cn_on_connection s' = true.
Proof.
  intros Hpc Hoc. revert s'. apply rtc_ind_r; [done|]. intros s1 s2 _ Hs [Hpc1 Hoc1].
  destruct Hs as [a t t' Hs|t t' Hs|r t t' Hs].
  - unfold connect_access in Hs. by rewrite Hpc1 in Hs.
  - unfold cn_ready in Hs. repeat case_match; by simplify_eq.
  - unfold cn_handle in Hs. rewrite Hoc1 in Hs. repeat case_match; by simplify_eq.
Qed.

(** It is left set when the connection takes too long, and when the event
    cannot be registered. *)
Lemma late_connection_leaks :
  let late := mk_answers true false true true true true in let refused := mk_answers true false true false false true in
  let access a s := connect_access 200 a s in
  (exists s, (((access late new_connecting ≫= access late) ≫= access late) ≫= access late) = Some s
     /\ cn_pc s = K_end false /\ cn_on_connection s = true)
  /\ (exists s, ((access refused new_connecting ≫= access refused) ≫= access refused) = Some s
     /\ cn_pc s = K_end false /\ cn_on_connection s = true).
Proof. split; eexists; split_and!; reflexivity. Qed.
