(* ===== verification/Lifecycle.v ===== *)
(** * Starting and stopping the library (src/common/common_defines.cpp,
    src/schedule/schedule.cpp, loop_thread.cpp, epoll_loop.cpp,
    src/tcp/socket_manager.cpp)

    [globalInit] and [globalDestroy] with everything they call: the threads
    that are started and joined and the descriptors that are opened and closed.
    A descriptor the system hands out is the lowest one that is not open. Then
    the sockets [SocketManager::destroy] lets go of. *)

From stdpp Require Import gmap.
From S2P Require Import Prelude LifeCycleLock SocketManager Connect.

(** ** Descriptors *)

Definition lowest_free (open : descriptors) : Z :=
  Z.of_nat (default O (fst <$> list_find (fun n => Z.of_nat n ∉ open) (seq 0 (S (size open))))).

(** A call that succeeds returns a new descriptor; one that fails returns -1. *)
Definition open_fd (ok : bool) (open : descriptors) : Z * descriptors :=
  if ok then (lowest_free open, {[ lowest_free open ]} ∪ open) else (-1, open).

(** [pipe] *)
Definition open_pipe (ok : bool) (open : descriptors) : option (Z * Z) * descriptors :=
  if ok then
    let '(fd0, open) := open_fd true open in
    let '(fd1, open) := open_fd true open in (Some (fd0, fd1), open)
  else (None, open).

(** ** Outcomes *)

(** A call returns; dereferences a null pointer; destroys a thread that was not
    joined, which is [std::terminate]; or waits for ever. *)
Inductive lc_result (A : Type) : Type := Ret (a : A) | Null_pointer | Terminate | Blocked.
Arguments Ret {A} a.
Arguments Null_pointer {A}.
Arguments Terminate {A}.
Arguments Blocked {A}.

Definition lc_bind {A B} (r : lc_result A) (f : A -> lc_result B) : lc_result B :=
  match r with Ret a => f a | Null_pointer => Null_pointer | Terminate => Terminate | Blocked => Blocked end.

Declare Scope lifecycle_scope.
Notation "'let!' p ':=' r 'in' k" := (lc_bind r (fun x => let 'p := x in k))
  (at level 10, p pattern, r at level 100, k at level 200) : lifecycle_scope.
Local Open Scope lifecycle_scope.

(** A [std::thread] behind a [unique_ptr]: none or joined, or one that is to be
    joined and still runs or has returned *)
Inductive std_thread : Set := No_thread | Running | Ended.

#[global] Instance std_thread_eq_dec : EqDecision std_thread.
Proof. solve_decision. Defined.

(** ** [Loop] and [LoopThread] *)

(** What the system answers to the calls of one thread: [pipe], [epoll_create],
    [fcntl] and, when it is stopped, [epoll_ctl] *)
Record thread_answers := mk_ta { ta_pipe : bool; ta_epoll : bool; ta_cloexec : bool; ta_wake : bool }.

(** [Loop::init] of a new loop: [_backend_fd] *)
Definition Loop_init (a : thread_answers) (open : descriptors) : bool * Z * descriptors :=
  let '(fd, open) := open_fd (ta_epoll a) open in
  let backend := assign_fd (new_guard (-1)) fd in
  if (fd =? -1) || negb (ta_cloexec a) then (false, backend, open)
  else if backend =? -1 then (false, backend, open)
  else (true, backend, open).

(** [_exit], [_thread], [_loop] (its [_backend_fd]), [_wakeup_fds] *)
Record LoopThread := mk_LoopThread {
  lt_exit : bool;
  lt_thread : std_thread;
  lt_loop : option Z;
  lt_wakeup0 : Z;
  lt_wakeup1 : Z
}.

Definition new_LoopThread : LoopThread := mk_LoopThread false No_thread None (-1) (-1).

(** The move constructor: the new thread, and [right] *)
Definition move_LoopThread (right : LoopThread) : LoopThread * LoopThread :=
  (mk_LoopThread (lt_exit right) (lt_thread right) None (-1) (-1),
   mk_LoopThread false No_thread (lt_loop right) (lt_wakeup0 right) (lt_wakeup1 right)).

(** [start]: the new thread makes the loop and answers through the promise *)
Definition LoopThread_start (a : thread_answers) (t : LoopThread) (open : descriptors) : lc_result (bool * LoopThread * descriptors) :=
  match open_pipe (ta_pipe a) open with
  | (None, open) => Ret (false, t, open)
  | (Some (fd0, fd1), open) =>
      match lt_thread t with
      | No_thread =>
          let open := match lt_loop t with Some fd => snd (release_guard fd open) | None => open end in
          let '(ok, backend, open) := Loop_init a open in
          Ret (ok, mk_LoopThread (lt_exit t) (if ok then (if lt_exit t then Ended else Running) else Ended) (Some backend)
                     (assign_fd (lt_wakeup0 t) fd0) (assign_fd (lt_wakeup1 t) fd1), open)
      | _ => Terminate
      end
  end.

(** [stop]: a loop that is not woken sleeps in [epoll_wait]. *)
Definition LoopThread_stop (a : thread_answers) (t : LoopThread) : lc_result LoopThread :=
  match lt_loop t with
  | None => Null_pointer
  | Some backend =>
      let woken := negb (backend =? -1) && ta_wake a in
      match lt_thread t with
      | Running =>
          if woken then Ret (mk_LoopThread true No_thread (Some backend) (lt_wakeup0 t) (lt_wakeup1 t)) else Blocked
      | _ => Ret (mk_LoopThread true No_thread (Some backend) (lt_wakeup0 t) (lt_wakeup1 t))
      end
  end.

(** The destructor, which has no body: those of the members, last one first *)
Definition destroy_LoopThread (t : LoopThread) (open : descriptors) : lc_result descriptors :=
  let open := snd (release_guard (lt_wakeup1 t) open) in
  let open := snd (release_guard (lt_wakeup0 t) open) in
  let open := match lt_loop t with Some fd => snd (release_guard fd open) | None => open end in
  match lt_thread t with No_thread => Ret open | _ => Terminate end.

Fixpoint destroy_threads (l : list LoopThread) (open : descriptors) : lc_result descriptors :=
  match l with
  | [] => Ret open
  | t :: l => let! open := destroy_LoopThread t open in destroy_threads l open
  end.

(** ** [Schedule] *)

(** The threads, whether there is a timer (whose thread then runs), and the open
    descriptors of the process *)
Record schedule := mk_schedule { sc_threads : list LoopThread; sc_timer : bool; sc_open : descriptors }.

(** [for (auto& thread : _threads) { if (!thread.start()) { ret = false; break; } }] *)
Fixpoint start_threads (a : nat -> thread_answers) (i : nat) (l : list LoopThread) (open : descriptors)
  : lc_result (bool * list LoopThread * descriptors) :=
  match l with
  | [] => Ret (true, [], open)
  | t :: l =>
      let! (ok, t, open) := LoopThread_start (a i) t open in
      if ok then let! (ret, l, open) := start_threads a (S i) l open in Ret (ret, t :: l, open)
      else Ret (false, t :: l, open)
  end.

Fixpoint stop_threads (a : nat -> thread_answers) (i : nat) (l : list LoopThread) : lc_result (list LoopThread) :=
  match l with
  | [] => Ret []
  | t :: l => let! t := LoopThread_stop (a i) t in let! l := stop_threads a (S i) l in Ret (t :: l)
  end.

Definition destroy_schedule (a : nat -> thread_answers) (s : schedule) : lc_result schedule :=
  let! threads := stop_threads a 0 (sc_threads s) in
  let! open := destroy_threads threads (sc_open s) in
  Ret (mk_schedule [] (sc_timer s) open).

(** [destroy] of the timer joins its thread, which ends when it has read [_exit]
    (TimeThread has the steps); then it is freed. *)
Definition destroy_time_schedule (s : schedule) : schedule := mk_schedule (sc_threads s) false (sc_open s).

(** [_threads.resize(n)] of an empty vector, or of one that has room for [n]
    threads: those it has stay where they are. *)
Definition resize_threads (n : nat) (s : schedule) : lc_result schedule :=
  let! open := destroy_threads (drop n (sc_threads s)) (sc_open s) in
  Ret (mk_schedule (take n (sc_threads s) ++ replicate (n - length (sc_threads s)) new_LoopThread) (sc_timer s) open).

(** [TimeThread::init]: the new thread sets the promise to true *)
Definition TimeThread_init : bool := true.

(** [Schedule::init]; [cores] is [hardware_concurrency] *)
Definition Schedule_init (cores : nat) (schedule_num : Z) (a : nat -> thread_answers) (s : schedule) : lc_result (bool * schedule) :=
  let n := if schedule_num <=? 0 then cores else Z.to_nat schedule_num in
  let! s := resize_threads n s in
  let! (ret, threads, open) := start_threads a 0 (sc_threads s) (sc_open s) in
  let s := mk_schedule threads (sc_timer s) open in
  let! s := if negb ret then destroy_schedule a s else Ret s in
  let s := mk_schedule (sc_threads s) true (sc_open s) in
  let ret := TimeThread_init in
  if negb ret then let! s := destroy_schedule a s in Ret (ret, destroy_time_schedule s)
  else Ret (ret, s).

(** ** [SocketManager] *)

(** [_exit], [_thread], [_reclaim_fd], the handlers of [_on_reclaim] and the
    flags *)
Record manager_thread := mk_mt {
  mt_exit : bool;
  mt_thread : std_thread;
  mt_reclaim_fd0 : Z;
  mt_reclaim_fd1 : Z;
  mt_on_reclaim : list nat;
  mt_notify_flag : list bool
}.

Definition resize_flags (n : nat) (l : list bool) : list bool := take n l ++ replicate (n - length l) false.

Definition SocketManager_init (pipe_ok : bool) (s : schedule) (m : manager_thread) : lc_result (bool * schedule * manager_thread) :=
  let exit := false in
  match open_pipe pipe_ok (sc_open s) with
  | (None, open) =>
      Ret (false, mk_schedule (sc_threads s) (sc_timer s) open,
           mk_mt exit (mt_thread m) (mt_reclaim_fd0 m) (mt_reclaim_fd1 m) (mt_on_reclaim m) (mt_notify_flag m))
  | (Some (fd0, fd1), open) =>
      let size := length (sc_threads s) in
      match mt_thread m with
      | No_thread =>
          Ret (true, mk_schedule (sc_threads s) (sc_timer s) open,
               mk_mt exit Running (assign_fd (mt_reclaim_fd0 m) fd0) (assign_fd (mt_reclaim_fd1 m) fd1)
                 (mt_on_reclaim m ++ seq 0 size) (resize_flags size (mt_notify_flag m)))
      | _ => Terminate
      end
  end.

(** [join] of the thread of [init], which goes on while [_exit] is false: each
    of its rounds and its sleeps ends. *)
Definition join_manager (m : manager_thread) : lc_result manager_thread :=
  match mt_thread m with
  | No_thread => Ret m
  | _ =>
      if mt_exit m
      then Ret (mk_mt (mt_exit m) No_thread (mt_reclaim_fd0 m) (mt_reclaim_fd1 m) (mt_on_reclaim m) (mt_notify_flag m))
      else Blocked
  end.

(** [SocketManager::destroy] up to the sockets *)
Definition SocketManager_destroy (m : manager_thread) : lc_result manager_thread :=
  join_manager (mk_mt true (mt_thread m) (mt_reclaim_fd0 m) (mt_reclaim_fd1 m) (mt_on_reclaim m) (mt_notify_flag m)).

(** ** [globalInit] and [globalDestroy] *)

Record library := mk_library { lib_schedule : schedule; lib_manager : manager_thread }.

(** The singletons before [globalInit] in a process with these descriptors *)
Definition new_library (open : descriptors) : library :=
  mk_library (mk_schedule [] false open) (mk_mt false No_thread (-1) (-1) [] []).

Definition globalInit (cores : nat) (a : nat -> thread_answers) (pipe_ok : bool) (s : library) : lc_result (bool * library) :=
  let! (ok, sc) := Schedule_init cores (-1) a (lib_schedule s) in
  if negb ok then Ret (false, mk_library sc (lib_manager s))
  else
    let! (ok, sc, m) := SocketManager_init pipe_ok sc (lib_manager s) in
    Ret (ok, mk_library sc m).

Definition globalDestroy (a : nat -> thread_answers) (s : library) : lc_result library :=
  let! sc := destroy_schedule a (lib_schedule s) in
  let! m := SocketManager_destroy (lib_manager s) in
  Ret (mk_library (destroy_time_schedule sc) m).

(** ** The account of the descriptors *)

Lemma lowest_free_spec (open : descriptors) : (lowest_free open ∉ open) /\ 0 <= lowest_free open.
Proof.
  unfold lowest_free. split; [|lia].
  destruct (list_find (fun n => Z.of_nat n ∉ open) (seq 0 (S (size open)))) as [[i n]|] eqn:Hf; cbn.
  { apply list_find_Some in Hf as (Hn & Hno & _). apply lookup_seq in Hn as [-> _]. done. }
  apply list_find_None in Hf. exfalso.
  assert (list_to_set (Z.of_nat <$> seq 0 (S (size open))) ⊆ open) as Hsub.
  { intros x (n & -> & Hn)%elem_of_list_to_set%list_elem_of_fmap.
    rewrite list.Forall_forall in Hf. specialize (Hf n Hn). by destruct (decide (Z.of_nat n ∈ open)). }
  apply subseteq_size in Hsub. rewrite size_list_to_set in Hsub.
  - rewrite length_fmap, length_seq in Hsub. lia.
  - apply NoDup_fmap_2; [apply Nat2Z.inj'|]. apply NoDup_seq.
Qed.

(** The open descriptors are those of [base] and, each once, those the library
    owns. *)
Definition accounted (base open : descriptors) (own : list Z) : Prop :=
  open = base ∪ list_to_set own /\ base.NoDup own /\ forall fd, fd ∈ own -> (fd ∉ base) /\ 0 <= fd.

#[global] Instance accounted_perm base open : Proper (Permutation ==> iff) (accounted base open).
Proof.
  intros own own' Hp. unfold accounted. by setoid_rewrite Hp.
Qed.

(** The descriptor a guard closes *)
Definition guard_fds (fd : Z) : list Z := if 0 <=? fd then [fd] else [].

Definition loop_fds (loop : option Z) : list Z := match loop with Some fd => guard_fds fd | None => [] end.

Definition thread_fds (t : LoopThread) : list Z :=
  guard_fds (lt_wakeup1 t) ++ guard_fds (lt_wakeup0 t) ++ loop_fds (lt_loop t).

Section Account.
Context (base : descriptors).

Lemma accounted_open open own :
  accounted base open own -> accounted base ({[ lowest_free open ]} ∪ open) (guard_fds (lowest_free open) ++ own).
Proof.
  intros (-> & Hn & Hown). destruct (lowest_free_spec (base ∪ list_to_set own)) as [Hno Hpos].
  set (fd := lowest_free _) in *. unfold guard_fds. rewrite (proj2 (Z.leb_le 0 fd) Hpos). cbn. split_and!.
  - set_solver.
  - constructor; [set_solver|done].
  - intros x [->|Hx]%elem_of_cons; [set_solver|by apply Hown].
Qed.

Lemma accounted_release fd open own :
  accounted base open (guard_fds fd ++ own) -> accounted base (snd (release_guard fd open)) own.
Proof.
  unfold guard_fds, release_guard. destruct (0 <=? fd); [|done]. cbn. intros (-> & Hn & Hown).
  apply list.NoDup_cons in Hn as [Hno Hn]. split_and!; [|done|set_solver].
  assert (fd ∉ base) by (apply Hown; set_solver). set_solver.
Qed.

Lemma accounted_loop loop open own :
  accounted base open (loop_fds loop ++ own) ->
  accounted base (match loop with Some fd => snd (release_guard fd open) | None => open end) own.
Proof. destruct loop; [apply accounted_release|done]. Qed.

Lemma destroy_threads_spec l : forall open own,
  accounted base open (concat (thread_fds <$> l) ++ own) -> Forall (fun t => lt_thread t = No_thread) l ->
  exists open', destroy_threads l open = Ret open' /\ accounted base open' own.
Proof.
  induction l as [|t l IH]; intros open own Ha Hl; [by exists open|].
  apply Forall_cons_1 in Hl as [Ht Hl]. cbn [fmap list_fmap concat] in Ha. unfold thread_fds in Ha.
  rewrite <- !(assoc_L (++)) in Ha. do 2 apply accounted_release in Ha. apply accounted_loop in Ha.
  cbn [destroy_threads]. unfold destroy_LoopThread. rewrite Ht. cbn [lc_bind]. by apply IH.
Qed.

End Account.

(** ** Starting and stopping the threads *)

Section Threads.
Context (base : descriptors).

(** A thread after [stop] can return: it has a loop. *)
Definition stoppable (a : thread_answers) (t : LoopThread) : Prop :=
  is_Some (lt_loop t) /\ (lt_thread t = Running -> lt_loop t <> Some (-1) /\ ta_wake a = true).

Lemma open_pipe_spec open own fds open' :
  accounted base open own -> open_pipe true open = (fds, open') ->
  exists fd0 fd1, fds = Some (fd0, fd1) /\ accounted base open' (guard_fds fd1 ++ guard_fds fd0 ++ own).
Proof.
  intros Ha. unfold open_pipe, open_fd. intros [= <- <-]. eexists _, _. split; [done|]. by do 2 apply accounted_open.
Qed.

Lemma Loop_init_spec a open own :
  accounted base open own ->
  exists ok backend open', Loop_init a open = (ok, backend, open')
    /\ accounted base open' (guard_fds backend ++ own) /\ ok = ta_epoll a && ta_cloexec a /\ (ok = true -> backend <> -1).
Proof.
  intros Ha. unfold Loop_init, open_fd, assign_fd. destruct (lowest_free_spec open) as [_ Hpos].
  destruct (ta_epoll a); cbn [andb].
  - rewrite (proj2 (Z.eqb_neq (lowest_free open) (-1))) by lia.
    destruct (ta_cloexec a); cbn [negb orb]; eexists _, _, _; split_and!; try done; try (by apply accounted_open); lia.
  - eexists _, _, _. by split_and!.
Qed.

(** [start] of a new thread *)
Lemma start_spec a open own :
  accounted base open own ->
  exists t open', LoopThread_start a new_LoopThread open = Ret (ta_pipe a && (ta_epoll a && ta_cloexec a), t, open')
    /\ accounted base open' (thread_fds t ++ own)
    /\ (is_Some (lt_loop t) <-> ta_pipe a = true)
    /\ (lt_loop t <> Some (-1) \/ lt_thread t <> Running)
    /\ lt_thread t = (if ta_pipe a then if ta_epoll a && ta_cloexec a then Running else Ended else No_thread).
Proof.
  intros Ha. unfold LoopThread_start. destruct (ta_pipe a) eqn:Hp; cycle 1.
  { cbn. eexists _, _. split_and!; [done|done| |by left|done]. by split; [intros []|]. }
  destruct (open_pipe true open) as [fds open1] eqn:Ho. eapply open_pipe_spec in Ho as (fd0 & fd1 & -> & Ha1); [|done].
  cbn [lt_thread new_LoopThread lt_loop lt_exit]. destruct (Loop_init_spec a _ _ Ha1) as (ok & backend & open2 & -> & Ha2 & -> & Hb).
  eexists _, _. split; [done|]. unfold thread_fds, assign_fd. cbn [lt_wakeup0 lt_wakeup1 lt_loop lt_thread loop_fds]. split_and!.
  - rewrite <- !(assoc_L (++)). rewrite (assoc_L (++) (guard_fds fd0)), (Permutation_app_comm (guard_fds fd0)).
    rewrite <- (assoc_L (++)). rewrite (assoc_L (++) (guard_fds fd1)), (Permutation_app_comm (guard_fds fd1)).
    by rewrite <- (assoc_L (++)).
  - by split.
  - destruct (ta_epoll a && ta_cloexec a); [left|by right]. intros [= ->]. by destruct Hb.
  - done.
Qed.

(** Every call of [start] succeeds. *)
Definition starts (a : thread_answers) : bool := ta_pipe a && (ta_epoll a && ta_cloexec a).

Definition runs (t : LoopThread) : Prop := lt_thread t = Running /\ exists fd, lt_loop t = Some fd /\ fd <> -1.

Lemma start_runs a open own :
  accounted base open own -> starts a = true ->
  exists t open', LoopThread_start a new_LoopThread open = Ret (true, t, open')
    /\ accounted base open' (thread_fds t ++ own) /\ runs t.
Proof.
  intros Ha Hs. destruct (start_spec a open own Ha) as (t & open' & Ht & Ha' & Hloop & Hfd & Hth). fold (starts a) in Ht.
  rewrite Hs in Ht. apply andb_true_iff in Hs as [Hp He]. rewrite Hp in Hloop, Hth. rewrite He in Hth. exists t, open'. split_and!; try done.
  destruct (proj2 Hloop eq_refl) as [fd Hl]. destruct Hfd as [Hfd|Hfd]; [|congruence]. split; [done|]. exists fd. split; congruence.
Qed.

Lemma start_threads_all a n : forall i open own,
  accounted base open own -> (forall j, (i <= j < i + n)%nat -> starts (a j) = true) ->
  exists l open', start_threads a i (replicate n new_LoopThread) open = Ret (true, l, open')
    /\ accounted base open' (concat (thread_fds <$> l) ++ own) /\ length l = n /\ Forall runs l.
Proof.
  induction n as [|n IH]; intros i open own Ha Hall; cbn [replicate start_threads].
  { exists [], open. by split_and!. }
  destruct (start_runs (a i) open own Ha) as (t & open1 & -> & Ha1 & Ht); [apply Hall; lia|]. cbn [lc_bind].
  destruct (IH (S i) open1 _ Ha1) as (l & open2 & -> & Ha2 & Hlen & Hl); [intros j Hj; apply Hall; lia|].
  exists (t :: l), open2. cbn. split_and!; [done| |by f_equal|by constructor].
  rewrite (assoc_L (++)), (Permutation_app_comm _ (thread_fds t)) in Ha2. exact Ha2.
Qed.

(** The first [start] to fail is that of thread [k]: those after it are not
    started. *)
Lemma start_threads_fail a k n : forall i open own,
  accounted base open own -> (forall j, (i <= j < i + k)%nat -> starts (a j) = true) -> starts (a (i + k)%nat) = false -> (k < n)%nat ->
  exists l t open', start_threads a i (replicate n new_LoopThread) open = Ret (false, l ++ t :: replicate (n - S k) new_LoopThread, open')
    /\ accounted base open' (concat (thread_fds <$> (l ++ t :: replicate (n - S k) new_LoopThread)) ++ own)
    /\ length l = k /\ Forall runs l /\ lt_thread t <> Running /\ (is_Some (lt_loop t) <-> ta_pipe (a (i + k)%nat) = true).
Proof.
  revert n. induction k as [|k IH]; intros n i open own Ha Hall Hk Hn; (destruct n as [|n]; [lia|]); cbn [replicate start_threads].
  - rewrite Nat.add_0_r in Hk |- *. destruct (start_spec (a i) open own Ha) as (t & open1 & Ht & Ha1 & Hloop & _ & Hth).
    fold (starts (a i)) in Ht. rewrite Ht, Hk. cbn [lc_bind]. exists [], t, open1. replace (S n - 1)%nat with n by lia. cbn [app].
    split_and!; try done.
    + cbn [fmap list_fmap concat]. replace (concat (thread_fds <$> replicate n new_LoopThread)) with (@nil Z); [by rewrite app_nil_r|].
      clear. by induction n.
    + unfold starts in Hk. rewrite Hth. destruct (ta_pipe (a i)); [|done]. cbn in Hk. by rewrite Hk.
  - destruct (start_runs (a i) open own Ha) as (t & open1 & -> & Ha1 & Ht); [apply Hall; lia|]. cbn [lc_bind].
    destruct (IH n (S i) open1 _ Ha1) as (l & t' & open2 & -> & Ha2 & Hlen & Hl & Ht' & Hloop);
      [intros j Hj; apply Hall; lia|by rewrite Nat.add_succ_comm|lia|].
    exists (t :: l), t', open2. cbn [lc_bind Nat.sub app length]. rewrite Nat.add_succ_comm in Hloop.
    split_and!; [done| |by f_equal|by constructor|done|done].
    cbn [fmap list_fmap concat]. rewrite (assoc_L (++)), (Permutation_app_comm _ (thread_fds t)) in Ha2. exact Ha2.
Qed.

Lemma runs_stoppable a t : runs t -> ta_wake a = true -> stoppable a t.
Proof. intros [Ht (fd & Hl & Hne)] Hw. split; [by rewrite Hl|]. intros _. split; [congruence|done]. Qed.

Lemma stop_spec a t :
  stoppable a t ->
  LoopThread_stop a t = Ret (mk_LoopThread true No_thread (lt_loop t) (lt_wakeup0 t) (lt_wakeup1 t)).
Proof.
  intros [[fd Hl] Hr]. unfold LoopThread_stop. rewrite Hl. destruct (lt_thread t); try done.
  destruct Hr as [Hne Hw]; [done|]. rewrite Hw, (proj2 (Z.eqb_neq fd (-1))); [done|congruence].
Qed.

Lemma stop_threads_spec a l : forall i,
  (forall j t, l !! j = Some t -> stoppable (a (i + j)%nat) t) ->
  exists l', stop_threads a i l = Ret l' /\ thread_fds <$> l' = thread_fds <$> l /\ Forall (fun t => lt_thread t = No_thread) l'.
Proof.
  induction l as [|t l IH]; intros i Hl; [by exists []|]. cbn [stop_threads].
  rewrite (stop_spec (a i) t) by (rewrite <- (Nat.add_0_r i); by apply Hl). cbn [lc_bind].
  destruct (IH (S i)) as (l' & -> & Hf & Hn); [intros j t' Hj; rewrite Nat.add_succ_comm; by apply Hl|].
  eexists. split; [done|]. cbn [fmap list_fmap]. split; [by f_equal|by constructor].
Qed.

(** The loop of a thread is not moved along with it. *)
Lemma moved_not_stopped a t : LoopThread_stop a (fst (move_LoopThread t)) = Null_pointer.
Proof. done. Qed.

(** A thread without a loop is stopped through a null pointer. *)
Lemma stop_threads_null a l t rest : forall i,
  (forall j t, l !! j = Some t -> stoppable (a (i + j)%nat) t) -> lt_loop t = None -> stop_threads a i (l ++ t :: rest) = Null_pointer.
Proof.
  induction l as [|u l IH]; intros i Hl Ht; cbn [app stop_threads].
  { unfold LoopThread_stop. by rewrite Ht. }
  rewrite (stop_spec (a i) u) by (rewrite <- (Nat.add_0_r i); by apply Hl). cbn [lc_bind].
  rewrite IH; [done| |done]. intros j t' Hj. rewrite Nat.add_succ_comm. by apply Hl.
Qed.

(** A running thread that is not woken is joined for ever. *)
Lemma stop_threads_blocked a l rest : forall i,
  Forall runs l -> forallb (fun j => ta_wake (a j)) (seq i (length l)) = false -> stop_threads a i (l ++ rest) = Blocked.
Proof.
  induction l as [|t l IH]; intros i Hl Hw; [done|]. inversion_clear Hl as [|? ? Ht Hrest]. cbn in Hw |- *.
  destruct (ta_wake (a i)) eqn:Hwi.
  - rewrite (stop_spec (a i) t) by by apply runs_stoppable. cbn [lc_bind]. by rewrite IH.
  - destruct Ht as [Hr (fd & Hfd & _)]. unfold LoopThread_stop. rewrite Hfd, Hr, Hwi. by rewrite andb_false_r.
Qed.
End Threads.

(** ** Properties *)

Section Outcome.
Context (base : descriptors).

Lemma accounted_empty : accounted base base [].
Proof. split_and!; [set_solver|constructor|set_solver]. Qed.

Lemma accounted_nil open : accounted base open [] -> open = base.
Proof. intros [-> _]. set_solver. Qed.

(** [destroy_schedule] when every thread can be stopped *)
Lemma destroy_schedule_spec a l timer open own :
  accounted base open (concat (thread_fds <$> l) ++ own) -> (forall j t, l !! j = Some t -> stoppable (a j) t) ->
  exists open', destroy_schedule a (mk_schedule l timer open) = Ret (mk_schedule [] timer open') /\ accounted base open' own.
Proof.
  intros Ha Hl. unfold destroy_schedule. cbn [sc_threads sc_open sc_timer].
  destruct (stop_threads_spec a l 0 Hl) as (l' & -> & Hf & Hn). cbn [lc_bind]. rewrite <- Hf in Ha.
  destruct (destroy_threads_spec base l' open own Ha Hn) as (open' & -> & Ha'). by exists open'.
Qed.

Lemma Schedule_init_new cores num a :
  Schedule_init cores num a (mk_schedule [] false base) =
    (let! (ret, threads, open) := start_threads a 0 (replicate (if num <=? 0 then cores else Z.to_nat num) new_LoopThread) base in
     let! s := if negb ret then destroy_schedule a (mk_schedule threads false open) else Ret (mk_schedule threads false open) in
     Ret (true, mk_schedule (sc_threads s) true (sc_open s))).
Proof. unfold Schedule_init, resize_threads. cbn [sc_threads sc_open sc_timer]. rewrite drop_nil, take_nil. cbn. by rewrite Nat.sub_0_r. Qed.

End Outcome.

(** C16: [Schedule::init] of a schedule without threads, on every branch. When
    every thread starts, it returns true, each thread runs its loop and the
    descriptors that were opened are those of the threads. Otherwise let [k] be
    the first thread that does not start. When the wake-up of one of those
    before it, which sleep in their loops, cannot be registered, stopping them
    waits for ever. Else, when [k] is not the last thread or has no pipe, a
    thread without a loop is stopped through a null pointer. Else, when the last
    thread has a pipe and no loop, everything is stopped and closed and the
    answer is true all the same: there are no threads. *)
Theorem schedule_init_outcome (cores : nat) (num : Z) (a : nat -> thread_answers) (base : descriptors) :
  let n := if num <=? 0 then cores else Z.to_nat num in
  ((forall i, (i < n)%nat -> starts (a i) = true) ->
   exists l open, Schedule_init cores num a (mk_schedule [] false base) = Ret (true, mk_schedule l true open)
     /\ length l = n /\ Forall runs l /\ accounted base open (concat (thread_fds <$> l)))
  /\ (forall k, (k < n)%nat -> (forall i, (i < k)%nat -> starts (a i) = true) -> starts (a k) = false ->
      Schedule_init cores num a (mk_schedule [] false base) =
        if forallb (fun i => ta_wake (a i)) (seq 0 k) then
          if ta_pipe (a k) && (S k =? n)%nat then Ret (true, mk_schedule [] true base) else Null_pointer
        else Blocked).
Proof.
  intros n. rewrite Schedule_init_new. fold n. split.
  - intros Hall. destruct (start_threads_all base a n 0 base []) as (l & open & -> & Ha & Hlen & Hl);
      [apply accounted_empty|intros j Hj; apply Hall; lia|].
    exists l, open. rewrite app_nil_r in Ha. by split_and!.
  - intros k Hkn Hall Hk.
    destruct (start_threads_fail base a k n 0 base []) as (l & t & open & -> & Ha & Hlen & Hl & Ht & Hloop);
      [apply accounted_empty|intros j Hj; apply Hall; lia|done|done|]. cbn [lc_bind negb Nat.add] in *.
    destruct (forallb _ (seq 0 k)) eqn:Hwake; cycle 1.
    { rewrite <- Hlen in Hwake. unfold destroy_schedule. cbn [sc_threads]. by rewrite stop_threads_blocked. }
    assert (forall j u, l !! j = Some u -> stoppable (a j) u) as Hstop.
    { intros j u Hj. eapply runs_stoppable; [by eapply Forall_lookup_1|]. rewrite forallb_forall in Hwake.
      apply Hwake, in_seq. apply lookup_lt_Some in Hj. lia. }
    unfold destroy_schedule. destruct (ta_pipe (a k)) eqn:Hp; cbn [andb]; cycle 1.
    { cbn [sc_threads]. rewrite stop_threads_null; [done|done|]. apply eq_None_not_Some. by rewrite Hloop. }
    assert (stoppable (a k) t) as Hst by (split; [by apply Hloop|by intros]).
    assert (forall j u, (l ++ [t]) !! j = Some u -> stoppable (a j) u) as Hstop'.
    { intros j u [Hj|[Hge Hj]]%lookup_app_Some; [by apply Hstop|]. apply list_lookup_singleton_Some in Hj as [Hz ->].
      by replace j with k by lia. }
    destruct (Nat.eqb_spec (S k) n) as [<-|Hne].
    + rewrite Nat.sub_diag in Ha |- *. destruct (destroy_schedule_spec base a _ false open [] Ha Hstop') as (open' & Hd & Ha').
      unfold destroy_schedule in Hd. rewrite Hd. cbn. by rewrite (accounted_nil _ _ Ha').
    + cbn [sc_threads]. replace (n - S k)%nat with (S (n - S (S k))) by lia. cbn [replicate].
      replace (l ++ t :: new_LoopThread :: _) with ((l ++ [t]) ++ new_LoopThread :: replicate (n - S (S k)) new_LoopThread)
        by (by rewrite <- (assoc_L (++))).
      by rewrite stop_threads_null.
Qed.

(** Two threads, of which the second has no loop *)
Definition ready_thread : thread_answers := mk_ta true true true true.
Definition second_fails (i : nat) : thread_answers := match i with 1%nat => mk_ta true false true true | _ => ready_thread end.

Lemma schedule_init_outcome_witness :
  Schedule_init 8 2 second_fails (mk_schedule [] false {[ 0; 1; 2 ]}) = Ret (true, mk_schedule [] true {[ 0; 1; 2 ]}).
Proof.
  refine (proj2 (schedule_init_outcome 8 2 second_fails {[ 0; 1; 2 ]}) 1%nat _ _ _).
  - cbn. lia.
  - intros i Hi. by replace i with 0%nat by lia.
  - reflexivity.
Defined.

(** C15: the life of the library when the system calls succeed. [globalInit]
    returns true with one running loop thread per core, the timer, the manager's
    thread, and one reclaim handler and flag per loop thread. [globalDestroy]
    then returns: no thread is left, and the only descriptors still open, next
    to those of the process, are the two of the manager's pipe. *)
Theorem global_lifecycle (cores : nat) (a : nat -> thread_answers) (base : descriptors) :
  (forall i, (i < cores)%nat -> starts (a i) = true /\ ta_wake (a i) = true) ->
  exists s, globalInit cores a true (new_library base) = Ret (true, s)
    /\ length (sc_threads (lib_schedule s)) = cores /\ Forall runs (sc_threads (lib_schedule s))
    /\ sc_timer (lib_schedule s) = true /\ mt_thread (lib_manager s) = Running
    /\ mt_on_reclaim (lib_manager s) = seq 0 cores /\ mt_notify_flag (lib_manager s) = replicate cores false
    /\ exists s', globalDestroy a s = Ret s'
       /\ sc_threads (lib_schedule s') = [] /\ sc_timer (lib_schedule s') = false /\ mt_thread (lib_manager s') = No_thread
       /\ accounted base (sc_open (lib_schedule s')) [mt_reclaim_fd1 (lib_manager s'); mt_reclaim_fd0 (lib_manager s')].
Proof.
  intros Hall. unfold globalInit. cbn [new_library lib_schedule lib_manager]. rewrite Schedule_init_new. cbn [Z.leb Z.compare].
  destruct (start_threads_all base a cores 0 base []) as (l & open & -> & Ha & Hlen & Hl);
    [apply accounted_empty|intros j Hj; apply Hall; lia|].
  cbn [lc_bind negb sc_threads sc_open]. unfold SocketManager_init. cbn [sc_threads sc_open sc_timer mt_thread].
  destruct (open_pipe true open) as [fds open1] eqn:Ho.
  pose proof (lowest_free_spec open) as [_ Hpos0]. pose proof (lowest_free_spec ({[ lowest_free open ]} ∪ open)) as [_ Hpos1].
  pose proof Ho as Ho'. unfold open_pipe, open_fd in Ho'. injection Ho' as <- <-.
  eapply open_pipe_spec in Ho as (fd0 & fd1 & [= <- <-] & Ha1); [|done]. cbn [lc_bind].
  eexists. split; [done|]. cbn [lib_schedule lib_manager sc_threads sc_timer mt_thread mt_on_reclaim mt_notify_flag].
  rewrite Hlen. split_and!; try done; [unfold resize_flags; rewrite take_nil; cbn; by rewrite Nat.sub_0_r|].
  unfold globalDestroy. cbn [lib_schedule lib_manager].
  rewrite app_nil_r, (assoc_L (++)), Permutation_app_comm in Ha1.
  destruct (destroy_schedule_spec base a l true _ _ Ha1) as (open' & -> & Ha2).
  { intros j t Hj. eapply runs_stoppable; [by eapply Forall_lookup_1|]. apply Hall. apply lookup_lt_Some in Hj. lia. }
  cbn [lc_bind]. eexists. split; [done|].
  cbn [lib_schedule lib_manager sc_threads sc_timer sc_open mt_thread mt_exit lc_bind destroy_time_schedule SocketManager_destroy join_manager mt_reclaim_fd0
       mt_reclaim_fd1]. split_and!; try done.
  unfold guard_fds in Ha2. rewrite (proj2 (Z.leb_le _ _) Hpos0), (proj2 (Z.leb_le _ _) Hpos1) in Ha2. exact Ha2.
Qed.

Lemma global_lifecycle_witness :
  exists s s', globalInit 2 (fun _ => ready_thread) true (new_library {[ 0; 1; 2 ]}) = Ret (true, s)
    /\ globalDestroy (fun _ => ready_thread) s = Ret s' /\ mt_thread (lib_manager s') = No_thread.
Proof.
  destruct (global_lifecycle 2 (fun _ => ready_thread) {[ 0; 1; 2 ]}) as (s & Hi & _ & _ & _ & _ & _ & _ & s' & Hd & _ & _ & Ht & _).
  - intros i _. split; reflexivity.
  - exists s, s'. exact (conj Hi (conj Hd Ht)).
Defined.

(** The library started again: the pipe of the first time is never closed, and
    the handlers of the first time are kept. Starting it without having stopped it ends
    the process. *)
Lemma started_again :
  let init := globalInit 1 (fun _ => ready_thread) true in
  (exists s1 s2 s3, init (new_library {[ 0; 1; 2 ]}) = Ret (true, s1) /\ globalDestroy (fun _ => ready_thread) s1 = Ret s2
     /\ init s2 = Ret (true, s3)
     /\ size (sc_open (lib_schedule s3)) = (2 + size (sc_open (lib_schedule s1)))%nat
     /\ mt_on_reclaim (lib_manager s3) = [0; 0]%nat)
  /\ (exists s1, init (new_library {[ 0; 1; 2 ]}) = Ret (true, s1) /\ init s1 = Terminate).
Proof.
  split.
  - eexists _, _, _. split; [vm_compute; reflexivity|]. split; [vm_compute; reflexivity|]. split; [vm_compute; reflexivity|].
    split; vm_compute; reflexivity.
  - eexists. split; [vm_compute; reflexivity|]. vm_compute. reflexivity.
Qed.
