(* ===== verification/EventLoops.v ===== *)
(** * The two event loops (src/schedule/epoll_loop.cpp, kqueue_loop.cpp)

    [Loop] has one implementation for epoll and one for kqueue. Both are
    modelled over the system calls they make, and shown to keep to one
    interface, for clients that do as this library does: they add a descriptor
    only when it is not there, with one event, and remove it with the event it
    was added with. Outside of that the two loops differ. *)

From stdpp Require Import gmap.
From S2P Require Import Prelude Socket SocketManager Connect Lifecycle.

Definition POLLIN : Z := 1.
Definition POLLOUT : Z := 4.
Definition POLLERR : Z := 8.
Definition POLLHUP : Z := 16.
Definition EPOLLET : Z := 2 ^ 31.

(** ** The systems *)

(** [struct epoll_event]; [H] are the handlers, a null pointer is [None]. *)
Record epoll_event (H : Type) := mk_epoll_event { ev_events : Z; ev_ptr : option H }.
#[global] Arguments mk_epoll_event {H}.
#[global] Arguments ev_events {H}.
#[global] Arguments ev_ptr {H}.

Inductive epoll_op : Set := EPOLL_CTL_ADD | EPOLL_CTL_DEL.

(** What [epoll_ctl] documents: a descriptor that is not open or cannot be
    polled, or for which there is no memory or room, is refused ([EBADF],
    [EPERM], [ENOMEM], [ENOSPC]); [EEXIST] when a descriptor is added again,
    [ENOENT] when one that is not there is removed. *)
Definition interest_ctl {H} (accepts : bool) (op : epoll_op) (fd : Z) (ev : epoll_event H) (m : gmap Z (epoll_event H))
    : bool * gmap Z (epoll_event H) :=
  match op, m !! fd with
  | EPOLL_CTL_ADD, None => if accepts then (true, <[fd := ev]> m) else (false, m)
  | EPOLL_CTL_DEL, Some _ => (true, delete fd m)
  | _, _ => (false, m)
  end.

(** An epoll instance, its interest list and the descriptors it would take;
    closing a descriptor takes it off the list. *)
Class Epoll (H K : Type) := {
  epoll_ctl : epoll_op -> Z -> epoll_event H -> K -> Z * K;
  epoll_close : Z -> K -> K;
  interest : K -> gmap Z (epoll_event H);
  epoll_accepts : K -> Z -> bool
}.

Class EpollLaws (H K : Type) `{Epoll H K} : Prop := {
  epoll_ctl_law op fd ev k : let '(r, k') := epoll_ctl op fd ev k in
    (if fst (interest_ctl (epoll_accepts k fd) op fd ev (interest k)) then r = 0 else r = -1)
    /\ interest k' = snd (interest_ctl (epoll_accepts k fd) op fd ev (interest k));
  epoll_close_law fd k : interest (epoll_close fd k) = delete fd (interest k)
}.

(** Of a descriptor with the conditions [mask], [epoll_wait] reports one event
    with all the bits that were asked for, errors and hang-ups unasked. *)
Definition epoll_bits (events mask : Z) : Z :=
  Z.land mask (Z.lor (Z.land events (Z.lor POLLIN POLLOUT)) (Z.lor POLLERR POLLHUP)).

Definition epoll_reports {H K} `{Epoll H K} (k : K) (x : Z * Z) : list (epoll_event H) :=
  match interest k !! x.1 with
  | Some ev =>
      let bits := epoll_bits (ev_events ev) x.2 in
      if bits =? 0 then [] else [mk_epoll_event bits (ev_ptr ev)]
  | None => []
  end.

(** [struct kevent] as [EV_SET] makes it: the filter, whether it is added or
    deleted, and [udata] *)
Inductive kfilter : Set := EVFILT_READ | EVFILT_WRITE.

#[global] Instance kfilter_eq_dec : EqDecision kfilter.
Proof. solve_decision. Defined.

#[global] Instance kfilter_countable : Countable kfilter.
Proof.
  refine (inj_countable' (fun f => match f with EVFILT_READ => true | EVFILT_WRITE => false end)
            (fun b : bool => if b then EVFILT_READ else EVFILT_WRITE) _). by intros [].
Defined.

Inductive kaction : Set := EV_ADD | EV_DELETE.

Record kchange (H : Type) := mk_kchange { kc_ident : Z; kc_filter : kfilter; kc_action : kaction; kc_udata : option H }.
#[global] Arguments mk_kchange {H}.
#[global] Arguments kc_ident {H}.
#[global] Arguments kc_filter {H}.
#[global] Arguments kc_action {H}.
#[global] Arguments kc_udata {H}.

(** What [kevent] documents of its change list when there is no room to report
    errors: the changes are applied in order up to the first error. [EV_ADD] of
    a descriptor that is not open, or without memory, is an error, and replaces
    an event that is there; deleting one that is not there is [ENOENT]. *)
Fixpoint apply_changes {H} (accepts : Z -> bool) (l : list (kchange H)) (m : gmap (Z * kfilter) (option H))
    : bool * gmap (Z * kfilter) (option H) :=
  match l with
  | [] => (true, m)
  | c :: l =>
      match kc_action c, m !! (kc_ident c, kc_filter c) with
      | EV_ADD, _ =>
          if accepts (kc_ident c)
          then apply_changes accepts l (<[(kc_ident c, kc_filter c) := kc_udata c]> m) else (false, m)
      | EV_DELETE, Some _ => apply_changes accepts l (delete (kc_ident c, kc_filter c) m)
      | EV_DELETE, None => (false, m)
      end
  end.

Class Kqueue (H K : Type) := {
  kevent : list (kchange H) -> K -> Z * K;
  kqueue_close : Z -> K -> K;
  knotes : K -> gmap (Z * kfilter) (option H);
  kqueue_accepts : K -> Z -> bool
}.

Class KqueueLaws (H K : Type) `{Kqueue H K} : Prop := {
  kevent_law l k : let '(r, k') := kevent l k in
    (if fst (apply_changes (kqueue_accepts k) l (knotes k)) then r = 0 else r = -1)
    /\ knotes k' = snd (apply_changes (kqueue_accepts k) l (knotes k));
  kqueue_close_law fd k : knotes (kqueue_close fd k)
    = delete (fd, EVFILT_READ) (delete (fd, EVFILT_WRITE) (knotes k))
}.

(** A reported event *)
Record kreport (H : Type) := mk_kreport { kr_filter : kfilter; kr_udata : option H }.
#[global] Arguments mk_kreport {H}.
#[global] Arguments kr_filter {H}.
#[global] Arguments kr_udata {H}.

Definition filter_bit (f : kfilter) : Z := match f with EVFILT_READ => POLLIN | EVFILT_WRITE => POLLOUT end.

(** A filter is triggered by its own condition, and by the end of the connection
    or an error. *)
Definition triggered (bit mask : Z) : bool := has_bit mask bit || has_bit mask POLLERR || has_bit mask POLLHUP.

(** Of a descriptor with the conditions [mask], [kevent] reports one event per
    filter. *)
Definition kqueue_reports {H K} `{Kqueue H K} (k : K) (x : Z * Z) : list (kreport H) :=
  flat_map (fun f => match knotes k !! (x.1, f) with
                     | Some h => if triggered (filter_bit f) x.2 then [mk_kreport f h] else []
                     | None => []
                     end) [EVFILT_READ; EVFILT_WRITE].

(** ** The loops *)

Section Loops.
Context {H : Type}.

(** [Loop::add_event] and [Loop::remove_event] of epoll_loop.cpp *)
Definition epoll_add_event {K} `{Epoll H K} (fd events : Z) (handler : option H) (k : K) : bool * K :=
  let ev := mk_epoll_event (Z.lor events EPOLLET) handler in
  let '(r, k) := epoll_ctl EPOLL_CTL_ADD fd ev k in (0 =? r, k).

Definition epoll_remove_event {K} `{Epoll H K} (fd events : Z) (k : K) : K :=
  let ev := mk_epoll_event (Z.lor events EPOLLET) None in
  snd (epoll_ctl EPOLL_CTL_DEL fd ev k).

(** [Loop::init] of kqueue_loop.cpp, with what [kqueue] and [fcntl] answer: it
    tests the descriptor first. *)
Definition kqueue_init (a : thread_answers) (open : descriptors) : bool * Z * descriptors :=
  let '(fd, open) := open_fd (ta_epoll a) open in
  let backend := assign_fd (new_guard (-1)) fd in
  if backend =? -1 then (false, backend, open)
  else if negb (ta_cloexec a) then (false, backend, open)
  else (true, backend, open).

(** The order of the two tests of [init] makes no difference: [fcntl] refuses
    the descriptor -1. *)
Lemma init_agree (a : thread_answers) (open : descriptors) : kqueue_init a open = Loop_init a open.
Proof.
  unfold kqueue_init, Loop_init. destruct (open_fd _ _) as [fd open']. unfold assign_fd.
  destruct (fd =? -1); cbn [orb]; [done|]. by destruct (ta_cloexec a).
Qed.

(** The array [ev] of kqueue_loop.cpp *)
Definition kqueue_changes (fd events : Z) (action : kaction) (udata : option H) : list (kchange H) :=
  (if has_bit events POLLIN then [mk_kchange fd EVFILT_READ action udata] else [])
  ++ (if has_bit events POLLOUT then [mk_kchange fd EVFILT_WRITE action udata] else []).

(** [Loop::add_event] and [Loop::remove_event] of kqueue_loop.cpp *)
Definition kqueue_add_event {K} `{Kqueue H K} (fd events : Z) (handler : option H) (k : K) : bool * K :=
  let '(r, k) := kevent (kqueue_changes fd events EV_ADD handler) k in (0 =? r, k).

Definition kqueue_remove_event {K} `{Kqueue H K} (fd events : Z) (k : K) : K :=
  snd (kevent (kqueue_changes fd events EV_DELETE None) k).

(** [Loop::loop_once] of epoll_loop.cpp: [actives], [errno] and [events] are what
    [epoll_wait] answers. The handlers that are called, in their order *)
Definition epoll_loop_once (actives errno : Z) (events : list (epoll_event H)) : list H :=
  if (actives =? -1) && negb (errno =? EINTR) then []
  else omap ev_ptr (take (Z.to_nat actives) events).

(** [Loop::loop_once] of kqueue_loop.cpp *)
Definition kqueue_loop_once (actives errno : Z) (events : list (kreport H)) : list H :=
  if (actives =? -1) && negb (errno =? EINTR) then []
  else omap kr_udata (take (Z.to_nat actives) events).

(** What a wait answers: -1 and [errno], or the number of events it has stored,
    at most [MAX_POLL_EVENT] *)
Definition wait_answer {X} (error : option Z) (events : list X) : Z * Z * list X :=
  match error with
  | Some errno => (-1, errno, [])
  | None => (zlen (take MAX_POLL_EVENT events), 0, take MAX_POLL_EVENT events)
  end.

End Loops.

(** ** The interface *)

(** A loop, the descriptors its system would take, and the handlers a round calls
    when the wait fails with [error] or finds the descriptors of [ready] with
    their conditions *)
Class LoopBackend (H L : Type) := {
  loop_add : Z -> Z -> option H -> L -> bool * L;
  loop_remove : Z -> Z -> L -> L;
  loop_close : Z -> L -> L;
  loop_accepts : L -> Z -> bool;
  loop_handlers : option Z -> list (Z * Z) -> L -> list H
}.

(** The events a client asks for: one at a time *)
Definition pollable (events : Z) : Prop := events = POLLIN \/ events = POLLOUT.

(** The handlers a table of registrations says are called *)
Definition table_handlers {H} (error : option Z) (ready : list (Z * Z)) (m : gmap Z (Z * option H)) : list H :=
  match error with
  | Some _ => []
  | None =>
      omap id (take MAX_POLL_EVENT
        (flat_map (fun x => match m !! x.1 with
                            | Some (bit, h) => if triggered bit x.2 then [h] else []
                            | None => []
                            end) ready))
  end.

(** A loop does what a table of registrations says, as long as it is told in
    the right order. *)
Class LoopBackendLaws (H L : Type) `{LoopBackend H L} (rep : gmap Z (Z * option H) -> L -> Prop) : Prop := {
  loop_add_ok m l fd events h : rep m l -> m !! fd = None -> pollable events ->
    exists l', loop_add fd events h l = (loop_accepts l fd, l')
      /\ rep (if loop_accepts l fd then <[fd := (events, h)]> m else m) l';
  loop_remove_ok m l fd events h : rep m l -> m !! fd = Some (events, h) ->
    rep (delete fd m) (loop_remove fd events l);
  loop_close_ok m l fd : rep m l -> rep (delete fd m) (loop_close fd l);
  loop_handlers_ok m l error ready : rep m l -> map_Forall (fun _ x => pollable x.1) m ->
    loop_handlers error ready l = table_handlers error ready m
}.

(** ** Both loops implement it *)

(** Whether [epoll_wait] reports a descriptor that was added with one event *)
Lemma epoll_bits_triggered bit mask :
  pollable bit -> (epoll_bits (Z.lor bit EPOLLET) mask =? 0) = negb (triggered bit mask).
Proof.
  intros Hb. unfold epoll_bits, triggered, has_bit.
  assert (Z.land (Z.lor bit EPOLLET) (Z.lor POLLIN POLLOUT) = bit) as -> by (by destruct Hb as [-> | ->]).
  rewrite !Z.land_lor_distr_r.
  destruct (Z.eqb_spec (Z.lor (Z.land mask bit) (Z.lor (Z.land mask POLLERR) (Z.land mask POLLHUP))) 0) as [E|E].
  - apply Z.lor_eq_0_iff in E as [-> [-> ->]%Z.lor_eq_0_iff]. done.
  - symmetry. apply negb_false_iff.
    destruct (Z.eqb_spec (Z.land mask bit) 0) as [E1|]; [|done]. destruct (Z.eqb_spec (Z.land mask POLLERR) 0) as [E2|]; [|done].
    destruct (Z.eqb_spec (Z.land mask POLLHUP) 0) as [E3|]; [|done]. by rewrite E1, E2, E3 in E.
Qed.

(** What the two waits store, and the handlers that are called *)
Lemma omap_fmap_id {X H} (f : X -> option H) (l : list X) : omap f l = omap id (f <$> l).
Proof. induction l as [|x l IH]; [done|]. cbn. by rewrite IH. Qed.

Lemma flat_map_fmap {X A B} (f : A -> B) (g : X -> list A) (l : list X) : f <$> flat_map g l = flat_map (fun x => f <$> g x) l.
Proof. induction l as [|x l IH]; [done|]. cbn. by rewrite fmap_app, IH. Qed.

Lemma flat_map_eq {X A} (f g : X -> list A) (l : list X) : (forall x, f x = g x) -> flat_map f l = flat_map g l.
Proof. intros Hfg. induction l as [|x l IH]; [done|]. cbn. by rewrite IH, Hfg. Qed.

Section Epoll_loop.
Context {H K : Type} `{EpollLaws H K}.

#[global] Instance epoll_backend : LoopBackend H K := {
  loop_add := epoll_add_event;
  loop_remove := epoll_remove_event;
  loop_close := epoll_close;
  loop_accepts := epoll_accepts;
  loop_handlers error ready k :=
    let '(actives, errno, events) := wait_answer error (flat_map (epoll_reports k) ready) in
    epoll_loop_once actives errno events
}.

Definition epoll_entry (x : Z * option H) : epoll_event H := mk_epoll_event (Z.lor x.1 EPOLLET) x.2.

Definition epoll_rep (m : gmap Z (Z * option H)) (k : K) : Prop := interest k = epoll_entry <$> m.

#[global] Instance epoll_backend_laws : LoopBackendLaws H K epoll_rep.
Proof.
  split; unfold epoll_rep.
  - intros m k fd events h Hrep Hfd _. cbn [loop_add loop_accepts epoll_backend]. unfold epoll_add_event.
    pose proof (epoll_ctl_law EPOLL_CTL_ADD fd (mk_epoll_event (Z.lor events EPOLLET) h) k) as Hctl.
    destruct (epoll_ctl _ _ _ _) as [r k']. unfold interest_ctl in Hctl.
    rewrite Hrep, lookup_fmap, Hfd in Hctl. cbn [fmap option_fmap option_map] in Hctl. exists k'.
    destruct (epoll_accepts k fd); cbn in Hctl; destruct Hctl as [-> Hi]; (split; [done|]); rewrite Hi; [by rewrite fmap_insert|done].
  - intros m k fd events h Hrep Hfd. cbn [loop_remove epoll_backend]. unfold epoll_remove_event.
    pose proof (epoll_ctl_law EPOLL_CTL_DEL fd (mk_epoll_event (Z.lor events EPOLLET) None) k) as Hctl.
    destruct (epoll_ctl _ _ _ _) as [r k']. unfold interest_ctl in Hctl.
    rewrite Hrep, lookup_fmap, Hfd in Hctl. cbn in Hctl. destruct Hctl as [_ Hi]. cbn [snd].
    by rewrite Hi, fmap_delete.
  - intros m k fd Hrep. cbn [loop_close epoll_backend]. by rewrite epoll_close_law, Hrep, fmap_delete.
  - intros m k error ready Hrep Hm. cbn [loop_handlers epoll_backend]. unfold wait_answer, table_handlers, epoll_loop_once.
    destruct error as [errno|]; [cbn; by destruct (negb _)|]. cbv zeta. rewrite (proj2 (Z.eqb_neq _ _)) by (unfold zlen; lia).
    cbn [andb]. unfold zlen. rewrite Nat2Z.id, firstn_all, omap_fmap_id, fmap_take, flat_map_fmap. do 2 f_equal.
    apply flat_map_eq. intros [fd mask]. unfold epoll_reports. rewrite Hrep, lookup_fmap. cbn [fst snd].
    destruct (m !! fd) as [[bit h]|] eqn:Efd; [|done]. cbn [fmap option_fmap option_map epoll_entry ev_events ev_ptr fst snd].
    rewrite epoll_bits_triggered by exact (Hm fd _ Efd). by destruct (triggered bit mask).
Qed.

End Epoll_loop.

Section Kqueue_loop.
Context {H : Type}.
Implicit Types (m : gmap (Z * kfilter) (option H)).

Lemma changes_add (acc : Z -> bool) fd bit h m :
  pollable bit ->
  exists m', apply_changes acc (kqueue_changes fd bit EV_ADD h) m = (acc fd, m')
    /\ forall fd' f, m' !! (fd', f)
       = if acc fd && bool_decide (fd' = fd) && has_bit bit (filter_bit f) then Some h else m !! (fd', f).
Proof.
  intros Hb. unfold kqueue_changes.
  assert (has_bit POLLIN POLLIN = true /\ has_bit POLLIN POLLOUT = false
    /\ has_bit POLLOUT POLLIN = false /\ has_bit POLLOUT POLLOUT = true) as (E1 & E2 & E3 & E4) by done.
  destruct Hb as [-> | ->]; rewrite ?E1, ?E2, ?E3, ?E4; cbn [app apply_changes kc_action kc_ident kc_filter kc_udata];
    destruct (acc fd); eexists; (split; [reflexivity|]); intros fd' f; cbn [andb];
    try done; case_bool_decide as Hfd; subst; cbn [andb]; try destruct f; cbn [filter_bit]; rewrite ?E1, ?E2, ?E3, ?E4;
    repeat first [rewrite lookup_insert_eq | rewrite lookup_insert_ne by congruence]; done.
Qed.

Lemma changes_delete (acc : Z -> bool) fd events h m :
  (forall f, has_bit events (filter_bit f) = true -> m !! (fd, f) = Some h) ->
  exists m', apply_changes acc (kqueue_changes fd events EV_DELETE (None : option H)) m = (true, m')
    /\ forall fd' f, m' !! (fd', f)
       = if bool_decide (fd' = fd) && has_bit events (filter_bit f) then None else m !! (fd', f).
Proof.
  intros Hm. unfold kqueue_changes. pose proof (Hm EVFILT_READ) as Hr. pose proof (Hm EVFILT_WRITE) as Hw.
  cbn [filter_bit] in Hr, Hw.
  destruct (has_bit events POLLIN) eqn:Ei, (has_bit events POLLOUT) eqn:Eo; cbn [app apply_changes kc_action kc_ident kc_filter kc_udata];
    rewrite ?(Hr eq_refl), ?(Hw eq_refl);
    rewrite ?(lookup_delete_ne m (fd, EVFILT_READ) (fd, EVFILT_WRITE)) by congruence;
    rewrite ?(Hr eq_refl), ?(Hw eq_refl);
    eexists; (split; [reflexivity|]); intros fd' f; case_bool_decide as Hfd; subst; cbn [andb];
    try destruct f; cbn [filter_bit]; rewrite ?Ei, ?Eo;
    repeat first [rewrite lookup_delete_eq | rewrite lookup_delete_ne by congruence]; done.
Qed.

Context {K : Type} `{KqueueLaws H K}.

#[global] Instance kqueue_backend : LoopBackend H K := {
  loop_add := kqueue_add_event;
  loop_remove := kqueue_remove_event;
  loop_close := kqueue_close;
  loop_accepts := kqueue_accepts;
  loop_handlers error ready k :=
    let '(actives, errno, events) := wait_answer error (flat_map (kqueue_reports k) ready) in
    kqueue_loop_once actives errno events
}.

Definition kqueue_rep (m : gmap Z (Z * option H)) (k : K) : Prop :=
  forall fd f, knotes k !! (fd, f)
    = match m !! fd with
      | Some (events, h) => if has_bit events (filter_bit f) then Some h else None
      | None => None
      end.

#[global] Instance kqueue_backend_laws : LoopBackendLaws H K kqueue_rep.
Proof.
  split.
  - intros m k fd events h Hrep Hfd Hb. cbn [loop_add loop_accepts kqueue_backend]. unfold kqueue_add_event.
    pose proof (kevent_law (kqueue_changes fd events EV_ADD h) k) as Hk.
    destruct (kevent _ _) as [r k']. destruct (changes_add (kqueue_accepts k) fd events h (knotes k) Hb) as (m' & Hm' & Hl).
    rewrite Hm' in Hk. cbn [fst snd] in Hk. destruct Hk as [Hr Hn]. exists k'.
    split; [by destruct (kqueue_accepts k fd); rewrite Hr|].
    intros fd' f. rewrite Hn, Hl, Hrep. destruct (kqueue_accepts k fd); [cbn [andb]|done].
    case_bool_decide as He; [subst; by rewrite lookup_insert_eq, Hfd|by rewrite lookup_insert_ne].
  - intros m k fd events h Hrep Hfd. cbn [loop_remove kqueue_backend]. unfold kqueue_remove_event.
    pose proof (kevent_law (kqueue_changes fd events EV_DELETE None) k) as Hk.
    destruct (kevent _ _) as [r k']. destruct (changes_delete (kqueue_accepts k) fd events h (knotes k)) as (m' & Hm' & Hl).
    { intros f Hb. by rewrite Hrep, Hfd, Hb. }
    rewrite Hm' in Hk. cbn [fst snd] in Hk. destruct Hk as [_ Hn]. cbn [snd].
    intros fd' f. rewrite Hn, Hl, Hrep. case_bool_decide as He; [subst; rewrite lookup_delete_eq, Hfd|by rewrite lookup_delete_ne].
    cbn [andb]. by destruct (has_bit _ _).
  - intros m k fd Hrep fd' f. cbn [loop_close kqueue_backend]. rewrite kqueue_close_law.
    destruct (decide (fd' = fd)) as [->|He].
    + rewrite lookup_delete_eq.
      destruct f; [by rewrite lookup_delete_eq|by rewrite lookup_delete_ne, lookup_delete_eq by congruence].
    + rewrite !lookup_delete_ne by congruence. by rewrite Hrep.
  - intros m k error ready Hrep Hm. cbn [loop_handlers kqueue_backend]. unfold wait_answer, table_handlers, kqueue_loop_once.
    destruct error as [errno|]; [cbn; by destruct (negb _)|]. cbv zeta. rewrite (proj2 (Z.eqb_neq _ _)) by (unfold zlen; lia).
    cbn [andb]. unfold zlen. rewrite Nat2Z.id, firstn_all, omap_fmap_id, fmap_take, flat_map_fmap. do 2 f_equal.
    apply flat_map_eq. intros [fd mask]. unfold kqueue_reports. cbn [flat_map fst snd]. rewrite !Hrep.
    destruct (m !! fd) as [[bit h]|] eqn:Efd; [|done]. destruct (Hm fd _ Efd) as [Eb|Eb]; cbn in Eb; subst bit.
    + change (has_bit POLLIN (filter_bit EVFILT_READ)) with true. change (has_bit POLLIN (filter_bit EVFILT_WRITE)) with false.
      cbn [filter_bit]. by destruct (triggered POLLIN mask).
    + change (has_bit POLLOUT (filter_bit EVFILT_READ)) with false. change (has_bit POLLOUT (filter_bit EVFILT_WRITE)) with true.
      cbn [filter_bit]. by destruct (triggered POLLOUT mask).
Qed.

End Kqueue_loop.

(** ** Clients *)

Inductive loop_op (H : Type) : Type :=
| Op_add (fd events : Z) (h : option H)
| Op_remove (fd events : Z)
| Op_close (fd : Z).
#[global] Arguments Op_add {H}.
#[global] Arguments Op_remove {H}.
#[global] Arguments Op_close {H}.

Section Clients.
Context {H : Type}.
Implicit Types (m : gmap Z (Z * option H)) (op : loop_op H) (ops : list (loop_op H)).

(** The registrations after an operation, of which an addition was [accepted],
    and whether it is in order *)
Definition registered op (accepted : bool) m : gmap Z (Z * option H) :=
  match op with
  | Op_add fd events h => if accepted then <[fd := (events, h)]> m else m
  | Op_remove fd _ => delete fd m
  | Op_close fd => delete fd m
  end.

Definition in_order op m : Prop :=
  match op with
  | Op_add fd events _ => m !! fd = None /\ pollable events
  | Op_remove fd events => fst <$> m !! fd = Some events
  | Op_close _ => True
  end.

(** The registrations after operations of which each has been accepted or
    refused as in [accs] *)
Fixpoint registrations ops (accs : list bool) m : gmap Z (Z * option H) :=
  match ops, accs with
  | op :: ops, acc :: accs => registrations ops accs (registered op acc m)
  | _, _ => m
  end.

Fixpoint disciplined ops (accs : list bool) m : Prop :=
  match ops, accs with
  | op :: ops, acc :: accs => in_order op m /\ disciplined ops accs (registered op acc m)
  | _, _ => True
  end.

Context {L : Type} `{LoopBackend H L}.

(** One operation, and what the loop answers to it *)
Definition loop_do op (l : L) : bool * L :=
  match op with
  | Op_add fd events h => loop_add fd events h l
  | Op_remove fd events => (true, loop_remove fd events l)
  | Op_close fd => (true, loop_close fd l)
  end.

(** Whether the system would take the descriptor *)
Definition would_accept op (l : L) : bool :=
  match op with Op_add fd _ _ => loop_accepts l fd | _ => true end.

Fixpoint run_loop ops (l : L) : list bool * L :=
  match ops with
  | [] => ([], l)
  | op :: ops => let '(ok, l) := loop_do op l in let '(oks, l) := run_loop ops l in (ok :: oks, l)
  end.

Fixpoint acceptances ops (l : L) : list bool :=
  match ops with
  | [] => []
  | op :: ops => would_accept op l :: acceptances ops (loop_do op l).2
  end.

Lemma loop_do_ok (rep : gmap Z (Z * option H) -> L -> Prop) `{!LoopBackendLaws H L rep} op m l :
  rep m l -> in_order op m ->
  exists l', loop_do op l = (would_accept op l, l') /\ rep (registered op (would_accept op l) m) l'.
Proof.
  intros Hrep Hin. destruct op as [fd events h|fd events|fd]; cbn [loop_do would_accept in_order registered] in *.
  - destruct Hin as [Hfd Hev]. by apply loop_add_ok.
  - destruct (m !! fd) as [[e h]|] eqn:Hfd; cbn in Hin; [|done]. injection Hin as ->.
    eexists. split; [done|]. by eapply loop_remove_ok.
  - eexists. split; [done|]. by apply loop_close_ok.
Qed.

(** The answers are the acceptances. *)
Lemma run_loop_ok (rep : gmap Z (Z * option H) -> L -> Prop) `{!LoopBackendLaws H L rep} ops : forall m l,
  rep m l -> disciplined ops (acceptances ops l) m ->
  exists l', run_loop ops l = (acceptances ops l, l') /\ rep (registrations ops (acceptances ops l) m) l'.
Proof.
  induction ops as [|op ops IH]; intros m l Hrep Hd; [by exists l|]. cbn [acceptances disciplined run_loop registrations] in *.
  destruct Hd as [Hin Hd]. destruct (loop_do_ok rep op m l Hrep Hin) as (l1 & Hdo & Hrep1). rewrite Hdo in Hd |- *.
  cbn [snd] in *. destruct (IH _ _ Hrep1 Hd) as (l2 & -> & Hrep2). by exists l2.
Qed.

End Clients.

(** One event at a time *)
Lemma registrations_pollable {H} (ops : list (loop_op H)) : forall accs m,
  disciplined ops accs m -> map_Forall (fun _ x => pollable x.1) m ->
  map_Forall (fun _ x => pollable x.1) (registrations ops accs m).
Proof.
  induction ops as [|op ops IH]; intros [|acc accs] m Hd Hm; try done. destruct Hd as [Hin Hd].
  cbn [registrations]. apply IH; [done|]. destruct op as [fd events h|fd events|fd]; cbn [registered].
  - destruct acc; [|done]. apply map_Forall_insert_2; [by destruct Hin|done].
  - by apply map_Forall_delete.
  - by apply map_Forall_delete.
Qed.

(** C31: the two loops are the same to this library. Let an epoll loop and a
    kqueue loop, over any two systems that keep to their documentation, start
    without registrations and get the same operations, additions with one event
    each of descriptors that are not registered, removals with the event of the
    registration, and closings; and let the two systems accept the same
    descriptors (open ones, while there is memory). Then both loops answer the
    same to every operation, success exactly when the descriptor is accepted.
    And when a wait then fails with the same error in both, or finds the same
    descriptors ready with the same conditions in the same order, both call the
    same handlers, those of the registrations that are left. *)
Theorem loops_agree {H K1 K2 : Type} `{EpollLaws H K1} `{KqueueLaws H K2} (k1 : K1) (k2 : K2) (ops : list (loop_op H))
    (ready : list (Z * Z)) (error : option Z) :
  interest k1 = ∅ -> knotes k2 = ∅ -> acceptances ops k2 = acceptances ops k1 -> disciplined ops (acceptances ops k1) ∅ ->
  exists k1' k2', run_loop ops k1 = (acceptances ops k1, k1') /\ run_loop ops k2 = (acceptances ops k1, k2')
    /\ loop_handlers error ready k1' = table_handlers error ready (registrations ops (acceptances ops k1) ∅)
    /\ loop_handlers error ready k2' = table_handlers error ready (registrations ops (acceptances ops k1) ∅).
Proof.
  intros Hk1 Hk2 Hacc Hd.
  assert (epoll_rep ∅ k1) as Hrep1 by (unfold epoll_rep; by rewrite Hk1, fmap_empty).
  assert (kqueue_rep ∅ k2) as Hrep2 by (intros fd f; by rewrite Hk2, !lookup_empty).
  destruct (run_loop_ok epoll_rep ops ∅ k1 Hrep1 Hd) as (k1' & Hrun1 & Hrep1').
  destruct (run_loop_ok kqueue_rep ops ∅ k2 Hrep2) as (k2' & Hrun2 & Hrep2'); [by rewrite Hacc|]. rewrite Hacc in Hrun2, Hrep2'.
  pose proof (registrations_pollable ops _ ∅ Hd ltac:(apply map_Forall_empty)) as Hp.
  exists k1', k2'. split_and!; [done|done|by apply (loop_handlers_ok (rep := epoll_rep))|by apply (loop_handlers_ok (rep := kqueue_rep))].
Qed.

(** ** Tables as systems *)

(** The open descriptors, and the registrations *)
Definition open_table (X : Type) : Type := gset Z * X.

#[global] Instance table_epoll {H} : Epoll H (open_table (gmap Z (epoll_event H))) := {
  epoll_ctl op fd ev k :=
    let '(ok, m) := interest_ctl (bool_decide (fd ∈ k.1)) op fd ev k.2 in (if ok then 0 else -1, (k.1, m));
  epoll_close fd k := (k.1 ∖ {[ fd ]}, delete fd k.2);
  interest k := k.2;
  epoll_accepts k fd := bool_decide (fd ∈ k.1)
}.

#[global] Instance table_epoll_laws {H} : EpollLaws H (open_table (gmap Z (epoll_event H))).
Proof.
  split; [|done]. intros op fd ev [open m]. cbn. destruct (interest_ctl _ op fd ev m) as [[] m']; done.
Qed.

#[global] Instance table_kqueue {H} : Kqueue H (open_table (gmap (Z * kfilter) (option H))) := {
  kevent l k :=
    let '(ok, m) := apply_changes (fun fd => bool_decide (fd ∈ k.1)) l k.2 in (if ok then 0 else -1, (k.1, m));
  kqueue_close fd k := (k.1 ∖ {[ fd ]}, delete (fd, EVFILT_READ) (delete (fd, EVFILT_WRITE) k.2));
  knotes k := k.2;
  kqueue_accepts k fd := bool_decide (fd ∈ k.1)
}.

#[global] Instance table_kqueue_laws {H} : KqueueLaws H (open_table (gmap (Z * kfilter) (option H))).
Proof. split; [|done]. intros l [open m]. cbn. destruct (apply_changes _ l m) as [[] m']; done. Qed.

Definition epoll_table : open_table (gmap Z (epoll_event nat)) := ({[ 3; 7; 8; 9 ]}, ∅).
Definition kqueue_table : open_table (gmap (Z * kfilter) (option nat)) := ({[ 3; 7; 8; 9 ]}, ∅).

(** The descriptor 7 is connected, read from and disconnected; the connection
    of 8 times out, it is closed, and is refused afterwards; 9 is connected and
    read from; a loop is woken through 3, which has no handler. *)
Definition sample_ops : list (loop_op nat) :=
  [Op_add 7 POLLOUT (Some 1%nat); Op_remove 7 POLLOUT; Op_add 7 POLLIN (Some 2%nat); Op_add 8 POLLOUT (Some 3%nat);
   Op_add 9 POLLOUT (Some 4%nat); Op_close 8; Op_add 8 POLLIN (Some 6%nat); Op_remove 9 POLLOUT; Op_add 9 POLLIN (Some 5%nat);
   Op_remove 7 POLLIN; Op_add 3 POLLOUT None].

Lemma loops_agree_witness :
  exists k1 k2, run_loop sample_ops epoll_table = ([true; true; true; true; true; true; false; true; true; true; true], k1)
    /\ run_loop sample_ops kqueue_table = ([true; true; true; true; true; true; false; true; true; true; true], k2)
    /\ loop_handlers None [(9, Z.lor POLLIN POLLHUP); (3, POLLOUT); (7, POLLIN)] k1 = [5%nat]
    /\ loop_handlers None [(9, Z.lor POLLIN POLLHUP); (3, POLLOUT); (7, POLLIN)] k2 = [5%nat].
Proof.
  assert (interest epoll_table = ∅) as Hk1 by reflexivity.
  assert (knotes kqueue_table = ∅) as Hk2 by reflexivity.
  assert (acceptances sample_ops epoll_table = [true; true; true; true; true; true; false; true; true; true; true]) as Ha1
    by (vm_compute; reflexivity).
  assert (acceptances sample_ops kqueue_table = acceptances sample_ops epoll_table) as Ha2 by (rewrite Ha1; vm_compute; reflexivity).
  destruct (loops_agree epoll_table kqueue_table sample_ops [(9, Z.lor POLLIN POLLHUP); (3, POLLOUT); (7, POLLIN)] None Hk1 Hk2 Ha2)
    as (k1 & k2 & Hr1 & Hr2 & Hh1 & Hh2).
  - rewrite Ha1. cbn [disciplined sample_ops in_order registered]. repeat split; vm_compute; auto.
  - exists k1, k2. rewrite Ha1 in Hr1, Hr2. split; [exact Hr1|]. split; [exact Hr2|].
    rewrite Hh1, Hh2, Ha1. split; vm_compute; reflexivity.
Defined.

(** ** Where they differ *)

(** A descriptor that is added again is refused by epoll and keeps its handler;
    kqueue accepts it, with the new handler. *)
Lemma added_again :
  let ops := [Op_add 7 POLLIN (Some 1%nat); Op_add 7 POLLIN (Some 2%nat)] in
  (let '(oks, k) := run_loop ops epoll_table in oks = [true; false] /\ loop_handlers None [(7, POLLIN)] k = [1%nat])
  /\ (let '(oks, k) := run_loop ops kqueue_table in oks = [true; true] /\ loop_handlers None [(7, POLLIN)] k = [2%nat]).
Proof. vm_compute. auto. Qed.

(** Removing the other event removes the descriptor from epoll; kqueue goes on
    reporting. *)
Lemma removed_otherwise :
  let ops := [Op_add 7 POLLOUT (Some 1%nat); Op_remove 7 POLLIN] in
  loop_handlers None [(7, POLLOUT)] (run_loop ops epoll_table).2 = []
  /\ loop_handlers None [(7, POLLOUT)] (run_loop ops kqueue_table).2 = [1%nat].
Proof. vm_compute. auto. Qed.

(** With both events in one registration epoll calls the handler once for a
    descriptor that can be read and written, kqueue twice. *)
Lemma both_events :
  let ops := [Op_add 7 (Z.lor POLLIN POLLOUT) (Some 1%nat)] in
  loop_handlers None [(7, Z.lor POLLIN POLLOUT)] (run_loop ops epoll_table).2 = [1%nat]
  /\ loop_handlers None [(7, Z.lor POLLIN POLLOUT)] (run_loop ops kqueue_table).2 = [1%nat; 1%nat].
Proof. vm_compute. auto. Qed.
