(* ===== verification/Shutdown.v ===== *)
(** * The end of the socket manager (src/tcp/socket_manager.cpp, destroy)

    What [SocketManager::destroy] does with the sockets once its thread is
    joined: a handler that is set refers to its own socket, so a socket is only
    destroyed once its handler is cleared. *)

From stdpp Require Import gmap relations.
From S2P Require Import Prelude LifeCycleLock SocketManager.

(** [exclusive()]; [None]: it spins *)
Definition exclusive (sh : Z) : option Z := let '(ok, sh) := tryExclusive sh in if ok then Some sh else None.

(** [for (auto& socket : _list)] *)
Fixpoint collect_sockets (l : list nat) (s : manager) : option manager :=
  match l with
  | [] => Some s
  | k :: l =>
      match sm_sockets s !! k with
      | None => None
      | Some w =>
          let '(ok, sh) := tryUpgrade (w_sharers w) in
          match (if ok then exclusive sh else Some sh) with
          | None => None
          | Some sh =>
              let s := set_sockets (<[k := mk_watched (w_fd w) sh (w_on_read w) (w_added w) (w_owned w)]> (sm_sockets s)) s in
              collect_sockets l (set_reclaim_list (sm_reclaim_list s ++ [k]) s)
          end
      end
  end.

(** [for (auto socket : _reclaim_list)] *)
Fixpoint drop_handlers (l : list nat) (s : manager) : option manager :=
  match l with
  | [] => Some s
  | k :: l =>
      match sm_sockets s !! k with
      | None => None
      | Some w => drop_handlers l (set_sockets (<[k := mk_watched (w_fd w) (w_sharers w) false (w_added w) (w_owned w)]> (sm_sockets s)) s)
      end
  end.

(** [destroy] after [_thread->join()] *)
Definition destroy_manager (s : manager) : option manager :=
  s ← collect_sockets (sm_list s) s;
  s ← drop_handlers (sm_reclaim_list s) (set_list [] s);
  Some (set_reclaim_list [] s).

(** ** What the manager's lists hold *)

(** Every watched socket whose handler is set is in a list; nobody shares a
    socket of the manager. *)
Record tracked (s : manager) : Prop := {
  tr_list : forall k, k ∈ sm_list s -> (k < length (sm_sockets s))%nat;
  tr_reclaim : forall k, k ∈ sm_reclaim_list s -> (k < length (sm_sockets s))%nat;
  tr_held : forall k w, sm_sockets s !! k = Some w -> w_added w = true -> w_on_read w = true ->
    k ∈ sm_list s \/ k ∈ sm_reclaim_list s;
  tr_disconnect : forall j k, sm_pc s = M_disconnect j k -> sm_list s !! j = Some k;
  tr_lock : forall k w, sm_sockets s !! k = Some w -> 0 <= w_sharers w < SHARED
}.

Lemma tracked_init n : tracked (manager_init n).
Proof. split; cbn; try done; intros k Hk; by apply not_elem_of_nil in Hk. Qed.

(** Only the sockets, the lists and the place of the manager matter. *)
Lemma tracked_same s s' :
  sm_sockets s' = sm_sockets s -> sm_list s' = sm_list s -> sm_reclaim_list s' = sm_reclaim_list s ->
  (forall j k, sm_pc s' = M_disconnect j k -> sm_list s !! j = Some k) -> tracked s -> tracked s'.
Proof.
  intros Hs Hl Hr Hp [T1 T2 T3 T4 T5]. split; rewrite ?Hs, ?Hl, ?Hr; try done.
Qed.

(** A socket keeps its place and does not get a handler. *)
Lemma tracked_insert s k w w' :
  sm_sockets s !! k = Some w -> 0 <= w_sharers w' < SHARED ->
  (w_added w' = true -> w_on_read w' = true -> (w_added w = true /\ w_on_read w = true) \/ k ∈ sm_list s \/ k ∈ sm_reclaim_list s) ->
  tracked s -> tracked (set_sockets (<[k := w']> (sm_sockets s)) s).
Proof.
  intros Hk Hsh Hkeep [T1 T2 T3 T4 T5]. split; cbn; rewrite ?length_insert; try done.
  - intros j v [(<- & -> & _)|[_ Hj]]%list_lookup_insert_Some; [|by apply T3].
    intros Ha Ho. destruct (Hkeep Ha Ho) as [[Ha' Ho']|?]; [|done]. by eapply T3.
  - intros j v [(<- & -> & _)|[_ Hj]]%list_lookup_insert_Some; [done|by eapply T5].
Qed.

Lemma lock_cases sh : 0 <= sh < SHARED -> sh = 0 \/ sh = 1 \/ sh = 2 \/ sh = 3.
Proof. unfold SHARED. lia. Qed.

Lemma socket_tryExclusive_bits sh : 0 <= sh < SHARED -> 0 <= snd (socket_tryExclusive sh) < SHARED.
Proof. by intros [->|[->|[->| ->]]]%lock_cases. Qed.

Lemma release_bits sh : 0 <= sh < SHARED -> 0 <= releaseExclusive sh < SHARED.
Proof. by intros [->|[->|[->| ->]]]%lock_cases. Qed.

(** ** It is kept by every step *)

Lemma elem_of_rest (l : list nat) j k x : l !! j = Some k -> x ∈ l -> x = k \/ x ∈ delete j l.
Proof. intros Hj Hx. rewrite (delete_Permutation l j k Hj) in Hx. by apply elem_of_cons in Hx. Qed.

Lemma elem_of_delete (l : list nat) j x : x ∈ delete j l -> x ∈ l.
Proof. intros Hx. eapply elem_of_submseteq; [exact Hx|]. apply sublist_submseteq, sublist_delete. Qed.

(** The schedule only touches the loops. *)
Lemma addSchedule_tracked fd h idx s : tracked s -> tracked (snd (addSchedule fd h idx s)).
Proof.
  intros Ht. unfold addSchedule. destruct (sm_loops s !! _) as [l|]; [|done]. destruct (add_event fd h l).
  eapply tracked_same; [..|exact Ht]; try done. apply Ht.
Qed.

Lemma removeSchedule_tracked fd idx s : tracked s -> tracked (removeSchedule fd idx s).
Proof.
  intros Ht. unfold removeSchedule. destruct (sm_loops s !! _) as [l|]; [|done].
  eapply tracked_same; [..|exact Ht]; try done. apply Ht.
Qed.

Lemma removeSchedule_rest fd idx s :
  sm_sockets (removeSchedule fd idx s) = sm_sockets s /\ sm_list (removeSchedule fd idx s) = sm_list s
  /\ sm_reclaim_list (removeSchedule fd idx s) = sm_reclaim_list s.
Proof. unfold removeSchedule. by destruct (sm_loops s !! _). Qed.

Ltac tracked_rest := eapply tracked_same; [..|eassumption]; [reflexivity..|]; match goal with
  | H : tracked _ |- _ => exact (tr_disconnect _ H)
  | _ => done
  end.

Lemma set_pc_tracked pc s : (forall j k, pc = M_disconnect j k -> sm_list s !! j = Some k) -> tracked s -> tracked (set_pc pc s).
Proof. intros Hpc Ht. tracked_rest. Qed.

Lemma loop_tracked reclaim_fd t s s' : tracked s -> loop_run reclaim_fd t s = Some s' -> tracked s'.
Proof.
  intros Ht. unfold loop_run. destruct (sm_loops s !! t) as [l|]; [|done]. destruct (lp_pc l).
  - destruct (lp_actives l) as [|[k|i] rest]; [done|destruct (sm_sockets s !! k) as [w|]; [|done]; destruct (w_on_read w)|];
      intros [= <-]; tracked_rest.
  - pose proof (removeSchedule_tracked reclaim_fd (Z.of_nat i) s Ht) as Hr.
    destruct (sm_loops (removeSchedule _ _ _) !! t); [|done]. intros [= <-]. tracked_rest.
  - intros [= <-]. tracked_rest.
Qed.

Lemma connect_tracked reclaim_fd fd s s' : tracked s -> connect_step reclaim_fd fd s = Some s' -> tracked s'.
Proof.
  intros Ht. unfold connect_step. destruct (bool_decide _); [done|].
  destruct (addSchedule fd _ (-1) s) as [[] s1] eqn:Ha; [|done]. intros [= <-].
  assert (tracked s1) as [T1 T2 T3 T4 T5] by (change s1 with (snd (true, s1)); rewrite <- Ha; by apply addSchedule_tracked).
  split; cbn; rewrite ?length_app.
  - intros k Hk. apply T1 in Hk. lia.
  - intros k Hk. apply T2 in Hk. lia.
  - intros k w [Hk|[_ Hk]]%lookup_app_Some; [by eapply T3|]. apply list_lookup_singleton_Some in Hk as [_ <-]. done.
  - done.
  - intros k w [Hk|[_ Hk]]%lookup_app_Some; [by eapply T5|]. by apply list_lookup_singleton_Some in Hk as [_ <-].
Qed.

Lemma set_list_tracked k s :
  (forall j k, sm_pc s <> M_disconnect j k) -> (k < length (sm_sockets s))%nat -> tracked s -> tracked (set_list (sm_list s ++ [k]) s).
Proof.
  intros Hpc Hk [T1 T2 T3 T4 T5]. split; cbn; try done.
  - intros x [Hx| ->%list_elem_of_singleton]%elem_of_app; [by apply T1|done].
  - intros x w Hx Ha Ho. destruct (T3 x w Hx Ha Ho); set_solver.
  - intros j x Hx. by destruct (Hpc j x).
Qed.

Lemma watch_tracked k s s' : tracked s -> watch_step k s = Some s' -> tracked s'.
Proof.
  intros Ht. unfold watch_step. destruct (sm_sockets s !! k) as [[fd sh on added owned]|] eqn:Hk; [|by destruct (sm_pc s)].
  assert ((forall j k, sm_pc s <> M_disconnect j k) ->
    tracked (set_sockets (<[k := mk_watched fd sh on true owned]> (sm_sockets s)) (set_list (sm_list s ++ [k]) s))) as Hgoal.
  { intros Hpc. apply (tracked_insert (set_list (sm_list s ++ [k]) s) k _ _ Hk); [exact (tr_lock s Ht k _ Hk)| |].
    - intros _ _. right. left. cbn. set_solver.
    - apply set_list_tracked; [done|by eapply lookup_lt_Some|done]. }
  destruct (sm_pc s) eqn:Hpc; try done; destruct added; try done; intros [= <-]; by apply Hgoal.
Qed.

Lemma release_tracked k s s' : tracked s -> release_step k s = Some s' -> tracked s'.
Proof.
  intros Ht. unfold release_step. destruct (sm_sockets s !! k) as [[fd sh on [] []]|] eqn:Hk; try done. intros [= <-].
  eapply tracked_insert; [exact Hk| | |done]; [|by left]. cbn. apply release_bits. exact (tr_lock s Ht k _ Hk).
Qed.

Lemma manager_tracked reclaim_fd b s s' : tracked s -> manager_step reclaim_fd b s = Some s' -> tracked s'.
Proof.
  intros Ht. unfold manager_step. destruct (sm_pc s) as [|j|j k| |c|c|c j] eqn:Hpc.
  - intros [= <-]. by apply set_pc_tracked.
  - destruct (sm_list s !! j) as [k|] eqn:Hj; [|intros [= <-]; by apply set_pc_tracked].
    destruct (sm_sockets s !! k) as [w|] eqn:Hk; [|done].
    pose proof (socket_tryExclusive_bits (w_sharers w)) as Hb. destruct (socket_tryExclusive _) as [ok sh]. intros [= <-].
    apply set_pc_tracked; [cbn; intros j' k' He; by destruct ok; simplify_eq|].
    eapply tracked_insert; [exact Hk| | |done]; [cbn; apply Hb; exact (tr_lock s Ht k _ Hk)|by left].
  - destruct (sm_sockets s !! k) as [w|] eqn:Hk; [|done]. intros [= <-].
    destruct (removeSchedule_tracked (w_fd w) (-1) s Ht) as [T1 T2 T3 _ T5].
    destruct (removeSchedule_rest (w_fd w) (-1) s) as (Hs & Hl & Hr). set (s1 := removeSchedule _ _ _) in *.
    pose proof (tr_disconnect s Ht j k Hpc) as Hj. rewrite <- Hl in Hj. split; cbn.
    + intros x Hx. apply T1. by eapply elem_of_delete.
    + intros x [Hx| ->%list_elem_of_singleton]%elem_of_app; [by apply T2|]. rewrite Hs. by eapply lookup_lt_Some.
    + intros x v Hx Ha Ho. destruct (T3 x v Hx Ha Ho) as [Hin|Hin]; [|set_solver].
      destruct (elem_of_rest _ _ _ _ Hj Hin) as [->|?]; set_solver.
    + done.
    + done.
  - destruct (sm_reclaim_list s) eqn:Hr; [intros [= <-]; by apply set_pc_tracked|].
    destruct (_ =? 0)%nat; [done|]. intros [= <-]. apply set_pc_tracked; [done|]. tracked_rest.
  - intros [= <-]. apply set_pc_tracked; [done|]. by apply addSchedule_tracked.
  - destruct (sm_reclaim_notify_flag s !! c) as [[]|]; [|destruct b..]; try done; intros [= <-]; by apply set_pc_tracked.
  - destruct (sm_reclaim_list s !! j) as [k|] eqn:Hj; [|intros [= <-]; by apply set_pc_tracked].
    destruct (sm_sockets s !! k) as [w|] eqn:Hk; [|done].
    destruct (bool_decide _); intros [= <-]; [|by apply set_pc_tracked].
    destruct Ht as [T1 T2 T3 T4 T5]. split; cbn; rewrite ?length_insert; try done.
    + intros x Hx. apply T2. by eapply elem_of_delete.
    + intros x v [(_ & <- & _)|[Hne Hx]]%list_lookup_insert_Some; [done|]. intros Ha Ho.
      destruct (T3 x v Hx Ha Ho) as [?|Hin]; [by left|]. destruct (elem_of_rest _ _ _ _ Hj Hin) as [->|?]; [done|by right].
    + intros x v [(_ & <- & _)|[Hne Hx]]%list_lookup_insert_Some; [by apply T5 in Hk|by eapply T5].
Qed.

Lemma step_tracked reclaim_fd timeouts s s' : tracked s -> system_step reclaim_fd timeouts s s' -> tracked s'.
Proof.
  intros Ht Hstep. destruct Hstep as [t fds s1 s2 Hs|t s1 s2 Hs|fd s1 s2 Hs|k s1 s2 Hs|k s1 s2 Hs|b s1 s2 _ Hs].
  - unfold wait_step in Hs. repeat case_match; simplify_eq. tracked_rest.
  - by eapply loop_tracked.
  - by eapply connect_tracked.
  - by eapply watch_tracked.
  - by eapply release_tracked.
  - by eapply manager_tracked.
Qed.

Lemma reachable_tracked reclaim_fd timeouts n s : rtc (system_step reclaim_fd timeouts) (manager_init n) s -> tracked s.
Proof. revert s. apply rtc_ind_r; [apply tracked_init|]. intros s s' _ Hs Ht. by eapply step_tracked. Qed.

(** ** [destroy] *)

(** Two states with the same sockets, up to their locks *)
Definition same_sockets (s s' : manager) : Prop :=
  length (sm_sockets s') = length (sm_sockets s) /\
  forall k w', sm_sockets s' !! k = Some w' ->
    exists w, sm_sockets s !! k = Some w /\ w_fd w' = w_fd w /\ w_on_read w' = w_on_read w /\ w_added w' = w_added w.

Lemma exclusive_upgraded sh :
  0 <= sh < SHARED -> exists sh', (let '(ok, sh) := tryUpgrade sh in if ok then exclusive sh else Some sh) = Some sh' /\ 0 <= sh' < SHARED.
Proof. intros [->|[->|[->| ->]]]%lock_cases; by eexists. Qed.

Lemma collect_sockets_spec l : forall s,
  (forall k, k ∈ l -> (k < length (sm_sockets s))%nat) -> (forall k w, sm_sockets s !! k = Some w -> 0 <= w_sharers w < SHARED) ->
  exists s', collect_sockets l s = Some s' /\ same_sockets s s' /\ sm_reclaim_list s' = sm_reclaim_list s ++ l.
Proof.
  induction l as [|k l IH]; intros s Hl Hlock; cbn [collect_sockets].
  { exists s. rewrite app_nil_r. split_and!; try done. split; [done|]. intros k w Hk. by exists w. }
  destruct (lookup_lt_is_Some_2 (sm_sockets s) k) as [w Hk]; [apply Hl; set_solver|]. rewrite Hk.
  destruct (exclusive_upgraded (w_sharers w)) as (sh & He & Hsh); [by eapply Hlock|]. destruct (tryUpgrade (w_sharers w)) as [ok sh0].
  rewrite He. set (s1 := set_reclaim_list _ _). destruct (IH s1) as (s' & -> & [Hlen Hsame] & Hr).
  - intros x Hx. cbn. rewrite length_insert. apply Hl. set_solver.
  - intros x v [(_ & <- & _)|[_ Hx]]%list_lookup_insert_Some; [done|by eapply Hlock].
  - exists s'. cbn in *. rewrite length_insert in Hlen. split; [done|]. split; [|by rewrite Hr, <- (assoc_L (++))].
    split; [done|]. intros x w' Hx. destruct (Hsame x w' Hx) as (v & [(<- & <- & _)|[_ Hv]]%list_lookup_insert_Some & Hrest); [by exists w|by exists v].
Qed.

Lemma drop_handlers_spec l : forall s,
  (forall k, k ∈ l -> (k < length (sm_sockets s))%nat) ->
  exists s', drop_handlers l s = Some s' /\ sm_list s' = sm_list s
    /\ forall k w', sm_sockets s' !! k = Some w' -> exists w, sm_sockets s !! k = Some w /\ w_fd w' = w_fd w /\ w_added w' = w_added w
      /\ w_on_read w' = (if bool_decide (k ∈ l) then false else w_on_read w).
Proof.
  induction l as [|k l IH]; intros s Hl; cbn [drop_handlers].
  { exists s. split_and!; try done. intros k w Hk. by exists w. }
  destruct (lookup_lt_is_Some_2 (sm_sockets s) k) as [w Hk]; [apply Hl; set_solver|]. rewrite Hk.
  set (s1 := set_sockets _ _). destruct (IH s1) as (s' & -> & Hlist & Hs).
  - intros x Hx. cbn. rewrite length_insert. apply Hl. set_solver.
  - exists s'. split_and!; [done|done|]. intros x w' Hx. destruct (Hs x w' Hx) as (v & Hv & Hfd & Ha & Ho). cbn in Hv.
    apply list_lookup_insert_Some in Hv as [(<- & <- & _)|[Hne Hv]].
    + exists w. split_and!; try done. rewrite (bool_decide_true (k ∈ k :: l)) by set_solver. rewrite Ho. by destruct (bool_decide _).
    + exists v. split_and!; try done. rewrite Ho.
      by rewrite (bool_decide_ext (x ∈ l) (x ∈ k :: l)) by set_solver.
Qed.

(** ** Properties *)

(** C14: however the manager, the loops and the channels have run, with or
    without timeouts, [SocketManager::destroy], called once the manager's thread
    has ended its last round, returns without waiting for a lock, leaves no
    socket in its lists, and clears the handler of every socket it was ever
    given to watch, whether its channel still owns it or not: none of them
    refers to itself any more. *)
Theorem destroy_lets_go (reclaim_fd n : nat) (timeouts : bool) (s : manager) :
  rtc (system_step reclaim_fd timeouts) (manager_init n) s -> sm_pc s = M_idle ->
  exists s', destroy_manager s = Some s' /\ sm_list s' = [] /\ sm_reclaim_list s' = []
    /\ forall k w, sm_sockets s' !! k = Some w -> w_added w = true -> w_on_read w = false.
Proof.
  intros Hr _. apply reachable_tracked in Hr as [T1 T2 T3 _ T5]. unfold destroy_manager.
  destruct (collect_sockets_spec (sm_list s) s T1 T5) as (s1 & -> & [Hlen Hs1] & Hrec). cbn [mbind option_bind].
  destruct (drop_handlers_spec (sm_reclaim_list s1) (set_list [] s1)) as (s2 & -> & Hl2 & Hs2).
  { intros k Hk. cbn. rewrite Hlen. rewrite Hrec in Hk. apply elem_of_app in Hk as [Hk|Hk]; [by apply T2|by apply T1]. }
  cbn [mbind option_bind]. eexists. split_and!; [done|done|done|]. intros k w2 Hk Ha.
  destruct (Hs2 k w2 Hk) as (w1 & Hk1 & _ & Ha1 & Ho1). destruct (Hs1 k w1 Hk1) as (w & Hk0 & _ & Ho & Ha0).
  rewrite Ho1. case_bool_decide as Hin; [done|]. rewrite Ho. destruct (w_on_read w) eqn:E; [|done]. exfalso. apply Hin.
  rewrite Hrec. apply elem_of_app. destruct (T3 k w Hk0) as [?|?]; [congruence|done|by right|by left].
Qed.

(** A socket its channel has surrendered, one it has not, and one that waits to
    be reclaimed *)
Definition shutdown_run : list action :=
  [Do_connect 6; Do_watch 0; Do_connect 7; Do_watch 1; Do_connect 8; Do_watch 2; Do_release 0]
  ++ replicate 8 (Do_manager false) ++ [Do_manager true; Do_release 2].
Definition before_shutdown : manager := default (manager_init 2) (do_actions 4 shutdown_run (manager_init 2)).

Lemma destroy_lets_go_witness :
  sm_list before_shutdown = [1; 2]%nat /\ sm_reclaim_list before_shutdown = [0]%nat
  /\ exists s', destroy_manager before_shutdown = Some s' /\ sm_reclaim_list s' = [].
Proof.
  split; [vm_compute; reflexivity|]. split; [vm_compute; reflexivity|].
  destruct (destroy_lets_go 4 2 true before_shutdown) as (s' & Hd & _ & Hr & _).
  - apply (do_actions_run 4 true shutdown_run); [done|vm_compute; reflexivity].
  - vm_compute. reflexivity.
  - exists s'. exact (conj Hd Hr).
Defined.

(** [globalDestroy] stops the loop threads first: when the manager is about to
    reclaim a socket then, [_reclaim_counter++ % schedule_size] divides by zero. *)
Lemma no_threads_to_reclaim reclaim_fd b s :
  sm_pc s = M_reclaim -> sm_reclaim_list s <> [] -> manager_step reclaim_fd b (set_loops [] s) = None.
Proof. intros Hpc Hr. unfold manager_step. cbn. rewrite Hpc. by destruct (sm_reclaim_list s). Qed.
