(* ===== verification/Heartbeat.v ===== *)
(** * Heartbeats (src/tcp/socket_manager.cpp, the third part of watchConnections)

    The manager's thread sends a heartbeat on every watched socket that has
    been idle, as a session of its own (SendSession), and marks the sockets that
    do not answer. *)

From stdpp Require Import gmap.
From S2P Require Import Prelude CommonDefines Bolt BoltResponse SendSession.

Section Heartbeat.
(** The responses of a protocol *)
Context {Response : Type}.

(** [struct Protocol] as heartbeats need it: how it sends, and the two
    pointers; what [assemble_heartbeat_fn] answers *)
Record HeartbeatProtocol := mk_hp {
  hp_send : SendProtocol;
  assemble_heartbeat_fn : option bool;
  parse_heartbeat_fn : option (Response -> bool)
}.

(** A socket of the local [sockets]: [_status], [_last_active_time_us],
    [_protocol] *)
Record idle_socket := mk_idle {
  is_status : ERpcStatus;
  is_last_active_time_us : Z;
  is_protocol : option HeartbeatProtocol
}.

(** [Socket::active] *)
Definition beating (s : idle_socket) : bool := bool_decide (is_status s = RPC_STATUS_OK).

(** [Socket::setStatus] *)
Definition mark_socket (st : ERpcStatus) (s : idle_socket) : idle_socket := mk_idle st (is_last_active_time_us s) (is_protocol s).

(** For one socket: the clock, what the session meets, and the response it
    leaves *)
Record beat := mk_beat { b_now : Z; b_attempt : attempt; b_response : Response }.

Definition heartbeat_session (p : SendProtocol) : Session :=
  receiveTo (set_timeout SOCKET_TIMEOUT_MS (to_socket (Some p) (send new_Session))).

(** [None]: a null function is called, or the arithmetic of the session
    overflows *)
Definition heartbeat (b : beat) (s : idle_socket) (w : world) : option (idle_socket * world) :=
  if negb (beating s) then Some (s, w)
  else if negb (SOCKET_MAX_IDLE_US <? u64 (b_now b - is_last_active_time_us s)) then Some (s, w)
  else
    match is_protocol s with
    | None => Some (s, w)
    | Some p =>
        match assemble_heartbeat_fn p with
        | None | Some false => Some (s, w)
        | Some true =>
            match sync (fun _ => b_attempt b) (heartbeat_session (hp_send p)) w with
            | None => None
            | Some (ss, w) =>
                if failed ss then Some (mark_socket RPC_STATUS_SOCKET_CONNECT_FAIL s, w)
                else
                  match parse_heartbeat_fn p with
                  | None => None
                  | Some parse =>
                      if negb (parse (b_response b)) then Some (mark_socket RPC_STATUS_SOCKET_CONNECT_FAIL s, w) else Some (s, w)
                  end
            end
        end
    end.

(** [for (auto& socket : sockets)] *)
Fixpoint heartbeats (l : list (beat * idle_socket)) (w : world) : option (list idle_socket * world) :=
  match l with
  | [] => Some ([], w)
  | (b, s) :: l =>
      match heartbeat b s w with
      | None => None
      | Some (s, w) => match heartbeats l w with Some (l, w) => Some (s :: l, w) | None => None end
      end
  end.

(** ** What a round does *)

(** A heartbeat is sent on the socket, by this protocol. *)
Definition due (b : beat) (s : idle_socket) : option HeartbeatProtocol :=
  if beating s && (SOCKET_MAX_IDLE_US <? u64 (b_now b - is_last_active_time_us s)) then
    match is_protocol s with
    | Some p => match assemble_heartbeat_fn p with Some true => Some p | _ => None end
    | None => None
    end
  else None.

(** A protocol that assembles heartbeats can check them. *)
Definition paired (s : idle_socket) : Prop :=
  forall p, is_protocol s = Some p -> is_Some (assemble_heartbeat_fn p) -> is_Some (parse_heartbeat_fn p).

(** The peer has answered, and as a heartbeat is answered. *)
Definition answered (p : HeartbeatProtocol) (id : Z) (b : beat) : bool :=
  bool_decide (attempt_error false (heartbeat_session (hp_send p)) id (b_attempt b) = SESSION_OK)
  && match parse_heartbeat_fn p with Some parse => parse (b_response b) | None => false end.

Definition status_after (id : Z) (b : beat) (s : idle_socket) : ERpcStatus :=
  match due b s with
  | Some p => if answered p id b then RPC_STATUS_OK else RPC_STATUS_SOCKET_CONNECT_FAIL
  | None => is_status s
  end.

(** The session id after a socket, and before the [i]-th one *)
Definition id_after (id : Z) (x : beat * idle_socket) : Z :=
  match due (fst x) (snd x) with
  | Some p => next_id (heartbeat_session (hp_send p)) (b_attempt (fst x)) id
  | None => id
  end.
Definition id_before (l : list (beat * idle_socket)) (id : Z) (i : nat) : Z := fold_left id_after (take i l) id.

Lemma heartbeat_sync p a w :
  exists ss, sync (fun _ => a) (heartbeat_session p) w =
      Some (ss, mk_world (next_id (heartbeat_session p) a (w_session_id w))
                  (w_sent w ++ option_list (attempt_sent false (heartbeat_session p) (w_session_id w) a)))
    /\ _error_code ss = attempt_error false (heartbeat_session p) (w_session_id w) a.
Proof.
  destruct (sendInternal_spec a None (heartbeat_session p) w) as (ss & Hs & _ & He); [done|].
  exists ss. split; [|by apply He]. unfold sync, sendInternalWithRetry. change (retries (heartbeat_session p)) with 1%nat.
  cbn [retry_loop]. change (set_error SESSION_OK (heartbeat_session p)) with (heartbeat_session p). rewrite Hs.
  by destruct (reaches _ _ _), (final _).
Qed.

Lemma heartbeat_spec b s w :
  paired s ->
  exists w', heartbeat b s w = Some (mark_socket (status_after (w_session_id w) b s) s, w')
    /\ w_session_id w' = id_after (w_session_id w) (b, s)
    /\ w_sent w' = w_sent w ++ match due b s with
                              | Some p => option_list (attempt_sent false (heartbeat_session (hp_send p)) (w_session_id w) (b_attempt b))
                              | None => [] end.
Proof.
  intros Hp. assert (mark_socket (is_status s) s = s) as Hid by (by destruct s). unfold heartbeat, status_after, id_after, due. cbn [fst snd].
  destruct (beating s) eqn:Ha; cbn [negb andb]; [|exists w; rewrite Hid, app_nil_r; by split_and!].
  apply bool_decide_eq_true_1 in Ha. destruct (_ <? _); cbn [negb]; [|exists w; rewrite Hid, app_nil_r; by split_and!].
  destruct (is_protocol s) as [p|] eqn:Ep; [|exists w; rewrite Hid, app_nil_r; by split_and!].
  destruct (assemble_heartbeat_fn p) as [[]|] eqn:Ea; [|exists w; rewrite Hid, app_nil_r; by split_and!..].
  destruct (heartbeat_sync (hp_send p) (b_attempt b) w) as (ss & -> & He). unfold failed, answered. rewrite He.
  destruct (Hp p Ep) as [parse ->]; [by rewrite Ea|].
  destruct (bool_decide (attempt_error _ _ _ _ = SESSION_OK)); cbn [negb andb]; [|by eexists].
  destruct (parse (b_response b)); cbn [negb]; eexists; [|done]. by rewrite <- Ha, Hid.
Qed.

Lemma length_option_list {A} (o : option A) : (length (option_list o) <= 1)%nat.
Proof. destruct o; cbn; lia. Qed.

(** C17: a round of heartbeats over the watched sockets. It always returns, at
    most one request is sent per socket, and none on a socket that is inactive,
    was active within the last 15 seconds, or has a protocol without heartbeats:
    such a socket keeps its status. On every other socket, exactly when the
    session succeeds and the response is that of a heartbeat, the socket stays
    active; else its status becomes a failed connection, so that its channel
    replaces it. *)
Theorem heartbeat_outcome (l : list (beat * idle_socket)) (w : world) :
  Forall (fun x => paired (snd x)) l ->
  exists l' w', heartbeats l w = Some (l', w') /\ length l' = length l
    /\ (forall i b s, l !! i = Some (b, s) -> l' !! i = Some (mark_socket (status_after (id_before l (w_session_id w) i) b s) s))
    /\ (length (w_sent w') <= length (w_sent w) + length (omap (fun x => due (fst x) (snd x)) l))%nat.
Proof.
  revert w. induction l as [|[b s] l IH]; intros w Hl; cbn [heartbeats].
  { exists [], w. split_and!; [done|done|done|cbn; lia]. }
  apply Forall_cons_1 in Hl as [Hp Hl]. cbn in Hp. destruct (heartbeat_spec b s w Hp) as (w1 & -> & Hid & Hw1).
  destruct (IH w1 Hl) as (l' & w' & -> & Hlen & Hst & Hw). eexists (_ :: l'), w'. split_and!; [done|cbn; by f_equal| |].
  - intros [|i] b' s' Hi; [|unfold id_before; cbn; rewrite <- Hid; by apply Hst].
    by injection Hi as <- <-.
  - rewrite Hw1, length_app in Hw. cbn [omap list_omap fst snd]. destruct (due b s) as [p|]; [|cbn in Hw; lia].
    pose proof (length_option_list (attempt_sent false (heartbeat_session (hp_send p)) (w_session_id w) (b_attempt b))).
    cbn [length]. lia.
Qed.

End Heartbeat.
Arguments HeartbeatProtocol Response : clear implicits.
Arguments idle_socket Response : clear implicits.
Arguments beat Response : clear implicits.

(** ** The registered protocols *)

(** [s_global_initializer]: Bolt has heartbeats, HTTP has none. *)
Definition bolt_heartbeat {Msg} (p : SendProtocol) : HeartbeatProtocol (BoltResponse Msg) :=
  mk_hp p (Some (snd (@assembleHeartbeatRequest Msg))) (Some (fun r => parseHeartbeatResponse (Some r))).

Definition http_heartbeat {Response} (p : SendProtocol) : HeartbeatProtocol Response := mk_hp p None None.

(** Both keep to the interface of the manager. *)
Lemma registered_paired {Msg} st last p :
  paired (mk_idle st last (Some (@bolt_heartbeat Msg p))) /\ paired (mk_idle st last (Some (@http_heartbeat (BoltResponse Msg) p))).
Proof. split; intros q [= <-]; [by eexists|by intros []]. Qed.

(** An idle Bolt socket stays active when the heartbeat is answered with SUCCESS. *)
Lemma bolt_stays_active {Msg} (p : SendProtocol) (id last : Z) (b : beat (BoltResponse Msg)) (h : BoltHeader) :
  SOCKET_MAX_IDLE_US < u64 (b_now b - last) ->
  attempt_error false (heartbeat_session p) id (b_attempt b) = SESSION_OK -> rs_header (b_response b) = Some h ->
  status_after id b (mk_idle RPC_STATUS_OK last (Some (bolt_heartbeat p))) = RPC_STATUS_OK
  <-> h_cmdcode h = BOLT_PROTOCOL_CMD_HEARTBEAT /\ h_status h = SUCCESS.
Proof.
  intros Hidle He Hh. unfold status_after, due. cbn -[Z.ltb u64]. rewrite (proj2 (Z.ltb_lt _ _) Hidle).
  unfold beating, answered. cbn [is_status]. rewrite (bool_decide_true (RPC_STATUS_OK = RPC_STATUS_OK)) by done.
  cbn [andb bolt_heartbeat hp_send parse_heartbeat_fn parseHeartbeatResponse]. rewrite bool_decide_true by done.
  unfold isHeartbeat, status. rewrite Hh. cbn [andb fmap option_fmap option_map].
  destruct (Z.eqb_spec (h_cmdcode h) BOLT_PROTOCOL_CMD_HEARTBEAT) as [Hc|Hc]; cbn [andb]; [|split; [done|by intros [? _]]].
  case_bool_decide as Hs; split; try done; [intros _; split; [done|by injection Hs]|]. intros [_ E]. by destruct Hs; f_equal.
Qed.

(** A Bolt socket whose peer answers, one whose peer does not, an active one
    and an HTTP socket *)
Definition silent_attempt (r : ESessionError) : attempt := mk_attempt false 1000 true 5 0 (fun _ => true) r PARSE_OK.
Definition heartbeat_header (code : Z) : BoltHeader :=
  mk_BoltHeader BOLT_PROTOCOL_TYPE BOLT_PROTOCOL_RESPONSE BOLT_PROTOCOL_CMD_HEARTBEAT 1 7 1 code 0 0 0.
Definition heartbeat_response (code : Z) : BoltResponse unit := mk_BoltResponse (Some (heartbeat_header code)) [] ∅ RS_NONE.
Definition heartbeat_round : list (beat (BoltResponse unit) * idle_socket (BoltResponse unit)) :=
  let b r := mk_beat 20000000 (silent_attempt r) (heartbeat_response SUCCESS) in
  [ (b SESSION_OK, mk_idle RPC_STATUS_OK 1000 (Some (bolt_heartbeat sample_protocol)));
    (b READ_TIMEOUT, mk_idle RPC_STATUS_OK 1000 (Some (bolt_heartbeat sample_protocol)));
    (b READ_TIMEOUT, mk_idle RPC_STATUS_OK 19000000 (Some (bolt_heartbeat sample_protocol)));
    (b READ_TIMEOUT, mk_idle RPC_STATUS_OK 1000 (Some (http_heartbeat sample_protocol))) ].

Definition round_statuses {R} (o : option (list (idle_socket R) * world)) : option (list ERpcStatus) :=
  match o with Some (l, _) => Some (map is_status l) | None => None end.

Lemma heartbeat_outcome_witness :
  exists l' w', heartbeats heartbeat_round first_world = Some (l', w')
    /\ map is_status l' = [RPC_STATUS_OK; RPC_STATUS_SOCKET_CONNECT_FAIL; RPC_STATUS_OK; RPC_STATUS_OK]
    /\ (length (w_sent w') <= 2)%nat.
Proof.
  destruct (heartbeat_outcome heartbeat_round first_world) as (l' & w' & Hr & _ & _ & Hw).
  - repeat constructor; apply registered_paired.
  - exists l', w'. split; [exact Hr|]. split; [|exact Hw].
    assert (round_statuses (heartbeats heartbeat_round first_world) =
      Some [RPC_STATUS_OK; RPC_STATUS_SOCKET_CONNECT_FAIL; RPC_STATUS_OK; RPC_STATUS_OK]) as Hst by (vm_compute; reflexivity).
    rewrite Hr in Hst. injection Hst as Hst. exact Hst.
Defined.
