(* ===== verification/ConcurrentMap.v ===== *)
(** * The hash map under concurrent clients (include/common/concurrent_hash_map.h)

    [put], [exchange], [get] and [erase] access by access: the loops that take
    the [LifeCycleLock] of a bucket, the walk along [hash_next], the write, the
    two accesses of [++_element_size], and the release. Any number of clients
    are interleaved. HashMap has the same operations as one step each; here they
    are shown to be no more than that. *)

From stdpp Require Import gmap relations.
From S2P Require Import Prelude LifeCycleLock HashMap.

Section Concurrent.
Context {K : Type} `{Countable K} {V : Type}.
(** [std::hash<K>], [_bucket_size], [_lock_size] *)
Context (hasher : K -> Z) (nb nl : nat).

Local Abbreviation op := (@map_op K V).
Local Abbreviation answer := (bool * option V)%type.

(** ** Operations and where they are *)

Definition op_key (o : op) : K :=
  match o with Op_put k _ | Op_exchange k _ | Op_get k | Op_erase k => k end.

Definition is_writer (o : op) : bool := match o with Op_get _ => false | _ => true end.

(** [get_entry]: the bucket and its lock *)
Definition cm_offset (o : op) : nat := Z.to_nat (hasher (op_key o) mod Z.of_nat nb).
Definition cm_lock_offset (o : op) : nat := (cm_offset o mod nl)%nat.

(** The next access of an operation *)
Inductive cm_pc : Type :=
| P_upgrade                                  (* lock->tryUpgrade() *)
| P_exclusive                                (* lock->tryExclusive() *)
| P_share                                    (* lock->share() *)
| P_unshare                                  (* the second access of a failed tryShared *)
| P_walk (j : nat)                           (* while ( *p ), p after j nodes *)
| P_found (j : nat)                          (* the j-th node has the key *)
| P_end (j : nat)                            (* *p = new HashNode *)
| P_load (up : bool) (r : answer)            (* ++_element_size, --_element_size: the load *)
| P_store (n : Z) (r : answer)               (* the store *)
| P_release (r : answer).                    (* releaseExclusive, releaseShared; return *)

Inductive cm_client : Type := Idle | Busy (o : op) (pc : cm_pc).

(** What happened: a call, the moment an operation takes effect, a return *)
Inductive cm_event : Type :=
| E_call (i : nat) (o : op)
| E_effect (i : nat) (o : op) (r : answer)
| E_return (i : nat) (r : answer).

Record cmap := mk_cmap {
  cm_buckets : list (chain K V);
  cm_locks : list Z;
  cm_element_size : Z;
  cm_clients : list cm_client;
  cm_log : list cm_event
}.

Definition new_cmap (clients : nat) : cmap :=
  mk_cmap (replicate nb []) (replicate nl 0) 0 (replicate clients Idle) [].

Definition cm_set_bucket (e : nat) (c : chain K V) (s : cmap) : cmap :=
  mk_cmap (<[e := c]> (cm_buckets s)) (cm_locks s) (cm_element_size s) (cm_clients s) (cm_log s).
Definition cm_set_lock (l : nat) (bits : Z) (s : cmap) : cmap :=
  mk_cmap (cm_buckets s) (<[l := bits]> (cm_locks s)) (cm_element_size s) (cm_clients s) (cm_log s).
Definition cm_set_size (n : Z) (s : cmap) : cmap :=
  mk_cmap (cm_buckets s) (cm_locks s) n (cm_clients s) (cm_log s).
Definition cm_set_client (i : nat) (c : cm_client) (s : cmap) : cmap :=
  mk_cmap (cm_buckets s) (cm_locks s) (cm_element_size s) (<[i := c]> (cm_clients s)) (cm_log s).
Definition cm_record (e : cm_event) (s : cmap) : cmap :=
  mk_cmap (cm_buckets s) (cm_locks s) (cm_element_size s) (cm_clients s) (cm_log s ++ [e]).

(** The operation takes effect, and goes on at [pc]. *)
Definition cm_effect (i : nat) (o : op) (r : answer) (pc : cm_pc) (s : cmap) : cmap :=
  cm_record (E_effect i o r) (cm_set_client i (Busy o pc) s).

(** The walk has found the key in the [j]-th node. *)
Definition found_step (i : nat) (o : op) (j : nat) (c : chain K V) (s : cmap) : option cmap :=
  match c !! j with
  | None => None
  | Some (k, old) =>
      match o with
      | Op_put _ _ => None
      | Op_exchange _ v =>
          let r := (true, Some old) in
          Some (cm_effect i o r (P_release r) (cm_set_bucket (cm_offset o) (<[j := (k, v)]> c) s))
      | Op_get _ => let r := (true, Some old) in Some (cm_effect i o r (P_release r) s)
      | Op_erase _ =>
          let r := (true, None) in
          Some (cm_effect i o r (P_load false r) (cm_set_bucket (cm_offset o) (delete j c) s))
      end
  end.

(** [while ( *p )]: reads the next node, or sees that there is none *)
Definition walk_step (i : nat) (o : op) (j : nat) (c : chain K V) (s : cmap) : cmap :=
  match c !! j with
  | None =>
      match o with
      | Op_put _ _ | Op_exchange _ _ => cm_set_client i (Busy o (P_end j)) s
      | Op_get _ | Op_erase _ => let r := (false, None) in cm_effect i o r (P_release r) s
      end
  | Some (k, _) =>
      if decide (k = op_key o) then
        match o with
        | Op_put _ _ => let r := (false, None) in cm_effect i o r (P_release r) s
        | _ => cm_set_client i (Busy o (P_found j)) s
        end
      else cm_set_client i (Busy o (P_walk (S j))) s
  end.

(** [*p = new HashNode(key, value)], [p] being the link after [j] nodes *)
Definition end_step (i : nat) (o : op) (j : nat) (c : chain K V) (s : cmap) : option cmap :=
  let s' v := cm_set_bucket (cm_offset o) (take j c ++ [(op_key o, v)]) s in
  match o with
  | Op_put _ v => let r := (true, None) in Some (cm_effect i o r (P_load true r) (s' v))
  | Op_exchange _ v => let r := (false, Some v) in Some (cm_effect i o r (P_load true r) (s' v))
  | _ => None
  end.

Definition cm_goto (i : nat) (o : op) (pc : cm_pc) (s : cmap) : cmap := cm_set_client i (Busy o pc) s.

(** The next access of client [i]; [None]: it has no operation, or follows a
    pointer to no node *)
Definition cm_run (i : nat) (s : cmap) : option cmap :=
  match cm_clients s !! i with
  | None | Some Idle => None
  | Some (Busy o pc) =>
      let l := cm_lock_offset o in
      match cm_locks s !! l, cm_buckets s !! cm_offset o with
      | Some bits, Some c =>
          match pc with
          | P_upgrade =>
              let '(ok, bits) := tryUpgrade bits in
              Some (cm_goto i o (if ok then P_exclusive else P_upgrade) (cm_set_lock l bits s))
          | P_exclusive =>
              let '(ok, bits) := tryExclusive bits in
              Some (cm_goto i o (if ok then P_walk 0 else P_upgrade) (cm_set_lock l bits s))
          | P_share =>
              let '(ok, bits) := tryShared bits in
              Some (cm_goto i o (if ok then P_walk 0 else P_unshare) (cm_set_lock l bits s))
          | P_unshare => Some (cm_goto i o P_share (cm_set_lock l (releaseShared bits) s))
          | P_walk j => Some (walk_step i o j c s)
          | P_found j => found_step i o j c s
          | P_end j => end_step i o j c s
          | P_load up r => Some (cm_goto i o (P_store (u64 (cm_element_size s + (if up then 1 else -1))) r) s)
          | P_store n r => Some (cm_goto i o (P_release r) (cm_set_size n s))
          | P_release r =>
              let bits := if is_writer o then releaseExclusive bits else releaseShared bits in
              Some (cm_record (E_return i r) (cm_set_client i Idle (cm_set_lock l bits s)))
          end
      | _, _ => None
      end
  end.

(** A client that has no operation calls one. *)
Definition cm_call (i : nat) (o : op) (s : cmap) : option cmap :=
  match cm_clients s !! i with
  | Some Idle =>
      Some (cm_record (E_call i o) (cm_set_client i (Busy o (if is_writer o then P_upgrade else P_share)) s))
  | _ => None
  end.

Inductive cm_step : cmap -> cmap -> Prop :=
| Cm_call i o s s' : cm_call i o s = Some s' -> cm_step s s'
| Cm_run i s s' : cm_run i s = Some s' -> cm_step s s'.

(** ** The abstract history *)

(** The operations in the order in which they take effect *)
Definition effects (log : list cm_event) : list (op * answer) :=
  omap (fun e => match e with E_effect _ o r => Some (o, r) | _ => None end) log.

(** What a client is doing according to the log: every operation takes effect
    once, between its call and its return, and returns the answer it then had. *)
Inductive phase : Type := Ph_idle | Ph_called (o : op) | Ph_done (o : op) (r : answer).

Definition event_client (e : cm_event) : nat :=
  match e with E_call i _ | E_effect i _ _ | E_return i _ => i end.

Inductive client_log (i : nat) : list cm_event -> phase -> Prop :=
| Cl_nil : client_log i [] Ph_idle
| Cl_other log e p : client_log i log p -> event_client e <> i -> client_log i (log ++ [e]) p
| Cl_call log o : client_log i log Ph_idle -> client_log i (log ++ [E_call i o]) (Ph_called o)
| Cl_effect log o r : client_log i log (Ph_called o) -> client_log i (log ++ [E_effect i o r]) (Ph_done o r)
| Cl_return log o r : client_log i log (Ph_done o r) -> client_log i (log ++ [E_return i r]) Ph_idle.

(** The phase the place of a client says it is in *)
Definition client_phase (c : cm_client) : phase :=
  match c with
  | Idle => Ph_idle
  | Busy o (P_load _ r) | Busy o (P_store _ r) | Busy o (P_release r) => Ph_done o r
  | Busy o _ => Ph_called o
  end.

(** ** What a client holds *)

Definition cm_held (o : op) (pc : cm_pc) : thread :=
  match pc with
  | P_upgrade | P_share => T_idle
  | P_exclusive => T_upgraded
  | P_unshare => T_trying
  | _ => if is_writer o then T_exclusive else T_shared
  end.

(** Of the lock [l] *)
Definition cm_view (l : nat) (c : cm_client) : thread :=
  match c with
  | Idle => T_idle
  | Busy o pc => if decide (cm_lock_offset o = l) then cm_held o pc else T_idle
  end.

Definition cm_lock_view (l : nat) (bits : Z) (s : cmap) : lock_system := mk_lock_system bits (cm_view l <$> cm_clients s).

(** The access a client makes is one its kind of operation has. *)
Definition pc_kind (o : op) (pc : cm_pc) : Prop :=
  match pc with
  | P_upgrade | P_exclusive | P_load _ _ | P_store _ _ => is_writer o = true
  | P_share | P_unshare => is_writer o = false
  | _ => True
  end.

(** What a client knows of the chain of its bucket *)
Definition walked (o : op) (pc : cm_pc) (c : chain K V) : Prop :=
  match pc with
  | P_walk j => (j <= length c)%nat /\ (op_key o ∉ (take j c).*1)
  | P_found j => (op_key o ∉ (take j c).*1) /\ (exists v, c !! j = Some (op_key o, v))
      /\ match o with Op_put _ _ => False | _ => True end
  | P_end j => j = length c /\ (op_key o ∉ c.*1) /\ match o with Op_put _ _ | Op_exchange _ _ => True | _ => False end
  | _ => True
  end.

Definition client_ok (bs : list (chain K V)) (log : list cm_event) (i : nat) (c : cm_client) : Prop :=
  client_log i log (client_phase c) /\
  match c with
  | Idle => True
  | Busy o pc => pc_kind o pc /\ forall ch, bs !! cm_offset o = Some ch -> walked o pc ch
  end.

(** The buckets as a map of HashMap; the size is what it should be *)
Definition as_map (bs : list (chain K V)) : hash_map :=
  let m := mk_hash_map bs (Z.of_nat nb) 0 in mk_hash_map bs (Z.of_nat nb) (u64 (Z.of_nat (size (hm_map m)))).

Definition cm_map (s : cmap) : gmap K V := hm_map (as_map (cm_buckets s)).

Record cm_ok (s : cmap) : Prop := {
  co_locks : length (cm_locks s) = nl;
  co_clients : Z.of_nat (length (cm_clients s)) < 2 ^ 28 - 1;
  co_lock : forall l bits, cm_locks s !! l = Some bits -> lock_ok (cm_lock_view l bits s);
  co_buckets : hm_ok hasher (as_map (cm_buckets s));
  co_client : forall i c, cm_clients s !! i = Some c -> client_ok (cm_buckets s) (cm_log s) i c;
  co_effects : run_ops spec_op (effects (cm_log s)).*1 ∅ = (cm_map s, (effects (cm_log s)).*2)
}.

(** ** Moving one client *)

Lemma lift_access i (ts : list thread) t bits t' bits' a :
  ts !! i = Some t -> thread_step a t bits = Some (t', bits') ->
  rtc lock_step (mk_lock_system bits ts) (mk_lock_system bits' (<[i := t']> ts)).
Proof. intros Hi Ha. apply rtc_once. by eapply lock_access. Qed.

(** The lock of an operation, when a client makes one access to it *)
Lemma access_lock i s o pc pc' l bits bits' a :
  cm_clients s !! i = Some (Busy o pc) -> cm_lock_offset o = l ->
  Z.of_nat (length (cm_clients s)) < 2 ^ 28 - 1 -> lock_ok (cm_lock_view l bits s) ->
  thread_step a (cm_held o pc) bits = Some (cm_held o pc', bits') ->
  lock_ok (cm_lock_view l bits' (cm_set_client i (Busy o pc') s)).
Proof.
  intros Hi Hl Hlen Hok Ha. unfold cm_lock_view. cbn. rewrite list_fmap_insert. cbn. rewrite decide_True by done.
  eapply lock_reach_ok; [|exact Hok|unfold cm_lock_view, zlen; cbn; by rewrite length_fmap].
  apply (lift_access i _ (cm_held o pc) _ _ _ a); [|done]. rewrite list_lookup_fmap, Hi. cbn. by rewrite decide_True.
Qed.

(** A client that moves without changing what it holds *)
Lemma same_view i s c c' l bits :
  cm_clients s !! i = Some c -> cm_view l c' = cm_view l c -> lock_ok (cm_lock_view l bits s) -> lock_ok (cm_lock_view l bits (cm_set_client i c' s)).
Proof.
  intros Hi Hv Hok. unfold cm_lock_view. cbn. rewrite list_fmap_insert, Hv, list_insert_id; [done|]. by rewrite list_lookup_fmap, Hi.
Qed.

Lemma insert_clients {A} (P : nat -> A -> Prop) (l : list A) i c :
  (forall j d, j <> i -> l !! j = Some d -> P j d) -> P i c -> forall j d, <[i := c]> l !! j = Some d -> P j d.
Proof. intros Hl Hc j d [(<- & <- & _)|[Hne Hj]]%list_lookup_insert_Some; [done|]. by apply Hl. Qed.

(** A client that holds a lock exclusively is alone with its bucket. *)
Lemma runs_alone s i j o pc o' pc' :
  cm_ok s -> (0 < nl)%nat -> i <> j -> cm_clients s !! i = Some (Busy o pc) -> cm_held o pc = T_exclusive ->
  cm_clients s !! j = Some (Busy o' pc') -> cm_offset o' = cm_offset o -> cm_held o' pc' <> T_exclusive /\ cm_held o' pc' <> T_shared.
Proof.
  intros Hok Hnl Hij Hi Hx Hj Hoff. assert (cm_lock_offset o' = cm_lock_offset o) as Hl by (unfold cm_lock_offset; by rewrite Hoff).
  destruct (lookup_lt_is_Some_2 (cm_locks s) (cm_lock_offset o)) as [bits Hb];
    [rewrite (co_locks s Hok); apply Nat.mod_upper_bound; lia|].
  assert (forall k q qc, cm_lock_offset q = cm_lock_offset o -> cm_clients s !! k = Some (Busy q qc) ->
    ls_threads (cm_lock_view (cm_lock_offset o) bits s) !! k = Some (cm_held q qc)) as Hview.
  { intros k q qc Hq Hk. cbn. rewrite list_lookup_fmap, Hk. cbn. by rewrite decide_True. }
  pose proof (Hview i o pc eq_refl Hi) as Hi'. pose proof (Hview j o' pc' Hl Hj) as Hj'. rewrite Hx in Hi'.
  destruct (exclusive_alone _ i j _ (co_lock s Hok _ _ Hb) Hi' Hij Hj') as (? & ? & _). done.
Qed.

(** ** The operations on a chain *)

Definition chain_op (o : op) (c : chain K V) : chain K V * answer :=
  match o with
  | Op_put k v => let '(c, ret) := put_nolock c k v in (c, (ret, None))
  | Op_exchange k v => let '(c, ret, out) := exchange_nolock c k v in (c, (ret, Some out))
  | Op_get k => (c, match get_nolock c k with Some v => (true, Some v) | None => (false, None) end)
  | Op_erase k => let '(c, ret) := erase_nolock c k in (c, (ret, None))
  end.

Lemma run_op_chain o bs c c' r :
  bs !! cm_offset o = Some c -> chain_op o c = (c', r) ->
  hm_buckets (fst (run_op hasher o (as_map bs))) = <[cm_offset o := c']> bs /\ snd (run_op hasher o (as_map bs)) = r.
Proof.
  intros Hc Hr. assert (bucket hasher (op_key o) (as_map bs) = c) as Hb by (unfold bucket, get_entry; cbn; fold (cm_offset o); by rewrite Hc).
  destruct o as [k v|k v|k|k]; cbn [run_op op_key chain_op] in *; unfold hm_put, hm_exchange, hm_get, hm_erase; rewrite Hb.
  - destruct (put_nolock c k v) as [d ret]. by injection Hr as <- <-.
  - destruct (exchange_nolock c k v) as [[d ret] out]. by injection Hr as <- <-.
  - injection Hr as <- <-. by rewrite list_insert_id.
  - destruct (erase_nolock c k) as [d ret]. by injection Hr as <- <-.
Qed.

Lemma chain_absent o c :
  op_key o ∉ c.*1 ->
  chain_op o c = match o with
                 | Op_put k v => (c ++ [(k, v)], (true, None))
                 | Op_exchange k v => (c ++ [(k, v)], (false, Some v))
                 | Op_get _ | Op_erase _ => (c, (false, None))
                 end.
Proof.
  intros Hk. destruct o as [k v|k v|k|k]; cbn [chain_op op_key] in *; [| |by rewrite (proj2 (get_nolock_In c k) Hk)|];
    (induction c as [|[k' v'] c IH]; cbn; [done|]; apply not_elem_of_cons in Hk as [Hne Hk]; cbn in Hne;
     rewrite decide_False by done; specialize (IH Hk)).
  - by destruct (put_nolock c k v) as [d ret]; simplify_eq.
  - by destruct (exchange_nolock c k v) as [[d ret] out]; simplify_eq.
  - by destruct (erase_nolock c k) as [d ret]; simplify_eq.
Qed.

Lemma chain_present o c j old :
  op_key o ∉ (take j c).*1 -> c !! j = Some (op_key o, old) ->
  chain_op o c = match o with
                 | Op_put _ _ => (c, (false, None))
                 | Op_exchange k v => (<[j := (k, v)]> c, (true, Some old))
                 | Op_get _ => (c, (true, Some old))
                 | Op_erase _ => (delete j c, (true, None))
                 end.
Proof.
  revert j. induction c as [|[k' v'] c IH]; intros [|j] Hk Hj; [done|done| |].
  - injection Hj as -> ->. destruct o as [k v|k v|k|k]; cbn; by rewrite decide_True.
  - apply not_elem_of_cons in Hk as [Hne Hk]. cbn in Hne, Hj. specialize (IH j Hk Hj).
    destruct o as [k v|k v|k|k]; cbn in *; rewrite decide_False by done.
    + by destruct (put_nolock c k v) as [d ret]; simplify_eq.
    + by destruct (exchange_nolock c k v) as [[d ret] out]; simplify_eq.
    + by destruct (get_nolock c k); simplify_eq.
    + by destruct (erase_nolock c k) as [d ret]; simplify_eq.
Qed.

(** ** Every step keeps the invariant *)

Hypothesis nb_pos : (0 < nb)%nat.
Hypothesis nl_pos : (0 < nl)%nat.

Lemma bucket_there s o : cm_ok s -> exists c, cm_buckets s !! cm_offset o = Some c.
Proof.
  intros Hok. apply lookup_lt_is_Some_2. pose proof (hk_length _ _ (co_buckets s Hok)) as Hl. unfold zlen in Hl. cbn in Hl.
  unfold cm_offset. pose proof (Z.mod_pos_bound (hasher (op_key o)) (Z.of_nat nb)). lia.
Qed.

Lemma lock_there s o : cm_ok s -> exists bits, cm_locks s !! cm_lock_offset o = Some bits.
Proof. intros Hok. apply lookup_lt_is_Some_2. rewrite (co_locks s Hok). apply Nat.mod_upper_bound. lia. Qed.

(** The invariant does not look at the size. *)
Lemma size_ok n s : cm_ok s -> cm_ok (cm_set_size n s).
Proof. intros [H1 H2 H3 H4 H5 H6]. by split. Qed.

Lemma log_other i j log e p : client_log j log p -> j <> i -> event_client e = i -> client_log j (log ++ [e]) p.
Proof. intros Hl Hne He. apply Cl_other; [done|]. congruence. Qed.

(** An access to the lock of the operation *)
Lemma lock_access_ok s i o pc pc' bits bits' a :
  cm_ok s -> cm_clients s !! i = Some (Busy o pc) -> cm_locks s !! cm_lock_offset o = Some bits ->
  thread_step a (cm_held o pc) bits = Some (cm_held o pc', bits') -> pc_kind o pc' ->
  client_phase (Busy o pc') = client_phase (Busy o pc) -> (forall c, walked o pc' c) ->
  cm_ok (cm_goto i o pc' (cm_set_lock (cm_lock_offset o) bits' s)).
Proof.
  intros [H1 H2 H3 H4 H5 H6] Hi Hb Ha Hk Hp Hw. split; cbn; rewrite ?length_insert; try done.
  - intros l b [(<- & <- & _)|[Hne Hl]]%list_lookup_insert_Some.
    + by eapply access_lock; [exact Hi| | |apply H3|].
    + eapply (same_view i s); [exact Hi| |by apply H3]. cbn. by rewrite !decide_False.
  - apply insert_clients; [intros j d _; apply H5|]. split; [rewrite Hp; apply H5, Hi|]. by split.
Qed.

(** A step of a client that changes nothing but its place *)
Lemma goto_ok s i o pc pc' :
  cm_ok s -> cm_clients s !! i = Some (Busy o pc) -> cm_held o pc' = cm_held o pc -> pc_kind o pc' ->
  client_phase (Busy o pc') = client_phase (Busy o pc) -> (forall c, cm_buckets s !! cm_offset o = Some c -> walked o pc' c) ->
  cm_ok (cm_goto i o pc' s).
Proof.
  intros [H1 H2 H3 H4 H5 H6] Hi Hh Hk Hp Hw. split; cbn; rewrite ?length_insert; try done.
  - intros l b Hl. eapply (same_view i s); [exact Hi| |by apply H3]. cbn. by rewrite Hh.
  - apply insert_clients; [intros j d _; apply H5|]. split; [rewrite Hp; apply H5, Hi|]. by split.
Qed.

Lemma run_ops_snoc {M R : Type} (step : op -> M -> M * R) ops o m m' rs :
  run_ops step ops m = (m', rs) -> run_ops step (ops ++ [o]) m = (fst (step o m'), rs ++ [snd (step o m')]).
Proof.
  revert m rs. induction ops as [|p ops IH]; intros m rs Hr; cbn in *.
  - injection Hr as <- <-. by destruct (step o m).
  - destruct (step p m) as [m1 r]. destruct (run_ops step ops m1) as [m2 rs'] eqn:E. injection Hr as <- <-.
    by rewrite (IH m1 rs' E).
Qed.

Lemma as_map_unique (m : hash_map (K := K) (V := V)) : hm_ok hasher m -> hm_bucket_size m = Z.of_nat nb -> m = as_map (hm_buckets m).
Proof. intros Hm Hb. destruct m as [bs n sz]. cbn in Hb. subst n. unfold as_map. f_equal. exact (hk_size _ _ Hm). Qed.

Lemma run_op_size (o : op) m : hm_bucket_size (fst (run_op hasher o m)) = hm_bucket_size m.
Proof.
  destruct o as [k v|k v|k|k]; cbn; unfold hm_put, hm_exchange, hm_erase; [|by destruct (exchange_nolock _ _ _) as [[]]|done|];
    [by destruct (put_nolock _ _ _)|by destruct (erase_nolock _ _)].
Qed.

(** An operation takes effect: its bucket becomes what the operation makes of it. *)
Lemma effect_ok s i o pc pc' c c' r :
  cm_ok s -> cm_clients s !! i = Some (Busy o pc) -> cm_buckets s !! cm_offset o = Some c ->
  chain_op o c = (c', r) -> c' = c \/ cm_held o pc = T_exclusive ->
  client_phase (Busy o pc) = Ph_called o -> client_phase (Busy o pc') = Ph_done o r ->
  cm_held o pc' = cm_held o pc -> pc_kind o pc' -> (forall c, walked o pc' c) ->
  cm_ok (cm_effect i o r pc' (cm_set_bucket (cm_offset o) c' s)).
Proof.
  intros Hok Hi Hc Hr Hx Hp Hp' Hh Hk Hw. pose proof Hok as [H1 H2 H3 H4 H5 H6].
  destruct (run_op_chain o _ c c' r Hc Hr) as [Hb Ha]. pose proof (run_op_ok hasher o _ H4) as Hrun.
  pose proof (run_op_size o (as_map (cm_buckets s))) as Hsz.
  destruct (run_op hasher o (as_map (cm_buckets s))) as [m' r']. cbn [fst snd] in *. subst r'. destruct Hrun as [Hm' Hspec].
  pose proof (as_map_unique m' Hm' Hsz) as Em. rewrite Hb in Em. subst m'. clear Hb Hsz. split; cbn; rewrite ?length_insert; try done.
  - intros l b Hl. eapply (same_view i s); [exact Hi| |by apply H3]. cbn. by rewrite Hh.
  - apply insert_clients.
    + intros j d Hne Hj. destruct (H5 j d Hj) as [Hlog Hd]. split; [by eapply log_other|]. destruct d as [|o' pcj]; [done|].
      destruct Hd as [Hkj Hwj]. split; [done|]. intros ch [(Hoff & <- & _)|[_ Hch]]%list_lookup_insert_Some; [|by apply Hwj].
      destruct Hx as [->|Hx]; [apply Hwj; by rewrite <- Hoff|].
      destruct (runs_alone s i j o pc o' pcj Hok nl_pos (not_eq_sym Hne) Hi Hx Hj (eq_sym Hoff)) as [Hne1 Hne2].
      destruct pcj; cbn in *; try done; by destruct (is_writer o').
    + split; [|by split]. rewrite Hp'. apply Cl_effect. rewrite <- Hp. apply H5, Hi.
  - unfold effects, cm_map. cbn. rewrite omap_app, !fmap_app. cbn. rewrite (run_ops_snoc spec_op _ _ _ _ _ H6).
    unfold cm_map in Hspec |- *. by rewrite Hspec.
Qed.

(** An effect that leaves the chain alone *)
Lemma effect_same_ok s i o pc pc' c r :
  cm_ok s -> cm_clients s !! i = Some (Busy o pc) -> cm_buckets s !! cm_offset o = Some c -> chain_op o c = (c, r) ->
  client_phase (Busy o pc) = Ph_called o -> client_phase (Busy o pc') = Ph_done o r ->
  cm_held o pc' = cm_held o pc -> pc_kind o pc' -> (forall c, walked o pc' c) -> cm_ok (cm_effect i o r pc' s).
Proof.
  intros Hok Hi Hc Hr Hp Hp' Hh Hk Hw. replace s with (cm_set_bucket (cm_offset o) c s).
  - by eapply effect_ok; [..|left|exact Hp| | | |].
  - unfold cm_set_bucket. rewrite list_insert_id by done. by destruct s.
Qed.

Lemma take_absent {A B} (c : list (A * B)) j k k' v :
  k ∉ (take j c).*1 -> c !! j = Some (k', v) -> k' <> k -> k ∉ (take (S j) c).*1.
Proof.
  intros Hk Hj Hne. rewrite (take_S_r _ _ _ Hj), fmap_app. cbn. intros [Hin|Hin]%elem_of_app; [done|].
  apply list_elem_of_singleton in Hin. congruence.
Qed.

Lemma cm_walk_ok s i o j c :
  cm_ok s -> cm_clients s !! i = Some (Busy o (P_walk j)) -> cm_buckets s !! cm_offset o = Some c -> cm_ok (walk_step i o j c s).
Proof.
  intros Hok Hi Hc. destruct (co_client s Hok i _ Hi) as [_ [_ Hw]]. destruct (Hw c Hc) as [Hlen Hk]. clear Hw.
  unfold walk_step. destruct (c !! j) as [[k v]|] eqn:Hj; [case_decide as Hkey|].
  - subst k. destruct o as [k' v'|k' v'|k'|k'].
    { eapply effect_same_ok; [done|exact Hi|exact Hc| |done..]. by rewrite (chain_present _ c j v Hk Hj). }
    all: apply (goto_ok s i _ (P_walk j)); try done; intros ch Hch; simplify_eq; cbn; split_and!; try done; by eexists.
  - apply (goto_ok s i _ (P_walk j)); try done. intros ch Hch. simplify_eq. split; [by eapply lookup_lt_Some|].
    by eapply take_absent.
  - apply lookup_ge_None in Hj. rewrite take_ge in Hk by done. pose proof (chain_absent o c Hk) as Hr. destruct o as [k' v'|k' v'|k'|k'].
    1,2: apply (goto_ok s i _ (P_walk j)); try done; intros ch Hch; simplify_eq; cbn; split_and!; try done; lia.
    all: by eapply effect_same_ok; [done|exact Hi|exact Hc|exact Hr|..].
Qed.

Lemma found_ok s i o j c :
  cm_ok s -> cm_clients s !! i = Some (Busy o (P_found j)) -> cm_buckets s !! cm_offset o = Some c ->
  exists s', found_step i o j c s = Some s' /\ cm_ok s'.
Proof.
  intros Hok Hi Hc. destruct (co_client s Hok i _ Hi) as [_ [_ Hw]]. destruct (Hw c Hc) as (Hk & [v Hj] & Hput). clear Hw.
  unfold found_step. rewrite Hj. pose proof (chain_present o c j v Hk Hj) as Hr.
  destruct o as [k' v'|k' v'|k'|k']; [done|..]; (eexists; split; [done|]).
  - by eapply effect_ok; [done|exact Hi|exact Hc|exact Hr|right|..].
  - by eapply effect_same_ok; [done|exact Hi|exact Hc|exact Hr|..].
  - by eapply effect_ok; [done|exact Hi|exact Hc|exact Hr|right|..].
Qed.

Lemma end_ok s i o j c :
  cm_ok s -> cm_clients s !! i = Some (Busy o (P_end j)) -> cm_buckets s !! cm_offset o = Some c ->
  exists s', end_step i o j c s = Some s' /\ cm_ok s'.
Proof.
  intros Hok Hi Hc. destruct (co_client s Hok i _ Hi) as [_ [_ Hw]]. destruct (Hw c Hc) as (-> & Hk & Ho). clear Hw.
  unfold end_step. rewrite firstn_all. pose proof (chain_absent o c Hk) as Hr.
  destruct o as [k' v'|k' v'|k'|k']; [| |done|done]; (eexists; split; [done|]);
    by eapply effect_ok; [done|exact Hi|exact Hc|exact Hr|right|..].
Qed.

(** The operation returns. *)
Lemma release_lock_ok s i o r bits :
  cm_ok s -> cm_clients s !! i = Some (Busy o (P_release r)) -> cm_locks s !! cm_lock_offset o = Some bits ->
  cm_ok (cm_record (E_return i r) (cm_set_client i Idle (cm_set_lock (cm_lock_offset o)
    (if is_writer o then releaseExclusive bits else releaseShared bits) s))).
Proof.
  intros [H1 H2 H3 H4 H5 H6] Hi Hb. split; cbn; rewrite ?length_insert; try done.
  - intros l b [(<- & <- & _)|[Hne Hl]]%list_lookup_insert_Some.
    + unfold cm_lock_view. cbn. rewrite list_fmap_insert. cbn.
      eapply lock_reach_ok; [|exact (H3 _ _ Hb)|unfold cm_lock_view, zlen; cbn; by rewrite length_fmap].
      apply (lift_access i _ (cm_held o (P_release r)) _ _ _ (if is_writer o then A_release_exclusive else A_release_shared)).
      * rewrite list_lookup_fmap, Hi. cbn. by rewrite decide_True.
      * cbn. by destruct (is_writer o).
    + eapply (same_view i s); [exact Hi| |by apply H3]. cbn. by rewrite decide_False.
  - apply insert_clients.
    + intros j d Hne Hj. destruct (H5 j d Hj) as [Hlog Hd]. split; [by eapply log_other|done].
    + split; [|done]. apply (Cl_return i _ o). exact (proj1 (H5 i _ Hi)).
  - unfold effects, cm_map in *. cbn. rewrite omap_app. cbn. by rewrite app_nil_r.
Qed.

Lemma call_ok s s' i o : cm_ok s -> cm_call i o s = Some s' -> cm_ok s'.
Proof.
  intros [H1 H2 H3 H4 H5 H6] Hc. unfold cm_call in Hc. destruct (cm_clients s !! i) as [[|]|] eqn:Hi; try done.
  injection Hc as <-. split; cbn; rewrite ?length_insert; try done.
  - intros l b Hl. eapply (same_view i s); [exact Hi| |by apply H3]. cbn. by destruct (is_writer o); case_decide.
  - apply insert_clients.
    + intros j d Hne Hj. destruct (H5 j d Hj) as [Hlog Hd]. split; [by eapply log_other|done].
    + split; [|by destruct (is_writer o) eqn:E].
      replace (client_phase _) with (Ph_called o) by (by destruct (is_writer o)). apply Cl_call. exact (proj1 (H5 i _ Hi)).
  - unfold effects, cm_map in *. cbn. rewrite omap_app. cbn. by rewrite app_nil_r.
Qed.

(** A client in an operation can always go on, and keeps the invariant. *)
Lemma run_ok s i o pc : cm_ok s -> cm_clients s !! i = Some (Busy o pc) -> exists s', cm_run i s = Some s' /\ cm_ok s'.
Proof.
  intros Hok Hi. destruct (bucket_there s o Hok) as [c Hc]. destruct (lock_there s o Hok) as [bits Hb].
  unfold cm_run. rewrite Hi, Hb, Hc. pose proof (co_client s Hok i _ Hi) as [_ [Hk Hw]]. destruct pc as [| | | |j|j|j|up r|n r|r]; cbn in Hk.
  - destruct (tryUpgrade bits) as [ok b] eqn:E. eexists. split; [done|].
    eapply (lock_access_ok s i o P_upgrade _ bits b A_upgrade); try done; destruct ok; try done; cbn [cm_held thread_step]; by rewrite E.
  - destruct (tryExclusive bits) as [ok b] eqn:E. eexists. split; [done|]. destruct ok.
    + eapply (lock_access_ok s i o P_exclusive _ bits b A_exclusive); try done; [cbn [cm_held thread_step]; by rewrite E, Hk|].
      intros ch. split; [lia|]. by apply not_elem_of_nil.
    + assert (b = bits) as -> by (unfold tryExclusive, compare_exchange in E; by case_match; simplify_eq).
      eapply (lock_access_ok s i o P_exclusive _ bits bits A_give_up); done.
  - destruct (tryShared bits) as [ok b] eqn:E. eexists. split; [done|].
    eapply (lock_access_ok s i o P_share _ bits b A_share); try done; destruct ok; try done; cbn [cm_held thread_step]; rewrite ?E, ?Hk; try done.
    intros ch. split; [lia|]. by apply not_elem_of_nil.
  - eexists. split; [done|]. by eapply (lock_access_ok s i o P_unshare _ bits _ A_release_shared).
  - eexists. split; [done|]. by apply cm_walk_ok.
  - by apply found_ok.
  - by apply end_ok.
  - eexists. split; [done|]. by apply (goto_ok s i o (P_load up r)).
  - eexists. split; [done|]. apply (goto_ok (cm_set_size n s) i o (P_store n r)); [by apply size_ok|done..].
  - eexists. split; [done|]. by apply release_lock_ok.
Qed.

Lemma cm_step_ok s s' : cm_ok s -> cm_step s s' -> cm_ok s'.
Proof.
  intros Hok Hs. destruct Hs as [i o s s' Hs|i s s' Hs]; [by eapply call_ok|].
  destruct (cm_clients s !! i) as [[|o pc]|] eqn:Hi; [unfold cm_run in Hs; by rewrite Hi in Hs| |unfold cm_run in Hs; by rewrite Hi in Hs].
  destruct (run_ok s i o pc Hok Hi) as (s1 & Hs1 & Hok1). rewrite Hs in Hs1. by injection Hs1 as <-.
Qed.

Lemma new_cmap_ok clients : Z.of_nat clients < 2 ^ 28 - 1 -> cm_ok (new_cmap clients).
Proof.
  intros Hn. assert (hm_map (as_map (replicate nb [])) = ∅) as Hmap by (unfold hm_map; cbn; clear; by induction nb).
  split; cbn; rewrite ?length_replicate; try done.
  - intros l b [-> _]%lookup_replicate. unfold cm_lock_view. cbn. rewrite fmap_replicate. apply lock_init_ok.
  - split; cbn; [unfold zlen; by rewrite length_replicate|lia| |done].
    intros i c [-> _]%lookup_replicate. split; [constructor|]. by intros k ?%elem_of_nil.
  - intros i c [-> _]%lookup_replicate. split; [constructor|done].
  - by rewrite <- Hmap.
Qed.

Lemma cm_reachable_ok clients s : Z.of_nat clients < 2 ^ 28 - 1 -> rtc cm_step (new_cmap clients) s -> cm_ok s.
Proof. intros Hn. revert s. apply rtc_ind_r; [by apply new_cmap_ok|]. intros s s' _ Hs Hok. by eapply cm_step_ok. Qed.

(** ** Nobody waits for a lock that nobody holds *)

Lemma word_has_upgraded n u e : has UPGRADED (word n u e) = u.
Proof. unfold has. rewrite word_land by by apply shift_land_low. by destruct u, e. Qed.

(** The UPGRADED bit of a lock is set on behalf of a writer that still runs. *)
Definition wanted (s : cmap) (l : nat) : Prop :=
  exists i o pc, cm_clients s !! i = Some (Busy o pc) /\ is_writer o = true /\ cm_lock_offset o = l.

Definition upgrades_ok (s : cmap) : Prop :=
  forall l bits, cm_locks s !! l = Some bits -> has UPGRADED bits = true -> wanted s l.

(** The word of a lock, and the number of its attempts *)
Lemma lock_word s l bits :
  cm_ok s -> cm_locks s !! l = Some bits ->
  exists n u e, bits = word n u e /\ 0 <= n < 2 ^ 28 - 1 /\ n = zsum attempts (cm_view l <$> cm_clients s)
    /\ e = (0 <? zsum excludes (cm_view l <$> cm_clients s)).
Proof.
  intros Hok Hl. destruct (co_lock s Hok l bits Hl) as [[u Hb] _ _]. cbn [cm_lock_view ls_bits ls_threads] in Hb.
  eexists _, u, _. split_and!; [exact Hb| | |done|done].
  - apply zsum_nonneg. apply attempts_range.
  - pose proof (zsum_le_length attempts (cm_view l <$> cm_clients s) ltac:(apply attempts_range)) as Hle.
    unfold zlen in Hle. rewrite length_fmap in Hle. pose proof (co_clients s Hok). lia.
Qed.

(** A client goes on with the same operation. *)
Lemma wanted_insert s s' i o pc pc' l :
  cm_clients s !! i = Some (Busy o pc) -> cm_clients s' = <[i := Busy o pc']> (cm_clients s) -> wanted s l -> wanted s' l.
Proof.
  intros Hi Hs (j & q & qc & Hj & Hw & Hl). unfold wanted. rewrite Hs. destruct (decide (i = j)) as [<-|Hne].
  - rewrite Hi in Hj. injection Hj as <- <-. exists i, o, pc'. split; [|done]. apply list_lookup_insert_eq. by eapply lookup_lt_Some.
  - exists j, q, qc. split; [|done]. by rewrite list_lookup_insert_ne.
Qed.

Lemma upgrades_same s s' i o pc pc' :
  upgrades_ok s -> cm_clients s !! i = Some (Busy o pc) -> cm_clients s' = <[i := Busy o pc']> (cm_clients s) ->
  cm_locks s' = cm_locks s -> upgrades_ok s'.
Proof.
  intros Hu Hi Hs Hl l bits Hb Hbit. rewrite Hl in Hb. eapply wanted_insert; [exact Hi|exact Hs|by eapply Hu].
Qed.

Lemma upgrades_lock s i o pc pc' bits bits' :
  upgrades_ok s -> cm_clients s !! i = Some (Busy o pc) -> cm_locks s !! cm_lock_offset o = Some bits ->
  is_writer o = true \/ has UPGRADED bits' = has UPGRADED bits ->
  upgrades_ok (cm_goto i o pc' (cm_set_lock (cm_lock_offset o) bits' s)).
Proof.
  intros Hu Hi Hb Hcase l b Hl Hbit. cbn in Hl. apply list_lookup_insert_Some in Hl as [(<- & <- & _)|[_ Hl]].
  - destruct Hcase as [Hw|Hsame].
    + exists i, o, pc'. split; [|done]. cbn. apply list_lookup_insert_eq. by eapply lookup_lt_Some.
    + eapply wanted_insert; [exact Hi|done|]. eapply Hu; [exact Hb|congruence].
  - eapply wanted_insert; [exact Hi|done|]. by eapply Hu.
Qed.

Lemma upgrades_run s s' i : cm_ok s -> upgrades_ok s -> cm_run i s = Some s' -> upgrades_ok s'.
Proof.
  intros Hok Hu Hs. unfold cm_run in Hs. destruct (cm_clients s !! i) as [[|o pc]|] eqn:Hi; [done| |done].
  destruct (cm_locks s !! cm_lock_offset o) as [bits|] eqn:Hb; [|done].
  destruct (cm_buckets s !! cm_offset o) as [c|]; [|done]. pose proof (co_client s Hok i _ Hi) as [_ [Hk _]].
  destruct (lock_word s _ bits Hok Hb) as (n & u & e & Hbits & Hn & Hatt & _).
  assert (forall pc, attempts (cm_held o pc) = 1 -> cm_clients s !! i = Some (Busy o pc) -> 0 < n) as Hpos.
  { intros qc Ha Hq. rewrite Hatt. assert ((cm_view (cm_lock_offset o) <$> cm_clients s) !! i = Some (cm_held o qc)) as Hv
      by (rewrite list_lookup_fmap, Hq; cbn; by rewrite decide_True).
    pose proof (zsum_ge attempts _ i _ ltac:(apply attempts_range) Hv). lia. }
  destruct pc as [| | | |j|j|j|up r|m r|r]; cbn in Hk.
  - destruct (tryUpgrade bits) as [ok b]. injection Hs as <-. eapply upgrades_lock; eauto.
  - destruct (tryExclusive bits) as [ok b]. injection Hs as <-. eapply upgrades_lock; eauto.
  - rewrite Hbits, tryShared_word in Hs by lia. injection Hs as <-. eapply upgrades_lock; eauto. right. by rewrite Hbits, !word_has_upgraded.
  - specialize (Hpos P_unshare eq_refl Hi). rewrite Hbits, releaseShared_word in Hs by lia. injection Hs as <-.
    eapply upgrades_lock; eauto. right. by rewrite Hbits, !word_has_upgraded.
  - injection Hs as <-. unfold walk_step. repeat case_match; by eapply upgrades_same.
  - unfold found_step in Hs. repeat case_match; simplify_eq; by eapply upgrades_same.
  - unfold end_step in Hs. repeat case_match; simplify_eq; by eapply upgrades_same.
  - injection Hs as <-. by eapply upgrades_same.
  - injection Hs as <-. by eapply upgrades_same.
  - injection Hs as <-. intros l b Hl Hbit. cbn [cm_record cm_set_client cm_set_lock cm_locks] in Hl.
    assert (wanted s l -> (cm_lock_offset o = l -> is_writer o = false) ->
      wanted (cm_record (E_return i r) (cm_set_client i Idle (cm_set_lock (cm_lock_offset o)
        (if is_writer o then releaseExclusive bits else releaseShared bits) s))) l) as Hkeep.
    { intros (j & q & qc & Hj & Hw & Hlq) Hno. exists j, q, qc. split; [|done]. cbn. rewrite list_lookup_insert_ne; [done|].
      intros <-. rewrite Hi in Hj. injection Hj as <- <-. specialize (Hno Hlq). congruence. }
    apply list_lookup_insert_Some in Hl as [(<- & <- & _)|[Hne Hl]].
    + assert (is_writer o = true \/ is_writer o = false) as [Hw|Hw] by (destruct (is_writer o); auto); rewrite Hw in Hbit; cbv iota in Hbit;
        [by rewrite Hbits, releaseExclusive_word, word_has_upgraded in Hbit|].
      apply Hkeep; [|done]. eapply Hu; [exact Hb|]. specialize (Hpos (P_release r)). cbn in Hpos. rewrite Hw in Hpos.
      rewrite Hbits, releaseShared_word, word_has_upgraded in Hbit by (specialize (Hpos eq_refl Hi); lia). by rewrite Hbits, word_has_upgraded.
    + apply Hkeep; [by eapply Hu|by intros ?].
Qed.

Lemma reachable_upgrades clients s : Z.of_nat clients < 2 ^ 28 - 1 -> rtc cm_step (new_cmap clients) s -> upgrades_ok s.
Proof.
  intros Hn Hr. cut (cm_ok s /\ upgrades_ok s); [by intros [_ ?]|]. revert s Hr. apply rtc_ind_r.
  - split; [by apply new_cmap_ok|]. intros l b [-> _]%lookup_replicate. done.
  - intros s s' _ Hs [Hok Hu]. split; [by eapply cm_step_ok|]. destruct Hs as [i o s s' Hs|i s s' Hs]; [|by eapply upgrades_run].
    unfold cm_call in Hs. destruct (cm_clients s !! i) as [[|]|] eqn:Hi; try done. injection Hs as <-. intros l b Hl Hbit.
    destruct (Hu l b Hl Hbit) as (j & q & qc & Hj & Hq). exists j, q, qc. split; [|done]. cbn.
    rewrite list_lookup_insert_ne; [done|]. intros <-. congruence.
Qed.

(** ** Some operation can always be finished *)

Definition cm_runs (s s' : cmap) : Prop := exists i, cm_run i s = Some s'.

Definition cm_holds (pc : cm_pc) : bool :=
  match pc with P_upgrade | P_exclusive | P_share | P_unshare => false | _ => true end.

(** How far a client that holds its lock is from the end *)
Definition cm_rank (pc : cm_pc) (c : chain K V) : nat :=
  match pc with
  | P_walk j => 5 + (length c - j)
  | P_found _ | P_end _ => 4
  | P_load _ _ => 3
  | P_store _ _ => 2
  | _ => 1
  end.

Lemma client_set s i o pc (c : cm_client) : cm_clients s !! i = Some (Busy o pc) -> <[i := c]> (cm_clients s) !! i = Some c.
Proof. intros Hi. apply list_lookup_insert_eq. by eapply lookup_lt_Some. Qed.

Lemma holder_step s i o pc c :
  cm_ok s -> cm_clients s !! i = Some (Busy o pc) -> cm_holds pc = true -> cm_buckets s !! cm_offset o = Some c ->
  exists s', cm_run i s = Some s' /\ cm_ok s' /\
    (cm_clients s' !! i = Some Idle \/
     exists pc' c', cm_clients s' !! i = Some (Busy o pc') /\ cm_holds pc' = true /\ cm_buckets s' !! cm_offset o = Some c'
       /\ (cm_rank pc' c' < cm_rank pc c)%nat).
Proof.
  intros Hok Hi Hh Hc. destruct (run_ok s i o pc Hok Hi) as (s' & Hs & Hok'). exists s'. split_and!; [done|done|].
  destruct (bucket_there s' o Hok') as [c' Hc']. unfold cm_run in Hs. rewrite Hi, Hc in Hs.
  destruct (cm_locks s !! cm_lock_offset o) as [bits|]; [|done].
  assert (forall pc', cm_clients s' !! i = Some (Busy o pc') -> cm_holds pc' = true -> (cm_rank pc' c' < cm_rank pc c)%nat ->
    exists pc' c', cm_clients s' !! i = Some (Busy o pc') /\ cm_holds pc' = true /\ cm_buckets s' !! cm_offset o = Some c'
       /\ (cm_rank pc' c' < cm_rank pc c)%nat) as Hgo by eauto 10.
  pose proof (fun d => client_set s i o pc d Hi) as Hset.
  destruct pc as [| | | |j|j|j|up r|m r|r]; try discriminate Hh.
  - right. injection Hs as <-. unfold walk_step in *. destruct (c !! j) as [[k v]|] eqn:Hj; [case_decide|].
    + destruct o; eapply Hgo; first [apply Hset|done|cbn; lia].
    + eapply Hgo; [apply Hset|done|]. cbn in Hc' |- *. rewrite Hc in Hc'. injection Hc' as <-. apply lookup_lt_Some in Hj. lia.
    + destruct o; eapply Hgo; first [apply Hset|done|cbn; lia].
  - right. unfold found_step in Hs. destruct (c !! j) as [[k v]|]; [|done].
    destruct o; try done; injection Hs as <-; eapply Hgo; first [apply Hset|done|cbn; lia].
  - right. unfold end_step in Hs. destruct o; try done; injection Hs as <-; eapply Hgo; first [apply Hset|done|cbn; lia].
  - right. injection Hs as <-. eapply Hgo; first [apply Hset|done|cbn; lia].
  - right. injection Hs as <-. eapply Hgo; first [apply Hset|done|cbn; lia].
  - left. injection Hs as <-. apply Hset.
Qed.

Lemma holder_finishes n : forall s i o pc c,
  cm_ok s -> cm_clients s !! i = Some (Busy o pc) -> cm_holds pc = true -> cm_buckets s !! cm_offset o = Some c -> (cm_rank pc c <= n)%nat ->
  exists s', rtc cm_runs s s' /\ cm_clients s' !! i = Some Idle.
Proof.
  induction n as [|n IH]; intros s i o pc c Hok Hi Hh Hc Hr.
  { by destruct pc; cbn in Hr; try lia. }
  destruct (holder_step s i o pc c Hok Hi Hh Hc) as (s1 & Hs1 & Hok1 & [Hi1|(pc' & c' & Hi1 & Hh' & Hc' & Hr')]).
  - exists s1. split; [|done]. apply rtc_once. by exists i.
  - destruct (IH s1 i o pc' c' Hok1 Hi1 Hh' Hc' ltac:(lia)) as (s' & Hs' & Hidle). exists s'. split; [|done].
    eapply rtc_l; [by exists i|done].
Qed.

Lemma zsum_pos {A} (f : A -> Z) l : 0 < zsum f l -> exists i x, l !! i = Some x /\ f x <> 0.
Proof.
  induction l as [|x l IH]; cbn; [lia|]. intros Hp. destruct (decide (f x = 0)) as [Hx|Hx]; [|by exists 0%nat, x].
  destruct IH as (i & y & Hi & Hy); [unfold zsum in *; lia|]. by exists (S i), y.
Qed.

(** No operation holds the lock [l]. *)
Definition free (l : nat) (s : cmap) : Prop :=
  forall i o pc, cm_clients s !! i = Some (Busy o pc) -> cm_lock_offset o = l -> cm_holds pc = false.

(** The failed attempts to share [l] are undone. *)
Lemma attempts_undone l n : forall s,
  cm_ok s -> upgrades_ok s -> free l s -> zsum attempts (cm_view l <$> cm_clients s) <= Z.of_nat n ->
  exists s', rtc cm_runs s s' /\ cm_ok s' /\ upgrades_ok s' /\ free l s' /\ zsum attempts (cm_view l <$> cm_clients s') = 0
    /\ forall i o pc, cm_clients s !! i = Some (Busy o pc) -> exists pc', cm_clients s' !! i = Some (Busy o pc').
Proof.
  induction n as [|n IH]; intros s Hok Hu Hfree Hn.
  { exists s. split_and!; try done; [|by eauto]. pose proof (zsum_nonneg attempts (cm_view l <$> cm_clients s) ltac:(apply attempts_range)). lia. }
  destruct (decide (0 < zsum attempts (cm_view l <$> cm_clients s))) as [Hp|Hp]; cycle 1.
  { exists s. split_and!; try done; [|by eauto]. pose proof (zsum_nonneg attempts (cm_view l <$> cm_clients s) ltac:(apply attempts_range)). lia. }
  destruct (zsum_pos _ _ Hp) as (i & t & Ht & Hne). pose proof Ht as Hv. rewrite list_lookup_fmap in Ht.
  destruct (cm_clients s !! i) as [[|o pc]|] eqn:Hi; [by injection Ht as <-| |done]. injection Ht as <-. cbn in Hne, Hv.
  case_decide as Hl; [|done]. pose proof (Hfree i o pc Hi Hl) as Hnh. destruct pc; try done.
  destruct (run_ok s i o P_unshare Hok Hi) as (s1 & Hs1 & Hok1). pose proof (upgrades_run s s1 i Hok Hu Hs1) as Hu1.
  assert (cm_clients s1 = <[i := Busy o P_share]> (cm_clients s)) as Hc1.
  { unfold cm_run in Hs1. rewrite Hi in Hs1. repeat case_match; simplify_eq. done. }
  destruct (IH s1 Hok1 Hu1) as (s' & Hr & Hok' & Hu' & Hf' & Ha' & Hk').
  - intros j q qc Hj Hq. rewrite Hc1 in Hj. apply list_lookup_insert_Some in Hj as [(_ & Hq' & _)|[_ Hj]]; [by simplify_eq|by eapply Hfree].
  - rewrite Hc1, list_fmap_insert, (zsum_insert _ _ _ _ _ Hv). cbn. rewrite decide_True by done. cbn. lia.
  - exists s'. split_and!; try done; [eapply rtc_l; [by exists i|done]|]. intros j q qc Hj. destruct (decide (i = j)) as [<-|Hne'].
    + rewrite Hi in Hj. simplify_eq. eapply Hk'. rewrite Hc1. by eapply client_set.
    + eapply Hk'. rewrite Hc1. by rewrite list_lookup_insert_ne.
Qed.

Lemma free_word l s bits :
  cm_ok s -> free l s -> zsum attempts (cm_view l <$> cm_clients s) = 0 -> cm_locks s !! l = Some bits ->
  exists u, bits = word 0 u false.
Proof.
  intros Hok Hf Ha Hb. destruct (lock_word s l bits Hok Hb) as (n & u & e & -> & _ & -> & ->). rewrite Ha. exists u. f_equal.
  apply Z.ltb_ge. destruct (decide (0 < zsum excludes (cm_view l <$> cm_clients s))) as [Hp|]; [|lia].
  destruct (zsum_pos _ _ Hp) as (i & t & Ht & Hne). rewrite list_lookup_fmap in Ht.
  destruct (cm_clients s !! i) as [[|o pc]|] eqn:Hi; [by injection Ht as <-| |done]. injection Ht as <-. cbn in Hne.
  case_decide as Hl; [|done]. pose proof (Hf i o pc Hi Hl). by destruct pc.
Qed.

Lemma run_on s i o pc bits :
  cm_ok s -> cm_clients s !! i = Some (Busy o pc) -> cm_locks s !! cm_lock_offset o = Some bits ->
  match pc with
  | P_upgrade => let '(ok, bits) := tryUpgrade bits in
      cm_run i s = Some (cm_goto i o (if ok then P_exclusive else P_upgrade) (cm_set_lock (cm_lock_offset o) bits s))
  | P_exclusive => let '(ok, bits) := tryExclusive bits in
      cm_run i s = Some (cm_goto i o (if ok then P_walk 0 else P_upgrade) (cm_set_lock (cm_lock_offset o) bits s))
  | P_share => let '(ok, bits) := tryShared bits in
      cm_run i s = Some (cm_goto i o (if ok then P_walk 0 else P_unshare) (cm_set_lock (cm_lock_offset o) bits s))
  | _ => True
  end.
Proof.
  intros Hok Hi Hb. destruct (bucket_there s o Hok) as [c Hc]. unfold cm_run. rewrite Hi, Hb, Hc.
  destruct pc; try done; by repeat case_match.
Qed.

(** A writer that finds the lock free takes it. *)
Lemma writer_takes n s i o pc u :
  cm_ok s -> cm_clients s !! i = Some (Busy o pc) -> cm_locks s !! cm_lock_offset o = Some (word 0 u false) ->
  match pc with P_upgrade => n = 2%nat | P_exclusive => n = (if u then 1 else 3)%nat | _ => False end ->
  exists s', rtc cm_runs s s' /\ cm_ok s' /\ cm_clients s' !! i = Some (Busy o (P_walk 0)).
Proof.
  revert s pc u. induction n as [|n IH]; intros s pc u Hok Hi Hb Hn; [by destruct pc, u|].
  pose proof (run_on s i o pc _ Hok Hi Hb) as Hrun. assert (cm_lock_offset o < length (cm_locks s))%nat as Hlt by (by eapply lookup_lt_Some).
  destruct pc; try done.
  - rewrite tryUpgrade_word in Hrun. cbn [negb] in Hrun. injection Hn as ->.
    destruct (IH (cm_goto i o P_exclusive (cm_set_lock (cm_lock_offset o) (word 0 true false) s)) P_exclusive true) as (s' & Hr & Hs').
    + eapply cm_step_ok; [exact Hok|by eapply Cm_run].
    + by eapply (client_set s).
    + cbn. by apply list_lookup_insert_eq.
    + done.
    + exists s'. split; [|done]. eapply rtc_l; [by exists i|done].
  - rewrite tryExclusive_word in Hrun by lia. destruct u; cbn [Z.eqb andb negb] in Hrun.
    + eexists. split; [apply rtc_once; by exists i|]. split; [eapply cm_step_ok; [exact Hok|by eapply Cm_run]|by eapply (client_set s)].
    + destruct (IH (cm_goto i o P_upgrade (cm_set_lock (cm_lock_offset o) (word 0 false false) s)) P_upgrade false) as (s' & Hr & Hs').
      * eapply cm_step_ok; [exact Hok|by eapply Cm_run].
      * by eapply (client_set s).
      * cbn. by apply list_lookup_insert_eq.
      * lia.
      * exists s'. split; [|done]. eapply rtc_l; [by exists i|done].
Qed.

(** Of the operations that want a lock nobody holds, one takes it. *)
Lemma someone_takes s i o pc :
  cm_ok s -> upgrades_ok s -> free (cm_lock_offset o) s -> cm_clients s !! i = Some (Busy o pc) ->
  exists j q qc s', cm_clients s !! j = Some (Busy q qc) /\ rtc cm_runs s s' /\ cm_ok s' /\ cm_clients s' !! j = Some (Busy q (P_walk 0)).
Proof.
  intros Hok Hu Hf Hi. set (l := cm_lock_offset o) in *.
  destruct (attempts_undone l (Z.to_nat (zsum attempts (cm_view l <$> cm_clients s))) s) as (s1 & Hr1 & Hok1 & Hu1 & Hf1 & Ha1 & Hk1);
    [done..|lia|].
  destruct (lock_there s1 o Hok1) as [bits Hb]. fold l in Hb. destruct (free_word l s1 bits Hok1 Hf1 Ha1 Hb) as [u ->].
  destruct (Hk1 i o pc Hi) as [pc1 Hi1].
  assert (forall k q qc, cm_clients s1 !! k = Some (Busy q qc) -> exists qc0, cm_clients s !! k = Some (Busy q qc0)) as Hback.
  { clear -Hr1. induction Hr1 as [|x y z Hxy Hr IH]; [by eauto|]. intros k q qc Hk. destruct (IH k q qc Hk) as [qc1 Hk1].
    destruct Hxy as [j Hj]. unfold cm_run in Hj. destruct (cm_clients x !! j) as [[|o' pc']|] eqn:Hj'; try done.
    assert (exists d, cm_clients y = <[j := d]> (cm_clients x) /\ (d = Idle \/ exists pc2, d = Busy o' pc2)) as (d & Hy & Hd).
    { unfold walk_step, found_step, end_step, cm_effect in Hj. repeat case_match; simplify_eq; eexists; (split; [reflexivity|]); eauto. }
    rewrite Hy in Hk1. apply list_lookup_insert_Some in Hk1 as [(<- & -> & _)|[_ Hk1]]; [|by eauto].
    destruct Hd as [?|[pc2 ?]]; simplify_eq. by eauto. }
  assert (forall k q qc, cm_clients s1 !! k = Some (Busy q qc) -> is_writer q = true -> cm_lock_offset q = l ->
    exists j q qc s', cm_clients s !! j = Some (Busy q qc) /\ rtc cm_runs s s' /\ cm_ok s' /\ cm_clients s' !! j = Some (Busy q (P_walk 0))) as Hwriter.
  { intros k q qc Hk Hw Hl. destruct (Hback k q qc Hk) as [qc0 Hk0]. pose proof (Hf1 k q qc Hk Hl) as Hnh.
    pose proof (co_client s1 Hok1 k _ Hk) as [_ [Hkind _]]. rewrite <- Hl in Hb.
    destruct (writer_takes (match qc with P_upgrade => 2 | _ => if u then 1 else 3 end) s1 k q qc u Hok1 Hk Hb) as (s' & Hr' & Hok' & Hk');
      [destruct qc; cbn in *; try done; congruence|].
    exists k, q, qc0, s'. split_and!; try done. by etrans. }
  destruct (is_writer o) eqn:Hw; [by eapply Hwriter|]. destruct u.
  - destruct (Hu1 l _ Hb) as (k & q & qc & Hk & Hwq & Hl); [by rewrite word_has_upgraded|]. by eapply Hwriter.
  - pose proof (Hf1 i o pc1 Hi1 eq_refl) as Hnh. pose proof (co_client s1 Hok1 i _ Hi1) as [_ [Hkind _]].
    assert (pc1 = P_share) as ->.
    { destruct pc1; cbn in *; try done; try congruence. exfalso.
      pose proof (zsum_ge attempts (cm_view l <$> cm_clients s1) i T_trying ltac:(apply attempts_range)) as Hge.
      rewrite list_lookup_fmap, Hi1 in Hge. cbn in Hge. unfold l in Hge at 1. rewrite decide_True in Hge by done. specialize (Hge eq_refl). cbn in Hge. lia. }
    pose proof (run_on s1 i o P_share _ Hok1 Hi1 Hb) as Hrun. rewrite tryShared_word in Hrun by lia. cbn [orb negb] in Hrun.
    exists i, o, pc. eexists. split; [done|]. split; [eapply rtc_r; [exact Hr1|by exists i]|].
    split; [eapply cm_step_ok; [exact Hok1|by eapply Cm_run]|by eapply (client_set s1)].
Qed.

Lemma some_return s i o pc :
  cm_ok s -> upgrades_ok s -> cm_clients s !! i = Some (Busy o pc) ->
  exists j q qc s', cm_clients s !! j = Some (Busy q qc) /\ rtc cm_runs s s' /\ cm_clients s' !! j = Some Idle.
Proof.
  intros Hok Hu Hi.
  assert ((exists j q qc, cm_clients s !! j = Some (Busy q qc) /\ cm_holds qc = true) \/ free (cm_lock_offset o) s) as [(j & q & qc & Hj & Hh)|Hf].
  { destruct (list_find (fun d => match d with Busy q qc => cm_holds qc | Idle => false end = true) (cm_clients s)) as [[j d]|] eqn:Hf.
    - left. apply list_find_Some in Hf as (Hj & Hh & _). destruct d as [|q qc]; [done|by eauto].
    - right. apply list_find_None in Hf. intros j q qc Hj _. rewrite Forall_lookup in Hf. specialize (Hf j _ Hj). by destruct (cm_holds qc). }
  - destruct (bucket_there s q Hok) as [c Hc]. destruct (holder_finishes _ s j q qc c Hok Hj Hh Hc (le_n _)) as (s' & Hr & Hs').
    by exists j, q, qc, s'.
  - destruct (someone_takes s i o pc Hok Hu Hf Hi) as (j & q & qc & s1 & Hj & Hr1 & Hok1 & Hj1).
    destruct (bucket_there s1 q Hok1) as [c Hc]. destruct (holder_finishes _ s1 j q _ c Hok1 Hj1 eq_refl Hc (le_n _)) as (s' & Hr & Hs').
    exists j, q, qc, s'. split_and!; try done. by etrans.
Qed.

End Concurrent.

(** ** Properties *)

(** C29: the concurrent hash map is linearizable. However the accesses of any
    number of clients are interleaved, with any hash function, number of buckets
    and number of locks: the operations, in the order in which they take effect,
    answer as on a finite map, which is then the contents of the buckets; every
    operation takes effect exactly once between its call and its return, and
    returns the answer it then had; and a client in an operation is never left
    with a pointer to a node that is gone. *)
Theorem map_linearizable {K : Type} `{Countable K} {V : Type} (hasher : K -> Z) (nb nl clients : nat) (s : cmap (K := K) (V := V)) :
  (0 < nb)%nat -> (0 < nl)%nat -> Z.of_nat clients < 2 ^ 28 - 1 -> rtc (cm_step hasher nb nl) (new_cmap nb nl clients) s ->
  run_ops spec_op (effects (cm_log s)).*1 ∅ = (cm_map nb s, (effects (cm_log s)).*2)
  /\ (forall i c, cm_clients s !! i = Some c -> client_log i (cm_log s) (client_phase c))
  /\ (forall i o pc, cm_clients s !! i = Some (Busy o pc) -> is_Some (cm_run hasher nb nl i s)).
Proof.
  intros Hnb Hnl Hn Hr. apply cm_reachable_ok in Hr as Hok; [|done..]. split_and!.
  - apply (co_effects _ _ _ s Hok).
  - intros i c Hi. apply (co_client _ _ _ s Hok i c Hi).
  - intros i o pc Hi. destruct (run_ok hasher nb nl Hnb Hnl s i o pc Hok Hi) as (s' & -> & _). by eexists.
Qed.

(** C30: no operation of the hash map can be blocked for ever by the others
    stopping at a bad moment: from every state the clients can reach, when some
    operation is in progress, the clients, without any new call, can bring one
    of the operations in progress to its return. *)
Theorem map_progress {K : Type} `{Countable K} {V : Type} (hasher : K -> Z) (nb nl clients : nat) (s : cmap (K := K) (V := V))
    (i : nat) (o : map_op) (pc : cm_pc) :
  (0 < nb)%nat -> (0 < nl)%nat -> Z.of_nat clients < 2 ^ 28 - 1 -> rtc (cm_step hasher nb nl) (new_cmap nb nl clients) s ->
  cm_clients s !! i = Some (Busy o pc) ->
  exists j q qc s', cm_clients s !! j = Some (Busy q qc) /\ rtc (cm_runs hasher nb nl) s s' /\ cm_clients s' !! j = Some Idle.
Proof.
  intros Hnb Hnl Hn Hr Hi. eapply (some_return hasher nb nl Hnb Hnl s i o pc); [by eapply cm_reachable_ok|by eapply reachable_upgrades|done].
Qed.

(** ** Runs *)

(** Client [i] calls an operation, or makes its next access. *)
Definition cm_do {K : Type} `{Countable K} {V : Type} (hasher : K -> Z) (nb nl : nat) (s : option cmap) (a : nat * option (map_op (K := K) (V := V)))
    : option cmap :=
  match s with
  | None => None
  | Some s => match snd a with Some o => cm_call (fst a) o s | None => cm_run hasher nb nl (fst a) s end
  end.

Lemma cm_do_run {K : Type} `{Countable K} {V : Type} (hasher : K -> Z) (nb nl : nat) acts : forall (s s' : cmap (K := K) (V := V)),
  foldl (cm_do hasher nb nl) (Some s) acts = Some s' -> rtc (cm_step hasher nb nl) s s'.
Proof.
  induction acts as [|[i a] acts IH]; intros s s' Hs; cbn in Hs; [by injection Hs as <-; apply rtc_refl|].
  assert (forall (a : list (nat * option (map_op (K := K) (V := V)))), foldl (cm_do hasher nb nl) None a = None) as Hnone by (intros l; by induction l).
  destruct (match a with Some o => cm_call i o s | None => cm_run hasher nb nl i s end) as [s1|] eqn:E; [|by rewrite Hnone in Hs].
  eapply rtc_l; [|by apply IH]. destruct a as [o|]; [by apply (Cm_call _ _ _ i o)|by apply (Cm_run _ _ _ i)].
Qed.

Definition tick {K V : Type} (i n : nat) : list (nat * option (map_op (K := K) (V := V))) := replicate n (i, None).

(** Two clients put two keys of one bucket; a third one gets a key meanwhile. *)
Definition put_put_get : list (nat * option (map_op (K := Z) (V := Z))) :=
  [(0%nat, Some (Op_put 1 10)); (1%nat, Some (Op_put 3 30)); (2%nat, Some (Op_get 1))]
  ++ tick 0 2 ++ tick 1 2 ++ tick 2 2 ++ tick 0 5 ++ tick 1 5 ++ tick 2 1.
Definition put_put_got : cmap := default (new_cmap 2 2 3) (foldl (cm_do (fun k => k) 2 2) (Some (new_cmap 2 2 3)) put_put_get).

Lemma map_linearizable_witness :
  cm_buckets put_put_got = [[]; [(1, 10); (3, 30)]] /\ (effects (cm_log put_put_got)).*2 = [(true, None); (true, None)]
  /\ run_ops spec_op (effects (cm_log put_put_got)).*1 ∅ = (cm_map 2 put_put_got, (effects (cm_log put_put_got)).*2).
Proof.
  split; [vm_compute; reflexivity|]. split; [vm_compute; reflexivity|].
  apply (map_linearizable (fun k => k) 2 2 3 put_put_got); [lia..|]. apply (cm_do_run _ _ _ put_put_get). vm_compute. reflexivity.
Defined.

Lemma map_progress_witness :
  exists j q qc s', cm_clients put_put_got !! j = Some (Busy q qc) /\ rtc (cm_runs (fun k => k) 2 2) put_put_got s'
    /\ cm_clients s' !! j = Some Idle.
Proof.
  apply (map_progress (fun k => k) 2 2 3 put_put_got 2 (Op_get 1) P_unshare); [lia..| |].
  - apply (cm_do_run _ _ _ put_put_get). vm_compute. reflexivity.
  - vm_compute. reflexivity.
Defined.

(** [_element_size] is changed by two accesses under the lock of one bucket:
    with two locks an update can be lost, and [size()] is wrong ever after. *)
Lemma size_update_lost :
  let s := foldl (cm_do (fun k : Z => k) 2 2) (Some (new_cmap 2 2 2))
    ([(0%nat, Some (Op_put 0 5)); (1%nat, Some (Op_put 1 6))] ++ tick 0 5 ++ tick 1 5 ++ tick 0 2 ++ tick 1 2) in
  exists s', s = Some s' /\ cm_clients s' = [Idle; Idle] /\ cm_buckets s' = [[(0, 5)]; [(1, 6)]] /\ cm_element_size s' = 1.
Proof. eexists. split_and!; vm_compute; reflexivity. Qed.
