(* ===== verification/BoltCall.v ===== *)
(** * A call over Bolt, from the request to the response

    The synchronous path of [Session::sendInternal] (src/session/session.cpp)
    with the Bolt protocol, down to the bytes: assembling the request, handing
    a read session to the socket, writing; then, in the loop thread, the read
    event; then [postProcess] in the sender. The components are those of Bolt,
    BoltResponse, IoBuffer and Socket; SendSession has the same path with the
    components' answers as arguments. The sender and the loop thread have a
    store of blocks each: a buffer is only written by the thread that fills it. *)

From stdpp Require Import gmap.
From S2P Require Import Prelude CommonDefines ByteBuffer IoBuffer IoBufferProps IoStream.
From S2P Require Import LifeCycleLock Session Bolt BoltResponse Socket SendSession.

Section Call.
Context {Msg D : Type} (pb_serialize : Msg -> list Z) (pb_parse : list Z -> option (Msg * Z)).

(** [Socket::prepareRead]: [push] of the queue, which may be full *)
Definition prepareRead (s : read_session D (BoltResponse Msg)) (sk : socket D (BoltResponse Msg)) : option (socket D (BoltResponse Msg)) :=
  if zlen (sk_session_info sk) <? MAX_PARALLEL_SESSION_SIZE_ON_SOCKET then
    Some (mk_socket (sk_status sk) (sk_read_buf sk) (sk_session_info sk ++ [s]) (sk_session_map sk)
            (sk_last_active_time_us sk) (sk_read_additional_data sk) (sk_ticks sk))
  else None.

(** The [SocketReadSession] of a synchronous call, as the sender leaves it; the
    response is the caller's *)
Definition call_session (session_id begin_time : Z) (response : BoltResponse Msg) (life : session)
    : read_session D (BoltResponse Msg) :=
  mk_read_session (converseBoltRequest session_id) begin_time true life clear None (Some response).

(** Steps 1 to 5 of [sendInternal]: the error, the bytes that reached the
    descriptor and the socket. [timer_id] is what the timer answers, [elapsed]
    the milliseconds until the write. [None]: assembling the request is
    undefined, the expiry time overflows, or the answers end before the write
    does. *)
Definition bolt_send (req : BoltRequest Msg) (response : BoltResponse Msg) (session_id begin_time timeout timer_id elapsed : Z) (answers : list (Z * Z))
    (st : store) (sk : socket D (BoltResponse Msg)) : option (ESessionError * list Z * socket D (BoltResponse Msg)) :=
  match assembleBoltRequest pb_serialize req session_id st clear with
  | None => None
  | Some (ok, st, write_buf) =>
      if negb ok then Some (ASSEMBLE_REQUEST_FAIL, [], sk)
      else if bool_decide (expire_time timeout begin_time = None) then None
      else
        let given_up := call_session session_id begin_time response (abandon_session new_session) in
        match prepareRead (call_session session_id begin_time response new_session) sk, prepareRead given_up sk with
        | Some sk1, Some sk_failed =>
            if timer_id =? 0 then Some (TIMER_BUSY, [], sk_failed)
            else
              match write answers (i32 (u64 (timeout - elapsed))) st write_buf sk1 with
              | None => None
              | Some (sent, _, sk1, true) => Some (SESSION_OK, sent, sk1)
              | Some (sent, _, sk1, false) => Some (WRITE_FAIL, sent, setStatus (sk_status sk1) sk_failed)
              end
        | _, _ => Some (SOCKET_BUSY, [], sk)
        end
  end.

(** Step 6: [result.get_future().get()] of a session that was notified, then
    [postProcess], which parses what the session has received into its
    response. *)
Definition bolt_receive (st : store) (s : read_session D (BoltResponse Msg))
    : option (ESessionError * option (BoltResponse Msg)) :=
  match se_results (r_life s), r_response s with
  | SESSION_OK :: _, Some response =>
      match parseBoltResponse pb_parse response st (r_read_buf s) with
      | Some (ret, response, _) => Some (postProcess (Some ret) SESSION_OK, Some response)
      | None => None
      end
  | e :: _, response => Some (e, response)
  | [], _ => None
  end.

End Call.

(** ** Sending *)

Section Sending.
Context {Msg D : Type} (pb_serialize : Msg -> list Z).
Implicit Types (sk : socket D (BoltResponse Msg)).

(** A string, or a protobuf message of at least one byte; of a size its header
    can tell and its buffer has room for; a timer task; a timeout whose
    microseconds fit in an [int], and time left to write; and a descriptor that
    accepts the request, in whatever portions, without an error or [EAGAIN]. *)
Record sends (req : BoltRequest Msg) (session_id timeout timer_id elapsed : Z) (answers : list (Z * Z))
    (st : store) : Prop := {
  sd_store : store_ok st;
  sd_content : body_content pb_serialize req = Some (request_content pb_serialize req);
  sd_room : zlen (request_frame pb_serialize req session_id) <= bb_room st;
  sd_header : zlen (kv_bytes (request_entries req)) < 2 ^ 16;
  sd_size : zlen (request_frame pb_serialize req session_id) < 2 ^ 32;
  sd_timeout : 0 < timeout /\ timeout * 1000 < 2 ^ 31;
  sd_timer : timer_id <> 0;
  sd_elapsed : 0 <= i32 (u64 (timeout - elapsed));
  sd_accepts : Forall (fun a => 0 <= fst a) answers;
  sd_enough : zlen (request_frame pb_serialize req session_id) <= zsum fst answers;
  sd_offered : forall ok st' buf, assembleBoltRequest pb_serialize req session_id st clear = Some (ok, st', buf) ->
               writes_ok answers (length_ buf) st' buf
}.

Lemma bolt_send_ok req response session_id begin_time timeout timer_id elapsed answers st sk sk1 :
  sends req session_id timeout timer_id elapsed answers st ->
  prepareRead (call_session session_id begin_time response new_session) sk = Some sk1 ->
  bolt_send pb_serialize req response session_id begin_time timeout timer_id elapsed answers st sk
  = Some (SESSION_OK, request_frame pb_serialize req session_id, sk1).
Proof.
  intros [Hst Hc Hroom Hsz Htot [Ht Ht2] Htid Hel Hpos Hsum Hfit] Hprep.
  assert (buf_ok st clear) as Hclear by (split; [constructor|apply le_n]).
  pose proof (zlen_nonneg class_name). pose proof (zlen_nonneg (request_content pb_serialize req)).
  pose proof (zlen_nonneg (kv_bytes (request_entries req))).
  assert (zlen (request_frame pb_serialize req session_id) = 22 + (zlen class_name
    + (zlen (kv_bytes (request_entries req)) + zlen (request_content pb_serialize req)))) as Hlen
    by (unfold request_frame; by rewrite !zlen_app, zlen_header).
  assert (bb_ok st clear) as Hbb by by split.
  destruct (serialize_frame pb_serialize req session_id _ st clear Hc Hbb ltac:(lia) Hsz ltac:(lia))
    as (st1 & buf & Hs & [Hst1 Hb] & Hcont & _).
  unfold bolt_send, assembleBoltRequest in *. rewrite Hs in *. specialize (Hfit _ _ _ eq_refl).
  change (contents st1 buf = request_frame pb_serialize req session_id) in Hcont. cbn [negb].
  rewrite bool_decide_eq_false_2 by (unfold expire_time; rewrite !(proj2 (Z.ltb_lt _ _)) by done; done).
  unfold prepareRead in *. destruct (_ <? MAX_PARALLEL_SESSION_SIZE_ON_SOCKET); [|discriminate Hprep].
  injection Hprep as Hprep. rewrite Hprep, (proj2 (Z.eqb_neq _ _)) by done.
  destruct (write_sends_all answers (i32 (u64 (timeout - elapsed))) st1 buf sk1)
    as (buf' & -> & _); try done; rewrite Hcont; lia || done.
Qed.

End Sending.

(** ** Receiving *)

Section Others.
Context {Msg : Type} (pb_parse : list Z -> option (Msg * Z)).
Implicit Types (m : gmap Z (bool * session * list Z * option (BoltResponse Msg))).

(** Responses with other ids do not touch a session. *)
Lemma deliver_others id frames : forall m,
  id ∉ frames.*1 -> foldl (spec_deliver pb_parse) m frames !! id = m !! id.
Proof.
  induction frames as [|f frames IH]; intros m Hid; [done|].
  cbn [foldl]. cbn in Hid. apply not_elem_of_cons in Hid as [Hne Hid]. rewrite IH by done.
  unfold spec_deliver. by apply lookup_alter_ne.
Qed.

Lemma deliver_once id f1 f2 bytes m life got response :
  (id ∉ f1.*1) -> (id ∉ f2.*1) -> m !! id = Some (true, life, got, response) ->
  foldl (spec_deliver pb_parse) m (f1 ++ (id, bytes) :: f2) !! id
  = Some (true, notify true None life, got ++ bytes, response).
Proof.
  intros H1 H2 Hm. rewrite foldl_app. cbn [foldl]. rewrite deliver_others by done.
  unfold spec_deliver at 1. cbn [fst snd]. rewrite lookup_alter_eq, deliver_others by done. by rewrite Hm.
Qed.

End Others.

Section Receiving.
Context {Msg D : Type}.
Implicit Types (sk : socket D (BoltResponse Msg)) (s : read_session D (BoltResponse Msg)).

(** A session handed to the socket is seen under its id when the id is new. *)
Lemma prepareRead_sessions s sk sk1 :
  prepareRead s sk = Some sk1 -> sessions sk !! r_request_id s = None -> sessions sk1 !! r_request_id s = Some s.
Proof.
  unfold prepareRead. case_match; [|done]. intros Hp Hn. injection Hp as <-.
  unfold sessions, pending in *. cbn [sk_session_map sk_session_info].
  apply lookup_union_None in Hn as [Hm Hi]. rewrite lookup_union_r by done.
  rewrite fmap_app, list_to_map_app, lookup_union_r by done. cbn. by apply lookup_insert_eq.
Qed.

(** A notified session that its sender has not released is not reclaimed. *)
Lemma reclaim_notified s : r_life s = notify true None new_session -> reclaim s = Some s.
Proof.
  intros Hl. unfold reclaim. rewrite Hl.
  change (reclaim_step (notify true None new_session)) with (Some (notify true None new_session)).
  cbv beta iota. change (se_alive (notify true None new_session)) with true. cbv iota. rewrite <- Hl. f_equal. destruct s. reflexivity.
Qed.

Lemma reclaim_keeps id s sk :
  sessions sk !! id = Some s -> r_life s = notify true None new_session ->
  sessions (tryReclaimSessionMap sk) !! id = Some s.
Proof.
  intros Hs Hl. unfold sessions in *. cbn [sk_session_map sk_session_info tryReclaimSessionMap].
  apply lookup_union_Some_raw in Hs as [Hs|[Hm Hi]].
  - apply lookup_union_Some_l. rewrite lookup_omap, Hs. cbn. by apply reclaim_notified.
  - rewrite lookup_union_r; [done|]. by rewrite lookup_omap, Hm.
Qed.

(** The loop thread reads the response with the header [h] in the middle of
    others: it answers the request that [sk1] waits for, of which [sk] does not
    know yet, it reports success, and no other response on the way has its id. *)
Record replies (pb_parse : list Z -> option (Msg * Z)) (clock : nat -> Z) (map_begin : gmap Z (read_session D (BoltResponse Msg)) -> option Z) (session_id : Z)
    (reads : list readv) (st : store) (sk sk1 : socket D (BoltResponse Msg)) (h : BoltHeader) (cls : list Z)
    (entries : list (list Z * list Z)) (content : list Z) (f1 f2 : list (Z * list Z)) (tail : list Z) : Prop := {
  rp_socket : socket_ok st sk;
  rp_status : sk_status sk = RPC_STATUS_OK;
  rp_new : sessions sk !! u32 session_id = None;
  rp_timely : timely clock sk1;
  rp_reads : reads_ok clock map_begin (bolt_protocol pb_parse) reads st sk1;
  rp_data : Forall data_or_interrupt reads;
  rp_frame : frame_ok h cls entries content;
  rp_size : h_class_len h + h_header_len h + h_content_len h <= MAX_BOLT_BODY_SIZE;
  rp_id : h_request_id h = u32 session_id /\ 0 < u32 session_id;
  rp_kind : h_proto h = BOLT_PROTOCOL_TYPE /\ h_type h = BOLT_PROTOCOL_RESPONSE
            /\ h_cmdcode h = BOLT_PROTOCOL_CMD_RESPONSE;
  rp_success : h_status h = SUCCESS;
  rp_entries : NoDup entries.*1;
  rp_content : content <> [];
  rp_others : Forall (fun f => is_response f /\ f.1 <> u32 session_id) (f1 ++ f2);
  rp_tail : incomplete tail;
  rp_before : incomplete (contents st (sk_read_buf sk));
  rp_stream : contents st (sk_read_buf sk) ++ concat (rd_input <$> reads)
              = concat (f1 ++ (u32 session_id, response_frame h cls entries content) :: f2).*2 ++ tail
}.

Lemma others_absent (id : Z) (f : list (Z * list Z)) :
  Forall (fun f => is_response f /\ f.1 <> id) f -> Forall is_response f /\ (id ∉ f.*1).
Proof.
  induction 1 as [|r f [Hr Hne] _ [IH1 IH2]]; [split; [constructor|set_solver]|].
  split; [by constructor|]. cbn. apply not_elem_of_cons. by split.
Qed.

(** The loop thread's part: the session holds the bytes of its response, and
    they parse. *)
Lemma bolt_reply (pb_parse : list Z -> option (Msg * Z)) clock map_begin session_id begin_time
    reads st sk sk1 h cls entries content str f1 f2 tail :
  prepareRead (call_session session_id begin_time (new_BoltResponse (RS_STRING str)) new_session) sk = Some sk1 ->
  replies pb_parse clock map_begin session_id reads st sk sk1 h cls entries content f1 f2 tail ->
  exists st' sk' s, onRead (Some (bolt_protocol pb_parse)) clock map_begin reads st sk1 = Some (st', sk')
    /\ sessions sk' !! u32 session_id = Some s
    /\ bolt_receive pb_parse st' s
       = Some (SESSION_OK, Some (mk_BoltResponse (Some h) cls (list_to_map entries) (RS_STRING content))).
Proof.
  intros Hprep [Hok Hs Hnew Htime Hr Hd Hf Hbody [Hid Hpos] (Hp & Ht & Hcmd) Hsu Hnd Hne Hoth Hi Hin Heq].
  apply Forall_app in Hoth as [[H1 Hn1]%others_absent [H2 Hn2]%others_absent].
  pose proof (prepareRead_sessions _ _ _ Hprep Hnew) as Hsess. cbn [r_request_id call_session] in Hsess.
  unfold converseBoltRequest in Hsess.
  assert (sk_read_buf sk1 = sk_read_buf sk /\ sk_status sk1 = sk_status sk /\ socket_ok st sk1) as (Hrb & Hst1 & Hok1).
  { unfold prepareRead in Hprep. case_match; [|done]. injection Hprep as <-. split_and!; [done..|].
    destruct Hok as [Hst Hb Hm Hinfo]. split; [done|done|done|]. cbn [sk_session_info]. apply Forall_app.
    split; [done|]. apply Forall_cons; [|constructor]. cbn. split; [constructor|apply le_n]. }
  rewrite <- Hrb in Heq, Hin.
  assert (Forall is_response (f1 ++ (u32 session_id, response_frame h cls entries content) :: f2)) as Hall.
  { apply Forall_app. split; [done|]. apply Forall_cons; [|done]. by exists h, cls, entries, content. }
  destruct (read_stream pb_parse clock map_begin reads st sk1 _ tail Hok1 Htime Hr Hd Hall Hi Hin Heq)
    as (st' & sk' & Hrun & Hok' & _ & _ & Hv & _).
  pose proof (deliver_once pb_parse (u32 session_id) f1 f2 (response_frame h cls entries content) (view st sk1)
    new_session [] (Some (new_BoltResponse (RS_STRING str))) Hn1 Hn2) as Hdel.
  rewrite <- Hv in Hdel. unfold view in Hdel. rewrite !lookup_fmap, Hsess in Hdel. specialize (Hdel eq_refl).
  destruct (sessions sk' !! u32 session_id) as [s|] eqn:Es; [|discriminate Hdel].
  cbn in Hdel. unfold session_view in Hdel. injection Hdel as Hsync Hlife Hbytes Hresp.
  exists st', (tryReclaimSessionMap sk'), s. split_and!.
  - unfold onRead, active. by rewrite Hst1, bool_decide_eq_true_2, Hrun by done.
  - by apply reclaim_keeps.
  - unfold bolt_receive. rewrite Hlife, Hresp. change (se_results (notify true None new_session)) with [SESSION_OK].
    pose proof (sko_sessions _ _ Hok' _ _ Es) as Hbs.
    destruct (response_read_back pb_parse st' (r_read_buf s) h cls entries content [] str) as (b & Hde & _); try done.
    { split; [exact (sko_store _ _ Hok')|exact Hbs]. }
    { by rewrite app_nil_r. }
    unfold parseBoltResponse. by rewrite Hde.
Qed.

End Receiving.

(** ** The whole call *)

(** C3: a synchronous call over Bolt into a string. Conditions of sending
    ([sends], [prepareRead]): the request is a string or a protobuf message of
    at least one byte (the content of a C string is misplaced:
    [cstring_content_misplaced]), its header entries take less than 2^16 bytes
    and its frame less than 2^32, there is memory for it, the socket's queue is
    not full, the timer takes the task, the timeout is positive, fits in an
    [int] as microseconds and has not passed at the write, and each [writev]
    accepts a number of the bytes offered, never failing or answering [EAGAIN]
    ([write_eagain_loses]). Conditions of the reply ([replies]): the socket is
    connected, the id of the request is above 0 and unknown to the socket, the
    descriptor yields complete responses with ids above 0, cut into reads in any
    way, among them one with this id, of the kind RESPONSE with status SUCCESS,
    distinct header keys and a content that is not empty. Then the sender writes
    exactly the frame of the request, without an error; and after the read event
    the session still exists, has been notified with success, and the response
    the caller gets from it has the header, the class name, the header entries
    and the content that the server sent. *)
Theorem bolt_exchange {Msg D : Type} (pb_serialize : Msg -> list Z) (pb_parse : list Z -> option (Msg * Z))
    (req : BoltRequest Msg) (session_id begin_time timeout timer_id elapsed : Z) (answers : list (Z * Z))
    (sender loop : store) (sk sk1 : socket D (BoltResponse Msg)) (clock : nat -> Z)
    (map_begin : gmap Z (read_session D (BoltResponse Msg)) -> option Z)
    (reads : list readv) (h : BoltHeader) (cls : list Z) (entries : list (list Z * list Z)) (content str : list Z)
    (f1 f2 : list (Z * list Z)) (tail : list Z) :
  let response := new_BoltResponse (RS_STRING str) in
  sends pb_serialize req session_id timeout timer_id elapsed answers sender ->
  prepareRead (call_session session_id begin_time response new_session) sk = Some sk1 ->
  replies pb_parse clock map_begin session_id reads loop sk sk1 h cls entries content f1 f2 tail ->
  bolt_send pb_serialize req response session_id begin_time timeout timer_id elapsed answers sender sk
  = Some (SESSION_OK, request_frame pb_serialize req session_id, sk1)
  /\ exists st' sk' s, onRead (Some (bolt_protocol pb_parse)) clock map_begin reads loop sk1 = Some (st', sk')
       /\ sessions sk' !! u32 session_id = Some s
       /\ bolt_receive pb_parse st' s
          = Some (SESSION_OK, Some (mk_BoltResponse (Some h) cls (list_to_map entries) (RS_STRING content))).
Proof.
  intros response Hsend Hprep Hreply. split; [by apply bolt_send_ok|]. by eapply bolt_reply.
Qed.

(** Two requests are on their way; ours has the id 9. Its response comes
    second, in two reads. *)
Definition sample_bolt_request : BoltRequest unit :=
  data (RD_STRING (Some (bytes_of_string "payload"))) (service (bytes_of_string "svc:1.0") new_BoltRequest).

Definition sample_reply_header : BoltHeader := mk_BoltHeader 1 0 2 1 9 11 0 1 10 3.
Definition sample_entries : list (list Z * list Z) := [([107], [118])].
Definition sample_answer : list Z := response_frame sample_reply_header [65] sample_entries [1; 2; 3].

Definition sample_call_socket : socket unit (BoltResponse unit) :=
  mk_socket RPC_STATUS_OK clear (sk_session_info sample_socket ++ [call_session 9 3 sample_target new_session]) ∅ 0 None 0.

Definition sample_call_reads : list readv :=
  let bytes := (sample_frame 8 [1; 2]).2 ++ sample_answer in
  [mk_readv (take 30 bytes) 30 0; mk_readv [] (-1) EINTR; mk_readv (drop 30 bytes) 26 0].

Lemma sample_sends :
  sends (fun _ : unit => []) sample_bolt_request 9 500 4 1 [(100, 0); (0, 0); (100, 0)] two_blocks_store.
Proof.
  split.
  - apply two_blocks_store_ok.
  - reflexivity.
  - vm_compute. discriminate.
  - vm_compute. reflexivity.
  - vm_compute. reflexivity.
  - split; reflexivity.
  - discriminate.
  - vm_compute. discriminate.
  - repeat (apply Forall_cons; [cbn; lia|]). constructor.
  - vm_compute. discriminate.
  - intros ok st' buf Hrun. vm_compute in Hrun. injection Hrun as <- <- <-. vm_compute. repeat split; discriminate.
Qed.

Lemma sample_replies :
  replies (fun _ => None) (fun n => 10 + Z.of_nat n) (fun _ => None) 9 sample_call_reads two_blocks_store sample_socket
    sample_call_socket sample_reply_header [65] sample_entries [1; 2; 3] [sample_frame 8 [1; 2]] [] [].
Proof.
  assert (incomplete []) as Hinc.
  { exists (sample_frame 1 []), 1, (drop 1 (sample_frame 1 []).2). split; [|reflexivity].
    apply sample_frame_response; [lia|vm_compute; discriminate]. }
  split.
  - apply sample_socket_ok.
  - reflexivity.
  - reflexivity.
  - repeat constructor; intros n; cbn; lia.
  - vm_compute. repeat split; try discriminate; first [left; reflexivity|right; split; reflexivity].
  - repeat constructor; vm_compute; first [left; reflexivity|right; split; reflexivity].
  - repeat split; vm_compute; try reflexivity; discriminate.
  - vm_compute. discriminate.
  - split; reflexivity.
  - repeat split.
  - reflexivity.
  - cbn. apply NoDup_singleton.
  - discriminate.
  - apply Forall_cons; [|constructor]. split; [|discriminate].
    apply sample_frame_response; [lia|vm_compute; discriminate].
  - exact Hinc.
  - exact Hinc.
  - vm_compute. reflexivity.
Qed.

Lemma bolt_exchange_witness :
  (exists frame, bolt_send (fun _ : unit => []) sample_bolt_request sample_target 9 3 500 4 1 [(100, 0); (0, 0); (100, 0)]
                   two_blocks_store sample_socket = Some (SESSION_OK, frame, sample_call_socket) /\ zlen frame = 200)
  /\ exists st' sk' s, onRead (Some (bolt_protocol (fun _ => None))) (fun n => 10 + Z.of_nat n) (fun _ => None)
                         sample_call_reads two_blocks_store sample_call_socket = Some (st', sk')
       /\ sessions sk' !! 9 = Some s
       /\ bolt_receive (fun _ => None) st' s
          = Some (SESSION_OK, Some (mk_BoltResponse (Some sample_reply_header) [65] {[ [107] := [118] ]}
                                      (RS_STRING [1; 2; 3]))).
Proof.
  destruct (bolt_exchange (fun _ : unit => []) (fun _ => None) sample_bolt_request 9 3 500 4 1 [(100, 0); (0, 0); (100, 0)]
    two_blocks_store two_blocks_store sample_socket sample_call_socket (fun n => 10 + Z.of_nat n) (fun _ => None)
    sample_call_reads sample_reply_header [65] sample_entries [1; 2; 3] [] [sample_frame 8 [1; 2]] [] []
    sample_sends eq_refl sample_replies) as [Hsend Hreply].
  split; [eexists; split; [exact Hsend|vm_compute; reflexivity]|exact Hreply].
Defined.
